(* ===== verification/_CoqProject ===== *)
-Q . S2P
Prelude.v
Upstream.v
Ring.v
Node.v
Auth.v
Rpc.v
Health.v
HealthFacts.v
Wire.v
WireFacts.v
Members.v
MembersFacts.v
Barrier.v
BarrierFacts.v
FlowConfig.v
Control.v
Recorded.v
StateMachine.v
Demo.v
ControlDemo.v
ApplyFacts.v
Replica.v
Projection.v
Intents.v
IntentsFacts.v
LogStore.v
Snapshot.v
Transfer.v
Shard.v
ShardFacts.v
ShardDisk.v
Flow.v
FlowFacts.v
FlowSpec.v
FlowFleet.v
Drive.v
DriveFacts.v
Sequencer.v
SequencerFacts.v
Proxy.v
ProxyFacts.v
ProxyLog.v
Session.v
SessionFacts.v
Json.v
Spec.v
SpecPath.v
SpecSchema.v
SpecCompile.v
Routing.v
RoutingFacts.v
Front.v
FrontHandle.v
FrontFacts.v
FrontRoutes.v
FrontReads.v
FrontRoutesFacts.v
Operator.v
OperatorFacts.v
Startup.v
StartupFacts.v
Runtime.v
RuntimeFacts.v
RaftNet.v
RaftNetFacts.v
RaftNode.v
RaftNodeFacts.v
Server.v
ServerFacts.v
