(* ===== verification/Prelude.v ===== *)
(** * rift-cluster: a verification development

    rift-cluster turns a single-process HTTP mock engine into a fleet. Its parts, and
    the files that model them (paths under [src/crates/rift-cluster/src] unless given
    in full):

    - The control plane ([control.rs]) is a replicated log of operations on imposters,
      stubs, routes, a session key and a fleet name. [Control] has its operations,
      admission checks, edit scripts, wire forms and verdict cache; [Upstream] has what
      the sources read of the engine's configs.
    - The state machine ([raft/store.rs]) applies the log. [StateMachine] has one
      definition per operation and the apply loop with its dedup window; [Recorded] has
      the ids and the placement of recorded stubs. [ApplyFacts] proves the invariant of
      the tables and what a refusal, a marker and a conditional write do; [Replica]
      proves that replicas agree, that a replay is idempotent and that apply is total;
      [Projection] relates the tables to what the engine is driven to and to the
      statuses the admin front answers.
    - The engine drive ([raft/store.rs]): [Drive] carries the actions of an apply into
      the engine, with the failure maps, the degraded flag, stub edits and the cold
      start; [DriveFacts] proves that a missed drive is remembered until repaired, and
      that edits and flow state follow the committed config.
    - Storage ([raft/store.rs]): [LogStore] refines the abstract log openraft relies on;
      [Snapshot] has snapshots, their files step by step, crashes, and the format gate;
      [Transfer] ([raft/network.rs]) has the leader's and the follower's half of a
      snapshot transfer.
    - Accepted writes ([raft/store.rs], [raft/node.rs], and [compose.rs],
      [admin_front.rs], [cluster_api.rs] of [src/crates/rift-cluster-server/src]):
      [Intents] has the ledger of parked writes, the leader chase, the committing half of
      a mutation and the replayer; [IntentsFacts] proves that an accepted write is applied
      exactly once and that the handler, the task and the replayer refine one step
      relation.
    - Membership ([raft/network.rs], [raft/node.rs]): [Members] has admission, promotion,
      departure, retirement and the sweeps, under the gate; [Barrier] has the
      read-after-write barrier, the departure loop and the hold on elections.
      [MembersFacts] proves the voter bounds and what a retirement has established,
      [BarrierFacts] what the barrier's outcome says of each member.
    - Ownership ([raft/ring.rs]): [Ring], rendezvous hashing over the voters.
    - The transport: [Auth] ([rpc/auth.rs]) has the keyed authentication of a request and
      its replay cache; [Rpc] ([rpc/mod.rs]) the errors; [Health] ([rpc/client.rs]) the
      breaker, its trials and the retries; [Wire] ([rpc/routes.rs], [rpc/server.rs],
      [rpc/client.rs]) the request as built, checked, dispatched and answered, and the
      errors as read back. [HealthFacts] proves that trials are serial and retries
      bounded, [WireFacts] that a handler runs only behind its checks and that a refusal
      keeps its class.
    - The stores share [Node], the weak reference to the node behind them.
    - Flow state: [FlowConfig] ([stores/flow_config.rs], the modes of
      [stores/sequencer.rs]) has its knobs and namespaces; [Shard] ([stores/shard.rs])
      one node's slice, mirror, writer and file; [Flow] ([stores/flow.rs]) the
      distributed store over it. [ShardFacts] proves convergence and eviction,
      [ShardDisk] durability and recovery; [FlowFacts] proves that replicas follow the
      owner, [FlowSpec] that the owner implements an abstract map of registers, and
      [FlowFleet] what holds across nodes.
    - Sequencing ([stores/sequencer.rs]): [Sequencer] has the registry, the decision by
      mode and the owner's cursor; [SequencerFacts] proves that the fleet cycles as one
      engine would.
    - Proxy recording ([stores/proxy.rs]): [Proxy] has the owner's claim table as lock
      sections and the client's chase; [ProxyFacts] proves claims exclusive, and
      [ProxyLog], with the log of applied recordings, that a response is recorded once.
    - Sessions ([src/crates/rift-cluster-server/src/session.rs], [admin_front.rs]):
      [Session] has signing keys, tokens, the admin gate, login, rotation and the
      credential strips; [SessionFacts] proves what the gate lets through.
    - The OpenAPI compiler ([src/crates/rift-cluster-spec/src]): [Json] has JSON values
      with binary64 numbers; [Spec] the whole crate: path templates, schemas resolved
      under a depth cap and a node budget, seeded bodies, the checks of a body, and the
      compilation of a document into stubs. [SpecPath] proves that a compiled pattern
      matches exactly its template's paths and that the most specific route comes first;
      [SpecSchema] that rendered bodies conform and that resolution is bounded;
      [SpecCompile] that references are checked, stub ids distinct, and each declared
      status reachable.
    - The admin front ([src/crates/rift-cluster-server/src/admin_front.rs]): [Routing] has
      the routes it terminates, query parameters and revision tokens; [Front] the ops a
      route commits and the checks before anything is parked; [FrontHandle] the dispatch
      behind the gate, the commit and the answer with its warnings; [FrontRoutes] the
      one-shot compile and the try of an imposter; [FrontReads] the proxied legs, the
      decorations of a read, the teardown, and the terminated routes together.
      [RoutingFacts] proves the routing and the tokens exact; [FrontFacts] that all of it
      is behind the gate, that a whole-set replace never loses what it keeps, that an
      admitted write is one the engine runs, and that a read's token is a compare-and-swap;
      [FrontRoutesFacts] that a try reaches only its imposter and that a teardown is not
      reported done unless it is. The engine's decoders and its own listener, UUIDs, HTTP
      parsing and JSON text are parameters.
    - The operator's surface (readiness.rs, probes.rs, cluster_api.rs, fleet.rs and
      write_path.rs of [src/crates/rift-cluster-server/src/]): [Operator] has the readiness
      latch, the probes, the reports of one node and the fan-outs over the voters.
      [OperatorFacts] proves the probe open exactly when every gate has reported and no
      leave has begun, the fleet's backlog a floor that is exact when it is not marked
      partial, and a member's row that member's own words. Peers' replies, the order in
      which they end and the budget are inputs.
    - Starting and leaving ([src/crates/rift-cluster-server/src/compose.rs]): [Startup] has
      the decision to resume, join, rejoin or found a cluster with the departure marker, the
      passes over seeds, the reconciler's sweeps, the graceful leave and shutdown, and the
      import of documents named at the start. [StartupFacts] proves that a start ends and
      which of these it takes, that a node that left comes back by asking, that sweeps keep
      their pace, and that an import puts exactly what the documents hold, or stops. The
      passes have fuel 301: thirty seconds of pauses of at least a tenth of one.
    - The runtime's small parts (config.rs, bridge.rs, decorate.rs, pull_on_miss.rs and
      raft/identity.rs of [src/crates/rift-cluster/src/]): [Runtime] has the configuration's
      guards, the identity file, header notes, the permits of the bridge and the wait of a
      miss. [RuntimeFacts] proves the permits exact under every interleaving, the identity
      never torn by a crash, the guards exact, and a miss retried only when the node lagged.
    - The raft network ([src/crates/rift-cluster/src/raft/network.rs]): [RaftNet] has the
      sending side openraft drives and the routes that receive. [RaftNetFacts] proves that
      an AppendEntries answer never claims entries its transfer did not carry, that the
      ticker speaks for a leader openraft leaves silent and for nobody else, and that a
      snapshot's chunks are the payload, in order, the last one marked.
    - The raft node ([src/crates/rift-cluster/src/raft/node.rs]): [RaftNode] has its reads of
      the metrics, calls, writes and joins, the hold on elections after a restart, its start
      and its shutdown. [RaftNodeFacts] proves that a restarted member campaigns early only
      on word from the wire, that a join succeeds only by an admission, that both write
      paths read openraft alike, that the port serves only once the hold is in place, and
      that a shutdown ends: 2001 readings a millisecond apart outlast its two seconds.
    - The command line and the console (cli.rs, bootstrap.rs, cluster_cmd.rs, console.rs and
      main.rs of [src/crates/rift-cluster-server/src/]): [Server] has the cluster flags and
      the secret file, the PID file and the subcommands that read it, the race of a start
      with a signal, the operator's remove-node, and the console's answers. [ServerFacts]
      proves that no clustered process starts without a secret unless told to, that a
      process removes no PID file but its own, that only a positive PID is signalled, and
      that the console serves only what lies in its bundle, with its policy on every answer.
    - [Demo], [ControlDemo] and the ends of the files above hold the concrete inputs at
      which theorems with hypotheses are applied.

    ** State and effects

    A redb table is a [gmap], a file tree a map of paths, a mutex-guarded structure a
    record passed through each operation. A lock's critical section is one step; where
    the sources drop a lock between two steps they are separate definitions, so that
    other steps can come between ([Shard], [Flow], [Proxy], [Members]). Time, randomness,
    the network and the outcome of a disk write are arguments. Errors are values of
    [result].

    Integers are [N] (or [Z] for [i64]); saturation, wrap-around and checked arithmetic
    are written out where the sources rely on them. An [f64] is a float of the Standard
    Library's specification of binary64.

    Code outside the repository is a parameter: the hash, the MAC and SHA-256 are
    functions, JSON serialisation and the snapshot codec classes with their round-trip
    laws, the engine's cycler, predicates and regular expressions classes with their
    documented laws, the engine's judgement of a config a function. Each is instantiated
    where a theorem about it is applied.

    ** Fuel

    Recursion is structural except for these. [Shard.shed] is fuelled by the number of
    flows: one leaves at each turn, and [evict_lru] shows that this is enough.
    [Flow.chunks] and [partial_segment_go] are fuelled by the length of what they cut.
    The rounds of the barrier are fuelled too: [barrier_exact] shows that [barrier_fuel]
    rounds reach the deadline. A reset's delivery ([deliver_one]) is fuelled by the number
    of its attempts. The fuel of [Spec.resolve] is the stack
    it runs on, and running out of it is an outcome of the model: [normalize_bounded]
    gives a depth that is enough when aliases end, and [alias_cycle_diverges] shows that
    none is when they do not.

    ** Not modelled

    HTTP itself, argument parsing, the rcfile and the admin listener's address are libraries
    or the upstream engine's. The construction of the listeners and of the engine in
    compose.rs is wiring of the components above, and the bridged, blocking face of the flow
    store is its asynchronous face behind the bridge of [Runtime]. openraft's own protocol
    is a library the sources call: the log, vote, snapshot and transport interfaces it
    relies on are verified here, its elections and replication are not. Metrics, logging,
    the text of the served contract and re-exports are left out throughout. *)

From Stdlib Require Export NArith ZArith Lia Ascii String.
From stdpp Require Export base tactics numbers list sorting option gmap strings pretty.

(** ** Machine integers

    A [u64], [u16] or [usize] value is an [N]; what the source does at the edge
    of the width is written out where it is used. *)

Definition u64_max : N := 18446744073709551615.
Definition u16_max : N := 65535.

(** [u64::saturating_add] and [u64::saturating_mul]; [u64::saturating_sub] is
    [N.sub]. *)
Definition sat_add (a b : N) : N := N.min (a + b) u64_max.
Definition sat_mul (a b : N) : N := N.min (a * b) u64_max.

(** [u64::abs_diff]. *)
Definition abs_diff (a b : N) : N := if (a <? b)%N then (b - a)%N else (a - b)%N.

(** ** Results *)

Inductive result (E A : Type) :=
  | Ok (a : A)
  | Err (e : E).
Arguments Ok {E A} a.
Arguments Err {E A} e.

Global Instance result_ret E : MRet (result E) := fun A a => Ok a.
Global Instance result_bind E : MBind (result E) := fun A B f m =>
  match m with Ok a => f a | Err e => Err e end.
Global Instance result_fmap E : FMap (result E) := fun A B f m =>
  match m with Ok a => Ok (f a) | Err e => Err e end.

Definition is_ok {E A} (r : result E A) : bool :=
  match r with Ok _ => true | Err _ => false end.

(** [Option::ok_or]. *)
Definition ok_or {E A} (e : E) (o : option A) : result E A :=
  match o with Some a => Ok a | None => Err e end.

(** [Result::ok]. *)
Definition result_ok {E A} (r : result E A) : option A :=
  match r with Ok a => Some a | Err _ => None end.

(** ** Strings

    A [&str] is the sequence of its UTF-8 bytes, a [&[u8]] a list of [ascii]
    (an [ascii] is any eight bits). *)

Abbreviation bytes := (list ascii).

Definition as_bytes (s : string) : bytes := list_ascii_of_string s.

Definition byte_of (n : N) : ascii := ascii_of_N n.

(** [u64::to_le_bytes]: [k] bytes, least significant first. *)
Fixpoint le_bytes (k : nat) (n : N) : bytes :=
  match k with
  | O => []
  | S k' => byte_of (n mod 256) :: le_bytes k' (n / 256)
  end.

Definition to_le_bytes (n : N) : bytes := le_bytes 8 n.

(** The value of a digit of [radix], as [char::to_digit]. *)
Definition digit_val (radix : N) (c : ascii) : option N :=
  let n := N_of_ascii c in
  let d := if (48 <=? n)%N && (n <=? 57)%N then Some (n - 48)%N
           else if (97 <=? n)%N && (n <=? 122)%N then Some (n - 87)%N
           else if (65 <=? n)%N && (n <=? 90)%N then Some (n - 55)%N
           else None in
  match d with
  | Some v => if (v <? radix)%N then Some v else None
  | None => None
  end.

(** [uN::from_str_radix] on the digits after the sign: every digit is checked,
    and an overflow at any step is an error. *)
Fixpoint parse_digits (radix max acc : N) (s : string) : option N :=
  match s with
  | EmptyString => Some acc
  | String c s' =>
      match digit_val radix c with
      | Some d =>
          let v := (acc * radix + d)%N in
          if (v <=? max)%N then parse_digits radix max v s' else None
      | None => None
      end
  end.

(** [uN::from_str_radix]: a leading plus sign is accepted, an empty string or a
    lone sign is not. *)
Definition from_str_radix (radix max : N) (s : string) : option N :=
  match s with
  | EmptyString => None
  | String c s' =>
      if Ascii.eqb c "+"%char
      then match s' with EmptyString => None | _ => parse_digits radix max 0 s' end
      else parse_digits radix max 0 s
  end.

(** [str::parse::<u64>] and [str::parse::<u16>]. *)
Definition parse_u64 (s : string) : option N := from_str_radix 10 u64_max s.
Definition parse_u16 (s : string) : option N := from_str_radix 10 u16_max s.

Fixpoint string_forallb (p : ascii -> bool) (s : string) : bool :=
  match s with
  | EmptyString => true
  | String c s' => p c && string_forallb p s'
  end.

(** [str::strip_prefix]; [str::starts_with] is [is_some] of it. *)
Fixpoint strip_prefix (p s : string) : option string :=
  match p with
  | EmptyString => Some s
  | String c p' =>
      match s with
      | String d s' => if Ascii.eqb c d then strip_prefix p' s' else None
      | EmptyString => None
      end
  end.

Definition starts_with (p s : string) : bool :=
  match strip_prefix p s with Some _ => true | None => false end.

(** [str::split_once]: at the first occurrence of a non-empty pattern. *)
Fixpoint split_once (p s : string) : option (string * string) :=
  match strip_prefix p s with
  | Some rest => Some (EmptyString, rest)
  | None =>
      match s with
      | EmptyString => None
      | String c s' =>
          match split_once p s' with
          | Some (a, b) => Some (String c a, b)
          | None => None
          end
      end
  end.

(** [str::split] at a single character: never empty. *)
Fixpoint split_char (sep : ascii) (s : string) : list string :=
  match s with
  | EmptyString => [EmptyString]
  | String c s' =>
      if Ascii.eqb c sep then EmptyString :: split_char sep s'
      else match split_char sep s' with
           | [] => [String c EmptyString]
           | h :: t => String c h :: t
           end
  end.

(** [(0..s.len()).step_by(2).map(|i| u8::from_str_radix(&s[i..i + 2], 16))]
    collected: two characters at a time, one failure fails the whole. *)
Fixpoint hex_pairs (s : string) : option bytes :=
  match s with
  | EmptyString => Some []
  | String a (String b s') =>
      v ← from_str_radix 16 255 (String a (String b EmptyString));
      r ← hex_pairs s';
      Some (byte_of v :: r)
  | String _ EmptyString => None
  end.

Definition is_ascii_digit (c : ascii) : bool :=
  let n := N_of_ascii c in (48 <=? n)%N && (n <=? 57)%N.

Definition is_ascii_hexdigit (c : ascii) : bool :=
  let n := N_of_ascii c in
  is_ascii_digit c || (97 <=? n)%N && (n <=? 102)%N || (65 <=? n)%N && (n <=? 70)%N.

Definition is_ascii_alphanumeric (c : ascii) : bool :=
  let n := N_of_ascii c in
  is_ascii_digit c || (97 <=? n)%N && (n <=? 122)%N || (65 <=? n)%N && (n <=? 90)%N.

Definition is_ascii_uppercase (c : ascii) : bool :=
  let n := N_of_ascii c in (65 <=? n)%N && (n <=? 90)%N.

(** ** Vectors *)

(** [Vec::insert] and [Vec::remove] at an index the caller has bounded. *)
Definition vec_insert {A} (i : nat) (x : A) (l : list A) : list A :=
  take i l ++ x :: drop i l.

Definition vec_remove {A} (i : nat) (l : list A) : list A :=
  take i l ++ drop (S i) l.

(** [Iterator::position]. *)
Fixpoint position {A} (p : A -> bool) (l : list A) : option nat :=
  match l with
  | [] => None
  | x :: l' => if p x then Some 0 else S <$> position p l'
  end.

(** [Vec::dedup]: consecutive duplicates collapse. *)
Fixpoint dedup {A} `{EqDecision A} (l : list A) : list A :=
  match l with
  | [] => []
  | x :: l' =>
      match dedup l' with
      | [] => [x]
      | y :: l'' => if decide (x = y) then y :: l'' else x :: y :: l''
      end
  end.

(** ** Automation *)

Create Rewrite HintDb rift.

(** Case analysis on every [if] and [match] that blocks the goal or a
    hypothesis, closing the absurd branches. *)
Ltac split_cases :=
  repeat (case_match; simplify_eq/=; try done).

Ltac bool_props :=
  repeat match goal with
  | H : (_ <? _)%N = true |- _ => apply N.ltb_lt in H
  | H : (_ <? _)%N = false |- _ => apply N.ltb_ge in H
  | H : (_ <=? _)%N = true |- _ => apply N.leb_le in H
  | H : (_ <=? _)%N = false |- _ => apply N.leb_gt in H
  | H : (_ =? _)%N = true |- _ => apply N.eqb_eq in H
  | H : (_ =? _)%N = false |- _ => apply N.eqb_neq in H
  | H : (_ && _)%bool = true |- _ => apply andb_true_iff in H; destruct H
  | H : (_ || _)%bool = false |- _ => apply orb_false_iff in H; destruct H
  | H : negb _ = true |- _ => apply negb_true_iff in H
  | H : negb _ = false |- _ => apply negb_false_iff in H
  | H : bool_decide _ = true |- _ => apply bool_decide_eq_true in H
  | H : bool_decide _ = false |- _ => apply bool_decide_eq_false in H
  end.

(** ** Generic lemmas *)

Lemma byte_of_inj n m : (n < 256)%N -> (m < 256)%N -> byte_of n = byte_of m -> n = m.
Proof.
  intros Hn Hm H. unfold byte_of in H.
  by rewrite <- (N_ascii_embedding n Hn), <- (N_ascii_embedding m Hm), H.
Qed.

Lemma length_le_bytes k n : length (le_bytes k n) = k.
Proof. revert n. induction k; intros; simpl; auto. Qed.

Lemma le_bytes_inj k n m :
  (n < 256 ^ N.of_nat k)%N -> (m < 256 ^ N.of_nat k)%N ->
  le_bytes k n = le_bytes k m -> n = m.
Proof.
  revert n m. induction k as [|k IH]; intros n m Hn Hm; simpl.
  - change (256 ^ N.of_nat 0)%N with 1%N in *. lia.
  - rewrite Nat2N.inj_succ, N.pow_succ_r' in Hn, Hm. intros H. injection H as Hb Hr.
    apply IH in Hr; [|apply N.Div0.div_lt_upper_bound; lia..].
    apply byte_of_inj in Hb; [|apply N.mod_lt; lia..].
    rewrite (N.div_mod n 256), (N.div_mod m 256) by lia. lia.
Qed.

(** Equal concatenations whose heads have the same length have equal parts. *)
Lemma app_split_length {A} (a b c d : list A) :
  length a = length c -> a ++ b = c ++ d -> a = c /\ b = d.
Proof. intros Hl. by apply app_inj_1. Qed.

Lemma as_bytes_inj s t : as_bytes s = as_bytes t -> s = t.
Proof.
  intros H%(f_equal string_of_list_ascii). unfold as_bytes in H.
  by rewrite !string_of_list_ascii_of_string in H.
Qed.

Lemma string_forallb_app p s t :
  string_forallb p (s +:+ t) = string_forallb p s && string_forallb p t.
Proof. induction s as [|c s IH]; simpl; [done|]. by rewrite IH, andb_assoc. Qed.

Lemma string_forallb_impl (p q : ascii -> bool) s :
  (forall c, p c = true -> q c = true) -> string_forallb p s = true -> string_forallb q s = true.
Proof.
  intros Hpq. induction s as [|c s IH]; simpl; [done|].
  rewrite !andb_true_iff. intros [H1 H2]. auto.
Qed.

(** A property of every number below a concrete bound, checked one by one. *)
Lemma below_cases (P : N -> Prop) (k : nat) (n : N) :
  Forall P (N.of_nat <$> seq 0 k) -> (n < N.of_nat k)%N -> P n.
Proof.
  rewrite Forall_fmap, Forall_forall. intros H Hn. specialize (H (N.to_nat n)). simpl in H.
  rewrite N2Nat.id in H. apply H. apply elem_of_seq. lia.
Qed.

(** *** Decimal numerals *)

Lemma digit_val_pretty x : (x < 10)%N -> digit_val 10 (pretty_N_char x) = Some x.
Proof. apply (below_cases (fun x => digit_val 10 (pretty_N_char x) = Some x) 10). by repeat constructor. Qed.

Lemma is_digit_pretty_char x : is_ascii_digit (pretty_N_char x) = true.
Proof. by repeat (destruct x as [|x]; try done); destruct x as [[[[]|[]|]|[[]|[]|]|]|[[[]|[]|]|[[]|[]|]|]|]. Qed.

Lemma digits_pretty_N_go x s :
  string_forallb is_ascii_digit s = true -> string_forallb is_ascii_digit (pretty_N_go x s) = true.
Proof.
  revert s. induction (N.lt_wf_0 x) as [x _ IH]; intros s Hs.
  destruct (decide (0 < x)%N) as [Hx|Hx].
  - rewrite pretty_N_go_step by done. apply IH; [by apply N.div_lt|].
    simpl. by rewrite is_digit_pretty_char, Hs.
  - replace x with 0%N by lia. by rewrite pretty_N_go_0.
Qed.

Lemma digits_pretty (x : N) : string_forallb is_ascii_digit (pretty x) = true.
Proof. unfold pretty, pretty_N. case_decide; [done|]. by apply digits_pretty_N_go. Qed.

Lemma parse_digits_pretty_go max x s :
  (x <= max)%N -> parse_digits 10 max 0 (pretty_N_go x s) = parse_digits 10 max x s.
Proof.
  revert s. induction (N.lt_wf_0 x) as [x _ IH]; intros s Hx.
  destruct (decide (0 < x)%N) as [Hp|Hp].
  - rewrite pretty_N_go_step by done.
    assert (x / 10 < x)%N by (apply N.div_lt; lia).
    rewrite IH by lia. simpl.
    rewrite digit_val_pretty by (apply N.mod_lt; lia).
    replace (x / 10 * 10 + x mod 10)%N with x by (rewrite (N.div_mod x 10) at 1; lia).
    by rewrite (proj2 (N.leb_le _ _) Hx).
  - replace x with 0%N by lia. by rewrite pretty_N_go_0.
Qed.

Lemma parse_digits_pretty max (x : N) :
  (x <= max)%N -> parse_digits 10 max 0 (pretty x) = Some x.
Proof.
  intros. unfold pretty, pretty_N. case_decide as Hx; [by subst; destruct max|].
  by rewrite parse_digits_pretty_go.
Qed.

Lemma pretty_N_nonempty (x : N) : pretty x <> EmptyString.
Proof.
  intros H. pose proof (parse_digits_pretty x x ltac:(lia)) as Hp.
  rewrite H in Hp. simpl in Hp. injection Hp as <-. discriminate.
Qed.

(** A numeral printed by [Display] reads back, at any width that holds it. *)
Lemma from_str_radix_pretty max (x : N) :
  (x <= max)%N -> from_str_radix 10 max (pretty x) = Some x.
Proof.
  intros Hx. pose proof (digits_pretty x) as Hd. pose proof (parse_digits_pretty max x Hx) as Hp.
  unfold from_str_radix. destruct (pretty x) as [|c s] eqn:E; [by apply pretty_N_nonempty in E|].
  simpl in Hd. apply andb_true_iff in Hd as [Hc _].
  destruct (Ascii.eqb_spec c "+") as [->|_]; done.
Qed.

(** *** Substrings *)

Lemma strip_prefix_app p s : strip_prefix p (p +:+ s) = Some s.
Proof. induction p as [|c p IH]; simpl; [done|]. by rewrite Ascii.eqb_refl. Qed.

Lemma strip_prefix_Some p s r : strip_prefix p s = Some r <-> s = p +:+ r.
Proof.
  split; [|intros ->; apply strip_prefix_app].
  revert s. induction p as [|c p IH]; intros s; simpl; [by intros [= ->]|].
  destruct s as [|d s]; [done|]. destruct (Ascii.eqb_spec c d); [|done].
  intros ->%IH. by subst.
Qed.

Lemma starts_with_app p s : starts_with p (p +:+ s) = true.
Proof. unfold starts_with. by rewrite strip_prefix_app. Qed.

Lemma split_once_Some p s a b : split_once p s = Some (a, b) -> s = a +:+ p +:+ b.
Proof.
  revert a b. induction s as [|c s IH]; intros a b; simpl.
  - destruct (strip_prefix p EmptyString) eqn:E; intros [=]; subst.
    by apply strip_prefix_Some in E.
  - destruct (strip_prefix p (String c s)) eqn:E.
    + intros [=]; subst. by apply strip_prefix_Some in E.
    + destruct (split_once p s) as [[x y]|] eqn:E2; intros [=]; subst.
      by rewrite (IH x b eq_refl).
Qed.

(** A separator whose first character does not occur before it is found there. *)
Lemma split_once_app c p a b :
  string_forallb (fun d => negb (Ascii.eqb c d)) a = true ->
  split_once (String c p) (a +:+ String c p +:+ b) = Some (a, b).
Proof.
  induction a as [|d a IH]; intros Ha.
  - change (EmptyString +:+ ?x) with x.
    pose proof (strip_prefix_app (String c p) b) as H.
    destruct (String c p +:+ b) eqn:E; unfold split_once; by rewrite H.
  - simpl in Ha. apply andb_true_iff in Ha as [Hd Ha].
    apply negb_true_iff in Hd. simpl. rewrite Hd. simpl in IH. by rewrite IH.
Qed.

Lemma split_char_one sep s :
  string_forallb (fun c => negb (Ascii.eqb c sep)) s = true -> split_char sep s = [s].
Proof.
  induction s as [|c s IH]; [done|]. simpl. intros [Hc Hs]%andb_true_iff.
  rewrite IH by done. by destruct (Ascii.eqb c sep).
Qed.

Lemma split_char_app sep a b :
  string_forallb (fun c => negb (Ascii.eqb c sep)) a = true ->
  split_char sep (a +:+ String sep b) = a :: split_char sep b.
Proof.
  induction a as [|c a IH]; simpl; [by rewrite Ascii.eqb_refl|].
  intros [Hc Ha]%andb_true_iff. rewrite IH by done. by destruct (Ascii.eqb c sep).
Qed.

(** *** Bits *)

(** A number as bytes, for serialisations that only have to be read back. *)
Fixpoint pos_bits (p : positive) : bytes :=
  match p with
  | xH => []
  | xO p => "0"%char :: pos_bits p
  | xI p => "1"%char :: pos_bits p
  end.

Fixpoint bits_pos (b : bytes) : positive :=
  match b with
  | [] => xH
  | c :: b => if Ascii.eqb c "0" then xO (bits_pos b) else xI (bits_pos b)
  end.

Lemma bits_pos_bits p : bits_pos (pos_bits p) = p.
Proof. induction p as [p IH|p IH|]; simpl; by rewrite ?IH. Qed.

(** *** Lists *)

Lemma filter_all_id {A} (P : A -> Prop) `{forall x, Decision (P x)} l :
  Forall P l -> filter P l = l.
Proof. induction 1; [done|]. rewrite filter_cons_True by done. congruence. Qed.

Lemma append_assoc (a b c : string) : (a +:+ b) +:+ c = a +:+ b +:+ c.
Proof. induction a as [|x a IH]; [done|]. change (String x ((a +:+ b) +:+ c) = String x (a +:+ b +:+ c)). by rewrite IH. Qed.

Lemma append_inj_r (a b c : string) : a +:+ b = a +:+ c -> b = c.
Proof. induction a as [|x a IH]; [done|]. intros H. injection H as H. auto. Qed.

Lemma vec_insert_Permutation {A} i (x : A) l : vec_insert i x l ≡ₚ x :: l.
Proof. unfold vec_insert. rewrite <- Permutation_middle. by rewrite take_drop. Qed.

Lemma vec_remove_Permutation {A} i (x : A) l :
  l !! i = Some x -> l ≡ₚ x :: vec_remove i l.
Proof. intros H. unfold vec_remove. rewrite Permutation_middle. by rewrite (take_drop_middle l i x H). Qed.

Lemma vec_remove_insert {A} i (x : A) l : (i <= length l)%nat -> vec_remove i (vec_insert i x l) = l.
Proof.
  intros Hi. unfold vec_remove, vec_insert.
  rewrite take_app_length' by (rewrite length_take; lia).
  rewrite drop_app_ge by (rewrite length_take; lia).
  rewrite length_take, Nat.min_l by lia. replace (S i - i)%nat with 1%nat by lia. simpl.
  by rewrite drop_0, take_drop.
Qed.

Lemma vec_insert_lookup {A} i (x : A) l : (i <= length l)%nat -> vec_insert i x l !! i = Some x.
Proof.
  intros Hi. unfold vec_insert. rewrite lookup_app_r by (rewrite length_take; lia).
  rewrite length_take, Nat.min_l by lia. by rewrite Nat.sub_diag.
Qed.

Lemma length_vec_insert {A} i (x : A) l : length (vec_insert i x l) = S (length l).
Proof. by rewrite vec_insert_Permutation. Qed.

Lemma length_vec_remove {A} i (l : list A) : (i < length l)%nat -> length (vec_remove i l) = pred (length l).
Proof.
  intros [x H]%lookup_lt_is_Some_2.
  by rewrite (Permutation_length (vec_remove_Permutation i x l H)).
Qed.

Lemma position_Some {A} (p : A -> bool) l i :
  position p l = Some i <->
  (exists x, l !! i = Some x /\ p x = true) /\ forall j y, (j < i)%nat -> l !! j = Some y -> p y = false.
Proof.
  revert i. induction l as [|x l IH]; intros i; simpl.
  - split; [done|]. by intros [(x & ? & _) _].
  - destruct (p x) eqn:Hp.
    + split.
      * intros [= <-]. split; [eauto|]. intros j y Hj. lia.
      * intros [(y & Hy & Hpy) Hlt]. destruct i as [|i]; [done|]. by rewrite (Hlt 0%nat x) in Hp by (done || lia).
    + rewrite fmap_Some. setoid_rewrite IH. split.
      * intros (k & [(y & Hy & Hpy) Hlt] & ->). split; [eauto|]. intros [|j] z Hj; [by intros [= <-]|].
        apply Hlt. lia.
      * intros [(y & Hy & Hpy) Hlt]. destruct i as [|i]; [simpl in Hy; congruence|]. exists i. split; [|done].
        split; [eauto|]. intros j z Hj Hz. apply (Hlt (S j) z); [lia|done].
Qed.

Lemma position_None {A} (p : A -> bool) l : position p l = None <-> Forall (fun x => p x = false) l.
Proof.
  induction l as [|x l IH]; simpl; [done|]. rewrite Forall_cons, <- IH.
  destruct (p x); [by split; [|intros []]|]. rewrite fmap_None. tauto.
Qed.

Lemma existsb_false_Forall {A} (p : A -> bool) l : existsb p l = false <-> Forall (fun x => p x = false) l.
Proof. induction l as [|x l IH]; simpl; [done|]. by rewrite orb_false_iff, Forall_cons, IH. Qed.

Lemma omap_Permutation {A B} (f : A -> option B) l l' : l ≡ₚ l' -> omap f l ≡ₚ omap f l'.
Proof. by intros ->. Qed.

Lemma sublist_omap {A B} (f : A -> option B) l l' : l `sublist_of` l' -> omap f l `sublist_of` omap f l'.
Proof.
  induction 1 as [|x l l' H IH|x l l' H IH]; simpl; [constructor|..]; destruct (f x); try done; by constructor.
Qed.

Lemma omap_insert_same {A B} (f : A -> option B) (l : list A) (i : nat) x y :
  l !! i = Some x -> f x = f y -> omap f (<[i := y]> l) = omap f l.
Proof.
  revert i. induction l as [|z l IH]; intros i; [done|]. destruct i as [|i]; simpl.
  - intros [= ->] ->. done.
  - intros Hi Hf. specialize (IH i Hi Hf). destruct (f z); [f_equal|]; exact IH.
Qed.

Lemma Sorted_app_inv_l {A} (R : relation A) l k : Sorted R (l ++ k) -> Sorted R l.
Proof.
  induction l as [|x l IH]; [constructor|]. simpl. intros [Hs Hh]%Sorted_inv.
  constructor; [by apply IH|]. destruct l as [|y l]; [constructor|].
  apply HdRel_inv in Hh. by constructor.
Qed.

(** [Iterator::filter] that drops everything, and that keeps everything. *)
Lemma list_filter_none {A} (p : A -> bool) l : (forall x, x ∈ l -> p x = false) -> List.filter p l = [].
Proof.
  induction l as [|x l IH]; intros H; [done|]. simpl. rewrite H by left. apply IH. intros; apply H; by right.
Qed.

Lemma list_filter_every {A} (p : A -> bool) l : (forall x, x ∈ l -> p x = true) -> List.filter p l = l.
Proof.
  induction l as [|x l IH]; intros H; [done|]. simpl. rewrite H by left. f_equal. apply IH. intros; apply H; by right.
Qed.

Lemma elem_of_List_filter {A} (p : A -> bool) l x : x ∈ List.filter p l <-> x ∈ l /\ p x = true.
Proof. rewrite !list_elem_of_In. apply filter_In. Qed.

Lemma StronglySorted_List_filter {A} (R : relation A) (p : A -> bool) l :
  StronglySorted R l -> StronglySorted R (List.filter p l).
Proof.
  induction 1 as [|x l Hs IH Hf]; simpl; [constructor|]. destruct (p x); [|done]. constructor; [done|].
  rewrite Forall_forall in *. intros y [Hy _]%elem_of_List_filter. auto.
Qed.

Lemma elem_of_take_in {A} n (l : list A) x : x ∈ take n l -> x ∈ l.
Proof. intros H. rewrite <- (take_drop n l). apply elem_of_app. by left. Qed.

Lemma forallb_elem_of {A} (p : A -> bool) l x : forallb p l = true -> x ∈ l -> p x = true.
Proof. rewrite forallb_forall. intros H Hx. by apply H, list_elem_of_In. Qed.

Lemma result_ok_Some {E A} (r : result E A) a : result_ok r = Some a -> r = Ok a.
Proof. by destruct r; intros [= ->]. Qed.
