(* ===== verification/Upstream.v ===== *)
(** * What the cluster takes from the engine and from serde

    The engine's configuration types, cut to the fields this repository reads;
    everything else of a record is an opaque canonical text, carried and compared
    but never inspected. Below them, two interfaces: [Json], the serde round trips
    the stored rows rely on, and [EngineRules], the engine's own predicates on
    stubs and route tables. Nothing here is code of this repository. *)

From S2P Require Import Prelude.

(** A [serde_json::Value], read only through [as_str] and [Display]. *)
Inductive Value :=
  | VString (s : string)
  | VOther (rendered : string).

Definition as_str (v : Value) : option string :=
  match v with VString s => Some s | VOther _ => None end.

Definition lower_hex_digit (k : N) : ascii :=
  if (k <? 10)%N then byte_of (48 + k) else byte_of (87 + k).

Definition hex2 (n : N) : string :=
  String (lower_hex_digit (n / 16)%N) (String (lower_hex_digit (n mod 16)%N) EmptyString).

Definition quote_char : ascii := byte_of 34.
Definition backslash : ascii := byte_of 92.

(** [serde_json]'s string escapes. *)
Definition json_escape_char (c : ascii) : string :=
  let n := N_of_ascii c in
  let esc t := String backslash (String t EmptyString) in
  if (n =? 34)%N then esc quote_char
  else if (n =? 92)%N then esc backslash
  else if (n =? 8)%N then esc "b"%char
  else if (n =? 9)%N then esc "t"%char
  else if (n =? 10)%N then esc "n"%char
  else if (n =? 12)%N then esc "f"%char
  else if (n =? 13)%N then esc "r"%char
  else if (n <? 32)%N then String backslash ("u00" +:+ hex2 n)
  else String c EmptyString.

(** The [Debug] form of a [str]: printable characters unchanged. *)
Definition debug_escape_char (c : ascii) : string :=
  let n := N_of_ascii c in
  let esc t := String backslash (String t EmptyString) in
  if (n =? 34)%N then esc quote_char
  else if (n =? 92)%N then esc backslash
  else if (n =? 0)%N then esc "0"%char
  else if (n =? 9)%N then esc "t"%char
  else if (n =? 10)%N then esc "n"%char
  else if (n =? 13)%N then esc "r"%char
  else if (n <? 16)%N
       then String backslash ("u{" +:+ String (lower_hex_digit n) "}")
  else if (n <? 32)%N || (n =? 127)%N
       then String backslash ("u{" +:+ hex2 n +:+ "}")
  else String c EmptyString.

Fixpoint escape_with (f : ascii -> string) (s : string) : string :=
  match s with
  | EmptyString => EmptyString
  | String c s' => f c +:+ escape_with f s'
  end.

Definition quoted (f : ascii -> string) (s : string) : string :=
  String quote_char (escape_with f s +:+ String quote_char EmptyString).

Definition debug_str (s : string) : string := quoted debug_escape_char s.

Definition display_value (v : Value) : string :=
  match v with
  | VString s => quoted json_escape_char s
  | VOther rendered => rendered
  end.

(** ** Stubs and imposters *)

Record ProxyResponse := { proxy_to : string; proxy_key : option string; proxy_rest : string }.

Inductive StubResponse :=
  | RProxy (proxy : ProxyResponse) (rest : string)
  | ROther (rest : string).

Record Stub := {
  stub_id : option string;
  stub_space : option string;
  stub_predicates : list string;
  stub_responses : list StubResponse;
  stub_recorded_from : option string;
  stub_rest : string;
}.

Record FlowState := {
  fs_extra : gmap string Value;
  fs_ttl_seconds : Z;
  fs_flow_id_source : option string;
}.

Record RiftBlock := {
  rift_flow_state : option FlowState;
  rift_sequencing : option (option string);  (* the block's [mode] *)
  rift_rest : string;
}.

Record ImposterConfig := {
  cfg_port : option N;
  cfg_protocol : string;
  cfg_stubs : list Stub;
  cfg_enabled : bool;
  cfg_rift : option RiftBlock;
  cfg_rest : string;
}.

Definition with_stubs (c : ImposterConfig) (ss : list Stub) : ImposterConfig :=
  {| cfg_port := cfg_port c; cfg_protocol := cfg_protocol c; cfg_stubs := ss; cfg_enabled := cfg_enabled c;
     cfg_rift := cfg_rift c; cfg_rest := cfg_rest c |}.

Definition with_enabled (c : ImposterConfig) (b : bool) : ImposterConfig :=
  {| cfg_port := cfg_port c; cfg_protocol := cfg_protocol c; cfg_stubs := cfg_stubs c; cfg_enabled := b;
     cfg_rift := cfg_rift c; cfg_rest := cfg_rest c |}.

Definition with_id (s : Stub) (id : string) : Stub :=
  {| stub_id := Some id; stub_space := stub_space s; stub_predicates := stub_predicates s;
     stub_responses := stub_responses s; stub_recorded_from := stub_recorded_from s;
     stub_rest := stub_rest s |}.

Definition with_responses (s : Stub) (rs : list StubResponse) : Stub :=
  {| stub_id := stub_id s; stub_space := stub_space s; stub_predicates := stub_predicates s;
     stub_responses := rs; stub_recorded_from := stub_recorded_from s;
     stub_rest := stub_rest s |}.

Record Route := { route_id : string; route_rest : string }.

Abbreviation RouteTable := (list Route).

(** A recorded upstream response: the body is raw bytes. *)
Record RecordedResponse := {
  rr_status : N;
  rr_headers : list (string * string);
  rr_body : bytes;
  rr_latency_ms : option N;
  rr_timestamp_secs : N;
}.

(** ** Decidable equality *)

Global Instance Value_eq_dec : EqDecision Value.
Proof. solve_decision. Defined.

Global Instance ProxyResponse_eq_dec : EqDecision ProxyResponse.
Proof. solve_decision. Defined.

Global Instance StubResponse_eq_dec : EqDecision StubResponse.
Proof. solve_decision. Defined.

Global Instance Stub_eq_dec : EqDecision Stub.
Proof. solve_decision. Defined.

Global Instance FlowState_eq_dec : EqDecision FlowState.
Proof. solve_decision. Defined.

Global Instance RiftBlock_eq_dec : EqDecision RiftBlock.
Proof. solve_decision. Defined.

Global Instance ImposterConfig_eq_dec : EqDecision ImposterConfig.
Proof. solve_decision. Defined.

Global Instance Route_eq_dec : EqDecision Route.
Proof. solve_decision. Defined.

Global Instance RecordedResponse_eq_dec : EqDecision RecordedResponse.
Proof. solve_decision. Defined.

(** ** Serialisation

    [serde_json] as the stored rows use it: writing never fails for the types
    written here, what was written reads back, and anything else may fail to read
    with a message. *)

Class Serde (text A : Type) := {
  to_text : A -> text;
  from_text : text -> result string A;
  from_to_text : forall a, from_text (to_text a) = Ok a;
}.

(** ** The engine's own predicates *)

Class EngineRules := {
  (** [StubResponse::is_recorded]. *)
  is_recorded : StubResponse -> bool;
  (** [RouteTable::validate], with its error's text. *)
  route_table_validate : RouteTable -> result string ();
}.
