(* ===== verification/Ring.v ===== *)
(** * Ownership: the rendezvous ring of [raft/ring.rs]

    [Ring::new], [owner], [owners] and [i_own] over the voters of an applied
    membership. The 64-bit hash is [xxhash_rust]'s, a parameter: nothing below
    depends on what it computes. The lemmas compare rings through the decreasing
    list of scored members, which a set of members determines. *)

From S2P Require Import Prelude.

Abbreviation NodeId := N.

Module KeyClass.

Inductive t :=
  | Config
  | FlowKv
  | Sequence
  | Proxy.

Definition tag (c : t) : N :=
  match c with
  | Config => 0
  | FlowKv => 1
  | Sequence => 2
  | Proxy => 3
  end.

End KeyClass.

Record OwnedKey := { ok_class : KeyClass.t; ok_key : string }.

Definition OwnedKey_flow (flow_id : string) : OwnedKey :=
  {| ok_class := KeyClass.FlowKv; ok_key := flow_id |}.

Inductive OwnStatus :=
  | Owner
  | NotOwner (n : NodeId).

Record Ring := { members : list NodeId; m_idx : N }.

Definition Ring_new (ms : list NodeId) (m_idx : N) : Ring :=
  {| members := dedup (merge_sort N.le ms); m_idx := m_idx |}.

Definition ring_is_empty (r : Ring) : bool :=
  match members r with [] => true | _ => false end.

(** The order of the tuples [(u64, NodeId)]: lexicographic. *)
Definition tuple_le (a b : N * N) : Prop :=
  (a.1 < b.1)%N \/ a.1 = b.1 /\ (a.2 <= b.2)%N.

Global Instance tuple_le_dec a b : Decision (tuple_le a b).
Proof. unfold tuple_le. apply _. Defined.

(** [b.cmp(a)] used as the sort order: greatest first. *)
Definition tuple_ge (a b : N * N) : Prop := tuple_le b a.

Global Instance tuple_ge_dec a b : Decision (tuple_ge a b).
Proof. unfold tuple_ge. apply _. Defined.

(** [Iterator::max_by_key] over the tuples: the later of two equal maxima. *)
Definition max_tuple (l : list (N * N)) : option (N * N) :=
  match l with
  | [] => None
  | x :: l' => Some (foldl (fun acc y => if decide (tuple_le acc y) then y else acc) x l')
  end.

Section Hrw.
  Context (xxh64 : bytes -> N -> N).

Definition score (node : NodeId) (key : OwnedKey) : N :=
  let buf := to_le_bytes node ++ [byte_of (KeyClass.tag (ok_class key))]
               ++ as_bytes (ok_key key) in
  xxh64 buf 0.

Definition scored (key : OwnedKey) (ms : list NodeId) : list (N * NodeId) :=
  (fun node => (score node key, node)) <$> ms.

Definition owner (r : Ring) (key : OwnedKey) : option NodeId :=
  snd <$> max_tuple (scored key (members r)).

Definition owners (r : Ring) (key : OwnedKey) (n : nat) : list NodeId :=
  snd <$> take n (merge_sort tuple_ge (scored key (members r))).

Definition i_own (r : Ring) (me : NodeId) (key : OwnedKey) : option OwnStatus :=
  (fun o => if decide (o = me) then Owner else NotOwner o) <$> owner r key.

End Hrw.

(** ** The order *)

Global Instance tuple_ge_total : Total tuple_ge.
Proof. intros [] []. unfold tuple_ge, tuple_le. simpl. lia. Qed.

Global Instance tuple_ge_trans : Transitive tuple_ge.
Proof. intros [] [] []. unfold tuple_ge, tuple_le. simpl. lia. Qed.

Global Instance tuple_ge_antisymm : AntiSymm (=) tuple_ge.
Proof.
  intros [a1 a2] [b1 b2]. unfold tuple_ge, tuple_le. simpl. intros. f_equal; lia.
Qed.

Global Instance N_le_total : Total N.le.
Proof. intros a b. lia. Qed.

(** ** The member list *)

Lemma elem_of_dedup {A} `{EqDecision A} (x : A) l : x ∈ dedup l <-> x ∈ l.
Proof.
  induction l as [|y l IH]; simpl; [done|].
  rewrite (elem_of_cons l), <- IH. destruct (dedup l) as [|z l']; [set_solver|].
  case_decide; subst; rewrite !elem_of_cons; tauto.
Qed.

Lemma dedup_head {A} `{EqDecision A} (l : list A) : head (dedup l) = head l.
Proof.
  induction l as [|x l IH]; simpl; [done|].
  destruct (dedup l) as [|y l']; [done|]. by case_decide; subst.
Qed.

Lemma dedup_sorted_NoDup l : StronglySorted N.le l -> NoDup (dedup l) /\ StronglySorted N.le (dedup l).
Proof.
  induction 1 as [|x l Hs [IHn IHs] Hx]; simpl; [split; constructor|].
  assert (Forall (N.le x) (dedup l)) as Hd.
  { rewrite Forall_forall in *. intros y Hy. apply Hx. by apply elem_of_dedup. }
  destruct (dedup l) as [|y l'] eqn:E; [repeat constructor; set_solver|].
  case_decide as Hxy; [done|]. split; [|by constructor].
  constructor; [|done]. inversion IHs as [|? ? _ Hy]; subst. inversion Hd; subst.
  rewrite Forall_forall in Hy. rewrite elem_of_cons. intros [->|Hin]; [done|].
  apply Hy in Hin. lia.
Qed.

Lemma members_spec ms i :
  NoDup (members (Ring_new ms i)) /\ forall x, x ∈ members (Ring_new ms i) <-> x ∈ ms.
Proof.
  split.
  - apply dedup_sorted_NoDup, StronglySorted_merge_sort; apply _.
  - intros x. simpl. rewrite elem_of_dedup. by rewrite merge_sort_Permutation.
Qed.

Lemma members_Permutation ms ms' i i' :
  (forall x, x ∈ ms <-> x ∈ ms') -> members (Ring_new ms i) ≡ₚ members (Ring_new ms' i').
Proof.
  intros H. destruct (members_spec ms i) as [Hn Hm], (members_spec ms' i') as [Hn' Hm'].
  apply NoDup_Permutation; [done..|]. intros x. by rewrite Hm, Hm', H.
Qed.

(** ** The decreasing list of scored members *)

Lemma max_tuple_spec l m :
  max_tuple l = Some m -> m ∈ l /\ forall x, x ∈ l -> tuple_ge m x.
Proof.
  destruct l as [|x l]; [done|]. intros [= <-].
  revert x. induction l as [|y l IH]; intros x; simpl.
  - split; [set_solver|]. intros ? ->%list_elem_of_singleton. by destruct (total tuple_ge x x).
  - destruct (decide (tuple_le x y)) as [Hxy|Hxy].
    + destruct (IH y) as [Hin Hge]. split; [set_solver|].
      intros z. rewrite elem_of_cons. intros [->|Hz]; [|by apply Hge].
      trans y; [apply Hge; set_solver|done].
    + destruct (IH x) as [Hin Hge]. split; [set_solver|].
      intros z. rewrite !elem_of_cons. intros [->|[->|Hz]]; [apply Hge; left| |apply Hge; by right].
      trans x; [apply Hge; set_solver|]. by destruct (total tuple_ge x y).
Qed.

Lemma max_tuple_head l : max_tuple l = head (merge_sort tuple_ge l).
Proof.
  pose proof (merge_sort_Permutation tuple_ge l) as Hp.
  pose proof (StronglySorted_merge_sort tuple_ge l) as Hs.
  destruct (max_tuple l) as [m|] eqn:E.
  - apply max_tuple_spec in E as [Hin Hge].
    destruct (merge_sort tuple_ge l) as [|h t]; [by rewrite <- Hp in Hin; apply elem_of_nil in Hin|].
    simpl. f_equal. apply (anti_symm tuple_ge).
    + apply Hge. rewrite <- Hp. set_solver.
    + rewrite <- Hp, elem_of_cons in Hin. destruct Hin as [->|Hin]; [by destruct (total tuple_ge h h)|].
      inversion Hs as [|? ? _ Hf]; subst. rewrite Forall_forall in Hf. auto.
  - destruct l; [|done]. done.
Qed.

(** A list of tuples is determined, once sorted, by its elements. *)
Lemma merge_sort_unique l l' : l ≡ₚ l' -> merge_sort tuple_ge l = merge_sort tuple_ge l'.
Proof.
  intros H. apply (Sorted_unique tuple_ge); try apply Sorted_merge_sort, _.
  by rewrite !merge_sort_Permutation.
Qed.

Lemma StronglySorted_filter {A} (R : relation A) (P : A -> Prop) `{forall x, Decision (P x)} l :
  StronglySorted R l -> StronglySorted R (filter P l).
Proof.
  induction 1 as [|x l Hs IH Hf]; [constructor|].
  rewrite filter_cons. case_decide; [|done]. constructor; [done|].
  rewrite Forall_forall in *. intros y [_ Hy]%list_elem_of_filter. auto.
Qed.

Lemma merge_sort_filter (P : N * N -> Prop) `{forall x, Decision (P x)} l :
  merge_sort tuple_ge (filter P l) = filter P (merge_sort tuple_ge l).
Proof.
  apply (StronglySorted_unique tuple_ge).
  - apply StronglySorted_merge_sort; apply _.
  - apply StronglySorted_filter, StronglySorted_merge_sort; apply _.
  - by rewrite !merge_sort_Permutation.
Qed.

(** Dropping one element of a duplicate-free list shifts a prefix by at most one. *)
Lemma take_filter_ne {A} `{EqDecision A} (d : A) n l :
  NoDup l -> take n (filter (fun x => x <> d) l) = take n (filter (fun x => x <> d) (take (S n) l)).
Proof.
  revert n. induction l as [|x l IH]; intros n Hn; [done|].
  apply NoDup_cons in Hn as [Hx Hn]. change (take (S n) (x :: l)) with (x :: take n l).
  rewrite !filter_cons. destruct (decide (x <> d)) as [Hd|Hd].
  - destruct n; [done|]. simpl. by rewrite IH.
  - assert (x = d) as -> by (by destruct (decide (x = d))).
    rewrite !filter_all_id; [by rewrite take_take, Nat.min_id|..];
      apply Forall_forall; intros y Hy ->; apply Hx; [|done].
    apply elem_of_take in Hy as (i & Hi & _). by eapply list_elem_of_lookup_2.
Qed.

Section Facts.
  Context (xxh64 : bytes -> N -> N).

  Abbreviation ranked key ms := (merge_sort tuple_ge (scored xxh64 key ms)).

Lemma owner_head r key : owner xxh64 r key = snd <$> head (ranked key (members r)).
Proof. unfold owner. by rewrite max_tuple_head. Qed.

Lemma owners_ranked_head r key n : (0 < n)%nat -> owner xxh64 r key = head (owners xxh64 r key n).
Proof.
  intros Hn. rewrite owner_head. unfold owners. destruct n; [lia|].
  by destruct (ranked key (members r)).
Qed.

Lemma snd_ranked_Permutation key ms : snd <$> ranked key ms ≡ₚ ms.
Proof.
  rewrite merge_sort_Permutation. unfold scored. rewrite <- list_fmap_compose.
  by rewrite list_fmap_id.
Qed.

Lemma ranked_scored key ms p : p ∈ ranked key ms -> p.1 = score xxh64 p.2 key.
Proof.
  rewrite merge_sort_Permutation. unfold scored.
  intros (x & -> & _)%list_elem_of_fmap. done.
Qed.

Lemma ranked_order key ms j k x y :
  (snd <$> ranked key ms) !! j = Some x -> (snd <$> ranked key ms) !! k = Some y ->
  (j < k)%nat -> tuple_le (score xxh64 y key, y) (score xxh64 x key, x).
Proof.
  intros ([sx x'] & -> & Hj)%list_lookup_fmap_Some ([sy y'] & -> & Hk)%list_lookup_fmap_Some Hjk.
  pose proof (ranked_scored _ _ _ (list_elem_of_lookup_2 _ _ _ Hj)) as Hx.
  pose proof (ranked_scored _ _ _ (list_elem_of_lookup_2 _ _ _ Hk)) as Hy. simpl in *; subst.
  pose proof (StronglySorted_merge_sort tuple_ge (scored xxh64 key ms)) as Hs.
  rewrite <- (take_drop k) in Hs.
  apply (StronglySorted_app_1_elem_of tuple_ge _ _ _ _ Hs).
  - apply elem_of_take. eauto.
  - apply (list_elem_of_lookup_2 _ 0). by rewrite lookup_drop, Nat.add_0_r.
Qed.

Lemma ranked_NoDup key ms : NoDup ms -> NoDup (ranked key ms).
Proof.
  intros Hn. rewrite merge_sort_Permutation. unfold scored.
  apply NoDup_fmap_2; [|done]. intros ? ? [=]. done.
Qed.

Lemma ranked_members_agree key ms ms' i i' :
  (forall x, x ∈ ms <-> x ∈ ms') ->
  ranked key (members (Ring_new ms i)) = ranked key (members (Ring_new ms' i')).
Proof.
  intros H. apply merge_sort_unique. unfold scored. by rewrite (members_Permutation ms ms' i i' H).
Qed.

Lemma filter_scored key ms d :
  filter (fun p => p.2 <> d) (scored xxh64 key ms) = scored xxh64 key (filter (fun x => x <> d) ms).
Proof.
  induction ms as [|x ms IH]; [done|]. unfold scored in *. rewrite fmap_cons, !filter_cons. simpl.
  destruct (decide (x <> d)); simpl; by rewrite IH.
Qed.

Lemma filter_snd (l : list (N * N)) d :
  filter (fun x => x <> d) (snd <$> l) = snd <$> filter (fun p => p.2 <> d) l.
Proof.
  induction l as [|x l IH]; [done|]. rewrite fmap_cons, !filter_cons.
  destruct (decide (x.2 <> d)); simpl; by rewrite IH.
Qed.

(** The members of a ring without [d], as a permutation. *)
Lemma members_without ms d i i' :
  members (Ring_new (filter (fun x => x <> d) ms) i')
    ≡ₚ filter (fun x => x <> d) (members (Ring_new ms i)).
Proof.
  destruct (members_spec ms i) as [Hn Hm].
  destruct (members_spec (filter (fun x => x <> d) ms) i') as [Hn' Hm'].
  apply NoDup_Permutation; [done|by apply NoDup_filter|].
  intros x. by rewrite Hm', !list_elem_of_filter, Hm.
Qed.

Lemma ranked_without key ms d i i' :
  ranked key (members (Ring_new (filter (fun x => x <> d) ms) i'))
    = filter (fun p => p.2 <> d) (ranked key (members (Ring_new ms i))).
Proof.
  rewrite <- merge_sort_filter, filter_scored. apply merge_sort_unique. unfold scored.
  by rewrite (members_without ms d i i').
Qed.

(** Every node that applied the same voter set agrees on the owner and on the
    whole successor list of every key, whatever order the voters were supplied in,
    however often one was repeated and whatever index the ring is tagged with. *)
Theorem ring_agreement ms ms' i i' key n :
  (forall x, x ∈ ms <-> x ∈ ms') ->
  owner xxh64 (Ring_new ms i) key = owner xxh64 (Ring_new ms' i') key
  /\ owners xxh64 (Ring_new ms i) key n = owners xxh64 (Ring_new ms' i') key n.
Proof.
  intros H. rewrite !owner_head. unfold owners.
  by rewrite (ranked_members_agree key ms ms' i i' H).
Qed.

(** A departure moves only the departed node's keys. The successor list of a
    ring without [d] is the old list with [d] struck out, so a key keeps its owner
    unless [d] was that owner, in which case the next successor inherits it. *)
Theorem ring_minimal_disruption ms d i i' key n :
  owners xxh64 (Ring_new (filter (fun x => x <> d) ms) i') key n
    = take n (filter (fun x => x <> d) (owners xxh64 (Ring_new ms i) key (S n)))
  /\ owner xxh64 (Ring_new (filter (fun x => x <> d) ms) i') key
    = head (filter (fun x => x <> d) (owners xxh64 (Ring_new ms i) key 2)).
Proof.
  assert (forall m, owners xxh64 (Ring_new (filter (fun x => x <> d) ms) i') key m
    = take m (filter (fun x => x <> d) (owners xxh64 (Ring_new ms i) key (S m)))) as H.
  { intros m. unfold owners. rewrite (ranked_without key ms d i i').
    rewrite !fmap_take, <- filter_snd. apply take_filter_ne.
    rewrite snd_ranked_Permutation. by destruct (members_spec ms i). }
  split; [apply H|].
  rewrite (owners_ranked_head _ key 1), H by lia.
  by destruct (filter (fun x => x <> d) (owners xxh64 (Ring_new ms i) key 2)).
Qed.

(** The first [n] owners are distinct members, as many as there are up to [n],
    the first of them is the owner, and no member left out scores above one listed. *)
Theorem owners_spec ms i key n :
  let r := Ring_new ms i in
  NoDup (owners xxh64 r key n)
  /\ length (owners xxh64 r key n) = Nat.min n (length (members r))
  /\ ((0 < n)%nat -> owner xxh64 r key = head (owners xxh64 r key n))
  /\ (forall x, x ∈ owners xxh64 r key n -> x ∈ ms)
  /\ (forall x y, x ∈ owners xxh64 r key n -> y ∈ ms -> y ∉ owners xxh64 r key n ->
        tuple_le (score xxh64 y key, y) (score xxh64 x key, x)).
Proof.
  intros r. destruct (members_spec ms i) as [Hn Hm]. fold r in Hn, Hm.
  pose proof (snd_ranked_Permutation key (members r)) as Hp.
  assert (owners xxh64 r key n = take n (snd <$> ranked key (members r))) as E
    by (unfold owners; by rewrite fmap_take).
  split_and!.
  - rewrite E. eapply sublist_NoDup, sublist_take. by rewrite Hp.
  - rewrite E, length_take. f_equal. by apply Permutation_length.
  - apply owners_ranked_head.
  - intros x. rewrite E. intros (j & Hj & _)%elem_of_take.
    apply Hm. rewrite <- Hp. by eapply list_elem_of_lookup_2.
  - intros x y. rewrite E. intros (j & Hj & Hlt)%elem_of_take Hy Hno.
    apply Hm in Hy. rewrite <- Hp in Hy. apply list_elem_of_lookup in Hy as [k Hk].
    assert (n <= k)%nat.
    { destruct (decide (n <= k)%nat); [done|]. destruct Hno. apply elem_of_take. exists k. split; [done|lia]. }
    eapply ranked_order; [exact Hj|exact Hk|lia].
Qed.

End Facts.

(** ** Witnesses *)

(** A concrete 64-bit hash, standing in for [xxh64]. *)
Definition poly_hash (b : bytes) (seed : N) : N :=
  (foldl (fun acc c => acc * 1099511628211 + N_of_ascii c + 7) seed b mod (u64_max + 1))%N.

Lemma ring_agreement_witness :
  owners poly_hash (Ring_new [1; 2; 3]%N 4) (OwnedKey_flow "f:alice") 3
    = owners poly_hash (Ring_new [3; 1; 2; 2; 1]%N 9) (OwnedKey_flow "f:alice") 3
  /\ length (owners poly_hash (Ring_new [1; 2; 3]%N 4) (OwnedKey_flow "f:alice") 3) = 3%nat.
Proof.
  split; [|vm_compute; reflexivity].
  apply (ring_agreement poly_hash [1; 2; 3]%N [3; 1; 2; 2; 1]%N 4 9 (OwnedKey_flow "f:alice") 3).
  intros x. rewrite !elem_of_cons, elem_of_nil. tauto.
Defined.
