(* ===== verification/Node.v ===== *)
(** * The node behind a store

    The stores are built before the node exists and hold a weak reference to it: never
    set, set and since dropped, or live with the ring of its applied membership. *)

From S2P Require Import Prelude Ring.

Inductive NodeSlot :=
  | Unbound
  | Dropped
  | Bound (id : NodeId) (ring : Ring).
