(* ===== verification/Auth.v ===== *)
(** * Keyed authentication of cluster RPC: [rpc/auth.rs]

    The canonical bytes a MAC covers, the credential header and its parser, the
    bounded nonce cache and [Verifier::verify_at]. HMAC-SHA256 is the [hmac]
    crate's, a parameter. A header reaches the verifier through
    [HeaderValue::to_str], so it is visible ASCII: [trim] is modelled on ASCII
    white space and a two-byte slice is always at a character boundary. *)

From S2P Require Import Prelude.

Inductive AuthError :=
  | Malformed
  | BadMac
  | StaleTimestamp
  | ReplayedNonce
  | NonceCacheFull.

Definition AuthError_reason (e : AuthError) : string :=
  match e with
  | Malformed => "malformed"
  | BadMac => "bad_mac"
  | StaleTimestamp => "stale_timestamp"
  | ReplayedNonce => "replayed_nonce"
  | NonceCacheFull => "nonce_cache_full"
  end.

Record SignedRequest := { req_method : string; req_path : string; req_body : bytes }.

Definition DEFAULT_SKEW : N := 30.
Definition DEFAULT_NONCE_CAPACITY : N := 100000.

(** One field of the signed span: its length as eight little-endian bytes, then
    the field. *)
Definition put_field (field : bytes) : bytes :=
  to_le_bytes (N.of_nat (length field)) ++ field.

Definition canonical (ts : N) (nonce : string) (req : SignedRequest) : bytes :=
  let fields := [as_bytes (pretty ts); as_bytes nonce; as_bytes (req_method req);
                 as_bytes (req_path req); req_body req] in
  concat (put_field <$> fields).

Definition hex_digit (n : N) : ascii :=
  if (n <? 10)%N then byte_of (48 + n) else byte_of (87 + n).

Fixpoint hex_encode (b : bytes) : string :=
  match b with
  | [] => EmptyString
  | c :: b' =>
      String (hex_digit (N_of_ascii c / 16)) (String (hex_digit (N_of_ascii c mod 16)) (hex_encode b'))
  end.

Definition hex_decode (s : string) : option bytes :=
  if Nat.even (String.length s) then hex_pairs s else None.

(** [str::trim] on ASCII white space. *)
Definition is_space (c : ascii) : bool :=
  let n := N_of_ascii c in (9 <=? n)%N && (n <=? 13)%N || (n =? 32)%N.

Fixpoint trim_start (s : string) : string :=
  match s with
  | String c s' => if is_space c then trim_start s' else s
  | EmptyString => EmptyString
  end.

Fixpoint trim_end (s : string) : string :=
  match s with
  | EmptyString => EmptyString
  | String c s' =>
      match trim_end s' with
      | EmptyString => if is_space c then EmptyString else String c EmptyString
      | t => String c t
      end
  end.

Definition trim (s : string) : string := trim_end (trim_start s).

Record Credential := { cred_ts : N; cred_nonce : string; cred_mac : bytes }.

(** The three locals of [parse]. *)
Record partial := { p_ts : option N; p_nonce : option string; p_mac : option bytes }.

Definition parse_part (p : partial) (part : string) : option partial :=
  '(key, value) ← split_once "=" part;
  let key := trim key in
  if String.eqb key "t" then Some {| p_ts := parse_u64 (trim value); p_nonce := p_nonce p; p_mac := p_mac p |}
  else if String.eqb key "n" then Some {| p_ts := p_ts p; p_nonce := Some (trim value); p_mac := p_mac p |}
  else if String.eqb key "mac" then Some {| p_ts := p_ts p; p_nonce := p_nonce p; p_mac := hex_decode (trim value) |}
  else None.

Fixpoint parse_parts (p : partial) (parts : list string) : option partial :=
  match parts with
  | [] => Some p
  | part :: rest => p' ← parse_part p part; parse_parts p' rest
  end.

Definition parse (header : string) : option Credential :=
  p ← parse_parts {| p_ts := None; p_nonce := None; p_mac := None |} (split_char "," header);
  nonce ← p_nonce p;
  if String.eqb nonce EmptyString then None
  else
    ts ← p_ts p;
    mac ← p_mac p;
    Some {| cred_ts := ts; cred_nonce := nonce; cred_mac := mac |}.

(** ** The nonce cache *)

Record NonceCache := { capacity : N; ttl_secs : N; seen : gmap string N }.

Definition cache_len (seen : gmap string N) : N := N.of_nat (size seen).

Definition cache_with (c : NonceCache) (s : gmap string N) : NonceCache :=
  {| capacity := capacity c; ttl_secs := ttl_secs c; seen := s |}.

Definition admit_nonce (c : NonceCache) (nonce : string) (signed_at now : N)
    : result AuthError () * NonceCache :=
  if decide (is_Some (seen c !! nonce)) then (Err ReplayedNonce, c)
  else if (capacity c <=? cache_len (seen c))%N then
    let kept := filter (fun kv : string * N => (now - kv.2 < ttl_secs c)%N) (seen c) in
    if (capacity c <=? cache_len kept)%N then (Err NonceCacheFull, cache_with c kept)
    else (Ok tt, cache_with c (<[nonce := signed_at]> kept))
  else (Ok tt, cache_with c (<[nonce := signed_at]> (seen c))).

(** ** Signing and verifying *)

Section Keyed.
  Context (hmac_sha256 : bytes -> bytes -> bytes).

Definition mac (key : bytes) (ts : N) (nonce : string) (req : SignedRequest) : bytes :=
  hmac_sha256 key (canonical ts nonce req).

Definition header_at (key : bytes) (ts : N) (nonce : string) (req : SignedRequest) : string :=
  let m := hex_encode (mac key ts nonce req) in
  "t=" +:+ pretty ts +:+ ",n=" +:+ nonce +:+ ",mac=" +:+ m.

Record Verifier := { v_key : bytes; v_skew_secs : N; v_nonces : NonceCache }.

Definition with_limits (secret : bytes) (skew : N) (nonce_capacity : N) : Verifier :=
  {| v_key := secret;
     v_skew_secs := skew;
     v_nonces := {| capacity := nonce_capacity; ttl_secs := sat_add (sat_mul skew 2) 1; seen := ∅ |} |}.

Definition verify_at (v : Verifier) (now : N) (header : option string) (req : SignedRequest)
    : result AuthError () * Verifier :=
  match header ≫= parse with
  | None => (Err Malformed, v)
  | Some cred =>
      if (v_skew_secs v <? abs_diff now (cred_ts cred))%N then (Err StaleTimestamp, v)
      else if negb (bool_decide (mac (v_key v) (cred_ts cred) (cred_nonce cred) req = cred_mac cred))
      then (Err BadMac, v)
      else
        let '(r, nonces) := admit_nonce (v_nonces v) (cred_nonce cred) (cred_ts cred) now in
        (r, {| v_key := v_key v; v_skew_secs := v_skew_secs v; v_nonces := nonces |})
  end.

(** The credentials a run accepts, with the nonce and the signed time of each. *)
Fixpoint accepted (v : Verifier) (calls : list (N * option string * SignedRequest))
    : list (string * N) :=
  match calls with
  | [] => []
  | (now, h, req) :: rest =>
      let '(r, v1) := verify_at v now h req in
      match r, h ≫= parse with
      | Ok _, Some cred => (cred_nonce cred, cred_ts cred) :: accepted v1 rest
      | _, _ => accepted v1 rest
      end
  end.

End Keyed.

(** ** The signed span *)

Definition fits (field : bytes) : Prop := (N.of_nat (length field) < 256 ^ 8)%N.

Lemma put_field_inj a b x y :
  fits a -> fits b -> put_field a ++ x = put_field b ++ y -> a = b /\ x = y.
Proof.
  unfold put_field, to_le_bytes. intros Ha Hb. rewrite <- !app_assoc.
  intros [Hl H]%app_split_length; [|by rewrite !length_le_bytes].
  apply le_bytes_inj in Hl; [|done..]. apply app_split_length in H; [done|lia].
Qed.

(** Two different requests never share the bytes their MACs cover. The signed
    span determines the timestamp, the nonce, the method, the path and the body:
    no field boundary can shift, for fields of any length a slice can have. *)
Theorem canonical_inj ts nonce req ts' nonce' req' :
  Forall fits [as_bytes (pretty ts); as_bytes nonce; as_bytes (req_method req);
               as_bytes (req_path req); req_body req] ->
  Forall fits [as_bytes (pretty ts'); as_bytes nonce'; as_bytes (req_method req');
               as_bytes (req_path req'); req_body req'] ->
  canonical ts nonce req = canonical ts' nonce' req' ->
  ts = ts' /\ nonce = nonce' /\ req = req'.
Proof.
  rewrite !Forall_cons. intros (?&?&?&?&?&_) (?&?&?&?&?&_). unfold canonical. cbv zeta.
  rewrite !fmap_cons, !fmap_nil. cbn [concat].
  intros [Ht [Hn [Hm [Hp [Hb _]%put_field_inj]%put_field_inj]%put_field_inj]%put_field_inj]%put_field_inj;
    [|done..].
  apply as_bytes_inj, (inj pretty) in Ht. apply as_bytes_inj in Hn, Hm, Hp.
  destruct req, req'; simpl in *. by subst.
Qed.

Lemma canonical_inj_witness :
  canonical 1 "23" {| req_method := "POST"; req_path := "/p"; req_body := [] |}
    <> canonical 12 "3" {| req_method := "POST"; req_path := "/p"; req_body := [] |}.
Proof.
  intros H. apply (canonical_inj 1 "23" {| req_method := "POST"; req_path := "/p"; req_body := [] |}
                                 12 "3" {| req_method := "POST"; req_path := "/p"; req_body := [] |}) in H.
  - destruct H as [H _]. discriminate H.
  - repeat constructor; vm_compute; reflexivity.
  - repeat constructor; vm_compute; reflexivity.
Defined.

(** ** Hexadecimal *)

Lemma digit_val_hex n : (n < 16)%N -> digit_val 16 (hex_digit n) = Some n.
Proof. apply (below_cases (fun n => digit_val 16 (hex_digit n) = Some n) 16). by repeat constructor. Qed.

Lemma hexdigit_hex_digit n : (n < 16)%N -> is_ascii_hexdigit (hex_digit n) = true.
Proof. apply (below_cases (fun n => is_ascii_hexdigit (hex_digit n) = true) 16). by repeat constructor. Qed.

Lemma N_of_ascii_lt c : (N_of_ascii c < 256)%N.
Proof. apply N_ascii_bounded. Qed.

Lemma nibbles_lt c : (N_of_ascii c / 16 < 16 /\ N_of_ascii c mod 16 < 16)%N.
Proof.
  pose proof (N_of_ascii_lt c). split; [apply N.Div0.div_lt_upper_bound; lia|].
  apply N.mod_lt. lia.
Qed.

Lemma hex_encode_hexdigits b : string_forallb is_ascii_hexdigit (hex_encode b) = true.
Proof.
  induction b as [|c b IH]; [done|]. simpl. destruct (nibbles_lt c).
  by rewrite !hexdigit_hex_digit, IH.
Qed.

Lemma from_str_radix_hex h l :
  (h < 16)%N -> (l < 16)%N ->
  from_str_radix 16 255 (String (hex_digit h) (String (hex_digit l) EmptyString)) = Some (h * 16 + l)%N.
Proof.
  intros Hh Hl. unfold from_str_radix.
  destruct (Ascii.eqb_spec (hex_digit h) "+") as [E|_].
  { pose proof (digit_val_hex h Hh) as D. by rewrite E in D. }
  cbn [parse_digits]. rewrite !digit_val_hex by done. cbv zeta.
  rewrite !(proj2 (N.leb_le _ 255)) by lia. by rewrite N.mul_0_l, N.add_0_l.
Qed.

Lemma hex_pairs_encode b : hex_pairs (hex_encode b) = Some b.
Proof.
  induction b as [|c b IH]; [done|]. destruct (nibbles_lt c).
  cbn [hex_encode hex_pairs]. rewrite from_str_radix_hex by done. simpl. rewrite IH. simpl.
  replace (N_of_ascii c / 16 * 16 + N_of_ascii c mod 16)%N with (N_of_ascii c)
    by (rewrite (N.div_mod (N_of_ascii c) 16) at 1; lia).
  unfold byte_of. by rewrite ascii_N_embedding.
Qed.

Lemma hex_decode_encode b : hex_decode (hex_encode b) = Some b.
Proof.
  unfold hex_decode. rewrite hex_pairs_encode.
  assert (Nat.even (String.length (hex_encode b)) = true) as ->; [|done].
  induction b; [done|]. cbn [hex_encode String.length Nat.even]. done.
Qed.

(** ** The header *)

Lemma trim_id s : string_forallb (fun c => negb (is_space c)) s = true -> trim s = s.
Proof.
  intros H. unfold trim.
  assert (trim_start s = s) as ->.
  { destruct s as [|c s]; [done|]. simpl in *. apply andb_true_iff in H as [H _].
    by destruct (is_space c). }
  induction s as [|c s IH]; [done|]. simpl in *. apply andb_true_iff in H as [Hc Hs].
  rewrite IH by done. destruct s; [|done]. by destruct (is_space c).
Qed.

(** A hexadecimal digit is neither a separator of the header nor white space. *)
Lemma hexdigit_clean c :
  is_ascii_hexdigit c = true ->
  negb (is_space c) = true /\ negb (Ascii.eqb c ",") = true /\ negb (Ascii.eqb "=" c) = true.
Proof. destruct c as [[] [] [] [] [] [] [] []]; done. Qed.

Lemma hexdigits_clean s :
  string_forallb is_ascii_hexdigit s = true ->
  string_forallb (fun c => negb (is_space c)) s = true
  /\ string_forallb (fun c => negb (Ascii.eqb c ",")) s = true.
Proof. intros H. split; eapply string_forallb_impl; try exact H; apply hexdigit_clean. Qed.

Lemma digits_hexdigits (n : N) : string_forallb is_ascii_hexdigit (pretty n) = true.
Proof.
  eapply string_forallb_impl; [|apply digits_pretty].
  intros c Hc. unfold is_ascii_hexdigit. by rewrite Hc.
Qed.

Lemma parse_part_t p v : string_forallb is_ascii_hexdigit v = true ->
  parse_part p ("t=" +:+ v) = Some {| p_ts := parse_u64 v; p_nonce := p_nonce p; p_mac := p_mac p |}.
Proof.
  intros [H _]%hexdigits_clean. unfold parse_part.
  change ("t=" +:+ v) with ("t" +:+ "=" +:+ v).
  rewrite (split_once_app "=" EmptyString "t" v) by done. cbn. by rewrite (trim_id v H).
Qed.

Lemma parse_part_n p v : string_forallb is_ascii_hexdigit v = true ->
  parse_part p ("n=" +:+ v) = Some {| p_ts := p_ts p; p_nonce := Some v; p_mac := p_mac p |}.
Proof.
  intros [H _]%hexdigits_clean. unfold parse_part.
  change ("n=" +:+ v) with ("n" +:+ "=" +:+ v).
  rewrite (split_once_app "=" EmptyString "n" v) by done. cbn. by rewrite (trim_id v H).
Qed.

Lemma parse_part_mac p v : string_forallb is_ascii_hexdigit v = true ->
  parse_part p ("mac=" +:+ v) = Some {| p_ts := p_ts p; p_nonce := p_nonce p; p_mac := hex_decode v |}.
Proof.
  intros [H _]%hexdigits_clean. unfold parse_part.
  change ("mac=" +:+ v) with ("mac" +:+ "=" +:+ v).
  rewrite (split_once_app "=" EmptyString "mac" v) by done. cbn. by rewrite (trim_id v H).
Qed.

Lemma split_header t n m :
  string_forallb is_ascii_hexdigit t = true -> string_forallb is_ascii_hexdigit n = true ->
  string_forallb is_ascii_hexdigit m = true ->
  split_char "," ("t=" +:+ t +:+ ",n=" +:+ n +:+ ",mac=" +:+ m) = ["t=" +:+ t; "n=" +:+ n; "mac=" +:+ m].
Proof.
  intros [_ Ht]%hexdigits_clean [_ Hn]%hexdigits_clean [_ Hm]%hexdigits_clean.
  change ("t=" +:+ t +:+ ",n=" +:+ n +:+ ",mac=" +:+ m)
    with (("t=" +:+ t) +:+ String "," (("n=" +:+ n) +:+ String "," ("mac=" +:+ m))).
  rewrite split_char_app by (by rewrite string_forallb_app, Ht).
  rewrite split_char_app by (by rewrite string_forallb_app, Hn).
  rewrite split_char_one by (by rewrite string_forallb_app, Hm). done.
Qed.

Section KeyedFacts.
  Context (hmac_sha256 : bytes -> bytes -> bytes).

  Abbreviation verify := (verify_at hmac_sha256).

Lemma parse_header_at key ts nonce req :
  (ts <= u64_max)%N -> string_forallb is_ascii_hexdigit nonce = true -> nonce <> EmptyString ->
  parse (header_at hmac_sha256 key ts nonce req)
    = Some {| cred_ts := ts; cred_nonce := nonce; cred_mac := mac hmac_sha256 key ts nonce req |}.
Proof.
  intros Hts Hn Hne. unfold parse, header_at.
  rewrite split_header; [|apply digits_hexdigits|done|apply hex_encode_hexdigits].
  cbn [parse_parts].
  rewrite parse_part_t by apply digits_hexdigits. cbn [mbind option_bind].
  rewrite parse_part_n by done. cbn [mbind option_bind].
  rewrite parse_part_mac by apply hex_encode_hexdigits. cbn [mbind option_bind p_nonce p_ts p_mac].
  destruct (String.eqb_spec nonce EmptyString); [done|].
  unfold parse_u64. rewrite from_str_radix_pretty by done. by rewrite hex_decode_encode.
Qed.

(** What one call does: nothing to the cache unless the credential parses, is
    inside the skew window and carries the MAC of this very request. *)
Lemma verify_at_cases v now h req r v' :
  verify v now h req = (r, v') ->
  (v' = v /\ r <> Ok tt)
  \/ exists cred, h ≫= parse = Some cred
       /\ (abs_diff now (cred_ts cred) <= v_skew_secs v)%N
       /\ cred_mac cred = mac hmac_sha256 (v_key v) (cred_ts cred) (cred_nonce cred) req
       /\ admit_nonce (v_nonces v) (cred_nonce cred) (cred_ts cred) now = (r, v_nonces v')
       /\ v_skew_secs v' = v_skew_secs v /\ v_key v' = v_key v.
Proof.
  unfold verify_at. destruct (h ≫= parse) as [cred|]; [|intros [= <- <-]; by left].
  case_match eqn:Hs; [intros [= <- <-]; by left|].
  case_match eqn:Hm; [intros [= <- <-]; by left|]. bool_props.
  destruct (admit_nonce _ _ _ _) as [r0 nonces] eqn:Ha. intros [= -> <-].
  right. exists cred. by rewrite Hm.
Qed.


(** A request signed under the shared key is accepted by every peer whose clock
    is within the skew and whose cache has room and has not seen the nonce, and its
    nonce is then recorded against the signed time. *)
Theorem verify_at_signed v now ts nonce req :
  (ts <= u64_max)%N -> (abs_diff now ts <= v_skew_secs v)%N ->
  string_forallb is_ascii_hexdigit nonce = true -> nonce <> EmptyString ->
  seen (v_nonces v) !! nonce = None -> (cache_len (seen (v_nonces v)) < capacity (v_nonces v))%N ->
  verify v now (Some (header_at hmac_sha256 (v_key v) ts nonce req)) req
  = (Ok tt, {| v_key := v_key v; v_skew_secs := v_skew_secs v;
               v_nonces := cache_with (v_nonces v) (<[nonce := ts]> (seen (v_nonces v))) |}).
Proof.
  intros Hts Hskew Hhex Hne Hnew Hroom. unfold verify_at. cbn [mbind option_bind].
  rewrite parse_header_at by done. cbn [cred_ts cred_nonce cred_mac].
  rewrite (proj2 (N.ltb_ge _ _)) by done.
  rewrite bool_decide_true by done. simpl. unfold admit_nonce. rewrite Hnew.
  rewrite decide_False by (by intros []). by rewrite (proj2 (N.leb_gt _ _)) by done.
Qed.

(** ** Replay *)

(** Every credential accepted so far is still in the cache, or some clock reading
    already put it beyond the reach of the skew check. *)
Definition remembered (v : Verifier) (past : list N) (acc : list (string * N)) : Prop :=
  forall n ts, (n, ts) ∈ acc ->
    seen (v_nonces v) !! n = Some ts
    \/ exists t, t ∈ past /\ (ts + 2 * v_skew_secs v < t)%N.

Lemma admit_nonce_seen c n ts now r c' :
  admit_nonce c n ts now = (r, c') ->
  ttl_secs c' = ttl_secs c /\ capacity c' = capacity c
  /\ (r = Ok tt -> seen c !! n = None /\ seen c' !! n = Some ts)
  /\ forall m tm, seen c !! m = Some tm ->
       seen c' !! m = Some tm \/ (ttl_secs c <= now - tm)%N.
Proof.
  unfold admit_nonce. case_decide as Hs; [intros [= <- <-]; naive_solver|].
  assert (seen c !! n = None) as Hn by (by destruct (seen c !! n) eqn:E; [destruct Hs|]).
  set (kept := filter _ _).
  assert (forall m tm, seen c !! m = Some tm -> kept !! m = Some tm \/ (ttl_secs c <= now - tm)%N) as Hk.
  { intros m tm Hm. destruct (decide (now - tm < ttl_secs c)%N) as [Hl|Hl]; [left|right; lia].
    by apply map_lookup_filter_Some_2. }
  assert (forall (s : gmap string N) m tm, s !! n = None -> s !! m = Some tm -> <[n:=ts]> s !! m = Some tm) as Hi.
  { intros s m tm Hsn Hm. rewrite lookup_insert_ne; [done|]. by intros ->; simplify_eq. }
  assert (kept !! n = None) as Hkn by (apply map_lookup_filter_None; auto).
  case_match; [case_match|]; intros [= <- <-]; simpl; split_and!; try done;
    try (intros _; by rewrite lookup_insert_eq);
    intros m tm Hm; first [by left; apply Hi | apply Hk in Hm as [Hm|Hm]; [left|by right]];
    first [done | by apply Hi].
Qed.

Lemma remembered_step v past acc now h req r v' :
  ttl_secs (v_nonces v) = (2 * v_skew_secs v + 1)%N ->
  remembered v past acc -> verify v now h req = (r, v') ->
  ttl_secs (v_nonces v') = (2 * v_skew_secs v' + 1)%N /\ v_skew_secs v' = v_skew_secs v
  /\ remembered v' (now :: past) acc
  /\ forall cred, h ≫= parse = Some cred -> r = Ok tt ->
       remembered v' (now :: past) ((cred_nonce cred, cred_ts cred) :: acc)
       /\ ((forall t, t ∈ past -> (t <= now + v_skew_secs v)%N) -> (cred_nonce cred, cred_ts cred) ∉ acc).
Proof.
  intros Httl Hrem [[-> Hr]|(cred & Hp & Hskew & _ & Ha & Hsk & _)]%verify_at_cases.
  { split_and!; try done. intros n ts Hin. destruct (Hrem n ts Hin) as [|(t & ? & ?)]; [by left|].
    right. exists t. split; [by right|done]. }
  apply admit_nonce_seen in Ha as (Ht & _ & Hok & Hkeep).
  assert (remembered v' (now :: past) acc) as Hrem'.
  { intros n ts Hin. rewrite Hsk. destruct (Hrem n ts Hin) as [Hs|(t & ? & ?)].
    - destruct (Hkeep n ts Hs) as [|Hold]; [by left|]. right. exists now. split; [left|lia].
    - right. exists t. split; [by right|done]. }
  rewrite Ht, Hsk, Httl. split_and!; try done.
  intros ? [= <-]%(eq_trans (eq_sym Hp)) ->. destruct (Hok eq_refl) as [Hnone Hsome]. split.
  - intros n ts. rewrite elem_of_cons. intros [[= -> ->]|Hin]; [by left|by apply Hrem'].
  - intros Hclock Hin. destruct (Hrem _ _ Hin) as [|(t & Htp & Hlt)]; [congruence|].
    apply Hclock in Htp. unfold abs_diff in Hskew. case_match; bool_props; lia.
Qed.

Lemma accepted_NoDup calls v past acc :
  ttl_secs (v_nonces v) = (2 * v_skew_secs v + 1)%N ->
  remembered v past acc ->
  StronglySorted (fun a b => a <= b + v_skew_secs v)%N (calls.*1.*1) ->
  (forall t now, t ∈ past -> now ∈ calls.*1.*1 -> (t <= now + v_skew_secs v)%N) ->
  NoDup (accepted hmac_sha256 v calls) /\ (forall x, x ∈ acc -> x ∉ accepted hmac_sha256 v calls).
Proof.
  revert v past acc. induction calls as [|[[now h] req] calls IH]; intros v past acc Httl Hrem Hs Hpast.
  { split; [constructor|]. intros x _. apply not_elem_of_nil. }
  simpl in *. inversion Hs as [|? ? Hs' Hf]; subst. rewrite Forall_forall in Hf.
  destruct (verify v now h req) as [r v1] eqn:E.
  destruct (remembered_step _ _ _ _ _ _ _ _ Httl Hrem E) as (Httl1 & Hsk & Hrem1 & Hcred).
  rewrite <- Hsk in Hs', Hf, Hpast.
  assert (forall t n, t ∈ now :: past -> n ∈ calls.*1.*1 -> (t <= n + v_skew_secs v1)%N) as Hpast1.
  { intros t n. rewrite elem_of_cons. intros [->|Ht] Hn; [by apply Hf|]. apply Hpast; set_solver. }
  destruct (h ≫= parse) as [cred|] eqn:Hp; [destruct r as [[]|e]|destruct r as [[]|e]];
    try by eapply IH.
  destruct (Hcred cred eq_refl eq_refl) as [Hrem2 Hfresh].
  destruct (IH _ _ _ Httl1 Hrem2 Hs' Hpast1) as [Hnd Hdis]. split.
  - constructor; [|done]. apply Hdis. left.
  - intros x Hx. rewrite elem_of_cons. intros [->|Hin].
    + revert Hx. apply Hfresh. intros t Ht. rewrite <- Hsk. apply Hpast; [done|left].
    + revert Hin. apply Hdis. by right.
Qed.

(** C38: no credential is ever accepted twice. Over any sequence of calls to a fresh
    verifier, whatever the peers send and whatever the cache evicts on the way, the
    accepted (nonce, signed time) pairs are pairwise distinct, as long as the
    receiver's clock never falls back by more than the skew. *)
Theorem no_replay secret skew cap calls :
  (2 * skew + 1 <= u64_max)%N ->
  StronglySorted (fun a b => a <= b + skew)%N (calls.*1.*1) ->
  NoDup (accepted hmac_sha256 (with_limits secret skew cap) calls).
Proof.
  intros Hskew Hs.
  refine (proj1 (accepted_NoDup calls (with_limits secret skew cap) [] [] _ _ Hs _)).
  - simpl. unfold sat_add, sat_mul. lia.
  - intros n ts Hin. by apply not_elem_of_nil in Hin.
  - intros t ? Ht. by apply not_elem_of_nil in Ht.
Qed.

End KeyedFacts.

(** ** Witnesses *)

(** A concrete keyed digest, standing in for HMAC-SHA256. *)
Definition toy_hmac (key msg : bytes) : bytes :=
  to_le_bytes (foldl (fun acc c => (acc * 31 + N_of_ascii c) mod 65521)%N 7%N (key ++ msg)).

Definition demo_req : SignedRequest :=
  {| req_method := "POST"; req_path := "/_rpc/flow"; req_body := as_bytes "hello" |}.

Definition demo_verifier : Verifier := with_limits (as_bytes "secret") 30 2.

Definition demo_header (ts : N) (nonce : string) : string :=
  header_at toy_hmac (as_bytes "secret") ts nonce demo_req.


Lemma verify_at_signed_witness :
  fst (verify_at toy_hmac demo_verifier 70 (Some (demo_header 100 "ab12")) demo_req) = Ok tt.
Proof.
  unfold demo_header. change (as_bytes "secret") with (v_key demo_verifier).
  rewrite (verify_at_signed toy_hmac demo_verifier 70 100 "ab12" demo_req); [reflexivity|..].
  - vm_compute. discriminate.
  - vm_compute. discriminate.
  - reflexivity.
  - discriminate.
  - reflexivity.
  - vm_compute. reflexivity.
Defined.

(** A run in which the first credential is presented again while it is cached, and
    again after the cache evicted it. *)
Definition replay_calls : list (N * option string * SignedRequest) :=
  [(100, Some (demo_header 100 "ab12"), demo_req); (101, Some (demo_header 100 "ab12"), demo_req);
   (102, Some (demo_header 102 "cd34"), demo_req); (200, Some (demo_header 200 "ef56"), demo_req);
   (190, Some (demo_header 100 "ab12"), demo_req)]%N.

Lemma no_replay_witness :
  NoDup (accepted toy_hmac demo_verifier replay_calls)
  /\ length (accepted toy_hmac demo_verifier replay_calls) = 3%nat.
Proof.
  split; [|vm_compute; reflexivity].
  apply (no_replay toy_hmac (as_bytes "secret") 30 2 replay_calls).
  - vm_compute. discriminate.
  - vm_compute. repeat constructor; vm_compute; discriminate.
Defined.
