(* ===== verification/Rpc.v ===== *)
(** * Errors of the cluster transport: [rpc/mod.rs]

    [RpcError] with its label, its HTTP status and what a failure says of the
    peer. *)

From S2P Require Import Prelude Auth.

Record ProtocolVersion := { pv_major : N; pv_minor : N }.

Inductive RpcError :=
  | Unauthorized (e : AuthError)
  | VersionSkew (peer : option ProtocolVersion) (ours : ProtocolVersion)
  | UnknownRoute (method path : string)
  | BodyTooLarge (limit : N)
  | RpcTimeout
  | Transport (detail : string)
  | Shed
  | BadRequest (detail : string)
  | Unavailable (detail : string) (op_id : option string)
  | NotLeader (leader : option string)
  | Handler (detail : string)
  | NotFound (what : string)
  | WrongNode (expected actual : N).

Definition rpc_reason (e : RpcError) : string :=
  match e with
  | Unauthorized e => AuthError_reason e
  | VersionSkew _ _ => "version_skew"
  | UnknownRoute _ _ => "unknown_route"
  | BodyTooLarge _ => "body_too_large"
  | RpcTimeout => "timeout"
  | Transport _ => "transport"
  | Shed => "shed"
  | BadRequest _ => "bad_request"
  | Unavailable _ _ => "unavailable"
  | NotLeader _ => "not_leader"
  | Handler _ => "handler"
  | NotFound _ => "not_found"
  | WrongNode _ _ => "wrong_node"
  end.

Definition rpc_status (e : RpcError) : N :=
  match e with
  | Unauthorized _ => 401
  | VersionSkew _ _ => 426
  | UnknownRoute _ _ => 404
  | BodyTooLarge _ => 413
  | RpcTimeout => 504
  | Transport _ => 502
  | Shed => 503
  | BadRequest _ => 400
  | Unavailable _ _ => 503
  | NotLeader _ => 421
  | Handler _ => 500
  | NotFound _ => 404
  | WrongNode _ _ => 409
  end.

Definition is_retryable (e : RpcError) : bool :=
  match e with RpcTimeout | Transport _ => true | _ => false end.

Definition is_liveness_failure (e : RpcError) : bool :=
  match e with RpcTimeout | Transport _ | Shed => true | _ => false end.
