(* ===== verification/Health.v ===== *)
(** * Calling a peer: [rpc/client.rs]

    The half-open circuit breaker that decides whether a peer may be called, the three ways
    of calling one and what each reports back, the retry schedule, and the parser of peer
    addresses. The exchange itself is an argument: what each attempt ended in. *)

From S2P Require Import Prelude Auth Rpc.

(** ** Peer health *)

Inductive Admission :=
  | Healthy
  | Trial (id : N)
  | AdmRefused.

Definition DEFAULT_FAILURE_THRESHOLD : N := 3.

(** Durations and instants in milliseconds. *)
Definition DEFAULT_COOLDOWN : N := 5000.
Definition DEFAULT_HALF_OPEN_INTERVAL : N := 250.

Record PeerState := {
  consecutive_failures : N;
  unhealthy_until : option N;
  window_from : option N;
  trial : option N;
}.

Definition PeerState_default : PeerState :=
  {| consecutive_failures := 0; unhealthy_until := None; window_from := None; trial := None |}.

Record TrackedPeerHealth := {
  th_state : gmap string PeerState;
  th_threshold : N;
  th_cooldown : N;
  th_half_open_interval : N;
  th_next_trial : N;
}.

Definition with_params (threshold cooldown : N) : TrackedPeerHealth :=
  {| th_state := ∅; th_threshold := threshold; th_cooldown := cooldown;
     th_half_open_interval := DEFAULT_HALF_OPEN_INTERVAL; th_next_trial := 0 |}.

Definition TrackedPeerHealth_new : TrackedPeerHealth := with_params DEFAULT_FAILURE_THRESHOLD DEFAULT_COOLDOWN.

Definition with_half_open_interval (interval : N) (h : TrackedPeerHealth) : TrackedPeerHealth :=
  {| th_state := th_state h; th_threshold := th_threshold h; th_cooldown := th_cooldown h;
     th_half_open_interval := interval; th_next_trial := th_next_trial h |}.

Definition set_peers (f : gmap string PeerState -> gmap string PeerState) (h : TrackedPeerHealth) : TrackedPeerHealth :=
  {| th_state := f (th_state h); th_threshold := th_threshold h; th_cooldown := th_cooldown h;
     th_half_open_interval := th_half_open_interval h; th_next_trial := th_next_trial h |}.

(** The counter of trials is a [u64] that wraps. *)
Definition fetch_trial (h : TrackedPeerHealth) : TrackedPeerHealth :=
  {| th_state := th_state h; th_threshold := th_threshold h; th_cooldown := th_cooldown h;
     th_half_open_interval := th_half_open_interval h; th_next_trial := (th_next_trial h + 1) mod 2 ^ 64 |}.

Definition admit_peer (h : TrackedPeerHealth) (now : N) (peer : string) : TrackedPeerHealth * Admission :=
  match th_state h !! peer with
  | None => (h, Healthy)
  | Some entry =>
      match unhealthy_until entry with
      | None => (h, Healthy)
      | Some until =>
          if (until <=? now)%N then (set_peers (delete peer) h, Healthy)
          else
            match trial entry with
            | Some _ => (h, AdmRefused)
            | None =>
                let due := match window_from entry with
                           | None => true
                           | Some from => (th_half_open_interval h <=? now - from)%N
                           end in
                if negb due then (h, AdmRefused)
                else
                  let id := th_next_trial h in
                  let entry := {| consecutive_failures := consecutive_failures entry;
                                  unhealthy_until := unhealthy_until entry;
                                  window_from := Some now; trial := Some id |} in
                  (set_peers <[peer := entry]> (fetch_trial h), Trial id)
            end
      end
  end.

Definition record_success (h : TrackedPeerHealth) (peer : string) (a : Admission) : TrackedPeerHealth :=
  set_peers (delete peer) h.

(** [saturating_add] on the [u32] streak. *)
Definition bump (n : N) : N := N.min (n + 1) (2 ^ 32 - 1).

Definition ordinary_failure (h : TrackedPeerHealth) (now : N) (entry : PeerState) : PeerState :=
  let n := bump (consecutive_failures entry) in
  if (th_threshold h <=? n)%N
  then {| consecutive_failures := n; unhealthy_until := Some (now + th_cooldown h)%N;
          window_from := Some now; trial := trial entry |}
  else {| consecutive_failures := n; unhealthy_until := unhealthy_until entry;
          window_from := window_from entry; trial := trial entry |}.

Definition record_failure (h : TrackedPeerHealth) (now : N) (peer : string) (a : Admission) : TrackedPeerHealth :=
  let entry := default PeerState_default (th_state h !! peer) in
  let entry' :=
    match a with
    | Trial id =>
        if bool_decide (trial entry = Some id)
        then {| consecutive_failures := consecutive_failures entry;
                unhealthy_until := Some (now + th_cooldown h)%N; window_from := Some now; trial := None |}
        else ordinary_failure h now entry
    | Healthy => ordinary_failure h now entry
    | AdmRefused => entry
    end in
  set_peers <[peer := entry']> h.

Definition release (h : TrackedPeerHealth) (peer : string) (a : Admission) : TrackedPeerHealth :=
  match a with
  | Trial id =>
      match th_state h !! peer with
      | Some entry =>
          if bool_decide (trial entry = Some id)
          then set_peers <[peer := {| consecutive_failures := consecutive_failures entry;
                                      unhealthy_until := unhealthy_until entry;
                                      window_from := window_from entry; trial := None |}]> h
          else h
      | None => h
      end
  | _ => h
  end.

(** ** Calls *)

Definition unhealthy_error (peer : string) : RpcError := Transport ("peer " +:+ peer +:+ " is not healthy").

(** The attempts of a call from the [i]-th on, with [retries] of them left after it: the
    outcome, and how many were made. *)
Fixpoint attempts (exchange : nat -> result RpcError bytes) (i retries : nat) : result RpcError bytes * nat :=
  match exchange i with
  | Ok response => (Ok response, 1%nat)
  | Err e =>
      match retries with
      | S retries => if is_retryable e then let '(r, n) := attempts exchange (S i) retries in (r, S n) else (Err e, 1%nat)
      | O => (Err e, 1%nat)
      end
  end.

(** A call admitted at [now] that ends at [later]. *)
Definition call (h : TrackedPeerHealth) (now later : N) (peer : string) (max_retries : nat)
    (exchange : nat -> result RpcError bytes) : TrackedPeerHealth * result RpcError bytes :=
  let '(h, admission) := admit_peer h now peer in
  match admission with
  | AdmRefused => (h, Err (unhealthy_error peer))
  | _ =>
      match (attempts exchange 0 max_retries).1 with
      | Ok response => (record_success h peer admission, Ok response)
      | Err e =>
          (if is_liveness_failure e then record_failure h later peer admission else record_success h peer admission,
           Err e)
      end
  end.

Definition settle_single_attempt (h : TrackedPeerHealth) (later : N) (peer : string) (e : RpcError) (a : Admission)
    : TrackedPeerHealth :=
  match e with
  | RpcTimeout => release h peer a
  | e => if is_liveness_failure e then record_failure h later peer a else record_success h peer a
  end.

(** One attempt under the caller's own deadline; [None] is the deadline's expiry. *)
Definition bounded (outcome : option (result RpcError bytes)) : result RpcError bytes :=
  match outcome with Some r => r | None => Err RpcTimeout end.

Definition call_once (h : TrackedPeerHealth) (now later : N) (peer : string) (outcome : option (result RpcError bytes))
    : TrackedPeerHealth * result RpcError bytes :=
  let '(h, admission) := admit_peer h now peer in
  match admission with
  | AdmRefused => (h, Err (unhealthy_error peer))
  | _ =>
      match bounded outcome with
      | Ok response => (record_success h peer admission, Ok response)
      | Err e => (settle_single_attempt h later peer e admission, Err e)
      end
  end.

(** A streamed response: the head is what the call waits for. *)
Definition fetch_stream {B} (h : TrackedPeerHealth) (now later : N) (peer : string) (head : result RpcError B)
    : TrackedPeerHealth * result RpcError B :=
  let '(h, admission) := admit_peer h now peer in
  match admission with
  | AdmRefused => (h, Err (unhealthy_error peer))
  | _ =>
      match head with
      | Ok body => (record_success h peer admission, Ok body)
      | Err e => (settle_single_attempt h later peer e admission, Err e)
      end
  end.

Definition probe (h : TrackedPeerHealth) (peer : string) (outcome : option (result RpcError bytes))
    : TrackedPeerHealth * result RpcError bytes :=
  match bounded outcome with
  | Ok response => (record_success h peer Healthy, Ok response)
  | Err e => (h, Err e)
  end.

(** The pause before retry [attempt], in milliseconds, with [jitter] drawn from
    [0..=base/2]. *)
Definition backoff_base (attempt : N) : N := 50 * 2 ^ (N.min attempt 6 - 1).

Definition backoff (attempt jitter : N) : N := backoff_base attempt - backoff_base attempt / 4 + jitter.

(** ** Addresses *)

Inductive AuthorityError :=
  | MissingPort (s : string)
  | EmptyHost (s : string)
  | InvalidHost (s : string)
  | InvalidPort (s : string)
  | UnbracketedIpv6 (s : string).

(** [str::rsplit_once] at a character. *)
Fixpoint rsplit_char (c : ascii) (s : string) : option (string * string) :=
  match s with
  | EmptyString => None
  | String d s' =>
      match rsplit_char c s' with
      | Some (a, b) => Some (String d a, b)
      | None => if Ascii.eqb d c then Some (EmptyString, s') else None
      end
  end.

Definition is_host_char (c : ascii) : bool :=
  let n := N_of_ascii c in
  is_ascii_digit c || (65 <=? n)%N && (n <=? 90)%N || (97 <=? n)%N && (n <=? 122)%N
  || existsb (Ascii.eqb c) ["-"; "."; "_"; "["; "]"; ":"]%char.

Definition contains_char (c : ascii) (s : string) : bool := negb (string_forallb (fun d => negb (Ascii.eqb d c)) s).

(** [is_socket_addr] is what [SocketAddr]'s own parser accepts. *)
Definition Authority_from_str (is_socket_addr : string -> bool) (s : string) : result AuthorityError string :=
  if is_socket_addr s then Ok s
  else
    match rsplit_char ":" s with
    | None => Err (MissingPort s)
    | Some (host, port) =>
        if String.eqb host EmptyString then Err (EmptyHost s)
        else if contains_char ":" host && negb (starts_with "[" host) && negb (bool_decide (is_Some (split_once "//" host)))
        then Err (UnbracketedIpv6 s)
        else if negb (string_forallb is_host_char host) then Err (InvalidHost s)
        else match parse_u16 port with
             | None => Err (InvalidPort s)
             | Some _ => Ok s
             end
    end.
