(* ===== verification/HealthFacts.v ===== *)
(** * What the circuit breaker promises

    Trials of a peer that is down are serial and paced, a run of failures trips the
    breaker and time or an answer closes it, and a call makes a bounded number of
    attempts. *)

From S2P Require Import Prelude Auth Rpc Health.

(** ** Runs of a tracker *)

(** One use of the tracker by some caller. *)
Inductive Use :=
  | UAdmit
  | USuccess (a : Admission)
  | UFailure (a : Admission)
  | URelease (a : Admission).

Record Event := { ev_at : N; ev_peer : string; ev_use : Use }.

Definition apply_event (h : TrackedPeerHealth) (e : Event) : TrackedPeerHealth * option Admission :=
  match ev_use e with
  | UAdmit => let '(h, a) := admit_peer h (ev_at e) (ev_peer e) in (h, Some a)
  | USuccess a => (record_success h (ev_peer e) a, None)
  | UFailure a => (record_failure h (ev_at e) (ev_peer e) a, None)
  | URelease a => (release h (ev_peer e) a, None)
  end.

(** The callers' uses in the order the tracker's lock serialises them, with the answers. *)
Fixpoint run (h : TrackedPeerHealth) (es : list Event) : TrackedPeerHealth * list (option Admission) :=
  match es with
  | [] => (h, [])
  | e :: es => let '(h, a) := apply_event h e in let '(h, log) := run h es in (h, a :: log)
  end.

(** The event clears what is remembered of [p]: an answer, or an admission of [p] that
    found it healthy. *)
Definition clears (p : string) (ea : Event * option Admission) : Prop :=
  ev_peer ea.1 = p /\ ((exists a, ev_use ea.1 = USuccess a) \/ ea.2 = Some Healthy).

(** The trial [i] of [p] reports back. *)
Definition reports (p : string) (i : N) (e : Event) : Prop :=
  ev_peer e = p /\ (ev_use e = UFailure (Trial i) \/ ev_use e = URelease (Trial i)).

(** ** Trials *)

(** Since the trial [i] of [p] was admitted at [t]: the window is no older, and the trial
    is out unless it reported. *)
Definition since_trial (p : string) (i t : N) (reported : Prop) (h : TrackedPeerHealth) : Prop :=
  exists entry until from, th_state h !! p = Some entry /\ unhealthy_until entry = Some until
    /\ window_from entry = Some from /\ (t <= from)%N /\ (trial entry = Some i \/ reported).

Lemma admit_interval h now p : th_half_open_interval (admit_peer h now p).1 = th_half_open_interval h.
Proof. unfold admit_peer. by repeat case_match. Qed.

Lemma event_interval h e : th_half_open_interval (apply_event h e).1 = th_half_open_interval h.
Proof.
  unfold apply_event. destruct (ev_use e) as [|a|a|a]; [|done|done|].
  - pose proof (admit_interval h (ev_at e) (ev_peer e)). by destruct (admit_peer _ _ _).
  - simpl. unfold release. by repeat case_match.
Qed.

Lemma since_trial_weaken p i t (P Q : Prop) h : (P -> Q) -> since_trial p i t P h -> since_trial p i t Q h.
Proof. intros HPQ (entry & until & from & ?). exists entry, until, from. naive_solver. Qed.

Lemma event_other p h e : ev_peer e <> p -> th_state (apply_event h e).1 !! p = th_state h !! p.
Proof.
  intros Hp. unfold apply_event. destruct (ev_use e) as [|a|a|a]; simpl.
  - unfold admit_peer. destruct (th_state h !! ev_peer e); [|done].
    repeat case_match; simplify_eq/=; by rewrite ?lookup_delete_ne, ?lookup_insert_ne.
  - by rewrite lookup_delete_ne.
  - by rewrite lookup_insert_ne.
  - unfold release. repeat case_match; simpl; by rewrite ?lookup_insert_ne.
Qed.

Lemma admit_since p i t P h now :
  since_trial p i t P h -> (t <= now)%N -> (admit_peer h now p).2 <> Healthy -> since_trial p i t P (admit_peer h now p).1.
Proof.
  intros (entry & until & from & He & Hu & Hf & Hle & Ht) Hnow. unfold admit_peer. rewrite He, Hu.
  destruct (until <=? now)%N; [done|]. destruct (trial entry) as [k|] eqn:Hk; [intros _; exists entry, until, from; rewrite Hk; naive_solver|].
  destruct Ht as [?|HP]; [done|]. rewrite Hf. destruct (negb _); [intros _; exists entry, until, from; naive_solver|].
  intros _. eexists _, until, now. simpl. rewrite lookup_insert_eq. by split_and!; [|simpl|simpl| |right].
Qed.

Lemma failure_since p i t P h now a :
  since_trial p i t P h -> (t <= now)%N -> since_trial p i t (P \/ a = Trial i) (record_failure h now p a).
Proof.
  intros (entry & until & from & He & Hu & Hf & Hle & Ht) Hnow. unfold record_failure. rewrite He. simpl default.
  assert (exists until' from', unhealthy_until (ordinary_failure h now entry) = Some until'
    /\ window_from (ordinary_failure h now entry) = Some from' /\ (t <= from')%N
    /\ trial (ordinary_failure h now entry) = trial entry) as (until' & from' & Hu' & Hf' & Hle' & Ht').
  { unfold ordinary_failure. case_match; simpl; eauto 10. }
  unfold since_trial. simpl. rewrite lookup_insert_eq. destruct a as [|id|].
  - eexists _, until', from'. rewrite Ht'. naive_solver.
  - case_bool_decide as Hid.
    + eexists _, _, now. split_and!; [done|done|done|done|]. right. naive_solver.
    + eexists _, until', from'. rewrite Ht'. naive_solver.
  - eexists _, until, from. naive_solver.
Qed.

Lemma release_since p i t P h a :
  since_trial p i t P h -> since_trial p i t (P \/ a = Trial i) (release h p a).
Proof.
  intros (entry & until & from & He & Hu & Hf & Hle & Ht). unfold release.
  destruct a as [|id|]; [by exists entry, until, from; naive_solver| |by exists entry, until, from; naive_solver].
  rewrite He. case_bool_decide as Hid; [|by exists entry, until, from; naive_solver].
  unfold since_trial. simpl. rewrite lookup_insert_eq. eexists _, until, from. simpl.
  split_and!; [done|done|done|done|]. right. naive_solver.
Qed.

Lemma event_since p i t P h e :
  since_trial p i t P h -> (t <= ev_at e)%N -> ~ clears p (e, (apply_event h e).2) ->
  since_trial p i t (P \/ reports p i e) (apply_event h e).1.
Proof.
  intros Hs Hle Hc. destruct (decide (ev_peer e = p)) as [Hp|Hp].
  - unfold clears, reports, apply_event in *. rewrite Hp in *. simpl in Hc.
    destruct (ev_use e) as [|a|a|a] eqn:Hu; simpl in *.
    + destruct (admit_peer h (ev_at e) p) as [h' a] eqn:Ha. simpl in *.
      pose proof (admit_since p i t P h (ev_at e) Hs Hle) as Hn. rewrite Ha in Hn. simpl in Hn.
      eapply since_trial_weaken, Hn; [auto|]. intros ->. apply Hc. auto.
    + exfalso. apply Hc. split; [done|]. left. by exists a.
    + eapply since_trial_weaken, (failure_since p i t P h (ev_at e) a Hs Hle). naive_solver.
    + eapply since_trial_weaken, (release_since p i t P h a Hs). naive_solver.
  - eapply since_trial_weaken with (P := P); [auto|]. unfold since_trial. by rewrite event_other.
Qed.

Lemma run_since p i t es : forall P h,
  since_trial p i t P h -> Forall (fun e => (t <= ev_at e)%N) es ->
  Forall (fun ea => ~ clears p ea) (zip es (run h es).2) ->
  since_trial p i t (P \/ Exists (reports p i) es) (run h es).1
  /\ th_half_open_interval (run h es).1 = th_half_open_interval h.
Proof.
  induction es as [|e es IH]; intros P h Hs Ht Hc; simpl in *.
  - split; [|done]. eapply since_trial_weaken, Hs. auto.
  - apply Forall_cons in Ht as [He Ht]. pose proof (event_interval h e) as Hi.
    pose proof (event_since p i t P h e Hs He) as Hn.
    destruct (apply_event h e) as [h1 a]. simpl in *. destruct (run h1 es) as [h2 log] eqn:Hr. simpl in *.
    apply Forall_cons in Hc as [Hc1 Hc]. specialize (IH _ h1 (Hn Hc1) Ht). rewrite Hr in IH. simpl in IH.
    destruct (IH Hc) as [IH1 IH2]. split; [|congruence]. eapply since_trial_weaken, IH1.
    rewrite Exists_cons. tauto.
Qed.

Lemma admit_trial h now p h' i :
  admit_peer h now p = (h', Trial i) ->
  since_trial p i now False h' /\ th_half_open_interval h' = th_half_open_interval h
  /\ exists entry, th_state h !! p = Some entry /\ trial entry = None /\
       match window_from entry with Some from => (th_half_open_interval h <= now - from)%N | None => True end.
Proof.
  unfold admit_peer. destruct (th_state h !! p) as [entry|]; [|done].
  destruct (unhealthy_until entry) as [until|] eqn:Hu; [|done]. destruct (until <=? now)%N; [done|].
  destruct (trial entry) eqn:Ht; [done|].
  destruct (negb _) eqn:Hd; [done|]. intros [= <- <-]. split_and!; [|done|].
  - eexists _, until, now. simpl. rewrite lookup_insert_eq. by split_and!; [|simpl|simpl| |left].
  - exists entry. split_and!; [done|done|]. destruct (window_from entry); [|done].
    apply negb_false_iff, N.leb_le in Hd. done.
Qed.

(** Trials of a peer that is down are serial and paced. Between two trials of one
    peer, with no answer from it and no admission that found it healthy in between, the
    first has reported back, and at least the half-open interval has passed, whatever calls
    to it or to other peers were admitted, failed late or were released meanwhile. *)
Theorem trials_serial h t1 p i h1 es t2 j h3 :
  admit_peer h t1 p = (h1, Trial i) ->
  Forall (fun e => (t1 <= ev_at e)%N) es -> (t1 <= t2)%N ->
  Forall (fun ea => ~ clears p ea) (zip es (run h1 es).2) ->
  admit_peer (run h1 es).1 t2 p = (h3, Trial j) ->
  (t1 + th_half_open_interval h <= t2)%N /\ Exists (reports p i) es.
Proof.
  intros H1 Ht Hle Hc H2. apply admit_trial in H1 as (Hs & Hi & _).
  destruct (run_since p i t1 es _ h1 Hs Ht Hc) as [(entry & until & from & He & _ & Hf & Hfrom & Htr) Hi'].
  apply admit_trial in H2 as (_ & _ & entry' & He' & Hn & Hd). rewrite He in He'. injection He' as <-.
  rewrite Hf in Hd. rewrite Hi', Hi in Hd. split; [lia|]. rewrite Hn in Htr. naive_solver.
Qed.

(** ** Tripping and recovering *)

Definition failures (h : TrackedPeerHealth) (p : string) (ts : list N) : TrackedPeerHealth :=
  foldl (fun h t => record_failure h t p Healthy) h ts.

(** What a run of ordinary failures leaves of a peer nothing was remembered of. *)
Lemma failures_entry h p ts t :
  th_state h !! p = None -> (th_threshold h < 2 ^ 32)%N ->
  let n := N.of_nat (S (length ts)) in
  let tripped := (th_threshold h <=? n)%N in
  let h' := failures h p (ts ++ [t]) in
  th_state h' !! p =
    Some {| consecutive_failures := N.min n (2 ^ 32 - 1);
            unhealthy_until := if tripped then Some (t + th_cooldown h)%N else None;
            window_from := if tripped then Some t else None; trial := None |}
  /\ th_threshold h' = th_threshold h /\ th_cooldown h' = th_cooldown h
  /\ th_half_open_interval h' = th_half_open_interval h /\ th_next_trial h' = th_next_trial h.
Proof.
  intros Hn Hth. revert t. induction ts as [|t0 ts IH] using rev_ind; intros t; cbv zeta.
  - unfold failures. cbn [app foldl]. unfold record_failure. simpl th_state. rewrite lookup_insert_eq, Hn.
    cbn [default length]. change (N.of_nat 1) with 1%N. change (N.min 1 (2 ^ 32 - 1)) with 1%N. split_and!; [|done..].
    unfold ordinary_failure. cbn [consecutive_failures unhealthy_until window_from trial PeerState_default].
    change (bump 0) with 1%N. by destruct (th_threshold h <=? 1)%N.
  - destruct (IH t0) as (He & H1 & H2 & H3 & H4). unfold failures in *. rewrite foldl_snoc.
    set (h0 := foldl _ h (ts ++ [t0])) in *. unfold record_failure. simpl. rewrite lookup_insert_eq, He. simpl default.
    split_and!; [|done..]. f_equal. unfold ordinary_failure. rewrite H1, H2. simpl. unfold bump.
    rewrite length_app. simpl length. replace (length ts + 1)%nat with (S (length ts)) by lia.
    set (n := N.of_nat (S (length ts))). replace (N.of_nat (S (S (length ts)))) with (n + 1)%N by lia.
    assert (N.min (N.min n (2 ^ 32 - 1) + 1) (2 ^ 32 - 1) = N.min (n + 1) (2 ^ 32 - 1))%N as -> by lia.
    destruct (N.leb_spec (th_threshold h) (N.min (n + 1) (2 ^ 32 - 1))), (N.leb_spec (th_threshold h) (n + 1)),
      (N.leb_spec (th_threshold h) n); try lia; done.
Qed.

(** When the breaker opens and when it lets a call through. After a run of failed
    calls to a peer nothing was remembered of, the last at [t], the peer is called as
    healthy while the run is shorter than the threshold. From the threshold on, it is
    refused for the half-open interval, then given one trial, and once the cooldown has
    passed it is healthy again with its streak forgotten. *)
Theorem breaker_trips h p ts t now :
  th_state h !! p = None -> (th_threshold h < 2 ^ 32)%N -> (t <= now)%N ->
  let h' := failures h p (ts ++ [t]) in
  let '(h'', a) := admit_peer h' now p in
  if (N.of_nat (S (length ts)) <? th_threshold h)%N then a = Healthy /\ h'' = h'
  else if (t + th_cooldown h <=? now)%N then a = Healthy /\ th_state h'' !! p = None
  else if (t + th_half_open_interval h <=? now)%N then a = Trial (th_next_trial h)
       /\ forall now', (now' < t + th_cooldown h)%N -> (admit_peer h'' now' p).2 = AdmRefused
  else a = AdmRefused /\ h'' = h'.
Proof.
  intros Hn Hth Hle. cbv zeta. destruct (failures_entry h p ts t Hn Hth) as (He & H1 & H2 & H3 & H4).
  set (h' := failures h p (ts ++ [t])) in *. set (n := N.of_nat (S (length ts))) in *.
  unfold admit_peer at 1. rewrite He. destruct (N.ltb_spec n (th_threshold h)), (N.leb_spec (th_threshold h) n); try lia; [done|].
  cbn [unhealthy_until]. destruct (N.leb_spec (t + th_cooldown h) now).
  - simpl. by rewrite lookup_delete_eq.
  - cbn [trial window_from]. rewrite H3.
    destruct (N.leb_spec (th_half_open_interval h) (now - t)), (N.leb_spec (t + th_half_open_interval h) now); try lia;
      cbn [negb]; [|done].
    rewrite H4. split; [done|]. intros now' Hlt. unfold admit_peer. simpl. rewrite lookup_insert_eq. simpl.
    by destruct (N.leb_spec (t + th_cooldown h) now'); [lia|].
Qed.

(** ** Calls *)

(** What a call makes of its attempts. It makes at least one and at most one more
    than its retries; it ends with the outcome of its last attempt, every earlier one
    having failed with an error that may be retried; and it gives up on such an error only
    when its retries are spent. With the default three retries the pauses between the
    attempts add up to less than 439 ms, whatever the jitter drawn. *)
Theorem retries_spec exchange retries :
  let '(r, n) := attempts exchange 0 retries in
  (1 <= n <= S retries)%nat /\ r = exchange (Nat.pred n)
  /\ (forall k, (k < Nat.pred n)%nat -> exists e, exchange k = Err e /\ is_retryable e = true)
  /\ (forall e, r = Err e -> is_retryable e = true -> n = S retries)
  /\ (retries = 3%nat -> forall jitter, (forall k, jitter k <= backoff_base k / 2)%N ->
        (foldr N.add 0 ((fun k => backoff (N.of_nat k) (jitter (N.of_nat k))) <$> seq 1 (Nat.pred n)) <= 438)%N).
Proof.
  assert (forall retries i, let '(r, n) := attempts exchange i retries in
    (1 <= n <= S retries)%nat /\ r = exchange (i + Nat.pred n)%nat
    /\ (forall k, (k < Nat.pred n)%nat -> exists e, exchange (i + k)%nat = Err e /\ is_retryable e = true)
    /\ (forall e, r = Err e -> is_retryable e = true -> n = S retries)) as H.
  { clear retries. induction retries as [|m IH]; intros i; simpl; destruct (exchange i) as [b|e] eqn:He.
    - split_and!; [lia..|by rewrite Nat.add_0_r|intros k Hk; simpl in Hk; lia|done].
    - split_and!; [lia..|by rewrite Nat.add_0_r|intros k Hk; simpl in Hk; lia|done].
    - split_and!; [lia..|by rewrite Nat.add_0_r|intros k Hk; simpl in Hk; lia|done].
    - destruct (is_retryable e) eqn:Hr; [|split_and!; [lia..|by rewrite Nat.add_0_r|intros k Hk; simpl in Hk; lia|]].
      + specialize (IH (S i)). destruct (attempts exchange (S i) m) as [r n]. destruct IH as (Hn & -> & Hk & Hg).
        simpl Nat.pred. split_and!; [lia..|f_equal; lia| |].
        * intros k Hlt. destruct k as [|k]; [rewrite Nat.add_0_r; eauto|]. replace (i + S k)%nat with (S i + k)%nat by lia.
          apply Hk. lia.
        * intros e' He' Hr'. f_equal. by eapply Hg.
      + intros e' [= <-]. by rewrite Hr. }
  specialize (H retries 0%nat). destruct (attempts exchange 0 retries) as [r n]. destruct H as (Hn & Hr & Hk & Hg).
  split_and!; [lia..|done|exact Hk|exact Hg|]. intros -> jitter Hj.
  assert (jitter 1 <= 25 /\ jitter 2 <= 50 /\ jitter 3 <= 100)%N as (J1 & J2 & J3)
    by (split_and!; [exact (Hj 1%N)|exact (Hj 2%N)|exact (Hj 3%N)]).
  assert (backoff 1 (jitter 1) <= 63 /\ backoff 2 (jitter 2) <= 125 /\ backoff 3 (jitter 3) <= 250)%N as (B1 & B2 & B3).
  { unfold backoff. change (backoff_base 1) with 50%N. change (backoff_base 2) with 100%N.
    change (backoff_base 3) with 200%N. change (50 / 4)%N with 12%N. change (100 / 4)%N with 25%N.
    change (200 / 4)%N with 50%N. lia. }
  destruct n as [|[|[|[|[|]]]]]; simpl in *; try lia;
    change (N.of_nat 1) with 1%N; change (N.of_nat 2) with 2%N; change (N.of_nat 3) with 3%N; lia.
Qed.

(** What a call leaves of the peer's health: nothing when it was refused, nothing
    remembered when the peer answered, and one more failure otherwise. *)
Lemma call_health h now later p retries exchange :
  let '(h1, a) := admit_peer h now p in
  let '(h2, r) := call h now later p retries exchange in
  match a with
  | AdmRefused => h2 = h1 /\ r = Err (unhealthy_error p)
  | _ => r = (attempts exchange 0 retries).1 /\
         if match r with Err e => is_liveness_failure e | Ok _ => false end
         then h2 = record_failure h1 later p a else th_state h2 !! p = None
  end.
Proof.
  unfold call. destruct (admit_peer h now p) as [h1 a].
  destruct a; try done; destruct (attempts exchange 0 retries).1 as [b|e]; simpl;
    try (by rewrite lookup_delete_eq); destruct (is_liveness_failure e); simpl; by rewrite ?lookup_delete_eq.
Qed.

(** ** Addresses *)

Lemma rsplit_char_Some c s a b :
  rsplit_char c s = Some (a, b) <-> s = a +:+ String c b /\ contains_char c b = false.
Proof.
  unfold contains_char. rewrite negb_false_iff. split.
  - revert a b. induction s as [|d s IH]; intros a b; [done|]. simpl.
    destruct (rsplit_char c s) as [[x y]|] eqn:E.
    + intros [= <- <-]. destruct (IH x y eq_refl) as [-> ?]. done.
    + destruct (Ascii.eqb_spec d c) as [->|]; [|done]. intros [= <- <-]. split; [done|].
      clear IH. induction s as [|d s IH]; [done|]. simpl in *. destruct (rsplit_char c s) as [[]|]; [done|].
      destruct (Ascii.eqb_spec d c); [done|]. by apply IH.
  - intros [-> Hb]. assert (rsplit_char c b = None) as Hn.
    { induction b as [|d b IH]; [done|]. simpl in *. apply andb_true_iff in Hb as [Hd Hb].
      rewrite (IH Hb). by destruct (Ascii.eqb d c). }
    induction a as [|d a IH]; simpl; [by rewrite Hn, Ascii.eqb_refl|by rewrite IH].
Qed.

(** An address is kept verbatim, and is a literal socket address or a host and a port:
    the host non-empty, of host characters, with a colon only behind an opening bracket. *)
Lemma Authority_from_str_Ok f s s' :
  Authority_from_str f s = Ok s' ->
  s' = s /\ (f s = true \/ exists host port n, s = host +:+ ":" +:+ port /\ host <> EmptyString
    /\ string_forallb is_host_char host = true /\ parse_u16 port = Some n
    /\ (contains_char ":" host = true -> starts_with "[" host = true)).
Proof.
  unfold Authority_from_str. destruct (f s); [intros [= <-]; auto|].
  destruct (rsplit_char ":" s) as [[host port]|] eqn:E; [|done]. apply rsplit_char_Some in E as [-> Hb].
  destruct (String.eqb_spec host EmptyString) as [|Hne]; [done|].
  destruct (_ && _ && _) eqn:E6; [done|]. destruct (string_forallb is_host_char host) eqn:Hh; [|done]. cbn [negb].
  destruct (parse_u16 port) as [n|] eqn:Hp; [|done]. intros [= <-]. split; [done|]. right.
  exists host, port, n. split_and!; try done. intros Hc. rewrite Hc in E6.
  destruct (starts_with "[" host); [done|]. simpl in E6. apply negb_false_iff, bool_decide_eq_true in E6 as [[x y] Hs].
  apply split_once_Some in Hs. rewrite Hs, !string_forallb_app in Hh. simpl in Hh. by rewrite andb_false_r in Hh.
Qed.

(** A stray bracket passes for a host. *)
Lemma stray_bracket_accepted : Authority_from_str (fun _ => false) "[:80" = Ok "[:80"%string.
Proof. by vm_compute. Qed.

(** ** A peer that goes down *)

Definition peer_a : string := "10.0.0.2:4790".

Definition down : TrackedPeerHealth := failures TrackedPeerHealth_new peer_a [0; 10; 20]%N.

Lemma breaker_trips_witness :
  (admit_peer down 100 peer_a).2 = AdmRefused /\ (admit_peer down 270 peer_a).2 = Trial 0 /\ (admit_peer down 5020 peer_a).2 = Healthy.
Proof.
  pose proof (fun now H => breaker_trips TrackedPeerHealth_new peer_a [0; 10]%N 20 now eq_refl
    ltac:(vm_compute; reflexivity) H) as B.
  split_and!.
  - specialize (B 100%N ltac:(lia)). change (failures TrackedPeerHealth_new peer_a ([0; 10]%N ++ [20%N])) with down in B. cbv zeta in B.
    destruct (admit_peer down 100 peer_a) as [h a]. exact (proj1 B).
  - specialize (B 270%N ltac:(lia)). change (failures TrackedPeerHealth_new peer_a ([0; 10]%N ++ [20%N])) with down in B. cbv zeta in B.
    destruct (admit_peer down 270 peer_a) as [h a]. exact (proj1 B).
  - specialize (B 5020%N ltac:(lia)). change (failures TrackedPeerHealth_new peer_a ([0; 10]%N ++ [20%N])) with down in B. cbv zeta in B.
    destruct (admit_peer down 5020 peer_a) as [h a]. exact (proj1 B).
Defined.

(** A call admitted before the trip fails while the trial is out, which then reports. *)
Definition while_down : list Event :=
  [ {| ev_at := 300; ev_peer := peer_a; ev_use := UFailure Healthy |};
    {| ev_at := 310; ev_peer := peer_a; ev_use := UAdmit |};
    {| ev_at := 400; ev_peer := peer_a; ev_use := UFailure (Trial 0) |} ].

Lemma trials_serial_witness :
  let h1 := (admit_peer down 270 peer_a).1 in
  (admit_peer (run h1 while_down).1 660 peer_a).2 = Trial 1
  /\ (270 + 250 <= 660)%N /\ Exists (reports peer_a 0) while_down.
Proof.
  cbv zeta. split; [vm_compute; reflexivity|].
  apply (trials_serial down 270 peer_a 0 (admit_peer down 270 peer_a).1 while_down 660 1
    (admit_peer (run (admit_peer down 270 peer_a).1 while_down).1 660 peer_a).1).
  - vm_compute. reflexivity.
  - repeat constructor; vm_compute; discriminate.
  - lia.
  - assert (zip while_down (run (admit_peer down 270 peer_a).1 while_down).2
      = zip while_down [None; Some AdmRefused; None]) as -> by (vm_compute; reflexivity).
    repeat constructor; unfold clears; simpl; naive_solver.
  - vm_compute. reflexivity.
Defined.
