(* ===== verification/Wire.v ===== *)
(** * The cluster port: [rpc/routes.rs], [rpc/server.rs] and the wire form of errors

    Version negotiation, the recipient a request names, the route table, the order of
    checks in front of a handler, and an error's way from the server that answers it to the
    client that reads it. Which handler runs, and with what, is the outcome of a dispatch;
    the JSON envelope of an error is a class. *)

From S2P Require Import Prelude Auth Rpc.

(** ** Versions *)

Definition PROTO_VERSION : ProtocolVersion := {| pv_major := 1; pv_minor := 0 |}.

Definition ProtocolVersion_parse (value : string) : option ProtocolVersion :=
  '(major, minor) ← split_once "." (trim value);
  major ← parse_u16 major;
  minor ← parse_u16 minor;
  Some {| pv_major := major; pv_minor := minor |}.

Definition is_compatible_with (v other : ProtocolVersion) : bool := (pv_major v =? pv_major other)%N.

Definition ProtocolVersion_display (v : ProtocolVersion) : string := pretty (pv_major v) +:+ "." +:+ pretty (pv_minor v).

Definition negotiate (header : option string) : result RpcError ProtocolVersion :=
  match header ≫= ProtocolVersion_parse with
  | None => Err (VersionSkew None PROTO_VERSION)
  | Some peer => if is_compatible_with PROTO_VERSION peer then Ok peer else Err (VersionSkew (Some peer) PROTO_VERSION)
  end.

(** ** Targets *)

Definition route_path (path : string) : string :=
  match split_once "?" path with Some (before, _) => before | None => path end.

Definition addressed (path : string) (to : N) : string :=
  path +:+ (if bool_decide (is_Some (split_once "?" path)) then "&" else "?") +:+ "to=" +:+ pretty to.

(** The loop over the query's [to=] values, with what was found before. *)
Fixpoint read_recipients (found : option N) (values : list string) : result RpcError (option N) :=
  match values with
  | [] => Ok found
  | value :: rest =>
      match found with
      | Some _ => Err (BadRequest "the recipient `to` is given more than once")
      | None =>
          if String.eqb value EmptyString || negb (string_forallb is_ascii_digit value)
          then Err (BadRequest ("the recipient `to=" +:+ value +:+ "` is not a node id"))
          else match parse_u64 value with
               | None => Err (BadRequest ("the recipient `to=" +:+ value +:+ "` is out of range"))
               | Some id => read_recipients (Some id) rest
               end
      end
  end.

Definition recipient (path_and_query : string) : result RpcError (option N) :=
  match split_once "?" path_and_query with
  | None => Ok None
  | Some (_, query) =>
      let pairs := split_char "&" query in
      if existsb (fun pair => String.eqb pair "to") pairs then Err (BadRequest "the recipient `to` has no value")
      else read_recipients None (omap (strip_prefix "to=") pairs)
  end.

(** ** The route table *)

Definition ascii_upper (c : ascii) : ascii :=
  let n := N_of_ascii c in if (97 <=? n)%N && (n <=? 122)%N then byte_of (n - 32) else c.

Fixpoint to_ascii_uppercase (s : string) : string :=
  match s with EmptyString => EmptyString | String c s' => String (ascii_upper c) (to_ascii_uppercase s') end.

(** [&s[n..]] *)
Fixpoint str_drop (n : nat) (s : string) : string :=
  match n, s with S n, String _ s' => str_drop n s' | _, _ => s end.

(** [Iterator::max_by_key]: of several greatest, the last. *)
Fixpoint max_by_key {A} (key : A -> nat) (best : option A) (l : list A) : option A :=
  match l with
  | [] => best
  | x :: l' =>
      max_by_key key (match best with Some b => if (key x <? key b)%nat then Some b else Some x | None => Some x end) l'
  end.

Section Table.
  Context {H P S : Type}.

Record Router := {
  rt_routes : gmap (string * string) H;
  rt_prefix_routes : list (string * string * P);
  rt_stream_routes : list (string * string * S);
}.

Definition Router_new : Router := {| rt_routes := ∅; rt_prefix_routes := []; rt_stream_routes := [] |}.

Definition add_route (method path : string) (handler : H) (r : Router) : Router :=
  {| rt_routes := <[(to_ascii_uppercase method, path) := handler]> (rt_routes r);
     rt_prefix_routes := rt_prefix_routes r; rt_stream_routes := rt_stream_routes r |}.

Definition route_prefix (method prefix : string) (handler : P) (r : Router) : Router :=
  {| rt_routes := rt_routes r;
     rt_prefix_routes := rt_prefix_routes r ++ [(to_ascii_uppercase method, prefix, handler)];
     rt_stream_routes := rt_stream_routes r |}.

Definition route_stream_prefix (method prefix : string) (handler : S) (r : Router) : Router :=
  {| rt_routes := rt_routes r; rt_prefix_routes := rt_prefix_routes r;
     rt_stream_routes := rt_stream_routes r ++ [(to_ascii_uppercase method, prefix, handler)] |}.

Definition router_lookup (r : Router) (method path : string) : option H :=
  rt_routes r !! (to_ascii_uppercase method, route_path path).

(** The longest prefix registered for the method, with the rest of the path. *)
Definition longest_prefix {A} (routes : list (string * string * A)) (method path : string) : option (A * string) :=
  let matching := List.filter (fun '(m, prefix, _) =>
    String.eqb m (to_ascii_uppercase method) && starts_with prefix (route_path path)) routes in
  '(_, prefix, handler) ← max_by_key (fun '(_, prefix, _) => String.length prefix) None matching;
  Some (handler, str_drop (String.length prefix) path).

Definition lookup_prefix (r : Router) (method path : string) : option (P * string) :=
  longest_prefix (rt_prefix_routes r) method path.

Definition lookup_stream_prefix (r : Router) (method path : string) : option (S * string) :=
  longest_prefix (rt_stream_routes r) method path.

Definition router_merge (r other : Router) : Router :=
  {| rt_routes := rt_routes other ∪ rt_routes r;
     rt_prefix_routes := rt_prefix_routes r ++ rt_prefix_routes other;
     rt_stream_routes := rt_stream_routes r ++ rt_stream_routes other |}.

(** ** Dispatch *)

Record RpcServerConfig := {
  sc_verifier : option Verifier;
  sc_router : Router;
  sc_max_body_bytes : N;
  sc_node_id : option N;
}.

(** The handler a request reached, and what it is called with. *)
Inductive Dispatched :=
  | ToHandler (handler : H) (body : bytes)
  | ToPrefix (handler : P) (suffix : string) (body : bytes)
  | ToStream (handler : S) (suffix : string).

(** A request as it arrives: method, target, the two headers that were readable, and the
    body, unless reading it failed. *)
Record Incoming := {
  in_method : string;
  in_path : string;
  in_proto : option string;
  in_credential : option string;
  in_body : option bytes;
}.

Context (hmac_sha256 : bytes -> bytes -> bytes).

Definition with_verifier (c : RpcServerConfig) (v : Verifier) : RpcServerConfig :=
  {| sc_verifier := Some v; sc_router := sc_router c; sc_max_body_bytes := sc_max_body_bytes c;
     sc_node_id := sc_node_id c |}.

Definition check_credential (c : RpcServerConfig) (now : N) (req : Incoming) (body : bytes)
    : RpcServerConfig * result RpcError () :=
  match sc_verifier c with
  | None => (c, Ok tt)
  | Some v =>
      let '(r, v) := verify_at hmac_sha256 v now (in_credential req)
                       {| req_method := in_method req; req_path := in_path req; req_body := body |} in
      (with_verifier c v, match r with Ok _ => Ok tt | Err e => Err (Unauthorized e) end)
  end.

Definition find_handler (r : Router) (method path : string) (body : bytes) : result RpcError Dispatched :=
  match router_lookup r method path with
  | Some handler => Ok (ToHandler handler body)
  | None =>
      match lookup_prefix r method path with
      | Some (handler, suffix) => Ok (ToPrefix handler suffix body)
      | None =>
          match lookup_stream_prefix r method path with
          | Some (handler, suffix) => Ok (ToStream handler suffix)
          | None => Err (UnknownRoute method path)
          end
      end
  end.

Definition dispatch (c : RpcServerConfig) (now : N) (req : Incoming) : RpcServerConfig * result RpcError Dispatched :=
  match negotiate (in_proto req) with
  | Err e => (c, Err e)
  | Ok _ =>
      match in_body req with
      | None => (c, Err (BodyTooLarge (sc_max_body_bytes c)))
      | Some body =>
          if (sc_max_body_bytes c <? N.of_nat (length body))%N then (c, Err (BodyTooLarge (sc_max_body_bytes c)))
          else
            match check_credential c now req body with
            | (c, Err e) => (c, Err e)
            | (c, Ok _) =>
                (c, match recipient (in_path req) with
                    | Err e => Err e
                    | Ok to =>
                        match to, sc_node_id c with
                        | Some to, Some me =>
                            if negb (to =? me)%N then Err (WrongNode to me)
                            else find_handler (sc_router c) (in_method req) (in_path req) body
                        | _, _ => find_handler (sc_router c) (in_method req) (in_path req) body
                        end
                    end)
            end
      end
  end.

End Table.
Arguments Router : clear implicits.
Arguments RpcServerConfig : clear implicits.
Arguments Dispatched : clear implicits.

(** The request a client sends: signed over the target and body when it holds a key. *)
Definition outgoing (hmac_sha256 : bytes -> bytes -> bytes) (key : option bytes) (ts : N) (nonce : string)
    (method path : string) (body : bytes) : Incoming :=
  {| in_method := method; in_path := path; in_proto := Some (ProtocolVersion_display PROTO_VERSION);
     in_credential := (fun k => header_at hmac_sha256 k ts nonce
       {| req_method := method; req_path := path; req_body := body |}) <$> key;
     in_body := Some body |}.

(** ** Errors on the wire *)

Definition AuthError_display (e : AuthError) : string :=
  match e with
  | Malformed => "malformed cluster auth header"
  | BadMac => "cluster auth MAC mismatch"
  | StaleTimestamp => "cluster auth timestamp outside skew window"
  | ReplayedNonce => "cluster auth nonce replayed"
  | NonceCacheFull => "cluster auth nonce cache full"
  end.

Definition version_debug (v : option ProtocolVersion) : string :=
  match v with
  | None => "None"
  | Some v => "Some(ProtocolVersion { major: " +:+ pretty (pv_major v) +:+ ", minor: " +:+ pretty (pv_minor v) +:+ " })"
  end.

Definition rpc_display (e : RpcError) : string :=
  match e with
  | Unauthorized e => "unauthorized: " +:+ AuthError_display e
  | VersionSkew peer ours => "protocol version skew: peer " +:+ version_debug peer +:+ ", ours " +:+ ProtocolVersion_display ours
  | UnknownRoute method path => "unknown route: " +:+ method +:+ " " +:+ path
  | BodyTooLarge limit => "request body exceeds " +:+ pretty limit +:+ " bytes"
  | RpcTimeout => "request timed out"
  | Transport detail => "transport failure: " +:+ detail
  | Shed => "shed: no bridge capacity"
  | BadRequest detail => "bad request: " +:+ detail
  | Unavailable detail _ => "unavailable: " +:+ detail
  | NotLeader leader => "not the leader" +:+ match leader with Some l => "; leader is " +:+ l | None => EmptyString end
  | Handler detail => "handler error: " +:+ detail
  | NotFound what => "not found: " +:+ what
  | WrongNode expected actual =>
      "request for node " +:+ pretty expected +:+ " was answered by node " +:+ pretty actual
  end.

(** A JSON object of strings, written and read back field by field. *)
Class Envelope := {
  envelope : gmap string string -> bytes;
  envelope_field : bytes -> string -> option string;
  field_envelope : forall m k, envelope_field (envelope m) k = m !! k;
}.

Section Errors.
  Context `{Envelope}.

(** Status and body; the two headers beside an op id are not read by the client. *)
Definition error_response (e : RpcError) : N * bytes :=
  let body := <["message" := rpc_display e]> (<["error" := rpc_reason e]> ∅) in
  let body := match e with NotLeader (Some leader) => <["leader" := leader]> body | _ => body end in
  let body := match e with
              | WrongNode expected actual => <["actual" := pretty actual]> (<["expected" := pretty expected]> body)
              | _ => body
              end in
  let body := match e with Unavailable _ (Some op_id) => <["opId" := op_id]> body | _ => body end in
  (rpc_status e, envelope body).

Definition auth_error_from_reason (reason : option string) : AuthError :=
  match reason with
  | Some r =>
      if String.eqb r "malformed" then Malformed
      else if String.eqb r "stale_timestamp" then StaleTimestamp
      else if String.eqb r "replayed_nonce" then ReplayedNonce
      else if String.eqb r "nonce_cache_full" then NonceCacheFull
      else BadMac
  | None => BadMac
  end.

Definition status_to_error (status : N) (body : bytes) (method path : string) : RpcError :=
  let field := envelope_field body in
  let detail := default ("peer returned status " +:+ pretty status) (field "message"%string) in
  let named r := bool_decide (field "error"%string = Some r) in
  if (status =? 401)%N then Unauthorized (auth_error_from_reason (field "error"%string))
  else if (status =? 400)%N then BadRequest detail
  else if (status =? 404)%N then if named "not_found"%string then NotFound detail else UnknownRoute method path
  else if (status =? 413)%N then BodyTooLarge 0
  else if (status =? 409)%N then
    match field "expected"%string ≫= parse_u64, field "actual"%string ≫= parse_u64 with
    | Some expected, Some actual => if named "wrong_node"%string then WrongNode expected actual else Handler detail
    | _, _ => Handler detail
    end
  else if (status =? 421)%N then NotLeader (field "leader"%string)
  else if (status =? 426)%N then VersionSkew None PROTO_VERSION
  else if (status =? 503)%N then
    if named "unavailable"%string then Unavailable detail (field "opId"%string) else Shed
  else if (status =? 504)%N then RpcTimeout
  else Handler detail.

End Errors.
