(* ===== verification/WireFacts.v ===== *)
(** * What the cluster port promises

    No handler runs before the version, the credential and the recipient are checked; a
    request addressed to a member reaches that member's handler and no other's; the route
    table does not depend on the order it was filled in; and what a client learns of a
    peer's refusal. *)

From S2P Require Import Prelude Auth Rpc Health Wire.

(** ** Strings *)

Lemma split_once_char_None c s : split_once (String c EmptyString) s = None <-> contains_char c s = false.
Proof.
  unfold contains_char. rewrite negb_false_iff. induction s as [|d s IH]; [done|].
  change (split_once (String c EmptyString) (String d s)) with
    (match (if Ascii.eqb c d then Some s else None) with
     | Some rest => Some (EmptyString, rest)
     | None => match split_once (String c EmptyString) s with Some (a, b) => Some (String d a, b) | None => None end
     end). simpl string_forallb. rewrite (Ascii.eqb_sym d c). destruct (Ascii.eqb c d); [done|]. simpl.
  rewrite <- IH. by destruct (split_once _ s) as [[]|].
Qed.

Lemma split_once_char_app c s t :
  split_once (String c EmptyString) (s +:+ t) =
    match split_once (String c EmptyString) s with
    | Some (a, b) => Some (a, b +:+ t)
    | None => match split_once (String c EmptyString) t with Some (a, b) => Some (s +:+ a, b) | None => None end
    end.
Proof.
  induction s as [|d s IH].
  { change (EmptyString +:+ t) with t. simpl. by destruct (split_once (String c EmptyString) t) as [[]|]. }
  change (split_once (String c EmptyString) (String d s +:+ t)) with
    (match (if Ascii.eqb c d then Some (s +:+ t) else None) with
     | Some rest => Some (EmptyString, rest)
     | None => match split_once (String c EmptyString) (s +:+ t) with Some (a, b) => Some (String d a, b) | None => None end
     end).
  change (split_once (String c EmptyString) (String d s)) with
    (match (if Ascii.eqb c d then Some s else None) with
     | Some rest => Some (EmptyString, rest)
     | None => match split_once (String c EmptyString) s with Some (a, b) => Some (String d a, b) | None => None end
     end).
  destruct (Ascii.eqb c d); [done|]. rewrite IH. destruct (split_once (String c EmptyString) s) as [[]|]; [done|].
  by destruct (split_once (String c EmptyString) t) as [[]|].
Qed.

Lemma append_empty_r s : s +:+ EmptyString = s.
Proof.
  induction s as [|c s IH]; [done|]. change (String c s +:+ EmptyString) with (String c (s +:+ EmptyString)).
  by rewrite IH.
Qed.

Lemma split_char_nonempty sep s : split_char sep s <> [].
Proof. destruct s as [|c s]; [done|]. simpl. destruct (Ascii.eqb c sep); [done|]. by destruct (split_char sep s). Qed.

Lemma split_char_last sep s t :
  split_char sep (s +:+ String sep t) = split_char sep s ++ split_char sep t.
Proof.
  induction s as [|c s IH]; simpl; [by rewrite Ascii.eqb_refl|]. rewrite IH.
  destruct (Ascii.eqb c sep); [done|]. pose proof (split_char_nonempty sep s).
  by destruct (split_char sep s).
Qed.

(** ** Recipients *)

Lemma to_query_plain (to : N) :
  split_char "&" ("to=" +:+ pretty to) = ["to=" +:+ pretty to].
Proof.
  apply split_char_one. rewrite string_forallb_app. simpl.
  eapply string_forallb_impl; [|apply digits_pretty]. intros c.
  destruct c as [[] [] [] [] [] [] [] []]; done.
Qed.

Lemma read_recipients_None values : read_recipients None values = Ok None -> values = [].
Proof.
  assert (forall vs n, read_recipients (Some n) vs <> Ok None) as Hs by (intros [|v vs] n; done).
  destruct values as [|v vs]; [done|]. simpl. destruct (_ || _); [done|]. destruct (parse_u64 v); [|done].
  intros H. by apply Hs in H.
Qed.

Lemma addressed_query path (to : N) :
  split_once "?" (addressed path to) =
    Some (route_path path,
          match split_once "?" path with Some (_, q) => q +:+ "&to=" +:+ pretty to | None => "to=" +:+ pretty to end).
Proof.
  unfold addressed, route_path. rewrite split_once_char_app.
  destruct (split_once "?" path) as [[a q]|] eqn:E; [by rewrite bool_decide_true by eauto|].
  rewrite bool_decide_false by (by intros []).
  change (split_once "?" ("?" +:+ "to=" +:+ pretty to)) with (Some (EmptyString, "to=" +:+ pretty to)).
  cbv iota beta. by rewrite append_empty_r.
Qed.

Lemma route_path_addressed path to : route_path (addressed path to) = route_path path.
Proof. unfold route_path at 1. by rewrite addressed_query. Qed.

(** A path that names no recipient names the one it is addressed to. *)
Lemma recipient_addressed path to :
  (to <= u64_max)%N -> recipient path = Ok None -> recipient (addressed path to) = Ok (Some to).
Proof.
  intros Hto Hr. unfold recipient. rewrite addressed_query.
  assert (forall pairs, existsb (fun pair => String.eqb pair "to") pairs = false -> omap (strip_prefix "to=") pairs = [] ->
    (if existsb (fun pair => String.eqb pair "to") (pairs ++ ["to=" +:+ pretty to])
     then Err (BadRequest "the recipient `to` has no value")
     else read_recipients None (omap (strip_prefix "to=") (pairs ++ ["to=" +:+ pretty to]))) = Ok (Some to)) as Hgen.
  { intros pairs He Ho. rewrite existsb_app, He, omap_app, Ho. cbn [existsb orb omap list_omap app].
    assert (String.eqb ("to=" +:+ pretty to) "to" = false) as -> by done.
    change ("to=" +:+ pretty to) with ("to=" +:+ pretty to). rewrite strip_prefix_app. cbn [read_recipients].
    rewrite (proj2 (String.eqb_neq _ _)) by apply pretty_N_nonempty. rewrite digits_pretty. cbn [negb orb].
    unfold parse_u64. by rewrite from_str_radix_pretty. }
  revert Hr. unfold recipient. destruct (split_once "?" path) as [[a q]|].
  - change (q +:+ "&to=" +:+ pretty to) with (q +:+ String "&" ("to=" +:+ pretty to)).
    rewrite split_char_last, to_query_plain. destruct (existsb _ (split_char "&" q)) eqn:He; [done|].
    intros Ho%read_recipients_None. by apply Hgen.
  - intros _. rewrite to_query_plain. by apply (Hgen []).
Qed.

(** ** The route table *)

Lemma max_by_key_Some {A} (key : A -> nat) l best x :
  max_by_key key best l = Some x ->
  (x ∈ l \/ best = Some x) /\ (forall y, y ∈ l \/ best = Some y -> (key y <= key x)%nat).
Proof.
  revert best. induction l as [|z l IH]; intros best; simpl.
  - intros ->. split; [auto|]. intros y [Hy|[= <-]]; [by apply not_elem_of_nil in Hy|done].
  - intros [Hin Hmax]%IH. destruct best as [b|].
    + destruct (Nat.ltb_spec (key z) (key b)) as [Hlt|Hge].
      * split; [set_solver|]. intros y [[->|]%elem_of_cons|[= <-]]; [|auto|auto].
        etrans; [|apply Hmax; auto]. lia.
      * split; [set_solver|]. intros y [[->|]%elem_of_cons|[= <-]]; [auto..|].
        etrans; [|apply Hmax; auto]. lia.
    + split; [set_solver|]. intros y [[->|]%elem_of_cons|?]; [auto..|done].
Qed.

Lemma max_by_key_None {A} (key : A -> nat) l best : max_by_key key best l = None <-> best = None /\ l = [].
Proof.
  revert best. induction l as [|z l IH]; intros best; simpl; [naive_solver|].
  rewrite IH. destruct best as [b|]; [destruct (_ <? _)%nat|]; naive_solver.
Qed.

Lemma starts_with_same p q s :
  starts_with p s = true -> starts_with q s = true -> String.length p = String.length q -> p = q.
Proof.
  unfold starts_with. destruct (strip_prefix p s) as [r|] eqn:Hp; [|done].
  destruct (strip_prefix q s) as [r'|] eqn:Hq; [|done]. apply strip_prefix_Some in Hp, Hq. subst s. intros _ _.
  revert q Hq. induction p as [|c p IH]; intros [|d q]; simpl; try done. intros [= -> Hq] [= Hl]. f_equal. by apply IH.
Qed.

Section Lookup.
  Context {A : Type}.
  Implicit Types (routes : list (string * string * A)).

Definition matches (method path : string) (r : string * string * A) : bool :=
  let '(m, prefix, _) := r in String.eqb m (to_ascii_uppercase method) && starts_with prefix (route_path path).

Lemma longest_prefix_Some routes method path h suffix :
  longest_prefix routes method path = Some (h, suffix) ->
  exists prefix, (to_ascii_uppercase method, prefix, h) ∈ routes /\ path = prefix +:+ suffix
    /\ starts_with prefix (route_path path) = true
    /\ forall prefix' h', (to_ascii_uppercase method, prefix', h') ∈ routes ->
         starts_with prefix' (route_path path) = true -> (String.length prefix' <= String.length prefix)%nat.
Proof.
  unfold longest_prefix. fold (matches method path).
  destruct (max_by_key _ None _) as [[[m prefix] h0]|] eqn:E; [|done]. cbn [mbind option_bind]. intros [= <- <-].
  apply max_by_key_Some in E as [[Hin|?] Hmax]; [|done]. apply elem_of_List_filter in Hin as [Hin Hm].
  unfold matches in Hm. apply andb_true_iff in Hm as [Hm Hp]. apply String.eqb_eq in Hm as ->.
  exists prefix. split_and!; [done| |done|].
  - assert (exists rest, path = prefix +:+ rest) as [rest ->].
    { unfold starts_with in Hp. destruct (strip_prefix prefix (route_path path)) as [r|] eqn:Hs; [|done].
      apply strip_prefix_Some in Hs. unfold route_path in Hs. destruct (split_once "?" path) as [[a q]|] eqn:Hq; [|eauto].
      apply split_once_Some in Hq. subst path a. exists (r +:+ "?" +:+ q). by rewrite append_assoc. }
    f_equal. clear. induction prefix as [|c p IH]; [done|]. exact IH.
  - intros prefix' h' Hin' Hp'. apply (Hmax (to_ascii_uppercase method, prefix', h')). left.
    apply elem_of_List_filter. split; [done|]. unfold matches. by rewrite String.eqb_refl.
Qed.

Lemma longest_prefix_None routes method path :
  longest_prefix routes method path = None <-> forall r, r ∈ routes -> matches method path r = false.
Proof.
  unfold longest_prefix. fold (matches method path). destruct (max_by_key _ None _) as [[[m prefix] h]|] eqn:E.
  - split; [done|]. intros Hn. apply max_by_key_Some in E as [[Hin|?] _]; [|done].
    apply elem_of_List_filter in Hin as [Hin Hm]. by rewrite Hn in Hm.
  - split; [|done]. intros _ r Hr. apply max_by_key_None in E as [_ E]. destruct (matches method path r) eqn:Hm; [|done].
    assert (r ∈ List.filter (matches method path) routes) as Hin by (by apply elem_of_List_filter).
    rewrite E in Hin. by apply not_elem_of_nil in Hin.
Qed.

(** A prefix lookup does not depend on the order of registration. Two tables with the
    same routes, each method and prefix registered once, send every request to the same
    handler with the same suffix: the one of the longest prefix of the path, the suffix
    being the rest of the path with its query. *)
Theorem prefix_lookup_spec routes routes' method path :
  routes ≡ₚ routes' -> NoDup (fst <$> routes) ->
  longest_prefix routes method path = longest_prefix routes' method path
  /\ (forall h suffix, longest_prefix routes method path = Some (h, suffix) ->
        exists prefix, (to_ascii_uppercase method, prefix, h) ∈ routes /\ path = prefix +:+ suffix
          /\ forall prefix' h', (to_ascii_uppercase method, prefix', h') ∈ routes ->
               starts_with prefix' (route_path path) = true -> (String.length prefix' <= String.length prefix)%nat).
Proof.
  intros Hperm Hnd. split.
  - destruct (longest_prefix routes method path) as [[h suffix]|] eqn:E.
    + destruct (longest_prefix routes' method path) as [[h' suffix']|] eqn:E'.
      * destruct (longest_prefix_Some _ _ _ _ _ E) as (p & Hin & Hs & Hp & Hmax).
        destruct (longest_prefix_Some _ _ _ _ _ E') as (p' & Hin' & Hs' & Hp' & Hmax').
        rewrite <- Hperm in Hin'. assert (p = p') as <-.
        { apply (starts_with_same p p' (route_path path)); [done..|]. apply Nat.le_antisymm.
          - apply (Hmax' p h); [|done]. by rewrite <- Hperm.
          - by apply (Hmax p' h'). }
        assert (h = h') as <-.
        { apply list_elem_of_lookup in Hin as [i Hi], Hin' as [j Hj].
          assert (i = j) as <-; [|congruence]. eapply NoDup_lookup; [exact Hnd| |].
          - rewrite list_lookup_fmap, Hi. done.
          - rewrite list_lookup_fmap, Hj. done. }
        rewrite Hs in Hs'. apply append_inj_r in Hs' as <-. done.
      * apply longest_prefix_Some in E as (p & Hin & _ & Hp & _). rewrite Hperm in Hin.
        rewrite longest_prefix_None in E'. specialize (E' _ Hin). unfold matches in E'.
        by rewrite String.eqb_refl, Hp in E'.
    + symmetry. apply longest_prefix_None. intros r Hr. rewrite <- Hperm in Hr. by apply (proj1 (longest_prefix_None _ _ _) E).
  - intros h suffix (p & ? & ? & _ & ?)%longest_prefix_Some. eauto.
Qed.

End Lookup.

(** ** Dispatch *)

Section Dispatch.
  Context {H P S : Type} (hmac_sha256 : bytes -> bytes -> bytes).
  Implicit Types (c : RpcServerConfig H P S).

Lemma check_credential_keeps c now req body c' r :
  check_credential hmac_sha256 c now req body = (c', r) ->
  sc_router c' = sc_router c /\ sc_node_id c' = sc_node_id c /\ sc_max_body_bytes c' = sc_max_body_bytes c.
Proof.
  unfold check_credential. destruct (sc_verifier c); [|by intros [= <- <-]].
  destruct (verify_at _ _ _ _ _) as [x v']. by intros [= <- <-].
Qed.

(** C36: nothing reaches a handler unchecked. A request a handler is called for announced
    a version of this build's major, fits the body cap, carries - when the port has a
    verifier - a credential that verifier accepts for exactly this method, target and body,
    and names no other member as its recipient; and the handler is the one the table gives
    its method and target. *)
Theorem dispatch_guarded c now req c' d :
  dispatch hmac_sha256 c now req = (c', Ok d) ->
  (exists v, in_proto req ≫= ProtocolVersion_parse = Some v /\ pv_major v = pv_major PROTO_VERSION)
  /\ exists body, in_body req = Some body /\ (N.of_nat (length body) <= sc_max_body_bytes c)%N
     /\ (forall v, sc_verifier c = Some v ->
           (verify_at hmac_sha256 v now (in_credential req)
              {| req_method := in_method req; req_path := in_path req; req_body := body |}).1 = Ok tt)
     /\ (forall me, sc_node_id c = Some me -> recipient (in_path req) = Ok None \/ recipient (in_path req) = Ok (Some me))
     /\ find_handler (sc_router c) (in_method req) (in_path req) body = Ok d.
Proof.
  unfold dispatch, negotiate. destruct (in_proto req ≫= ProtocolVersion_parse) as [v|]; [|done].
  destruct (is_compatible_with PROTO_VERSION v) eqn:Hv; [|done]. apply N.eqb_eq in Hv.
  destruct (in_body req) as [body|]; [|done]. destruct (N.ltb_spec (sc_max_body_bytes c) (N.of_nat (length body))); [done|].
  destruct (check_credential hmac_sha256 c now req body) as [c1 [[]|]] eqn:Hc; [|done].
  destruct (check_credential_keeps _ _ _ _ _ _ Hc) as (Hr & Hid & _). rewrite Hr, Hid.
  intros [= <- Hd]. split; [eauto|]. exists body. split; [done|]. split; [done|]. split.
  - intros w Hw. revert Hc. unfold check_credential. rewrite Hw.
    destruct (verify_at _ _ _ _ _) as [[[]|] ?]; [done|by intros [=]].
  - destruct (recipient (in_path req)) as [[to|]|]; [|by eauto|done].
    destruct (sc_node_id c) as [me|]; [|by eauto].
    destruct (N.eqb_spec to me) as [Heq|]; [|done]. split; [|done]. intros me' [= <-]. right. by rewrite Heq.
Qed.

Lemma find_handler_addressed (r : Router H P S) method path to body h :
  router_lookup r method path = Some h ->
  find_handler r method (addressed path to) body = Ok (ToHandler h body).
Proof. unfold find_handler, router_lookup. rewrite route_path_addressed. by intros ->. Qed.

(** A request reaches the member it is addressed to and no other. A peer that holds
    the cluster key sends a route's request addressed to [to]. At any node with that key,
    within the clock skew and with room for the nonce, it is answered by the route's
    handler if the node is [to], and refused as another node's otherwise; in both cases
    the nonce is spent. *)
Theorem addressed_request c v me now ts nonce method path to body h :
  sc_verifier c = Some v -> sc_node_id c = Some me -> router_lookup (sc_router c) method path = Some h ->
  (N.of_nat (length body) <= sc_max_body_bytes c)%N -> (to <= u64_max)%N -> recipient path = Ok None ->
  (ts <= u64_max)%N -> (abs_diff now ts <= v_skew_secs v)%N ->
  string_forallb is_ascii_hexdigit nonce = true -> nonce <> EmptyString ->
  seen (v_nonces v) !! nonce = None -> (cache_len (seen (v_nonces v)) < capacity (v_nonces v))%N ->
  exists v', dispatch hmac_sha256 c now
      (outgoing hmac_sha256 (Some (v_key v)) ts nonce method (addressed path to) body) =
    (with_verifier c v', if (to =? me)%N then Ok (ToHandler h body) else Err (WrongNode to me))
  /\ seen (v_nonces v') !! nonce = Some ts.
Proof.
  intros Hv Hme Hh Hlen Hto Hr Hts Hskew Hhex Hne Hnew Hroom. unfold dispatch, outgoing. cbn [in_proto in_body].
  change (negotiate (Some (ProtocolVersion_display PROTO_VERSION))) with (@Ok RpcError _ PROTO_VERSION).
  destruct (N.ltb_spec (sc_max_body_bytes c) (N.of_nat (length body))); [lia|].
  unfold check_credential. rewrite Hv. cbn [in_method in_path in_credential fmap option_fmap option_map].
  rewrite verify_at_signed by done. eexists. split.
  - f_equal. rewrite recipient_addressed by done. cbn [with_verifier sc_node_id sc_router]. rewrite Hme.
    rewrite (find_handler_addressed _ _ _ _ _ _ Hh). by destruct (to =? me)%N.
  - simpl. by rewrite lookup_insert_eq.
Qed.

End Dispatch.

(** ** Errors *)

Section RemoteErrors.
  Context `{EN : Envelope}.

Definition as_received (e : RpcError) (method path : string) : RpcError :=
  let '(status, body) := error_response e in status_to_error status body method path.

(** The error a client makes of each one. *)
Lemma as_received_eq e method path :
  (forall x y, e = WrongNode x y -> (x <= u64_max)%N /\ (y <= u64_max)%N) ->
  as_received e method path =
    match e with
    | VersionSkew _ _ => VersionSkew None PROTO_VERSION
    | UnknownRoute _ _ => UnknownRoute method path
    | BodyTooLarge _ => BodyTooLarge 0
    | Transport d => Handler ("transport failure: " +:+ d)
    | BadRequest d => BadRequest ("bad request: " +:+ d)
    | Unavailable d op_id => Unavailable ("unavailable: " +:+ d) op_id
    | Handler d => Handler ("handler error: " +:+ d)
    | NotFound d => NotFound ("not found: " +:+ d)
    | e => e
    end.
Proof.
  intros Hw. unfold as_received, error_response, status_to_error.
  assert (forall x : N, (x <= u64_max)%N -> parse_u64 (pretty x) = Some x) as Hp
    by (intros; unfold parse_u64; by apply from_str_radix_pretty).
  destruct e as [a| | | | | | | |d op_id|leader| | |x y]; cbn [rpc_status]; cbv zeta beta;
    [destruct a| | | | | | | |destruct op_id|destruct leader| | |destruct (Hw x y eq_refl)];
    match goal with |- context [envelope_field (envelope ?m)] =>
      let f := fresh in let Hf := fresh in
      set (f := envelope_field (envelope m)); assert (forall k, f k = m !! k) as Hf by apply field_envelope;
      clearbody f; cbv beta iota delta [N.eqb Pos.eqb]; rewrite ?Hf; clear Hf
    end;
    repeat (first [rewrite lookup_insert_eq|rewrite lookup_insert_ne by done|rewrite lookup_empty]);
    cbn [mbind option_bind default]; rewrite ?Hp by done; reflexivity.
Qed.

(** What a client learns of a peer's refusal. The refusal keeps its class, with one
    exception: a transport failure on the peer's side arrives as a handler error. The parts
    a caller acts on survive exactly: which credential check failed, the leader to go to,
    the op to poll, the ids of the two nodes. A peer's refusal is retried only if it is the
    peer's own timeout. *)
Theorem remote_error_class e method path :
  (forall x y, e = WrongNode x y -> (x <= u64_max)%N /\ (y <= u64_max)%N) ->
  let e' := as_received e method path in
  ((forall d, e <> Transport d) -> rpc_reason e' = rpc_reason e)
  /\ (forall d, e = Transport d -> e' = Handler ("transport failure: " +:+ d))
  /\ (forall a, e = Unauthorized a -> e' = e)
  /\ (forall leader, e = NotLeader leader -> e' = e)
  /\ (forall x y, e = WrongNode x y -> e' = e)
  /\ (forall d op_id, e = Unavailable d op_id -> e' = Unavailable ("unavailable: " +:+ d) op_id)
  /\ (is_retryable e' = true -> e = RpcTimeout).
Proof.
  intros Hw. cbv zeta. rewrite as_received_eq by done. by destruct e; split_and!; naive_solver.
Qed.

End RemoteErrors.

(** ** A concrete port *)

(** An envelope as the bits of a number. *)
Definition bits_field (b : bytes) (k : string) : option string :=
  (decode (A := gmap string string) (bits_pos b) : option (gmap string string)) ≫= (.!! k).

Lemma bits_field_bits (m : gmap string string) k : bits_field (pos_bits (encode m)) k = m !! k.
Proof. unfold bits_field. by rewrite bits_pos_bits, decode_encode. Qed.

#[local] Instance bits_envelope : Envelope := {
  envelope m := pos_bits (encode m);
  envelope_field := bits_field;
  field_envelope := bits_field_bits;
}.

Definition demo_hmac (key message : bytes) : bytes := key ++ take 4 message.

Definition port_verifier : Verifier := with_limits (as_bytes "secret") 30 100.

Definition port (me : N) : RpcServerConfig string string string :=
  {| sc_verifier := Some port_verifier;
     sc_router := route_prefix "get" "/_cluster/" "any" (route_prefix "GET" "/_cluster/ops/" "ops"
                    (add_route "post" "/raft/vote" "vote" Router_new));
     sc_max_body_bytes := 1024; sc_node_id := Some me |}.

Definition vote_for (to : N) : Incoming :=
  outgoing demo_hmac (Some (as_bytes "secret")) 100 "ab12" "POST" (addressed "/raft/vote" to) (as_bytes "{}").

Lemma dispatch_guarded_witness :
  (dispatch demo_hmac (port 7) 110 (vote_for 7)).2 = Ok (ToHandler "vote"%string (as_bytes "{}"))
  /\ recipient (in_path (vote_for 7)) <> Ok (Some 8%N).
Proof.
  split; [vm_compute; reflexivity|].
  destruct (dispatch_guarded demo_hmac (port 7) 110 (vote_for 7) (dispatch demo_hmac (port 7) 110 (vote_for 7)).1
    (ToHandler "vote"%string (as_bytes "{}"))) as (_ & body & _ & _ & _ & Hr & _); [vm_compute; reflexivity|].
  destruct (Hr 7%N eq_refl) as [E|E]; rewrite E; discriminate.
Defined.

Lemma addressed_request_witness :
  (dispatch demo_hmac (port 8) 110 (vote_for 7)).2 = Err (WrongNode 7 8)
  /\ (dispatch demo_hmac (port 7) 110 (vote_for 7)).2 = Ok (ToHandler "vote"%string (as_bytes "{}")).
Proof.
  assert (forall me, exists v', dispatch demo_hmac (port me) 110 (vote_for 7) =
    (with_verifier (port me) v', if (7 =? me)%N then Ok (ToHandler "vote"%string (as_bytes "{}")) else Err (WrongNode 7 me))
    /\ seen (v_nonces v') !! "ab12"%string = Some 100%N) as H.
  { intros me. apply (addressed_request demo_hmac (port me) port_verifier me 110 100 "ab12" "POST" "/raft/vote" 7);
      first [reflexivity|vm_compute; discriminate|vm_compute; reflexivity]. }
  split.
  - destruct (H 8%N) as (v' & E & _). by rewrite E.
  - destruct (H 7%N) as (v' & E & _). by rewrite E.
Defined.

Lemma remote_error_class_witness :
  as_received (WrongNode 7 8) "POST" "/raft/vote" = WrongNode 7 8.
Proof.
  destruct (remote_error_class (WrongNode 7 8) "POST" "/raft/vote") as (_ & _ & _ & _ & E & _).
  - intros x y [= <- <-]. split; vm_compute; discriminate.
  - by apply (E 7%N 8%N).
Defined.

Lemma prefix_lookup_spec_witness :
  longest_prefix (rt_prefix_routes (sc_router (port 7))) "GET" "/_cluster/ops/x?full=1" = Some ("ops", "x?full=1")%string.
Proof.
  destruct (prefix_lookup_spec (rt_prefix_routes (sc_router (port 7)))
    [("GET", "/_cluster/", "any"); ("GET", "/_cluster/ops/", "ops")]%string "GET" "/_cluster/ops/x?full=1") as [E _].
  - apply (bool_decide_unpack _). vm_compute. exact I.
  - apply (bool_decide_unpack _). vm_compute. exact I.
  - rewrite E. vm_compute. reflexivity.
Defined.

(** ** Where the comments and the code part *)

(** A peer that answers three calls, each with a shed, is marked as unreachable. *)
Lemma answered_shed_charged :
  let shed := as_received Shed "POST" "/x" in
  let h := foldl (fun h t => (call h t t "peer" 3 (fun _ => Err shed)).1) TrackedPeerHealth_new [1; 2; 3]%N in
  (admit_peer h 10 "peer").2 = AdmRefused.
Proof. by vm_compute. Qed.

(** Of two handlers registered for one method and prefix only the last is ever called. *)
Lemma colliding_prefix_shadowed :
  let r := router_merge (route_prefix "GET" "/a/" "first"%string Router_new)
             (route_prefix "GET" "/a/" "second"%string (Router_new (H := string) (S := string))) in
  length (rt_prefix_routes r) = 2%nat /\ lookup_prefix r "GET" "/a/x" = Some ("second", "x")%string.
Proof. by vm_compute. Qed.
