(* ===== verification/Members.v ===== *)
(** * Membership: admission, promotion, departure and retirement

    The leader's side of [raft/network.rs]: admitting a node as a learner and promoting it,
    the promotion sweep, eviction under the voter floor, and retiring a member that no
    longer answers; and from [raft/node.rs] the walk over a peer's addresses and the chase
    of a moving leader. openraft is a parameter: what it answers to a change, and the
    committed membership it shows. *)

From S2P Require Import Prelude Upstream Auth Ring Rpc Health Wire.

Definition MIN_VOTERS : nat := 2.
Definition REPLICATION_LAG_THRESHOLD : N := 16.
Definition ADMIT_MAX_ATTEMPTS : nat := 12.
Definition RETIRE_PROBE_ROUNDS : nat := 3.

(** The committed membership as the core shows it, and the leader's replication. *)
Record RaftView := {
  rv_voters : gset NodeId;
  rv_nodes : gmap NodeId string;
  rv_last_log : option N;
  rv_matching : NodeId -> option N;
}.

(** ** Changes *)

Inductive Change :=
  | AddLearner (id : NodeId) (addr : string)
  | AddVoter (id : NodeId)
  | RemoveVoter (id : NodeId)
  | RemoveNode (id : NodeId).

(** What openraft answers to a submitted change: the entry's index, a redirect, a change
    already in progress with its entry if it names one, or another failure. *)
Inductive Submitted :=
  | SubmittedAt (index : N)
  | ForwardToLeader (leader : option string)
  | InProgress (index : option N) (e : string)
  | SubmitFailed (e : string).

Definition wait_applied (applied : N -> result string ()) (index : N) (what : string) : result RpcError () :=
  match applied index with
  | Ok _ => Ok tt
  | Err e => Err (Handler (what +:+ ": awaiting membership entry " +:+ pretty index +:+ ": " +:+ e))
  end.

(** The attempts left, the answer to each, and whether an entry's wait ends in time. *)
Fixpoint change_attempts (submit : nat -> Submitted) (applied : N -> result string ()) (what : string)
    (i budget : nat) (waited_on : option N) : result RpcError () :=
  match budget with
  | O => Err (Handler (what +:+ ": contended by concurrent membership changes through all "
                 +:+ pretty ADMIT_MAX_ATTEMPTS +:+ " attempts (last waited on entry "
                 +:+ match waited_on with Some n => "Some(" +:+ pretty n +:+ ")" | None => "None" end +:+ ")"))
  | S budget =>
      match submit i with
      | SubmittedAt index => wait_applied applied index what
      | ForwardToLeader leader => Err (NotLeader leader)
      | SubmitFailed e => Err (Handler (what +:+ ": " +:+ e))
      | InProgress None e =>
          Err (Handler (what +:+ ": membership change in progress but no entry to wait for: " +:+ e))
      | InProgress (Some index) _ =>
          match wait_applied applied index what with
          | Err e => Err e
          | Ok _ => change_attempts submit applied what (S i) budget (Some index)
          end
      end
  end.

Definition membership_change (submit : nat -> Submitted) (applied : N -> result string ()) (what : string)
    : result RpcError () :=
  change_attempts submit applied what 0 ADMIT_MAX_ATTEMPTS None.

(** ** Admission and promotion *)

Definition should_promote (voters : gset NodeId) (id : NodeId) (max_voters : nat) : bool :=
  (size voters <? max_voters)%nat && negb (bool_decide (id ∈ voters)).

Definition still_promotable (members voters : gset NodeId) (id : NodeId) (max_voters : nat) : bool :=
  bool_decide (id ∈ members) && should_promote voters id max_voters.

Definition held_by_floor (voters : gset NodeId) (id : NodeId) : bool :=
  bool_decide (id ∈ voters) && (size voters <=? MIN_VOTERS)%nat.

Definition is_catching_up (v : RaftView) (id : NodeId) : bool :=
  match rv_last_log v with
  | None => true
  | Some last =>
      match rv_matching v id with
      | Some index => (REPLICATION_LAG_THRESHOLD <? last - index)%N
      | None => true
      end
  end.

Inductive AdmittedRole := Learner | Voter.
Record JoinAdmission := { ad_role : AdmittedRole; ad_catching_up : bool }.

Definition AuthorityError_display (e : AuthorityError) : string :=
  match e with
  | MissingPort s => debug_str s +:+ " has no port; expected host:port"
  | EmptyHost s => debug_str s +:+ " has an empty host; expected host:port"
  | InvalidHost s => debug_str s +:+ " has an invalid host; expected host:port"
  | InvalidPort s => debug_str s +:+ " has an invalid port; expected host:port"
  | UnbracketedIpv6 s => debug_str s +:+ " looks like an unbracketed IPv6 address; write it as [addr]:port"
  end.

(** [change] is what a membership change ends in; [first] is the read before the wait for
    the joiner to become current, [gated] the one under the gate. A read fails on a core
    that has stopped. *)
Definition admit_member (is_socket_addr : string -> bool) (change : Change -> result RpcError ())
    (first gated : result RpcError RaftView) (id : NodeId) (advertise : string) (max_voters : nat)
    : result RpcError JoinAdmission :=
  match Authority_from_str is_socket_addr advertise with
  | Err e => Err (Handler ("admit " +:+ pretty id +:+ ": " +:+ AuthorityError_display e))
  | Ok advertise =>
      match change (AddLearner id advertise), first, gated with
      | Err e, _, _ | Ok _, Err e, _ | Ok _, Ok _, Err e => Err e
      | Ok _, Ok _, Ok v =>
          let catching_up := is_catching_up v id in
          if should_promote (rv_voters v) id max_voters && negb catching_up then
            match change (AddVoter id) with
            | Err e => Err e
            | Ok _ => Ok {| ad_role := Voter; ad_catching_up := false |}
            end
          else if bool_decide (id ∈ rv_voters v) then Ok {| ad_role := Voter; ad_catching_up := catching_up |}
          else Ok {| ad_role := Learner; ad_catching_up := catching_up |}
      end
  end.

(** The sweep over the members it read first: [scan] and [gated] are what it reads for a
    candidate before and under the gate. The ids it promoted, and the error that ended it. *)
Fixpoint promote_ready_learners (change : Change -> result RpcError ()) (scan gated : NodeId -> result RpcError RaftView)
    (max_voters : nat) (members : list NodeId) : list NodeId * result RpcError () :=
  match members with
  | [] => ([], Ok tt)
  | id :: rest =>
      let next := promote_ready_learners change scan gated max_voters rest in
      match scan id with
      | Err e => ([], Err e)
      | Ok v =>
          if bool_decide (id ∈ rv_voters v) || negb (should_promote (rv_voters v) id max_voters) then next
          else if is_catching_up v id then next
          else
            match gated id with
            | Err e => ([], Err e)
            | Ok g =>
                if negb (still_promotable (dom (rv_nodes g)) (rv_voters g) id max_voters) then next
                else
                  match change (AddVoter id) with
                  | Err e => ([], Err e)
                  | Ok _ => (id :: next.1, next.2)
                  end
            end
      end
  end.

(** ** Departure *)

Inductive EvictOutcome := Removed | HeldByFloor.

(** The change an eviction submits, if any. *)
Definition evict_change (v : RaftView) (id : NodeId) : option Change :=
  if bool_decide (id ∈ rv_voters v) then Some (RemoveVoter id)
  else if bool_decide (id ∈ dom (rv_nodes v)) then Some (RemoveNode id)
  else None.

Definition evict (change : Change -> result RpcError ()) (gated : result RpcError RaftView) (id : NodeId)
    : result RpcError EvictOutcome :=
  match gated with
  | Err e => Err e
  | Ok v =>
      if held_by_floor (rv_voters v) id then Ok HeldByFloor
      else
        match evict_change v id with
        | None => Ok Removed
        | Some c => match change c with Err e => Err e | Ok _ => Ok Removed end
        end
  end.

(** ** Retirement *)

(** A membership view, as a peer answers it: who it is. *)
Inductive ProbeAnswer :=
  | Silent
  | Itself
  | Another (id : NodeId)
  | Unidentified (detail : string).

Definition classify_probe (view_of : bytes -> result string NodeId) (r : result RpcError bytes) (target : NodeId)
    : ProbeAnswer :=
  match r with
  | Err RpcTimeout | Err (Transport _) => Silent
  | Err e => Unidentified (rpc_display e)
  | Ok body =>
      match view_of body with
      | Ok id => if (id =? target)%N then Itself else Another id
      | Err e => Unidentified ("undecodable membership view: " +:+ e)
      end
  end.

Inductive RetireRefusal :=
  | IsLeader
  | Reachable (addr : string)
  | UnidentifiedAt (addr detail : string)
  | RetireHeldByFloor.

Inductive ProbeSeen :=
  | NoAnswer
  | NoAddress (detail : string)
  | AnotherNode (id : NodeId).

(** The addresses probed so far, and those found reused. *)
Record Probed := { pb_probed : gset string; pb_reused : gmap string NodeId; pb_error : option string }.

(** What a round meets at an address: the probe's outcome, and whether a plain connection
    is accepted. *)
Record Dialled := { dl_probe : result RpcError bytes; dl_accepts : bool }.

Fixpoint probe_addrs (view_of : bytes -> result string NodeId) (target : NodeId) (dial : string -> Dialled)
    (addrs : list string) (p : Probed) : result RetireRefusal Probed :=
  match addrs with
  | [] => Ok p
  | addr :: rest =>
      let p := {| pb_probed := {[addr]} ∪ pb_probed p; pb_reused := pb_reused p; pb_error := pb_error p |} in
      if bool_decide (is_Some (pb_reused p !! addr)) then probe_addrs view_of target dial rest p
      else
        match classify_probe view_of (dl_probe (dial addr)) target with
        | Silent =>
            if dl_accepts (dial addr)
            then Err (UnidentifiedAt addr "accepts connections but did not answer the probe")
            else probe_addrs view_of target dial rest p
        | Another id =>
            probe_addrs view_of target dial rest
              {| pb_probed := pb_probed p; pb_reused := <[addr := id]> (pb_reused p); pb_error := pb_error p |}
        | Itself => Err (Reachable addr)
        | Unidentified detail => Err (UnidentifiedAt addr detail)
        end
  end.

(** The rounds left, each with what the name resolved to and what was met. *)
Fixpoint probe_rounds (view_of : bytes -> result string NodeId) (target : NodeId)
    (rounds : list (result string (list string) * (string -> Dialled))) (p : Probed) : result RetireRefusal Probed :=
  match rounds with
  | [] => Ok p
  | (Err e, _) :: rest =>
      probe_rounds view_of target rest {| pb_probed := pb_probed p; pb_reused := pb_reused p; pb_error := Some e |}
  | (Ok addrs, dial) :: rest =>
      match probe_addrs view_of target dial addrs p with
      | Err refusal => Err refusal
      | Ok p => probe_rounds view_of target rest p
      end
  end.

Definition probe_member (view_of : bytes -> result string NodeId) (target : NodeId) (authority : string)
    (rounds : list (result string (list string) * (string -> Dialled)))
    : result RetireRefusal (list (string * ProbeSeen)) :=
  match probe_rounds view_of target (take RETIRE_PROBE_ROUNDS rounds) {| pb_probed := ∅; pb_reused := ∅; pb_error := None |} with
  | Err refusal => Err refusal
  | Ok p =>
      if bool_decide (pb_probed p = ∅)
      then Ok [(authority, NoAddress (default "resolved to no address"%string (pb_error p)))]
      else Ok ((fun addr => (addr, match pb_reused p !! addr with Some id => AnotherNode id | None => NoAnswer end))
                 <$> elements (pb_probed p))
  end.

Inductive RetireReply :=
  | Retired (m_idx : N) (voters : gset NodeId) (evidence : list (string * ProbeSeen))
  | NotAMember
  | RetireRefused (refusal : RetireRefusal).

(** What [ensure_linearizable] answers within the deadline, if it does. *)
Inductive LeaderCheck :=
  | Linearizable
  | CheckForward (leader : option string)
  | CheckFailed (e : string)
  | CheckElapsed.

Definition confirm_leadership (c : LeaderCheck) : result RpcError () :=
  match c with
  | Linearizable => Ok tt
  | CheckForward leader => Err (NotLeader leader)
  | CheckFailed e => Err (Unavailable ("this node cannot confirm it leads: " +:+ e) None)
  | CheckElapsed => Err (Unavailable "leadership not confirmed by a quorum within 3s" None)
  end.

(** [check] is the leadership check; [found] is the view judged, [gated] the one the
    eviction reads under its gate, [after] what is committed afterwards. *)
Definition retire (check : LeaderCheck) (view_of : bytes -> result string NodeId)
    (rounds : list (result string (list string) * (string -> Dialled))) (change : Change -> result RpcError ())
    (leader : NodeId) (found gated : result RpcError RaftView) (after : result RpcError (N * gset NodeId))
    (target : NodeId) : result RpcError RetireReply :=
  match confirm_leadership check, found with
  | Err e, _ | Ok _, Err e => Err e
  | Ok _, Ok v =>
      match rv_nodes v !! target with
      | None => Ok NotAMember
      | Some authority =>
          if (target =? leader)%N then Ok (RetireRefused IsLeader)
          else
            match probe_member view_of target authority rounds with
            | Err refusal => Ok (RetireRefused refusal)
            | Ok evidence =>
                match evict change gated target with
                | Err e => Err e
                | Ok HeldByFloor => Ok (RetireRefused RetireHeldByFloor)
                | Ok Removed =>
                    match after with
                    | Err e => Err e
                    | Ok (m_idx, voters) => Ok (Retired m_idx voters evidence)
                    end
                end
            end
      end
  end.

(** ** Reaching a peer and a leader *)

Inductive SweepFailure :=
  | NoAddresses
  | Attempted (peer : string) (error : RpcError).

Definition is_wrong_node (e : RpcError) : bool := match e with WrongNode _ _ => true | _ => false end.

Fixpoint sweep_addresses {T} (call : string -> result RpcError T) (addrs : list string) (last : SweepFailure)
    : result SweepFailure T :=
  match addrs with
  | [] => Err last
  | peer :: rest =>
      match call peer with
      | Ok reply => Ok reply
      | Err error =>
          if is_liveness_failure error || is_wrong_node error then sweep_addresses call rest (Attempted peer error)
          else Err (Attempted peer error)
      end
  end.

Definition describe (f : SweepFailure) (authority : string) : string :=
  match f with
  | NoAddresses => authority +:+ " unreachable (no addresses to try)"
  | Attempted peer error =>
      if is_liveness_failure error then authority +:+ " unreachable (" +:+ peer +:+ ": " +:+ rpc_display error +:+ ")"
      else authority +:+ " answered but refused (" +:+ peer +:+ ": " +:+ rpc_display error +:+ ")"
  end.

Definition into_typed (f : SweepFailure) (authority : string) : RpcError :=
  match f with
  | NoAddresses => Transport (authority +:+ ": no addresses to try")
  | Attempted _ error => error
  end.

Inductive ChaseFailure :=
  | Stopped (target : string) (error : RpcError)
  | GaveUp (last : string).

Definition next_join_hop (e : RpcError) : option string :=
  match e with NotLeader leader => leader | _ => None end.

(** [send i target] is the answer to the [i]-th send. *)
Fixpoint chase_leader {T} (send : nat -> string -> result RpcError T) (i budget : nat) (target : string)
    : result ChaseFailure T :=
  match budget with
  | O => Err (GaveUp target)
  | S budget =>
      match send i target with
      | Ok value => Ok value
      | Err error =>
          match next_join_hop error with
          | None => Err (Stopped target error)
          | Some next => chase_leader send (S i) budget next
          end
      end
  end.
