(* ===== verification/MembersFacts.v ===== *)
(** * Membership: the voter bounds, retirement, and the walks to a peer

    One leader's changes as a step relation over the committed voters, the change in flight
    and the admission gate: the ceiling and the floor hold while every gated change is waited
    for, and are missed by one when a handler is dropped first. Then when a member may be
    retired, what a membership change submits, and what the address sweep and the chase of a
    leader answer. *)

From S2P Require Import Prelude Auth Ring Rpc Health Wire Members.

(** ** The voters under concurrent changes *)

(** What openraft's changes do to the voters. *)
Class MembershipRules := {
  effect : Change -> gset NodeId -> gset NodeId;
  effect_learner id addr vs : effect (AddLearner id addr) vs = vs;
  effect_voter id vs : effect (AddVoter id) vs = {[id]} ∪ vs;
  effect_remove id vs : effect (RemoveVoter id) vs = vs ∖ {[id]};
  effect_node id vs : effect (RemoveNode id) vs = vs;
}.

(** The changes a handler asks for under the gate: admission, the sweep, a departure. *)
Inductive asks (max_voters : nat) (v : RaftView) : Change -> Prop :=
  | asks_admit id : should_promote (rv_voters v) id max_voters && negb (is_catching_up v id) = true ->
      asks max_voters v (AddVoter id)
  | asks_sweep id : still_promotable (dom (rv_nodes v)) (rv_voters v) id max_voters = true ->
      asks max_voters v (AddVoter id)
  | asks_evict id c : held_by_floor (rv_voters v) id = false -> evict_change v id = Some c ->
      asks max_voters v c.

(** Who holds the gate: a handler that has read and decided, or one whose change is in
    flight. *)
Inductive Holder := Decided (c : Change) | InFlight.

Record Fleet := { fl_voters : gset NodeId; fl_pending : option Change; fl_gate : option Holder }.

(** openraft takes a change only while none is pending. [dropped] is a handler abandoned
    while its change is in flight, which frees the gate. *)
Inductive fleet_step `{MembershipRules} (max_voters : nat) : bool -> Fleet -> Fleet -> Prop :=
  | step_learner d vs g id addr :
      fleet_step max_voters d {| fl_voters := vs; fl_pending := None; fl_gate := g |}
        {| fl_voters := vs; fl_pending := Some (AddLearner id addr); fl_gate := g |}
  | step_decide d vs p v c : rv_voters v = vs -> asks max_voters v c ->
      fleet_step max_voters d {| fl_voters := vs; fl_pending := p; fl_gate := None |}
        {| fl_voters := vs; fl_pending := p; fl_gate := Some (Decided c) |}
  | step_submit d vs c :
      fleet_step max_voters d {| fl_voters := vs; fl_pending := None; fl_gate := Some (Decided c) |}
        {| fl_voters := vs; fl_pending := Some c; fl_gate := Some InFlight |}
  | step_commit d vs c g :
      fleet_step max_voters d {| fl_voters := vs; fl_pending := Some c; fl_gate := g |}
        {| fl_voters := effect c vs; fl_pending := None; fl_gate := g |}
  | step_give_up d vs p c :
      fleet_step max_voters d {| fl_voters := vs; fl_pending := p; fl_gate := Some (Decided c) |}
        {| fl_voters := vs; fl_pending := p; fl_gate := None |}
  | step_done d vs :
      fleet_step max_voters d {| fl_voters := vs; fl_pending := None; fl_gate := Some InFlight |}
        {| fl_voters := vs; fl_pending := None; fl_gate := None |}
  | step_dropped vs p :
      fleet_step max_voters true {| fl_voters := vs; fl_pending := p; fl_gate := Some InFlight |}
        {| fl_voters := vs; fl_pending := p; fl_gate := None |}.

Definition resting (vs : gset NodeId) : Fleet := {| fl_voters := vs; fl_pending := None; fl_gate := None |}.

(** The voters once what is pending, and what is decided after it, have committed. *)
Definition after_pending `{MembershipRules} (f : Fleet) : gset NodeId :=
  match fl_pending f with Some c => effect c (fl_voters f) | None => fl_voters f end.
Definition after_gate `{MembershipRules} (f : Fleet) : gset NodeId :=
  match fl_gate f with Some (Decided c) => effect c (after_pending f) | _ => after_pending f end.

Definition keeps_voters (c : option Change) : bool :=
  match c with None | Some (AddLearner _ _) => true | _ => false end.

Section bounds.
Context `{MembershipRules}.
Implicit Types (f : Fleet) (vs : gset NodeId).

Lemma keeps_after f : keeps_voters (fl_pending f) = true -> after_pending f = fl_voters f.
Proof. unfold after_pending. destruct (fl_pending f) as [[]|]; try done. by rewrite effect_learner. Qed.

Lemma size_difference_one (vs : gset NodeId) id :
  size vs - 1 <= size (vs ∖ {[id]}) <= size vs /\ (id ∉ vs -> vs ∖ {[id]} = vs).
Proof.
  destruct (decide (id ∈ vs)) as [Hi|Hi].
  - rewrite size_difference by set_solver. rewrite size_singleton. split; [lia|done].
  - rewrite difference_disjoint_L by set_solver. split; [lia|done].
Qed.

Lemma effect_size c vs : size vs - 1 <= size (effect c vs) <= S (size vs).
Proof.
  destruct c as [id a|id|id|id].
  - rewrite effect_learner. lia.
  - rewrite effect_voter. destruct (decide (id ∈ vs)).
    + rewrite subseteq_union_1_L by set_solver. lia.
    + rewrite size_union, size_singleton by set_solver. lia.
  - rewrite effect_remove. pose proof (proj1 (size_difference_one vs id)). lia.
  - rewrite effect_node. lia.
Qed.

(** A decided change either adds below the ceiling, removes above the floor, or leaves the
    voters alone. *)
Lemma asks_spec max v c ws : asks max v c ->
  (size (effect c ws) <= size ws \/ size (rv_voters v) < max)
  /\ (size ws <= size (effect c ws) \/ MIN_VOTERS < size (rv_voters v)).
Proof.
  assert (Hadd : forall id, size ws <= size (effect (AddVoter id) ws)).
  { intros id. rewrite effect_voter. apply subseteq_size. set_solver. }
  destruct 1 as [id Hp|id Hp|id c Hh Hc].
  - unfold should_promote in Hp. rewrite !andb_true_iff, Nat.ltb_lt in Hp. split; [right; lia|left; apply Hadd].
  - unfold still_promotable, should_promote in Hp. rewrite !andb_true_iff, Nat.ltb_lt in Hp.
    split; [right; lia|left; apply Hadd].
  - unfold evict_change in Hc. unfold held_by_floor in Hh. destruct (bool_decide (id ∈ rv_voters v)).
    + injection Hc as <-. simpl in Hh. apply Nat.leb_gt in Hh. rewrite effect_remove.
      pose proof (proj1 (size_difference_one ws id)). lia.
    + destruct (bool_decide (id ∈ dom (rv_nodes v))); [|done]. injection Hc as <-. rewrite effect_node. lia.
Qed.

(** The bounds of a run: what is committed, what is pending and what is decided all stay
    inside them; and where every change is waited for, nothing is pending outside the gate
    but a learner. *)
Definition inside (lo hi : nat) f : Prop :=
  lo <= size (fl_voters f) <= hi /\ lo <= size (after_pending f) <= hi /\ lo <= size (after_gate f) <= hi.

Definition waited f : Prop :=
  match fl_gate f with Some InFlight => True | _ => keeps_voters (fl_pending f) = true end.

Lemma waited_step max f f' : fleet_step max false f f' -> waited f -> waited f'.
Proof. inversion 1; subst; unfold waited; simpl; try done; by destruct g as [[]|]. Qed.

Lemma inside_step max lo hi d f f' :
  (d = true \/ waited f) ->
  (if d then S max else max) <= hi -> lo <= (if d then MIN_VOTERS - 1 else MIN_VOTERS) ->
  fleet_step max d f f' -> inside lo hi f -> inside lo hi f'.
Proof.
  intros Hw Hhi Hlo Hs (Hv & Hp & Hg).
  inversion Hs as [? vs g id addr|d' vs p v c <- Ha|? vs c|? vs c g|? vs p c|? vs|vs p]; subst;
    unfold inside, after_gate, after_pending in *; simpl in *.
  - rewrite effect_learner. done.
  - pose proof (asks_spec max v c (match p with Some c => effect c (rv_voters v) | None => rv_voters v end) Ha)
      as [Hup Hdown].
    assert (Hpend : size (rv_voters v) - (if d then 1 else 0)
              <= size (match p with Some c => effect c (rv_voters v) | None => rv_voters v end)
              <= size (rv_voters v) + (if d then 1 else 0)).
    { destruct d.
      - destruct p as [c'|]; [|lia]. pose proof (effect_size c' (rv_voters v)). lia.
      - destruct Hw as [?|Hw]; [done|]. apply keeps_after in Hw. unfold after_pending in Hw. simpl in Hw.
        rewrite Hw. lia. }
    pose proof (effect_size c (match p with Some c => effect c (rv_voters v) | None => rv_voters v end)).
    split; [done|]. split; [done|]. unfold MIN_VOTERS in *. destruct d; lia.
  - done.
  - done.
  - done.
  - done.
  - done.
Qed.

Lemma run_inside max d f f' :
  rtc (fleet_step max d) f f' -> forall lo hi,
  (d = true \/ waited f) ->
  (if d then S max else max) <= hi -> lo <= (if d then MIN_VOTERS - 1 else MIN_VOTERS) ->
  inside lo hi f -> inside lo hi f'.
Proof.
  induction 1 as [|f f1 f' Hs _ IH]; [done|]. intros lo hi Hw Hhi Hlo Hi.
  assert (Hw1 : d = true \/ waited f1).
  { destruct Hw as [?|Hw]; [by left|]. destruct d; [by left|]. right. by apply (waited_step max f). }
  eapply IH; eauto using inside_step.
Qed.

(** C28: whatever interleaving of admissions, sweeps, departures and retirements one leader runs,
    with any number of learners being added between them, the voters it commits never exceed
    the larger of the ceiling and what it started with, and never fall below the smaller of
    the floor and what it started with; and if handlers may be dropped while their change is
    in flight, both bounds are missed by at most one voter. *)
Theorem voter_bounds (max : nat) (dropped : bool) (vs : gset NodeId) (f : Fleet) :
  rtc (fleet_step max dropped) (resting vs) f ->
  let slack := if dropped then 1 else 0 in
  size (fl_voters f) <= Nat.max (max + slack) (size vs)
  /\ Nat.min (MIN_VOTERS - slack) (size vs) <= size (fl_voters f).
Proof.
  intros Hr slack.
  assert (Hi : inside (Nat.min (MIN_VOTERS - slack) (size vs)) (Nat.max (max + slack) (size vs)) (resting vs)).
  { unfold inside, after_gate, after_pending, resting. simpl. repeat split; lia. }
  eapply (run_inside max dropped) in Hi; [|exact Hr|by right|subst slack; destruct dropped; lia|subst slack; destruct dropped; lia].
  destruct Hi as (? & _ & _). lia.
Qed.

(** What the gate decides is all a handler asks for: with no such change to make, its answer
    does not depend on what the changes would have ended in. *)
Lemma admit_asks max is_sa change change' first v id adv :
  (forall a, change (AddLearner id a) = change' (AddLearner id a)) ->
  (asks max v (AddVoter id) -> change (AddVoter id) = change' (AddVoter id)) ->
  admit_member is_sa change first (Ok v) id adv max = admit_member is_sa change' first (Ok v) id adv max.
Proof.
  intros HL HV. unfold admit_member. destruct (Authority_from_str is_sa adv) as [a|e]; [|done].
  rewrite HL. destruct (change' (AddLearner id a)), first; try done.
  destruct (should_promote (rv_voters v) id max && negb (is_catching_up v id)) eqn:Hp; [|done].
  by rewrite HV by by apply asks_admit.
Qed.

Lemma evict_asks max change change' v id :
  (forall c, asks max v c -> change c = change' c) ->
  evict change (Ok v) id = evict change' (Ok v) id.
Proof.
  intros HC. unfold evict. destruct (held_by_floor (rv_voters v) id) eqn:Hh; [done|].
  destruct (evict_change v id) as [c|] eqn:Hc; [|done]. by rewrite HC by by eapply asks_evict.
Qed.

Lemma sweep_asks max change change' scan gated members :
  (forall id v c, gated id = Ok v -> asks max v c -> change c = change' c) ->
  promote_ready_learners change scan gated max members = promote_ready_learners change' scan gated max members.
Proof.
  intros HC. induction members as [|id rest IH]; [done|]. cbn [promote_ready_learners]. rewrite IH.
  destruct (scan id); [|done]. destruct (_ || _); [done|]. destruct (is_catching_up _ id); [done|].
  destruct (gated id) as [g|] eqn:Hg; [|done].
  destruct (still_promotable (dom (rv_nodes g)) (rv_voters g) id max) eqn:Hs; [|done]. simpl.
  by rewrite (HC id g) by eauto using asks_sweep.
Qed.
End bounds.

(** ** Retirement *)

Section probes.
Context (view_of : bytes -> result string NodeId) (target : NodeId).

(** An address that is quiet when dialled, or answers as another node. *)
Definition quiet (d : Dialled) : Prop :=
  classify_probe view_of (dl_probe d) target = Silent /\ dl_accepts d = false.
Definition reused_by (d : Dialled) (id : NodeId) : Prop :=
  classify_probe view_of (dl_probe d) target = Another id.

Lemma classify_another r id : classify_probe view_of r target = Another id -> id <> target.
Proof.
  unfold classify_probe. destruct r as [body|[]]; try done. destruct (view_of body) as [i|]; [|done].
  destruct (N.eqb_spec i target); congruence.
Qed.

(** One round: what it adds, and what it met. *)
Lemma probe_addrs_Ok dial addrs p p' :
  probe_addrs view_of target dial addrs p = Ok p' ->
  pb_probed p' = pb_probed p ∪ list_to_set addrs /\ pb_error p' = pb_error p /\ pb_reused p ⊆ pb_reused p'
  /\ (forall addr id, pb_reused p' !! addr = Some id ->
        pb_reused p !! addr = Some id \/ (addr ∈ addrs /\ reused_by (dial addr) id))
  /\ (forall addr, addr ∈ addrs -> is_Some (pb_reused p' !! addr) \/ quiet (dial addr)).
Proof.
  revert p. induction addrs as [|a rest IH]; intros p; simpl.
  - intros [= <-]. split; [set_solver|]. do 2 (split; [done|]). split; [auto|]. intros ? ?%elem_of_nil. done.
  - case_bool_decide as Hr.
    + intros (Hp & He & Hs & Hn & Hq)%IH. simpl in *. split; [set_solver|]. do 2 (split; [done|]).
      split; [intros addr id H%Hn; set_solver|]. intros addr [->|Hin]%elem_of_cons; [|by auto].
      left. destruct Hr as [i Hi]. exists i. by eapply lookup_weaken.
    + destruct (classify_probe view_of (dl_probe (dial a)) target) as [| |id|d] eqn:Hc; try done.
      * destruct (dl_accepts (dial a)) eqn:Hd; [done|].
        intros (Hp & He & Hs & Hn & Hq)%IH. simpl in *. split; [set_solver|]. do 2 (split; [done|]).
        split; [intros addr id H%Hn; set_solver|]. intros addr [->|Hin]%elem_of_cons; [|by auto]. right. by split.
      * intros (Hp & He & Hs & Hn & Hq)%IH. simpl in *.
        assert (Hnone : pb_reused p !! a = None) by (apply eq_None_not_Some; done).
        split; [set_solver|]. split; [done|]. split; [etrans; [by apply insert_subseteq|done]|].
        split.
        -- intros addr i [[[<- <-]|[Hne Hl]]%lookup_insert_Some|[Hin Hre]]%Hn; [right|by left|right]; split; try done; set_solver.
        -- intros addr [->|Hin]%elem_of_cons; [|by auto]. left. exists id. eapply lookup_weaken; [|exact Hs].
           apply lookup_insert_eq.
Qed.

(** The addresses the rounds resolved. *)
Definition resolved (rounds : list (result string (list string) * (string -> Dialled))) : list string :=
  rounds ≫= fun r => match r.1 with Ok addrs => addrs | Err _ => [] end.

Lemma probe_rounds_Ok rounds : forall p p',
  probe_rounds view_of target rounds p = Ok p' ->
  pb_probed p' = pb_probed p ∪ list_to_set (resolved rounds) /\ pb_reused p ⊆ pb_reused p'
  /\ (forall addr id, pb_reused p' !! addr = Some id ->
        pb_reused p !! addr = Some id
        \/ exists addrs dial, (Ok addrs, dial) ∈ rounds /\ addr ∈ addrs /\ reused_by (dial addr) id)
  /\ (forall addrs dial addr, (Ok addrs, dial) ∈ rounds -> addr ∈ addrs ->
        is_Some (pb_reused p' !! addr) \/ quiet (dial addr)).
Proof.
  induction rounds as [|[[addrs|e] dial] rest IH]; intros p p'; simpl.
  - intros [= <-]. split; [set_solver|]. split; [done|]. split; [auto|]. intros ??? ?%elem_of_nil. done.
  - destruct (probe_addrs view_of target dial addrs p) as [q|] eqn:Hq; [|done].
    apply probe_addrs_Ok in Hq as (Hp1 & _ & Hs1 & Hn1 & Hq1). intros (Hp2 & Hs2 & Hn2 & Hq2)%IH.
    split; [rewrite Hp2, Hp1; unfold resolved; simpl; rewrite list_to_set_app_L; set_solver|].
    split; [by etrans|]. split.
    + intros addr id [[H|[H1 H2]]%Hn1|(as' & d' & H1 & H2 & H3)]%Hn2; [by left|right; exists addrs, dial; set_solver|].
      right. exists as', d'. set_solver.
    + intros as' d' addr [[= -> ->]|Hin]%elem_of_cons Ha; [|by eapply Hq2].
      destruct (Hq1 addr Ha) as [[i Hi]|]; [|by right]. left. exists i. by eapply lookup_weaken.
  - intros (Hp2 & Hs2 & Hn2 & Hq2)%IH. simpl in *. split; [done|]. split; [done|]. split.
    + intros addr id [H|(as' & d' & H1 & H2 & H3)]%Hn2; [by left|]. right. exists as', d'. set_solver.
    + intros as' d' addr [?|Hin]%elem_of_cons Ha; [done|]. by eapply Hq2.
Qed.
End probes.

Lemma evict_Removed change gated id :
  evict change gated id = Ok Removed <->
  exists g, gated = Ok g /\ held_by_floor (rv_voters g) id = false
            /\ forall c, evict_change g id = Some c -> change c = Ok tt.
Proof.
  unfold evict. split.
  - destruct gated as [g|]; [|done]. destruct (held_by_floor (rv_voters g) id) eqn:Hh; [done|].
    intros H. exists g. split; [done|]. split; [done|]. intros c Hc. rewrite Hc in H. by destruct (change c) as [[]|].
  - intros (g & -> & -> & Hc). destruct (evict_change g id) as [c|]; [|done]. by rewrite (Hc c).
Qed.

Lemma probe_member_Ok view_of target authority rounds evidence :
  probe_member view_of target authority rounds = Ok evidence ->
  forall addrs dial addr, (Ok addrs, dial) ∈ take RETIRE_PROBE_ROUNDS rounds -> addr ∈ addrs ->
  ((addr, NoAnswer) ∈ evidence /\ quiet view_of target (dial addr))
  \/ exists id, (addr, AnotherNode id) ∈ evidence /\ id <> target
       /\ exists addrs' dial', (Ok addrs', dial') ∈ take RETIRE_PROBE_ROUNDS rounds /\ addr ∈ addrs'
                               /\ reused_by view_of target (dial' addr) id.
Proof.
  unfold probe_member. intros H addrs dial addr Hr Ha.
  destruct (probe_rounds _ _ _ _) as [p|] eqn:Hp; [|done]. apply probe_rounds_Ok in Hp as (Hpr & _ & Hn & Hq).
  assert (Hin : addr ∈ pb_probed p).
  { rewrite Hpr. apply elem_of_union_r, elem_of_list_to_set, list_elem_of_bind.
    exists (Ok addrs, dial). simpl. auto. }
  rewrite bool_decide_eq_false_2 in H by set_solver. injection H as <-.
  specialize (Hq addrs dial addr Hr Ha). destruct (pb_reused p !! addr) as [id|] eqn:Hl.
  - right. exists id. destruct (Hn addr id Hl) as [?|(as' & d' & H1 & H2 & H3)]; [done|].
    split; [|split; [by eapply classify_another|by eauto]].
    apply list_elem_of_fmap. exists addr. rewrite Hl. split; [done|]. by apply elem_of_elements.
  - left. destruct Hq as [[]|Hq]; [done|]. split; [|done].
    apply list_elem_of_fmap. exists addr. rewrite Hl. split; [done|]. by apply elem_of_elements.
Qed.

(** C29: a member is reported retired only if the leader had confirmed it leads, the member was in
    the committed membership and is not the leader, its departure kept the voter floor and
    committed (or it was gone already), and every address its name resolved to in any of the
    probe rounds was either silent and refusing connections, or answered as another node;
    the evidence returned says which. *)
Theorem retire_safe check view_of rounds change leader found gated after target m_idx voters evidence :
  retire check view_of rounds change leader found gated after target = Ok (Retired m_idx voters evidence) ->
  check = Linearizable
  /\ (exists v authority, found = Ok v /\ rv_nodes v !! target = Some authority /\ target <> leader)
  /\ (exists g, gated = Ok g /\ held_by_floor (rv_voters g) target = false
                /\ forall c, evict_change g target = Some c -> change c = Ok tt)
  /\ after = Ok (m_idx, voters)
  /\ forall addrs dial addr, (Ok addrs, dial) ∈ take RETIRE_PROBE_ROUNDS rounds -> addr ∈ addrs ->
       ((addr, NoAnswer) ∈ evidence /\ quiet view_of target (dial addr))
       \/ exists id, (addr, AnotherNode id) ∈ evidence /\ id <> target
            /\ exists addrs' dial', (Ok addrs', dial') ∈ take RETIRE_PROBE_ROUNDS rounds /\ addr ∈ addrs'
                                    /\ reused_by view_of target (dial' addr) id.
Proof.
  unfold retire. destruct check; try done. destruct found as [v|]; [|done]. simpl.
  destruct (rv_nodes v !! target) as [authority|] eqn:Ht; [|done]. destruct (N.eqb_spec target leader) as [|Hne]; [done|].
  destruct (probe_member view_of target authority rounds) as [ev|] eqn:Hp; [|done].
  destruct (evict change gated target) as [[]|] eqn:He; try done. destruct after as [[i vs]|]; [|done].
  intros [= -> -> ->]. split; [done|]. split; [by eauto|]. split; [by apply evict_Removed|]. split; [done|].
  by eapply probe_member_Ok.
Qed.

Lemma probe_addrs_gone view_of target dial addrs : forall p,
  (forall addr, addr ∈ addrs -> quiet view_of target (dial addr) \/ exists id, reused_by view_of target (dial addr) id) ->
  exists p', probe_addrs view_of target dial addrs p = Ok p'.
Proof.
  induction addrs as [|a rest IH]; intros p H; simpl; [by eauto|]. case_bool_decide; [apply IH; set_solver|].
  destruct (H a (list_elem_of_here _ _)) as [[Hc Hd]|[id Hc]]; unfold reused_by in *; rewrite Hc, ?Hd; apply IH; set_solver.
Qed.

(** Nothing else stops it: a member gone by that evidence is retired. *)
Lemma retire_gone view_of rounds change leader v authority g m_idx voters target :
  rv_nodes v !! target = Some authority -> target <> leader -> held_by_floor (rv_voters g) target = false ->
  (forall c, evict_change g target = Some c -> change c = Ok tt) ->
  (forall addrs dial addr, (Ok addrs, dial) ∈ take RETIRE_PROBE_ROUNDS rounds -> addr ∈ addrs ->
     quiet view_of target (dial addr) \/ exists id, reused_by view_of target (dial addr) id) ->
  exists evidence,
    retire Linearizable view_of rounds change leader (Ok v) (Ok g) (Ok (m_idx, voters)) target
    = Ok (Retired m_idx voters evidence).
Proof.
  intros Ht Hne Hh Hc Hq. unfold retire. cbn [confirm_leadership]. rewrite Ht, (proj2 (N.eqb_neq _ _) Hne).
  assert (Hp : forall rs p, (forall addrs dial addr, (Ok addrs, dial) ∈ rs -> addr ∈ addrs ->
                 quiet view_of target (dial addr) \/ exists id, reused_by view_of target (dial addr) id) ->
               exists p', probe_rounds view_of target rs p = Ok p').
  { induction rs as [|[[addrs|e] dial] rs IH]; intros p H; simpl; [by eauto| |].
    - destruct (probe_addrs_gone view_of target dial addrs p) as [q ->].
      { intros addr. apply (H addrs dial addr). apply list_elem_of_here. }
      apply IH. intros. eapply H; [by apply elem_of_cons; right|done].
    - apply IH. intros. eapply H; [by apply elem_of_cons; right|done]. }
  unfold probe_member. destruct (Hp _ {| pb_probed := ∅; pb_reused := ∅; pb_error := None |} Hq) as [p ->].
  assert (He : evict change (Ok g) target = Ok Removed) by (apply evict_Removed; by eauto).
  destruct (bool_decide (pb_probed p = ∅)); cbv beta iota; rewrite He; by eauto.
Qed.

(** ** Submitting a change *)

(** An attempt that loses the slot to another change, and waits it out. *)
Definition outwaited (submit : nat -> Submitted) (applied : N -> result string ()) (i : nat) : Prop :=
  exists index e, submit i = InProgress (Some index) e /\ applied index = Ok tt.

(** A membership change succeeds exactly when one of its twelve attempts is taken and its
    entry is applied in time, every attempt before it having lost the slot to another change
    and waited for that change to apply; so it submits at most twelve times, and never twice
    without a wait between. *)
Theorem membership_change_spec submit applied what :
  membership_change submit applied what = Ok tt <->
  exists n index, n < ADMIT_MAX_ATTEMPTS /\ submit n = SubmittedAt index /\ applied index = Ok tt
    /\ forall i, i < n -> outwaited submit applied i.
Proof.
  unfold membership_change.
  assert (Hg : forall budget i w, change_attempts submit applied what i budget w = Ok tt <->
    exists n index, n < budget /\ submit (i + n) = SubmittedAt index /\ applied index = Ok tt
      /\ forall j, j < n -> outwaited submit applied (i + j)); [|apply (Hg ADMIT_MAX_ATTEMPTS 0)].
  induction budget as [|budget IH]; intros i w; simpl.
  { split; [done|]. intros (n & _ & Hn & _). lia. }
  split.
  - destruct (submit i) as [index|l|[index|] e|e] eqn:Hs; try done; unfold wait_applied;
      destruct (applied index) as [[]|] eqn:Ha; try done.
    + intros _. exists 0, index. rewrite Nat.add_0_r. repeat split; auto with lia.
    + intros (n & idx & Hn & Hsn & Han & Hall)%IH. exists (S n), idx. rewrite Nat.add_succ_r.
      repeat split; try done; [lia|]. intros [|j] Hj; [rewrite Nat.add_0_r; by exists index, e|].
      rewrite Nat.add_succ_r. apply Hall. lia.
  - intros ([|n] & index & Hn & Hs & Ha & Hall).
    + rewrite Nat.add_0_r in Hs. rewrite Hs. unfold wait_applied. by rewrite Ha.
    + destruct (Hall 0 ltac:(lia)) as (idx & e & Hs0 & Ha0). rewrite Nat.add_0_r in Hs0. rewrite Hs0.
      unfold wait_applied. rewrite Ha0. apply IH. exists n, index. rewrite Nat.add_succ_r in Hs.
      repeat split; try done; [lia|]. intros j Hj. specialize (Hall (S j)). rewrite Nat.add_succ_r in Hall.
      apply Hall. lia.
Qed.

(** ** Walks *)

(** An address worth trying past: silent, or another node's. *)
Definition passed_over {T} (r : result RpcError T) : bool :=
  match r with Err e => is_liveness_failure e || is_wrong_node e | Ok _ => false end.

(** The sweep answers what the first address that is not passed over answers, its error kept
    with that address; with none, the last failure met. *)
Lemma sweep_addresses_spec {T} (call : string -> result RpcError T) addrs last :
  match list_find (fun a => passed_over (call a) = false) addrs with
  | Some (_, a) =>
      sweep_addresses call addrs last = match call a with Ok r => Ok r | Err e => Err (Attempted a e) end
  | None => exists f, sweep_addresses call addrs last = Err f
      /\ (f = last \/ exists a e, f = Attempted a e /\ a ∈ addrs /\ call a = Err e)
  end.
Proof.
  revert last. induction addrs as [|a rest IH]; intros last; simpl; [exists last; auto|].
  destruct (decide (passed_over (call a) = false)) as [Hp|Hp].
  - destruct (call a) as [r|e] eqn:Hc; [done|]. simpl in Hp. rewrite Hp. done.
  - destruct (call a) as [r|e] eqn:Hc; [done|]. simpl in Hp. apply not_false_is_true in Hp. rewrite Hp.
    specialize (IH (Attempted a e)). destruct (list_find _ rest) as [[i b]|]; [done|].
    destruct IH as (f & Hf & [->|(b & eb & -> & Hin & Hb)]); eexists; (split; [exact Hf|]); right.
    + exists a, e. split; [done|]. split; [set_solver|done].
    + exists b, eb. split; [done|]. split; [set_solver|done].
Qed.

(** Where the [n]-th send goes: the seed, then each leader the last answer named. *)
Fixpoint redirected {T} (send : nat -> string -> result RpcError T) (seed : string) (n : nat) : option string :=
  match n with
  | O => Some seed
  | S n =>
      match redirected send seed n with
      | Some t => match send n t with Err e => next_join_hop e | Ok _ => None end
      | None => None
      end
  end.

(** The chase answers what the first send not redirected answers, and gives up where the last
    redirect pointed. *)
Lemma chase_leader_spec {T} (send : nat -> string -> result RpcError T) budget seed :
  match chase_leader send 0 budget seed with
  | Ok r => exists n t, n < budget /\ redirected send seed n = Some t /\ send n t = Ok r
  | Err (Stopped t e) =>
      exists n, n < budget /\ redirected send seed n = Some t /\ send n t = Err e /\ next_join_hop e = None
  | Err (GaveUp l) => redirected send seed budget = Some l
  end.
Proof.
  assert (Hg : forall budget i t, redirected send seed i = Some t ->
    match chase_leader send i budget t with
    | Ok r => exists n t, n < i + budget /\ redirected send seed n = Some t /\ send n t = Ok r
    | Err (Stopped t e) =>
        exists n, n < i + budget /\ redirected send seed n = Some t /\ send n t = Err e /\ next_join_hop e = None
    | Err (GaveUp l) => redirected send seed (i + budget) = Some l
    end); [|by apply (Hg budget 0)].
  clear budget. induction budget as [|budget IH]; intros i t Ht; simpl.
  { by rewrite Nat.add_0_r. }
  destruct (send i t) as [r|e] eqn:Hs.
  - exists i, t. repeat split; auto with lia.
  - destruct (next_join_hop e) as [next|] eqn:Hn.
    + rewrite Nat.add_succ_r. apply (IH (S i)). simpl. by rewrite Ht, Hs.
    + exists i. repeat split; auto with lia.
Qed.

(** ** Witnesses *)

Definition plain_effect (c : Change) (vs : gset NodeId) : gset NodeId :=
  match c with
  | AddLearner _ _ | RemoveNode _ => vs
  | AddVoter id => {[id]} ∪ vs
  | RemoveVoter id => vs ∖ {[id]}
  end.

#[local] Instance plain_rules : MembershipRules := {|
  effect := plain_effect;
  effect_learner id addr vs := eq_refl;
  effect_voter id vs := eq_refl;
  effect_remove id vs := eq_refl;
  effect_node id vs := eq_refl
|}.

Definition view_with (voters members : gset NodeId) : RaftView := {|
  rv_voters := voters;
  rv_nodes := set_to_map (fun id => (id, "a:1"%string)) members;
  rv_last_log := Some 20%N;
  rv_matching := fun _ => Some 10%N
|}.

Definition trio : gset NodeId := {[1; 2; 3]}%N.

(** One departure of three, then a second refused by the floor. *)
Lemma one_departure dropped : rtc (fleet_step 3 dropped) (resting trio) (resting (trio ∖ {[1%N]})).
Proof.
  eapply rtc_l; [apply (step_decide 3 dropped trio None (view_with trio trio) (RemoveVoter 1)); [done|]|].
  { apply (asks_evict 3 _ 1%N); vm_compute; reflexivity. }
  eapply rtc_l; [apply step_submit|]. eapply rtc_l; [apply step_commit|]. eapply rtc_l; [apply step_done|]. apply rtc_refl.
Qed.

Lemma voter_bounds_witness :
  size (trio ∖ {[1%N]}) <= 3 /\ 2 <= size (trio ∖ {[1%N]})
  /\ held_by_floor (trio ∖ {[1%N]}) 2 = true.
Proof.
  pose proof (voter_bounds 3 false trio _ (one_departure false)) as [Hu Hl]. simpl in Hu, Hl.
  split; [exact Hu|]. split; [exact Hl|]. vm_compute. reflexivity.
Defined.

(** A handler dropped while its change is in flight lets the next one count without it: two
    departures from three voters leave one, and two admissions pass the ceiling. *)
Lemma dropped_handlers_miss_by_one :
  (exists f, rtc (fleet_step 3 true) (resting trio) f /\ size (fl_voters f) = 1)
  /\ (exists f, rtc (fleet_step 3 true) (resting {[1; 2]}%N) f /\ size (fl_voters f) = 4).
Proof.
  split; eexists; split.
  - eapply rtc_l; [apply (step_decide 3 true trio None (view_with trio trio) (RemoveVoter 1)); [done|]|].
    { apply (asks_evict 3 _ 1%N); vm_compute; reflexivity. }
    eapply rtc_l; [apply step_submit|]. eapply rtc_l; [apply step_dropped|].
    eapply rtc_l; [apply (step_decide 3 true trio _ (view_with trio trio) (RemoveVoter 2)); [done|]|].
    { apply (asks_evict 3 _ 2%N); vm_compute; reflexivity. }
    eapply rtc_l; [apply step_commit|]. eapply rtc_l; [apply step_submit|].
    eapply rtc_l; [apply step_commit|]. apply rtc_refl.
  - vm_compute. reflexivity.
  - eapply rtc_l; [apply (step_decide 3 true _ None (view_with {[1; 2]}%N {[1; 2; 3; 4]}%N) (AddVoter 3)); [done|]|].
    { apply asks_sweep. vm_compute. reflexivity. }
    eapply rtc_l; [apply step_submit|]. eapply rtc_l; [apply step_dropped|].
    eapply rtc_l; [apply (step_decide 3 true _ _ (view_with {[1; 2]}%N {[1; 2; 3; 4]}%N) (AddVoter 4)); [done|]|].
    { apply asks_sweep. vm_compute. reflexivity. }
    eapply rtc_l; [apply step_commit|]. eapply rtc_l; [apply step_submit|].
    eapply rtc_l; [apply step_commit|]. apply rtc_refl.
  - vm_compute. reflexivity.
Qed.

(** A member whose name resolves in two rounds of three, to a dead address and to one a new
    node took. *)
Definition dead_rounds : list (result string (list string) * (string -> Dialled)) :=
  let dial a := if String.eqb a "10.0.0.2:1" then {| dl_probe := Ok (as_bytes "seven"); dl_accepts := true |}
                else {| dl_probe := Err RpcTimeout; dl_accepts := false |} in
  [(Ok ["10.0.0.1:1"; "10.0.0.2:1"]%string, dial); (Err "no record"%string, dial); (Ok ["10.0.0.1:1"]%string, dial)].

Definition view_byte (b : bytes) : result string NodeId := if decide (b = as_bytes "seven") then Ok 7%N else Err "eof"%string.

Lemma retire_safe_witness :
  exists evidence,
    retire Linearizable view_byte dead_rounds (fun _ => Ok tt) 1 (Ok (view_with trio trio)) (Ok (view_with trio trio))
      (Ok (9%N, {[1; 2]}%N)) 3 = Ok (Retired 9 {[1; 2]}%N evidence)
    /\ ((("10.0.0.1:1"%string, NoAnswer) ∈ evidence
         /\ quiet view_byte 3 {| dl_probe := Err RpcTimeout; dl_accepts := false |})
        \/ exists id, ("10.0.0.1:1"%string, AnotherNode id) ∈ evidence).
Proof.
  eexists. split; [vm_compute; reflexivity|].
  match goal with |- (_ ∈ ?ev /\ _) \/ _ =>
    destruct (retire_safe Linearizable view_byte dead_rounds (fun _ => Ok tt) 1 (Ok (view_with trio trio))
      (Ok (view_with trio trio)) (Ok (9%N, {[1; 2]}%N)) 3 9 {[1; 2]}%N ev) as (_ & _ & _ & _ & H);
      [vm_compute; reflexivity|] end.
  destruct (H _ _ "10.0.0.1:1"%string (list_elem_of_here _ _) (list_elem_of_here _ _)) as [[H1 H2]|(id & H1 & _)].
  - left. split; [exact H1|exact H2].
  - right. by exists id.
Defined.

Lemma membership_change_witness :
  membership_change (fun i => match i with 0 => InProgress (Some 4%N) "busy" | _ => SubmittedAt 5 end)
    (fun _ => Ok tt) "admit 3" = Ok tt.
Proof.
  apply membership_change_spec. exists 1, 5%N. split; [vm_compute; lia|]. split; [done|]. split; [done|].
  intros i Hi. destruct i as [|i]; [|lia]. by exists 4%N, "busy"%string.
Defined.
