(* ===== verification/Barrier.v ===== *)
(** * The write barrier, leaving, and the restart election hold

    From [raft/node.rs]: the read-after-write barrier that polls every member's applied
    index, the departure loop, the evidence that a node was removed while it was down, the
    isolation rule, and the flags that hold elections after a restart. Clocks, peers and
    openraft's metrics are inputs. *)

From stdpp Require Import sorting.
From S2P Require Import Prelude Ring Rpc Health Wire Members.

(** ** Isolation *)

Definition ISOLATION_WINDOW_MS : N := 900.

Definition isolated_from (me : NodeId) (current_leader : option NodeId) (millis_since_quorum_ack : option N) : bool :=
  match current_leader with
  | None => true
  | Some leader =>
      if (leader =? me)%N then
        match millis_since_quorum_ack with Some ms => (ISOLATION_WINDOW_MS <? ms)%N | None => true end
      else false
  end.

(** ** The write barrier *)

Definition BARRIER_POLL_INTERVAL : N := 25.
Definition BARRIER_UNREACHABLE_AFTER : N := 500.

Record AppliedReply := { ap_applied : option N; ap_ready : option bool }.

Inductive BarrierPoll :=
  | Confirmed
  | NotReady
  | Behind
  | PollSilent
  | PollRefused (e : RpcError).

Definition reached (applied : option N) (revision : N) : bool :=
  match applied with Some a => (revision <=? a)%N | None => false end.

Definition rank (p : BarrierPoll) : nat :=
  match p with Confirmed => 2 | NotReady => 1 | _ => 0 end.

(** The best answer so far, whether an address was silent, and the last refusal. *)
Definition settle_answer (revision : N) (acc : option BarrierPoll * bool * option RpcError)
    (answer : result RpcError AppliedReply) : option BarrierPoll * bool * option RpcError :=
  let '(verdict, silent, refused) := acc in
  match answer with
  | Err e => if is_liveness_failure e then (verdict, true, refused) else (verdict, silent, Some e)
  | Ok reply =>
      let poll := if bool_decide (ap_ready reply = Some false) then NotReady
                  else if reached (ap_applied reply) revision then Confirmed
                  else Behind in
      match verdict with
      | Some v => if (rank v <? rank poll)%nat then (Some poll, silent, refused) else (verdict, silent, refused)
      | None => (Some poll, silent, refused)
      end
  end.

Definition settle_barrier_poll (answers : list (result RpcError AppliedReply)) (revision : N) : BarrierPoll :=
  let '(verdict, silent, refused) := foldl (settle_answer revision) (None, false, None) answers in
  match verdict, refused with
  | Some verdict, _ => verdict
  | None, Some e => if silent then PollSilent else PollRefused e
  | None, None => PollSilent
  end.

Record BarrierOutcome := { bo_unapplied : list NodeId; bo_unreachable : list NodeId }.

Definition is_confirmed (o : BarrierOutcome) : bool :=
  bool_decide (bo_unapplied o = []) && bool_decide (bo_unreachable o = []).

Record BarrierMember := { bm_peers : list string; bm_answered : bool }.

(** A round: this node's applied index, what each address of a member answers, and the time
    since the start when the polls are in and when the deadline is looked at. *)
Record Round := {
  rd_own : option N;
  rd_answer : NodeId -> string -> result RpcError bytes;
  rd_polled : N;
  rd_checked : N;
}.

Section barrier.
Context (decode : bytes -> result string AppliedReply) (me : NodeId) (revision : N).

Definition poll_applied (r : Round) (id : NodeId) (peers : list string) : BarrierPoll :=
  if (id =? me)%N then if reached (rd_own r) revision then Confirmed else Behind
  else
    settle_barrier_poll
      ((fun peer =>
          match rd_answer r id peer with
          | Err e => Err e
          | Ok body =>
              match decode body with
              | Ok reply => Ok reply
              | Err e => Err (Handler ("undecodable applied reply: " +:+ e))
              end
          end) <$> peers) revision.

(** Resolution, once before the rounds: who is polled, and who is named at once. *)
Definition barrier_start {E} (resolve : string -> result E (list string)) (members : list (NodeId * string))
    : list (NodeId * BarrierMember) * list NodeId :=
  (omap (fun '(id, addr) =>
      if (id =? me)%N then Some (id, {| bm_peers := []; bm_answered := true |})
      else match resolve addr with
           | Ok peers => Some (id, {| bm_peers := peers; bm_answered := false |})
           | Err _ => None
           end) members,
   omap (fun '(id, addr) =>
      if (id =? me)%N then None else match resolve addr with Ok _ => None | Err _ => Some id end) members).

(** What a round makes of a member it waits for: still pending, or not; and named. *)
Definition barrier_poll (r : Round) (p : NodeId * BarrierMember) : option (NodeId * BarrierMember) * option NodeId :=
  let '(id, m) := p in
  match poll_applied r id (bm_peers m) with
  | Confirmed | NotReady => (None, None)
  | Behind => (Some (id, {| bm_peers := bm_peers m; bm_answered := true |}), None)
  | PollSilent =>
      if (BARRIER_UNREACHABLE_AFTER <=? rd_polled r)%N && negb (bm_answered m) then (None, Some id) else (Some p, None)
  | PollRefused _ => (None, Some id)
  end.

Definition barrier_finish (pending : list (NodeId * BarrierMember)) (unreachable : list NodeId) : BarrierOutcome := {|
  bo_unapplied := (filter (fun p => bm_answered p.2 = true) pending).*1;
  bo_unreachable := merge_sort N.le (unreachable ++ (filter (fun p => bm_answered p.2 = false) pending).*1)
|}.

Fixpoint barrier_rounds (rounds : nat -> Round) (timeout : N) (fuel i : nat)
    (pending : list (NodeId * BarrierMember)) (unreachable : list NodeId) : option BarrierOutcome :=
  match fuel with
  | O => None
  | S fuel =>
      let polls := barrier_poll (rounds i) <$> pending in
      let pending := omap fst polls in
      let unreachable := unreachable ++ omap snd polls in
      if bool_decide (pending = []) || (timeout <=? rd_checked (rounds i))%N then Some (barrier_finish pending unreachable)
      else barrier_rounds rounds timeout fuel (S i) pending unreachable
  end.

Definition await_applied {E} (resolve : string -> result E (list string)) (members : list (NodeId * string))
    (rounds : nat -> Round) (timeout : N) (fuel : nat) : option BarrierOutcome :=
  let '(pending, unreachable) := barrier_start resolve members in
  barrier_rounds rounds timeout fuel 0 pending unreachable.
End barrier.

(** ** Leaving *)

Inductive LeaveOutcome := Departed | Retained.

(** What the loop sees at one turn: whether this node is still listed, the eviction it runs
    when it leads, or the reply of the leader it knows. *)
Record LeaveTurn := {
  lt_in_membership : bool;
  lt_is_leader : bool;
  lt_evict : result RpcError EvictOutcome;
  lt_via : option (string * result string bytes);
}.

Definition leave_via (decode : bytes -> result string bool) (authority : string) (reply : result string bytes)
    : result string LeaveOutcome :=
  match reply with
  | Err e => Err ("leave via " +:+ e)
  | Ok body =>
      match decode body with
      | Err e => Err ("decode leave reply from " +:+ authority +:+ ": " +:+ e)
      | Ok evicted => Ok (if evicted then Departed else Retained)
      end
  end.

Definition leave_attempt (decode : bytes -> result string bool) (t : LeaveTurn) : result string LeaveOutcome :=
  if lt_is_leader t then
    match lt_evict t with
    | Ok Removed => Ok Departed
    | Ok HeldByFloor => Ok Retained
    | Err e => Err ("local eviction: " +:+ rpc_display e)
    end
  else
    match lt_via t with
    | Some (authority, reply) => leave_via decode authority reply
    | None => Err "no leader is known"%string
    end.

Fixpoint leave_loop (decode : bytes -> result string bool) (turns : list LeaveTurn) (last : option string)
    : result (option string) LeaveOutcome :=
  match turns with
  | [] => Err last
  | t :: rest =>
      if negb (lt_in_membership t) then Ok Departed
      else
        match leave_attempt decode t with
        | Ok outcome => Ok outcome
        | Err cause => leave_loop decode rest (Some cause)
        end
  end.

(** The turns are those the deadline allows; past them, the last cause seen. *)
Definition leave (decode : bytes -> result string bool) (in_membership is_sole_voter : bool) (turns : list LeaveTurn)
    (last_leave_error : option string) : result string LeaveOutcome :=
  if negb in_membership then Ok Departed
  else if is_sole_voter then Ok Retained
  else
    match leave_loop decode turns last_leave_error with
    | Ok outcome => Ok outcome
    | Err cause => Err (default "no attempt reported a cause"%string cause)
    end.

(** ** Removed while down *)

Record MembershipView := { mv_node_id : NodeId; mv_m_idx : N; mv_members : gset NodeId }.

Definition removed_from (view : MembershipView) (me : NodeId) (own_m_idx : N) : bool :=
  (own_m_idx <? mv_m_idx view)%N && negb (bool_decide (me ∈ mv_members view)).

Record RemovalEvidence := { re_peer : string; re_peer_node_id : NodeId; re_peer_m_idx : N; re_own_m_idx : N }.

(** The answers in the order they arrive within the budget. *)
Fixpoint removal_evidence (decode : bytes -> option MembershipView) (me : NodeId) (own_m_idx : N)
    (answers : list (string * result RpcError bytes)) : option RemovalEvidence :=
  match answers with
  | [] => None
  | (target, reply) :: rest =>
      match reply with
      | Err _ => removal_evidence decode me own_m_idx rest
      | Ok body =>
          match decode body with
          | None => removal_evidence decode me own_m_idx rest
          | Some view =>
              if removed_from view me own_m_idx then
                Some {| re_peer := target; re_peer_node_id := mv_node_id view; re_peer_m_idx := mv_m_idx view;
                        re_own_m_idx := own_m_idx |}
              else removal_evidence decode me own_m_idx rest
          end
      end
  end.

(** ** The election hold *)

(** The two flags and openraft's election switch; each operation is its atomic sections in
    order, the last two of a release read a flag and then act on what was read. *)
Record ElectionHold := { eh_held : bool; eh_grace_over : bool; eh_elect : bool }.

Inductive HoldOp := StoreHeld (b : bool) | StoreGraceOver (b : bool) | Elect (b : bool)
  | ElectUnlessHeld | ElectIfGraceOver.

(** A thread is the sections it has still to run; a load is a section that replaces itself by
    what it decided. *)
Definition hold_op (h : ElectionHold) (op : HoldOp) : ElectionHold * list HoldOp :=
  match op with
  | StoreHeld b => ({| eh_held := b; eh_grace_over := eh_grace_over h; eh_elect := eh_elect h |}, [])
  | StoreGraceOver b => ({| eh_held := eh_held h; eh_grace_over := b; eh_elect := eh_elect h |}, [])
  | Elect b => ({| eh_held := eh_held h; eh_grace_over := eh_grace_over h; eh_elect := b |}, [])
  | ElectUnlessHeld => (h, if eh_held h then [] else [Elect true])
  | ElectIfGraceOver => (h, if eh_grace_over h then [Elect true] else [])
  end.

Definition begin_grace : list HoldOp := [StoreGraceOver false; Elect false].
Definition release_grace : list HoldOp := [StoreGraceOver true; ElectUnlessHeld].
Definition hold_elections : list HoldOp := [StoreHeld true; Elect false].
Definition release_elections : list HoldOp := [StoreHeld false; ElectIfGraceOver].
