(* ===== verification/BarrierFacts.v ===== *)
(** * What the write barrier, leaving and the election hold guarantee

    The barrier ends, names each member exactly once or has its word, and its lists are
    sorted and disjoint; a departure is reported only on evidence of it; elections resume once
    the grace and the holder have both let go. *)

From stdpp Require Import sorting.
From S2P Require Import Prelude Ring Rpc Health Wire Members Barrier.

(** ** One member's answers *)

(** The member has applied the write by one of its answers. *)
Definition confirms (revision : N) (a : result RpcError AppliedReply) : Prop :=
  exists reply, a = Ok reply /\ ap_ready reply <> Some false /\ reached (ap_applied reply) revision = true.
Definition answers (a : result RpcError AppliedReply) : Prop := exists reply, a = Ok reply.
Definition not_ready (a : result RpcError AppliedReply) : Prop := exists reply, a = Ok reply /\ ap_ready reply = Some false.
Definition silent_answer (a : result RpcError AppliedReply) : Prop := exists e, a = Err e /\ is_liveness_failure e = true.

(** What the fold has kept of the answers so far. *)
Definition verdict_of (revision : N) (seen : list (result RpcError AppliedReply)) (verdict : option BarrierPoll) : Prop :=
  match verdict with
  | Some Confirmed => Exists (confirms revision) seen
  | Some NotReady => Exists not_ready seen /\ ~ Exists (confirms revision) seen
  | Some Behind => Exists answers seen /\ ~ Exists not_ready seen /\ ~ Exists (confirms revision) seen
  | Some _ => False
  | None => ~ Exists answers seen
  end.

Definition failures_of (seen : list (result RpcError AppliedReply)) (silent : bool) (refused : option RpcError) : Prop :=
  (silent = true <-> Exists silent_answer seen)
  /\ (forall e, refused = Some e -> Err e ∈ seen /\ is_liveness_failure e = false)
  /\ (refused = None -> Forall (fun a => answers a \/ silent_answer a) seen).

Definition settled (revision : N) (seen : list (result RpcError AppliedReply))
    (acc : option BarrierPoll * bool * option RpcError) : Prop :=
  verdict_of revision seen acc.1.1 /\ failures_of seen acc.1.2 acc.2.

Lemma Exists_snoc {A} (P : A -> Prop) l x : Exists P (l ++ [x]) <-> Exists P l \/ P x.
Proof. rewrite Exists_app, Exists_cons, Exists_nil. tauto. Qed.

Lemma verdict_answered revision seen : ~ Exists answers seen ->
  ~ Exists (confirms revision) seen /\ ~ Exists not_ready seen.
Proof. intros Hv. split; intros He; apply Hv; eapply Exists_impl; try exact He; intros ? (r & -> & _); by exists r. Qed.

(** An answer raises the verdict to the best of what it says and what was said before. *)
Lemma verdict_reply revision seen verdict reply :
  verdict_of revision seen verdict ->
  let poll := if bool_decide (ap_ready reply = Some false) then NotReady
              else if reached (ap_applied reply) revision then Confirmed else Behind in
  verdict_of revision (seen ++ [Ok reply])
    match verdict with Some v => if (rank v <? rank poll)%nat then Some poll else Some v | None => Some poll end.
Proof.
  intros Hv poll. assert (Ha : answers (Ok reply)) by by exists reply.
  assert (Hp : (poll = Confirmed /\ confirms revision (Ok reply))
    \/ (poll = NotReady /\ not_ready (Ok reply) /\ ~ confirms revision (Ok reply))
    \/ (poll = Behind /\ ~ not_ready (Ok reply) /\ ~ confirms revision (Ok reply))).
  { subst poll. unfold confirms, not_ready. case_bool_decide as Hready; [|destruct (reached _ _) eqn:Hre].
    - right; left. split; [done|]. split; [by exists reply|]. by intros (? & [= <-] & ? & _).
    - left. split; [done|]. by exists reply.
    - right; right. split; [done|]. split; [by intros (? & [= <-] & ?)|]. intros (? & [= <-] & _ & ?). congruence. }
  clearbody poll. destruct verdict as [v|].
  - destruct Hp as [[-> ?]|[(-> & ? & ?)|(-> & ? & ?)]], v; simpl in *; rewrite ?Exists_snoc; tauto.
  - apply verdict_answered with (revision := revision) in Hv.
    destruct Hp as [[-> ?]|[(-> & ? & ?)|(-> & ? & ?)]]; simpl; rewrite ?Exists_snoc; tauto.
Qed.

Lemma failures_reply seen silent refused reply :
  failures_of seen silent refused -> failures_of (seen ++ [Ok reply]) silent refused.
Proof.
  intros (Hs & Hr & Hn). unfold failures_of. rewrite Exists_snoc.
  split; [rewrite Hs; split; [tauto|]; by intros [?|(e & ? & _)]|].
  split; [intros e He; destruct (Hr e He); set_solver|].
  intros Hnone. apply Forall_app. split; [by apply Hn|]. constructor; [left; by exists reply|constructor].
Qed.

Lemma settle_answer_settled revision seen acc a :
  settled revision seen acc -> settled revision (seen ++ [a]) (settle_answer revision acc a).
Proof.
  destruct acc as [[verdict silent] refused]. intros [Hv Hf]. simpl in Hv, Hf. unfold settle_answer.
  destruct a as [reply|e].
  - apply (verdict_reply _ _ _ reply) in Hv. apply (failures_reply _ _ _ reply) in Hf. cbv zeta in Hv.
    destruct verdict as [v|]; [|by split]. destruct (rank v <? _)%nat; by split.
  - assert (Hno : ~ answers (Err e) /\ ~ not_ready (Err e) /\ ~ confirms revision (Err e))
      by (repeat split; [intros (r & ?)|intros (r & ? & _)|intros (r & ? & _)]; done).
    assert (Hv' : verdict_of revision (seen ++ [Err e]) verdict)
      by (destruct verdict as [[]|]; simpl in *; rewrite ?Exists_snoc; tauto).
    destruct Hf as (Hs & Hr & Hn).
    destruct (is_liveness_failure e) eqn:Hl; (split; [exact Hv'|]); unfold failures_of; simpl; rewrite Exists_snoc.
    + split; [split; [|done]; intros _; right; by exists e|].
      split; [intros e' He'; destruct (Hr e' He'); set_solver|].
      intros Hnone. apply Forall_app. split; [by apply Hn|]. constructor; [right; by exists e|constructor].
    + split; [rewrite Hs; split; [tauto|]; intros [?|(? & [= <-] & ?)]; [done|congruence]|].
      split; [intros e' [= <-]; split; [set_solver|done]|done].
Qed.

(** A member is confirmed exactly when one of its addresses says it is ready and has applied
    the write; refused only when no address answered or was silent. *)
Lemma settle_barrier_poll_spec revision rs :
  match settle_barrier_poll rs revision with
  | Confirmed => Exists (confirms revision) rs
  | NotReady => Exists not_ready rs /\ ~ Exists (confirms revision) rs
  | Behind => Exists answers rs /\ ~ Exists not_ready rs /\ ~ Exists (confirms revision) rs
  | PollSilent => ~ Exists answers rs /\ (rs = [] \/ Exists silent_answer rs)
  | PollRefused e => Err e ∈ rs /\ ~ Exists answers rs /\ ~ Exists silent_answer rs
  end.
Proof.
  assert (Hg : forall rs seen acc, settled revision seen acc ->
    settled revision (seen ++ rs) (foldl (settle_answer revision) acc rs)).
  { clear rs. induction rs as [|a rs IH]; intros seen acc H; [by rewrite app_nil_r|].
    simpl. replace (seen ++ a :: rs) with ((seen ++ [a]) ++ rs) by by rewrite <-app_assoc.
    by apply IH, settle_answer_settled. }
  assert (H0 : settled revision [] (None, false, None)).
  { split; [by intros ?%Exists_nil|]. split; [rewrite Exists_nil; done|]. split; [done|constructor]. }
  specialize (Hg rs [] _ H0). simpl in Hg. unfold settle_barrier_poll.
  destruct (foldl _ _ _) as [[verdict silent] refused]. destruct Hg as [Hv (Hs & Hr & Hn)]. simpl in *.
  destruct verdict as [[]|]; simpl in Hv; try done; destruct refused as [e|]; try done.
  - destruct silent; [split; [done|]; right; by apply Hs|]. destruct (Hr e eq_refl). repeat split; try done.
    intros Hsil. by apply Hs in Hsil.
  - split; [done|]. destruct rs as [|a rs]; [by left|]. right. specialize (Hn eq_refl).
    inversion Hn as [|? ? [Ha|Ha] _]; subst; [exfalso; apply Hv|]; by constructor.
Qed.

(** ** The rounds *)

Lemma assoc_unique {A} (l : list (NodeId * A)) k a b : NoDup l.*1 -> (k, a) ∈ l -> (k, b) ∈ l -> a = b.
Proof.
  intros Hn [i Hi]%list_elem_of_lookup [j Hj]%list_elem_of_lookup.
  assert (i = j) as ->; [|congruence].
  eapply (NoDup_lookup _ _ _ k Hn); rewrite list_lookup_fmap; [by rewrite Hi|by rewrite Hj].
Qed.

Lemma StronglySorted_lt_NoDup (l : list N) : StronglySorted N.lt l -> NoDup l.
Proof.
  induction 1 as [|x l _ IH Hx]; constructor; [|done]. rewrite Forall_forall in Hx. intros Hin.
  specialize (Hx x Hin). lia.
Qed.

Lemma merge_sort_strict (l : list N) : NoDup l -> StronglySorted N.lt (merge_sort N.le l).
Proof.
  intros Hn. assert (Hp := merge_sort_Permutation N.le l). rewrite <-Hp in Hn.
  pose proof (StronglySorted_merge_sort N.le l) as Hs. revert Hn Hs. generalize (merge_sort N.le l). clear.
  induction l as [|x l IH]; intros Hn Hs; [constructor|]. apply NoDup_cons in Hn as [Hx Hn].
  apply StronglySorted_inv in Hs as [Hs Hf]. constructor; [by apply IH|].
  rewrite Forall_forall in Hf |- *. intros y Hy. specialize (Hf y Hy). assert (x <> y) by congruence. lia.
Qed.

(** What a sorted list keeps of its keys is sorted. *)
Lemma omap_keys_sorted {A B} (f : NodeId * A -> option B) (key : B -> NodeId) (l : list (NodeId * A)) :
  (forall p q, f p = Some q -> key q = p.1) -> StronglySorted N.lt l.*1 -> StronglySorted N.lt (key <$> omap f l).
Proof.
  intros Hf. induction l as [|p l IH]; [constructor|]. rewrite fmap_cons. intros [Hs Hl]%StronglySorted_inv.
  cbn [omap list_omap]. destruct (f p) as [q|] eqn:Hp; [|by apply IH]. rewrite fmap_cons. constructor; [by apply IH|].
  rewrite Forall_forall in Hl |- *. intros x [y [-> (p' & Hin & Hy)%list_elem_of_omap]]%list_elem_of_fmap.
  rewrite (Hf _ _ Hp), (Hf _ _ Hy). by apply Hl, list_elem_of_fmap_2.
Qed.

Lemma omap_filter {A} (P : A -> Prop) `{!forall x, Decision (P x)} (l : list A) :
  filter P l = omap (fun x => if decide (P x) then Some x else None) l.
Proof. induction l as [|x l IH]; [done|]. rewrite filter_cons. cbn [omap list_omap]. destruct (decide (P x)); by rewrite IH. Qed.

Lemma omap_after_fmap {A B C} (f : A -> B) (g : B -> option C) (l : list A) : omap g (f <$> l) = omap (fun x => g (f x)) l.
Proof. induction l as [|x l IH]; [done|]. rewrite fmap_cons. cbn [omap list_omap]. destruct (g (f x)); by rewrite IH. Qed.

Section rounds.
Context (decode : bytes -> result string AppliedReply) (me : NodeId) (revision : N).
Context {E : Type} (resolve : string -> result E (list string)) (members : list (NodeId * string)).
Context (rounds : nat -> Round) (timeout : N).
Implicit Types (id : NodeId) (m : BarrierMember) (pending : list (NodeId * BarrierMember)).

#[local] Abbreviation bpoll := (barrier_poll decode me revision).

Lemma barrier_poll_kept r id m q : (bpoll r (id, m)).1 = Some q -> q.1 = id /\ bm_peers q.2 = bm_peers m /\ (bpoll r (id, m)).2 = None.
Proof. simpl. destruct (poll_applied _ _ _ _ _ _); simpl; try done; [by intros [= <-]|]. by destruct (_ && _); simpl; intros [= <-]. Qed.

Lemma barrier_poll_named r id m i : (bpoll r (id, m)).2 = Some i -> i = id /\ (bpoll r (id, m)).1 = None.
Proof. simpl. destruct (poll_applied _ _ _ _ _ _); simpl; try done; [|by intros [= <-]]. by destruct (_ && _); simpl; intros [= <-]. Qed.

Lemma round_pending r (l : list (NodeId * BarrierMember)) id m' :
  (id, m') ∈ omap fst (bpoll r <$> l) <-> exists m, (id, m) ∈ l /\ (bpoll r (id, m)).1 = Some (id, m').
Proof.
  rewrite list_elem_of_omap. split.
  - intros (p & [[i m] [-> Hin]]%list_elem_of_fmap & Hp). destruct (barrier_poll_kept _ _ _ _ Hp) as [Hi _]. simpl in Hi. subst. by exists m.
  - intros (m & Hin & Hp). exists (bpoll r (id, m)). split; [|done]. by apply list_elem_of_fmap_2.
Qed.

Lemma round_named r (l : list (NodeId * BarrierMember)) id :
  id ∈ omap snd (bpoll r <$> l) <-> exists m, (id, m) ∈ l /\ (bpoll r (id, m)).2 = Some id.
Proof.
  rewrite list_elem_of_omap. split.
  - intros (p & [[i m] [-> Hin]]%list_elem_of_fmap & Hp). destruct (barrier_poll_named _ _ _ _ Hp) as [Hi _]. subst. by exists m.
  - intros (m & Hin & Hp). exists (bpoll r (id, m)). split; [|done]. by apply list_elem_of_fmap_2.
Qed.

Lemma round_sorted r (l : list (NodeId * BarrierMember)) : StronglySorted N.lt l.*1 ->
  StronglySorted N.lt (omap fst (bpoll r <$> l)).*1 /\ StronglySorted N.lt (omap snd (bpoll r <$> l)).
Proof.
  intros Hs. rewrite !omap_after_fmap. split.
  - apply omap_keys_sorted; [|done]. intros [id m] q Hq. by apply barrier_poll_kept in Hq as [? _].
  - rewrite <-(list_fmap_id (omap _ _)). apply omap_keys_sorted; [|done]. intros [id m] q Hq.
    by apply barrier_poll_named in Hq as [? _].
Qed.

(** What a member answers in a round, at the addresses its name resolved to. *)
Definition peers_of id addr : list string :=
  if (id =? me)%N then [] else match resolve addr with Ok peers => peers | Err _ => [] end.
Definition polled (i : nat) id addr : BarrierPoll := poll_applied decode me revision (rounds i) id (peers_of id addr).
Definition undecided (p : BarrierPoll) : Prop := p = Behind \/ p = PollSilent.

(** The three ends of a member: it confirmed or serves no traffic; it answered, and was
    waited for to the deadline; or it was not heard from. *)
Definition cleared id addr : Prop := exists i, polled i id addr = Confirmed \/ polled i id addr = NotReady.
Definition lagging id addr : Prop :=
  exists n, ((timeout <= rd_checked (rounds n))%N) /\ (forall k, k <= n -> undecided (polled k id addr))
            /\ (id = me \/ exists k, k <= n /\ polled k id addr = Behind).
Definition unheard id addr : Prop :=
  id <> me /\ ((exists e, resolve addr = Err e)
    \/ exists n, (forall k, k < n -> undecided (polled k id addr)) /\
         ((exists e, polled n id addr = PollRefused e)
          \/ (((BARRIER_UNREACHABLE_AFTER <= rd_polled (rounds n))%N \/ (timeout <= rd_checked (rounds n))%N)
              /\ forall k, k <= n -> polled k id addr = PollSilent))).

(** A member still waited for after [i] rounds. *)
Definition waiting (i : nat) id addr m : Prop :=
  bm_peers m = peers_of id addr /\ (forall k, k < i -> undecided (polled k id addr))
  /\ if bm_answered m then id = me \/ exists k, k < i /\ polled k id addr = Behind
     else id <> me /\ forall k, k < i -> polled k id addr = PollSilent.

Definition barrier_inv (i : nat) pending (unreachable : list NodeId) : Prop :=
  StronglySorted N.lt pending.*1 /\ NoDup unreachable
  /\ (forall id, id ∈ pending.*1 -> (id ∉ unreachable) /\ id ∈ members.*1)
  /\ (forall id, id ∈ unreachable -> id ∈ members.*1)
  /\ forall id addr, (id, addr) ∈ members ->
       (exists m, (id, m) ∈ pending /\ waiting i id addr m)
       \/ (id ∈ unreachable /\ unheard id addr)
       \/ ((id ∉ pending.*1) /\ (id ∉ unreachable) /\ cleared id addr).

Lemma le_S_cases (i : nat) (P : nat -> Prop) : (forall k, k < i -> P k) -> P i -> forall k, k < S i -> P k.
Proof. intros H Hi k Hk. destruct (decide (k = i)) as [->|]; [done|]. apply H. lia. Qed.

(** One more round of a waiting member. *)
Lemma waiting_poll i id addr m :
  waiting i id addr m ->
  match bpoll (rounds i) (id, m) with
  | (Some (id', m'), None) => id' = id /\ waiting (S i) id addr m'
  | (None, Some id') => id' = id /\ unheard id addr
  | (None, None) => cleared id addr
  | _ => False
  end.
Proof.
  intros (Hp & Hu & Ha). simpl. rewrite Hp. fold (polled i id addr). destruct (polled i id addr) as [| | | |e] eqn:Hpoll.
  - exists i. auto.
  - exists i. auto.
  - split; [done|]. split; [done|]. split; [|by right; exists i; auto with lia].
    apply (le_S_cases i (fun k => undecided (polled k id addr))); [done|by left].
  - destruct (N.leb_spec BARRIER_UNREACHABLE_AFTER (rd_polled (rounds i))) as [Hg|Hg], (bm_answered m) eqn:Hans; simpl.
    1,3,4: split; [done|]; split; [done|]; rewrite Hans;
      (split; [apply (le_S_cases i (fun k => undecided (polled k id addr))); [done|by right]|]);
      ((destruct Ha as [?|(k & ? & ?)]; [by left|right; exists k; auto with lia])
       || (destruct Ha as [? Ha]; split; [done|]; by apply (le_S_cases i (fun k => polled k id addr = PollSilent)))).
    split; [done|]. destruct Ha as [Hne Ha]. split; [done|]. right. exists i. split; [done|]. right. split; [by left|].
    intros k Hk. apply (le_S_cases i (fun k => polled k id addr = PollSilent)); [done|done|lia].
  - split; [done|]. split.
    + intros ->. unfold polled, poll_applied in Hpoll. rewrite N.eqb_refl in Hpoll. by destruct (reached _ _).
    + right. exists i. split; [done|]. left. by exists e.
Qed.

Lemma barrier_inv_round i pending unreachable :
  NoDup members.*1 -> barrier_inv i pending unreachable ->
  barrier_inv (S i) (omap fst (bpoll (rounds i) <$> pending)) (unreachable ++ omap snd (bpoll (rounds i) <$> pending)).
Proof.
  intros Hm (Hs & Hn & Hd & Hu & Ha). destruct (round_sorted (rounds i) pending Hs) as [S1 S2].
  pose proof (StronglySorted_lt_NoDup _ Hs) as Hnd.
  assert (Hin : forall id m, (id, m) ∈ pending -> id ∈ pending.*1) by (intros id m ?; apply list_elem_of_fmap; by exists (id, m)).
  assert (Hkey : forall id, id ∈ (omap fst (bpoll (rounds i) <$> pending)).*1 ->
            exists m q, (id, m) ∈ pending /\ (bpoll (rounds i) (id, m)).1 = Some q).
  { intros id [[y b] [-> (m & Hm' & Hq)%round_pending]]%list_elem_of_fmap. by eauto. }
  split; [done|]. split; [|split; [|split]].
  - apply NoDup_app. split; [done|]. split; [|by apply StronglySorted_lt_NoDup].
    intros id Hi (m & Hpm & _)%round_named. by destruct (Hd id (Hin _ _ Hpm)).
  - intros id (m & q & Hpm & Hq)%Hkey. destruct (Hd id (Hin _ _ Hpm)) as [Hnu Hmem]. split; [|done].
    rewrite elem_of_app. intros [?|(m' & Hpm' & Hq')%round_named]; [done|].
    rewrite (assoc_unique _ _ _ _ Hnd Hpm Hpm') in Hq. apply barrier_poll_named in Hq' as [_ Hq']. congruence.
  - intros id [?|(m & Hpm & _)%round_named]%elem_of_app; [by apply Hu|]. by apply (Hd id), (Hin id m).
  - intros id addr Hmem. destruct (Ha id addr Hmem) as [(m & Hpm & Hw)|[[Hun Hh]|(Hnp & Hnu & Hc)]].
    + pose proof (waiting_poll i id addr m Hw) as Hpo. destruct (bpoll (rounds i) (id, m)) as [[[id' m']|] [id''|]] eqn:Hb; try done.
      * destruct Hpo as [-> Hw']. left. exists m'. split; [|done]. apply round_pending. exists m. by rewrite Hb.
      * destruct Hpo as [-> Hh]. right; left. split; [|done]. apply elem_of_app. right. apply round_named. exists m. by rewrite Hb.
      * right; right. destruct (Hd id (Hin _ _ Hpm)) as [Hnu _]. split; [|split; [|done]].
        -- intros (m' & q & Hpm' & Hq)%Hkey. rewrite <-(assoc_unique _ _ _ _ Hnd Hpm Hpm'), Hb in Hq. done.
        -- rewrite elem_of_app. intros [?|(m' & Hpm' & Hq)%round_named]; [done|].
           rewrite <-(assoc_unique _ _ _ _ Hnd Hpm Hpm'), Hb in Hq. done.
    + right; left. split; [set_solver|done].
    + right; right. split; [intros (m & q & Hpm & _)%Hkey; by apply Hnp, (Hin id m)|]. split; [|done].
      rewrite elem_of_app. intros [?|(m & Hpm & _)%round_named]; [done|]. by apply Hnp, (Hin id m).
Qed.

Lemma barrier_inv_start :
  StronglySorted N.lt members.*1 ->
  barrier_inv 0 (barrier_start me resolve members).1 (barrier_start me resolve members).2.
Proof.
  intros Hs. unfold barrier_start. simpl.
  set (f := fun p : NodeId * string => _ : option (NodeId * BarrierMember)). set (g := fun p : NodeId * string => _ : option NodeId).
  assert (Hf : forall p q, f p = Some q -> q.1 = p.1).
  { intros [id addr] q. subst f. simpl. destruct (id =? me)%N; [by intros [= <-]|]. destruct (resolve addr); [by intros [= <-]|done]. }
  assert (Hg : forall p i, g p = Some i -> i = p.1 /\ f p = None).
  { intros [id addr] q. subst f g. simpl. destruct (id =? me)%N; [done|]. destruct (resolve addr); [done|by intros [= <-]]. }
  assert (Hmem : forall p : NodeId * string, p ∈ members -> p.1 ∈ members.*1) by (intros p; apply list_elem_of_fmap_2).
  assert (Hu : forall p p' : NodeId * string, p ∈ members -> p' ∈ members -> p.1 = p'.1 -> p = p').
  { intros [i a] [j b] H1 H2 Heq. simpl in Heq. subst j. f_equal.
    by apply (assoc_unique members i); [apply StronglySorted_lt_NoDup| |]. }
  split; [by apply omap_keys_sorted|]. split; [|split; [|split]].
  - apply StronglySorted_lt_NoDup. rewrite <-(list_fmap_id (omap g members)). apply omap_keys_sorted; [|done].
    intros p q Hq. by apply Hg in Hq as [? _].
  - intros id [q [-> (p & Hp & Hq)%list_elem_of_omap]]%list_elem_of_fmap. split; [|rewrite (Hf _ _ Hq); by apply Hmem].
    intros (p' & Hp' & Hq')%list_elem_of_omap. destruct (Hg _ _ Hq') as [Heq Hn].
    rewrite (Hf _ _ Hq) in Heq. rewrite <-(Hu p p' Hp Hp' Heq) in Hn. congruence.
  - intros id (p & Hp & Hq)%list_elem_of_omap. apply Hg in Hq as [-> _]. by apply Hmem.
  - intros id addr Hin. destruct (f (id, addr)) as [[id' m]|] eqn:Hfp.
    + left. exists m. pose proof (Hf _ _ Hfp) as Hk. simpl in Hk. subst id'. split; [apply list_elem_of_omap; by exists (id, addr)|].
      subst f. simpl in Hfp. unfold waiting, peers_of. destruct (N.eqb_spec id me) as [Heq|Hne].
      * injection Hfp as <-. repeat split; simpl; [intros k Hk; lia|by left].
      * destruct (resolve addr) as [peers|]; [|done]. injection Hfp as <-. repeat split; simpl; [intros; lia|done|intros; lia].
    + right; left. subst f g. simpl in Hfp. destruct (N.eqb_spec id me) as [Heq|Hne]; [done|].
      destruct (resolve addr) as [peers|e] eqn:Hr; [done|]. split.
      * apply list_elem_of_omap. exists (id, addr). split; [done|]. rewrite Hr. destruct (N.eqb_spec id me); done.
      * split; [done|]. left. by exists e.
Qed.

(** The pause between rounds lasts: a round is looked at no sooner than it after the last. *)
Definition clock_advances : Prop :=
  forall i, (rd_checked (rounds i) < timeout)%N ->
    (rd_checked (rounds i) + N.min BARRIER_POLL_INTERVAL (timeout - rd_checked (rounds i)) <= rd_checked (rounds (S i)))%N.

Definition barrier_fuel : nat := S (N.to_nat (timeout / BARRIER_POLL_INTERVAL + 1)).

Lemma barrier_rounds_end (fuel i : nat) pending unreachable :
  NoDup members.*1 -> clock_advances -> barrier_inv i pending unreachable ->
  (timeout <= rd_checked (rounds i) + BARRIER_POLL_INTERVAL * N.of_nat fuel)%N ->
  exists n pending' unreachable',
    barrier_rounds decode me revision rounds timeout (S fuel) i pending unreachable = Some (barrier_finish pending' unreachable')
    /\ barrier_inv (S n) pending' unreachable' /\ (pending' = [] \/ (timeout <= rd_checked (rounds n))%N).
Proof.
  intros Hm Hc. revert i pending unreachable. induction fuel as [|fuel IH]; intros i pending unreachable Hinv Ht;
    apply barrier_inv_round in Hinv; try done; cbn [barrier_rounds];
    destruct (N.leb_spec timeout (rd_checked (rounds i))) as [Hle|Hlt].
  - rewrite orb_true_r. eexists i, _, _. split; [done|]. split; [exact Hinv|by right].
  - exfalso. lia.
  - rewrite orb_true_r. eexists i, _, _. split; [done|]. split; [exact Hinv|by right].
  - case_bool_decide as Hp; [eexists i, _, _; split; [done|]; split; [exact Hinv|by left]|]. apply (IH (S i)); [done|].
    specialize (Hc i Hlt). unfold BARRIER_POLL_INTERVAL in *. lia.
Qed.

(** The end of a member once the rounds are over. *)
Definition ended (o : BarrierOutcome) id addr : Prop :=
  (id ∈ bo_unapplied o /\ (id ∉ bo_unreachable o) /\ lagging id addr)
  \/ (id ∈ bo_unreachable o /\ (id ∉ bo_unapplied o) /\ unheard id addr)
  \/ ((id ∉ bo_unapplied o) /\ (id ∉ bo_unreachable o) /\ cleared id addr).

Lemma elem_of_finish pending unreachable id :
  (id ∈ bo_unapplied (barrier_finish pending unreachable) <-> exists m, (id, m) ∈ pending /\ bm_answered m = true)
  /\ (id ∈ bo_unreachable (barrier_finish pending unreachable) <->
        id ∈ unreachable \/ exists m, (id, m) ∈ pending /\ bm_answered m = false).
Proof.
  assert (Hk : forall b, id ∈ (filter (fun p : NodeId * BarrierMember => bm_answered p.2 = b) pending).*1 <->
                 exists m, (id, m) ∈ pending /\ bm_answered m = b).
  { intros b. rewrite list_elem_of_fmap. split.
    - intros ([i m] & -> & [Hb Hin]%list_elem_of_filter). by exists m.
    - intros (m & Hin & Hb). exists (id, m). split; [done|]. by apply list_elem_of_filter. }
  simpl. rewrite merge_sort_Permutation, elem_of_app, !Hk. done.
Qed.

Lemma finish_ended n pending unreachable id addr :
  barrier_inv (S n) pending unreachable -> (pending = [] \/ (timeout <= rd_checked (rounds n))%N) ->
  (id, addr) ∈ members -> ended (barrier_finish pending unreachable) id addr.
Proof.
  intros (Hs & _ & Hd & _ & Ha) Hend Hin. pose proof (StronglySorted_lt_NoDup _ Hs) as Hnd.
  destruct (elem_of_finish pending unreachable id) as [E1 E2]. unfold ended. rewrite E1, E2.
  assert (Hk : forall m, (id, m) ∈ pending -> id ∈ pending.*1) by (intros m ?; apply list_elem_of_fmap; by exists (id, m)).
  destruct (Ha id addr Hin) as [(m & Hpm & _ & Hu & Hw)|[[Hun Hh]|(Hnp & Hnu & Hc)]].
  - assert (Ht : (timeout <= rd_checked (rounds n))%N) by (destruct Hend as [->|?]; [by apply elem_of_nil in Hpm|done]).
    destruct (Hd id (Hk m Hpm)) as [Hnu _]. destruct (bm_answered m) eqn:Hb; [left|right; left].
    + split; [by eauto|]. split.
      * intros [?|(m' & Hpm' & Hb')]; [done|]. rewrite <-(assoc_unique _ _ _ _ Hnd Hpm Hpm') in Hb'. congruence.
      * exists n. split; [done|]. split; [intros k Hk'; apply Hu; lia|].
        destruct Hw as [?|(k & Hk' & ?)]; [by left|]. right. exists k. split; [lia|done].
    + destruct Hw as [Hne Hw]. split; [by eauto|]. split.
      * intros (m' & Hpm' & Hb'). rewrite <-(assoc_unique _ _ _ _ Hnd Hpm Hpm') in Hb'. congruence.
      * split; [done|]. right. exists n. split; [intros k Hk'; apply Hu; lia|]. right. split; [by right|].
        intros k Hk'. apply Hw. lia.
  - right; left. split; [by left|]. split; [|done]. intros (m & Hpm & _). by destruct (Hd id (Hk m Hpm)).
  - right; right. split; [intros (m & Hpm & _); by apply Hnp, (Hk m)|]. split; [|done].
    intros [?|(m & Hpm & _)]; [done|]. by apply Hnp, (Hk m).
Qed.
End rounds.

(** C30: the write barrier always ends, within its timeout in rounds a pause apart, and its answer
    is exact: both lists are sorted and name only members, and each member is either in
    [unapplied] alone (it answered, or is this node, was undecided in every round and waited
    for to the deadline), in [unreachable] alone (its name does not resolve, it refused, or it
    was silent in every round up to the unreachable window or the deadline), or in neither,
    and then in some round it reported the write applied or itself not ready. *)
Theorem barrier_exact {E} decode me revision (resolve : string -> result E (list string)) members rounds timeout :
  StronglySorted N.lt members.*1 -> clock_advances rounds timeout ->
  exists o, await_applied decode me revision resolve members rounds timeout (barrier_fuel timeout) = Some o
    /\ StronglySorted N.lt (bo_unapplied o) /\ StronglySorted N.lt (bo_unreachable o)
    /\ (forall id, id ∈ bo_unapplied o \/ id ∈ bo_unreachable o -> id ∈ members.*1)
    /\ forall id addr, (id, addr) ∈ members -> ended decode me revision resolve rounds timeout o id addr.
Proof.
  intros Hs Hc. pose proof (StronglySorted_lt_NoDup _ Hs) as Hm. unfold await_applied, barrier_fuel.
  pose proof (barrier_inv_start decode me revision resolve members rounds timeout Hs) as Hi.
  destruct (barrier_start me resolve members) as [pending unreachable]. simpl in Hi.
  destruct (barrier_rounds_end decode me revision resolve members rounds timeout
    (N.to_nat (timeout / BARRIER_POLL_INTERVAL + 1)) 0 pending unreachable Hm Hc Hi) as (n & p' & u' & -> & Hinv & Hend).
  { unfold BARRIER_POLL_INTERVAL. pose proof (N.div_mod timeout 25). pose proof (N.mod_lt timeout 25). lia. }
  eexists. split; [done|]. pose proof Hinv as (Hps & Hnu & Hd & Hun & _).
  assert (Hfin := elem_of_finish p' u'). split; [|split; [|split]].
  - unfold barrier_finish. simpl. rewrite omap_filter. apply omap_keys_sorted; [|done].
    intros [i m] q. by destruct (decide _); intros [= <-].
  - apply merge_sort_strict, NoDup_app. split; [done|]. split.
    + intros id Hu ([i m] & -> & [_ Hin]%list_elem_of_filter)%list_elem_of_fmap.
      destruct (Hd i); [apply list_elem_of_fmap; by exists (i, m)|done].
    + apply StronglySorted_lt_NoDup. rewrite omap_filter. apply omap_keys_sorted; [|done].
      intros [i m] q. by destruct (decide _); intros [= <-].
  - intros id. destruct (Hfin id) as [-> ->]. intros [(m & Hpm & _)|[?|(m & Hpm & _)]]; [|by apply Hun|];
      apply Hd, list_elem_of_fmap; by exists (id, m).
  - intros id addr Hin. by eapply finish_ended.
Qed.

(** ** Leaving *)

(** The evidence a turn of the loop has that this node is out. *)
Definition departed_at (decode : bytes -> result string bool) (t : LeaveTurn) : Prop :=
  lt_in_membership t = false
  \/ (lt_is_leader t = true /\ lt_evict t = Ok Removed)
  \/ (lt_is_leader t = false /\ exists authority body, lt_via t = Some (authority, Ok body) /\ decode body = Ok true).

Lemma leave_loop_spec decode turns last outcome :
  leave_loop decode turns last = Ok outcome ->
  exists before t after, turns = before ++ t :: after
    /\ Forall (fun t => lt_in_membership t = true /\ exists cause, leave_attempt decode t = Err cause) before
    /\ (outcome = Departed <-> departed_at decode t).
Proof.
  revert last. induction turns as [|t rest IH]; intros last; simpl; [done|].
  destruct (lt_in_membership t) eqn:Hm; simpl.
  - destruct (leave_attempt decode t) as [o|cause] eqn:Ha.
    + intros [= ->]. exists [], t, rest. split; [done|]. split; [constructor|]. unfold departed_at. rewrite Hm.
      unfold leave_attempt, leave_via in Ha. destruct (lt_is_leader t).
      * destruct (lt_evict t) as [[]|]; try done; injection Ha as <-.
        -- split; [by right; left|done].
        -- split; [done|]. intros [?|[[_ ?]|[? _]]]; congruence.
      * destruct (lt_via t) as [[authority [body|]]|]; try done. destruct (decode body) as [b|] eqn:Hd; [|done].
        injection Ha as <-. destruct b.
        -- split; [|done]. intros _. right; right. split; [done|]. by exists authority, body.
        -- split; [done|]. intros [?|[[? _]|(_ & a & b & [= -> ->] & ?)]]; congruence.
    + intros (before & t' & after & -> & Hb & Ho)%IH. exists (t :: before), t', after. split; [done|].
      split; [|done]. constructor; [by eauto|done].
  - intros [= <-]. exists [], t, rest. split; [done|]. split; [constructor|]. split; [by left|done].
Qed.

(** A node reports it has departed only on evidence: its own membership no longer lists it, it
    led and its eviction was carried out, or the leader it asked answered that it evicted it;
    every turn before that one failed. A refusal by the voter floor, and a sole voter, are
    reported as retained. *)
Theorem leave_departed decode listed sole turns last :
  leave decode listed sole turns last = Ok Departed ->
  listed = false
  \/ (sole = false /\ exists before t after, turns = before ++ t :: after
       /\ Forall (fun t => lt_in_membership t = true /\ exists cause, leave_attempt decode t = Err cause) before
       /\ departed_at decode t).
Proof.
  unfold leave. destruct listed; [|by left]. simpl. destruct sole; [done|].
  destruct (leave_loop decode turns last) as [o|] eqn:Hl; [|done]. intros [= ->]. right. split; [done|].
  apply leave_loop_spec in Hl as (before & t & after & ? & ? & Ho). exists before, t, after.
  split; [done|]. split; [done|]. by apply Ho.
Qed.

(** The first answer that proves the removal is the evidence, and nothing else is. *)
Lemma removal_evidence_spec decode me own answers :
  match removal_evidence decode me own answers with
  | Some ev => exists body view, (re_peer ev, Ok body) ∈ answers /\ decode body = Some view
      /\ (own < mv_m_idx view)%N /\ (me ∉ mv_members view)
      /\ ev = {| re_peer := re_peer ev; re_peer_node_id := mv_node_id view; re_peer_m_idx := mv_m_idx view; re_own_m_idx := own |}
  | None => forall peer body view, (peer, Ok body) ∈ answers -> decode body = Some view -> removed_from view me own = false
  end.
Proof.
  induction answers as [|[target [body|e]] rest IH]; simpl; [by intros ? ? ? ?%elem_of_nil| |].
  - destruct (decode body) as [view|] eqn:Hd.
    + destruct (removed_from view me own) eqn:Hr.
      * unfold removed_from in Hr. apply andb_true_iff in Hr as [Hlt Hn]. apply N.ltb_lt in Hlt.
        apply negb_true_iff, bool_decide_eq_false in Hn. exists body, view. repeat split; try done. apply list_elem_of_here.
      * destruct (removal_evidence decode me own rest) as [ev|].
        -- destruct IH as (b & v & Hin & ?). exists b, v. split; [by apply elem_of_cons; right|done].
        -- intros peer b v [[= -> ->]|Hin]%elem_of_cons Hv; [congruence|]. by eapply IH.
    + destruct (removal_evidence decode me own rest) as [ev|].
      * destruct IH as (b & v & Hin & ?). exists b, v. split; [by apply elem_of_cons; right|done].
      * intros peer b v [[= -> ->]|Hin]%elem_of_cons Hv; [congruence|]. by eapply IH.
  - destruct (removal_evidence decode me own rest) as [ev|].
    + destruct IH as (b & v & Hin & ?). exists b, v. split; [by apply elem_of_cons; right|done].
    + intros peer b v [?|Hin]%elem_of_cons Hv; [done|]. by eapply IH.
Qed.

(** ** The election hold *)

(** Two threads, each its sections still to run, one section at a time. *)
Inductive hold_step : ElectionHold * list HoldOp * list HoldOp -> ElectionHold * list HoldOp * list HoldOp -> Prop :=
  | hold_caller h op caller grace :
      hold_step (h, op :: caller, grace) ((hold_op h op).1, (hold_op h op).2 ++ caller, grace)
  | hold_grace h op caller grace :
      hold_step (h, caller, op :: grace) ((hold_op h op).1, caller, (hold_op h op).2 ++ grace).

(** Every state a run may end in. *)
Fixpoint finals (fuel : nat) (h : ElectionHold) (caller grace : list HoldOp) : list ElectionHold :=
  match fuel with
  | O => []
  | S fuel =>
      match caller, grace with
      | [], [] => [h]
      | _, _ =>
          match caller with
          | [] => []
          | op :: caller => finals fuel (hold_op h op).1 ((hold_op h op).2 ++ caller) grace
          end
          ++ match grace with
             | [] => []
             | op :: grace => finals fuel (hold_op h op).1 caller ((hold_op h op).2 ++ grace)
             end
      end
  end.

Definition cost (op : HoldOp) : nat := match op with ElectUnlessHeld | ElectIfGraceOver => 2 | _ => 1 end.
Fixpoint weight (ops : list HoldOp) : nat := match ops with [] => 0 | op :: ops => cost op + weight ops end.

Lemma weight_op h op rest : weight ((hold_op h op).2 ++ rest) < weight (op :: rest).
Proof. destruct op; simpl; [| | |destruct (eh_held h)|destruct (eh_grace_over h)]; simpl; lia. Qed.

Lemma finals_complete fuel : forall h caller grace h',
  weight caller + weight grace < fuel ->
  rtc hold_step (h, caller, grace) (h', [], []) -> h' ∈ finals fuel h caller grace.
Proof.
  induction fuel as [|fuel IH]; intros h caller grace h' Hw Hr; [lia|]. inversion Hr as [|? y ? Hs Hr']; subst.
  - simpl. apply list_elem_of_here.
  - inversion Hs as [? op caller' ?|? op ? grace']; subst; pose proof (weight_op h op) as Hlt; cbn [finals].
    + apply elem_of_app. left. apply IH; [|done]. specialize (Hlt caller'). lia.
    + destruct caller as [|op' caller']; [apply elem_of_app; right|apply elem_of_app; right];
        (apply IH; [specialize (Hlt grace'); lia|done]).
Qed.

(** A node just restarted: the grace has begun, nobody holds. *)
Definition restarted : ElectionHold := {| eh_held := false; eh_grace_over := false; eh_elect := false |}.

(** However the end of the restart grace interleaves with a caller that holds elections and
    then releases them, once both are through elections are on; and a grace that ends before
    the hold begins, or after it was taken, leaves them off until the release. *)
Theorem elections_resume h :
  (rtc hold_step (restarted, hold_elections ++ release_elections, release_grace) (h, [], []) ->
   h = {| eh_held := false; eh_grace_over := true; eh_elect := true |})
  /\ (rtc hold_step ({| eh_held := true; eh_grace_over := false; eh_elect := false |}, [], release_grace) (h, [], []) ->
      eh_elect h = false)
  /\ (rtc hold_step ({| eh_held := false; eh_grace_over := true; eh_elect := true |}, hold_elections, []) (h, [], []) ->
      eh_elect h = false).
Proof.
  split; [|split]; intros Hr; (apply (finals_complete 12) in Hr; [|apply Nat.ltb_lt; vm_compute; reflexivity]); vm_compute in Hr;
    repeat (apply elem_of_cons in Hr as [->|Hr]; [reflexivity|]); by apply elem_of_nil in Hr.
Qed.

(** The hold can be lost: a grace that read [held] before the hold was stored, and acts after
    the hold switched elections off, switches them on with the hold in place. *)
Lemma hold_raced_by_grace :
  rtc hold_step (restarted, hold_elections, release_grace)
    ({| eh_held := true; eh_grace_over := true; eh_elect := true |}, [], []).
Proof.
  eapply rtc_l; [apply hold_grace|]. eapply rtc_l; [apply hold_grace|]. simpl.
  eapply rtc_l; [apply hold_caller|]. eapply rtc_l; [apply hold_caller|]. eapply rtc_l; [apply hold_grace|]. apply rtc_refl.
Qed.

(** ** Witnesses *)

(** Three members: this node, one that stays behind, one whose name is gone. *)
Definition demo_members : list (NodeId * string) := [(1, "a"); (2, "b"); (3, "c")]%N%string.
Definition demo_resolve (addr : string) : result string (list string) :=
  if String.eqb addr "c" then Err "no record"%string else Ok [addr].
Definition demo_decode (body : bytes) : result string AppliedReply :=
  Ok {| ap_applied := Some (N.of_nat (length body)); ap_ready := Some true |}.
Definition demo_rounds (i : nat) : Round :=
  {| rd_own := Some 7%N; rd_answer := fun _ _ => Ok (as_bytes "four"); rd_polled := 25 * N.of_nat i; rd_checked := 25 * N.of_nat i |}.

Lemma barrier_exact_witness :
  await_applied demo_decode 1 7 demo_resolve demo_members demo_rounds 100 (barrier_fuel 100)
    = Some {| bo_unapplied := [2%N]; bo_unreachable := [3%N] |}
  /\ ended demo_decode 1 7 demo_resolve demo_rounds 100 {| bo_unapplied := [2%N]; bo_unreachable := [3%N] |} 2 "b".
Proof.
  destruct (barrier_exact demo_decode 1 7 demo_resolve demo_members demo_rounds 100) as (o & Ho & _ & _ & _ & Hend).
  - apply (bool_decide_unpack _). vm_compute. exact I.
  - intros i. unfold demo_rounds, BARRIER_POLL_INTERVAL. simpl. lia.
  - assert (Hc : await_applied demo_decode 1 7 demo_resolve demo_members demo_rounds 100 (barrier_fuel 100)
      = Some {| bo_unapplied := [2%N]; bo_unreachable := [3%N] |}) by (vm_compute; reflexivity).
    split; [exact Hc|]. rewrite Hc in Ho. injection Ho as <-. apply Hend.
    apply (bool_decide_unpack _). vm_compute. exact I.
Defined.

(** A leader whose first eviction fails and whose second is carried out. *)
Definition leave_turns : list LeaveTurn :=
  [{| lt_in_membership := true; lt_is_leader := true; lt_evict := Err RpcTimeout; lt_via := None |};
   {| lt_in_membership := true; lt_is_leader := true; lt_evict := Ok Removed; lt_via := None |}].

Lemma leave_departed_witness :
  leave (fun _ => Ok true) true false leave_turns None = Ok Departed
  /\ exists before t after, leave_turns = before ++ t :: after /\ departed_at (fun _ => Ok true) t.
Proof.
  assert (H : leave (fun _ => Ok true) true false leave_turns None = Ok Departed) by reflexivity.
  split; [exact H|]. destruct (leave_departed _ _ _ _ _ H) as [Hx|(_ & before & t & after & H1 & _ & H2)]; [discriminate Hx|].
  exists before, t, after. split; assumption.
Defined.

Lemma elections_resume_witness :
  exists h, rtc hold_step (restarted, hold_elections ++ release_elections, release_grace) (h, [], [])
    /\ eh_elect h = true.
Proof.
  assert (Hr : rtc hold_step (restarted, hold_elections ++ release_elections, release_grace)
                 ({| eh_held := false; eh_grace_over := true; eh_elect := true |}, [], [])).
  { eapply rtc_l; [apply hold_grace|]. eapply rtc_l; [apply hold_caller|]. eapply rtc_l; [apply hold_grace|]. simpl.
    eapply rtc_l; [apply hold_caller|]. eapply rtc_l; [apply hold_caller|]. eapply rtc_l; [apply hold_caller|]. simpl.
    eapply rtc_l; [apply hold_caller|]. apply rtc_refl. }
  eexists. split; [exact Hr|]. exact (f_equal eh_elect (proj1 (elections_resume _) Hr)).
Defined.
