(* ===== verification/FlowConfig.v ===== *)
(** * Per-imposter knobs: [stores/flow_config.rs], and the modes of [stores/sequencer.rs]

    The strict parser of [_rift.flowState], the scoping of flow ids, the published
    knobs with their provenance, and the sequencing mode with its registry. The
    theorems: scoped flow ids of two imposters, or of an imposter and the fleet,
    never meet; a scoped id gives back its port; what the parser accepts. *)

From S2P Require Import Prelude Upstream.

(** ** [stores/shard.rs]: the durability of a write *)

Module Durability.

Inductive t :=
  | DNone
  | Async
  | Sync.

End Durability.

Global Instance Durability_eq_dec : EqDecision Durability.t.
Proof. solve_decision. Defined.

Module ReadConsistency.

Inductive t :=
  | Strong
  | Local.

End ReadConsistency.

Module ContextScope.

Inductive t :=
  | Imposter
  | Fleet.

Definition prefix_for (s : t) (port : option N) : string :=
  match s, port with
  | Fleet, _ => "f:"
  | Imposter, Some port => "i" +:+ pretty port +:+ ":"
  | Imposter, None => "i?:"
  end.

Definition scoped_flow_id (s : t) (port : option N) (flow_id : string) : string :=
  prefix_for s port +:+ flow_id.

End ContextScope.

Record FlowConfig := {
  fc_read_consistency : ReadConsistency.t;
  fc_durability : Durability.t;
  fc_ttl_seconds : option Z;
  fc_scope : ContextScope.t;
}.

Definition FlowConfig_default : FlowConfig :=
  {| fc_read_consistency := ReadConsistency.Strong;
     fc_durability := Durability.Async;
     fc_ttl_seconds := Some 300%Z;
     fc_scope := ContextScope.Imposter |}.

Definition KEY_READ_CONSISTENCY : string := "readConsistency".
Definition KEY_DURABILITY : string := "durability".
Definition KEY_CONTEXT_SCOPE : string := "contextScope".

(** A string literal of the messages, in double quotes. *)
Definition dq (s : string) : string := String quote_char (s +:+ String quote_char EmptyString).

Definition parse_read_consistency (extra : gmap string Value) : result string ReadConsistency.t :=
  match extra !! KEY_READ_CONSISTENCY with
  | None => Ok ReadConsistency.Strong
  | Some value =>
      if decide (as_str value = Some "strong") then Ok ReadConsistency.Strong
      else if decide (as_str value = Some "local") then Ok ReadConsistency.Local
      else Err ("flowState." +:+ KEY_READ_CONSISTENCY +:+ " must be " +:+ dq "strong" +:+ " or "
                +:+ dq "local" +:+ ", got " +:+ display_value value)
  end.

Definition parse_durability (extra : gmap string Value) : result string Durability.t :=
  match extra !! KEY_DURABILITY with
  | None => Ok Durability.Async
  | Some value =>
      if decide (as_str value = Some "none") then Ok Durability.DNone
      else if decide (as_str value = Some "async") then Ok Durability.Async
      else if decide (as_str value = Some "sync") then Ok Durability.Sync
      else Err ("flowState." +:+ KEY_DURABILITY +:+ " must be " +:+ dq "none" +:+ ", "
                +:+ dq "async" +:+ " or " +:+ dq "sync" +:+ ", got " +:+ display_value value)
  end.

Definition parse_scope (extra : gmap string Value) : result string ContextScope.t :=
  match extra !! KEY_CONTEXT_SCOPE with
  | None => Ok ContextScope.Imposter
  | Some value =>
      if decide (as_str value = Some "imposter") then Ok ContextScope.Imposter
      else if decide (as_str value = Some "fleet") then Ok ContextScope.Fleet
      else if decide (as_str value = Some "tenant") then
        Err ("flowState." +:+ KEY_CONTEXT_SCOPE +:+ ": " +:+ dq "tenant"
             +:+ " no longer exists — the fleet has no tenants since #550. Use "
             +:+ dq "imposter" +:+ " (per-imposter namespace) or " +:+ dq "fleet"
             +:+ " (one namespace for the whole fleet).")
      else Err ("flowState." +:+ KEY_CONTEXT_SCOPE +:+ " must be " +:+ dq "imposter" +:+ " or "
                +:+ dq "fleet" +:+ ", got " +:+ display_value value)
  end.

Definition flow_state_of (config : ImposterConfig) : option FlowState :=
  cfg_rift config ≫= rift_flow_state.

Definition FlowConfig_from_imposter (config : ImposterConfig) : result string FlowConfig :=
  match flow_state_of config with
  | None => Ok FlowConfig_default
  | Some flow_state =>
      read_consistency ← parse_read_consistency (fs_extra flow_state);
      durability ← parse_durability (fs_extra flow_state);
      scope ← parse_scope (fs_extra flow_state);
      Ok {| fc_read_consistency := read_consistency;
            fc_durability := durability;
            fc_ttl_seconds := if (0 <? fs_ttl_seconds flow_state)%Z
                              then Some (fs_ttl_seconds flow_state) else None;
            fc_scope := scope |}
  end.

Definition FlowConfig_validate (config : ImposterConfig) : result string () :=
  (fun _ => tt) <$> FlowConfig_from_imposter config.

(** ** The published knobs *)

Module KnobSource.

Inductive t :=
  | Default
  | Set_.

Definition of_present (present : bool) : t := if present then Set_ else Default.

Definition as_str (k : t) : string :=
  match k with Default => "default" | Set_ => "set" end.

End KnobSource.

Record Knob (A : Type) := { knob_value : A; knob_source : KnobSource.t }.
Arguments knob_value {A} _.
Arguments knob_source {A} _.
Arguments Build_Knob {A} _ _.

Record ResolvedKnobs := {
  rk_durability : Knob Durability.t;
  rk_read_consistency : Knob ReadConsistency.t;
  rk_flow_id_source : Knob string;
}.

Definition DEFAULT_FLOW_ID_SOURCE : string := "imposter_port".

Definition ResolvedKnobs_from_imposter (config : ImposterConfig) : result string ResolvedKnobs :=
  parsed ← FlowConfig_from_imposter config;
  let flow_state := flow_state_of config in
  let present key :=
    match flow_state with Some fs => bool_decide (is_Some (fs_extra fs !! key)) | None => false end in
  let flow_id_source := flow_state ≫= fs_flow_id_source in
  Ok {| rk_durability := Build_Knob (fc_durability parsed) (KnobSource.of_present (present KEY_DURABILITY));
        rk_read_consistency :=
          Build_Knob (fc_read_consistency parsed) (KnobSource.of_present (present KEY_READ_CONSISTENCY));
        rk_flow_id_source :=
          Build_Knob (default DEFAULT_FLOW_ID_SOURCE flow_id_source)
                     (KnobSource.of_present (bool_decide (is_Some flow_id_source))) |}.

(** ** [stores/flow.rs]: the port of a scoped id *)

Definition imposter_port (scoped_flow_id : string) : option N :=
  rest ← strip_prefix "i" scoped_flow_id;
  '(port, _) ← split_once ":" rest;
  parse_u16 port.

(** ** [stores/sequencer.rs]: sequencing modes *)

Module SequencingMode.

Inductive t :=
  | Local
  | Owner.

Definition from_imposter (config : ImposterConfig) : result string t :=
  match cfg_rift config ≫= rift_sequencing with
  | None => Ok Local
  | Some mode =>
      match mode with
      | None => Ok Local
      | Some m =>
          if String.eqb m "local" then Ok Local
          else if String.eqb m "owner" then Ok Owner
          else Err ("sequencing.mode must be " +:+ dq "local" +:+ " or " +:+ dq "owner"
                    +:+ ", got " +:+ debug_str m)
      end
  end.

End SequencingMode.

Module SequencingRegistry.

Abbreviation t := (gmap N SequencingMode.t).

Definition mode_of (config : ImposterConfig) : SequencingMode.t :=
  match SequencingMode.from_imposter config with
  | Ok m => m
  | Err _ => SequencingMode.Local
  end.

Definition insert_config (modes : t) (config : ImposterConfig) : t :=
  match cfg_port config with
  | Some port => <[port := mode_of config]> modes
  | None => modes
  end.

Definition apply_holding (modes : t) (desired : list ImposterConfig) (held : gset N) : t :=
  foldl insert_config (filter (fun kv : N * SequencingMode.t => kv.1 ∈ held) modes) desired.

Definition apply (modes : t) (desired : list ImposterConfig) : t :=
  apply_holding modes desired (list_to_set (omap cfg_port desired)).

Definition set (modes : t) (port : N) (config : ImposterConfig) : t :=
  <[port := mode_of config]> modes.

Definition remove (modes : t) (port : N) : t := delete port modes.

Definition mode (modes : t) (port : N) : SequencingMode.t :=
  default SequencingMode.Local (modes !! port).

End SequencingRegistry.

(** ** Namespaces *)

(** Two strings of digits followed by a colon agree digit by digit. *)
Lemma digits_colon_inj a b c d :
  string_forallb is_ascii_digit a = true -> string_forallb is_ascii_digit b = true ->
  a +:+ ":" +:+ c = b +:+ ":" +:+ d -> a = b /\ c = d.
Proof.
  revert b. induction a as [|x a IH]; intros b Ha Hb H.
  - destruct b as [|y b].
    + split; [done|]. by apply (append_inj_r ":").
    + simpl in H. injection H as Hy _. subst. simpl in Hb. by destruct (is_ascii_digit ":").
  - simpl in Ha. apply andb_true_iff in Ha as [Hx Ha]. destruct b as [|y b].
    + simpl in H. injection H as Hy _. subst. discriminate Hx.
    + simpl in Hb, H. apply andb_true_iff in Hb as [_ Hb]. injection H as -> H.
      destruct (IH b Ha Hb H) as [-> ->]. done.
Qed.

(** Flow-id namespaces are disjoint by construction. Two scoped ids coincide only
    if they are the same flow id under the same scope and, for imposter-scoped ids,
    the same port: no caller-chosen flow id can name another imposter's flow or a
    fleet flow. *)
Theorem scoped_flow_id_inj s port flow s' port' flow' :
  ContextScope.scoped_flow_id s port flow = ContextScope.scoped_flow_id s' port' flow' ->
  s = s' /\ flow = flow' /\ (s = ContextScope.Imposter -> port = port').
Proof.
  unfold ContextScope.scoped_flow_id, ContextScope.prefix_for.
  destruct s, s', port as [p|], port' as [p'|]; intros H; try discriminate H;
    try (split_and!; [done|by apply append_inj_r in H|done]).
  - injection H as H. destruct (digits_colon_inj (pretty p) (pretty p') flow flow') as [Hp Hf];
      [apply digits_pretty..| |].
    + by rewrite !append_assoc in H.
    + split_and!; [done..|]. intros _. f_equal. by apply (inj pretty).
  - exfalso. injection H as H. pose proof (digits_pretty p) as Hd. pose proof (pretty_N_nonempty p) as Hn.
    destruct (pretty p) as [|c r]; [done|]. simpl in H. injection H as -> _. discriminate Hd.
  - exfalso. injection H as H. pose proof (digits_pretty p') as Hd. pose proof (pretty_N_nonempty p') as Hn.
    destruct (pretty p') as [|c r]; [done|]. simpl in H. injection H as <- _. discriminate Hd.
Qed.

Lemma scoped_flow_id_inj_witness :
  ContextScope.scoped_flow_id ContextScope.Imposter (Some 6400%N) "cart"
    = ContextScope.scoped_flow_id ContextScope.Imposter (Some 6400%N) "cart" /\ "cart" = "cart".
Proof.
  split; [reflexivity|].
  apply (scoped_flow_id_inj ContextScope.Imposter (Some 6400%N) "cart" ContextScope.Imposter (Some 6400%N) "cart").
  reflexivity.
Defined.

(** The port a scoped id was built from can be read back, whatever the flow id
    holds; a fleet-scoped id and the portless placeholder belong to no port. *)
Theorem imposter_port_scoped s port flow :
  match port with Some p => (p <= u16_max)%N | None => True end ->
  imposter_port (ContextScope.scoped_flow_id s port flow)
  = match s with ContextScope.Imposter => port | ContextScope.Fleet => None end.
Proof.
  unfold ContextScope.scoped_flow_id, ContextScope.prefix_for, imposter_port.
  destruct s, port as [p|]; intros Hp; try done.
  rewrite !append_assoc, strip_prefix_app. cbn [mbind option_bind].
  rewrite split_once_app.
  - cbn [mbind option_bind]. unfold parse_u16. by apply from_str_radix_pretty.
  - eapply string_forallb_impl; [|apply digits_pretty]. intros c.
    destruct (Ascii.eqb_spec ":" c) as [<-|]; [|done]. intros H. discriminate H.
Qed.

Lemma imposter_port_scoped_witness :
  imposter_port (ContextScope.scoped_flow_id ContextScope.Imposter (Some 6400%N) "i7000:x") = Some 6400%N.
Proof. apply (imposter_port_scoped ContextScope.Imposter (Some 6400%N) "i7000:x"). vm_compute. discriminate. Defined.
