(* ===== verification/Control.v ===== *)
(** * The control-plane op set: [control.rs]

    The log entry's request and op types, the pure validation the state machine
    runs before it mutates anything, the stub edit scripts, the precondition
    targets, the recorded-response wire form, the admission verdict and the
    entry-size bound. *)

From S2P Require Import Prelude Upstream FlowConfig.

(** ** Data *)

Module Restart.

Inductive t :=
  | StubAt (index : nat)
  | AllStubs
  | Imposter
  | Unknown.

End Restart.

Global Instance Restart_eq_dec : EqDecision Restart.t.
Proof. solve_decision. Defined.

Module Placement.

Inductive t :=
  | BeforeProxy
  | AfterProxyMerging.

End Placement.

Global Instance Placement_eq_dec : EqDecision Placement.t.
Proof. solve_decision. Defined.

Record RecordedStub := {
  rs_stub : Stub;
  rs_placement : Placement.t;
  rs_proxy_to : string;
  rs_anchor_index : option nat;
}.

Record SessionKey := { sk_key : string; sk_revision : N }.

Inductive StubEdit :=
  | Add (stub : Stub) (index : option nat)
  | ReplaceById (id : string) (stub : Stub)
  | DeleteById (id : string)
  | DeleteBySpace (space : string)
  | Move (from to : nat).

Abbreviation StubEditScript := (list StubEdit).

Inductive ControlOp :=
  | PutImposter (config : ImposterConfig) (restart : option Restart.t)
  | PatchStubs (port : N) (edit : StubEditScript)
  | DeleteImposter (port : N)
  | DeleteAll
  | SetEnabled (port : N) (enabled : bool)
  | PutRoutes (table : RouteTable)
  | DeleteRoute (id : string)
  | SessionKeyPut (key : string)
  | FleetNamePut (name : string)
  | ProxyRecorded (port : N) (sig_hash : string) (resp : RecordedResponse) (stub : option RecordedStub)
  | ProxyRecordedClear (port : N).

(** The op id is the text of its UUID, the key it is deduplicated under. *)
Record ControlRequest := {
  op_id : string;
  principal : option string;
  issued_at_secs : N;
  expected_revision : option N;
  expect_absent : bool;
  op : ControlOp;
}.

Inductive ControlOutcome :=
  | Applied
  | Failed (reason : string).

Record ControlResponse := { cr_revision : N; cr_outcome : ControlOutcome }.

Definition response_applied (revision : N) : ControlResponse :=
  {| cr_revision := revision; cr_outcome := Applied |}.

Definition response_failed (revision : N) (reason : string) : ControlResponse :=
  {| cr_revision := revision; cr_outcome := Failed reason |}.

Global Instance ControlOutcome_eq_dec : EqDecision ControlOutcome.
Proof. solve_decision. Defined.

Global Instance ControlResponse_eq_dec : EqDecision ControlResponse.
Proof. solve_decision. Defined.

Definition op_kind (o : ControlOp) : string :=
  match o with
  | PutImposter _ _ => "PutImposter"
  | PatchStubs _ _ => "PatchStubs"
  | DeleteImposter _ => "DeleteImposter"
  | DeleteAll => "DeleteAll"
  | SetEnabled _ _ => "SetEnabled"
  | PutRoutes _ => "PutRoutes"
  | DeleteRoute _ => "DeleteRoute"
  | SessionKeyPut _ => "SessionKeyPut"
  | FleetNamePut _ => "FleetNamePut"
  | ProxyRecorded _ _ _ _ => "ProxyRecorded"
  | ProxyRecordedClear _ => "ProxyRecordedClear"
  end.

Definition SESSION_KEY_BYTES : nat := 32.
Definition MAX_LOG_PAYLOAD_BYTES : N := 10485760.
Definition MAX_ENTRY_BYTES : N := 8388608.
Definition MAX_FLEET_NAME_CHARS : N := 128.

(** ** Text of a fleet name

    On the UTF-8 bytes: a character starts at every byte that is not a
    continuation byte. *)

Definition is_continuation (c : ascii) : bool :=
  let n := N_of_ascii c in (128 <=? n)%N && (n <? 192)%N.

Fixpoint chars_count (s : string) : N :=
  match s with
  | EmptyString => 0
  | String c s' => ((if is_continuation c then 0 else 1) + chars_count s')%N
  end.

(** [char::is_control]: U+0000-U+001F, U+007F and U+0080-U+009F. *)
Fixpoint has_control (s : string) : bool :=
  match s with
  | EmptyString => false
  | String c s' =>
      let n := N_of_ascii c in
      (n <? 32)%N || (n =? 127)%N
      || match s' with
         | String d _ => (n =? 194)%N && (N_of_ascii d <? 160)%N
         | EmptyString => false
         end
      || has_control s'
  end.

(** [name.trim().is_empty()]: every character has the [White_Space] property. *)
Fixpoint is_blank (s : string) : bool :=
  match s with
  | EmptyString => true
  | String a s1 =>
      let n := N_of_ascii a in
      if (9 <=? n)%N && (n <=? 13)%N || (n =? 32)%N then is_blank s1
      else match s1 with
      | EmptyString => false
      | String b s2 =>
          let m := N_of_ascii b in
          if (n =? 194)%N && ((m =? 133)%N || (m =? 160)%N) then is_blank s2
          else match s2 with
          | EmptyString => false
          | String c s3 =>
              let k := N_of_ascii c in
              if (n =? 225)%N && (m =? 154)%N && (k =? 128)%N
                 || (n =? 226)%N && (m =? 128)%N
                    && ((k <=? 138)%N || (k =? 168)%N || (k =? 169)%N || (k =? 175)%N)
                 || (n =? 226)%N && (m =? 129)%N && (k =? 159)%N
                 || (n =? 227)%N && (m =? 128)%N && (k =? 128)%N
              then is_blank s3 else false
          end
      end
  end.

(** ** Validation *)

Definition control_hex_decode (s : string) : option bytes :=
  if Nat.even (String.length s) then
    if string_forallb is_ascii_hexdigit s then hex_pairs s else None
  else None.

(** The loop over explicit ids, with the set of ids seen so far. *)
Fixpoint check_stub_ids (ids : gset string) (ss : list Stub) : result string () :=
  match ss with
  | [] => Ok tt
  | s :: ss' =>
      match stub_id s with
      | Some id =>
          if decide (id ∈ ids) then Err ("duplicate stub id " +:+ debug_str id)
          else check_stub_ids ({[id]} ∪ ids) ss'
      | None => check_stub_ids ids ss'
      end
  end.

Definition validate_replicable_config (config : ImposterConfig) : result string () :=
  if match cfg_port config with None => true | Some p => (p =? 0)%N end then
    Err "config must carry an explicit port: an auto-assigned port cannot replicate"
  else if String.eqb (cfg_protocol config) "http" || String.eqb (cfg_protocol config) "https" then
    match check_stub_ids ∅ (cfg_stubs config) with
    | Err e => Err e
    | Ok _ => FlowConfig_validate config
    end
  else Err ("unsupported protocol " +:+ debug_str (cfg_protocol config)).

Definition validate_session_key (key : string) : result string () :=
  match control_hex_decode key with
  | None => Err "session key must be hex-encoded"
  | Some decoded =>
      if (length decoded =? SESSION_KEY_BYTES)%nat then Ok tt
      else Err ("session key must be exactly " +:+ pretty SESSION_KEY_BYTES +:+ " bytes, got "
                +:+ pretty (length decoded))
  end.

Definition validate_fleet_name (name : string) : result string () :=
  if is_blank name then
    Err "fleet name must not be empty or whitespace-only: a name a human cannot read is the same confusion as no name at all"
  else if (MAX_FLEET_NAME_CHARS <? chars_count name)%N then
    Err ("fleet name is " +:+ pretty (chars_count name) +:+ " characters, over the "
         +:+ pretty MAX_FLEET_NAME_CHARS +:+ " character cap")
  else if has_control name then
    Err "fleet name must not contain control characters: one could corrupt a log line, a terminal, or the console's own chrome"
  else Ok tt.

Definition validate_recording (port : N) (sig_hash : string) (resp : RecordedResponse)
    (stub : option RecordedStub) : result string () :=
  if (port =? 0)%N then Err "port must be non-zero: 0 addresses no imposter"
  else if String.eqb sig_hash EmptyString || bool_decide (control_hex_decode sig_hash = None) then
    Err "sigHash must be a non-empty hex string"
  else if (MAX_LOG_PAYLOAD_BYTES <? N.of_nat (length (rr_body resp)))%N then
    Err ("recorded response body exceeds the " +:+ pretty MAX_LOG_PAYLOAD_BYTES
         +:+ "-byte log entry bound")
  else if match stub with Some r => String.eqb (rs_proxy_to r) EmptyString | None => false end then
    Err "proxyTo must not be empty: placement is resolved against the proxy stub it names"
  else Ok tt.

Definition validate `{EngineRules} (o : ControlOp) : result string () :=
  match o with
  | PutImposter config _ => validate_replicable_config config
  | PatchStubs _ _ | DeleteImposter _ | DeleteAll | SetEnabled _ _ | DeleteRoute _ => Ok tt
  | PutRoutes table => route_table_validate table
  | SessionKeyPut key => validate_session_key key
  | FleetNamePut name => validate_fleet_name name
  | ProxyRecorded port sig_hash resp stub => validate_recording port sig_hash resp stub
  | ProxyRecordedClear port =>
      if (port =? 0)%N then Err "port must be non-zero: 0 addresses no imposter to clear" else Ok tt
  end.

(** ** Preconditions *)

Module PreconditionTarget.

Inductive t :=
  | Imposter (port : N)
  | RouteTable.

End PreconditionTarget.

Definition precondition_target (o : ControlOp) : option PreconditionTarget.t :=
  match o with
  | PutImposter config _ => PreconditionTarget.Imposter <$> cfg_port config
  | PatchStubs port _ | DeleteImposter port | SetEnabled port _ =>
      Some (PreconditionTarget.Imposter port)
  | PutRoutes _ | DeleteRoute _ => Some PreconditionTarget.RouteTable
  | DeleteAll | SessionKeyPut _ | FleetNamePut _ | ProxyRecorded _ _ _ _ | ProxyRecordedClear _ => None
  end.

(** ** Stub edits *)

Definition adds_content (e : StubEdit) : bool :=
  match e with Add _ _ | ReplaceById _ _ => true | _ => false end.

Definition has_id (id : string) (s : Stub) : bool := bool_decide (stub_id s = Some id).

Definition in_space (space : string) (s : Stub) : Prop := stub_space s = Some space.

Global Instance in_space_dec space s : Decision (in_space space s).
Proof. unfold in_space. apply _. Defined.

Definition edit_step (next : list Stub) (step : StubEdit) : result string (list Stub) :=
  match step with
  | Add stub index =>
      match stub_id stub with
      | Some id =>
          if existsb (has_id id) next then Err ("add: duplicate stub id " +:+ debug_str id)
          else Ok (vec_insert (Nat.min (default (length next) index) (length next)) stub next)
      | None => Ok (vec_insert (Nat.min (default (length next) index) (length next)) stub next)
      end
  | ReplaceById id stub =>
      match position (has_id id) next with
      | None => Err ("replace: no stub with id " +:+ debug_str id)
      | Some i => Ok (<[i := with_id stub id]> next)
      end
  | DeleteById id =>
      match position (has_id id) next with
      | None => Err ("delete: no stub with id " +:+ debug_str id)
      | Some i => Ok (vec_remove i next)
      end
  | DeleteBySpace space => Ok (filter (fun s => ~ in_space space s) next)
  | Move from to =>
      let len := length next in
      if (len <=? from)%nat then
        Err ("move: index " +:+ pretty from +:+ " out of bounds (len " +:+ pretty len +:+ ")")
      else if (len <=? to)%nat then
        Err ("move: index " +:+ pretty to +:+ " out of bounds (len " +:+ pretty len +:+ ")")
      else
        match next !! from with
        | Some stub => Ok (vec_insert to stub (vec_remove from next))
        | None => Ok next
        end
  end.

(** A failing step fails the script; the caller's list is only replaced by a
    complete result. *)
Fixpoint apply_edit (stubs : list Stub) (script : StubEditScript) : result string (list Stub) :=
  match script with
  | [] => Ok stubs
  | step :: rest => next ← edit_step stubs step; apply_edit next rest
  end.

Definition edited_stubs (stubs : list Stub) (script : StubEditScript) : result string (list Stub) :=
  apply_edit stubs script.

(** [retain_mut]: the stub the clear leaves, if any, and whether a response went. *)
Definition strip_stub `{EngineRules} (s : Stub) : option Stub * bool :=
  if negb (existsb is_recorded (stub_responses s)) then
    (match stub_recorded_from s with Some _ => None | None => Some s end, false)
  else
    let kept := List.filter (fun r => negb (is_recorded r)) (stub_responses s) in
    (match kept with [] => None | _ => Some (with_responses s kept) end, true).

Definition strip_proxy_responses `{EngineRules} (ss : list Stub) : list Stub * bool :=
  let kept := omap (fun s => (strip_stub s).1) ss in
  let stripped_any := existsb (fun s => (strip_stub s).2) ss in
  (kept, stripped_any || negb (length kept =? length ss)%nat).

(** ** The recorded-response wire form *)

(** [Body]: a base64 string, or the integer array of rows written before it. *)
Inductive WireBody :=
  | Encoded (text : string)
  | Bytes (b : bytes).

Record WireResponse := {
  w_status : N;
  w_headers : list (string * string);
  w_body : WireBody;
  w_latency_ms : option N;
  w_timestamp_secs : N;
}.

(** The [base64] crate's standard engine. *)
Class Base64 := {
  b64_encode : bytes -> string;
  b64_decode : string -> result string bytes;
  b64_decode_encode : forall b, b64_decode (b64_encode b) = Ok b;
}.

Definition wire_serialize `{Base64} (r : RecordedResponse) : WireResponse :=
  {| w_status := rr_status r; w_headers := rr_headers r; w_body := Encoded (b64_encode (rr_body r));
     w_latency_ms := rr_latency_ms r; w_timestamp_secs := rr_timestamp_secs r |}.

Definition wire_body `{Base64} (b : WireBody) : result string bytes :=
  match b with
  | Encoded text => b64_decode text
  | Bytes b => Ok b
  end.

Definition wire_deserialize `{Base64} (w : WireResponse) : result string RecordedResponse :=
  body ← wire_body (w_body w);
  Ok {| rr_status := w_status w; rr_headers := w_headers w; rr_body := body;
        rr_latency_ms := w_latency_ms w; rr_timestamp_secs := w_timestamp_secs w |}.

Definition encode_row `{Base64} {text} `{!Serde text WireResponse} (r : RecordedResponse) : text :=
  to_text (wire_serialize r).

Definition decode_row `{Base64} {text} `{!Serde text WireResponse} (row : text)
    : result string RecordedResponse :=
  w ← from_text row; wire_deserialize w.

(** ** The admission verdict and its cache *)

Section Verdict.
  Context (admission_check : ImposterConfig -> result string ())
          (config_to_vec : ImposterConfig -> option bytes) (xxh64 : bytes -> N -> N).

  Abbreviation VerdictCache := (gmap N (result string ())).

Definition VERDICT_CACHE_ENTRIES : nat := 256.

Definition carries_key (config : ImposterConfig) : bool :=
  existsb (fun s => existsb (fun r => match r with
                                      | RProxy proxy _ => bool_decide (is_Some (proxy_key proxy))
                                      | ROther _ => false
                                      end) (stub_responses s)) (cfg_stubs config).

Definition admission_verdict (cache : VerdictCache) (config : ImposterConfig)
    : result string () * VerdictCache :=
  if negb (carries_key config) then (admission_check config, cache)
  else match config_to_vec config with
  | None => (admission_check config, cache)
  | Some b =>
      let key := xxh64 b 0 in
      match cache !! key with
      | Some verdict => (verdict, cache)
      | None =>
          let verdict := admission_check config in
          let cache := if (VERDICT_CACHE_ENTRIES <=? size cache)%nat then ∅ else cache in
          (verdict, <[key := verdict]> cache)
      end
  end.

End Verdict.

(** ** The entry-size bound *)

Record EntryTooLarge := { et_size : N; et_limit : N }.

(** [written] is the number of bytes serde writes for the request, [None] if it refuses. *)
Definition admit_entry_size (written : ControlRequest -> option N) (request : ControlRequest)
    : result EntryTooLarge N :=
  match written request with
  | None => Err {| et_size := u64_max; et_limit := MAX_ENTRY_BYTES |}
  | Some n =>
      if (MAX_ENTRY_BYTES <? n)%N then Err {| et_size := n; et_limit := MAX_ENTRY_BYTES |}
      else Ok n
  end.

(** ** Stub ids *)

Definition stub_ids (ss : list Stub) : list string := omap stub_id ss.

Lemma check_stub_ids_Ok ids ss :
  check_stub_ids ids ss = Ok tt <-> NoDup (stub_ids ss) /\ (forall id, id ∈ stub_ids ss -> id ∉ ids).
Proof.
  unfold stub_ids. revert ids. induction ss as [|s ss IH]; intros ids; simpl.
  - split; [|done]. intros _. split; [constructor|]. intros id Hid. by apply not_elem_of_nil in Hid.
  - destruct (stub_id s) as [id|]; [|apply IH].
    rewrite NoDup_cons. setoid_rewrite elem_of_cons. case_decide as Hid.
    + split; [done|]. intros [_ H]. destruct (H id); auto.
    + rewrite IH. set_solver.
Qed.

Lemma has_id_true id s : has_id id s = true <-> stub_id s = Some id.
Proof. unfold has_id. apply bool_decide_eq_true. Qed.

Lemma has_id_existsb id ss : existsb (has_id id) ss = false -> id ∉ stub_ids ss.
Proof.
  rewrite existsb_false_Forall, Forall_forall. unfold stub_ids.
  intros H (s & Hs & Hid)%list_elem_of_omap. apply H in Hs.
  by apply (bool_decide_eq_false_1 _ Hs).
Qed.

Lemma position_id id ss i :
  position (has_id id) ss = Some i -> exists s, ss !! i = Some s /\ stub_id s = Some id.
Proof. intros [(s & ? & ?%has_id_true) _]%position_Some. eauto. Qed.

Lemma edit_step_ids next step next' :
  edit_step next step = Ok next' -> NoDup (stub_ids next) -> NoDup (stub_ids next').
Proof.
  unfold stub_ids. destruct step as [stub index|id stub|id|space|from to]; simpl; intros Hs Hn.
  - destruct (stub_id stub) as [id|] eqn:Hid; [destruct (existsb _ _) eqn:He; [done|]|];
      injection Hs as <-; rewrite vec_insert_Permutation; simpl; rewrite Hid; [|done].
    constructor; [by apply has_id_existsb|done].
  - destruct (position _ _) as [i|] eqn:Hp; [|done]. injection Hs as <-.
    apply position_id in Hp as (s & Hi & Hid).
    by rewrite (omap_insert_same stub_id next i s (with_id stub id)).
  - destruct (position _ _) as [i|] eqn:Hp; [|done]. injection Hs as <-.
    apply position_id in Hp as (s & Hi & Hid). rewrite (vec_remove_Permutation i s next Hi) in Hn.
    simpl in Hn. rewrite Hid in Hn. by apply NoDup_cons in Hn as [_ Hn].
  - injection Hs as <-. eapply sublist_NoDup, sublist_omap, sublist_filter. done.
  - repeat case_match; try done; injection Hs as <-; [|done].
    rewrite vec_insert_Permutation. by rewrite <- (vec_remove_Permutation from _ next).
Qed.

(** A committed stub edit keeps explicit stub ids unique. If the list it started
    from had no two stubs with one id, neither has the list any script leaves. *)
Theorem apply_edit_ids_unique stubs script stubs' :
  NoDup (stub_ids stubs) -> apply_edit stubs script = Ok stubs' -> NoDup (stub_ids stubs').
Proof.
  revert stubs. induction script as [|step rest IH]; intros stubs Hn; simpl.
  - by intros [= <-].
  - destruct (edit_step stubs step) as [next|e] eqn:Hs; simpl; [|done].
    apply IH. by eapply edit_step_ids.
Qed.

(** A reorder carries the stub and disturbs nothing else. A [Move] succeeds exactly
    when both indices are in range; the moved stub then stands at [to], and striking it
    out of the new list gives the old list with it struck out of [from]. *)
Theorem move_spec stubs from to :
  match apply_edit stubs [Move from to] with
  | Ok stubs' =>
      (from < length stubs)%nat /\ (to < length stubs)%nat
      /\ stubs' !! to = stubs !! from
      /\ vec_remove to stubs' = vec_remove from stubs
      /\ length stubs' = length stubs
  | Err _ => (length stubs <= from)%nat \/ (length stubs <= to)%nat
  end.
Proof.
  simpl. destruct (Nat.leb_spec (length stubs) from) as [?|Hf]; [simpl; auto|].
  destruct (Nat.leb_spec (length stubs) to) as [?|Ht]; [simpl; auto|].
  destruct (stubs !! from) as [s|] eqn:Hs; simpl.
  - assert (to <= length (vec_remove from stubs))%nat by (rewrite length_vec_remove by done; lia).
    split_and!; [done|done|by apply vec_insert_lookup|by apply vec_remove_insert|].
    rewrite length_vec_insert, length_vec_remove by done. lia.
  - apply lookup_ge_None in Hs. lia.
Qed.

(** ** Clearing saved proxy responses *)

Section Strip.
  Context `{EngineRules}.

Lemma strip_stub_kept s s' :
  (strip_stub s).1 = Some s' -> existsb is_recorded (stub_responses s') = false.
Proof.
  unfold strip_stub. destruct (existsb is_recorded (stub_responses s)) eqn:E; simpl.
  - destruct (List.filter _ _) as [|r rs] eqn:Hf; [done|]. intros [= <-].
    change (existsb is_recorded (r :: rs) = false). rewrite <- Hf. apply existsb_false_Forall, Forall_forall. intros x Hx.
    apply list_elem_of_In, filter_In in Hx as [_ Hx]. by apply negb_true_iff.
  - destruct (stub_recorded_from s); intros [= <-]. done.
Qed.

Lemma strip_stub_same s : (strip_stub s).2 = false -> (strip_stub s).1 = None \/ (strip_stub s).1 = Some s.
Proof.
  unfold strip_stub. destruct (existsb is_recorded (stub_responses s)); simpl; [done|].
  destruct (stub_recorded_from s); auto.
Qed.

(** A response was stripped from [s], so [s] itself does not survive. *)
Lemma strip_stub_changed s : (strip_stub s).2 = true -> (strip_stub s).1 <> Some s.
Proof.
  intros Hs Hk. pose proof (strip_stub_kept _ _ Hk) as Hr. unfold strip_stub in Hs.
  by rewrite Hr in Hs.
Qed.

Lemma length_strip ss : (length (strip_proxy_responses ss).1 <= length ss)%nat.
Proof. simpl. induction ss as [|s ss IH]; csimpl; [lia|]. destruct (strip_stub s).1; simpl; lia. Qed.

Lemma strip_unchanged ss :
  existsb (fun s => (strip_stub s).2) ss = false ->
  length (strip_proxy_responses ss).1 = length ss -> (strip_proxy_responses ss).1 = ss.
Proof.
  induction ss as [|s ss IH]; [done|]. intros [Hs Hss]%orb_false_iff.
  pose proof (length_strip ss) as Hl. csimpl in *.
  destruct (strip_stub_same s Hs) as [E|E]; rewrite E; simpl; intros Hlen; [lia|].
  f_equal. apply IH; [done|lia].
Qed.

(** Clearing saved proxy responses removes every recorded response and reports the
    truth: no stub it leaves carries a recorded response, and it reports "nothing
    removed" exactly when the list is unchanged. *)
Theorem strip_proxy_responses_spec ss :
  Forall (fun s => existsb is_recorded (stub_responses s) = false) (strip_proxy_responses ss).1
  /\ ((strip_proxy_responses ss).2 = false <-> (strip_proxy_responses ss).1 = ss).
Proof.
  split.
  - apply Forall_forall. simpl. intros s' (s & _ & Hs)%list_elem_of_omap. by eapply strip_stub_kept.
  - split.
    + simpl. intros [Ha Hl]%orb_false_iff. apply negb_false_iff, Nat.eqb_eq in Hl.
      by apply strip_unchanged.
    + simpl. intros E. rewrite E, Nat.eqb_refl. simpl. rewrite orb_false_r.
      apply existsb_false_Forall, Forall_forall. intros s Hs.
      rewrite <- E in Hs. apply list_elem_of_omap in Hs as (s0 & _ & Hk).
      apply strip_stub_kept in Hk. unfold strip_stub. by rewrite Hk.
Qed.

End Strip.

(** The wire round trip, in both shapes of the body. *)
Lemma wire_roundtrip `{Base64} r : wire_deserialize (wire_serialize r) = Ok r.
Proof. destruct r. unfold wire_deserialize. simpl. by rewrite b64_decode_encode. Qed.

(** A recorded response survives its stored row, and a row written in the older
    integer-array shape still reads as the same response. *)
Theorem recorded_row_roundtrip `{Base64} {text} `{!Serde text WireResponse} (r : RecordedResponse) :
  decode_row (encode_row (text := text) r) = Ok r
  /\ decode_row (to_text (text := text)
        {| w_status := rr_status r; w_headers := rr_headers r; w_body := Bytes (rr_body r);
           w_latency_ms := rr_latency_ms r; w_timestamp_secs := rr_timestamp_secs r |}) = Ok r.
Proof.
  unfold decode_row, encode_row. rewrite !from_to_text. simpl. split; [apply wire_roundtrip|].
  by destruct r.
Qed.

(** ** The verdict cache *)

Section VerdictFacts.
  Context (admission_check : ImposterConfig -> result string ())
          (config_to_vec : ImposterConfig -> option bytes) (xxh64 : bytes -> N -> N).

  Abbreviation verdict := (admission_verdict admission_check config_to_vec xxh64).

(** A run of verdicts, threading the cache. *)
Fixpoint verdicts (cache : gmap N (result string ())) (cs : list ImposterConfig)
    : list (result string ()) * gmap N (result string ()) :=
  match cs with
  | [] => ([], cache)
  | c :: cs' =>
      let '(v, cache1) := verdict cache c in
      let '(vs, cache2) := verdicts cache1 cs' in
      (v :: vs, cache2)
  end.

Definition cache_sound (cache : gmap N (result string ())) : Prop :=
  (size cache <= VERDICT_CACHE_ENTRIES)%nat
  /\ forall k v, cache !! k = Some v ->
       exists c b, config_to_vec c = Some b /\ xxh64 b 0 = k /\ v = admission_check c.

Hypothesis no_collision : forall c c' b b',
  config_to_vec c = Some b -> config_to_vec c' = Some b' -> xxh64 b 0 = xxh64 b' 0 ->
  admission_check c = admission_check c'.

Lemma verdict_sound cache c :
  cache_sound cache ->
  (verdict cache c).1 = admission_check c /\ cache_sound (verdict cache c).2.
Proof.
  intros [Hsz Hc]. unfold admission_verdict.
  destruct (carries_key c); cbn [negb]; [|done]. destruct (config_to_vec c) as [b|] eqn:Hb; [|done].
  destruct (cache !! xxh64 b 0) as [v|] eqn:Hl; cbv zeta; cbn [fst snd].
  - destruct (Hc _ _ Hl) as (c' & b' & Hb' & Hk & ->). split; [|done].
    by apply (no_collision c' c b' b).
  - split; [done|]. destruct (Nat.leb_spec VERDICT_CACHE_ENTRIES (size cache)) as [Hf|Hf].
    + split; [rewrite map_size_insert_None by apply lookup_empty; rewrite map_size_empty; unfold VERDICT_CACHE_ENTRIES; lia|].
      intros k v. rewrite lookup_insert_Some. intros [[<- <-]|[_ Hk]]; [by eauto|].
      by rewrite lookup_empty in Hk.
    + split; [rewrite map_size_insert_None by done; lia|].
      intros k v. rewrite lookup_insert_Some. intros [[<- <-]|[_ Hk]]; [by eauto|]. by apply Hc.
Qed.

(** The verdict cache is invisible and bounded. As long as no two configs whose
    verdicts differ share a 64-bit hash, any sequence of verdicts from an empty cache is
    exactly the engine's own judgement of each config, and the cache never holds more
    than its 256 entries. *)
Theorem verdicts_transparent cs :
  (verdicts ∅ cs).1 = admission_check <$> cs
  /\ (size (verdicts ∅ cs).2 <= VERDICT_CACHE_ENTRIES)%nat.
Proof.
  assert (forall cache, cache_sound cache ->
    (verdicts cache cs).1 = admission_check <$> cs /\ cache_sound (verdicts cache cs).2) as H.
  { induction cs as [|c cs IH]; intros cache Hc; [done|]. simpl.
    destruct (verdict_sound cache c Hc) as [Hv Hs]. destruct (verdict cache c) as [v cache1]. simpl in *.
    destruct (IH cache1 Hs) as [Hvs Hss]. destruct (verdicts cache1 cs). simpl in *. by subst. }
  assert (cache_sound ∅) as H0.
  { split; [rewrite map_size_empty; unfold VERDICT_CACHE_ENTRIES; lia|].
    intros k v Hk. by rewrite lookup_empty in Hk. }
  destruct (H ∅ H0) as [? [? _]]. done.
Qed.

End VerdictFacts.
