(* ===== verification/Recorded.v ===== *)
(** * Recorded stubs: the pure helpers of [raft/store.rs]

    The id of a recorded stub and its rank, the markers an edit orphans, and the
    placement of a recorded stub in a config's stub list. *)

From S2P Require Import Prelude Upstream Control.

Definition RECORDED_STUB_ID_PREFIX : string := "proxy-recorded-".

Definition lower_hex (c : ascii) : bool :=
  let n := N_of_ascii c in is_ascii_digit c || (97 <=? n)%N && (n <=? 102)%N.

Definition recorded_id (id : string) : option (string * N) :=
  rest ← strip_prefix RECORDED_STUB_ID_PREFIX id;
  hr ← match split_once "-r" rest with
       | Some (hash, n) =>
           if negb (String.eqb n EmptyString) && string_forallb is_ascii_digit n
           then rank ← parse_u64 n; Some (hash, rank)
           else None
       | None => Some (rest, 0%N)
       end;
  let '(hash, rank) := hr in
  if negb (String.eqb hash EmptyString) && string_forallb lower_hex hash
  then Some (hash, rank) else None.

Definition recorded_sig_hash (id : string) : option string := fst <$> recorded_id id.

(** A stub's recorded id, if it has one. *)
Definition stub_recorded (s : Stub) : option (string * N) := stub_id s ≫= recorded_id.

(** The first pass of [orphaned_recordings]: the newest stub of each hash. *)
Definition note_newest (newest : gmap string (N * Stub)) (s : Stub) : gmap string (N * Stub) :=
  match stub_recorded s with
  | Some (hash, rank) =>
      match newest !! hash with
      | Some (seen, _) => if (seen <? rank)%N then <[hash := (rank, s)]> newest else newest
      | None => <[hash := (rank, s)]> newest
      end
  | None => newest
  end.

Definition newest_recorded (before : list Stub) : gmap string (N * Stub) :=
  foldl note_newest ∅ before.

(** Some stub of [after] has the id and the JSON value of [s]. *)
Definition kept_in (after : list Stub) (s : Stub) : bool :=
  existsb (fun c => bool_decide (stub_id c = stub_id s) && bool_decide (c = s)) after.

Definition orphaned_recordings (before after : list Stub) : gset string :=
  dom (filter (fun kv : string * (N * Stub) => kept_in after kv.2.2 = false) (newest_recorded before)).

(** ** Placement *)

Inductive PlacedRecording :=
  | Inserted (index : nat)
  | MergedInto (index : nat) (id : string)
  | MergedAnonymous.

Definition proxies_to (proxy_to : string) (s : Stub) : bool :=
  existsb (fun r => match r with
                    | RProxy proxy _ => String.eqb (Upstream.proxy_to proxy) proxy_to
                    | ROther _ => false
                    end) (stub_responses s).

(** [iter().enumerate().skip(from).find(p)]: the index of the first match at or
    after [from]. *)
Definition position_from {A} (p : A -> bool) (from : nat) (l : list A) : option nat :=
  (fun i => from + i)%nat <$> position p (drop from l).

Definition recording_anchor (stubs : list Stub) (proxy_to : string) (anchor_index : option nat)
    : option nat :=
  match anchor_index ≫= fun from => position_from (proxies_to proxy_to) from stubs with
  | Some a => Some a
  | None => position (proxies_to proxy_to) stubs
  end.

Definition place_recorded_stub (stubs : list Stub) (stub : Stub) (placement : Placement.t)
    (proxy_to : string) (anchor_index : option nat) : list Stub * PlacedRecording :=
  let anchor := recording_anchor stubs proxy_to anchor_index in
  match placement with
  | Placement.BeforeProxy =>
      let index := default (length stubs) anchor in
      (vec_insert index stub stubs, Inserted index)
  | Placement.AfterProxyMerging =>
      let from := match anchor with Some a => S a | None => 0%nat end in
      let same s := bool_decide (stub_predicates s = stub_predicates stub) in
      match position_from same from stubs with
      | Some idx =>
          match stubs !! idx with
          | Some target =>
              let merged := with_responses target (stub_responses target ++ stub_responses stub) in
              (<[idx := merged]> stubs,
               match stub_id target with Some id => MergedInto idx id | None => MergedAnonymous end)
          | None => (stubs, MergedAnonymous)
          end
      | None => (stubs ++ [stub], Inserted (length stubs))
      end
  end.

(** ** Ids *)

Lemma split_once_None c p s :
  string_forallb (fun d => negb (Ascii.eqb c d)) s = true -> split_once (String c p) s = None.
Proof.
  induction s as [|d s IH]; [done|]. simpl. intros [Hd Hs]%andb_true_iff.
  apply negb_true_iff in Hd. rewrite Hd. by rewrite IH.
Qed.

Lemma lower_hex_no_dash hash :
  string_forallb lower_hex hash = true -> string_forallb (fun d => negb (Ascii.eqb "-" d)) hash = true.
Proof.
  apply string_forallb_impl. intros c Hc. destruct (Ascii.eqb_spec "-" c) as [<-|]; done.
Qed.

(** The id a first recording is given, and the id of a re-recording at [index]. *)
Definition base_id (sig_hash : string) : string := RECORDED_STUB_ID_PREFIX +:+ sig_hash.
Definition rerecorded_id (sig_hash : string) (index : N) : string :=
  base_id sig_hash +:+ "-r" +:+ pretty index.

Lemma eqb_nonempty s : s <> EmptyString -> String.eqb s EmptyString = false.
Proof. by destruct s. Qed.

(** The ids the state machine gives recorded stubs read back. For every lowercase
    hash, the base id names the hash at rank 0 and the suffixed id names it at the rank
    of its log index. *)
Theorem recorded_id_roundtrip sig_hash index :
  sig_hash <> EmptyString -> string_forallb lower_hex sig_hash = true -> (index <= u64_max)%N ->
  recorded_id (base_id sig_hash) = Some (sig_hash, 0%N)
  /\ recorded_id (rerecorded_id sig_hash index) = Some (sig_hash, index).
Proof.
  intros Hne Hhex Hidx. pose proof (lower_hex_no_dash _ Hhex) as Hd.
  unfold recorded_id, rerecorded_id, base_id. rewrite append_assoc, !strip_prefix_app.
  cbn [mbind option_bind]. split.
  - rewrite (split_once_None "-" "r") by done. cbn [mbind option_bind].
    by rewrite eqb_nonempty, Hhex.
  - rewrite (split_once_app "-" "r") by done. cbv beta iota.
    rewrite eqb_nonempty by apply pretty_N_nonempty.
    rewrite digits_pretty. unfold parse_u64. rewrite from_str_radix_pretty by done.
    cbn [mbind option_bind negb andb]. by rewrite eqb_nonempty, Hhex.
Qed.

Lemma recorded_id_roundtrip_witness :
  recorded_id "proxy-recorded-00ff" = Some ("00ff", 0%N)
  /\ recorded_id "proxy-recorded-00ff-r17" = Some ("00ff", 17%N).
Proof. apply (recorded_id_roundtrip "00ff" 17); [discriminate|reflexivity|vm_compute; discriminate]. Defined.

(** ** Orphans *)

(** [s] is the newest stub of [hash] in [ss]: no stub of the family ranks above it. *)
Definition newest_of (ss : list Stub) (hash : string) (rank : N) (s : Stub) : Prop :=
  s ∈ ss /\ stub_recorded s = Some (hash, rank)
  /\ forall s' rank', s' ∈ ss -> stub_recorded s' = Some (hash, rank') -> (rank' <= rank)%N.

Lemma newest_recorded_snoc ss s : newest_recorded (ss ++ [s]) = note_newest (newest_recorded ss) s.
Proof. unfold newest_recorded. by rewrite foldl_app. Qed.

Lemma newest_recorded_spec ss hash :
  match newest_recorded ss !! hash with
  | Some (rank, s) => newest_of ss hash rank s
  | None => forall s rank, s ∈ ss -> stub_recorded s <> Some (hash, rank)
  end.
Proof.
  induction ss as [|s ss IH] using rev_ind.
  { unfold newest_recorded. simpl. rewrite lookup_empty. intros s rank Hs. by apply not_elem_of_nil in Hs. }
  rewrite newest_recorded_snoc. unfold note_newest, newest_of in *.
  destruct (stub_recorded s) as [[h r]|] eqn:Hs.
  2: { destruct (newest_recorded ss !! hash) as [[r0 s0]|]; [|set_solver].
       destruct IH as (? & ? & Hmax). split_and!; [set_solver|done|].
       intros s' r'. rewrite elem_of_app, list_elem_of_singleton. intros [? | ->] ?; [by eapply Hmax|congruence]. }
  destruct (decide (h = hash)) as [->|Hne].
  - destruct (newest_recorded ss !! hash) as [[r0 s0]|] eqn:E.
    + destruct IH as (Hin & Hr0 & Hmax). destruct (N.ltb_spec r0 r) as [Hlt|Hge].
      * rewrite lookup_insert_eq. split_and!; [set_solver|done|].
        intros s' r'. rewrite elem_of_app, list_elem_of_singleton. intros [Hi | ->] Hr'; [|by simplify_eq].
        specialize (Hmax _ _ Hi Hr'). lia.
      * rewrite E. split_and!; [set_solver|done|].
        intros s' r'. rewrite elem_of_app, list_elem_of_singleton. intros [Hi | ->] Hr'; [by eapply Hmax|].
        by simplify_eq.
    + rewrite lookup_insert_eq. split_and!; [set_solver|done|].
      intros s' r'. rewrite elem_of_app, list_elem_of_singleton. intros [Hi | ->] Hr'; [by destruct (IH s' r')|].
      by simplify_eq.
  - assert (forall m : gmap string (N * Stub), (<[h:=(r, s)]> m) !! hash = m !! hash) as Hl
      by (intros; by rewrite lookup_insert_ne).
    assert ((match newest_recorded ss !! h with
             | Some (seen, _) => if (seen <? r)%N then <[h := (r, s)]> (newest_recorded ss) else newest_recorded ss
             | None => <[h := (r, s)]> (newest_recorded ss)
             end) !! hash = newest_recorded ss !! hash) as -> by (repeat case_match; by rewrite ?Hl).
    destruct (newest_recorded ss !! hash) as [[r0 s0]|]; [|set_solver].
    destruct IH as (? & ? & Hmax). split_and!; [set_solver|done|].
    intros s' r'. rewrite elem_of_app, list_elem_of_singleton. intros [? | ->] ?; [by eapply Hmax|congruence].
Qed.

Lemma kept_in_spec after s : kept_in after s = true <-> s ∈ after.
Proof.
  unfold kept_in. rewrite existsb_exists. split.
  - intros (c & Hc & H). bool_props. subst. by apply list_elem_of_In.
  - intros Hs. exists s. split; [by apply list_elem_of_In|]. by rewrite !bool_decide_true.
Qed.

Lemma elem_of_orphaned before after h :
  h ∈ orphaned_recordings before after <->
  exists rank s, newest_recorded before !! h = Some (rank, s) /\ s ∉ after.
Proof.
  unfold orphaned_recordings. rewrite elem_of_dom. unfold is_Some.
  setoid_rewrite map_lookup_filter_Some. split.
  - intros ([rank s] & Hl & Hk). exists rank, s. split; [done|]. rewrite <- kept_in_spec. simpl in Hk. congruence.
  - intros (rank & s & Hl & Hk). exists (rank, s). split; [done|]. simpl.
    rewrite <- kept_in_spec in Hk. by destruct (kept_in after s).
Qed.

(** An edit forgets a recording exactly when it removes or changes the newest stub
    of its family. A forgotten hash had a newest stub that the edit did not keep; a hash
    whose newest stubs are all gone is forgotten; and an edit that keeps every stub - a
    move, an addition, an edit of unrelated stubs - forgets nothing. *)
Theorem orphaned_recordings_spec before after :
  (forall h, h ∈ orphaned_recordings before after ->
     exists rank s, newest_of before h rank s /\ s ∉ after)
  /\ (forall h, (exists s rank, s ∈ before /\ stub_recorded s = Some (h, rank)) ->
       (forall rank s, newest_of before h rank s -> s ∉ after) ->
       h ∈ orphaned_recordings before after)
  /\ ((forall s, s ∈ before -> is_Some (stub_recorded s) -> s ∈ after) ->
      orphaned_recordings before after = ∅).
Proof.
  split_and!.
  - intros h (rank & s & Hl & Hs)%elem_of_orphaned. exists rank, s. split; [|done].
    pose proof (newest_recorded_spec before h) as Hspec. by rewrite Hl in Hspec.
  - intros h (s & rank & Hs & Hr) Hall. apply elem_of_orphaned.
    pose proof (newest_recorded_spec before h) as Hspec.
    destruct (newest_recorded before !! h) as [[rank' s']|]; [|by destruct (Hspec s rank)].
    exists rank', s'. split; [done|]. by eapply Hall.
  - intros Hsub. apply set_eq. intros h. split; [|set_solver].
    intros (rank & s & Hl & Hs)%elem_of_orphaned.
    pose proof (newest_recorded_spec before h) as Hspec. rewrite Hl in Hspec.
    destruct Hspec as (Hin & Hr & _). destruct Hs. apply Hsub; [done|]. by rewrite Hr.
Qed.

(** ** Placement *)

Lemma position_from_Some {A} (p : A -> bool) from l i :
  position_from p from l = Some i ->
  (from <= i)%nat /\ exists x, l !! i = Some x /\ p x = true.
Proof.
  unfold position_from. intros (k & [(x & Hx & Hp) _]%position_Some & ->)%fmap_Some.
  split; [lia|]. exists x. by rewrite lookup_drop in Hx.
Qed.

Lemma recording_anchor_Some stubs to from a :
  recording_anchor stubs to from = Some a -> exists s, stubs !! a = Some s /\ proxies_to to s = true.
Proof.
  unfold recording_anchor. destruct from as [from|]; simpl.
  - destruct (position_from _ _ _) eqn:E.
    + intros [= ->]. by apply position_from_Some in E as [_ ?].
    + by intros [? _]%position_Some.
  - by intros [? _]%position_Some.
Qed.

Lemma recording_anchor_None stubs to from :
  recording_anchor stubs to from = None -> Forall (fun s => proxies_to to s = false) stubs.
Proof. unfold recording_anchor. case_match; [done|]. by apply position_None. Qed.

(** Where a recording lands. A [proxyOnce] recording is inserted whole directly in
    front of a stub proxying to its target whenever one exists, and at the end only when
    none does, with every other stub kept in order; a [proxyAlways] recording either
    extends the responses of one stub with the same predicates and touches nothing else,
    or is appended at the end. *)
Theorem place_recorded_stub_spec stubs stub placement to from :
  let '(stubs', placed) := place_recorded_stub stubs stub placement to from in
  match placed with
  | Inserted i =>
      stubs' !! i = Some stub /\ vec_remove i stubs' = stubs
      /\ (placement = Placement.BeforeProxy ->
          (exists s, stubs' !! S i = Some s /\ proxies_to to s = true)
          \/ (i = length stubs /\ Forall (fun s => proxies_to to s = false) stubs))
      /\ (placement = Placement.AfterProxyMerging -> i = length stubs)
  | MergedInto _ _ | MergedAnonymous =>
      placement = Placement.AfterProxyMerging
      /\ exists i target, stubs !! i = Some target
           /\ stub_predicates target = stub_predicates stub
           /\ stubs' = <[i := with_responses target (stub_responses target ++ stub_responses stub)]> stubs
           /\ (forall j id, placed = MergedInto j id -> j = i /\ stub_id target = Some id)
  end.
Proof.
  unfold place_recorded_stub. destruct placement.
  - destruct (recording_anchor stubs to from) as [a|] eqn:Ha; simpl.
    + apply recording_anchor_Some in Ha as (s & Hs & Hp). apply lookup_lt_Some in Hs as Hlt.
      split_and!; [apply vec_insert_lookup; lia|apply vec_remove_insert; lia| |done].
      intros _. left. exists s. split; [|done]. unfold vec_insert.
      rewrite lookup_app_r by (rewrite length_take; lia). rewrite length_take, Nat.min_l by lia.
      replace (S a - a)%nat with 1%nat by lia. simpl. rewrite lookup_drop. by rewrite Nat.add_0_r.
    + split_and!; [apply vec_insert_lookup; lia|apply vec_remove_insert; lia| |done].
      intros _. right. split; [done|]. by eapply recording_anchor_None.
  - destruct (position_from _ _ _) as [i|] eqn:E.
    + apply position_from_Some in E as (_ & target & Hi & Hp). rewrite Hi. bool_props.
      destruct (stub_id target) as [id|] eqn:Hid; (split; [done|]); exists i, target;
        (split_and!; [done..|]); intros j id' [=]; by subst.
    + split_and!; [by rewrite lookup_app_r, Nat.sub_diag| |done|done].
      unfold vec_remove. rewrite take_app_length, drop_app_ge by lia.
      replace (S (length stubs) - length stubs)%nat with 1%nat by lia. by rewrite app_nil_r.
Qed.
