(* ===== verification/StateMachine.v ===== *)
(** * The replicated state machine: [raft/store.rs], the apply path

    The redb tables of [RedbStateMachine], [mutate_tables] arm by arm, the
    preconditions, the dedup window and [apply] over a batch of log entries. A row
    is the text serde wrote ([Codec]); a row that does not read back takes the
    source's corrupt-record branches. What may differ between two nodes applying
    the same log - the engine's admission verdicts and whether a drive is failing
    there - is the record [Local]; everything else is replicated.

    The one-row tables ([sm_routes_revision], [sm_session_key], [sm_fleet_name])
    are options: one key is ever used. A redb write transaction is the state
    passed on success and dropped on a storage error. Metrics and log lines are
    not modelled. *)

From S2P Require Import Prelude Upstream FlowConfig Control Recorded.

(** ** Stored rows *)

Record StoredImposter (text : Type) := {
  si_config : text;
  si_enabled : bool;
  si_revision : N;
}.
Arguments si_config {text} _.
Arguments si_enabled {text} _.
Arguments si_revision {text} _.
Arguments Build_StoredImposter {text} _ _ _.

Record DedupEntry := { de_response : ControlResponse; de_expires_at_secs : N }.

Definition DEDUP_TTL_SECS : N := 86400.

(** What serde provides for each row type. *)
Class Codec (text : Type) := {
  codec_config :: Serde text ImposterConfig;
  codec_stored :: Serde text (StoredImposter text);
  codec_route :: Serde text Route;
  codec_session :: Serde text SessionKey;
  codec_dedup :: Serde text DedupEntry;
  codec_wire :: Serde text WireResponse;
  codec_base64 :: Base64;
}.

(** ** Log entries *)

Record LogId := { lid_term : N; lid_node : N; lid_index : N }.

Global Instance LogId_eq_dec : EqDecision LogId.
Proof. solve_decision. Defined.

(** openraft's membership: the voter sets of the (joint) config and every node's
    address. *)
Record Membership := { mb_configs : list (gset N); mb_nodes : gmap N string }.

Record StoredMembership := { sm_log_id : option LogId; sm_membership : Membership }.

Inductive EntryPayload :=
  | Blank
  | Normal (request : ControlRequest)
  | MembershipChange (m : Membership).

Record Entry := { e_log_id : LogId; e_payload : EntryPayload }.

(** ** State *)

Record AppliedState := {
  last_applied_log : option LogId;
  last_membership : StoredMembership;
  logical_clock_secs : N;
}.

Record Tables (text : Type) := {
  configs : gmap N text;
  routes : gmap string text;
  routes_revision : option N;
  session_key : option text;
  fleet_name : option string;
  proxy_recorded : gmap (N * string) text;
}.
Arguments configs {text} _.
Arguments routes {text} _.
Arguments routes_revision {text} _.
Arguments session_key {text} _.
Arguments fleet_name {text} _.
Arguments proxy_recorded {text} _.
Arguments Build_Tables {text} _ _ _ _ _ _.

Record Sm (text : Type) := {
  tables : Tables text;
  dedup_rows : gmap string text;
  applied : AppliedState;
}.
Arguments tables {text} _.
Arguments dedup_rows {text} _.
Arguments applied {text} _.
Arguments Build_Sm {text} _ _ _.

(** ** Engine actions *)

Record DesiredSet := {
  ds_admitted : list ImposterConfig;
  ds_held : gset N;
  ds_refused : list (N * string);
}.

Inductive EngineAction :=
  | ASync (desired : DesiredSet)
  | APut (config : ImposterConfig) (restart : option Restart.t)
  | AClearProxyResponses (port : N)
  | ARestart (port : N) (restart : Restart.t) (stubs : list Stub)
  | ADelete (port : N)
  | APatch (port : N) (edit : StubEditScript)
  | AAppendResponses (port : N) (id : string) (responses : list StubResponse) (merged : Stub)
  | ASetEnabled (port : N) (enabled : bool)
  | ASyncRoutes (table : RouteTable)
  | ARefuseRoutesSync (id error : string).

Record AttributedAction := { aa_principal : option string; aa_action : EngineAction }.

(** What a node brings to an apply that is not in the log. *)
Record Local := {
  verdict : ImposterConfig -> result string ();
  degraded : bool;
}.

(** ** Table iteration, in redb's key order *)

Definition port_le {A} (a b : N * A) : Prop := (a.1 <= b.1)%N.

Global Instance port_le_dec {A} (a b : N * A) : Decision (port_le a b).
Proof. unfold port_le. apply _. Defined.

Definition port_rows {A} (m : gmap N A) : list (N * A) := merge_sort port_le (map_to_list m).

Definition str_le {A} (a b : string * A) : Prop := String.leb a.1 b.1 = true.

Global Instance str_le_dec {A} (a b : string * A) : Decision (str_le a b).
Proof. unfold str_le. apply _. Defined.

Definition str_rows {A} (m : gmap string A) : list (string * A) := merge_sort str_le (map_to_list m).

(** ** Setters *)

Definition set_configs {text} (f : gmap N text -> gmap N text) (t : Tables text) : Tables text :=
  Build_Tables (f (configs t)) (routes t) (routes_revision t) (session_key t) (fleet_name t) (proxy_recorded t).

Definition set_proxy_recorded {text} (f : gmap (N * string) text -> gmap (N * string) text)
    (t : Tables text) : Tables text :=
  Build_Tables (configs t) (routes t) (routes_revision t) (session_key t) (fleet_name t) (f (proxy_recorded t)).

Definition set_routes {text} (f : gmap string text -> gmap string text) (revision : N)
    (t : Tables text) : Tables text :=
  Build_Tables (configs t) (f (routes t)) (Some revision) (session_key t) (fleet_name t) (proxy_recorded t).

Definition set_session_key {text} (row : text) (t : Tables text) : Tables text :=
  Build_Tables (configs t) (routes t) (routes_revision t) (Some row) (fleet_name t) (proxy_recorded t).

Definition set_fleet_name {text} (name : string) (t : Tables text) : Tables text :=
  Build_Tables (configs t) (routes t) (routes_revision t) (session_key t) (Some name) (proxy_recorded t).

(** Removing every marker of a port, and the markers of some hashes of a port. *)
Definition purge_markers {text} (port : N) (m : gmap (N * string) text) : gmap (N * string) text :=
  filter (fun kv : N * string * text => kv.1.1 <> port) m.

Definition forget_markers {text} (port : N) (hashes : gset string) (m : gmap (N * string) text)
    : gmap (N * string) text :=
  filter (fun kv : N * string * text => ~ (kv.1.1 = port /\ kv.1.2 ∈ hashes)) m.

Section Apply.
  Context {text : Type} {CD : Codec text} {ER : EngineRules}.

(** ** What the engine should hold *)

Definition admit_row (L : Local) (row : text) : result string ImposterConfig :=
  match from_text (A := StoredImposter text) row with
  | Err e => Err ("stored record will not parse: " +:+ e)
  | Ok stored =>
      match from_text (si_config stored) with
      | Err e => Err ("stored config will not parse: " +:+ e)
      | Ok config =>
          match verdict L config with
          | Err reason => Err reason
          | Ok _ => Ok config
          end
      end
  end.

Definition note_row (L : Local) (desired : DesiredSet) (kv : N * text) : DesiredSet :=
  let held := {[kv.1]} ∪ ds_held desired in
  match admit_row L kv.2 with
  | Ok config => {| ds_admitted := ds_admitted desired ++ [config]; ds_held := held;
                    ds_refused := ds_refused desired |}
  | Err reason => {| ds_admitted := ds_admitted desired; ds_held := held;
                     ds_refused := ds_refused desired ++ [(kv.1, reason)] |}
  end.

Definition desired_configs (L : Local) (m : gmap N text) : DesiredSet :=
  foldl (note_row L) {| ds_admitted := []; ds_held := ∅; ds_refused := [] |} (port_rows m).

Definition sync_action (L : Local) (m : gmap N text) : EngineAction := ASync (desired_configs L m).

Definition edit_drive (L : Local) (port : N) (was_admitted : bool) (config : ImposterConfig)
    (action : EngineAction) : list EngineAction :=
  match verdict L config with
  | Err _ => []
  | Ok _ => if was_admitted then [action] else [APut config None]
  end.

Fixpoint read_routes (rows : list (string * text)) : result (string * string) RouteTable :=
  match rows with
  | [] => Ok []
  | (id, row) :: rest =>
      match from_text (A := Route) row with
      | Ok route => rs ← read_routes rest; Ok (route :: rs)
      | Err e => Err (id, "stored route will not parse: " +:+ e)
      end
  end.

Definition desired_routes (m : gmap string text) : result (string * string) RouteTable :=
  read_routes (str_rows m).

Definition sync_routes_action (m : gmap string text) : EngineAction :=
  match desired_routes m with
  | Ok table => ASyncRoutes table
  | Err (id, error) => ARefuseRoutesSync id error
  end.

(** ** Preconditions *)

Definition check_expect_absent (t : Tables text) (o : ControlOp) : result string () :=
  match precondition_target o with
  | Some (PreconditionTarget.Imposter port) =>
      match configs t !! port with
      | Some _ => Err ("Port " +:+ pretty port +:+ " is already in use")
      | None => Ok tt
      end
  | _ => Err "revision conflict: an absent-record precondition applies to single-imposter operations only"
  end.

Definition corrupt_record (port : N) (e : string) : string :=
  "corrupt stored record for port " +:+ pretty port +:+ ": " +:+ e.

Definition corrupt_config (port : N) (e : string) : string :=
  "corrupt stored config for port " +:+ pretty port +:+ ": " +:+ e.

Definition no_imposter (port : N) : string := "no imposter on port " +:+ pretty port.

Definition check_expected_revision (t : Tables text) (o : ControlOp) (expected : N)
    : result string () :=
  match precondition_target o with
  | None => Err "revision conflict: expected-revision preconditions apply to single-imposter and route-table operations only"
  | Some (PreconditionTarget.Imposter port) =>
      match configs t !! port with
      | None => Err ("revision conflict: expected revision " +:+ pretty expected
                     +:+ " but no imposter on port " +:+ pretty port)
      | Some row =>
          match from_text (A := StoredImposter text) row with
          | Ok record =>
              if (si_revision record =? expected)%N then Ok tt
              else Err ("revision conflict: expected revision " +:+ pretty expected
                        +:+ ", stored revision " +:+ pretty (si_revision record)
                        +:+ " on port " +:+ pretty port)
          | Err e => Err (corrupt_record port e)
          end
      end
  | Some PreconditionTarget.RouteTable =>
      let actual := default 0%N (routes_revision t) in
      if (actual =? expected)%N then Ok tt
      else Err ("revision conflict: expected revision " +:+ pretty expected
                +:+ ", stored revision " +:+ pretty actual +:+ " for the route table")
  end.

Definition check_preconditions (t : Tables text) (request : ControlRequest) : result string () :=
  match expected_revision request, expect_absent request with
  | None, false => Ok tt
  | Some expected, false => check_expected_revision t (op request) expected
  | None, true => check_expect_absent t (op request)
  | Some _, true => Err "revision conflict: expect_absent and expected_revision cannot be combined"
  end.

(** ** The arms of [mutate_tables]

    Each takes the tables and returns the tables it leaves with the engine actions
    or the refusal. *)

Abbreviation arm := (Tables text * result string (list EngineAction))%type.

Definition write_record (port : N) (record : StoredImposter text) (t : Tables text) : Tables text :=
  set_configs (fun m => <[port := to_text record]> m) t.

(** Reading a port's row, for the arms that edit it. *)
Definition read_record (t : Tables text) (port : N)
    : result string (StoredImposter text * ImposterConfig) :=
  match configs t !! port with
  | None => Err (no_imposter port)
  | Some row =>
      match from_text (A := StoredImposter text) row with
      | Err e => Err (corrupt_record port e)
      | Ok record =>
          match from_text (si_config record) with
          | Err e => Err (corrupt_config port e)
          | Ok config => Ok (record, config)
          end
      end
  end.

(** The markers a put forgets, judged against the row it replaces. *)
Definition put_forget (t : Tables text) (port : N) (config : ImposterConfig) : Tables text :=
  let markers := proxy_recorded t in
  let mine := filter (fun kv : N * string * text => kv.1.1 = port) markers in
  if decide (mine = ∅) then t
  else match configs t !! port with
  | None => set_proxy_recorded (purge_markers port) t
  | Some row =>
      match from_text (A := StoredImposter text) row with
      | Err _ => set_proxy_recorded (purge_markers port) t
      | Ok record =>
          match from_text (A := ImposterConfig) (si_config record) with
          | Err _ => set_proxy_recorded (purge_markers port) t
          | Ok before =>
              set_proxy_recorded
                (forget_markers port (orphaned_recordings (cfg_stubs before) (cfg_stubs config))) t
          end
      end
  end.

(** The hashes of a port's markers that no stub of the new config records. *)
Definition stub_less (t : Tables text) (port : N) (config : ImposterConfig) : gset string :=
  let names hash := existsb (fun s => bool_decide (stub_id s ≫= recorded_sig_hash = Some hash)) (cfg_stubs config) in
  list_to_set (omap (fun k : N * string => if decide (k.1 = port) then if names k.2 then None else Some k.2 else None)
                    (map_to_list (proxy_recorded t)).*1).

Definition put_imposter (L : Local) (t : Tables text) (config : ImposterConfig)
    (restart : option Restart.t) (index : N) : arm :=
  match cfg_port config with
  | None => (t, Err "config must carry an explicit port")
  | Some port =>
      let stored := Build_StoredImposter (to_text config) (cfg_enabled config) index in
      let t := put_forget t port config in
      let t := if decide (restart = Some Restart.Imposter)
               then set_proxy_recorded (forget_markers port (stub_less t port config)) t else t in
      let t := write_record port stored t in
      if degraded L then
        (t, Ok (sync_action L (configs t)
                :: match restart with
                   | Some r => [ARestart port r (cfg_stubs config)]
                   | None => []
                   end))
      else (t, Ok [APut config restart])
  end.

Definition patch_stubs (L : Local) (t : Tables text) (port : N) (edit : StubEditScript) (index : N) : arm :=
  match read_record t port with
  | Err reason => (t, Err reason)
  | Ok (record, config) =>
      let was_admitted := is_ok (verdict L config) in
      let before := cfg_stubs config in
      match apply_edit before edit with
      | Err reason => (t, Err reason)
      | Ok after =>
          let config := with_stubs config after in
          let record := Build_StoredImposter (to_text config) (si_enabled record) index in
          let t := write_record port record t in
          let t := set_proxy_recorded (forget_markers port (orphaned_recordings before after)) t in
          (t, Ok (edit_drive L port was_admitted config (APatch port edit)))
      end
  end.

Definition delete_imposter (L : Local) (t : Tables text) (port : N) : arm :=
  let t := set_configs (delete port) t in
  let t := set_proxy_recorded (purge_markers port) t in
  if degraded L then (t, Ok [sync_action L (configs t)]) else (t, Ok [ADelete port]).

Definition delete_all (L : Local) (t : Tables text) : arm :=
  let t := set_configs (fun _ => ∅) t in
  let t := set_proxy_recorded (fun _ => ∅) t in
  (t, Ok [sync_action L (configs t)]).

Definition set_enabled (L : Local) (t : Tables text) (port : N) (enabled : bool) (index : N) : arm :=
  match read_record t port with
  | Err reason => (t, Err reason)
  | Ok (record, config) =>
      let was_admitted := is_ok (verdict L config) in
      let config := with_enabled config enabled in
      let record := Build_StoredImposter (to_text config) enabled index in
      let t := write_record port record t in
      (t, Ok (edit_drive L port was_admitted config (ASetEnabled port enabled)))
  end.

Definition put_routes (t : Tables text) (table : RouteTable) (index : N) : arm :=
  let t := set_routes (fun _ => foldl (fun m r => <[route_id r := to_text r]> m) ∅ table) index t in
  (t, Ok [sync_routes_action (routes t)]).

Definition delete_route (t : Tables text) (id : string) (index : N) : arm :=
  let t := set_routes (delete id) index t in
  (t, Ok [sync_routes_action (routes t)]).

Definition session_key_put (t : Tables text) (key : string) (index : N) : arm :=
  (set_session_key (to_text {| sk_key := key; sk_revision := index |}) t, Ok []).

Definition fleet_name_put (t : Tables text) (name : string) : arm :=
  (set_fleet_name name t, Ok []).

(** The id a recorded stub is given when the publication carried none. *)
Definition recorded_stub_id (stubs : list Stub) (sig_hash : string) (index : N) : string :=
  let taken := existsb (fun s => bool_decide (stub_id s ≫= recorded_sig_hash = Some sig_hash)) stubs in
  if taken then rerecorded_id sig_hash index else base_id sig_hash.

Definition proxy_recorded_op (L : Local) (t : Tables text) (port : N) (sig_hash : string)
    (resp : RecordedResponse) (stub : option RecordedStub) (index : N) : arm :=
  let already_recorded := bool_decide (is_Some (proxy_recorded t !! (port, sig_hash))) in
  let merging := match stub with
                 | Some r => bool_decide (rs_placement r = Placement.AfterProxyMerging)
                 | None => false
                 end in
  if already_recorded && negb merging then (t, Ok [])
  else
    let resp_row := encode_row resp in
    if decide (configs t !! port = None) then (t, Err (no_imposter port))
    else match stub with
    | None => (set_proxy_recorded (fun m => <[(port, sig_hash) := resp_row]> m) t, Ok [])
    | Some recorded =>
        match read_record t port with
        | Err reason => (t, Err reason)
        | Ok (record, config) =>
            let was_admitted := is_ok (verdict L config) in
            let stub_value :=
              match stub_id (rs_stub recorded) with
              | Some _ => rs_stub recorded
              | None => with_id (rs_stub recorded) (recorded_stub_id (cfg_stubs config) sig_hash index)
              end in
            let appended := stub_responses stub_value in
            let '(after, placed) :=
              place_recorded_stub (cfg_stubs config) stub_value (rs_placement recorded)
                                  (rs_proxy_to recorded) (rs_anchor_index recorded) in
            let config := with_stubs config after in
            let record := Build_StoredImposter (to_text config) (si_enabled record) index in
            let t := write_record port record t in
            let t := if merging then t
                     else set_proxy_recorded (fun m => <[(port, sig_hash) := resp_row]> m) t in
            match placed with
            | Inserted i =>
                match after !! i with
                | Some s => (t, Ok (edit_drive L port was_admitted config (APatch port [Add s (Some i)])))
                | None => (t, Ok [])
                end
            | MergedInto i id =>
                match after !! i with
                | Some s => (t, Ok (edit_drive L port was_admitted config (AAppendResponses port id appended s)))
                | None => (t, Ok [])
                end
            | MergedAnonymous => (t, Ok [sync_action L (configs t)])
            end
        end
    end.

Definition proxy_recorded_clear (L : Local) (t : Tables text) (port : N) (index : N) : arm :=
  let t := set_proxy_recorded (purge_markers port) t in
  match read_record t port with
  | Err _ => (t, Ok [])
  | Ok (record, config) =>
      let '(stubs', stripped) := strip_proxy_responses (cfg_stubs config) in
      let config := with_stubs config stubs' in
      let t := if stripped
               then write_record port (Build_StoredImposter (to_text config) (si_enabled record) index) t
               else t in
      let clear := AClearProxyResponses port in
      if degraded L || negb (is_ok (verdict L config))
      then (t, Ok [sync_action L (configs t); clear])
      else (t, Ok [clear])
  end.

Definition mutate_tables (L : Local) (t : Tables text) (o : ControlOp) (index : N) : arm :=
  match o with
  | PutImposter config restart => put_imposter L t config restart index
  | PatchStubs port edit => patch_stubs L t port edit index
  | DeleteImposter port => delete_imposter L t port
  | DeleteAll => delete_all L t
  | SetEnabled port enabled => set_enabled L t port enabled index
  | PutRoutes table => put_routes t table index
  | DeleteRoute id => delete_route t id index
  | SessionKeyPut key => session_key_put t key index
  | FleetNamePut name => fleet_name_put t name
  | ProxyRecorded port sig_hash resp stub => proxy_recorded_op L t port sig_hash resp stub index
  | ProxyRecordedClear port => proxy_recorded_clear L t port index
  end.

(** ** [apply] *)

(** A dedup row whose window is still open; one that does not parse is dropped. *)
Definition row_live (now_secs : N) (row : text) : bool :=
  match from_text (A := DedupEntry) row with
  | Ok entry => (now_secs <? de_expires_at_secs entry)%N
  | Err _ => false
  end.

Definition gc_dedup (now_secs : N) (m : gmap string text) : gmap string text :=
  filter (fun kv : string * text => row_live now_secs kv.2 = true) m.

(** The op of a request that is not a replay: validate, check, mutate. *)
Definition decide_op (L : Local) (t : Tables text) (request : ControlRequest) (index : N) : arm :=
  match validate (op request) with
  | Err reason => (t, Err reason)
  | Ok _ =>
      match check_preconditions t request with
      | Err reason => (t, Err reason)
      | Ok _ => mutate_tables L t (op request) index
      end
  end.

Definition response_of (index : N) (outcome : result string (list EngineAction)) : ControlResponse :=
  match outcome with
  | Ok _ => response_applied index
  | Err reason => response_failed index reason
  end.

Definition attribute (who : option string) (outcome : result string (list EngineAction))
    : list AttributedAction :=
  match outcome with
  | Ok actions => (fun a => {| aa_principal := who; aa_action := a |}) <$> actions
  | Err _ => []
  end.

Definition with_clock (a : AppliedState) (clock : N) : AppliedState :=
  {| last_applied_log := last_applied_log a; last_membership := last_membership a;
     logical_clock_secs := clock |}.

(** What one entry leaves: the state, its response and its engine actions. *)
Abbreviation step_result := (Sm text * ControlResponse * list AttributedAction)%type.

(** A dedup hit: a stored response whose window is still open. A row that does not
    read back is a storage error. *)
Definition dedup_hit (m : gmap string text) (key : string) (clock : N)
    : result string (option ControlResponse) :=
  match m !! key with
  | None => Ok None
  | Some row =>
      match from_text (A := DedupEntry) row with
      | Err e => Err e
      | Ok prev => Ok (if (clock <? de_expires_at_secs prev)%N then Some (de_response prev) else None)
      end
  end.

Definition apply_normal (L : Local) (s : Sm text) (log_id : LogId) (request : ControlRequest)
    : result string step_result :=
  let clock := N.max (logical_clock_secs (applied s)) (issued_at_secs request) in
  let a := with_clock (applied s) clock in
  match dedup_hit (dedup_rows s) (op_id request) clock with
  | Err e => Err e
  | Ok (Some response) => Ok (Build_Sm (tables s) (dedup_rows s) a, response, [])
  | Ok None =>
      let '(t, outcome) := decide_op L (tables s) request (lid_index log_id) in
      let response := response_of (lid_index log_id) outcome in
      let entry := {| de_response := response; de_expires_at_secs := sat_add clock DEDUP_TTL_SECS |} in
      Ok (Build_Sm t (<[op_id request := to_text entry]> (dedup_rows s)) a,
          response, attribute (principal request) outcome)
  end.

Definition apply_entry (L : Local) (s : Sm text) (entry : Entry) : result string step_result :=
  let log_id := e_log_id entry in
  let a := {| last_applied_log := Some log_id; last_membership := last_membership (applied s);
              logical_clock_secs := logical_clock_secs (applied s) |} in
  let s := Build_Sm (tables s) (dedup_rows s) a in
  match e_payload entry with
  | Blank => Ok (s, response_applied (lid_index log_id), [])
  | Normal request => apply_normal L s log_id request
  | MembershipChange m =>
      Ok (Build_Sm (tables s) (dedup_rows s)
            {| last_applied_log := Some log_id;
               last_membership := {| sm_log_id := Some log_id; sm_membership := m |};
               logical_clock_secs := logical_clock_secs a |},
          response_applied (lid_index log_id), [])
  end.

Fixpoint apply_entries (L : Local) (s : Sm text) (entries : list Entry)
    : result string (Sm text * list ControlResponse * list AttributedAction) :=
  match entries with
  | [] => Ok (s, [], [])
  | entry :: rest =>
      match apply_entry L s entry with
      | Err e => Err e
      | Ok (s1, response, actions) =>
          match apply_entries L s1 rest with
          | Err e => Err e
          | Ok (s2, responses, more) => Ok (s2, response :: responses, actions ++ more)
          end
      end
  end.

Definition sm_apply (L : Local) (s : Sm text) (entries : list Entry)
    : result string (Sm text * list ControlResponse * list AttributedAction) :=
  let swept := gc_dedup (logical_clock_secs (applied s)) (dedup_rows s) in
  apply_entries L (Build_Sm (tables s) swept (applied s)) entries.

End Apply.

(** ** The order of a table's rows *)

Lemma port_rows_Permutation {A} (m : gmap N A) : port_rows m ≡ₚ map_to_list m.
Proof. apply merge_sort_Permutation. Qed.

Lemma elem_of_port_rows {A} (m : gmap N A) p x : (p, x) ∈ port_rows m <-> m !! p = Some x.
Proof. rewrite port_rows_Permutation. apply elem_of_map_to_list. Qed.

(** Rows in strict key order are the table's rows as redb iterates them. *)
Definition port_lt {A} (a b : N * A) : Prop := (a.1 < b.1)%N.

Lemma port_rows_lt {A} (m : gmap N A) : StronglySorted port_lt (port_rows m).
Proof.
  assert (NoDup (port_rows m).*1) as Hnd by (rewrite port_rows_Permutation; apply NoDup_fst_map_to_list).
  assert (StronglySorted port_le (port_rows m)) as Hs.
  { apply StronglySorted_merge_sort; unfold port_le.
    - intros a b c ??. lia.
    - intros a b. lia. }
  induction Hs as [|kv rows Hs IH Hf]; [constructor|].
  rewrite fmap_cons in Hnd. apply NoDup_cons in Hnd as [Hni Hnd]. constructor; [by apply IH|].
  rewrite Forall_forall in *. intros kv' Hkv'. specialize (Hf _ Hkv'). unfold port_le, port_lt in *.
  assert (kv.1 <> kv'.1); [|lia]. intros E. apply Hni. rewrite E. apply list_elem_of_fmap. eauto.
Qed.

Lemma port_rows_unique {A} (m : gmap N A) rows :
  StronglySorted port_lt rows -> (forall p x, (p, x) ∈ rows <-> m !! p = Some x) -> port_rows m = rows.
Proof.
  intros Hs Hin. pose proof (port_rows_lt m) as Hs'.
  assert (forall l : list (N * A), StronglySorted port_lt l -> NoDup l) as Hnd.
  { induction 1 as [|kv l _ IH Hf]; constructor; [|done].
    intros Hkv. rewrite Forall_forall in Hf. specialize (Hf _ Hkv). unfold port_lt in Hf. lia. }
  assert (Transitive (@port_lt A)) by (intros a b c ??; unfold port_lt in *; lia).
  assert (AntiSymm eq (@port_lt A)) by (intros a b ??; unfold port_lt in *; lia).
  apply (Sorted_unique port_lt).
  - by apply StronglySorted_Sorted.
  - by apply StronglySorted_Sorted.
  - apply NoDup_Permutation; [auto..|]. intros [p x]. by rewrite elem_of_port_rows, Hin.
Qed.
