(* ===== verification/Demo.v ===== *)
(** * A concrete instance of the interfaces

    A serialisation (tagged documents), an engine and a few configs, requests and
    states on which the theorems' hypotheses are evaluated. *)

From S2P Require Import Prelude Upstream FlowConfig Control Recorded StateMachine.

Inductive doc :=
  | DConfig (c : ImposterConfig)
  | DStored (config : doc) (enabled : bool) (revision : N)
  | DRoute (r : Route)
  | DSession (k : SessionKey)
  | DDedup (d : DedupEntry)
  | DWire (w : WireResponse)
  | DSnapshot (last : option LogId) (membership : StoredMembership) (id file : string)
  | DQuoted (text : doc)
  | DJunk (text : string).

Definition no_parse {A} : result string A := Err "expected value at line 1 column 1".

#[local] Instance doc_config : Serde doc ImposterConfig := {
  to_text := DConfig;
  from_text d := match d with DConfig c => Ok c | _ => no_parse end;
  from_to_text := fun c => eq_refl;
}.

#[local] Instance doc_stored : Serde doc (StoredImposter doc) := {
  to_text r := DStored (si_config r) (si_enabled r) (si_revision r);
  from_text d := match d with DStored c e n => Ok (Build_StoredImposter c e n) | _ => no_parse end;
  from_to_text := fun r => match r with Build_StoredImposter _ _ _ => eq_refl end;
}.

#[local] Instance doc_route : Serde doc Route := {
  to_text := DRoute;
  from_text d := match d with DRoute r => Ok r | _ => no_parse end;
  from_to_text := fun r => eq_refl;
}.

#[local] Instance doc_session : Serde doc SessionKey := {
  to_text := DSession;
  from_text d := match d with DSession k => Ok k | _ => no_parse end;
  from_to_text := fun k => eq_refl;
}.

#[local] Instance doc_dedup : Serde doc DedupEntry := {
  to_text := DDedup;
  from_text d := match d with DDedup k => Ok k | _ => no_parse end;
  from_to_text := fun k => eq_refl;
}.

#[local] Instance doc_wire : Serde doc WireResponse := {
  to_text := DWire;
  from_text d := match d with DWire k => Ok k | _ => no_parse end;
  from_to_text := fun k => eq_refl;
}.

Lemma ascii_roundtrip (b : bytes) : list_ascii_of_string (string_of_list_ascii b) = b.
Proof. apply list_ascii_of_string_of_list_ascii. Qed.

#[local] Instance demo_base64 : Base64 := {
  b64_encode := string_of_list_ascii;
  b64_decode s := Ok (list_ascii_of_string s);
  b64_decode_encode b := f_equal Ok (ascii_roundtrip b);
}.

#[local] Instance demo_codec : Codec doc := {}.

#[local] Instance demo_rules : EngineRules := {
  is_recorded r := match r with ROther rest => starts_with "recorded" rest | RProxy _ _ => false end;
  route_table_validate t := if decide (NoDup (route_id <$> t)) then Ok tt else Err "duplicate route id";
}.

Definition demo_local : Local := {| verdict := fun _ => Ok tt; degraded := false |}.
Definition strict_local : Local := {| verdict := fun _ => Err "refused"; degraded := true |}.

(** ** Configs *)

Definition plain_stub (id : option string) (responses : list StubResponse) : Stub :=
  {| stub_id := id; stub_space := None; stub_predicates := ["{}"]; stub_responses := responses;
     stub_recorded_from := None; stub_rest := EmptyString |}.

Definition proxy_stub : Stub :=
  {| stub_id := Some "p"; stub_space := None; stub_predicates := []; stub_responses :=
       [RProxy {| proxy_to := "http://up"; proxy_key := None; proxy_rest := EmptyString |} EmptyString];
     stub_recorded_from := None; stub_rest := EmptyString |}.

Definition demo_config (p : N) (ss : list Stub) : ImposterConfig :=
  {| cfg_port := Some p; cfg_protocol := "http"; cfg_stubs := ss; cfg_enabled := true;
     cfg_rift := None; cfg_rest := EmptyString |}.

Definition demo_response : RecordedResponse :=
  {| rr_status := 200; rr_headers := []; rr_body := as_bytes "hi"; rr_latency_ms := None;
     rr_timestamp_secs := 7 |}.

(** ** Requests and entries *)

Definition demo_request (id : string) (at_secs : N) (expected : option N) (o : ControlOp) : ControlRequest :=
  {| op_id := id; principal := None; issued_at_secs := at_secs; expected_revision := expected;
     expect_absent := false; op := o |}.

Definition demo_entry (index : N) (q : ControlRequest) : Entry :=
  {| e_log_id := {| lid_term := 1; lid_node := 1; lid_index := index |}; e_payload := Normal q |}.

Definition empty_tables : Tables doc := Build_Tables ∅ ∅ None None None ∅.

Definition initial : Sm doc :=
  Build_Sm empty_tables ∅
    {| last_applied_log := None;
       last_membership := {| sm_log_id := None; sm_membership := {| mb_configs := []; mb_nodes := ∅ |} |};
       logical_clock_secs := 0 |}.

(** A log that creates an imposter, records a response on it, edits it and deletes it. *)
Definition e_put : Entry := demo_entry 1 (demo_request "op-1" 10 None (PutImposter (demo_config 6400 [proxy_stub]) None)).
Definition e_record : Entry :=
  demo_entry 2 (demo_request "op-2" 11 None (ProxyRecorded 6400 "00ff" demo_response
    (Some {| rs_stub := plain_stub None [ROther "recorded:hi"]; rs_placement := Placement.BeforeProxy;
             rs_proxy_to := "http://up"; rs_anchor_index := Some 0 |}))).
Definition e_edit (index : N) (id : string) (expected : option N) : Entry :=
  demo_entry index (demo_request id 12 expected (PatchStubs 6400 [Add (plain_stub (Some id) []) None])).
Definition e_delete (index : N) : Entry := demo_entry index (demo_request "op-9" 13 None (DeleteImposter 6400)).

(** The state a batch leaves, for use in witnesses. *)
Definition state_after (s : Sm doc) (es : list Entry) : Sm doc :=
  match sm_apply demo_local s es with Ok (s', _, _) => s' | Err _ => s end.

Definition responses_after (s : Sm doc) (es : list Entry) : list ControlResponse :=
  match sm_apply demo_local s es with Ok (_, rs, _) => rs | Err _ => [] end.

Definition actions_after (s : Sm doc) (es : list Entry) : list AttributedAction :=
  match sm_apply demo_local s es with Ok (_, _, acts) => acts | Err _ => [] end.

(** The same for one entry, without the sweep. *)
Definition step_state (s : Sm doc) (e : Entry) : Sm doc :=
  match apply_entry demo_local s e with Ok (s', _, _) => s' | Err _ => s end.

Definition step_response (s : Sm doc) (e : Entry) : ControlResponse :=
  match apply_entry demo_local s e with Ok (_, r, _) => r | Err _ => response_applied 0 end.

Definition step_actions (s : Sm doc) (e : Entry) : list AttributedAction :=
  match apply_entry demo_local s e with Ok (_, _, a) => a | Err _ => [] end.
