(* ===== verification/ControlDemo.v ===== *)
(** * The control plane at concrete inputs

    Witnesses of [Control]'s theorems, and three runs where the code and its comments
    part: an unknown sequencing mode that commits, a misspelt flow-state key that is
    ignored, and a clearing of saved responses whose repetition removes more. *)

From S2P Require Import Prelude Upstream FlowConfig Control Recorded StateMachine Demo.

Section Witnesses.
  #[local] Existing Instances demo_base64 doc_wire demo_codec demo_rules.

Lemma apply_edit_ids_unique_witness :
  NoDup (stub_ids [plain_stub (Some "a") []; plain_stub (Some "c") []]).
Proof.
  apply (apply_edit_ids_unique [plain_stub (Some "a") []; plain_stub (Some "b") []]
    [DeleteById "b"; Add (plain_stub (Some "c") []) None]).
  - by apply (bool_decide_unpack _); vm_compute.
  - by vm_compute.
Defined.

Lemma recorded_row_roundtrip_witness :
  decode_row (encode_row (text := doc) demo_response) = Ok demo_response.
Proof. apply (recorded_row_roundtrip (text := doc) demo_response). Defined.

(** The engine takes one protocol; a config renders as a byte for the other, and the hash is
    the length. *)
Definition demo_check (c : ImposterConfig) : result string () :=
  if String.eqb (cfg_protocol c) "http" then Ok tt else Err "bad protocol".

Definition demo_to_vec (c : ImposterConfig) : option bytes :=
  if String.eqb (cfg_protocol c) "http" then Some [] else Some ["s"%char].

Lemma verdicts_transparent_witness :
  (verdicts demo_check demo_to_vec (fun b _ => N.of_nat (length b)) ∅ [demo_config 6400 []; demo_config 6401 []]).1
  = [Ok tt; Ok tt].
Proof.
  apply (verdicts_transparent demo_check demo_to_vec (fun b _ => N.of_nat (length b))).
  intros c c' b b'. unfold demo_to_vec, demo_check.
  do 2 destruct (String.eqb _ _); intros [= <-] [= <-]; simpl; done.
Defined.

(** ** Where the comments and the code part *)

Definition with_rift (c : ImposterConfig) (r : RiftBlock) : ImposterConfig :=
  {| cfg_port := cfg_port c; cfg_protocol := cfg_protocol c; cfg_stubs := cfg_stubs c; cfg_enabled := cfg_enabled c;
     cfg_rift := Some r; cfg_rest := cfg_rest c |}.

(** A config whose sequencing mode this build refuses is admitted, and runs unsequenced. *)
Lemma unknown_mode_commits :
  let c := with_rift (demo_config 6400 [])
             {| rift_flow_state := None; rift_sequencing := Some (Some "ownr"%string); rift_rest := EmptyString |} in
  validate (PutImposter c None) = Ok tt /\ is_ok (SequencingMode.from_imposter c) = false
  /\ SequencingRegistry.mode_of c = SequencingMode.Local.
Proof. by vm_compute. Qed.

(** A misspelt durability key is admitted and leaves the default durability. *)
Lemma misspelt_key_ignored :
  let c := with_rift (demo_config 6400 [])
             {| rift_flow_state := Some {| fs_extra := {["durabillity"%string := VString "sync"]};
                                           fs_ttl_seconds := 300; fs_flow_id_source := None |};
                rift_sequencing := None; rift_rest := EmptyString |} in
  validate (PutImposter c None) = Ok tt /\ fc_durability <$> FlowConfig_from_imposter c = Ok Durability.Async.
Proof. by vm_compute. Qed.

(** A recorded stub that also carries a response of the user's survives the first
    clearing and not the second. *)
Lemma strip_twice_removes_more :
  let s := {| stub_id := None; stub_space := None; stub_predicates := []; stub_responses := [ROther "recorded:1"; ROther "user"];
              stub_recorded_from := Some "http://up"%string; stub_rest := EmptyString |} in
  let once := (strip_proxy_responses [s]).1 in
  (length once, length (strip_proxy_responses once).1) = (1, 0).
Proof. by vm_compute. Qed.

End Witnesses.
