(* ===== verification/ApplyFacts.v ===== *)
(** * The state machine's own invariants

    What one op does to the tables ([mutate_tables] and its guards): which rows it
    writes, what it leaves alone when it refuses, and the invariants every apply
    preserves. *)

From S2P Require Import Prelude Upstream FlowConfig Control Recorded StateMachine Demo.

Section Facts.
  Context {text : Type} {CD : Codec text} {ER : EngineRules}.

(** Unfold the arm an op takes and split on everything it branches on. *)
Ltac arm_split :=
  simpl;
  unfold put_imposter, patch_stubs, delete_imposter, delete_all, set_enabled, put_routes,
    delete_route, session_key_put, fleet_name_put, proxy_recorded_op, proxy_recorded_clear;
  cbv zeta;
  repeat match goal with
         | |- context [match ?x with _ => _ end] =>
             lazymatch x with
             | context [match _ with _ => _ end] => fail
             | _ => let E := fresh "E" in destruct x eqn:E
             end
         end.

Ltac arm_cases o := destruct o; arm_split.

(** ** Refusals *)

(** A refused op leaves every table as it found it. *)
Lemma mutate_tables_Err L t o index t' reason :
  mutate_tables L t o index = (t', Err reason) -> t' = t.
Proof. arm_cases o; intros H; congruence. Qed.

Lemma decide_op_Err L t request index t' reason :
  decide_op L t request index = (t', Err reason) -> t' = t.
Proof.
  unfold decide_op. destruct (validate _); [|congruence]. destruct (check_preconditions _ _); [|congruence].
  apply mutate_tables_Err.
Qed.

(** ** What an op writes *)

Lemma configs_put_forget t port config : configs (put_forget t port config) = configs t.
Proof. unfold put_forget. case_decide; [done|]. by repeat case_match. Qed.

(** A row is the row the port had, is gone, or is stamped with the applying index. *)
Definition row_stamped (index : N) (row : text) : Prop :=
  exists record, row = to_text record /\ si_revision record = index.

Lemma mutate_configs L t o index t' out p :
  mutate_tables L t o index = (t', out) ->
  configs t' !! p = configs t !! p \/ configs t' !! p = None
  \/ exists row, configs t' !! p = Some row /\ row_stamped index row.
Proof.
  assert (forall q record (m : gmap N text), si_revision record = index ->
    <[q := to_text record]> m !! p = m !! p
    \/ exists row, <[q := to_text record]> m !! p = Some row /\ row_stamped index row) as Hw.
  { intros q record m Hr. destruct (decide (q = p)) as [->|Hne].
    - right. rewrite lookup_insert_eq. unfold row_stamped. eauto.
    - left. by rewrite lookup_insert_ne. }
  arm_cases o; intros H; injection H as <- <-; simpl; rewrite ?configs_put_forget; eauto;
    try (match goal with |- context [<[?q := to_text ?r]> ?m] => destruct (Hw q r m eq_refl); eauto end).
  - destruct (decide (port = p)) as [->|]; [by rewrite lookup_delete_eq; auto|].
    rewrite lookup_delete_ne by done. auto.
  - destruct (decide (port = p)) as [->|]; [by rewrite lookup_delete_eq; auto|].
    rewrite lookup_delete_ne by done. auto.
Qed.

Lemma mutate_routes_revision L t o index t' out :
  mutate_tables L t o index = (t', out) ->
  routes_revision t' = routes_revision t \/ routes_revision t' = Some index.
Proof.
  assert (forall p c, routes_revision (put_forget t p c) = routes_revision t) as Hp.
  { intros p c. unfold put_forget. case_decide; [done|]. by repeat case_match. }
  arm_cases o; intros H; injection H as <- <-; simpl; rewrite ?Hp; auto.
Qed.

(** The session key is the one there was, or a new one stamped with the index. *)
Lemma mutate_session L t o index t' out :
  mutate_tables L t o index = (t', out) ->
  session_key t' = session_key t
  \/ exists key, session_key t' = Some (to_text {| sk_key := key; sk_revision := index |}).
Proof.
  assert (forall p c, session_key (put_forget t p c) = session_key t) as Hp.
  { intros p c. unfold put_forget. case_decide; [done|]. by repeat case_match. }
  arm_cases o; intros H; injection H as <- <-; simpl; rewrite ?Hp; eauto.
Qed.

(** A conditionable op that applied leaves its target stamped, or gone. *)
Definition target_stamped (tg : PreconditionTarget.t) (t : Tables text) (index : N) : Prop :=
  match tg with
  | PreconditionTarget.Imposter p =>
      match configs t !! p with Some row => row_stamped index row | None => True end
  | PreconditionTarget.RouteTable => routes_revision t = Some index
  end.

Lemma mutate_target_stamped L t o index t' actions tg :
  mutate_tables L t o index = (t', Ok actions) -> precondition_target o = Some tg ->
  target_stamped tg t' index.
Proof.
  arm_cases o; intros H Ht; simplify_eq;
    try match goal with E : cfg_port _ = _ |- _ => rewrite E in Ht end; simplify_eq/=;
    rewrite ?lookup_insert_eq, ?lookup_delete_eq; unfold row_stamped; eauto.
Qed.

(** ** Markers *)

Definition markers_owned (t : Tables text) : Prop :=
  forall p h, is_Some (proxy_recorded t !! (p, h)) -> is_Some (configs t !! p).

Lemma lookup_purge (port : N) (m : gmap (N * string) text) p h :
  purge_markers port m !! (p, h) = if decide (p = port) then None else m !! (p, h).
Proof.
  unfold purge_markers. rewrite map_lookup_filter. destruct (m !! (p, h)); simpl; [|by case_decide].
  case_decide; case_guard; simpl in *; tauto.
Qed.

Lemma lookup_forget (port : N) (hs : gset string) (m : gmap (N * string) text) p h :
  forget_markers port hs m !! (p, h) = if decide (p = port /\ h ∈ hs) then None else m !! (p, h).
Proof.
  unfold forget_markers. rewrite map_lookup_filter. destruct (m !! (p, h)); simpl; [|by case_decide].
  case_decide; case_guard; simpl in *; tauto.
Qed.

Lemma put_forget_subset t port config : proxy_recorded (put_forget t port config) ⊆ proxy_recorded t.
Proof. unfold put_forget. case_decide; [done|]. repeat case_match; apply map_filter_subseteq. Qed.

(** A lookup in a filtered table is a lookup in the table. *)
Lemma purge_subset (port : N) (m : gmap (N * string) text) : purge_markers port m ⊆ m.
Proof. apply map_filter_subseteq. Qed.

Lemma forget_subset (port : N) (hs : gset string) (m : gmap (N * string) text) :
  forget_markers port hs m ⊆ m.
Proof. apply map_filter_subseteq. Qed.

Lemma proxy_recorded_markers L t port sig_hash resp stub index t' out p h row :
  proxy_recorded_op L t port sig_hash resp stub index = (t', out) ->
  proxy_recorded t' !! (p, h) = Some row ->
  proxy_recorded t !! (p, h) = Some row
  \/ (proxy_recorded t !! (p, h) = None /\ is_Some (configs t !! p)
      /\ p = port /\ h = sig_hash /\ row = encode_row resp).
Proof.
  unfold proxy_recorded_op. cbv zeta.
  set (merging := match stub with Some _ => _ | None => false end).
  destruct (bool_decide _ && negb merging) eqn:Ha; [intros [= <- <-]; auto|].
  case_decide as Hc; [intros [= <- <-]; auto|].
  assert (is_Some (configs t !! port)) as Hsome by (by destruct (configs t !! port)).
  assert (forall t0, proxy_recorded t0 = <[(port, sig_hash) := encode_row resp]> (proxy_recorded t) ->
    merging = false -> proxy_recorded t0 !! (p, h) = Some row ->
    proxy_recorded t !! (p, h) = Some row
    \/ (proxy_recorded t !! (p, h) = None /\ is_Some (configs t !! p)
        /\ p = port /\ h = sig_hash /\ row = encode_row resp)) as Hins.
  { intros t0 -> Hm. rewrite Hm, andb_true_r in Ha. apply bool_decide_eq_false in Ha.
    rewrite lookup_insert_Some. intros [[[= <- <-] <-]|[_ ?]]; [|by left].
    right. split_and!; try done. by apply eq_None_not_Some. }
  destruct stub as [recorded|]; [|by intros [= <- <-]; apply Hins].
  destruct (read_record t port) as [[record config]|]; [|intros [= <- <-]; auto].
  destruct (place_recorded_stub _ _ _ _ _) as [after placed]. clearbody merging.
  destruct merging; [repeat case_match; intros [= <- <-]; by left|].
  repeat case_match; intros [= <- <-]; by apply Hins.
Qed.

(** Markers only ever shrink, but for the one a recording writes. *)
Lemma mutate_markers L t o index t' out p h row :
  mutate_tables L t o index = (t', out) -> proxy_recorded t' !! (p, h) = Some row ->
  proxy_recorded t !! (p, h) = Some row
  \/ (proxy_recorded t !! (p, h) = None /\ is_Some (configs t !! p)
      /\ exists resp stub, o = ProxyRecorded p h resp stub /\ row = encode_row resp).
Proof.
  intros H Hrow.
  assert ((forall port sig_hash resp stub, o <> ProxyRecorded port sig_hash resp stub) ->
          proxy_recorded t' ⊆ proxy_recorded t) as Hsub.
  { revert H. clear. intros H Hno. revert H.
    destruct o; try (by edestruct Hno); arm_split; intros H; injection H as <- <-; simpl; try done;
      try (by etrans; [apply forget_subset|]; apply put_forget_subset);
      try apply put_forget_subset; try apply forget_subset; try apply purge_subset;
      apply map_empty_subseteq. }
  destruct o; try (left; eapply lookup_weaken; [exact Hrow|by apply Hsub]).
  apply (proxy_recorded_markers _ _ _ _ _ _ _ _ _ p h row) in H; [|done].
  destruct H as [|(? & ? & -> & -> & ->)]; [by left|right; split_and!; eauto].
Qed.

(** The ops that may forget a marker of a port. *)
Definition may_forget (port : N) (o : ControlOp) : bool :=
  match o with
  | PutImposter config _ => bool_decide (cfg_port config = Some port)
  | PatchStubs p _ | DeleteImposter p | ProxyRecordedClear p => (p =? port)%N
  | DeleteAll => true
  | _ => false
  end.

Lemma put_forget_other t port config p h :
  p <> port -> proxy_recorded (put_forget t port config) !! (p, h) = proxy_recorded t !! (p, h).
Proof.
  intros Hne. unfold put_forget. case_decide; [done|].
  repeat case_match; simpl; rewrite ?lookup_purge, ?lookup_forget; by rewrite decide_False by naive_solver.
Qed.

Lemma mutate_markers_kept L t o index t' out p h row :
  mutate_tables L t o index = (t', out) -> may_forget p o = false ->
  proxy_recorded t !! (p, h) = Some row -> is_Some (proxy_recorded t' !! (p, h)).
Proof.
  intros Hm Hf Hrow. revert Hm.
  destruct o as [config restart|port edit|port| |port enabled|table|id|key|name|port sig resp stub|port]; simpl in Hf;
    try apply bool_decide_eq_false in Hf; try apply N.eqb_neq in Hf; try done; arm_split;
    intros H; injection H as <- <-; simpl;
    rewrite ?lookup_purge, ?lookup_forget, ?decide_False, ?put_forget_other by naive_solver;
    rewrite ?lookup_insert_is_Some'; eauto.
Qed.

Definition merging (stub : option RecordedStub) : bool :=
  match stub with Some r => bool_decide (rs_placement r = Placement.AfterProxyMerging) | None => false end.

(** A recording that is not merged into a stub leaves its marker when it applies. *)
Lemma recording_marks L t port h resp stub index t' acts :
  proxy_recorded_op L t port h resp stub index = (t', Ok acts) -> merging stub = false ->
  is_Some (proxy_recorded t' !! (port, h)).
Proof.
  unfold proxy_recorded_op. fold (merging stub). cbv zeta. intros H Hm. rewrite Hm in H.
  destruct (bool_decide (is_Some _)) eqn:Ha; simpl in H.
  { injection H as <- _. by apply bool_decide_eq_true in Ha. }
  case_decide; [done|]. destruct stub as [recorded|]; [|injection H as <- _; simpl; rewrite lookup_insert_eq; eauto].
  destruct (read_record t port) as [[record config]|]; [|done].
  destruct (place_recorded_stub _ _ _ _ _) as [after placed].
  destruct placed; repeat case_match; injection H as <- _; simpl; rewrite lookup_insert_eq; eauto.
Qed.

(** A port that loses its row loses its markers in the same op. *)
Lemma mutate_removed L t o index t' out p h :
  mutate_tables L t o index = (t', out) ->
  is_Some (configs t !! p) -> configs t' !! p = None -> proxy_recorded t' !! (p, h) = None.
Proof.
  intros H [row Hp] Hnone. revert H Hnone.
  assert (forall q (r : text) (m : gmap N text), m !! p = Some row -> <[q := r]> m !! p <> None) as Hw.
  { intros q r m Hm. rewrite lookup_insert_None. intros [? _]. congruence. }
  arm_cases o; intros H; injection H as <- <-; simpl; rewrite ?configs_put_forget; intros Hnone;
    try (exfalso; by apply (Hw _ _ _ Hp) in Hnone); try congruence.
  - apply lookup_delete_None in Hnone as [->|?]; [|congruence].
    rewrite lookup_purge. by rewrite decide_True.
  - apply lookup_delete_None in Hnone as [->|?]; [|congruence].
    rewrite lookup_purge. by rewrite decide_True.
  - apply lookup_empty.
Qed.

Lemma mutate_markers_owned L t o index t' out :
  mutate_tables L t o index = (t', out) -> markers_owned t -> markers_owned t'.
Proof.
  intros H Hown p h [row Hrow].
  assert (is_Some (configs t !! p)) as Hp.
  { destruct (mutate_markers _ _ _ _ _ _ _ _ _ H Hrow) as [Hr|(_ & Hp & _)]; [|done].
    apply (Hown p h). by rewrite Hr. }
  destruct (configs t' !! p) eqn:Hc; [done|].
  by rewrite (mutate_removed _ _ _ _ _ _ _ h H Hp Hc) in Hrow.
Qed.

(** ** Well-formed tables *)

(** A stored row reads back as a config of its own port, whose enabled flag is the
    record's. *)
Definition row_wf (p : N) (row : text) : Prop :=
  exists config revision,
    row = to_text (Build_StoredImposter (to_text config) (cfg_enabled config) revision)
    /\ cfg_port config = Some p /\ p <> 0%N.

Definition session_wf (row : text) : Prop :=
  exists key, row = to_text key /\ validate_session_key (sk_key key) = Ok tt.

Definition tables_wf (t : Tables text) : Prop :=
  (forall p row, configs t !! p = Some row -> row_wf p row)
  /\ (forall id row, routes t !! id = Some row -> exists r, row = to_text r /\ route_id r = id)
  /\ (forall row, session_key t = Some row -> session_wf row).

Lemma read_record_wf t p :
  tables_wf t -> is_Some (configs t !! p) ->
  exists config revision,
    read_record t p = Ok (Build_StoredImposter (to_text config) (cfg_enabled config) revision, config)
    /\ cfg_port config = Some p /\ p <> 0%N.
Proof.
  intros [Hc _] [row Hrow]. destruct (Hc _ _ Hrow) as (config & revision & -> & Hport & Hnz).
  exists config, revision. unfold read_record. rewrite Hrow, !from_to_text. simpl.
  by rewrite from_to_text.
Qed.

Lemma read_record_Ok t p record config :
  read_record t p = Ok (record, config) -> is_Some (configs t !! p).
Proof. unfold read_record. by destruct (configs t !! p). Qed.

Lemma wf_write t p config index :
  tables_wf t -> cfg_port config = Some p -> p <> 0%N ->
  tables_wf (write_record p (Build_StoredImposter (to_text config) (cfg_enabled config) index) t).
Proof.
  intros (Hc & Hr & Hs) Hp Hnz. split_and!; [|done|done]. intros q row. simpl.
  rewrite lookup_insert_Some. intros [[<- <-]|[_ Hrow]]; [|by apply Hc].
  by exists config, index.
Qed.

Lemma wf_markers t f : tables_wf t -> tables_wf (set_proxy_recorded f t).
Proof. by intros (Hc & Hr & Hs). Qed.

Lemma wf_put_forget t p config : tables_wf t -> tables_wf (put_forget t p config).
Proof. intros H. unfold put_forget. case_decide; [done|]. repeat case_match; by apply wf_markers. Qed.

Lemma wf_delete t f :
  (forall p row, f (configs t) !! p = Some row -> configs t !! p = Some row) ->
  tables_wf t -> tables_wf (set_configs f t).
Proof. intros Hf (Hc & Hr & Hs). split_and!; [|done|done]. intros p row Hp. by apply Hc, Hf. Qed.

Lemma foldl_insert_lookup (table : list Route) (m : gmap string text) id row :
  foldl (fun m r => <[route_id r := to_text r]> m) m table !! id = Some row ->
  m !! id = Some row \/ exists r, r ∈ table /\ route_id r = id /\ row = to_text r.
Proof.
  revert m. induction table as [|r table IH]; intros m; simpl; [auto|].
  intros [Hm|(r' & ? & ? & ?)]%IH; [|right; exists r'; set_solver].
  apply lookup_insert_Some in Hm as [[<- <-]|[_ Hm]]; [right; exists r; set_solver|auto].
Qed.

Lemma wf_put_routes t table index :
  tables_wf t -> tables_wf (set_routes (fun _ => foldl (fun m r => <[route_id r := to_text r]> m) ∅ table) index t).
Proof.
  intros (Hc & Hr & Hs). split_and!; [done| |done]. intros id row. simpl.
  intros [Hm|(r & _ & ? & ->)]%foldl_insert_lookup; [by rewrite lookup_empty in Hm|eauto].
Qed.

Lemma wf_delete_route t id index : tables_wf t -> tables_wf (set_routes (delete id) index t).
Proof.
  intros (Hc & Hr & Hs). split_and!; [done| |done]. intros i row. simpl.
  rewrite lookup_delete_Some. intros [_ ?]. by apply Hr.
Qed.

Lemma wf_session t key index :
  tables_wf t -> validate_session_key key = Ok tt ->
  tables_wf (set_session_key (to_text {| sk_key := key; sk_revision := index |}) t).
Proof.
  intros (Hc & Hr & Hs) Hk. split_and!; [done|done|]. intros row. simpl. intros [= <-].
  by eexists.
Qed.

Lemma put_imposter_wf L t config restart index :
  tables_wf t -> validate_replicable_config config = Ok tt ->
  tables_wf (put_imposter L t config restart index).1.
Proof.
  intros Hwf Hv. unfold put_imposter. unfold validate_replicable_config in Hv.
  destruct (cfg_port config) as [p|] eqn:Hp; [|done].
  destruct (N.eqb_spec p 0) as [->|Hnz]; [done|]. cbv zeta.
  destruct (degraded L); case_decide; apply wf_write; try done; try apply wf_markers; by apply wf_put_forget.
Qed.

Lemma proxy_recorded_op_wf L t port sig_hash resp stub index :
  tables_wf t -> tables_wf (proxy_recorded_op L t port sig_hash resp stub index).1.
Proof.
  intros Hwf. unfold proxy_recorded_op. cbv zeta.
  case_match; [done|]. case_decide; [done|]. destruct stub as [recorded|]; [|by apply wf_markers].
  destruct (read_record t port) as [[record config]|] eqn:Hrec; [|done].
  destruct (read_record_wf t port Hwf (read_record_Ok _ _ _ _ Hrec)) as (config' & rev & Hrec' & Hp & Hnz).
  rewrite Hrec in Hrec'. injection Hrec' as -> ->. simpl.
  destruct (place_recorded_stub _ _ _ _ _) as [after placed].
  pose proof (wf_write t port (with_stubs config' after) index Hwf Hp Hnz) as Hw.
  destruct placed; repeat case_match; simpl; try apply wf_markers; exact Hw.
Qed.

Lemma proxy_recorded_clear_wf L t port index :
  tables_wf t -> tables_wf (proxy_recorded_clear L t port index).1.
Proof.
  intros Hwf. unfold proxy_recorded_clear. cbv zeta.
  pose proof (wf_markers t (purge_markers port) Hwf) as Hwf1.
  set (t1 := set_proxy_recorded _ t) in *. clearbody t1.
  destruct (read_record t1 port) as [[record config]|] eqn:Hrec; [|done].
  destruct (read_record_wf t1 port Hwf1 (read_record_Ok _ _ _ _ Hrec)) as (config' & rev & Hrec' & Hp & Hnz).
  rewrite Hrec in Hrec'. injection Hrec' as -> ->. simpl.
  case_match; case_match; simpl; try done; by apply (wf_write t1 port (with_stubs config' _) index).
Qed.

Lemma mutate_tables_wf L t o index :
  tables_wf t -> validate o = Ok tt -> tables_wf (mutate_tables L t o index).1.
Proof.
  intros Hwf Hv. destruct o; simpl in *.
  - by apply put_imposter_wf.
  - unfold patch_stubs. destruct (read_record t port) as [[record config]|] eqn:Hrec; [|done].
    destruct (read_record_wf t port Hwf (read_record_Ok _ _ _ _ Hrec)) as (config' & rev & Hrec' & Hp & Hnz).
    rewrite Hrec in Hrec'. injection Hrec' as -> ->. case_match; [|done]. simpl.
    by apply wf_markers, (wf_write t port (with_stubs config' _) index).
  - unfold delete_imposter. cbv zeta. case_match; simpl; apply wf_markers, wf_delete; try done;
      intros p row; by rewrite lookup_delete_Some; intros [].
  - apply wf_markers, wf_delete; [|done]. intros p row Hp. by rewrite lookup_empty in Hp.
  - unfold set_enabled. destruct (read_record t port) as [[record config]|] eqn:Hrec; [|done].
    destruct (read_record_wf t port Hwf (read_record_Ok _ _ _ _ Hrec)) as (config' & rev & Hrec' & Hp & Hnz).
    rewrite Hrec in Hrec'. injection Hrec' as -> ->. simpl.
    by apply (wf_write t port (with_enabled config' enabled) index).
  - by apply wf_put_routes.
  - by apply wf_delete_route.
  - by apply wf_session.
  - by destruct Hwf as (? & ? & ?).
  - by apply proxy_recorded_op_wf.
  - by apply proxy_recorded_clear_wf.
Qed.

(** ** One entry *)

(** What an entry does to the tables: nothing, or the decided op of a fresh request. *)
Lemma apply_entry_cases L s e s' resp acts :
  apply_entry L s e = Ok (s', resp, acts) ->
  (tables s' = tables s /\ acts = [])
  \/ exists request out,
       e_payload e = Normal request
       /\ decide_op L (tables s) request (lid_index (e_log_id e)) = (tables s', out)
       /\ resp = response_of (lid_index (e_log_id e)) out
       /\ acts = attribute (principal request) out.
Proof.
  unfold apply_entry. destruct (e_payload e) as [|request|m]; [intros [= <- <- <-]; auto| |intros [= <- <- <-]; auto].
  unfold apply_normal. cbv zeta. destruct (dedup_hit _ _ _) as [[r|]|]; [intros [= <- <- <-]; auto| |done].
  simpl. destruct (decide_op _ _ _ _) as [t out] eqn:Hd. intros [= <- <- <-]. right. by exists request, out.
Qed.

(** A property of the tables that every decided op preserves holds after a batch. *)
Lemma apply_entries_tables (P : Tables text -> Prop) L s es s' rs acts :
  (forall t request index, P t -> P (decide_op L t request index).1) ->
  apply_entries L s es = Ok (s', rs, acts) -> P (tables s) -> P (tables s').
Proof.
  intros HP. revert s rs acts. induction es as [|e es IH]; intros s rs acts; simpl; [by intros [= <- <- <-]|].
  destruct (apply_entry L s e) as [[[s1 r] a]|] eqn:He; [|done].
  destruct (apply_entries L s1 es) as [[[s2 rs'] a']|] eqn:Hes; [|done]. intros [= <- <- <-] Hs.
  eapply IH; [done|]. apply apply_entry_cases in He as [[-> _]|(request & out & _ & Hd & _)]; [done|].
  specialize (HP (tables s) request (lid_index (e_log_id e)) Hs). by rewrite Hd in HP.
Qed.

Lemma decide_op_wf L t request index : tables_wf t -> tables_wf (decide_op L t request index).1.
Proof.
  intros H. unfold decide_op. destruct (validate (op request)) as [[]|] eqn:Hv; [|done].
  destruct (check_preconditions _ _); [|done]. by apply mutate_tables_wf.
Qed.

Lemma decide_op_owned L t request index : markers_owned t -> markers_owned (decide_op L t request index).1.
Proof.
  intros H. unfold decide_op. destruct (validate (op request)); [|done].
  destruct (check_preconditions _ _); [|done].
  destruct (mutate_tables _ _ _ _) as [t' out] eqn:Hm. by eapply mutate_markers_owned.
Qed.

(** C7: a batch preserves the well-formedness of the replicated tables. If every stored
    row reads back as an imposter of its own non-zero port whose enabled flag is the
    record's, every route row as the route it is keyed by and the session key as 32 bytes
    of hex, and every recorded marker belongs to an imposter that exists, then so it is
    after any batch of entries, accepted or refused. *)
Theorem sm_apply_invariant L s es s' rs acts :
  sm_apply L s es = Ok (s', rs, acts) ->
  tables_wf (tables s) /\ markers_owned (tables s) ->
  tables_wf (tables s') /\ markers_owned (tables s').
Proof.
  unfold sm_apply. cbv zeta. intros H [Hwf Hown]. split.
  - eapply (apply_entries_tables tables_wf); [|exact H|exact Hwf]. intros. by apply decide_op_wf.
  - eapply (apply_entries_tables markers_owned); [|exact H|exact Hown]. intros. by apply decide_op_owned.
Qed.

(** A refused op is committed but inert: whatever refused it, an entry answered
    [Failed] leaves every replicated table as it was and drives nothing. *)
Theorem failed_entry_inert L s e s' resp acts reason :
  apply_entry L s e = Ok (s', resp, acts) -> cr_outcome resp = Failed reason ->
  tables s' = tables s /\ acts = [].
Proof.
  intros [?|(request & out & _ & Hd & -> & ->)]%apply_entry_cases Hf; [done|].
  destruct out; [done|]. split; [by eapply decide_op_Err|done].
Qed.

(** The first recording wins. No entry ever replaces the response a marker holds:
    a marker keeps its row until an edit, a clear or a delete removes it. *)
Theorem marker_write_once L s e s' resp acts k row row' :
  apply_entry L s e = Ok (s', resp, acts) ->
  proxy_recorded (tables s) !! k = Some row -> proxy_recorded (tables s') !! k = Some row' ->
  row' = row.
Proof.
  intros [[-> _]|(request & out & _ & Hd & _)]%apply_entry_cases Hk Hk'; [congruence|].
  unfold decide_op in Hd. destruct (validate _); [|simplify_eq; congruence].
  destruct (check_preconditions _ _); [|simplify_eq; congruence]. destruct k as [p h].
  destruct (mutate_markers _ _ _ _ _ _ _ _ _ Hd Hk') as [|(? & _)]; congruence.
Qed.

(** A marker stays through every entry that may not forget it. *)
Definition entry_forgets (port : N) (e : Entry) : bool :=
  match e_payload e with Normal request => may_forget port (op request) | _ => false end.

Lemma apply_entry_kept L s e s' resp acts p h :
  apply_entry L s e = Ok (s', resp, acts) -> entry_forgets p e = false ->
  is_Some (proxy_recorded (tables s) !! (p, h)) -> is_Some (proxy_recorded (tables s') !! (p, h)).
Proof.
  intros [[-> _]|(request & out & Hp & Hd & _)]%apply_entry_cases Hf [row Hrow]; [by exists row|].
  unfold entry_forgets in Hf. rewrite Hp in Hf. unfold decide_op in Hd.
  destruct (validate _); [|injection Hd as <- _; by exists row].
  destruct (check_preconditions _ _); [|injection Hd as <- _; by exists row]. by eapply mutate_markers_kept.
Qed.

Lemma apply_entries_kept L p h : forall es s s' rs acts,
  apply_entries L s es = Ok (s', rs, acts) -> forallb (fun e => negb (entry_forgets p e)) es = true ->
  is_Some (proxy_recorded (tables s) !! (p, h)) -> is_Some (proxy_recorded (tables s') !! (p, h)).
Proof.
  induction es as [|e es IH]; simpl; intros s s' rs acts H Hf Hs; [by injection H as <- _ _|].
  apply andb_true_iff in Hf as [He%negb_true_iff Hf].
  destruct (apply_entry L s e) as [[[s1 r] a]|] eqn:E; [|done].
  destruct (apply_entries L s1 es) as [[[s2 rs2] a2]|] eqn:E2; [|done]. injection H as <- _ _.
  eapply IH; [exact E2|done|]. by eapply apply_entry_kept.
Qed.

(** ** Optimistic concurrency *)

(** No stored revision and no remembered response is newer than [n]. *)
Definition configs_below (n : N) (t : Tables text) : Prop :=
  forall p row record, configs t !! p = Some row ->
    from_text (A := StoredImposter text) row = Ok record -> (si_revision record <= n)%N.

Definition routes_below (n : N) (t : Tables text) : Prop :=
  forall r, routes_revision t = Some r -> (r <= n)%N.

Definition revisions_below (n : N) (s : Sm text) : Prop :=
  configs_below n (tables s) /\ routes_below n (tables s)
  /\ (forall k row d, dedup_rows s !! k = Some row -> from_text (A := DedupEntry) row = Ok d ->
        (cr_revision (de_response d) <= n)%N).

(** The target was last written at [n] or later, or is gone. *)
Definition target_past (tg : PreconditionTarget.t) (n : N) (t : Tables text) : Prop :=
  match tg with
  | PreconditionTarget.Imposter p =>
      forall row record, configs t !! p = Some row ->
        from_text (A := StoredImposter text) row = Ok record -> (n <= si_revision record)%N
  | PreconditionTarget.RouteTable => exists r, routes_revision t = Some r /\ (n <= r)%N
  end.

Lemma stamped_revision index row record :
  row_stamped index row -> from_text (A := StoredImposter text) row = Ok record -> si_revision record = index.
Proof. intros (r & -> & <-). rewrite from_to_text. by intros [= ->]. Qed.

Lemma stamped_past tg t n index : target_stamped tg t index -> (n <= index)%N -> target_past tg n t.
Proof.
  destruct tg as [p|]; simpl; [|eauto]. intros Hst Hle row record Hrow Hrec. rewrite Hrow in Hst.
  by rewrite (stamped_revision _ _ _ Hst Hrec).
Qed.

Lemma decide_op_tables (P : Tables text -> Prop) L t request index t' out :
  decide_op L t request index = (t', out) ->
  P t -> (forall t0 o0, mutate_tables L t (op request) index = (t0, o0) -> P t0) -> P t'.
Proof.
  unfold decide_op. destruct (validate _); [|by intros [= <- <-]].
  destruct (check_preconditions _ _); [|by intros [= <- <-]]. intros H _ HP. by eapply HP.
Qed.

Lemma target_past_step tg n L t request index t' out :
  decide_op L t request index = (t', out) -> (n <= index)%N -> target_past tg n t -> target_past tg n t'.
Proof.
  intros Hd Hle Hp. apply (decide_op_tables _ _ _ _ _ _ _ Hd Hp). intros t0 o0 Hm.
  destruct tg as [p|]; simpl in *.
  - intros row record Hrow Hrec.
    destruct (mutate_configs _ _ _ _ _ _ p Hm) as [E|[E|(row' & E & Hst)]]; rewrite Hrow in E; simplify_eq.
    + symmetry in E. by eapply Hp.
    + by rewrite (stamped_revision _ _ _ Hst Hrec).
  - destruct (mutate_routes_revision _ _ _ _ _ _ Hm) as [->| ->]; [done|eauto].
Qed.

Lemma check_expected_revision_Ok t o r tg :
  check_expected_revision t o r = Ok tt -> precondition_target o = Some tg ->
  forall n, target_past tg n t -> (n <= r)%N.
Proof.
  unfold check_expected_revision. intros H Htg n Hp. rewrite Htg in H. destruct tg as [p|]; simpl in *.
  - destruct (configs t !! p) as [row|]; [|done].
    destruct (from_text row) as [record|] eqn:Hrec; [|done].
    destruct (N.eqb_spec (si_revision record) r) as [<-|]; [|done]. by eapply Hp.
  - destruct Hp as (r0 & Hr0 & Hle). rewrite Hr0 in H. simpl in H.
    by destruct (N.eqb_spec r0 r) as [<-|].
Qed.

(** The stored revision an op was conditioned on is no newer than the state. *)
Lemma check_expected_revision_le n s o r :
  revisions_below n s -> check_expected_revision (tables s) o r = Ok tt -> (r <= n)%N.
Proof.
  intros (Hc & Hr & _). unfold check_expected_revision. repeat case_match; try done; bool_props; intros _; subst.
  - by eapply Hc.
  - destruct (routes_revision (tables s)) eqn:E; simpl in *; [by apply Hr|lia].
Qed.

Lemma dedup_hit_le n s key clock resp :
  revisions_below n s -> dedup_hit (dedup_rows s) key clock = Ok (Some resp) -> (cr_revision resp <= n)%N.
Proof.
  intros (_ & _ & Hd). unfold dedup_hit. destruct (dedup_rows s !! key) as [row|] eqn:Hrow; [|done].
  destruct (from_text row) as [d|] eqn:Hf; [|done]. case_match; [|done]. intros [= <-]. by eapply Hd.
Qed.

Lemma response_revision index out : cr_revision (response_of index out) = index.
Proof. by destruct out. Qed.

(** An entry answered with its own index was not a replay. *)
Lemma apply_entry_fresh n L s e s' acts request :
  revisions_below n s -> (n < lid_index (e_log_id e))%N -> e_payload e = Normal request ->
  apply_entry L s e = Ok (s', response_applied (lid_index (e_log_id e)), acts) ->
  exists actions, decide_op L (tables s) request (lid_index (e_log_id e)) = (tables s', Ok actions).
Proof.
  intros Hb Hlt Hp. unfold apply_entry. rewrite Hp. unfold apply_normal. cbv zeta. simpl.
  destruct (dedup_hit _ _ _) as [[resp|]|] eqn:Hh; [|destruct (decide_op _ _ _ _) as [t out]|done].
  - intros [= <- -> <-]. apply (dedup_hit_le n) in Hh; [simpl in Hh; lia|done].
  - intros [= <- Hr <-]. exists (match out with Ok a => a | Err _ => [] end). simpl. by destruct out.
Qed.

Lemma revisions_below_step n L s e s' resp acts :
  revisions_below n s -> (n <= lid_index (e_log_id e))%N -> apply_entry L s e = Ok (s', resp, acts) ->
  revisions_below (lid_index (e_log_id e)) s'.
Proof.
  set (i := lid_index (e_log_id e)). intros Hb Hle. destruct Hb as (Hc & Hr & Hd).
  assert (revisions_below i s) as Hs.
  { split_and!; [intros p row record Hrow Hrec; etrans; [by eapply Hc|done]
                  |intros r Hrr; etrans; [by eapply Hr|done]|intros; etrans; [by eapply Hd|done]]. }
  unfold apply_entry. fold i. destruct (e_payload e) as [|request|m]; try (by intros [= <- <- <-]).
  unfold apply_normal. cbv zeta. simpl. fold i.
  destruct (dedup_hit _ _ _) as [[r|]|]; [by intros [= <- <- <-]| |done].
  destruct (decide_op _ _ _ _) as [t out] eqn:Hdo. intros [= <- <- <-]. simpl.
  destruct Hs as (Hc' & Hr' & Hd').
  assert (forall P : Tables text -> Prop, P (tables s) ->
    (forall t0 o0, mutate_tables L (tables s) (op request) i = (t0, o0) -> P t0) -> P t) as Hall
    by (intros P; by apply (decide_op_tables P _ _ _ _ _ _ Hdo)).
  split_and!; simpl.
  - apply (Hall (configs_below i)); [done|].
    intros t0 o0 Hm p row record Hrow Hrec.
    destruct (mutate_configs _ _ _ _ _ _ p Hm) as [E|[E|(row' & E & Hst)]]; rewrite Hrow in E; simplify_eq.
    + symmetry in E. by eapply Hc'.
    + by rewrite (stamped_revision _ _ _ Hst Hrec).
  - apply (Hall (routes_below i)); [done|].
    intros t0 o0 Hm r Hrr. destruct (mutate_routes_revision _ _ _ _ _ _ Hm) as [E|E]; rewrite Hrr in E.
    + symmetry in E. by apply Hr'.
    + by simplify_eq.
  - intros k row d. rewrite lookup_insert_Some. intros [[<- <-]|[_ Hrow]]; [|by eapply Hd'].
    rewrite from_to_text. intros [= <-]. simpl. by rewrite response_revision.
Qed.

Lemma increasing_cons e es n :
  Sorted N.lt (n :: ((fun e => lid_index (e_log_id e)) <$> (e :: es))) ->
  (n < lid_index (e_log_id e))%N /\ Sorted N.lt (lid_index (e_log_id e) :: ((fun e => lid_index (e_log_id e)) <$> es)).
Proof. simpl. intros H. apply Sorted_inv in H as [Hs Hh]. by apply HdRel_inv in Hh. Qed.

Lemma decide_op_expected L t request index t' actions r :
  expected_revision request = Some r -> decide_op L t request index = (t', Ok actions) ->
  check_expected_revision t (op request) r = Ok tt
  /\ mutate_tables L t (op request) index = (t', Ok actions).
Proof.
  intros Hr. unfold decide_op, check_preconditions. rewrite Hr.
  destruct (validate _); [|done]. destruct (expect_absent request); [done|].
  by destruct (check_expected_revision _ _ _) as [[]|].
Qed.

(** The log indices of a run, all above [n] and increasing. *)
Definition indices (es : list Entry) : list N := (fun e => lid_index (e_log_id e)) <$> es.

Lemma target_past_entries tg n m L es s s' rs acts :
  (n <= m)%N -> Sorted N.lt (m :: indices es) -> apply_entries L s es = Ok (s', rs, acts) ->
  revisions_below m s -> target_past tg n (tables s) ->
  target_past tg n (tables s') /\ exists m', (m <= m')%N /\ revisions_below m' s'
    /\ (forall k, Sorted N.lt (m :: indices (es ++ [k])) -> (m' < lid_index (e_log_id k))%N).
Proof.
  revert m s rs acts. induction es as [|e es IH]; intros m s rs acts Hnm Hs; simpl.
  - intros [= <- <- <-] Hb Hp. split; [done|]. exists m. split_and!; [lia|done|].
    intros k Hk. by apply (increasing_cons k [] m) in Hk as [? _].
  - apply increasing_cons in Hs as [Hlt Hs].
    destruct (apply_entry L s e) as [[[s1 r] a]|] eqn:He; [|done].
    destruct (apply_entries L s1 es) as [[[s2 rs'] a']|] eqn:Hes; [|done]. intros [= <- <- <-] Hb Hp.
    assert (revisions_below (lid_index (e_log_id e)) s1) as Hb1.
    { eapply revisions_below_step; [exact Hb| |exact He]. lia. }
    assert (target_past tg n (tables s1)) as Hp1.
    { apply apply_entry_cases in He as [[-> _]|(request & out & _ & Hd & _)]; [done|].
      eapply target_past_step; [exact Hd| |done]. lia. }
    destruct (IH (lid_index (e_log_id e)) _ _ _ ltac:(lia) Hs Hes Hb1 Hp1) as (Hp2 & m' & Hm' & Hb2 & Hk).
    split; [done|]. exists m'. split_and!; [lia|done|].
    intros k Hk'. apply (increasing_cons e (es ++ [k]) m) in Hk' as [_ Hk'']. by apply Hk.
Qed.

(** C6: no lost updates. Of two writes conditioned on the same revision of the same
    record - an imposter or the route table - at most one takes effect: if the first was
    applied at its own log index, then however many entries lie between them the second
    is not. *)
Theorem no_lost_update n L s e1 s1 a1 mid s2 rm am e2 s3 a2 q1 q2 r tg :
  revisions_below n s -> Sorted N.lt (n :: indices (e1 :: mid ++ [e2])) ->
  e_payload e1 = Normal q1 -> e_payload e2 = Normal q2 ->
  expected_revision q1 = Some r -> expected_revision q2 = Some r ->
  precondition_target (op q1) = Some tg -> precondition_target (op q2) = Some tg ->
  apply_entry L s e1 = Ok (s1, response_applied (lid_index (e_log_id e1)), a1) ->
  apply_entries L s1 mid = Ok (s2, rm, am) ->
  apply_entry L s2 e2 <> Ok (s3, response_applied (lid_index (e_log_id e2)), a2).
Proof.
  intros Hb Hs Hp1 Hp2 Hr1 Hr2 Ht1 Ht2 H1 Hm H2.
  apply increasing_cons in Hs as [Hlt Hs].
  pose proof (revisions_below_step _ _ _ _ _ _ _ Hb (N.lt_le_incl _ _ Hlt) H1) as Hb1.
  destruct (apply_entry_fresh _ _ _ _ _ _ _ Hb Hlt Hp1 H1) as [acts1 Hd1].
  destruct (decide_op_expected _ _ _ _ _ _ _ Hr1 Hd1) as [Hc1 Hm1]. clear Hd1.
  pose proof (check_expected_revision_le _ _ _ _ Hb Hc1) as Hrn.
  pose proof (stamped_past _ _ _ _ (mutate_target_stamped _ _ _ _ _ _ _ Hm1 Ht1) (N.le_refl _)) as Hpast.
  assert (Sorted N.lt (lid_index (e_log_id e1) :: indices mid)) as Hs1.
  { unfold indices in *. rewrite fmap_app in Hs. by apply (Sorted_app_inv_l N.lt (_ :: _) _) in Hs. }
  destruct (target_past_entries tg _ _ L mid s1 s2 rm am (N.le_refl _) Hs1 Hm Hb1 Hpast)
    as (Hpast2 & m' & Hm' & Hb2 & Hk).
  destruct (apply_entry_fresh _ _ _ _ _ _ _ Hb2 (Hk _ Hs) Hp2 H2) as [acts2 Hd2].
  destruct (decide_op_expected _ _ _ _ _ _ _ Hr2 Hd2) as [Hc2 _].
  pose proof (check_expected_revision_Ok _ _ _ _ Hc2 Ht2 _ Hpast2). lia.
Qed.

End Facts.

(** ** Witnesses *)

#[local] Existing Instances demo_codec demo_rules.

Lemma sm_apply_invariant_witness :
  tables_wf (tables (state_after initial [e_put; e_record]))
  /\ markers_owned (tables (state_after initial [e_put; e_record])).
Proof.
  apply (sm_apply_invariant demo_local initial [e_put; e_record] (state_after initial [e_put; e_record])
           (responses_after initial [e_put; e_record]) (actions_after initial [e_put; e_record])).
  - vm_compute. reflexivity.
  - split; [split_and!|].
    + intros p row H. simpl in H. by rewrite lookup_empty in H.
    + intros id row H. simpl in H. by rewrite lookup_empty in H.
    + intros row H. discriminate H.
    + intros p h [row H]. simpl in H. by rewrite lookup_empty in H.
Defined.

Lemma failed_entry_inert_witness :
  tables (step_state initial (e_edit 3 "x" None)) = tables initial /\ step_actions initial (e_edit 3 "x" None) = [].
Proof.
  apply (failed_entry_inert demo_local initial (e_edit 3 "x" None) (step_state initial (e_edit 3 "x" None))
           (step_response initial (e_edit 3 "x" None)) (step_actions initial (e_edit 3 "x" None))
           "no imposter on port 6400").
  - vm_compute. reflexivity.
  - vm_compute. reflexivity.
Defined.

Lemma marker_write_once_witness :
  let s := state_after initial [e_put; e_record] in
  let e := demo_entry 3 (demo_request "op-3" 12 None
             (ProxyRecorded 6400 "00ff" {| rr_status := 500; rr_headers := []; rr_body := []; rr_latency_ms := None;
                                           rr_timestamp_secs := 9 |} None)) in
  proxy_recorded (tables (step_state s e)) !! (6400%N, "00ff") = proxy_recorded (tables s) !! (6400%N, "00ff").
Proof.
  intros s e.
  assert (proxy_recorded (tables s) !! (6400%N, "00ff") = Some (encode_row demo_response)) as H by (vm_compute; reflexivity).
  rewrite H. destruct (proxy_recorded (tables (step_state s e)) !! (6400%N, "00ff")) as [row'|] eqn:H'.
  - f_equal. apply (marker_write_once demo_local s e (step_state s e) (step_response s e) (step_actions s e)
                      (6400%N, "00ff") (encode_row demo_response) row'); [vm_compute; reflexivity|exact H|exact H'].
  - vm_compute in H'. discriminate H'.
Defined.

Lemma no_lost_update_witness :
  let s := state_after initial [e_put] in
  let e1 := e_edit 2 "a" (Some 1%N) in
  let e2 := e_edit 4 "b" (Some 1%N) in
  let mid := [e_edit 3 "c" None] in
  let s1 := step_state s e1 in
  let s2 := match apply_entries demo_local s1 mid with Ok (s2, _, _) => s2 | Err _ => s1 end in
  apply_entry demo_local s2 e2 <> Ok (s2, response_applied 4, []).
Proof.
  intros s e1 e2 mid s1 s2.
  apply (no_lost_update 1 demo_local s e1 s1 (step_actions s e1) mid s2
           (match apply_entries demo_local s1 mid with Ok (_, rs, _) => rs | Err _ => [] end)
           (match apply_entries demo_local s1 mid with Ok (_, _, a) => a | Err _ => [] end) e2 s2 []
           (demo_request "a" 12 (Some 1%N) (PatchStubs 6400 [Add (plain_stub (Some "a") []) None]))
           (demo_request "b" 12 (Some 1%N) (PatchStubs 6400 [Add (plain_stub (Some "b") []) None]))
           1%N (PreconditionTarget.Imposter 6400)); try (vm_compute; reflexivity).
  - split_and!.
    + intros p row record Hp Hr. assert (p = 6400%N) as ->.
      { destruct (decide (p = 6400%N)); [done|]. exfalso.
        assert (configs (tables s) = <[6400%N := DStored (DConfig (demo_config 6400 [proxy_stub])) true 1]> ∅) as E
          by (vm_compute; reflexivity).
        rewrite E, lookup_insert_ne, lookup_empty in Hp by done. discriminate Hp. }
      vm_compute in Hp. injection Hp as <-. injection Hr as <-. simpl. lia.
    + intros r Hr. discriminate Hr.
    + intros k row d Hk Hd.
      assert (dedup_rows s = <["op-1" := DDedup {| de_response := response_applied 1; de_expires_at_secs := 86410 |}]> ∅) as E
        by (vm_compute; reflexivity).
      rewrite E in Hk. apply lookup_insert_Some in Hk as [[_ <-]|[_ Hk]]; [injection Hd as <-; simpl; lia|].
      by rewrite lookup_empty in Hk.
  - repeat constructor; vm_compute; reflexivity.
Defined.
