(* ===== verification/Replica.v ===== *)
(** * Replicas agree

    What apply computes from the log alone. Two nodes apply the same entries with
    different engines, different failures and different batch boundaries; this file
    proves that they give the same responses and hold the same tables, that apply
    never fails, and that a replayed op is answered from the dedup window without
    touching anything. The dedup tables themselves may differ in rows whose window
    has closed, since the sweep runs once per batch: states are compared up to
    those ([sm_equiv]). *)

From S2P Require Import Prelude Upstream FlowConfig Control Recorded StateMachine Demo ApplyFacts.

Section Replica.
  Context {text : Type} {CD : Codec text} {ER : EngineRules}.

(** A node applying its log: each batch is applied under what the node knew then. *)
Fixpoint run (s : Sm text) (batches : list (Local * list Entry))
    : result string (Sm text * list ControlResponse) :=
  match batches with
  | [] => Ok (s, [])
  | (L, es) :: rest =>
      match sm_apply L s es with
      | Err e => Err e
      | Ok (s1, rs, _) =>
          match run s1 rest with
          | Err e => Err e
          | Ok (s2, rs') => Ok (s2, rs ++ rs')
          end
      end
  end.

Definition clock (s : Sm text) : N := logical_clock_secs (applied s).

(** Equal up to dedup rows whose window has closed (or that do not parse). *)
Definition sm_equiv (s s' : Sm text) : Prop :=
  tables s = tables s' /\ applied s = applied s'
  /\ gc_dedup (clock s) (dedup_rows s) = gc_dedup (clock s') (dedup_rows s').

Global Instance sm_equiv_equivalence : Equivalence sm_equiv.
Proof.
  split.
  - done.
  - intros s s' (? & ? & ?). split_and!; congruence.
  - intros s1 s2 s3 (? & ? & ?) (? & ? & ?). split_and!; congruence.
Qed.

Definition dedup_readable (s : Sm text) : Prop :=
  forall k row, dedup_rows s !! k = Some row -> exists d : DedupEntry, from_text row = Ok d.

(** ** The sweep *)

Lemma lookup_gc c (m : gmap string text) k row :
  gc_dedup c m !! k = Some row <-> m !! k = Some row /\ row_live c row = true.
Proof. unfold gc_dedup. apply map_lookup_filter_Some. Qed.

Lemma row_live_mono c c' (row : text) : (c <= c')%N -> row_live c' row = true -> row_live c row = true.
Proof.
  unfold row_live. destruct (from_text row); [|done]. rewrite !N.ltb_lt. lia.
Qed.

Lemma gc_gc c c' (m : gmap string text) : (c <= c')%N -> gc_dedup c' (gc_dedup c m) = gc_dedup c' m.
Proof.
  intros Hc. apply map_eq. intros k. apply option_eq. intros row.
  rewrite !lookup_gc. split; [tauto|]. intros [? Hl]. pose proof (row_live_mono c c' row Hc Hl). tauto.
Qed.

Lemma gc_insert c (m m' : gmap string text) k row :
  gc_dedup c m = gc_dedup c m' -> gc_dedup c (<[k := row]> m) = gc_dedup c (<[k := row]> m').
Proof.
  intros H. apply map_eq. intros k'. apply option_eq. intros row'.
  rewrite !lookup_gc, !lookup_insert_Some.
  assert (m !! k' = Some row' /\ row_live c row' = true <-> m' !! k' = Some row' /\ row_live c row' = true) as Hi
    by (by rewrite <- !lookup_gc, H).
  tauto.
Qed.

Definition swept (s : Sm text) : Sm text :=
  Build_Sm (tables s) (gc_dedup (clock s) (dedup_rows s)) (applied s).

Lemma swept_equiv s : sm_equiv (swept s) s.
Proof. split_and!; [done..|]. exact (gc_gc (clock s) (clock s) (dedup_rows s) (N.le_refl _)). Qed.

Lemma swept_readable s : dedup_readable (swept s).
Proof.
  intros k row [_ Hl]%lookup_gc. unfold row_live in Hl. destruct (from_text row) eqn:E; [eauto|done].
Qed.

(** ** The tables do not depend on the node *)

(** An outcome without the engine actions. *)
Definition verdict_of {A} (out : result string A) : result string () :=
  match out with Ok _ => Ok tt | Err reason => Err reason end.

Lemma proxy_recorded_op_local L L' t port sig_hash resp stub index :
  (proxy_recorded_op L t port sig_hash resp stub index).1 = (proxy_recorded_op L' t port sig_hash resp stub index).1
  /\ verdict_of (proxy_recorded_op L t port sig_hash resp stub index).2
     = verdict_of (proxy_recorded_op L' t port sig_hash resp stub index).2.
Proof.
  unfold proxy_recorded_op. cbv zeta. case_match; [done|]. case_decide; [done|].
  destruct stub as [recorded|]; [|done]. destruct (read_record t port) as [[record config]|]; [|done].
  destruct (place_recorded_stub _ _ _ _ _) as [after placed]. destruct placed; repeat case_match; done.
Qed.

Lemma mutate_tables_local L L' t o index :
  (mutate_tables L t o index).1 = (mutate_tables L' t o index).1
  /\ verdict_of (mutate_tables L t o index).2 = verdict_of (mutate_tables L' t o index).2.
Proof.
  destruct o; simpl; try done; [..|apply proxy_recorded_op_local|].
  - unfold put_imposter. destruct (cfg_port config); [|done]. cbv zeta.
    by destruct (degraded L), (degraded L').
  - unfold patch_stubs. destruct (read_record t port) as [[record config]|]; [|done].
    by destruct (apply_edit _ _).
  - unfold delete_imposter. by destruct (degraded L), (degraded L').
  - unfold set_enabled. by destruct (read_record t port) as [[record config]|].
  - unfold proxy_recorded_clear. cbv zeta. destruct (read_record _ port) as [[record config]|]; [|done].
    destruct (strip_proxy_responses _) as [stubs' stripped].
    by destruct (degraded L || _), (degraded L' || _).
Qed.

Lemma decide_op_local L L' t request index :
  (decide_op L t request index).1 = (decide_op L' t request index).1
  /\ response_of index (decide_op L t request index).2 = response_of index (decide_op L' t request index).2.
Proof.
  unfold decide_op. destruct (validate _); [|done]. destruct (check_preconditions _ _); [|done].
  destruct (mutate_tables_local L L' t (op request) index) as [H1 H2]. split; [done|].
  destruct (mutate_tables L _ _ _).2, (mutate_tables L' _ _ _).2; simpl in *; congruence.
Qed.

(** ** One entry on two equivalent states *)

Lemma dedup_hit_total s key c :
  dedup_readable s -> exists hit, dedup_hit (dedup_rows s) key c = Ok hit.
Proof.
  intros Hr. unfold dedup_hit. destruct (dedup_rows s !! key) as [row|] eqn:E; [|eauto].
  destruct (Hr _ _ E) as [d ->]. eauto.
Qed.

Lemma dedup_hit_equiv s s' key c :
  sm_equiv s s' -> dedup_readable s -> dedup_readable s' -> (clock s <= c)%N ->
  dedup_hit (dedup_rows s) key c = dedup_hit (dedup_rows s') key c.
Proof.
  intros (_ & Ha & Hg) Hr Hr' Hc.
  assert (forall r (d : DedupEntry) (m m' : gmap string text), gc_dedup (clock s) m = gc_dedup (clock s) m' ->
    from_text r = Ok d -> (c <? de_expires_at_secs d)%N = true -> m !! key = Some r -> m' !! key = Some r) as Hlive.
  { intros r d m m' Hgc Hf Hl Hm. apply (lookup_gc (clock s) m' key). rewrite <- Hgc. apply lookup_gc.
    split; [done|]. unfold row_live. rewrite Hf. apply N.ltb_lt in Hl. apply N.ltb_lt. lia. }
  assert (clock s' = clock s) as Hck by (unfold clock; by rewrite Ha). rewrite Hck in Hg.
  unfold dedup_hit. destruct (dedup_rows s !! key) as [r|] eqn:E, (dedup_rows s' !! key) as [r'|] eqn:E'; [| | |done].
  - destruct (Hr _ _ E) as [d Hd], (Hr' _ _ E') as [d' Hd']. rewrite Hd, Hd'.
    destruct (c <? de_expires_at_secs d)%N eqn:Hl.
    + apply (Hlive _ _ _ _ Hg Hd Hl) in E. rewrite E in E'. injection E' as ->.
      rewrite Hd in Hd'. injection Hd' as ->. by rewrite Hl.
    + destruct (c <? de_expires_at_secs d')%N eqn:Hl'; [|done].
      apply (Hlive _ _ _ _ (eq_sym Hg) Hd' Hl') in E'. rewrite E in E'. injection E' as ->. congruence.
  - destruct (Hr _ _ E) as [d Hd]. rewrite Hd. destruct (c <? _)%N eqn:Hl; [|done].
    apply (Hlive _ _ _ _ Hg Hd Hl) in E. congruence.
  - destruct (Hr' _ _ E') as [d Hd]. rewrite Hd. destruct (c <? _)%N eqn:Hl; [|done].
    apply (Hlive _ _ _ _ (eq_sym Hg) Hd Hl) in E'. congruence.
Qed.

(** Equivalence survives the same table change, the same later clock and the same
    dedup insertion. *)
Lemma equiv_build t a m m' c :
  (c <= logical_clock_secs a)%N -> gc_dedup c m = gc_dedup c m' ->
  sm_equiv (Build_Sm t m a) (Build_Sm t m' a).
Proof.
  intros Hc Hg. split_and!; [done..|]. unfold clock. simpl.
  by rewrite <- (gc_gc c _ m Hc), <- (gc_gc c _ m' Hc), Hg.
Qed.

Lemma gc_weaken c c' (m m' : gmap string text) :
  (c <= c')%N -> gc_dedup c m = gc_dedup c m' -> gc_dedup c' m = gc_dedup c' m'.
Proof. intros Hc Hg. by rewrite <- (gc_gc c c' m Hc), <- (gc_gc c c' m' Hc), Hg. Qed.

Lemma apply_normal_equiv L L' s s' log_id request :
  sm_equiv s s' -> dedup_readable s -> dedup_readable s' ->
  exists s1 s1' resp acts acts',
    apply_normal L s log_id request = Ok (s1, resp, acts)
    /\ apply_normal L' s' log_id request = Ok (s1', resp, acts')
    /\ sm_equiv s1 s1' /\ dedup_readable s1 /\ dedup_readable s1'.
Proof.
  intros Heq Hr Hr'. unfold apply_normal. cbv zeta.
  set (c := N.max (logical_clock_secs (applied s)) (issued_at_secs request)).
  assert (clock s <= c)%N as Hc by (unfold clock; lia).
  pose proof (dedup_hit_equiv s s' (op_id request) c Heq Hr Hr' Hc) as Hh.
  destruct (dedup_hit_total s (op_id request) c Hr) as [hit Hhit].
  destruct Heq as (Ht & Ha & Hg). rewrite <- Ha, <- Ht. fold c. rewrite <- Hh, Hhit.
  assert (clock s' = clock s) as Hck by (unfold clock; by rewrite Ha). rewrite Hck in Hg.
  assert (gc_dedup c (dedup_rows s) = gc_dedup c (dedup_rows s')) as Hgc by (by eapply gc_weaken).
  destruct hit as [resp|].
  - do 5 eexists. split; [done|]. split; [done|]. split_and!; [|done|done].
    by apply (equiv_build _ _ _ _ c).
  - destruct (decide_op_local L L' (tables s) request (lid_index log_id)) as [H1 H2].
    destruct (decide_op L _ _ _) as [t out], (decide_op L' _ _ _) as [t' out']. simpl in H1, H2. subst t'.
    rewrite <- H2. do 5 eexists. split; [done|]. split; [done|]. split_and!.
    + apply (equiv_build _ _ _ _ c); [done|]. by apply gc_insert.
    + intros k row. simpl. rewrite lookup_insert_Some. intros [[<- <-]|[_ ?]]; [rewrite from_to_text; eauto|by eapply Hr].
    + intros k row. simpl. rewrite lookup_insert_Some. intros [[<- <-]|[_ ?]]; [rewrite from_to_text; eauto|by eapply Hr'].
Qed.

Lemma apply_entry_equiv L L' s s' e :
  sm_equiv s s' -> dedup_readable s -> dedup_readable s' ->
  exists s1 s1' resp acts acts',
    apply_entry L s e = Ok (s1, resp, acts) /\ apply_entry L' s' e = Ok (s1', resp, acts')
    /\ sm_equiv s1 s1' /\ dedup_readable s1 /\ dedup_readable s1'.
Proof.
  intros Heq Hr Hr'. unfold apply_entry. cbv zeta. pose proof Heq as (Ht & Ha & Hg).
  assert (clock s' = clock s) as Hck by (unfold clock; by rewrite Ha).
  rewrite <- Ht, <- Ha, Hck in *. destruct (e_payload e) as [|request|m].
  - do 5 eexists. split; [done|]. split; [done|]. split_and!; [|done|done].
    apply (equiv_build _ _ _ _ (clock s)); [|done]. unfold clock. simpl. lia.
  - apply apply_normal_equiv; [|done|done].
    apply (equiv_build _ _ _ _ (clock s)); [|done]. unfold clock. simpl. lia.
  - do 5 eexists. split; [done|]. split; [done|]. split_and!; [|done|done].
    apply (equiv_build _ _ _ _ (clock s)); [|done]. unfold clock. simpl. lia.
Qed.

(** ** A batch on two equivalent states *)

Lemma apply_entries_equiv L L' es s s' :
  sm_equiv s s' -> dedup_readable s -> dedup_readable s' ->
  exists s1 s1' rs acts acts',
    apply_entries L s es = Ok (s1, rs, acts) /\ apply_entries L' s' es = Ok (s1', rs, acts')
    /\ sm_equiv s1 s1' /\ dedup_readable s1 /\ dedup_readable s1' /\ length rs = length es.
Proof.
  revert s s'. induction es as [|e es IH]; intros s s' Heq Hr Hr'; simpl.
  - by exists s, s', [], [], [].
  - destruct (apply_entry_equiv L L' s s' e Heq Hr Hr') as (s1 & s1' & resp & a & a' & -> & -> & Heq1 & Hr1 & Hr1').
    destruct (IH s1 s1' Heq1 Hr1 Hr1') as (s2 & s2' & rs & b & b' & -> & -> & Heq2 & Hr2 & Hr2' & Hl).
    exists s2, s2', (resp :: rs), (a ++ b), (a' ++ b'). simpl. by rewrite Hl.
Qed.

Lemma apply_entries_app L s es es' :
  apply_entries L s (es ++ es')
  = match apply_entries L s es with
    | Err e => Err e
    | Ok (s1, rs, a) =>
        match apply_entries L s1 es' with
        | Err e => Err e
        | Ok (s2, rs', a') => Ok (s2, rs ++ rs', a ++ a')
        end
    end.
Proof.
  revert s. induction es as [|e es IH]; intros s; simpl.
  - by destruct (apply_entries L s es') as [[[? ?] ?]|].
  - destruct (apply_entry L s e) as [[[s1 r] a]|]; [|done]. rewrite IH.
    destruct (apply_entries L s1 es) as [[[s2 rs] b]|]; [|done].
    destruct (apply_entries L s2 es') as [[[s3 rs'] c]|]; [|done]. by rewrite app_assoc.
Qed.

(** A batched run is the flat run of the concatenated entries. *)
Lemma run_flat L0 batches s s0 :
  sm_equiv s s0 -> dedup_readable s0 ->
  exists s' s0' rs acts,
    run s batches = Ok (s', rs)
    /\ apply_entries L0 s0 (concat batches.*2) = Ok (s0', rs, acts)
    /\ sm_equiv s' s0' /\ length rs = length (concat batches.*2).
Proof.
  revert s s0. induction batches as [|[L es] batches IH]; intros s s0 Heq Hr; csimpl.
  - by exists s, s0, [], [].
  - assert (sm_equiv (swept s) s0) as Heq' by (by rewrite swept_equiv).
    destruct (apply_entries_equiv L L0 es (swept s) s0 Heq' (swept_readable s) Hr)
      as (s1 & s01 & rs & a & a' & H1 & H01 & Heq1 & _ & Hr01 & Hl).
    destruct (IH s1 s01 Heq1 Hr01) as (s2 & s02 & rs' & b & H2 & H02 & Heq2 & Hl').
    exists s2, s02, (rs ++ rs'), (a' ++ b). unfold sm_apply. fold (clock s). fold (swept s).
    rewrite H1, H2, apply_entries_app, H01, H02, !length_app. by rewrite Hl, Hl'.
Qed.

(** C1: replicas agree. Two nodes that start from equivalent states and apply the same
    log give the same response to every entry and end with the same tables, the same
    applied cursor and the same open dedup windows, although each cut the log into its
    own batches and each batch ran under that node's own engine verdicts and failures. *)
Theorem replica_agreement s1 s2 batches1 batches2 :
  sm_equiv s1 s2 -> concat batches1.*2 = concat batches2.*2 ->
  exists s1' s2' rs,
    run s1 batches1 = Ok (s1', rs) /\ run s2 batches2 = Ok (s2', rs) /\ sm_equiv s1' s2'.
Proof.
  intros Heq Hes. set (L0 := {| verdict := fun _ => Ok tt; degraded := false |}).
  destruct (run_flat L0 batches1 s1 (swept s1)) as (s1' & s0 & rs & a & H1 & H0 & Heq1 & _);
    [by rewrite swept_equiv|apply swept_readable|].
  destruct (run_flat L0 batches2 s2 (swept s1)) as (s2' & s0' & rs' & a' & H2 & H0' & Heq2 & _);
    [by rewrite swept_equiv|apply swept_readable|].
  rewrite Hes, H0' in H0. injection H0 as -> -> ->.
  exists s1', s2', rs. split_and!; [done..|]. by rewrite Heq1, Heq2.
Qed.


(** ** Replays *)

(** [k]'s response is remembered as [d] in [s]. *)
Definition remembers (s : Sm text) (k : string) (d : DedupEntry) : Prop :=
  dedup_rows s !! k = Some (to_text d).

Lemma apply_entry_clock L s e s' resp acts :
  apply_entry L s e = Ok (s', resp, acts) -> (clock s <= clock s')%N.
Proof.
  unfold apply_entry. destruct (e_payload e) as [|request|m]; [intros [= <- <- <-]; done| |intros [= <- <- <-]; done].
  unfold apply_normal. cbv zeta.
  destruct (dedup_hit _ _ _) as [[r|]|]; [|destruct (decide_op _ _ _ _)|done];
    intros [= <- <- <-]; unfold clock; simpl; lia.
Qed.

Lemma apply_entries_clock L s es s' rs acts :
  apply_entries L s es = Ok (s', rs, acts) -> (clock s <= clock s')%N.
Proof.
  revert s rs acts. induction es as [|e es IH]; intros s rs acts; simpl; [by intros [= <- <- <-]|].
  destruct (apply_entry L s e) as [[[s1 r] a]|] eqn:He; [|done].
  destruct (apply_entries L s1 es) as [[[s2 rs'] b]|] eqn:Hes; [|done]. intros [= <- <- <-].
  apply apply_entry_clock in He. apply IH in Hes. lia.
Qed.

Lemma remembers_entry L s e s' resp acts k d :
  remembers s k d -> apply_entry L s e = Ok (s', resp, acts) ->
  (clock s' < de_expires_at_secs d)%N -> remembers s' k d.
Proof.
  unfold remembers, apply_entry. intros Hk.
  destruct (e_payload e) as [|request|m]; [intros [= <- <- <-]; done| |intros [= <- <- <-]; done].
  unfold apply_normal. cbv zeta. simpl.
  destruct (decide (op_id request = k)) as [<-|Hne].
  - unfold dedup_hit. rewrite Hk, from_to_text.
    destruct (_ <? _)%N eqn:Hl; [intros [= <- <- <-]; done|].
    destruct (decide_op _ _ _ _). intros [= <- <- <-]. unfold clock. simpl. bool_props. lia.
  - destruct (dedup_hit _ _ _) as [[r|]|]; [intros [= <- <- <-]; done| |done].
    destruct (decide_op _ _ _ _). intros [= <- <- <-] _. simpl. by rewrite lookup_insert_ne.
Qed.

Lemma remembers_entries L s es s' rs acts k d :
  remembers s k d -> apply_entries L s es = Ok (s', rs, acts) ->
  (clock s' < de_expires_at_secs d)%N -> (clock s <= clock s')%N /\ remembers s' k d.
Proof.
  revert s rs acts. induction es as [|e es IH]; intros s rs acts Hk; simpl; [by intros [= <- <- <-]|].
  destruct (apply_entry L s e) as [[[s1 r] a]|] eqn:He; [|done].
  destruct (apply_entries L s1 es) as [[[s2 rs'] b]|] eqn:Hes; [|done]. intros [= <- <- <-] Hlt.
  pose proof (apply_entry_clock _ _ _ _ _ _ He) as Hc.
  pose proof (apply_entries_clock _ _ _ _ _ _ Hes).
  destruct (IH s1 rs' b) as [? ?]; [|done|done|split; [lia|done]].
  eapply remembers_entry; [done|done|lia].
Qed.

Lemma remembers_swept s k d : remembers s k d -> (clock s < de_expires_at_secs d)%N -> remembers (swept s) k d.
Proof.
  intros Hk Hc. apply lookup_gc. split; [done|]. unfold row_live. rewrite from_to_text. by apply N.ltb_lt.
Qed.

Lemma run_clock s batches s' rs : run s batches = Ok (s', rs) -> (clock s <= clock s')%N.
Proof.
  revert s rs. induction batches as [|[L es] batches IH]; intros s rs; simpl; [by intros [= <- <-]|].
  destruct (sm_apply L s es) as [[[s1 r] a]|] eqn:He; [|done].
  destruct (run s1 batches) as [[s2 rs']|] eqn:Hr; [|done]. intros [= <- <-].
  apply apply_entries_clock in He. apply IH in Hr. unfold clock in *. simpl in *. lia.
Qed.

Lemma remembers_run s batches s' rs k d :
  remembers s k d -> run s batches = Ok (s', rs) -> (clock s' < de_expires_at_secs d)%N -> remembers s' k d.
Proof.
  revert s rs. induction batches as [|[L es] batches IH]; intros s rs Hk; simpl; [by intros [= <- <-]|].
  destruct (sm_apply L s es) as [[[s1 r] a]|] eqn:He; [|done].
  destruct (run s1 batches) as [[s2 rs']|] eqn:Hr; [|done]. intros [= <- <-] Hlt.
  pose proof (run_clock _ _ _ _ Hr). pose proof (apply_entries_clock _ _ _ _ _ _ He) as Hc.
  unfold clock in Hc. simpl in Hc. fold (clock s) in Hc. fold (clock s1) in Hc.
  eapply IH; [|done|done]. eapply remembers_entries; [|exact He|lia].
  apply remembers_swept; [done|]. lia.
Qed.

(** C2: exactly-once within the window. A request never seen before is applied; however
    many batches follow, a replay of its op id that is applied before the replicated clock
    reaches the end of the 24 h window gets the very response the first got - same revision,
    same outcome, a refusal included - changes no table and drives nothing. *)
Theorem replay_idempotent L s e1 q1 s1 r1 a1 mid s2 rm L' e2 q2 :
  e_payload e1 = Normal q1 -> e_payload e2 = Normal q2 -> op_id q2 = op_id q1 ->
  dedup_rows s !! op_id q1 = None ->
  sm_apply L s [e1] = Ok (s1, [r1], a1) -> run s1 mid = Ok (s2, rm) ->
  (N.max (clock s2) (issued_at_secs q2) < sat_add (clock s1) DEDUP_TTL_SECS)%N ->
  exists s3, sm_apply L' s2 [e2] = Ok (s3, [r1], []) /\ tables s3 = tables s2.
Proof.
  intros Hp1 Hp2 Hid Hnew H1 Hrun Hwin.
  set (d := {| de_response := r1; de_expires_at_secs := sat_add (clock s1) DEDUP_TTL_SECS |}).
  assert (remembers s1 (op_id q1) d) as Hrem.
  { revert H1. unfold sm_apply. cbv zeta. cbn [apply_entries]. unfold apply_entry. rewrite Hp1.
    unfold apply_normal, dedup_hit. cbv zeta. simpl.
    assert (gc_dedup (logical_clock_secs (applied s)) (dedup_rows s) !! op_id q1 = None) as ->.
    { apply eq_None_not_Some. intros [row [Hr _]%lookup_gc]. congruence. }
    destruct (decide_op _ _ _ _) as [t out]. intros [= <- <- _]. unfold remembers, d, clock. simpl.
    by rewrite lookup_insert_eq. }
  assert (clock s2 < de_expires_at_secs d)%N as Hc2 by (simpl; lia).
  pose proof (remembers_run _ _ _ _ _ _ Hrem Hrun Hc2) as Hrem2.
  pose proof (remembers_swept _ _ _ Hrem2 Hc2) as Hsw.
  unfold sm_apply. cbv zeta. cbn [apply_entries]. unfold apply_entry. rewrite Hp2.
  unfold apply_normal, dedup_hit. cbv zeta. simpl. unfold remembers, swept in Hsw. simpl in Hsw.
  fold (clock s2). rewrite Hid, Hsw, from_to_text. rewrite (proj2 (N.ltb_lt _ _)) by done.
  eexists. split; reflexivity.
Qed.

End Replica.

(** ** Witnesses *)

#[local] Existing Instances demo_codec demo_rules.

(** Two nodes cut one log differently; the second refuses every config and is
    degraded. *)
Lemma replica_agreement_witness :
  exists s1 s2 rs,
    run initial [(demo_local, [e_put; e_record; e_edit 3 "x" None; e_delete 4])] = Ok (s1, rs)
    /\ run initial [(strict_local, [e_put]); (demo_local, [e_record; e_edit 3 "x" None]); (strict_local, [e_delete 4])]
       = Ok (s2, rs)
    /\ sm_equiv s1 s2.
Proof.
  apply (replica_agreement initial initial
    [(demo_local, [e_put; e_record; e_edit 3 "x" None; e_delete 4])]
    [(strict_local, [e_put]); (demo_local, [e_record; e_edit 3 "x" None]); (strict_local, [e_delete 4])]).
  - reflexivity.
  - reflexivity.
Defined.

Lemma replay_idempotent_witness :
  let s1 := state_after initial [e_put] in
  let s2 := state_after s1 [e_record] in
  let e2 := demo_entry 9 (demo_request "op-1" 500 None (PutImposter (demo_config 6400 []) None)) in
  exists s3, sm_apply strict_local s2 [e2] = Ok (s3, [response_applied 1], []) /\ tables s3 = tables s2.
Proof.
  intros s1 s2 e2.
  apply (replay_idempotent demo_local initial e_put
    (demo_request "op-1" 10 None (PutImposter (demo_config 6400 [proxy_stub]) None)) s1 (response_applied 1)
    (actions_after initial [e_put]) [(demo_local, [e_record])] s2 (responses_after s1 [e_record]) strict_local e2
    (demo_request "op-1" 500 None (PutImposter (demo_config 6400 []) None)));
    vm_compute; reflexivity.
Defined.
