(* ===== verification/Projection.v ===== *)
(** * What an apply tells the engine and the client

    The desired set a whole-set drive carries, the route table the front door
    compiles, and the status [admin_front.rs] gives a committed refusal. *)

From S2P Require Import Prelude Upstream FlowConfig Control Recorded StateMachine Demo ApplyFacts.

(** [str::contains] of a non-empty pattern. *)
Definition contains (p s : string) : bool :=
  match split_once p s with Some _ => true | None => false end.

(** The status of a refusal: conflict, not found or bad request. *)
Inductive RefusalStatus :=
  | Conflict409
  | NotFound404
  | BadRequest400.

Definition refusal_response (reason : string) : RefusalStatus :=
  if starts_with "revision conflict" reason then Conflict409
  else if contains "no imposter on port" reason || contains "no stub with id" reason then NotFound404
  else BadRequest400.

Section Projection.
  Context {text : Type} {CD : Codec text} {ER : EngineRules}.

(** ** The desired set *)

Definition admitted_of (L : Local) (rows : list (N * text)) : list ImposterConfig :=
  omap (fun kv => result_ok (admit_row L kv.2)) rows.

Definition refused_of (L : Local) (rows : list (N * text)) : list (N * string) :=
  omap (fun kv => match admit_row L kv.2 with Err reason => Some (kv.1, reason) | Ok _ => None end) rows.

Lemma note_rows L rows d :
  foldl (note_row L) d rows
  = {| ds_admitted := ds_admitted d ++ admitted_of L rows;
       ds_held := list_to_set rows.*1 ∪ ds_held d;
       ds_refused := ds_refused d ++ refused_of L rows |}.
Proof.
  revert d. induction rows as [|[p row] rows IH]; intros d; csimpl.
  - rewrite !app_nil_r, (left_id_L ∅ (∪)). by destruct d.
  - rewrite IH. unfold note_row. simpl. destruct (admit_row L row) as [c|e]; simpl;
      rewrite <- ?app_assoc; f_equal; set_solver.
Qed.

(** The row of a well-formed table is judged as its own config. *)
Lemma admit_row_wf L p (row : text) :
  row_wf p row -> exists config, cfg_port config = Some p
    /\ admit_row L row = match verdict L config with Ok _ => Ok config | Err e => Err e end.
Proof.
  intros (config & rev & -> & Hp & _). exists config. split; [done|].
  unfold admit_row. rewrite from_to_text. cbn [si_config]. rewrite from_to_text. by destruct (verdict L config).
Qed.

(** A whole-set drive names every port of the table. *)
Lemma desired_held L (m : gmap N text) : ds_held (desired_configs L m) = dom m.
Proof.
  unfold desired_configs. rewrite note_rows. simpl. rewrite (right_id_L ∅ (∪)).
  apply set_eq. intros p. rewrite elem_of_list_to_set, elem_of_dom, list_elem_of_fmap. split.
  - intros ([q row] & -> & Hin%elem_of_port_rows). simpl. by rewrite Hin.
  - intros [row Hrow]. exists (p, row). by rewrite elem_of_port_rows.
Qed.

(** A whole-set drive covers exactly the ports the tables name. Every port is held;
    each is either admitted, with the very config its row stores, or refused with this
    engine's reason; none is both and none is forgotten - so a drive that deletes only
    ports outside the held set never tears a refused imposter down. *)
Theorem desired_configs_partition L t :
  tables_wf t ->
  let d := desired_configs L (configs t) in
  ds_held d = dom (configs t)
  /\ (forall c, c ∈ ds_admitted d <->
        exists p row, configs t !! p = Some row /\ admit_row L row = Ok c /\ cfg_port c = Some p)
  /\ (forall p reason, (p, reason) ∈ ds_refused d <->
        exists row, configs t !! p = Some row /\ admit_row L row = Err reason)
  /\ (forall p, p ∈ dom (configs t) ->
        (exists c, c ∈ ds_admitted d /\ cfg_port c = Some p) \/ (exists reason, (p, reason) ∈ ds_refused d)).
Proof.
  intros [Hwf _] d. unfold d, desired_configs. rewrite note_rows. simpl. rewrite (right_id_L ∅ (∪)).
  assert (forall c, c ∈ admitted_of L (port_rows (configs t)) <->
    exists p row, configs t !! p = Some row /\ admit_row L row = Ok c /\ cfg_port c = Some p) as Hadm.
  { intros c. unfold admitted_of. rewrite list_elem_of_omap. split.
    - intros ([p row] & Hin & Hc). apply elem_of_port_rows in Hin. simpl in Hc.
      destruct (admit_row_wf L p row (Hwf _ _ Hin)) as (config & Hp & Ha).
      exists p, row. rewrite Ha in *. destruct (verdict L config); simplify_eq/=. done.
    - intros (p & row & Hin & Hc & _). exists (p, row). rewrite elem_of_port_rows. simpl. by rewrite Hc. }
  assert (forall p reason, (p, reason) ∈ refused_of L (port_rows (configs t)) <->
    exists row, configs t !! p = Some row /\ admit_row L row = Err reason) as Href.
  { intros p reason. unfold refused_of. rewrite list_elem_of_omap. split.
    - intros ([q row] & Hin & Hc). apply elem_of_port_rows in Hin. simpl in Hc.
      exists row. destruct (admit_row L row); simplify_eq. done.
    - intros (row & Hin & Hc). exists (p, row). rewrite elem_of_port_rows. simpl. by rewrite Hc. }
  split_and!; [|done|done|].
  - pose proof (desired_held L (configs t)) as Hh. unfold desired_configs in Hh. rewrite note_rows in Hh. simpl in Hh.
    by rewrite (right_id_L ∅ (∪)) in Hh.
  - intros p [row Hrow]%elem_of_dom. destruct (admit_row L row) as [c|reason] eqn:Ha.
    + left. exists c. destruct (admit_row_wf L p row (Hwf _ _ Hrow)) as (config & Hp & Ha').
      rewrite Ha in Ha'. destruct (verdict L config); simplify_eq. split; [|done]. apply Hadm. eauto 6.
    + right. exists reason. apply Href. eauto.
Qed.

(** ** The route table *)

Lemma read_routes_wf (rows : list (string * text)) :
  (forall id row, (id, row) ∈ rows -> exists r, row = to_text r /\ route_id r = id) ->
  exists rs, read_routes rows = Ok rs /\ (fun r => (route_id r, to_text r)) <$> rs = rows.
Proof.
  induction rows as [|[id row] rows IH]; intros H; [by exists []|].
  destruct IH as (rs & Hrs & Hmap); [intros; apply H; by right|].
  destruct (H id row ltac:(left)) as (r & -> & Hid). exists (r :: rs).
  split; [simpl; by rewrite from_to_text, Hrs|]. csimpl. by rewrite Hid, Hmap.
Qed.

Lemma desired_routes_wf t :
  tables_wf t -> exists rs, desired_routes (routes t) = Ok rs
    /\ (fun r => (route_id r, to_text r)) <$> rs ≡ₚ map_to_list (routes t).
Proof.
  intros (_ & Hr & _). destruct (read_routes_wf (str_rows (routes t))) as (rs & Hrs & Hmap).
  - intros id row Hin. apply Hr. apply elem_of_map_to_list.
    unfold str_rows in Hin. by rewrite merge_sort_Permutation in Hin.
  - exists rs. split; [done|]. rewrite Hmap. apply merge_sort_Permutation.
Qed.

Lemma foldl_insert_NoDup (table : list Route) (m : gmap string text) r :
  NoDup (route_id <$> table) -> r ∈ table ->
  foldl (fun m r => <[route_id r := to_text r]> m) m table !! route_id r = Some (to_text r).
Proof.
  revert m. induction table as [|r0 table IH]; intros m; csimpl; [by intros _ ?%not_elem_of_nil|].
  intros [Hni Hn]%NoDup_cons. rewrite elem_of_cons. intros [->|Hin]; [|by apply IH].
  assert (forall m : gmap string text, m !! route_id r0 = Some (to_text r0) ->
    foldl (fun m r => <[route_id r := to_text r]> m) m table !! route_id r0 = Some (to_text r0)) as Hk.
  { clear IH Hn. induction table as [|r1 table IH]; intros m' Hm'; [done|]. csimpl. csimpl in Hni.
    apply not_elem_of_cons in Hni as [Hne Hni]. apply IH; [done|]. by rewrite lookup_insert_ne. }
  apply Hk, lookup_insert_eq.
Qed.

(** What is stored is what dispatches. After a committed route op the front door is
    always handed a table, never a refusal, and it is exactly the stored set: for a replace
    the submitted routes, whatever was there before, and for a delete the earlier routes
    without the deleted id; both stamp the table's revision with the log index. *)
Theorem route_ops_dispatch t index :
  tables_wf t ->
  (forall table, NoDup (route_id <$> table) ->
     exists t' rs, put_routes t table index = (t', Ok [ASyncRoutes rs])
       /\ (forall r, r ∈ rs <-> r ∈ table) /\ routes_revision t' = Some index)
  /\ (forall id, exists t' rs rs0, delete_route t id index = (t', Ok [ASyncRoutes rs])
       /\ desired_routes (routes t) = Ok rs0
       /\ (forall r, r ∈ rs <-> r ∈ rs0 /\ route_id r <> id) /\ routes_revision t' = Some index).
Proof.
  intros Hwf.
  assert (forall t' rs, tables_wf t' -> desired_routes (routes t') = Ok rs ->
    forall r, r ∈ rs <-> routes t' !! route_id r = Some (to_text r)) as Hmem.
  { intros t' rs Hwf' Hd r. destruct (desired_routes_wf t' Hwf') as (rs' & Hd' & Hp).
    rewrite Hd in Hd'. injection Hd' as <-. rewrite <- elem_of_map_to_list, <- Hp, list_elem_of_fmap. split.
    - intros Hr. by exists r.
    - intros (r' & [= Hid Htx] & Hr'). apply (f_equal (from_text (A := Route))) in Htx.
      rewrite !from_to_text in Htx. by injection Htx as ->. }
  split.
  - intros table Hn. unfold put_routes, sync_routes_action. cbv zeta.
    set (t' := set_routes _ index t). assert (tables_wf t') as Hwf' by (by apply wf_put_routes).
    destruct (desired_routes_wf t' Hwf') as (rs & Hd & _). rewrite Hd. exists t', rs. split_and!; [done| |done].
    intros r. rewrite (Hmem t' rs Hwf' Hd r). split.
    + simpl. intros [Hm|(r' & Hin & Hid & Htx)]%foldl_insert_lookup; [by rewrite lookup_empty in Hm|].
      apply (f_equal (from_text (A := Route))) in Htx. rewrite !from_to_text in Htx. by injection Htx as ->.
    + by apply foldl_insert_NoDup.
  - intros id. unfold delete_route, sync_routes_action. cbv zeta.
    set (t' := set_routes _ index t). assert (tables_wf t') as Hwf' by (by apply wf_delete_route).
    destruct (desired_routes_wf t' Hwf') as (rs & Hd & _), (desired_routes_wf t Hwf) as (rs0 & Hd0 & _).
    rewrite Hd. exists t', rs, rs0. split_and!; [done|done| |done].
    intros r. rewrite (Hmem t' rs Hwf' Hd r), (Hmem t rs0 Hwf Hd0 r). simpl.
    rewrite lookup_delete_Some. naive_solver.
Qed.

(** ** Refusals *)

(** A reason the front answers 409. *)
Definition is_conflict (reason : string) : bool := starts_with "revision conflict" reason.

Lemma read_consistency_reason extra reason :
  parse_read_consistency extra = Err reason -> is_conflict reason = false.
Proof. unfold parse_read_consistency. repeat case_match; intros [=]; by subst. Qed.

Lemma durability_reason extra reason : parse_durability extra = Err reason -> is_conflict reason = false.
Proof. unfold parse_durability. repeat case_match; intros [=]; by subst. Qed.

Lemma scope_reason extra reason : parse_scope extra = Err reason -> is_conflict reason = false.
Proof. unfold parse_scope. repeat case_match; intros [=]; by subst. Qed.

Lemma flow_config_reason config reason :
  FlowConfig_validate config = Err reason -> is_conflict reason = false.
Proof.
  unfold FlowConfig_validate, FlowConfig_from_imposter. destruct (flow_state_of config) as [fs|]; [|done].
  destruct (parse_read_consistency (fs_extra fs)) eqn:E1; simpl;
    [|intros [=]; subst; by eapply read_consistency_reason].
  destruct (parse_durability (fs_extra fs)) eqn:E2; simpl; [|intros [=]; subst; by eapply durability_reason].
  destruct (parse_scope (fs_extra fs)) eqn:E3; simpl; [done|intros [=]; subst; by eapply scope_reason].
Qed.

Lemma check_stub_ids_reason ids ss reason :
  check_stub_ids ids ss = Err reason -> is_conflict reason = false.
Proof.
  revert ids. induction ss as [|s ss IH]; intros ids; simpl; [done|].
  destruct (stub_id s); [|apply IH]. case_decide; [intros [=]; by subst|apply IH].
Qed.

Lemma validate_reason o reason :
  (forall table e, route_table_validate table = Err e -> is_conflict e = false) ->
  validate o = Err reason -> is_conflict reason = false.
Proof.
  intros Hroutes. destruct o; simpl; try done.
  - unfold validate_replicable_config.
    destruct (cfg_port config) as [n|]; [|intros [=]; by subst]. destruct (n =? 0)%N; [intros [=]; by subst|].
    destruct (_ || _); [|intros [=]; by subst].
    destruct (check_stub_ids _ _) eqn:E; [apply flow_config_reason|].
    intros [=]. subst. by eapply check_stub_ids_reason.
  - apply Hroutes.
  - unfold validate_session_key. repeat case_match; intros [=]; by subst.
  - unfold validate_fleet_name. repeat case_match; intros [=]; by subst.
  - unfold validate_recording. repeat case_match; intros [=]; by subst.
  - case_match; intros [=]; by subst.
Qed.

Lemma edit_reason stubs script reason : apply_edit stubs script = Err reason -> is_conflict reason = false.
Proof.
  revert stubs. induction script as [|step rest IH]; intros stubs; simpl; [done|].
  destruct (edit_step stubs step) as [next|e] eqn:E; simpl; [apply IH|]. intros [= ->].
  unfold edit_step in E. repeat (case_match; simplify_eq; try done).
Qed.

Lemma read_record_reason t p reason : read_record t p = Err reason -> is_conflict reason = false.
Proof. unfold read_record. repeat case_match; intros [=]; by subst. Qed.

Lemma mutate_reason L t o index t' reason :
  mutate_tables L t o index = (t', Err reason) -> is_conflict reason = false.
Proof.
  destruct o; simpl; try done.
  - unfold put_imposter. cbv zeta. case_match; [by repeat case_match|]. intros [=]; by subst.
  - unfold patch_stubs. destruct (read_record t port) as [[record config]|e] eqn:Hr.
    + destruct (apply_edit _ _) eqn:He; intros [=]. subst. by eapply edit_reason.
    + intros [=]. subst. by eapply read_record_reason.
  - unfold delete_imposter. by case_match.
  - unfold set_enabled. destruct (read_record t port) as [[record config]|e] eqn:Hr; intros [=]. subst.
    by eapply read_record_reason.
  - unfold proxy_recorded_op. cbv zeta. case_match; [done|]. case_decide; [intros [=]; by subst|].
    destruct stub as [recorded|]; [|done].
    destruct (read_record t port) as [[record config]|e] eqn:Hr; [|intros [=]; subst; by eapply read_record_reason].
    destruct (place_recorded_stub _ _ _ _ _) as [after placed]. by destruct placed; repeat case_match.
  - unfold proxy_recorded_clear. cbv zeta. by repeat case_match.
Qed.

(** The 409 prefix never collides. A committed refusal that the front answers 409
    came from the request's own precondition and from nothing else: no validation, edit or
    corrupt-record message can start with the dispatch prefix, provided the engine's
    route-table messages do not. *)
Theorem conflict_only_preconditions L t request index t' reason :
  (forall table e, route_table_validate table = Err e -> is_conflict e = false) ->
  decide_op L t request index = (t', Err reason) -> refusal_response reason = Conflict409 ->
  validate (op request) = Ok tt /\ check_preconditions t request = Err reason
  /\ (is_Some (expected_revision request) \/ expect_absent request = true).
Proof.
  intros Hroutes Hd Hc.
  assert (is_conflict reason = true) as Hconf.
  { unfold refusal_response in Hc. unfold is_conflict. by repeat case_match. }
  unfold decide_op in Hd. destruct (validate (op request)) as [[]|e] eqn:Hv.
  - destruct (check_preconditions t request) as [[]|e] eqn:Hp.
    + apply mutate_reason in Hd. congruence.
    + injection Hd as -> ->. split_and!; [done|done|]. unfold check_preconditions in Hp.
      destruct (expected_revision request); [by left; eauto|]. destruct (expect_absent request); [by right|done].
  - injection Hd as -> ->. by rewrite (validate_reason _ _ Hroutes Hv) in Hconf.
Qed.

(** An absent-record precondition is judged at the log position: it passes exactly
    when the imposter has no stored row, and refuses with the engine's port-in-use text,
    which does not carry the conflict prefix and so is not answered 409. *)
Theorem expect_absent_exact t request p :
  expected_revision request = None -> expect_absent request = true ->
  precondition_target (op request) = Some (PreconditionTarget.Imposter p) ->
  (check_preconditions t request = Ok tt <-> configs t !! p = None)
  /\ (forall reason, check_preconditions t request = Err reason ->
        reason = "Port " +:+ pretty p +:+ " is already in use" /\ refusal_response reason <> Conflict409).
Proof.
  intros He Ha Ht. unfold check_preconditions. rewrite He, Ha. unfold check_expect_absent. rewrite Ht.
  destruct (configs t !! p) as [row|]; split; try done.
  intros reason [=]. subst. split; [done|]. unfold refusal_response. simpl. by case_match.
Qed.

End Projection.

(** A client can steer the status of its own refusal. The front recognises an absent
    target by searching the whole reason, and reasons quote client text: a stub id that
    spells out the phrase turns a duplicate-id refusal, bad data, into a 404. *)
Theorem refusal_status_confusable :
  let id := "no stub with id" in
  apply_edit [plain_stub (Some id) []] [Add (plain_stub (Some id) []) None]
    = Err ("add: duplicate stub id " +:+ debug_str id)
  /\ refusal_response ("add: duplicate stub id " +:+ debug_str id) = NotFound404
  /\ refusal_response ("add: duplicate stub id " +:+ debug_str "a") = BadRequest400.
Proof. vm_compute. repeat split. Qed.

(** ** Witnesses *)

#[local] Existing Instances demo_codec demo_rules.

Definition demo_tables : Tables doc := tables (state_after initial [e_put; e_record]).

Definition demo_recorded : ImposterConfig :=
  demo_config 6400 [with_id (plain_stub None [ROther "recorded:hi"]) "proxy-recorded-00ff"; proxy_stub].

Lemma demo_tables_wf : tables_wf demo_tables.
Proof.
  assert (configs demo_tables = <[6400%N := DStored (DConfig demo_recorded) true 2]> ∅) as E
    by (vm_compute; reflexivity).
  split_and!.
  - intros p row. rewrite E, lookup_insert_Some. intros [[<- <-]|[_ H]]; [|by rewrite lookup_empty in H].
    by exists demo_recorded, 2%N.
  - intros id row H. vm_compute in H. destruct id; discriminate H.
  - intros row H. discriminate H.
Qed.

Lemma desired_configs_partition_witness :
  ds_held (desired_configs strict_local (configs demo_tables)) = dom (configs demo_tables)
  /\ ds_refused (desired_configs strict_local (configs demo_tables)) = [(6400%N, "refused")].
Proof.
  split; [|vm_compute; reflexivity].
  apply (desired_configs_partition strict_local demo_tables). apply demo_tables_wf.
Defined.

Definition demo_routes : RouteTable :=
  [{| route_id := "b"; route_rest := "/b" |}; {| route_id := "a"; route_rest := "/a" |}].

Lemma route_ops_dispatch_witness :
  exists t' rs, put_routes demo_tables demo_routes 7 = (t', Ok [ASyncRoutes rs]) /\ routes_revision t' = Some 7%N.
Proof.
  destruct (route_ops_dispatch demo_tables 7 demo_tables_wf) as [H _].
  destruct (H demo_routes) as (t' & rs & Hp & _ & Hr); [|by exists t', rs].
  apply (bool_decide_unpack _). vm_compute. exact I.
Defined.

Lemma conflict_only_preconditions_witness :
  let q := demo_request "op-5" 20 (Some 9%N) (DeleteImposter 6400) in
  check_preconditions demo_tables q
    = Err "revision conflict: expected revision 9, stored revision 2 on port 6400".
Proof.
  intros q.
  apply (conflict_only_preconditions demo_local demo_tables q 5 demo_tables
    "revision conflict: expected revision 9, stored revision 2 on port 6400").
  - intros table e. simpl. case_decide; [done|]. intros [= <-]. reflexivity.
  - vm_compute. reflexivity.
  - vm_compute. reflexivity.
Defined.

Lemma expect_absent_exact_witness :
  let q := {| op_id := "op-6"; principal := None; issued_at_secs := 20; expected_revision := None;
              expect_absent := true; op := PutImposter (demo_config 6400 []) None |} in
  ~ (check_preconditions demo_tables q = Ok tt).
Proof.
  intros q H. apply (expect_absent_exact demo_tables q 6400) in H; [|reflexivity..].
  vm_compute in H. discriminate H.
Defined.
