(* ===== verification/Intents.v ===== *)
(** * Accepted writes: the intent ledger and the write path

    An admin write is parked on disk before it is submitted, submitted from any node by
    chasing the leader, and unparked once it is terminal; a replayer resubmits whatever
    stayed parked ([raft/store.rs], [raft/node.rs], and the server's [compose.rs] and
    [admin_front.rs]). Consensus is a parameter: what became of one submit is its fate. *)

From S2P Require Import Prelude Upstream Ring FlowConfig Control Recorded StateMachine.

(** ** Submitting from any node *)

Inductive NodeError :=
  | NodeStorage (detail : string)
  | NodeBind (detail : string)
  | NodeRuntime (detail : string)
  | NodeInit (detail : string)
  | NodeWrite (detail : string)
  | NodeUnavailable (detail : string)
  | NodeEntryTooLarge (e : EntryTooLarge)
  | NodeMembership (detail : string)
  | NodeTimeout (what detail : string)
  | NodeNotLeader (leader : option NodeId)
  | NodeAlreadyInitialized.

Inductive WriteReply :=
  | Done (response : ControlResponse)
  | ForwardTo (leader_addr : option string).

(** What one forward hop ended in. *)
Inductive Hop :=
  | HopReply (reply : WriteReply)
  | HopUndecoded (e : string)
  | HopFailed (e : string).

Definition FORWARD_ATTEMPTS : nat := 3.

Fixpoint forward (hop : nat -> string -> Hop) (i n : nat) (next : option string) (detail : string)
    : result NodeError ControlResponse :=
  match n, next with
  | S n, Some addr =>
      match hop i addr with
      | HopReply (Done response) => Ok response
      | HopReply (ForwardTo leader_addr) => forward hop (S i) n leader_addr (addr +:+ " is not the leader")
      | HopUndecoded e => Err (NodeWrite ("decode forwarded write: " +:+ e))
      | HopFailed e => Err (NodeUnavailable ("forward to " +:+ e))
      end
  | _, _ => Err (NodeUnavailable detail)
  end.

(** [local] is what the node's own raft answered. *)
Definition submit (written : ControlRequest -> option N) (local : ControlRequest -> result string WriteReply)
    (hop : nat -> string -> Hop) (request : ControlRequest) : result NodeError ControlResponse :=
  match admit_entry_size written request with
  | Err e => Err (NodeEntryTooLarge e)
  | Ok _ =>
      match local request with
      | Err e => Err (NodeWrite e)
      | Ok (Done response) => Ok response
      | Ok (ForwardTo leader_addr) => forward hop 0 FORWARD_ATTEMPTS leader_addr "local write refused: not the leader"
      end
  end.

(** ** The ledger *)

Section Ledger.
  Context {itext : Type} `{!Serde itext ControlRequest} (uuid_parses : string -> bool).

Abbreviation Ledger := (gmap string itext).

Definition park_intent (request : ControlRequest) (ledger : Ledger) : Ledger :=
  <[op_id request := to_text request]> ledger.

Definition unpark_intent (id : string) (ledger : Ledger) : Ledger := delete id ledger.

Definition parked_intent_count (ledger : Ledger) : nat := size ledger.

Definition intent_parked (id : string) (ledger : Ledger) : bool := bool_decide (is_Some (ledger !! id)).

(** One row read: a request, or a row that does not parse and is dropped. *)
Definition read_row (acc : Ledger * list ControlRequest) (kv : string * itext) : Ledger * list ControlRequest :=
  match from_text (A := ControlRequest) kv.2 with
  | Ok request => (acc.1, acc.2 ++ [request])
  | Err _ => (if uuid_parses kv.1 then unpark_intent kv.1 acc.1 else acc.1, acc.2)
  end.

(** The parked requests, in key order. *)
Definition parked_intents (ledger : Ledger) : Ledger * list ControlRequest :=
  foldl read_row (ledger, []) (str_rows ledger).

End Ledger.

(** ** The world a write meets *)

Section World.
  Context {itext text : Type} `{!Serde itext ControlRequest} {CD : Codec text} {ER : EngineRules}.
  Context (uuid_parses : string -> bool) (written : ControlRequest -> option N) (L : Local).

(** One node's ledger, and the replicated log as the state it has led to. *)
Record World := { wd_ledger : gmap string itext; wd_sm : Sm text; wd_next : LogId }.

Definition set_ledger (f : gmap string itext -> gmap string itext) (w : World) : World :=
  {| wd_ledger := f (wd_ledger w); wd_sm := wd_sm w; wd_next := wd_next w |}.

(** What became of a submit: committed and answered, committed with the answer lost, or
    not committed. It is reported as no quorum or as a failure of the op's own. *)
Inductive Fate :=
  | Answered
  | Lost (quorum : bool) (detail : string)
  | Dropped (quorum : bool) (detail : string).

Definition fate_error (quorum : bool) (detail : string) : NodeError :=
  if quorum then NodeWrite detail else NodeUnavailable detail.

Definition next_id (l : LogId) : LogId :=
  {| lid_term := lid_term l; lid_node := lid_node l; lid_index := (lid_index l + 1)%N |}.

(** The request at the log's next position. *)
Definition commit (request : ControlRequest) (w : World) : World * result NodeError ControlResponse :=
  match sm_apply L (wd_sm w) [{| e_log_id := wd_next w; e_payload := Normal request |}] with
  | Ok (s, [response], _) => ({| wd_ledger := wd_ledger w; wd_sm := s; wd_next := next_id (wd_next w) |}, Ok response)
  | Ok _ => (w, Err (NodeWrite "no response"))
  | Err e => (w, Err (NodeWrite e))
  end.

Definition submit_in (fate : Fate) (request : ControlRequest) (w : World) : World * result NodeError ControlResponse :=
  match admit_entry_size written request with
  | Err e => (w, Err (NodeEntryTooLarge e))
  | Ok _ =>
      match fate with
      | Answered => commit request w
      | Lost quorum detail => ((commit request w).1, Err (fate_error quorum detail))
      | Dropped quorum detail => (w, Err (fate_error quorum detail))
      end
  end.

(** Retiring an intent; [stuck] is a ledger write that fails. *)
Definition retire (stuck : bool) (id : string) (w : World) : World :=
  if stuck then w else set_ledger (unpark_intent id) w.

(** ** The replayer *)

Fixpoint drain (intents : list (ControlRequest * Fate * bool)) (w : World) : World :=
  match intents with
  | [] => w
  | (request, fate, stuck) :: rest =>
      match submit_in fate request w with
      | (w, Ok _) => drain rest (retire stuck (op_id request) w)
      | (w, Err (NodeUnavailable _)) => w
      | (w, Err (NodeEntryTooLarge _)) => drain rest (retire stuck (op_id request) w)
      | (w, Err _) => drain rest w
      end
  end.

(** The fates of a drain's submits, and which ledger writes fail. *)
Definition drain_parked_intents (fates : ControlRequest -> Fate * bool) (w : World) : World :=
  let '(ledger, intents) := parked_intents uuid_parses (wd_ledger w) in
  drain ((fun q => (q, (fates q).1, (fates q).2)) <$> intents) (set_ledger (fun _ => ledger) w).

(** When a pass of the replayer drains. *)
Definition should_drain (leader last_leader : option N) (woken : bool) (ticks : N) : bool :=
  match leader with
  | None => false
  | Some _ => negb (bool_decide (leader = last_leader)) || woken || (ticks mod 120 =? 0)%N
  end.

(** ** The admin front *)

Inductive Answer :=
  | TooLargeToReplicate (e : EntryTooLarge)
  | CannotAccept
  | Accepted (ids : list string)
  | ParkedForReplay (e : NodeError)
  | Refused (reason : string)
  | Committed (last : option (string * ControlResponse)).

(** Every op is sized before any is parked. *)
Fixpoint size_all (requests : list ControlRequest) : result EntryTooLarge () :=
  match requests with
  | [] => Ok tt
  | request :: rest => match admit_entry_size written request with Err e => Err e | Ok _ => size_all rest end
  end.

(** Every op is parked before any is submitted; [full] is a ledger write that fails. *)
Fixpoint park_all (full : ControlRequest -> bool) (requests : list ControlRequest) (w : World) : World * bool :=
  match requests with
  | [] => (w, true)
  | request :: rest =>
      if full request then (w, false) else park_all full rest (set_ledger (park_intent request) w)
  end.

(** The synchronous submits, in order, up to the first that does not commit or is
    refused. *)
Fixpoint submit_all (requests : list (ControlRequest * Fate * bool)) (last : option (string * ControlResponse))
    (w : World) : World * Answer :=
  match requests with
  | [] => (w, Committed last)
  | (request, fate, stuck) :: rest =>
      match submit_in fate request w with
      | (w, Err e) => (w, ParkedForReplay e)
      | (w, Ok response) =>
          let w := retire stuck (op_id request) w in
          match cr_outcome response with
          | Failed reason => (w, Refused reason)
          | Applied => submit_all rest (Some (op_id request, response)) w
          end
      end
  end.

(** The background task of an asynchronous write. *)
Fixpoint submit_background (requests : list (ControlRequest * Fate * bool)) (w : World) : World :=
  match requests with
  | [] => w
  | (request, fate, stuck) :: rest =>
      match submit_in fate request w with
      | (w, Ok _) => submit_background rest (retire stuck (op_id request) w)
      | (w, Err _) => w
      end
  end.

(** The committing half of a mutation: the requests it minted, with what became of
    each. *)
Definition run_mutation (full : ControlRequest -> bool) (fates : ControlRequest -> Fate * bool)
    (requests : list ControlRequest) (w : World) : World * Answer :=
  match size_all requests with
  | Err e => (w, TooLargeToReplicate e)
  | Ok _ =>
      match park_all full requests w with
      | (w, false) => (w, CannotAccept)
      | (w, true) => submit_all ((fun q => (q, (fates q).1, (fates q).2)) <$> requests) None w
      end
  end.

Definition run_mutation_async (full : ControlRequest -> bool) (requests : list ControlRequest) (w : World)
    : World * Answer :=
  match size_all requests with
  | Err e => (w, TooLargeToReplicate e)
  | Ok _ =>
      match park_all full requests w with
      | (w, false) => (w, CannotAccept)
      | (w, true) => (w, Accepted (op_id <$> requests))
      end
  end.

(** ** Asking about an op *)

Definition read_op (id : string) (s : Sm text) : result string (option ControlResponse) :=
  match dedup_rows s !! id with
  | None => Ok None
  | Some row => match from_text (A := DedupEntry) row with Ok entry => Ok (Some (de_response entry)) | Err e => Err e end
  end.

Inductive OpState :=
  | OpApplied (revision : N)
  | OpFailed (revision : N) (detail : string)
  | OpPending.

Definition op_body (id : string) (w : World) : result string (option OpState) :=
  match read_op id (wd_sm w) with
  | Err e => Err e
  | Ok (Some response) =>
      Ok (Some match cr_outcome response with
               | Applied => OpApplied (cr_revision response)
               | Failed reason => OpFailed (cr_revision response) reason
               end)
  | Ok None => Ok (if intent_parked id (wd_ledger w) then Some OpPending else None)
  end.

End World.
Arguments World : clear implicits.
