(* ===== verification/IntentsFacts.v ===== *)
(** * What an accepted write promises

    The moves the front, its background task and the replayer make are paths of one step
    relation; along every path an accepted write stays parked until the log has
    answered it, and takes effect once. *)

From S2P Require Import Prelude Upstream FlowConfig Control Recorded StateMachine Demo ApplyFacts Replica Intents.

Section Facts.
  Context {itext text : Type} `{!Serde itext ControlRequest} {CD : Codec text} {ER : EngineRules}.
  Context (uuid_parses : string -> bool) (written : ControlRequest -> option N) (L : Local).
  Implicit Types (w : World itext text).

(** ** Committing *)

(** The log takes a request for a new op: it is not a replay of one it remembers. *)
Definition takes_effect (request : ControlRequest) w : bool :=
  let s := wd_sm w in
  match dedup_hit (gc_dedup (clock s) (dedup_rows s)) (op_id request) (N.max (clock s) (issued_at_secs request)) with
  | Ok None => true
  | _ => false
  end.

Definition entry_of (request : ControlRequest) w : Entry :=
  {| e_log_id := wd_next w; e_payload := Normal request |}.

Lemma commit_apply request w :
  exists s' response acts, apply_entry L (swept (wd_sm w)) (entry_of request w) = Ok (s', response, acts) /\
    commit L request w =
      ({| wd_ledger := wd_ledger w; wd_sm := s'; wd_next := next_id (wd_next w) |}, Ok response).
Proof.
  destruct (apply_entries_equiv L L [entry_of request w] (swept (wd_sm w)) (swept (wd_sm w)))
    as (s1 & _ & rs & a & _ & H & _ & _ & _ & _ & Hl); [reflexivity|apply swept_readable..|].
  revert H. simpl. destruct (apply_entry L (swept (wd_sm w)) (entry_of request w)) as [[[s' response] acts]|] eqn:E; [|done].
  intros [= <- <- <-]. exists s', response, acts. split; [done|]. unfold commit, sm_apply. simpl.
  unfold swept, clock, entry_of in E. by rewrite E.
Qed.

Lemma commit_ledger request w : wd_ledger (commit L request w).1 = wd_ledger w.
Proof. by destruct (commit_apply request w) as (s' & response & acts & _ & ->). Qed.

Lemma commit_clock request w : (clock (wd_sm w) <= clock (wd_sm (commit L request w).1))%N.
Proof.
  destruct (commit_apply request w) as (s' & response & acts & H & ->). simpl.
  by apply apply_entry_clock in H.
Qed.

(** A remembered op stays remembered inside its window. *)
Lemma commit_remembers request w k d :
  remembers (wd_sm w) k d -> (clock (wd_sm (commit L request w).1) < de_expires_at_secs d)%N ->
  remembers (wd_sm (commit L request w).1) k d.
Proof.
  intros Hk. pose proof (commit_clock request w) as Hc.
  destruct (commit_apply request w) as (s' & response & acts & H & E). rewrite E in *. simpl in *. intros Hlt.
  eapply remembers_entry; [|exact H|done]. apply remembers_swept; [done|]. lia.
Qed.

Lemma commit_effect request w :
  takes_effect request w = true ->
  exists d, remembers (wd_sm (commit L request w).1) (op_id request) d /\
    de_expires_at_secs d = sat_add (clock (wd_sm (commit L request w).1)) DEDUP_TTL_SECS.
Proof.
  destruct (commit_apply request w) as (s' & response & acts & H & ->). simpl.
  unfold takes_effect. cbv zeta. revert H. unfold apply_entry, entry_of. simpl. unfold apply_normal. simpl.
  fold (clock (wd_sm w)). destruct (dedup_hit _ _ _) as [[r|]|]; [done| |done].
  destruct (decide_op _ _ _ _) as [t out]. intros [= <- <- <-] _. unfold remembers. simpl.
  rewrite lookup_insert_eq. eexists. split; [done|]. done.
Qed.

Lemma replay_no_effect request w d :
  remembers (wd_sm w) (op_id request) d ->
  (clock (wd_sm (commit L request w).1) < de_expires_at_secs d)%N -> takes_effect request w = false.
Proof.
  intros Hk Hlt. assert (clock (wd_sm w) < de_expires_at_secs d)%N as Hc by (pose proof (commit_clock request w); lia).
  pose proof (remembers_swept _ _ _ Hk Hc) as Hs. unfold takes_effect. cbv zeta. unfold dedup_hit.
  unfold remembers, swept in Hs. simpl in Hs. rewrite Hs, from_to_text.
  destruct (N.ltb_spec (N.max (clock (wd_sm w)) (issued_at_secs request)) (de_expires_at_secs d)) as [|Hge]; [done|].
  destruct (commit_apply request w) as (s' & response & acts & H & E). rewrite E in Hlt. simpl in Hlt.
  revert H. unfold apply_entry, entry_of. simpl. unfold apply_normal. simpl. fold (clock (wd_sm w)).
  destruct (dedup_hit _ _ _) as [[r|]|]; [|destruct (decide_op _ _ _ _)|done]; intros [= <- _ _];
    unfold clock in Hlt; simpl in Hlt; fold (clock (wd_sm w)) in Hlt; lia.
Qed.

(** ** The step relation *)

(** A world with what has happened in it: the writes accepted, the ops the log has
    answered and those too large for it, and the ops that took effect, in order. *)
Record History := {
  hi_world : World itext text;
  hi_accepted : gset string;
  hi_answered : gset string;
  hi_too_large : gset string;
  hi_effects : list string;
}.

Inductive step : History -> History -> Prop :=
  | step_park h request :
      step h {| hi_world := set_ledger (park_intent request) (hi_world h);
                hi_accepted := {[op_id request]} ∪ hi_accepted h; hi_answered := hi_answered h;
                hi_too_large := hi_too_large h; hi_effects := hi_effects h |}
  | step_commit h request :
      step h {| hi_world := (commit L request (hi_world h)).1; hi_accepted := hi_accepted h;
                hi_answered := {[op_id request]} ∪ hi_answered h; hi_too_large := hi_too_large h;
                hi_effects := hi_effects h ++ (if takes_effect request (hi_world h) then [op_id request] else []) |}
  | step_too_large h request e :
      admit_entry_size written request = Err e ->
      step h {| hi_world := hi_world h; hi_accepted := hi_accepted h; hi_answered := hi_answered h;
                hi_too_large := {[op_id request]} ∪ hi_too_large h; hi_effects := hi_effects h |}
  | step_retire h id :
      id ∈ hi_answered h ∪ hi_too_large h ->
      step h {| hi_world := set_ledger (unpark_intent id) (hi_world h); hi_accepted := hi_accepted h;
                hi_answered := hi_answered h; hi_too_large := hi_too_large h; hi_effects := hi_effects h |}
  | step_sweep h :
      step h {| hi_world := set_ledger (fun m => (parked_intents uuid_parses m).1) (hi_world h);
                hi_accepted := hi_accepted h; hi_answered := hi_answered h;
                hi_too_large := hi_too_large h; hi_effects := hi_effects h |}.

(** Every row is a request under its own id. *)
Definition rows_ok (m : gmap string itext) : Prop :=
  forall id row, m !! id = Some row -> exists request, row = to_text request /\ op_id request = id.

Lemma parked_intents_ok m :
  rows_ok m -> (parked_intents uuid_parses m).1 = m /\
    forall request, request ∈ (parked_intents uuid_parses m).2 <-> m !! op_id request = Some (to_text request).
Proof.
  intros Hok. unfold parked_intents.
  assert (forall rows (acc : gmap string itext * list ControlRequest),
    (forall kv, kv ∈ rows -> exists q, kv.2 = to_text q /\ op_id q = kv.1) ->
    let out := foldl (read_row uuid_parses) acc rows in
    out.1 = acc.1 /\ forall q, q ∈ out.2 <-> q ∈ acc.2 \/ (op_id q, to_text q) ∈ rows) as Hf.
  { induction rows as [|[k row] rows IH]; intros acc Hr; simpl; [split; [done|set_solver]|].
    destruct (Hr (k, row)) as (q & Hq & Hid); [set_solver|]. simpl in Hq, Hid. unfold read_row at 2 4. simpl. rewrite Hq, from_to_text.
    destruct (IH (acc.1, acc.2 ++ [q])) as [-> H2]; [set_solver|]. split; [done|]. intros q'. rewrite H2. simpl.
    rewrite elem_of_app, list_elem_of_singleton, elem_of_cons. split.
    - intros [[?| ->]|?]; [by left|right; left; by rewrite Hid|by right; right].
    - intros [?|[[= _ He]|?]]; [by left; left| |by right]. left. right. apply (f_equal from_text) in He.
      rewrite !from_to_text in He. by injection He. }
  destruct (Hf (str_rows m) (m, [])) as [-> H2].
  { intros [k row] Hin. unfold str_rows in Hin. rewrite merge_sort_Permutation in Hin.
    apply elem_of_map_to_list in Hin. destruct (Hok _ _ Hin) as (q & -> & Hid). by exists q. }
  split; [done|]. intros q. rewrite H2. unfold str_rows. rewrite merge_sort_Permutation, elem_of_map_to_list. set_solver.
Qed.

(** ** Accepted writes *)

Definition fresh_history w : History :=
  {| hi_world := w; hi_accepted := ∅; hi_answered := ∅; hi_too_large := ∅; hi_effects := [] |}.

Definition ledger_of (h : History) : gmap string itext := wd_ledger (hi_world h).

Definition log_of (h : History) : Sm text := wd_sm (hi_world h).

Definition kept (h : History) : Prop :=
  rows_ok (ledger_of h) /\
  forall id, id ∈ hi_accepted h -> is_Some (ledger_of h !! id) \/ id ∈ hi_answered h ∪ hi_too_large h.

Lemma step_kept h h' : step h h' -> kept h -> kept h'.
Proof.
  intros Hs [Hrows Hk]. unfold kept, ledger_of in *. destruct Hs as [h request|h request|h request e He|h id Hid|h]; simpl in *.
  - split.
    + intros id row. unfold park_intent. rewrite lookup_insert_Some. intros [[<- <-]|[_ ?]]; eauto.
    + intros id [->%elem_of_singleton|Hid]%elem_of_union; unfold park_intent.
      * left. rewrite lookup_insert_eq. eauto.
      * destruct (Hk id Hid); [|by right]. left. rewrite lookup_insert_is_Some'. by right.
  - rewrite commit_ledger. split; [done|]. intros id Hid. destruct (Hk id Hid); [by left|right; set_solver].
  - split; [done|]. intros id Hid. destruct (Hk id Hid); [by left|right; set_solver].
  - unfold unpark_intent. split; [intros k row [_ ?]%lookup_delete_Some; eauto|]. intros k Hin.
    destruct (decide (id = k)) as [->|Hne]; [by right|]. rewrite lookup_delete_ne by done. by apply Hk.
  - by rewrite (proj1 (parked_intents_ok _ Hrows)).
Qed.

Lemma steps_kept h h' : rtc step h h' -> kept h -> kept h'.
Proof. induction 1 as [|h h1 h2 Hs _ IH]; [done|]. intros Hk. by apply IH, (step_kept h). Qed.

Lemma step_clock h h' : step h h' -> (clock (log_of h) <= clock (log_of h'))%N.
Proof. unfold log_of. destruct 1; simpl; try lia. apply commit_clock. Qed.

(** Inside the window, what took effect is remembered, and took effect once. *)
Definition once (bound : N) (h : History) : Prop :=
  NoDup (hi_effects h) /\
  forall id, id ∈ hi_effects h -> exists d, remembers (log_of h) id d /\ (bound <= de_expires_at_secs d)%N.

Lemma step_once bound h h' :
  step h h' -> (bound <= sat_add (clock (log_of h)) DEDUP_TTL_SECS)%N -> (clock (log_of h') < bound)%N ->
  once bound h -> once bound h'.
Proof.
  unfold once, log_of. intros Hs Hb Hlt [Hnd Hr]. destruct Hs as [h request|h request|h request e He|h id Hid|h]; simpl in *; try done.
  assert (forall id, id ∈ hi_effects h -> exists d,
    remembers (wd_sm (commit L request (hi_world h)).1) id d /\ (bound <= de_expires_at_secs d)%N) as Hr'.
  { intros id Hid. destruct (Hr id Hid) as (d & Hd & He). exists d. split; [|done]. apply commit_remembers; [done|lia]. }
  destruct (takes_effect request (hi_world h)) eqn:Ht; [|by rewrite app_nil_r].
  split.
  - apply NoDup_app. split_and!; [done| |apply NoDup_singleton]. intros id Hid ->%list_elem_of_singleton.
    destruct (Hr _ Hid) as (d & Hd & He). rewrite (replay_no_effect _ _ d) in Ht; [done|done|lia].
  - intros id [?| ->%list_elem_of_singleton]%elem_of_app; [by apply Hr'|].
    destruct (commit_effect request (hi_world h) Ht) as (d & Hd & He). exists d. split; [done|]. rewrite He.
    pose proof (commit_clock request (hi_world h)). unfold sat_add in *. lia.
Qed.

Lemma steps_once bound h h' :
  rtc step h h' -> (bound <= sat_add (clock (log_of h)) DEDUP_TTL_SECS)%N -> (clock (log_of h') < bound)%N ->
  once bound h -> once bound h'.
Proof.
  induction 1 as [|h h1 h2 Hs Hss IH]; [done|]. intros Hb Hlt Ho. pose proof (step_clock _ _ Hs) as Hc.
  assert (clock (log_of h1) <= clock (log_of h2))%N as Hc2.
  { clear -Hss. induction Hss as [|x y z Hxy _ IH]; [done|]. apply step_clock in Hxy. lia. }
  apply IH; [unfold sat_add in *; lia|done|]. eapply step_once; [done|done|lia|done].
Qed.


(** ** The code's moves are paths *)

(** What a path keeps and what it may add to. *)
Definition extends (h h' : History) : Prop :=
  rtc step h h' /\ hi_accepted h ⊆ hi_accepted h' /\ hi_answered h ⊆ hi_answered h' /\ hi_too_large h ⊆ hi_too_large h'.

Lemma extends_refl h : extends h h.
Proof. by split_and!. Qed.

Lemma extends_trans h h1 h2 : extends h h1 -> extends h1 h2 -> extends h h2.
Proof. intros (? & ? & ? & ?) (? & ? & ? & ?). split_and!; [by etrans|set_solver..]. Qed.

Lemma extends_step h h' :
  step h h' -> hi_accepted h ⊆ hi_accepted h' -> hi_answered h ⊆ hi_answered h' -> hi_too_large h ⊆ hi_too_large h' ->
  extends h h'.
Proof. intros. split_and!; [by apply rtc_once|done..]. Qed.

Lemma submit_path fate request h :
  exists h', extends h h' /\ hi_world h' = (submit_in written L fate request (hi_world h)).1 /\
    match (submit_in written L fate request (hi_world h)).2 with
    | Ok _ => op_id request ∈ hi_answered h'
    | Err (NodeEntryTooLarge _) => op_id request ∈ hi_too_large h'
    | Err _ => True
    end.
Proof.
  unfold submit_in. destruct (admit_entry_size written request) as [n|e] eqn:Ha.
  2: { eexists. split; [apply extends_step; [by eapply step_too_large|set_solver..]|]. simpl. split; [done|set_solver]. }
  assert (exists h', extends h h' /\ hi_world h' = (commit L request (hi_world h)).1 /\ op_id request ∈ hi_answered h') as (h' & He & Hw & Hin).
  { eexists. split; [apply extends_step; [apply (step_commit h request)|simpl; set_solver..]|]. simpl. split; [done|set_solver]. }
  destruct fate as [|q d|q d]; simpl.
  - exists h'. split_and!; [done..|]. by destruct (commit_apply request (hi_world h)) as (s' & r & acts & _ & ->).
  - exists h'. split_and!; [done..|]. by destruct q.
  - exists h. split_and!; [apply extends_refl|done|by destruct q].
Qed.

Lemma retire_path stuck id h :
  id ∈ hi_answered h ∪ hi_too_large h -> exists h', extends h h' /\ hi_world h' = retire stuck id (hi_world h).
Proof.
  intros Hid. unfold retire. destruct stuck; [exists h; split; [apply extends_refl|done]|].
  eexists. split; [apply extends_step; [by apply step_retire|set_solver..]|done].
Qed.

Lemma drain_path intents : forall h, exists h', extends h h' /\ hi_world h' = drain written L intents (hi_world h).
Proof.
  induction intents as [|[[request fate] stuck] intents IH]; intros h; simpl; [exists h; split; [apply extends_refl|done]|].
  destruct (submit_path fate request h) as (h1 & He1 & Hw1 & Hr1).
  destruct (submit_in written L fate request (hi_world h)) as [w1 r1]. simpl in Hw1, Hr1.
  assert (op_id request ∈ hi_answered h1 ∪ hi_too_large h1 ->
    exists h', extends h h' /\ hi_world h' = drain written L intents (retire stuck (op_id request) w1)) as Hgo.
  { intros Hin. destruct (retire_path stuck _ h1 Hin) as (h2 & He2 & Hw2). destruct (IH h2) as (h3 & He3 & Hw3).
    exists h3. split; [by eapply extends_trans; [|eapply extends_trans]|]. by rewrite Hw3, Hw2, Hw1. }
  destruct r1 as [response|[]]; [apply Hgo; set_solver| | | | | |by exists h1|apply Hgo; set_solver| | | |];
    (destruct (IH h1) as (h2 & He2 & Hw2); exists h2; split; [by eapply extends_trans|by rewrite Hw2, Hw1]).
Qed.

Lemma submit_all_path requests : forall last h,
  exists h', extends h h' /\ hi_world h' = (submit_all written L requests last (hi_world h)).1.
Proof.
  induction requests as [|[[request fate] stuck] requests IH]; intros last h; simpl; [exists h; split; [apply extends_refl|done]|].
  destruct (submit_path fate request h) as (h1 & He1 & Hw1 & Hr1).
  destruct (submit_in written L fate request (hi_world h)) as [w1 r1]. simpl in Hw1, Hr1.
  destruct r1 as [response|e]; [|by exists h1].
  destruct (retire_path stuck (op_id request) h1) as (h2 & He2 & Hw2); [set_solver|]. rewrite Hw1 in Hw2.
  destruct (cr_outcome response).
  - destruct (IH (Some (op_id request, response)) h2) as (h3 & He3 & Hw3).
    exists h3. split; [by eapply extends_trans; [|eapply extends_trans]|]. by rewrite Hw3, Hw2.
  - exists h2. split; [by eapply extends_trans|done].
Qed.

Lemma submit_background_path requests : forall h,
  exists h', extends h h' /\ hi_world h' = submit_background written L requests (hi_world h).
Proof.
  induction requests as [|[[request fate] stuck] requests IH]; intros h; simpl; [exists h; split; [apply extends_refl|done]|].
  destruct (submit_path fate request h) as (h1 & He1 & Hw1 & Hr1).
  destruct (submit_in written L fate request (hi_world h)) as [w1 r1]. simpl in Hw1, Hr1.
  destruct r1 as [response|e]; [|by exists h1].
  destruct (retire_path stuck (op_id request) h1) as (h2 & He2 & Hw2); [set_solver|]. rewrite Hw1 in Hw2.
  destruct (IH h2) as (h3 & He3 & Hw3). exists h3. split; [by eapply extends_trans; [|eapply extends_trans]|]. by rewrite Hw3, Hw2.
Qed.

Lemma park_all_path full requests : forall h,
  exists h', extends h h' /\ hi_world h' = (park_all full requests (hi_world h)).1 /\
    ((park_all full requests (hi_world h)).2 = true -> forall request, request ∈ requests -> op_id request ∈ hi_accepted h').
Proof.
  induction requests as [|request requests IH]; intros h; simpl.
  { exists h. split_and!; [apply extends_refl|done|set_solver]. }
  destruct (full request); [exists h; split_and!; [apply extends_refl|done|done]|].
  destruct (IH {| hi_world := set_ledger (park_intent request) (hi_world h);
                  hi_accepted := {[op_id request]} ∪ hi_accepted h; hi_answered := hi_answered h;
                  hi_too_large := hi_too_large h; hi_effects := hi_effects h |}) as (h' & He & Hw & Ha).
  exists h'. split_and!.
  - eapply extends_trans; [|exact He]. apply extends_step; [apply step_park|set_solver..].
  - exact Hw.
  - intros Hp q [->|Hq]%elem_of_cons; [|by apply Ha]. destruct He as (_ & Hacc & _). simpl in Hacc. set_solver.
Qed.

(** What the front told the client about a write it took on. *)
Definition taken_on (answer : Answer) : bool :=
  match answer with TooLargeToReplicate _ | CannotAccept => false | _ => true end.

(** The write path moves only as the ledger's rules allow. A drain of the replayer, a
    synchronous and an asynchronous write and the background task of the latter are each
    a path of park, commit, retire and sweep steps, whatever became of their submits; and
    a front that answers anything but too large or cannot accept has accepted every op of
    the write first. *)
Theorem write_path_steps h :
  rows_ok (ledger_of h) ->
  (forall fates, exists h', extends h h' /\ hi_world h' = drain_parked_intents uuid_parses written L fates (hi_world h)) /\
  (forall requests, exists h', extends h h' /\ hi_world h' = submit_background written L requests (hi_world h)) /\
  (forall full fates requests, exists h', extends h h' /\
     hi_world h' = (run_mutation written L full fates requests (hi_world h)).1 /\
     (taken_on (run_mutation written L full fates requests (hi_world h)).2 = true ->
        forall request, request ∈ requests -> op_id request ∈ hi_accepted h')) /\
  (forall full requests, exists h', extends h h' /\
     hi_world h' = (run_mutation_async written full requests (hi_world h)).1 /\
     (taken_on (run_mutation_async written full requests (hi_world h)).2 = true ->
        forall request, request ∈ requests -> op_id request ∈ hi_accepted h')).
Proof.
  intros Hrows. split_and!.
  - intros fates. unfold drain_parked_intents.
    destruct (parked_intents uuid_parses (wd_ledger (hi_world h))) as [ledger intents] eqn:Ep.
    set (h1 := {| hi_world := set_ledger (fun m => (parked_intents uuid_parses m).1) (hi_world h);
                  hi_accepted := hi_accepted h; hi_answered := hi_answered h;
                  hi_too_large := hi_too_large h; hi_effects := hi_effects h |}).
    destruct (drain_path ((fun q => (q, (fates q).1, (fates q).2)) <$> intents) h1) as (h' & He & Hw).
    exists h'. split; [eapply extends_trans; [apply extends_step; [apply step_sweep|set_solver..]|exact He]|].
    rewrite Hw. unfold h1, set_ledger. simpl. by rewrite Ep.
  - intros requests. apply submit_background_path.
  - intros full fates requests. unfold run_mutation. destruct (size_all written requests); [|exists h; split_and!; [apply extends_refl|done|done]].
    destruct (park_all_path full requests h) as (h1 & He1 & Hw1 & Ha1).
    destruct (park_all full requests (hi_world h)) as [w1 []]; simpl in *; [|by exists h1].
    destruct (submit_all_path ((fun q => (q, (fates q).1, (fates q).2)) <$> requests) None h1) as (h2 & He2 & Hw2).
    rewrite Hw1 in Hw2. exists h2. split_and!; [by eapply extends_trans|done|].
    intros _ q Hq. destruct He2 as (_ & Hacc & _). apply Hacc. by apply Ha1.
  - intros full requests. unfold run_mutation_async. destruct (size_all written requests); [|exists h; split_and!; [apply extends_refl|done|done]].
    destruct (park_all_path full requests h) as (h1 & He1 & Hw1 & Ha1).
    destruct (park_all full requests (hi_world h)) as [w1 []]; simpl in *; exists h1; split_and!; done.
Qed.

(** ** A drain that is answered *)

Lemma drain_answered intents : forall w,
  Forall (fun q => is_ok (admit_entry_size written q) = true) intents ->
  forall id, wd_ledger (drain written L ((fun q => (q, Answered, false)) <$> intents) w) !! id =
    if decide (id ∈ op_id <$> intents) then None else wd_ledger w !! id.
Proof.
  induction intents as [|q intents IH]; intros w Hsz id; [done|]. apply Forall_cons in Hsz as [Hq Hsz]. simpl.
  unfold submit_in. destruct (admit_entry_size written q); [|done].
  destruct (commit_apply q w) as (s' & r & acts & _ & ->). simpl. rewrite (IH _ Hsz). unfold unpark_intent. simpl.
  destruct (decide (id = op_id q)) as [->|Hne].
  - rewrite lookup_delete_eq, (decide_True (P := op_id q ∈ op_id q :: _)) by apply list_elem_of_here. by case_decide.
  - rewrite lookup_delete_ne by done. repeat case_decide; try done; exfalso; set_solver.
Qed.

(** A drain that reaches the leader empties the ledger. When a leader answers every
    submit of a drain and no parked intent outgrew the log, the drain resubmits every
    parked intent and leaves nothing parked. *)
Theorem drain_completes w :
  rows_ok (wd_ledger w) ->
  (forall id request, wd_ledger w !! id = Some (to_text request) -> is_ok (admit_entry_size written request) = true) ->
  wd_ledger (drain_parked_intents uuid_parses written L (fun _ => (Answered, false)) w) = ∅.
Proof.
  intros Hrows Hsz. unfold drain_parked_intents. pose proof (parked_intents_ok _ Hrows) as [Hl Hin].
  destruct (parked_intents uuid_parses (wd_ledger w)) as [ledger intents]. simpl in Hl, Hin. subst ledger. simpl.
  apply map_eq. intros id. rewrite lookup_empty, drain_answered.
  - case_decide as Hd; [done|]. simpl. apply eq_None_not_Some. intros [row Hrow].
    destruct (Hrows id row Hrow) as (q & -> & <-). apply Hd, list_elem_of_fmap_2. by apply Hin.
  - apply Forall_forall. intros q Hq%Hin. by eapply Hsz.
Qed.

End Facts.

(** ** A concrete ledger *)

#[local] Existing Instances demo_codec demo_rules.

#[local] Instance verbatim_request : Serde ControlRequest ControlRequest := {
  to_text q := q;
  from_text q := Ok q;
  from_to_text q := eq_refl;
}.

Definition small (q : ControlRequest) : option N := Some 100%N.

Definition q_put : ControlRequest := demo_request "op-1" 10 None (PutImposter (demo_config 6400 [proxy_stub]) None).
Definition q_delete : ControlRequest := demo_request "op-2" 11 None (DeleteImposter 7000).

Definition empty_world : World ControlRequest doc :=
  {| wd_ledger := ∅; wd_sm := initial; wd_next := {| lid_term := 1; lid_node := 1; lid_index := 1 |} |}.

(** The front loses its answer and the replayer submits the op again. *)
Definition lost_then_replayed : World ControlRequest doc :=
  drain_parked_intents (fun _ => true) small demo_local (fun _ => (Answered, false))
    (run_mutation small demo_local (fun _ => false) (fun _ => (Lost false "timeout", false)) [q_put] empty_world).1.

Lemma empty_rows_ok : rows_ok (wd_ledger empty_world).
Proof. intros id row. unfold empty_world. simpl. by rewrite lookup_empty. Qed.


Lemma write_path_steps_witness :
  exists h, extends (fun _ => true) small demo_local (fresh_history empty_world) h /\
    hi_world h = (run_mutation small demo_local (fun _ => false) (fun _ => (Lost false "timeout", false)) [q_put] empty_world).1
    /\ op_id q_put ∈ hi_accepted h.
Proof.
  destruct (write_path_steps (fun _ => true) small demo_local (fresh_history empty_world) empty_rows_ok) as (_ & _ & H & _).
  destruct (H (fun _ => false) (fun _ => (Lost false "timeout", false)) [q_put]) as (h & He & Hw & Ha).
  exists h. split_and!; [exact He|exact Hw|]. apply Ha; [vm_compute; reflexivity|apply list_elem_of_here].
Defined.

Lemma drain_completes_witness :
  wd_ledger lost_then_replayed = ∅ /\ is_Some (configs (tables (wd_sm lost_then_replayed)) !! 6400%N).
Proof.
  split; [|apply (bool_decide_unpack _); vm_compute; exact I].
  assert (wd_ledger (run_mutation small demo_local (fun _ => false) (fun _ => (Lost false "timeout", false)) [q_put] empty_world).1
    = {["op-1" := q_put]}) as Hl by (vm_compute; reflexivity).
  apply (drain_completes (fun _ => true) small demo_local); rewrite Hl.
  - intros id row [<- <-]%lookup_singleton_Some. by exists q_put.
  - intros id request [_ H]%lookup_singleton_Some. simpl in H. subst request. vm_compute. reflexivity.
Defined.

(** A write that is refused because its second op could not be parked leaves its first
    parked, and the replayer applies it. *)
Lemma refused_write_half_applied :
  let full q := bool_decide (op_id q = "op-2") in
  let out := run_mutation small demo_local full (fun _ => (Answered, false)) [q_put; q_delete] empty_world in
  let after := drain_parked_intents (fun _ => true) small demo_local (fun _ => (Answered, false)) out.1 in
  out.2 = CannotAccept /\ is_Some (configs (tables (wd_sm after)) !! 6400%N).
Proof. split; [vm_compute; reflexivity|]. apply (bool_decide_unpack _). vm_compute. exact I. Qed.
