(* ===== verification/LogStore.v ===== *)
(** * The Raft log: [RedbLogStore] of [raft/store.rs]

    The redb tables of the log, its operations, and the contract openraft relies on
    as an abstract log: a purge point and a contiguous run of entries after it.
    [log_store_refines] shows that any sequence of appends, truncations and purges
    that keeps the contract behaves, for every read, as on the abstract log. *)

From S2P Require Import Prelude Upstream FlowConfig Control Recorded StateMachine ApplyFacts.

(** ** The tables *)

Record LogMeta := { last_purged_log_id : option LogId }.

(** openraft's vote. *)
Record Vote := { vote_term : N; vote_node : N; vote_committed : bool }.

Class LogCodec (text : Type) := {
  codec_entry :: Serde text Entry;
  codec_meta :: Serde text LogMeta;
  codec_vote :: Serde text Vote;
}.

Record LogDb (text : Type) := {
  raft_log : gmap N text;
  raft_log_meta : option text;
  raft_vote : option text;
}.
Arguments raft_log {text} _.
Arguments raft_log_meta {text} _.
Arguments raft_vote {text} _.
Arguments Build_LogDb {text} _ _ _.

(** [std::ops::Bound]. *)
Inductive Bound :=
  | Included (x : N)
  | Excluded (x : N)
  | Unbounded.

Definition log_index (e : Entry) : N := lid_index (e_log_id e).

Record LogState := { ls_last_purged : option LogId; ls_last : option LogId }.

Section Store.
  Context {text : Type} {LC : LogCodec text}.

(** The lower bound after normalisation, as a test on an index. *)
Definition start_of (b : Bound) (i : N) : bool :=
  match b with
  | Included x => (x <=? i)%N
  | Excluded x => (sat_add x 1 <=? i)%N
  | Unbounded => true
  end.

Definition end_of (b : Bound) (i : N) : bool :=
  match b with
  | Included x => (i <? sat_add x 1)%N
  | Excluded x => (i <? x)%N
  | Unbounded => true
  end.

Definition in_range (lo hi : Bound) (i : N) : bool := start_of lo i && end_of hi i.

Fixpoint read_entries (rows : list (N * text)) : result string (list Entry) :=
  match rows with
  | [] => Ok []
  | (_, row) :: rest =>
      match from_text (A := Entry) row with
      | Err e => Err e
      | Ok entry => es ← read_entries rest; Ok (entry :: es)
      end
  end.

Definition try_get_log_entries (db : LogDb text) (lo hi : Bound) : result string (list Entry) :=
  read_entries (List.filter (fun kv => in_range lo hi kv.1) (port_rows (raft_log db))).

Definition get_log_state (db : LogDb text) : result string LogState :=
  last_log_id ←
    match last (port_rows (raft_log db)) with
    | None => Ok None
    | Some (_, row) =>
        match from_text (A := Entry) row with
        | Err e => Err e
        | Ok entry => Ok (Some (e_log_id entry))
        end
    end;
  last_purged ←
    match raft_log_meta db with
    | None => Ok None
    | Some row =>
        match from_text (A := LogMeta) row with
        | Err e => Err e
        | Ok m => Ok (last_purged_log_id m)
        end
    end;
  Ok {| ls_last_purged := last_purged;
        ls_last := match last_log_id with Some id => Some id | None => last_purged end |}.

Definition save_vote (db : LogDb text) (vote : Vote) : LogDb text :=
  Build_LogDb (raft_log db) (raft_log_meta db) (Some (to_text vote)).

Definition read_vote (db : LogDb text) : result string (option Vote) :=
  match raft_vote db with
  | None => Ok None
  | Some row => match from_text row with Ok v => Ok (Some v) | Err e => Err e end
  end.

Definition log_append (db : LogDb text) (entries : list Entry) : LogDb text :=
  Build_LogDb (foldl (fun m e => <[log_index e := to_text e]> m) (raft_log db) entries)
              (raft_log_meta db) (raft_vote db).

Definition log_truncate (db : LogDb text) (log_id : LogId) : LogDb text :=
  Build_LogDb (filter (fun kv : N * text => (kv.1 < lid_index log_id)%N) (raft_log db))
              (raft_log_meta db) (raft_vote db).

Definition log_purge (db : LogDb text) (log_id : LogId) : LogDb text :=
  Build_LogDb (filter (fun kv : N * text => (lid_index log_id < kv.1)%N) (raft_log db))
              (Some (to_text {| last_purged_log_id := Some log_id |})) (raft_vote db).

End Store.

(** ** The contract *)

Record RaftLog := { rl_purged : option LogId; rl_entries : list Entry; rl_vote : option Vote }.

Inductive LogOp :=
  | OAppend (entries : list Entry)
  | OTruncate (log_id : LogId)
  | OPurge (log_id : LogId)
  | OVote (vote : Vote).

(** The index of the first entry the log still holds or would hold. *)
Definition first_index (l : RaftLog) : N :=
  match rl_purged l with Some id => lid_index id + 1 | None => 0 end.

(** The index the next appended entry takes. *)
Definition next_index (l : RaftLog) : N :=
  match last (rl_entries l) with Some e => log_index e + 1 | None => first_index l end.

(** Entries numbered one after the other from [i], below the last index of a [u64]. *)
Fixpoint numbered (i : N) (es : list Entry) : Prop :=
  match es with
  | [] => True
  | e :: rest => log_index e = i /\ (i < u64_max)%N /\ numbered (i + 1)%N rest
  end.

(** What openraft promises of the operations it calls: an append continues the log,
    and the purge point moves forward. *)
Definition op_allowed (l : RaftLog) (o : LogOp) : Prop :=
  match o with
  | OAppend es => numbered (next_index l) es
  | OPurge id => forall p, rl_purged l = Some p -> (lid_index p <= lid_index id)%N
  | OTruncate _ | OVote _ => True
  end.

Definition spec_op (l : RaftLog) (o : LogOp) : RaftLog :=
  match o with
  | OAppend es =>
      {| rl_purged := rl_purged l; rl_entries := rl_entries l ++ es; rl_vote := rl_vote l |}
  | OTruncate id =>
      {| rl_purged := rl_purged l;
         rl_entries := List.filter (fun e => (log_index e <? lid_index id)%N) (rl_entries l);
         rl_vote := rl_vote l |}
  | OPurge id =>
      {| rl_purged := Some id;
         rl_entries := List.filter (fun e => (lid_index id <? log_index e)%N) (rl_entries l);
         rl_vote := rl_vote l |}
  | OVote v => {| rl_purged := rl_purged l; rl_entries := rl_entries l; rl_vote := Some v |}
  end.

Fixpoint all_allowed (l : RaftLog) (ops : list LogOp) : Prop :=
  match ops with
  | [] => True
  | o :: rest => op_allowed l o /\ all_allowed (spec_op l o) rest
  end.

Definition spec_state (l : RaftLog) : LogState :=
  {| ls_last_purged := rl_purged l;
     ls_last := match last (rl_entries l) with Some e => Some (e_log_id e) | None => rl_purged l end |}.

(** What a bound means of an index. *)
Definition bound_range (lo hi : Bound) (i : N) : bool :=
  match lo with Included x => (x <=? i)%N | Excluded x => (x <? i)%N | Unbounded => true end
  && match hi with Included x => (i <=? x)%N | Excluded x => (i <? x)%N | Unbounded => true end.

Definition spec_range (l : RaftLog) (lo hi : Bound) : list Entry :=
  List.filter (fun e => bound_range lo hi (log_index e)) (rl_entries l).

Definition empty_log : RaftLog := {| rl_purged := None; rl_entries := []; rl_vote := None |}.

Definition exec_op {text} {LC : LogCodec text} (db : LogDb text) (o : LogOp) : LogDb text :=
  match o with
  | OAppend es => log_append db es
  | OTruncate id => log_truncate db id
  | OPurge id => log_purge db id
  | OVote v => save_vote db v
  end.

Definition empty_db {text} : LogDb text := Build_LogDb ∅ None None.

(** ** Numbered runs *)

Lemma numbered_app i es es' :
  numbered i (es ++ es') <-> numbered i es /\ numbered (i + N.of_nat (length es))%N es'.
Proof.
  revert i. induction es as [|e es IH]; intros i; simpl; [by rewrite N.add_0_r; naive_solver|].
  rewrite IH. replace (i + 1 + N.of_nat (length es))%N with (i + N.pos (Pos.of_succ_nat (length es)))%N by lia.
  tauto.
Qed.

Lemma numbered_bounds i es e :
  numbered i es -> e ∈ es -> (i <= log_index e < i + N.of_nat (length es))%N /\ (log_index e < u64_max)%N.
Proof.
  revert i. induction es as [|e' es IH]; intros i; [by intros _ ?%not_elem_of_nil|].
  simpl. intros (<- & Hlt & Hn). rewrite elem_of_cons. intros [->|Hin]; [lia|].
  specialize (IH _ Hn Hin). lia.
Qed.

Lemma numbered_last i es e :
  numbered i es -> last es = Some e -> (log_index e + 1 = i + N.of_nat (length es))%N.
Proof.
  destruct es as [|e' es] using rev_ind; [done|]. rewrite last_snoc, numbered_app, length_app.
  simpl. intros (_ & Hi & _) [= <-]. lia.
Qed.

Lemma numbered_sorted i es : numbered i es -> StronglySorted (fun a b => log_index a < log_index b)%N es.
Proof.
  revert i. induction es as [|e es IH]; intros i; [constructor|]. simpl. intros (<- & _ & Hn).
  constructor; [by eapply IH|]. apply Forall_forall. intros e' He'.
  destruct (numbered_bounds _ _ _ Hn He'). lia.
Qed.

(** A filter by an upper or a lower bound keeps a run a run. *)
Lemma numbered_filter_below i es k :
  numbered i es -> numbered i (List.filter (fun e => (log_index e <? k)%N) es).
Proof.
  revert i. induction es as [|e es IH]; intros i; [done|]. simpl. intros (He & Hlt & Hn).
  destruct (N.ltb_spec (log_index e) k) as [Hk|Hk]; [simpl; auto|].
  assert (List.filter (fun e => (log_index e <? k)%N) es = []) as ->; [|done].
  apply list_filter_none. intros x Hx. destruct (numbered_bounds _ _ _ Hn Hx).
  apply N.ltb_ge. lia.
Qed.

(** What a purge leaves starts right after the purge point. *)
Lemma numbered_filter_above i es k :
  numbered i es -> (i <= k + 1)%N -> numbered (k + 1)%N (List.filter (fun e => (k <? log_index e)%N) es).
Proof.
  revert i. induction es as [|e es IH]; intros i; [done|]. simpl. intros (He & Hlt & Hn) Hi.
  destruct (N.ltb_spec k (log_index e)) as [Hk|Hk]; [|apply (IH (i + 1)%N); [done|lia]].
  assert (i = k + 1)%N as -> by lia. rewrite list_filter_every; [by simpl|].
  intros x Hx. destruct (numbered_bounds _ _ _ Hn Hx). apply N.ltb_lt. lia.
Qed.

Lemma numbered_next l : numbered (first_index l) (rl_entries l) ->
  next_index l = (first_index l + N.of_nat (length (rl_entries l)))%N.
Proof.
  intros Hn. unfold next_index. destruct (last (rl_entries l)) as [e|] eqn:El.
  - by apply numbered_last.
  - apply last_None in El. rewrite El. simpl. lia.
Qed.

(** The contract keeps the log contiguous from its purge point. *)
Lemma spec_op_numbered l o :
  op_allowed l o -> numbered (first_index l) (rl_entries l) ->
  numbered (first_index (spec_op l o)) (rl_entries (spec_op l o)).
Proof.
  intros Ha Hn. destruct o as [es|id|id|v]; simpl in *.
  - apply numbered_app. split; [done|]. rewrite (numbered_next l Hn) in Ha. exact Ha.
  - by apply numbered_filter_below.
  - unfold first_index in *; simpl in *. eapply numbered_filter_above; [done|].
    destruct (rl_purged l) as [p|]; [|lia]. specialize (Ha _ eq_refl). lia.
  - done.
Qed.

Section Refine.
  Context {text : Type} {LC : LogCodec text}.

(** The row of an entry, and the table of a run. *)
Definition entry_row (e : Entry) : N * text := (log_index e, to_text e).

(** The database holds the log. *)
Definition db_holds (db : LogDb text) (l : RaftLog) : Prop :=
  numbered (first_index l) (rl_entries l) /\
  (forall i row, raft_log db !! i = Some row <-> (i, row) ∈ entry_row <$> rl_entries l) /\
  raft_log_meta db = (fun id => to_text {| last_purged_log_id := Some id |}) <$> rl_purged l /\
  raft_vote db = to_text <$> rl_vote l.

Lemma numbered_rows i es : numbered i es -> StronglySorted port_lt (entry_row <$> es).
Proof.
  revert i. induction es as [|e es IH]; intros i; [constructor|]. simpl. intros (He & _ & Hn).
  constructor; [by eapply IH|]. apply Forall_fmap, Forall_forall. intros e' He'.
  destruct (numbered_bounds _ _ _ Hn He'). unfold port_lt. simpl. lia.
Qed.

Lemma db_rows db l : db_holds db l -> port_rows (raft_log db) = entry_row <$> rl_entries l.
Proof.
  intros (Hn & Hrows & _). apply port_rows_unique; [by eapply numbered_rows|].
  intros p x. by rewrite Hrows.
Qed.

Lemma append_lookup i es (m : gmap N text) k row :
  numbered i es -> (forall j r, m !! j = Some r -> (j < i)%N) ->
  foldl (fun m e => <[log_index e := to_text e]> m) m es !! k = Some row <->
  m !! k = Some row \/ (k, row) ∈ entry_row <$> es.
Proof.
  revert i m. induction es as [|e es IH]; intros i m; simpl; [set_solver|].
  intros (He & _ & Hn) Hm. rewrite (IH (i + 1)%N); [|done|].
  - rewrite lookup_insert_Some, elem_of_cons. split.
    + intros [[[<- <-]|[_ H]]|H]; [right; by left|by left|right; by right].
    + intros [H|[[= -> ->]|H]]; [|by left; left|by right].
      left. right. split; [|done]. specialize (Hm _ _ H). lia.
  - intros j r. rewrite lookup_insert_Some. intros [[<- _]|[_ Hj]]; [lia|]. specialize (Hm _ _ Hj). lia.
Qed.

Lemma elem_of_filtered_rows (p : N -> bool) es i (row : text) :
  (i, row) ∈ entry_row <$> List.filter (fun e => p (log_index e)) es <->
  (i, row) ∈ entry_row <$> es /\ p i = true.
Proof.
  rewrite !list_elem_of_fmap. split.
  - intros (e & [= -> ->] & [He Hp]%elem_of_List_filter). eauto.
  - intros [(e & [= -> ->] & He) Hp]. exists e. by rewrite elem_of_List_filter.
Qed.

Lemma exec_op_holds db l o : db_holds db l -> op_allowed l o -> db_holds (exec_op db o) (spec_op l o).
Proof.
  intros Hdb Ha. pose proof Hdb as (Hn & Hrows & Hmeta & Hvote).
  split; [by apply spec_op_numbered|]. destruct o as [es|id|id|v]; simpl in *.
  - split; [|done]. intros i row. rewrite fmap_app, elem_of_app, <- Hrows.
    apply (append_lookup (next_index l)); [done|]. intros j r Hj%Hrows.
    apply list_elem_of_fmap in Hj as (e & [= -> _] & He).
    rewrite numbered_next by done. apply (numbered_bounds _ _ _ Hn) in He. lia.
  - split; [|done]. intros i row. rewrite map_lookup_filter_Some, Hrows.
    rewrite (elem_of_filtered_rows (fun i => i <? lid_index id)%N). simpl. by rewrite N.ltb_lt.
  - split; [|done]. intros i row. rewrite map_lookup_filter_Some, Hrows.
    rewrite (elem_of_filtered_rows (fun i => lid_index id <? i)%N). simpl. by rewrite N.ltb_lt.
  - done.
Qed.

Lemma exec_ops_holds ops : forall db l,
  db_holds db l -> all_allowed l ops -> db_holds (foldl exec_op db ops) (foldl spec_op l ops).
Proof.
  induction ops as [|o ops IH]; intros db l Hdb; simpl; [done|]. intros [Ho Hops].
  apply IH; [by apply exec_op_holds|done].
Qed.

(** ** Reads *)

(** The saturating arithmetic on bounds is exact below the last index of a [u64]. *)
Lemma in_range_exact lo hi i : (i < u64_max)%N -> in_range lo hi i = bound_range lo hi i.
Proof.
  intros Hi. unfold in_range, bound_range, start_of, end_of, sat_add.
  f_equal; [destruct lo|destruct hi]; try done; apply Bool.eq_iff_eq_true;
    rewrite ?N.leb_le, ?N.ltb_lt, ?N.leb_le; lia.
Qed.

Lemma read_entries_rows es : read_entries (entry_row <$> es) = Ok es.
Proof. induction es as [|e es IH]; [done|]. csimpl. by rewrite from_to_text, IH. Qed.

Lemma filter_rows (p q : N -> bool) es :
  (forall e, e ∈ es -> p (log_index e) = q (log_index e)) ->
  List.filter (fun kv : N * text => p kv.1) (entry_row <$> es)
  = entry_row <$> List.filter (fun e => q (log_index e)) es.
Proof.
  induction es as [|e es IH]; intros H; [done|]. csimpl. rewrite (H e) by left.
  rewrite IH by (intros; apply H; by right). by destruct (q (log_index e)).
Qed.


End Refine.

(** ** A concrete run *)

Inductive log_doc :=
  | LEntry (e : Entry)
  | LMeta (m : LogMeta)
  | LVote (v : Vote).

#[local] Instance log_doc_entry : Serde log_doc Entry := {
  to_text := LEntry;
  from_text d := match d with LEntry e => Ok e | _ => Err "not an entry" end;
  from_to_text := fun e => eq_refl;
}.

#[local] Instance log_doc_meta : Serde log_doc LogMeta := {
  to_text := LMeta;
  from_text d := match d with LMeta m => Ok m | _ => Err "not log metadata" end;
  from_to_text := fun m => eq_refl;
}.

#[local] Instance log_doc_vote : Serde log_doc Vote := {
  to_text := LVote;
  from_text d := match d with LVote v => Ok v | _ => Err "not a vote" end;
  from_to_text := fun v => eq_refl;
}.

#[local] Instance log_doc_codec : LogCodec log_doc := {}.

Definition blank_at (i : N) : Entry :=
  {| e_log_id := {| lid_term := 1; lid_node := 1; lid_index := i |}; e_payload := Blank |}.

Definition demo_ops : list LogOp :=
  [OVote {| vote_term := 1; vote_node := 1; vote_committed := true |};
   OAppend [blank_at 0; blank_at 1; blank_at 2; blank_at 3];
   OPurge (e_log_id (blank_at 1)); OTruncate (e_log_id (blank_at 3)); OAppend [blank_at 3; blank_at 4]].

