(* ===== verification/Snapshot.v ===== *)
(** * Snapshots: building, installing and keeping them ([raft/store.rs])

    A snapshot is the whole replicated state as one payload, written to a file
    beside the database and named by a row of the [raft_snapshot] table. The file
    system is a directory with what a crash keeps ([durable]) apart from what the
    process sees ([view]); an operation is the script of its durable steps, so that
    a crash or an I/O error between any two of them is a prefix of the script.
    serde_json, zstd and the printing of openraft's leader ids are the parameters
    [RawJson] and [SnapshotIo]. The format check on opening a state directory is
    here too. *)

From S2P Require Import Prelude Upstream FlowConfig Control Recorded StateMachine Demo ApplyFacts Replica.

(** ** The payload *)

Definition STATE_FORMAT : N := 1.

Definition ZSTD_MAGIC : bytes := byte_of <$> [40; 181; 47; 253]%N.

Definition RECEIVING_PREFIX : string := "receiving-".
Definition TMP_PREFIX : string := "tmp-".

Record SnapshotPayload (text : Type) := {
  sp_format : N;
  sp_configs : list (N * text);
  sp_routes : list (string * text);
  sp_routes_revision : option N;
  sp_session_key : option text;
  sp_fleet_name : option string;
  sp_proxy_recorded : list (N * string * text);
  sp_dedup : list (string * text);
  sp_last_applied_log : option LogId;
  sp_last_membership : StoredMembership;
  sp_logical_clock_secs : N;
}.
Arguments sp_format {text} _.
Arguments sp_configs {text} _.
Arguments sp_routes {text} _.
Arguments sp_routes_revision {text} _.
Arguments sp_session_key {text} _.
Arguments sp_fleet_name {text} _.
Arguments sp_proxy_recorded {text} _.
Arguments sp_dedup {text} _.
Arguments sp_last_applied_log {text} _.
Arguments sp_last_membership {text} _.
Arguments sp_logical_clock_secs {text} _.
Arguments Build_SnapshotPayload {text} _ _ _ _ _ _ _ _ _ _ _.

(** openraft's [SnapshotMeta]. *)
Record SnapshotMeta := {
  sn_last_log_id : option LogId;
  sn_last_membership : StoredMembership;
  snapshot_id : string;
}.

Record StoredSnapshot := { ss_meta : SnapshotMeta; ss_file : string }.

(** serde_json's [RawValue] over the texts of the tables: [raw_of] is
    [RawValue::from_string], [quote] the JSON string [to_raw_value] makes of a text,
    [starts_quote] whether a text starts with a quotation mark, [unquote]
    [from_str::<String>]. *)
Class RawJson (text : Type) := {
  raw_of : text -> result string text;
  quote : text -> text;
  starts_quote : text -> bool;
  unquote : text -> result string text;
  starts_quote_quote : forall t, starts_quote (quote t) = true;
  unquote_quote : forall t, unquote (quote t) = Ok t;
}.

(** A type serde writes as a JSON object: the text is JSON without surrounding
    space and starts with a brace. *)
Class JsonObject (text A : Type) {RJ : RawJson text} {S : Serde text A} : Prop := {
  object_raw : forall x : A, raw_of (to_text x) = Ok (to_text x);
  object_unquoted : forall x : A, starts_quote (to_text x) = false;
}.

(** The characters openraft prints a leader id with. *)
Definition leader_char (c : ascii) : bool :=
  is_ascii_digit c || Ascii.eqb c "T" || Ascii.eqb c "N" || Ascii.eqb c "-".

(** What a file holds, and the payload's encoding: serde_json's writer and reader,
    zstd's, the first bytes a reader buffers, and the printed leader id. *)
Class SnapshotIo (text blob : Type) := {
  codec_snapshot_row :: Serde text StoredSnapshot;
  empty_blob : blob;
  fill_buf : blob -> bytes;
  to_writer : SnapshotPayload text -> blob;
  from_reader : blob -> result string (SnapshotPayload text);
  zstd_encode : blob -> blob;
  zstd_decode : blob -> result string blob;
  show_leader_id : N -> N -> string;
  from_reader_to_writer : forall p, from_reader (to_writer p) = Ok p;
  to_writer_brace : forall p, head (fill_buf (to_writer p)) = Some "{"%char;
  zstd_decode_encode : forall b, zstd_decode (zstd_encode b) = Ok b;
  zstd_encode_magic : forall b, take 4 (fill_buf (zstd_encode b)) = ZSTD_MAGIC;
  show_leader_id_chars : forall t n, string_forallb leader_char (show_leader_id t n) = true;
}.

(** ** The directory *)

Record File (blob : Type) := { f_bytes : blob; f_synced : bool }.
Arguments f_bytes {blob} _.
Arguments f_synced {blob} _.
Arguments Build_File {blob} _ _.

Record Dir (blob : Type) := { view : gmap string (File blob); durable : gmap string (File blob) }.
Arguments view {blob} _.
Arguments durable {blob} _.
Arguments Build_Dir {blob} _ _.

Record Node (text blob : Type) := {
  nd_sm : Sm text;
  nd_snapshot : option text;
  nd_dir : Dir blob;
  snapshot_idx : N;
}.
Arguments nd_sm {text blob} _.
Arguments nd_snapshot {text blob} _.
Arguments nd_dir {text blob} _.
Arguments snapshot_idx {text blob} _.
Arguments Build_Node {text blob} _ _ _ _.

(** The durable steps operations are made of. [DInstall] is the one transaction that
    replaces the tables with the row; [DGc] spares what its oracle says is recent or
    could not be removed. *)
Inductive DiskStep (text blob : Type) :=
  | DCreate (name : string) (empty : blob)
  | DWrite (name : string) (content : blob)
  | DSync (name : string)
  | DRename (from to : string)
  | DSyncDir
  | DCommitRow (row : text)
  | DInstall (row : text) (s : Sm text)
  | DGc (keep : string) (spared : string -> bool).
Arguments DCreate {text blob} _ _.
Arguments DWrite {text blob} _ _.
Arguments DSync {text blob} _.
Arguments DRename {text blob} _ _.
Arguments DSyncDir {text blob}.
Arguments DCommitRow {text blob} _.
Arguments DInstall {text blob} _ _.
Arguments DGc {text blob} _ _.

Definition on_view {blob} (f : gmap string (File blob) -> gmap string (File blob)) (d : Dir blob) : Dir blob :=
  {| view := f (view d); durable := durable d |}.

Definition set_dir {text blob} (n : Node text blob) (d : Dir blob) : Node text blob :=
  Build_Node (nd_sm n) (nd_snapshot n) d (snapshot_idx n).

Definition exec_step {text blob} (n : Node text blob) (s : DiskStep text blob) : Node text blob :=
  match s with
  | DCreate name empty => set_dir n (on_view <[name := {| f_bytes := empty; f_synced := false |}]> (nd_dir n))
  | DWrite name content =>
      set_dir n (on_view <[name := {| f_bytes := content; f_synced := false |}]> (nd_dir n))
  | DSync name =>
      set_dir n (on_view (alter (fun f => {| f_bytes := f_bytes f; f_synced := true |}) name) (nd_dir n))
  | DRename from to =>
      match view (nd_dir n) !! from with
      | Some f => set_dir n (on_view (fun v => <[to := f]> (delete from v)) (nd_dir n))
      | None => n
      end
  | DSyncDir => set_dir n {| view := view (nd_dir n); durable := view (nd_dir n) |}
  | DCommitRow row => Build_Node (nd_sm n) (Some row) (nd_dir n) (snapshot_idx n)
  | DInstall row s => Build_Node s (Some row) (nd_dir n) (snapshot_idx n)
  | DGc keep spared =>
      set_dir n (on_view (filter (fun kv : string * File blob => kv.1 = keep \/ spared kv.1 = true)) (nd_dir n))
  end.

Definition exec_steps {text blob} (n : Node text blob) (script : list (DiskStep text blob)) : Node text blob :=
  foldl exec_step n script.

(** What a crash leaves of a directory: per name the entry the process saw or the
    last durable one, with its bytes if they were synced and any bytes otherwise. *)
Definition survives {blob} (e e' : option (File blob)) : Prop :=
  match e with
  | None => e' = None
  | Some f =>
      match e' with
      | None => False
      | Some f' => f_synced f' = true /\ (f_synced f = true -> f_bytes f' = f_bytes f)
      end
  end.

Definition crashed {blob} (d d' : Dir blob) : Prop :=
  durable d' = view d' /\
  forall name, survives (view d !! name) (view d' !! name) \/ survives (durable d !! name) (view d' !! name).

(** ** Names *)

Definition id_char (c : ascii) : bool :=
  is_ascii_alphanumeric c || Ascii.eqb c "-" || Ascii.eqb c "_".

Definition snapshot_id_is_safe (id : string) : bool :=
  negb (String.eqb id EmptyString) && string_forallb id_char id.

Definition tmp_name (id : string) : string := TMP_PREFIX +:+ id.

(** Not the name of a working file; the fetch route serves no other. *)
Definition payload_name (id : string) : bool :=
  negb (starts_with TMP_PREFIX id) && negb (starts_with RECEIVING_PREFIX id).

(** ** Operations *)

(** ** The format of a state directory *)

(** The tables whose content makes a directory an old one rather than a new one. *)
Record StateDir (text : Type) := {
  sd_format : option N;
  sd_log : gmap N text;
  sd_vote : option text;
  sd_applied : option text;
  sd_snapshot : option text;
  sd_configs : gmap N text;
}.
Arguments sd_format {text} _.
Arguments sd_log {text} _.
Arguments sd_vote {text} _.
Arguments sd_applied {text} _.
Arguments sd_snapshot {text} _.
Arguments sd_configs {text} _.
Arguments Build_StateDir {text} _ _ _ _ _ _.

Definition table_is_empty {text} (m : gmap N text) : bool := bool_decide (m = ∅).

Definition row_is_empty {text} (r : option text) : bool := match r with None => true | Some _ => false end.

Definition holds_state {text} (d : StateDir text) : bool :=
  negb (table_is_empty (sd_log d)) || negb (row_is_empty (sd_vote d)) || negb (row_is_empty (sd_applied d))
  || negb (row_is_empty (sd_snapshot d)) || negb (table_is_empty (sd_configs d)).

Definition stamp {text} (d : StateDir text) : StateDir text :=
  Build_StateDir (Some STATE_FORMAT) (sd_log d) (sd_vote d) (sd_applied d) (sd_snapshot d) (sd_configs d).

Definition format_refusal (found : N) : string :=
  "cluster state directory format " +:+ pretty found +:+ ", but this binary needs format "
  +:+ pretty STATE_FORMAT +:+ ": a release that changes the format is a whole-fleet upgrade — start every node from a fresh "
  +:+ "--cluster-state-dir and load the imposters back from an export taken with the previous release, "
  +:+ "which is the one that can read this directory (D-73, D-100)".

Definition check_state_format {text} (d : StateDir text) : result string (StateDir text) :=
  match sd_format d with
  | None => if holds_state d then Err (format_refusal 0) else Ok (stamp d)
  | Some found => if (found =? STATE_FORMAT)%N then Ok d else Err (format_refusal found)
  end.

Section Ops.
  Context {text : Type} {CD : Codec text} {ER : EngineRules} {RJ : RawJson text} {blob : Type} {IO : SnapshotIo text blob}.

Definition nested_row (row : text) : text :=
  match raw_of row with Ok nested => nested | Err _ => quote row end.

Definition stored_row (nested : text) : result string text :=
  if starts_quote nested then unquote nested else Ok nested.

(** The marker table's key order. *)
Definition marker_le (a b : N * string * text) : Prop :=
  (a.1.1 < b.1.1)%N \/ (a.1.1 = b.1.1 /\ String.leb a.1.2 b.1.2 = true).

#[export] Instance marker_le_dec a b : Decision (marker_le a b).
Proof. unfold marker_le. apply _. Defined.

Definition marker_rows (m : gmap (N * string) text) : list (N * string * text) :=
  merge_sort marker_le (map_to_list m).

Definition nest {K} (kv : K * text) : K * text := (kv.1, nested_row kv.2).

Definition snapshot_payload (s : Sm text) : SnapshotPayload text :=
  {| sp_format := STATE_FORMAT;
     sp_configs := nest <$> port_rows (configs (tables s));
     sp_routes := nest <$> str_rows (routes (tables s));
     sp_routes_revision := routes_revision (tables s);
     sp_session_key := session_key (tables s);
     sp_fleet_name := fleet_name (tables s);
     sp_proxy_recorded := nest <$> marker_rows (proxy_recorded (tables s));
     sp_dedup := nest <$> str_rows (dedup_rows s);
     sp_last_applied_log := last_applied_log (applied s);
     sp_last_membership := last_membership (applied s);
     sp_logical_clock_secs := logical_clock_secs (applied s) |}.

Definition build_id (last : option LogId) (idx : N) : string :=
  match last with
  | Some l => show_leader_id (lid_term l) (lid_node l) +:+ "-" +:+ pretty (lid_index l) +:+ "-" +:+ pretty idx
  | None => "--" +:+ pretty idx
  end.

Definition write_snapshot_file (id : string) (content : blob) : list (DiskStep text blob) :=
  [DCreate (tmp_name id) empty_blob; DWrite (tmp_name id) content; DSync (tmp_name id);
   DRename (tmp_name id) id; DSyncDir].

Definition snapshot_row (meta : SnapshotMeta) : text :=
  to_text {| ss_meta := meta; ss_file := snapshot_id meta |}.

Definition commit_snapshot_row (meta : SnapshotMeta) (spared : string -> bool) : list (DiskStep text blob) :=
  [DCommitRow (snapshot_row meta); DGc (snapshot_id meta) spared].

(** The snapshot a build produces, before anything is written. *)
Definition build_meta (n : Node text blob) : SnapshotMeta :=
  {| sn_last_log_id := last_applied_log (applied (nd_sm n));
     sn_last_membership := last_membership (applied (nd_sm n));
     snapshot_id := build_id (last_applied_log (applied (nd_sm n))) (snapshot_idx n + 1) |}.

Definition build_content (n : Node text blob) : blob := zstd_encode (to_writer (snapshot_payload (nd_sm n))).

Definition build_script (n : Node text blob) (spared : string -> bool) : list (DiskStep text blob) :=
  write_snapshot_file (snapshot_id (build_meta n)) (build_content n) ++ commit_snapshot_row (build_meta n) spared.

Definition bump_idx (n : Node text blob) : Node text blob :=
  Build_Node (nd_sm n) (nd_snapshot n) (nd_dir n) (snapshot_idx n + 1).

Definition open_snapshot_file (n : Node text blob) (id : string) : result string blob :=
  match view (nd_dir n) !! id with Some f => Ok (f_bytes f) | None => Err "No such file or directory" end.

Definition build_snapshot (n : Node text blob) (spared : string -> bool)
    : Node text blob * result string (SnapshotMeta * blob) :=
  let meta := build_meta n in
  let n' := exec_steps (bump_idx n) (build_script n spared) in
  (n', b ← open_snapshot_file n' (snapshot_id meta); Ok (meta, b)).

Definition parse_snapshot (content : blob) : result string (SnapshotPayload text) :=
  let parsed := if decide (take 4 (fill_buf content) = ZSTD_MAGIC)
                then plain ← zstd_decode content; from_reader plain
                else from_reader content in
  match parsed with
  | Err e => Err e
  | Ok payload =>
      if (sp_format payload =? STATE_FORMAT)%N then Ok payload
      else Err ("snapshot format " +:+ pretty (sp_format payload)
                +:+ " cannot be installed by a binary that needs format " +:+ pretty STATE_FORMAT
                +:+ ": every member of a fleet runs the same build (D-73, D-100)")
  end.

(** The rows of one table, restored in order. *)
Fixpoint restore_rows {K} `{Countable K} (rows : list (K * text)) (m : gmap K text)
    : result string (gmap K text) :=
  match rows with
  | [] => Ok m
  | (k, value) :: rest =>
      match stored_row value with
      | Err e => Err e
      | Ok row => restore_rows rest (<[k := row]> m)
      end
  end.

(** The state the install transaction writes. *)
Definition restored (payload : SnapshotPayload text) : result string (Sm text) :=
  configs ← restore_rows (sp_configs payload) ∅;
  routes ← restore_rows (sp_routes payload) ∅;
  markers ← restore_rows (sp_proxy_recorded payload) ∅;
  dedup ← restore_rows (sp_dedup payload) ∅;
  Ok (Build_Sm
        (Build_Tables configs routes (sp_routes_revision payload) (sp_session_key payload)
                      (sp_fleet_name payload) markers)
        dedup
        {| last_applied_log := sp_last_applied_log payload;
           last_membership := sp_last_membership payload;
           logical_clock_secs := sp_logical_clock_secs payload |}).

Definition unattributed (a : EngineAction) : AttributedAction := {| aa_principal := None; aa_action := a |}.

(** A row that does not restore drops the transaction after the file is in place. *)
Definition install_script (meta : SnapshotMeta) (payload : SnapshotPayload text) (received : blob)
    (spared : string -> bool) : list (DiskStep text blob) :=
  write_snapshot_file (snapshot_id meta) received ++
  match restored payload with
  | Ok s => [DInstall (snapshot_row meta) s; DGc (snapshot_id meta) spared]
  | Err _ => []
  end.

Definition install_snapshot_blocking (L : Local) (n : Node text blob) (meta : SnapshotMeta)
    (payload : SnapshotPayload text) (received : blob) (spared : string -> bool)
    : Node text blob * result string (list AttributedAction) :=
  (exec_steps n (install_script meta payload received spared),
   s ← restored payload;
   Ok [unattributed (sync_action L (configs (tables s)));
       unattributed (sync_routes_action (routes (tables s)))]).

Definition install_snapshot (L : Local) (n : Node text blob) (meta : SnapshotMeta) (received : blob)
    (spared : string -> bool) : Node text blob * result string (list AttributedAction) :=
  if negb (snapshot_id_is_safe (snapshot_id meta))
  then (n, Err ("peer sent an unusable snapshot id " +:+ debug_str (snapshot_id meta)))
  else match parse_snapshot received with
       | Err e => (n, Err e)
       | Ok payload => install_snapshot_blocking L n meta payload received spared
       end.

Definition begin_receiving_snapshot (n : Node text blob) : Node text blob :=
  exec_step (bump_idx n) (DCreate (RECEIVING_PREFIX +:+ pretty (snapshot_idx n)) empty_blob).

Definition get_current_snapshot (n : Node text blob) : result string (option (SnapshotMeta * blob)) :=
  match nd_snapshot n with
  | None => Ok None
  | Some row =>
      match from_text row with
      | Err e => Err e
      | Ok stored =>
          match view (nd_dir n) !! ss_file stored with
          | Some f => Ok (Some (ss_meta stored, f_bytes f))
          | None => Ok None
          end
      end
  end.

(** ** The life of a node's directory

    Builds and installs one after the other, each cut short anywhere by an error or a
    crash; receiving files; apply changing the tables in between. A leader offers what
    it built, so an installed id is a payload name. *)
Inductive node_step : Node text blob -> Node text blob -> Prop :=
  | step_apply n L es s rs acts :
      sm_apply L (nd_sm n) es = Ok (s, rs, acts) ->
      node_step n (Build_Node s (nd_snapshot n) (nd_dir n) (snapshot_idx n))
  | step_receive n : node_step n (begin_receiving_snapshot n)
  | step_build n spared k : node_step n (exec_steps (bump_idx n) (take k (build_script n spared)))
  | step_install n meta payload received spared k :
      snapshot_id_is_safe (snapshot_id meta) = true -> payload_name (snapshot_id meta) = true ->
      parse_snapshot received = Ok payload ->
      node_step n (exec_steps n (take k (install_script meta payload received spared)))
  | step_crash n d : crashed (nd_dir n) d -> node_step n (Build_Node (nd_sm n) (nd_snapshot n) d 0).

End Ops.

(** ** Rows travel unchanged *)

Section Facts.
  Context {text : Type} {CD : Codec text} {ER : EngineRules} {RJ : RawJson text} {blob : Type} {IO : SnapshotIo text blob}.
  Context {OS : JsonObject text (StoredImposter text)} {OR : JsonObject text Route}
          {OW : JsonObject text WireResponse} {OD : JsonObject text DedupEntry}.

(** A row as the crate writes it, or one that is not JSON at all. *)
Definition row_plain (row : text) : Prop :=
  raw_of row = Ok row /\ starts_quote row = false \/ exists e, raw_of row = Err e.

Definition table_plain {K} `{Countable K} (m : gmap K text) : Prop := map_Forall (fun _ => row_plain) m.

Definition rows_plain (s : Sm text) : Prop :=
  table_plain (configs (tables s)) /\ table_plain (routes (tables s))
  /\ table_plain (proxy_recorded (tables s)) /\ table_plain (dedup_rows s).

Lemma object_plain {A} {S : Serde text A} {O : JsonObject text A} (x : A) : row_plain (to_text x).
Proof. left. split; [apply object_raw|apply object_unquoted]. Qed.

Lemma stored_nested row : row_plain row -> stored_row (nested_row row) = Ok row.
Proof.
  unfold stored_row, nested_row. intros [[-> ->]|[e ->]]; [done|]. by rewrite starts_quote_quote, unquote_quote.
Qed.

Lemma restore_nested {K} `{Countable K} (rows : list (K * text)) m :
  Forall (fun kv => row_plain kv.2) rows ->
  restore_rows (nest <$> rows) m = Ok (foldl (fun m kv => <[kv.1 := kv.2]> m) m rows).
Proof.
  intros Hf. revert m. induction Hf as [|[k row] rows Hrow _ IH]; intros m; [done|]. csimpl.
  rewrite stored_nested by done. apply IH.
Qed.

Lemma foldl_insert_rows {K} `{Countable K} (rows : list (K * text)) (m : gmap K text) :
  NoDup rows.*1 -> (forall k, k ∈ rows.*1 -> m !! k = None) ->
  foldl (fun m kv => <[kv.1 := kv.2]> m) m rows = list_to_map rows ∪ m.
Proof.
  revert m. induction rows as [|[k row] rows IH]; intros m Hnd Hm; [simpl; by rewrite (left_id_L ∅ (∪))|].
  rewrite fmap_cons in Hnd. apply NoDup_cons in Hnd as [Hk Hnd]. cbn [foldl]. simpl.
  rewrite IH; [|done|].
  - rewrite <- insert_union_r by (by apply not_elem_of_list_to_map). by rewrite insert_union_l.
  - intros k' Hk'. rewrite lookup_insert_ne; [|by intros ->]. apply Hm. csimpl. by right.
Qed.

(** A table's rows, nested and restored in any order, are the table. *)
Lemma restore_table {K} `{Countable K} (m : gmap K text) rows :
  table_plain m -> rows ≡ₚ map_to_list m -> restore_rows (nest <$> rows) ∅ = Ok m.
Proof.
  intros Hp Hr. rewrite restore_nested.
  - f_equal. rewrite foldl_insert_rows, (right_id_L ∅ (∪)).
    + rewrite <- (list_to_map_to_list m). symmetry. apply list_to_map_proper; [|done].
      apply NoDup_fst_map_to_list.
    + rewrite Hr. apply NoDup_fst_map_to_list.
    + intros. apply lookup_empty.
  - rewrite Hr. apply Forall_forall. intros [k row] Hkv%elem_of_map_to_list. by eapply Hp.
Qed.

Lemma restored_payload s : rows_plain s -> restored (snapshot_payload s) = Ok s.
Proof.
  intros (Hc & Hr & Hm & Hd). unfold restored, snapshot_payload. cbn -[restore_rows].
  rewrite (restore_table _ (port_rows _) Hc) by apply merge_sort_Permutation. cbn -[restore_rows].
  rewrite (restore_table _ (str_rows (routes _)) Hr) by apply merge_sort_Permutation. cbn -[restore_rows].
  rewrite (restore_table _ (marker_rows _) Hm) by apply merge_sort_Permutation. cbn -[restore_rows].
  rewrite (restore_table _ (str_rows (dedup_rows _)) Hd) by apply merge_sort_Permutation.
  by destruct s as [[] ? []].
Qed.

(** ** Apply only writes such rows *)

Lemma table_plain_subset {K} `{Countable K} (m m' : gmap K text) : m' ⊆ m -> table_plain m -> table_plain m'.
Proof. intros Hs Hm k row Hk. eapply Hm, lookup_weaken; eauto. Qed.

Lemma table_plain_insert {K} `{Countable K} (m : gmap K text) k row :
  row_plain row -> table_plain m -> table_plain (<[k := row]> m).
Proof. intros. by apply map_Forall_insert_2. Qed.

Lemma mutate_routes L t o index t' out :
  mutate_tables L t o index = (t', out) -> table_plain (routes t) -> table_plain (routes t').
Proof.
  intros H Hr.
  assert (forall p c, routes (put_forget t p c) = routes t) as Hp.
  { intros p c. unfold put_forget. case_decide; [done|]. by repeat case_match. }
  destruct o; simpl in H; try (revert H; unfold put_imposter, patch_stubs, set_enabled, proxy_recorded_op,
    proxy_recorded_clear, delete_imposter; cbv zeta; repeat case_match; intros [= <- <-]; simpl; by rewrite ?Hp).
  - injection H as <- <-. simpl. intros id row [Hm|(r & _ & _ & ->)]%foldl_insert_lookup.
    + by rewrite lookup_empty in Hm.
    + apply object_plain.
  - injection H as <- <-. simpl. eapply table_plain_subset; [apply delete_subseteq|done].
Qed.

Definition tables_plain (t : Tables text) : Prop :=
  table_plain (configs t) /\ table_plain (routes t) /\ table_plain (proxy_recorded t).

Lemma mutate_tables_plain L t o index : tables_plain t -> tables_plain (mutate_tables L t o index).1.
Proof.
  intros (Hc & Hr & Hm). destruct (mutate_tables L t o index) as [t' out] eqn:E. simpl. split_and!.
  - intros p row Hp. destruct (mutate_configs _ _ _ _ _ _ p E) as [Hs|[Hs|(row' & Hs & record & -> & _)]].
    + rewrite Hs in Hp. by eapply Hc.
    + congruence.
    + rewrite Hs in Hp. injection Hp as <-. apply object_plain.
  - by eapply mutate_routes.
  - intros [p h] row Hp. destruct (mutate_markers _ _ _ _ _ _ _ _ _ E Hp) as [Hs|(_ & _ & resp & stub & _ & ->)].
    + by eapply Hm.
    + apply object_plain.
Qed.

Lemma decide_op_plain L t request index : tables_plain t -> tables_plain (decide_op L t request index).1.
Proof.
  intros H. unfold decide_op. destruct (validate (op request)); [|done].
  destruct (check_preconditions _ _); [|done]. by apply mutate_tables_plain.
Qed.

Lemma apply_entry_dedup L s e s' resp acts :
  apply_entry L s e = Ok (s', resp, acts) -> table_plain (dedup_rows s) -> table_plain (dedup_rows s').
Proof.
  unfold apply_entry, apply_normal. cbv zeta. intros H Hd. revert H. repeat case_match; intros [= <- <- <-]; try done.
  simpl. apply table_plain_insert; [apply object_plain|done].
Qed.

Lemma apply_entries_plain L es : forall s s' rs acts,
  apply_entries L s es = Ok (s', rs, acts) -> rows_plain s -> rows_plain s'.
Proof.
  intros s s' rs acts H (Hc & Hr & Hm & Hd).
  assert (tables_plain (tables s')) as (? & ? & ?).
  { eapply (apply_entries_tables tables_plain); [|exact H|done]. intros. by apply decide_op_plain. }
  split_and!; try done. clear Hc Hr Hm. revert s rs acts H Hd.
  induction es as [|e es IH]; intros s rs acts; simpl; [by intros [= <- <- <-]|].
  destruct (apply_entry L s e) as [[[s1 r] a]|] eqn:He; [|done].
  destruct (apply_entries L s1 es) as [[[s2 rs'] a']|] eqn:Hes; [|done]. intros [= <- <- <-] Hs.
  eapply IH; [done|]. by eapply apply_entry_dedup.
Qed.

Lemma run_plain batches : forall s s' rs, run s batches = Ok (s', rs) -> rows_plain s -> rows_plain s'.
Proof.
  induction batches as [|[L es] batches IH]; intros s s' rs; simpl; [by intros [= <- <-]|].
  destruct (sm_apply L s es) as [[[s1 r] a]|] eqn:He; [|done].
  destruct (run s1 batches) as [[s2 rs']|] eqn:Hr; [|done]. intros [= <- <-] (Hc & Hro & Hm & Hd).
  eapply IH; [done|]. eapply apply_entries_plain; [exact He|]. split_and!; [done..|]. simpl.
  eapply table_plain_subset; [apply map_filter_subseteq|done].
Qed.

(** ** Names *)

Lemma leader_char_id c : leader_char c = true -> id_char c = true.
Proof.
  unfold leader_char, id_char, is_ascii_alphanumeric. rewrite !orb_true_iff, !Ascii.eqb_eq.
  intros [[[->| ->]| ->]| ->]; auto.
Qed.

Lemma digits_id (x : N) : string_forallb id_char (pretty x) = true.
Proof.
  eapply string_forallb_impl; [|apply digits_pretty]. intros c Hc.
  unfold id_char, is_ascii_alphanumeric. by rewrite Hc.
Qed.

(** A build's id is a usable name, and never that of a working file. *)
Lemma build_id_chars last idx : string_forallb leader_char (build_id last idx) = true.
Proof.
  assert (forall x : N, string_forallb leader_char (pretty x) = true) as Hd.
  { intros x. eapply string_forallb_impl; [|apply digits_pretty]. intros c Hc. unfold leader_char. by rewrite Hc. }
  unfold build_id. destruct last as [l|]; rewrite !string_forallb_app, ?show_leader_id_chars, !Hd; done.
Qed.

Lemma build_id_safe last idx : snapshot_id_is_safe (build_id last idx) = true.
Proof.
  unfold snapshot_id_is_safe. apply andb_true_iff. split.
  - unfold build_id. destruct last as [l|]; [|done]. by destruct (show_leader_id _ _).
  - eapply string_forallb_impl; [apply leader_char_id|apply build_id_chars].
Qed.

Lemma tmp_name_ne id : tmp_name id <> id.
Proof.
  intros H. assert (String.length (tmp_name id) = 4 + String.length id) as Hl by done. rewrite H in Hl. lia.
Qed.

(** ** The view after a write *)

Lemma exec_steps_app (n : Node text blob) s1 s2 : exec_steps n (s1 ++ s2) = exec_steps (exec_steps n s1) s2.
Proof. apply foldl_app. Qed.

Lemma exec_step_idx (n : Node text blob) s : snapshot_idx (exec_step n s) = snapshot_idx n.
Proof. destruct s; simpl; try done. by case_match. Qed.

Definition payload_file (content : blob) : File blob := {| f_bytes := content; f_synced := true |}.

(** The write leaves the payload complete, synced and durable under its id, and
    touches no other name but its temporary one. *)
Lemma write_snapshot_file_spec (n : Node text blob) id content :
  let n' := exec_steps n (write_snapshot_file id content) in
  nd_sm n' = nd_sm n /\ nd_snapshot n' = nd_snapshot n /\
  durable (nd_dir n') = view (nd_dir n') /\
  view (nd_dir n') = <[id := payload_file content]> (delete (tmp_name id) (view (nd_dir n))).
Proof.
  unfold exec_steps, write_snapshot_file. simpl. rewrite insert_insert_eq, alter_insert_eq, lookup_insert_eq. simpl.
  split_and!; try done. by rewrite insert_insert_eq, alter_insert_eq, delete_insert_eq.
Qed.

Lemma parse_zstd p : sp_format p = STATE_FORMAT -> parse_snapshot (zstd_encode (to_writer p)) = Ok p.
Proof.
  intros Hf. unfold parse_snapshot. rewrite decide_True by apply zstd_encode_magic.
  rewrite zstd_decode_encode. simpl. by rewrite from_reader_to_writer, Hf.
Qed.

Lemma to_writer_not_magic p : take 4 (fill_buf (to_writer (text := text) (blob := blob) p)) <> ZSTD_MAGIC.
Proof.
  intros H. pose proof (to_writer_brace (text := text) (blob := blob) p) as Hb. destruct (fill_buf _) as [|c b]; [done|].
  simpl in *. injection Hb as ->. by injection H.
Qed.

Lemma parse_plain p : sp_format p = STATE_FORMAT -> parse_snapshot (to_writer p) = Ok p.
Proof.
  intros Hf. unfold parse_snapshot. rewrite decide_False by apply to_writer_not_magic.
  by rewrite from_reader_to_writer, Hf.
Qed.

Lemma build_snapshot_spec (n : Node text blob) spared :
  exists n', build_snapshot n spared = (n', Ok (build_meta n, build_content n))
    /\ nd_sm n' = nd_sm n /\ get_current_snapshot n' = Ok (Some (build_meta n, build_content n)).
Proof.
  unfold build_snapshot, build_script. cbv zeta. rewrite exec_steps_app.
  destruct (write_snapshot_file_spec (bump_idx n) (snapshot_id (build_meta n)) (build_content n))
    as (Hsm & _ & _ & Hv).
  set (n1 := exec_steps (bump_idx n) _) in *. clearbody n1. set (n2 := exec_steps n1 _).
  exists n2.
  assert (view (nd_dir n2) !! snapshot_id (build_meta n) = Some (payload_file (build_content n))) as Hview.
  { unfold n2, exec_steps. simpl. apply map_lookup_filter_Some. split; [|by left].
    rewrite Hv. apply lookup_insert_eq. }
  split_and!; [|exact Hsm|].
  - unfold open_snapshot_file. by rewrite Hview.
  - assert (nd_snapshot n2 = Some (snapshot_row (build_meta n))) as Hrow by done.
    unfold get_current_snapshot. rewrite Hrow. unfold snapshot_row. rewrite from_to_text. cbn [ss_file ss_meta].
    by rewrite Hview.
Qed.

Lemma install_spec L (n : Node text blob) meta s content spared :
  rows_plain s -> snapshot_id_is_safe (snapshot_id meta) = true ->
  parse_snapshot content = Ok (snapshot_payload s) ->
  exists n', install_snapshot L n meta content spared
             = (n', Ok [unattributed (sync_action L (configs (tables s)));
                        unattributed (sync_routes_action (routes (tables s)))])
    /\ nd_sm n' = s /\ get_current_snapshot n' = Ok (Some (meta, content)).
Proof.
  intros Hs Hid Hp. unfold install_snapshot. rewrite Hid, Hp. simpl negb. cbv iota.
  unfold install_snapshot_blocking, install_script.
  rewrite restored_payload, exec_steps_app by done.
  destruct (write_snapshot_file_spec n (snapshot_id meta) content) as (_ & _ & _ & Hv).
  set (n1 := exec_steps n (write_snapshot_file _ _)) in *. clearbody n1.
  eexists. split; [done|]. split; [done|]. unfold get_current_snapshot. simpl. unfold snapshot_row. rewrite from_to_text. simpl.
  rewrite map_lookup_filter, Hv, lookup_insert_eq. simpl. by rewrite option_guard_True by (by left).
Qed.


(** An install either happens or leaves the node's state alone. An id that could leave
    the directory is refused before anything is written, a payload of another format is
    refused before anything is written, compressed or not, and whatever the reason of a
    refusal the tables, the applied cursor and the snapshot row are what they were. *)
Theorem install_refusals L (n : Node text blob) meta received spared :
  (snapshot_id_is_safe (snapshot_id meta) = false ->
   exists e, install_snapshot L n meta received spared = (n, Err e)) /\
  (forall p, sp_format p <> STATE_FORMAT ->
   received = to_writer p \/ received = zstd_encode (to_writer p) ->
   exists e, install_snapshot L n meta received spared = (n, Err e)) /\
  (forall n' e, install_snapshot L n meta received spared = (n', Err e) ->
   nd_sm n' = nd_sm n /\ nd_snapshot n' = nd_snapshot n).
Proof.
  split_and!.
  - intros H. unfold install_snapshot. rewrite H. simpl. eauto.
  - intros p Hf Hr. unfold install_snapshot. destruct (snapshot_id_is_safe _); simpl; [|eauto].
    assert (exists e, parse_snapshot received = Err e) as [e ->]; [|eauto].
    apply N.eqb_neq in Hf. destruct Hr as [->| ->].
    + unfold parse_snapshot. rewrite decide_False by apply to_writer_not_magic.
      rewrite from_reader_to_writer, Hf. eauto.
    + unfold parse_snapshot. rewrite decide_True by apply zstd_encode_magic.
      rewrite zstd_decode_encode. simpl. rewrite from_reader_to_writer, Hf. eauto.
  - intros n' e. unfold install_snapshot. destruct (snapshot_id_is_safe _); simpl; [|by intros [= <- _]].
    destruct (parse_snapshot received) as [p|]; [|by intros [= <- _]].
    unfold install_snapshot_blocking, install_script. rewrite exec_steps_app.
    destruct (restored p); simpl; intros [= <- _].
    destruct (write_snapshot_file_spec n (snapshot_id meta) received) as (? & ? & _). done.
Qed.

(** ** Crash safety *)

(** Both what the process sees and what a crash keeps hold a complete payload. *)
Definition held (d : Dir blob) (file : string) : Prop :=
  exists b b' p p', view d !! file = Some (payload_file b) /\ durable d !! file = Some (payload_file b')
    /\ parse_snapshot (text := text) (blob := blob) b = Ok p /\ parse_snapshot (text := text) (blob := blob) b' = Ok p'.

Definition row_held (n : Node text blob) : Prop :=
  forall row, nd_snapshot n = Some row ->
    exists stored, from_text row = Ok stored /\ payload_name (ss_file stored) = true
      /\ held (nd_dir n) (ss_file stored).

Lemma payload_name_tmp f id : payload_name f = true -> f <> tmp_name id.
Proof.
  unfold payload_name. intros H ->. unfold tmp_name in H. by rewrite starts_with_app in H.
Qed.

Lemma payload_name_receiving f x : payload_name f = true -> f <> RECEIVING_PREFIX +:+ x.
Proof. unfold payload_name. intros H ->. by rewrite starts_with_app, andb_false_r in H. Qed.

Lemma held_insert d f name file :
  f <> name -> held d f -> held (on_view <[name := file]> d) f.
Proof.
  intros Hne (b & b' & p & p' & Hv & H). exists b, b', p, p'. simpl. by rewrite lookup_insert_ne.
Qed.

(** The write cut short after any of its steps keeps what is held. *)
Lemma write_prefix_held (n : Node text blob) id content p k f :
  held (nd_dir n) f -> f <> tmp_name id -> parse_snapshot content = Ok p ->
  let n' := exec_steps n (take k (write_snapshot_file id content)) in
  nd_snapshot n' = nd_snapshot n /\ held (nd_dir n') f.
Proof.
  intros Hf Hne Hp.
  assert (held (on_view <[tmp_name id := {| f_bytes := empty_blob; f_synced := false |}]> (nd_dir n)) f) as H1
    by by apply held_insert.
  pose proof (held_insert _ f (tmp_name id) {| f_bytes := content; f_synced := false |} Hne H1) as H2.
  set (d3 := on_view (alter (fun f => {| f_bytes := f_bytes f; f_synced := true |}) (tmp_name id))
                     (on_view <[tmp_name id := {| f_bytes := content; f_synced := false |}]>
                       (on_view <[tmp_name id := {| f_bytes := empty_blob; f_synced := false |}]> (nd_dir n)))).
  assert (held d3 f) as H3.
  { destruct H2 as (b & b' & q & q' & Hv & H). exists b, b', q, q'. simpl in *. by rewrite lookup_alter_ne. }
  destruct k as [|[|[|[|k]]]]; [done|done|done|done|].
  unfold exec_steps. simpl. rewrite alter_insert_eq, lookup_insert_eq.
  destruct H3 as (b & b' & q & q' & Hv & Hd & Hq & Hq').
  assert (exists c r, <[id := payload_file content]> (delete (tmp_name id) (view d3)) !! f = Some (payload_file c)
     /\ parse_snapshot (text := text) (blob := blob) c = Ok r) as (c & r & Hc & Hr).
  { destruct (decide (id = f)) as [->|Hid]; [exists content, p; by rewrite lookup_insert_eq|].
    exists b, q. by rewrite lookup_insert_ne, lookup_delete_ne by done. }
  destruct k as [|k]; simpl; rewrite ?take_nil; (split; [done|]).
  - exists c, b', r, q'. done.
  - exists c, c, r, r. done.
Qed.

Lemma prefix_row_held (n : Node text blob) id content p k :
  row_held n -> parse_snapshot content = Ok p ->
  row_held (exec_steps n (take k (write_snapshot_file id content))).
Proof.
  intros Hn Hp row Hrow.
  assert (nd_snapshot (exec_steps n (take k (write_snapshot_file id content))) = nd_snapshot n) as Hsame.
  { destruct k as [|[|[|[|[|k]]]]]; unfold exec_steps; simpl; try done; rewrite ?take_nil; simpl;
      rewrite alter_insert_eq, lookup_insert_eq; done. }
  rewrite Hsame in Hrow. destruct (Hn _ Hrow) as (stored & Hs & Hpn & Hh). exists stored. split_and!; try done.
  by eapply write_prefix_held; [|by apply payload_name_tmp|].
Qed.

(** A build or an install cut short after any of its steps. *)
Lemma script_row_held (n : Node text blob) meta content p c spared k :
  row_held n -> payload_name (snapshot_id meta) = true -> parse_snapshot content = Ok p ->
  (forall m, nd_dir (exec_step m c) = nd_dir m /\ nd_snapshot (exec_step m c) = Some (snapshot_row meta)) ->
  row_held (exec_steps n (take k (write_snapshot_file (snapshot_id meta) content
                                  ++ [c; DGc (snapshot_id meta) spared]))).
Proof.
  intros Hn Hid Hp Hc. rewrite take_app, exec_steps_app.
  destruct (decide (k <= 5)) as [Hk|Hk].
  { replace (k - length (write_snapshot_file (snapshot_id meta) content)) with 0 by (simpl; lia).
    by eapply prefix_row_held. }
  rewrite (take_ge (write_snapshot_file _ _)) by (simpl; lia).
  destruct (write_snapshot_file_spec n (snapshot_id meta) content) as (_ & _ & Hd & Hv).
  set (n1 := exec_steps n (write_snapshot_file _ _)) in *. clearbody n1.
  assert (held (nd_dir n1) (snapshot_id meta)) as Hh.
  { exists content, content, p, p. rewrite Hd, Hv, lookup_insert_eq. done. }
  assert (exists stored, from_text (snapshot_row meta) = Ok stored /\ payload_name (ss_file stored) = true
    /\ ss_file stored = snapshot_id meta) as (stored & Hs & Hpn & Hf).
  { eexists. unfold snapshot_row. rewrite from_to_text. done. }
  destruct (Hc n1) as [Hcd Hcr].
  destruct (k - _) as [|[|j]] eqn:Hj; [simpl in Hj; lia| |]; intros row Hrow; exists stored;
    unfold exec_steps in *; simpl in *; rewrite ?take_nil in *; simpl in *; rewrite Hcr in Hrow;
    injection Hrow as <-; (split_and!; [done..|]); rewrite Hf, Hcd; [done|].
  destruct Hh as (b & b' & q & q' & Hb & H). exists b, b', q, q'. split; [|done].
  simpl. apply map_lookup_filter_Some. split; [done|by left].
Qed.

Lemma build_id_payload_name last idx : payload_name (build_id last idx) = true.
Proof.
  pose proof (build_id_chars last idx) as H. unfold payload_name.
  assert (forall p c, leader_char c = false -> starts_with (String c p) (build_id last idx) = false) as Hs.
  { intros p c Hc. apply not_true_iff_false. unfold starts_with.
    destruct (strip_prefix (String c p) (build_id last idx)) eqn:E; [|done].
    apply strip_prefix_Some in E. rewrite E in H. simpl in H. by rewrite Hc in H. }
  unfold TMP_PREFIX, RECEIVING_PREFIX. by rewrite !Hs.
Qed.

Lemma survives_held (d d' : Dir blob) f : held d f -> crashed d d' -> held d' f.
Proof.
  intros (b & b' & p & p' & Hv & Hd & Hp & Hp') [Heq Hs]. specialize (Hs f). rewrite Hv, Hd in Hs. simpl in Hs.
  assert (exists c q, view d' !! f = Some (payload_file c) /\ parse_snapshot (text := text) (blob := blob) c = Ok q) as (c & q & Hc & Hq).
  { destruct (view d' !! f) as [[c y]|]; simpl in Hs; [|tauto].
    destruct Hs as [[-> Hc]|[-> Hc]]; rewrite Hc by done; eauto. }
  exists c, c, q, q. by rewrite Heq.
Qed.

Lemma node_step_held (n n' : Node text blob) : node_step n n' -> row_held n -> row_held n'.
Proof.
  intros Hstep Hn. destruct Hstep as [n L es s rs acts _|n|n spared k|n meta payload received spared k Hs Hid Hp|n d Hd].
  - exact Hn.
  - intros row Hrow. destruct (Hn row Hrow) as (stored & Ht & Hpn & Hh). exists stored. split_and!; try done.
    apply held_insert; [by apply payload_name_receiving|done].
  - apply (script_row_held (bump_idx n) (build_meta n) (build_content n) (snapshot_payload (nd_sm n))).
    + exact Hn.
    + apply build_id_payload_name.
    + by apply parse_zstd.
    + done.
  - unfold install_script. destruct (restored payload) as [s|e].
    + by eapply (script_row_held n meta received payload).
    + rewrite app_nil_r. by eapply prefix_row_held.
  - intros row Hrow. destruct (Hn row Hrow) as (stored & Ht & Hpn & Hh). exists stored. split_and!; try done.
    by eapply survives_held.
Qed.

(** The snapshot row never names a payload that is not there. Through any sequence of
    applies, receives, builds and installs, each of the last two cut short after any of its
    steps by an error or a crash that loses what was not synced, a node that has a snapshot
    row always has the file it names, and that file is a complete payload of the current
    format; so the snapshot it serves parses, and the branch for a lost file is not taken. *)
Theorem snapshot_row_durable (n0 n : Node text blob) :
  nd_snapshot n0 = None -> rtc node_step n0 n ->
  match nd_snapshot n with
  | None => get_current_snapshot n = Ok None
  | Some _ => exists meta content payload,
      get_current_snapshot n = Ok (Some (meta, content)) /\ parse_snapshot content = Ok payload
  end.
Proof.
  intros Hnone Hsteps.
  assert (row_held n) as Hn.
  { assert (row_held n0) as H0 by (intros row Hrow; congruence).
    clear Hnone. induction Hsteps; [done|]. eauto using node_step_held. }
  unfold get_current_snapshot. destruct (nd_snapshot n) as [row|] eqn:Hrow; [|done].
  destruct (Hn row Hrow) as (stored & -> & _ & b & b' & p & p' & -> & _ & Hp & _). eauto.
Qed.

End Facts.

(** ** Opening a directory *)

(** A directory with nothing in it. *)
Definition fresh_dir {text} (d : StateDir text) : Prop :=
  sd_format d = None /\ sd_log d = ∅ /\ sd_vote d = None /\ sd_applied d = None /\ sd_snapshot d = None
  /\ sd_configs d = ∅.

(** A state directory is opened only in the format this binary reads. Opening succeeds
    exactly on a directory stamped with the current format, which it leaves alone, and on
    one that holds nothing, which it stamps; a directory with state and no stamp (format 0)
    or another stamp is refused; and one that opened keeps opening whatever is written to
    it since. *)
Theorem state_format_gate {text} (d : StateDir text) :
  (is_ok (check_state_format d) = true <-> sd_format d = Some STATE_FORMAT \/ fresh_dir d)
  /\ forall d', check_state_format d = Ok d' ->
     sd_configs d' = sd_configs d /\ sd_log d' = sd_log d
     /\ forall d2 : StateDir text, sd_format d2 = sd_format d' -> check_state_format d2 = Ok d2.
Proof.
  assert (holds_state d = false <-> sd_log d = ∅ /\ sd_vote d = None /\ sd_applied d = None
          /\ sd_snapshot d = None /\ sd_configs d = ∅) as Hh.
  { unfold holds_state, table_is_empty. rewrite !orb_false_iff, !negb_false_iff, !bool_decide_eq_true.
    destruct (sd_vote d), (sd_applied d), (sd_snapshot d); simpl; intuition discriminate. }
  unfold check_state_format, fresh_dir. split.
  - destruct (sd_format d) as [f|] eqn:Ef.
    + destruct (N.eqb_spec f STATE_FORMAT) as [->|Hne]; simpl; [tauto|]. split; [done|].
      intros [[= ->]|[? _]]; done.
    + destruct (holds_state d); simpl; [|intuition]. split; [done|]. intros [?|(_ & ?)]; [done|]. intuition.
  - intros d'. destruct (sd_format d) as [f|] eqn:Ef.
    + destruct (N.eqb_spec f STATE_FORMAT) as [->|Hne]; [|done]. intros [= <-]. split_and!; try done.
      intros d2 ->. by rewrite Ef.
    + destruct (holds_state d); [done|]. intros [= <-]. split_and!; try done. intros d2 ->. done.
Qed.

(** ** A concrete node *)

Inductive demo_blob :=
  | BEmpty
  | BPlain (payload : SnapshotPayload doc)
  | BZstd (b : demo_blob).

#[local] Existing Instances demo_codec demo_rules.

#[local] Instance demo_raw : RawJson doc := {
  raw_of d := match d with DJunk _ => Err "expected value at line 1 column 1" | _ => Ok d end;
  quote := DQuoted;
  starts_quote d := match d with DQuoted _ => true | _ => false end;
  unquote d := match d with DQuoted t => Ok t | _ => Err "not a string" end;
  starts_quote_quote t := eq_refl;
  unquote_quote t := eq_refl;
}.

#[local] Instance demo_stored_object : JsonObject doc (StoredImposter doc) := ltac:(by split; intros []).
#[local] Instance demo_route_object : JsonObject doc Route := ltac:(by split; intros []).
#[local] Instance demo_wire_object : JsonObject doc WireResponse := ltac:(by split; intros []).
#[local] Instance demo_dedup_object : JsonObject doc DedupEntry := ltac:(by split; intros []).

#[local] Instance demo_snapshot_row : Serde doc StoredSnapshot := {
  to_text r := DSnapshot (sn_last_log_id (ss_meta r)) (sn_last_membership (ss_meta r))
                         (snapshot_id (ss_meta r)) (ss_file r);
  from_text d := match d with
                 | DSnapshot l m id file =>
                     Ok {| ss_meta := {| sn_last_log_id := l; sn_last_membership := m; snapshot_id := id |};
                           ss_file := file |}
                 | _ => Err "not a snapshot row"
                 end;
  from_to_text r := match r with {| ss_meta := {| sn_last_log_id := _ |} |} => eq_refl end;
}.

#[local] Instance demo_io : SnapshotIo doc demo_blob := {
  empty_blob := BEmpty;
  fill_buf b := match b with BEmpty => [] | BPlain _ => as_bytes "{" | BZstd _ => ZSTD_MAGIC end;
  to_writer := BPlain;
  from_reader b := match b with BPlain p => Ok p | _ => Err "EOF while parsing" end;
  zstd_encode := BZstd;
  zstd_decode b := match b with BZstd b => Ok b | _ => Err "unknown frame descriptor" end;
  show_leader_id _ _ := "T1-N1";
  from_reader_to_writer p := eq_refl;
  to_writer_brace p := eq_refl;
  zstd_decode_encode b := eq_refl;
  zstd_encode_magic b := eq_refl;
  show_leader_id_chars _ _ := eq_refl;
}.

Definition spare_all (name : string) : bool := true.

Definition demo_node (s : Sm doc) : Node doc demo_blob := Build_Node s None {| view := ∅; durable := ∅ |} 0.


Lemma snapshot_row_durable_witness :
  exists meta content payload,
    get_current_snapshot (exec_steps (bump_idx (demo_node initial)) (take 6 (build_script (demo_node initial) spare_all)))
    = Ok (Some (meta, content)) /\ parse_snapshot content = Ok payload.
Proof.
  exact (snapshot_row_durable (demo_node initial) _ eq_refl
           (rtc_once _ _ (step_build (demo_node initial) spare_all 6))).
Defined.
