(* ===== verification/Transfer.v ===== *)
(** * The snapshot transfer: [raft/network.rs]

    The leader serves a payload file from an offset; the follower brings its
    [receiving-] file to the offered snapshot over as many attempts as it takes,
    resuming where the last one stopped. The directory is a map from names to bytes,
    sha256 a parameter, and a fetch the chunks that arrive with how the stream ends. *)

From S2P Require Import Prelude Upstream FlowConfig Control Recorded StateMachine Auth Rpc ApplyFacts Replica Snapshot.

(** ** The leader's half *)

Abbreviation files := (gmap string bytes).

Definition serve_snapshot (dir : files) (suffix : string) : result RpcError bytes :=
  let target := match split_once "?" suffix with Some (before, _) => before | None => suffix end in
  match split_once "/" target with
  | None => Err (BadRequest ("snapshot fetch " +:+ debug_str target +:+ " names no offset"))
  | Some (id, offset) =>
      if negb (snapshot_id_is_safe id) || starts_with RECEIVING_PREFIX id || starts_with TMP_PREFIX id
      then Err (BadRequest ("unusable snapshot id " +:+ debug_str id))
      else match parse_u64 offset with
      | None => Err (BadRequest ("snapshot offset " +:+ debug_str offset +:+ " is not a number"))
      | Some at_ =>
          match dir !! id with
          | None => Err (NotFound ("snapshot " +:+ id))
          | Some file =>
              let len := N.of_nat (length file) in
              if (len <? at_)%N
              then Err (BadRequest ("offset " +:+ pretty at_ +:+ " is past the end of snapshot " +:+ id
                                    +:+ " (" +:+ pretty len +:+ " bytes)"))
              else Ok (drop (N.to_nat at_) file)
          end
      end
  end.

(** ** The follower's half *)

(** A fetch that opened: what arrived, and the error it broke off with, if any. *)
Record Fetched := { fetched_chunks : list bytes; fetched_end : option RpcError }.

Definition receiving_name (id : string) : string := RECEIVING_PREFIX +:+ id.

Section Receive.
  Variable sha256 : bytes -> string.

(** What the fetch leaves of the file and whether it failed. *)
Definition fetch_remainder (size : N) (fetch : N -> result RpcError Fetched) (file : bytes)
    : bytes * result RpcError () :=
  let held := N.of_nat (length file) in
  if (held <? size)%N then
    match fetch held with
    | Err e => (file, Err e)
    | Ok body =>
        (file ++ concat (fetched_chunks body),
         match fetched_end body with Some e => Err e | None => Ok tt end)
    end
  else (file, Ok tt).

(** The checks on a finished fetch: the file after them and the verdict. *)
Definition check_received (id : string) (size : N) (digest : string) (file : bytes)
    : option bytes * result RpcError string :=
  let len := N.of_nat (length file) in
  let actual := sha256 file in
  if (len <? size)%N then
    (Some file, Err (Transport ("snapshot " +:+ id +:+ " ended at " +:+ pretty len +:+ " of "
                                +:+ pretty size +:+ " bytes")))
  else if negb (len =? size)%N || negb (String.eqb actual digest) then
    (None, Err (Handler ("snapshot " +:+ id +:+ " arrived as " +:+ pretty len +:+ " bytes with sha256 "
                         +:+ actual +:+ "; the leader offered " +:+ pretty size +:+ " bytes with sha256 "
                         +:+ digest)))
  else (Some file, Ok (receiving_name id)).

Definition receive_snapshot (dir : files) (id : string) (size : N) (digest : string)
    (fetch : N -> result RpcError Fetched) : files * result RpcError string :=
  if negb (snapshot_id_is_safe id) then (dir, Err (BadRequest ("unusable snapshot id " +:+ debug_str id)))
  else
    let path := receiving_name id in
    let opened := default [] (dir !! path) in
    let file := if (size <? N.of_nat (length opened))%N then [] else opened in
    let '(file, fetched) := fetch_remainder size fetch file in
    match fetched with
    | Err e => (<[path := file]> dir, Err e)
    | Ok _ =>
        match check_received id size digest file with
        | (Some file, verdict) => (<[path := file]> dir, verdict)
        | (None, verdict) => (delete path dir, verdict)
        end
    end.

(** One attempt after another, as the leader repeats its offer. *)
Fixpoint attempts (dir : files) (id : string) (size : N) (digest : string)
    (fetches : list (N -> result RpcError Fetched)) : files * list (result RpcError string) :=
  match fetches with
  | [] => (dir, [])
  | fetch :: rest =>
      let '(dir, r) := receive_snapshot dir id size digest fetch in
      let '(dir, rs) := attempts dir id size digest rest in
      (dir, r :: rs)
  end.

(** ** Resumption *)

(** The receiving file holds a prefix of the content. *)
Definition partial (dir : files) (id : string) (content : bytes) : Prop :=
  exists k, default [] (dir !! receiving_name id) = take k content.

(** A fetch of the content: from whatever offset it is asked, a prefix of what is
    left, ended cleanly or not, or a failure to open. *)
Definition fetch_of (content : bytes) (fetch : N -> result RpcError Fetched) : Prop :=
  forall offset body, fetch offset = Ok body ->
    exists k, concat (fetched_chunks body) = take k (drop (N.to_nat offset) content).

(** One that delivers everything. *)
Definition fetch_all (content : bytes) (fetch : N -> result RpcError Fetched) : Prop :=
  forall offset, exists body, fetch offset = Ok body /\ fetched_end body = None
    /\ concat (fetched_chunks body) = drop (N.to_nat offset) content.

Lemma take_extend (content : bytes) j k :
  take j content ++ take k (drop (length (take j content)) content) = take (length (take j content) + k) content.
Proof.
  rewrite <- take_take_drop. f_equal. rewrite length_take. symmetry.
  destruct (decide (j <= length content)); [by rewrite Nat.min_l|]. rewrite Nat.min_r by lia.
  by rewrite !take_ge by lia.
Qed.

(** The fetch extends the prefix held, and completes it when everything arrives. *)
Lemma fetch_remainder_spec content fetch j :
  fetch_of content fetch ->
  exists file' fetched,
    fetch_remainder (N.of_nat (length content)) fetch (take j content) = (file', fetched)
    /\ (exists k, file' = take k content) /\ length (take j content) <= length file'
    /\ (fetch_all content fetch -> fetched = Ok tt /\ file' = content).
Proof.
  intros Hf. set (file := take j content). unfold fetch_remainder. cbv zeta.
  destruct (N.ltb_spec (N.of_nat (length file)) (N.of_nat (length content))) as [Hlt|Hge].
  - destruct (fetch (N.of_nat (length file))) as [body|e] eqn:Eb; eexists _, _; (split; [done|]).
    + destruct (Hf _ _ Eb) as [k Hk]. rewrite Nat2N.id in Hk. split_and!.
      * rewrite Hk. unfold file. rewrite take_extend. eauto.
      * rewrite length_app. lia.
      * intros Ha. destruct (Ha (N.of_nat (length file))) as (body' & Eb' & Hend & Hc). rewrite Eb in Eb'.
        injection Eb' as <-. rewrite Hend, Hc, Nat2N.id. split; [done|].
        unfold file. rewrite length_take. unfold file in Hlt. rewrite length_take in Hlt.
        rewrite Nat.min_l by lia. apply take_drop.
    + split_and!; [by exists j|done|].
      intros Ha. destruct (Ha (N.of_nat (length file))) as (body' & Eb' & _). congruence.
  - eexists _, _. split; [done|]. split_and!; [by exists j|done|]. intros _. split; [done|].
    unfold file. rewrite take_ge; [done|]. unfold file in Hge. rewrite length_take in Hge. lia.
Qed.

Lemma check_received_complete id content :
  check_received id (N.of_nat (length content)) (sha256 content) content
  = (Some content, Ok (receiving_name id)).
Proof. unfold check_received. cbv zeta. by rewrite N.ltb_irrefl, N.eqb_refl, String.eqb_refl. Qed.

(** An attempt from a prefix leaves a prefix no shorter, accepts only the content, and
    accepts when everything arrives. *)
Definition attempt_ok (content : bytes) (dir : files) (id : string) (fetch : N -> result RpcError Fetched)
    (dir' : files) (r : result RpcError string) : Prop :=
  partial dir' id content /\
  (length (default [] (dir !! receiving_name id)) <= length (default [] (dir' !! receiving_name id))) /\
  (forall name, r = Ok name -> name = receiving_name id /\ dir' !! name = Some content) /\
  (fetch_all content fetch -> r = Ok (receiving_name id)).

Lemma receive_step dir id content fetch :
  snapshot_id_is_safe id = true -> partial dir id content -> fetch_of content fetch ->
  exists dir' r, receive_snapshot dir id (N.of_nat (length content)) (sha256 content) fetch = (dir', r)
    /\ attempt_ok content dir id fetch dir' r.
Proof.
  intros Hid [j Hj] Hf. unfold receive_snapshot. rewrite Hid, Hj. cbn [negb]. cbv zeta.
  assert (length (take j content) <= length content) as Hle by (rewrite length_take; lia).
  rewrite (proj2 (N.ltb_ge _ _)) by lia.
  destruct (fetch_remainder_spec content fetch j Hf) as (file' & fetched & -> & [k Hk] & Hlen & Hall).
  unfold attempt_ok, partial. rewrite Hj. destruct fetched as [[]|e].
  - destruct (decide (length content <= k)) as [Hkc|Hkc].
    + rewrite take_ge in Hk by done. subst file'. rewrite check_received_complete. eexists _, _. split; [done|].
      rewrite lookup_insert_eq. split_and!; [|done| |done].
      * exists (length content). by rewrite take_ge.
      * intros name [= <-]. by rewrite lookup_insert_eq.
    + assert (length file' < length content) as Hlt by (rewrite Hk, length_take; lia).
      unfold check_received. cbv zeta. rewrite (proj2 (N.ltb_lt _ _)) by lia. eexists _, _. split; [done|].
      rewrite lookup_insert_eq. split_and!; [by eauto|done|done|].
      intros Ha. destruct (Hall Ha) as [_ ->]. lia.
  - eexists _, _. split; [done|]. rewrite lookup_insert_eq. split_and!; [by eauto|done|done|].
    intros Ha. by destruct (Hall Ha).
Qed.

Lemma attempts_spec id content fetches : forall dir,
  snapshot_id_is_safe id = true -> partial dir id content -> Forall (fetch_of content) fetches ->
  exists dir' rs, attempts dir id (N.of_nat (length content)) (sha256 content) fetches = (dir', rs)
    /\ partial dir' id content
    /\ (forall fetch, last fetches = Some fetch -> fetch_all content fetch ->
         last rs = Some (Ok (receiving_name id)) /\ dir' !! receiving_name id = Some content).
Proof.
  induction fetches as [|fetch rest IH]; intros dir Hid Hp Hf; [by eexists _, _|].
  apply Forall_cons in Hf as [Hf Hrest]. simpl.
  destruct (receive_step dir id content fetch Hid Hp Hf) as (d1 & r & -> & Hp1 & _ & Hok & Hall).
  destruct (IH d1 Hid Hp1 Hrest) as (d2 & rs & Hrs & Hp2 & Hlast). rewrite Hrs. eexists _, _. split; [done|].
  split; [done|]. destruct rest as [|g rest].
  - simpl in Hrs. injection Hrs as <- <-. intros f [= <-] Ha. specialize (Hall Ha). subst r.
    split; [done|]. by destruct (Hok _ eq_refl).
  - intros f Hlf Ha. rewrite last_cons_cons in Hlf. destruct (Hlast _ Hlf Ha) as [Hl Hd]. split; [|done].
    destruct rs; [done|]. by rewrite last_cons_cons.
Qed.


End Receive.

(** ** What the leader serves *)

Lemma id_char_ne c d : id_char d = true -> id_char c = false -> negb (Ascii.eqb c d) = true.
Proof. intros Hd Hc. apply negb_true_iff, Ascii.eqb_neq. intros ->. congruence. Qed.

Lemma split_once_absent c s :
  string_forallb (fun d => negb (Ascii.eqb c d)) s = true -> split_once (String c EmptyString) s = None.
Proof.
  induction s as [|d s IH]; intros H; [done|]. simpl in *. apply andb_true_iff in H as [Hd Hs].
  apply negb_true_iff in Hd. by rewrite Hd, IH.
Qed.

(** The leader's half of the transfer serves payloads and nothing else. Whatever target a
    peer sends, what is served is the tail of one file of the snapshot directory under a
    name with no path separator that is not a working file; and asked for a payload it
    holds at an offset within it, it serves exactly the bytes from that offset, so that
    the follower's request for the remainder of its file is answered with the remainder. *)
Theorem serve_snapshot_spec (dir : files) :
  (forall suffix body, serve_snapshot dir suffix = Ok body ->
     exists id file k, snapshot_id_is_safe id = true /\ payload_name id = true
       /\ dir !! id = Some file /\ body = drop k file) /\
  (forall id file offset, snapshot_id_is_safe id = true -> payload_name id = true ->
     dir !! id = Some file -> (N.of_nat offset <= N.of_nat (length file))%N ->
     (N.of_nat (length file) <= u64_max)%N ->
     serve_snapshot dir (id +:+ "/" +:+ pretty (N.of_nat offset)) = Ok (drop offset file)).
Proof.
  split.
  - intros suffix body. unfold serve_snapshot. cbv zeta. generalize (match split_once "?" suffix with Some (before, _) => before | None => suffix end).
    intros target. destruct (split_once "/" target) as [[id offset]|]; [|done].
    destruct (snapshot_id_is_safe id) eqn:Hid; [|done]. unfold payload_name.
    destruct (starts_with RECEIVING_PREFIX id) eqn:Hr; [done|]. destruct (starts_with TMP_PREFIX id) eqn:Ht; [done|].
    simpl. destruct (parse_u64 offset) as [k|]; [|done]. destruct (dir !! id) as [file|] eqn:Hf; [|done].
    destruct (N.ltb _ _); [done|]. intros [= <-]. exists id, file, (N.to_nat k). by rewrite Hr, Ht.
  - intros id file offset Hid Hp Hf Hle Hmax. unfold serve_snapshot. cbv zeta.
    assert (forall c, id_char c = false -> string_forallb (fun d => negb (Ascii.eqb c d)) id = true) as Hno.
    { intros c Hc. eapply string_forallb_impl; [|apply andb_true_iff in Hid as [_ Hid]; exact Hid].
      intros d Hd. by apply id_char_ne. }
    assert (forall c, id_char c = false ->
      string_forallb (fun d => negb (Ascii.eqb c d)) (pretty (N.of_nat offset)) = true) as Hdig.
    { intros c Hc. eapply string_forallb_impl; [|apply digits_id]. intros d Hd. by apply id_char_ne. }
    rewrite (split_once_absent "?" (id +:+ _)) by (rewrite !string_forallb_app, Hno, Hdig by done; done).
    rewrite (split_once_app "/" EmptyString) by (by apply Hno).
    unfold payload_name in Hp. apply andb_true_iff in Hp as [Ht Hr]. apply negb_true_iff in Ht, Hr.
    rewrite Hid, Ht, Hr. unfold parse_u64. rewrite from_str_radix_pretty by lia. cbn [negb orb].
    rewrite Hf, (proj2 (N.ltb_ge _ _)) by done. by rewrite Nat2N.id.
Qed.

(** ** A transfer in two attempts *)

Definition demo_content : bytes := as_bytes "snapshot".

Definition cut_fetch (offset : N) : result RpcError Fetched :=
  Ok {| fetched_chunks := [take 3 (drop (N.to_nat offset) demo_content)];
        fetched_end := Some (Transport "reset") |}.

Definition full_fetch (offset : N) : result RpcError Fetched :=
  Ok {| fetched_chunks := [drop (N.to_nat offset) demo_content]; fetched_end := None |}.

