(* ===== verification/Shard.v ===== *)
(** * The flow-state shard: [stores/shard.rs]

    One node's slice of flow state: the in-memory mirror, the queue to the writer
    thread, and the redb file with what its last [Immediate] commit made durable.
    A commit that fails takes its decision as an argument. Time is an argument, the
    touch counter part of the state. A write is three atomic actions (the mirror,
    eviction, the send to the writer), defined one by one so that they can
    interleave; [merge] sends under the mirror's lock. *)

From S2P Require Import Prelude Upstream FlowConfig.

(** ** Entries *)

(** A flow value: a [serde_json::Value] read through [as_i64] and compared. *)
Inductive FlowValue :=
  | JNull
  | JInt (n : Z)
  | JOther (rendered : string).

Global Instance FlowValue_eq_dec : EqDecision FlowValue.
Proof. solve_decision. Defined.

Record Versioned := {
  m_idx : N;
  ver : N;
  origin : N;
  expires_at : N;
  value : FlowValue;
  deleted : bool;
}.

Global Instance Versioned_eq_dec : EqDecision Versioned.
Proof. solve_decision. Defined.

(** Lexicographic comparison of [(m_idx, v, origin)]. *)
Definition version_ltb (a b : N * N * N) : bool :=
  let '(a1, a2, a3) := a in
  let '(b1, b2, b3) := b in
  (a1 <? b1)%N || (a1 =? b1)%N && ((a2 <? b2)%N || (a2 =? b2)%N && (a3 <? b3)%N).

Definition version (e : Versioned) : N * N * N := (m_idx e, ver e, origin e).

Definition superseded_by (self other : Versioned) : bool := version_ltb (version self) (version other).

Definition is_live (entry : Versioned) (now : N) : bool :=
  (expires_at entry =? 0)%N || (now <? expires_at entry)%N.

Definition expiry_from (now : N) (ttl_ms : option N) : N :=
  match ttl_ms with Some ttl => sat_add now ttl | None => 0 end.

(** ** The mirror *)

Record FlowMem := { fm_keys : gmap string Versioned; last_touch : N; touch_seq : N }.

Definition default_flow : FlowMem := {| fm_keys := ∅; last_touch := 0; touch_seq := 0 |}.

Record ShardConfig := { fsync_interval_ms : N; max_flows : nat; ttl_ms : option N }.

Definition default_shard_config : ShardConfig :=
  {| fsync_interval_ms := 50; max_flows := Pos.to_nat 100000; ttl_ms := Some 300000%N |}.

Inductive ShardError :=
  | Storage (detail : string)
  | Encoding (detail : string)
  | WriterStopped.

Inductive Mutation :=
  | MSet (flow_id key : string) (entry : Versioned)
  | MDelete (flow_id key : string)
  | MClearFlow (flow_id : string).

(** The oneshot of a [Sync] write is named by a number. *)
Record WriteRequest := { wr_mutation : Mutation; wr_durability : Durability.t; wr_ack : option N }.

Definition MAX_BATCH : nat := 256.

(** ** The file *)

Record Disk (text : Type) := { flow_kv : gmap (string * string) text; flow_meta : gmap string text }.
Arguments flow_kv {text} _.
Arguments flow_meta {text} _.
Arguments Build_Disk {text} _ _.

Record FlowMeta := { fmeta_last_touch : N }.

Class ShardCodec (text : Type) := {
  codec_versioned :: Serde text Versioned;
  codec_flow_meta :: Serde text FlowMeta;
}.

(** The writer thread: its queue, the database as its transactions see it and as a
    crash leaves it, the count of commits not yet durable, and the acknowledged
    oneshots with their results. *)
Record Writer (text : Type) := {
  w_queue : list WriteRequest;
  w_current : Disk text;
  w_durable : Disk text;
  unsynced : N;
  w_acks : list (N * result ShardError ());
}.
Arguments w_queue {text} _.
Arguments w_current {text} _.
Arguments w_durable {text} _.
Arguments unsynced {text} _.
Arguments w_acks {text} _.
Arguments Build_Writer {text} _ _ _ _ _.

Record Shard (text : Type) := {
  memory : gmap string FlowMem;
  next_seq : N;
  writer : option (Writer text);
  sh_config : ShardConfig;
}.
Arguments memory {text} _.
Arguments next_seq {text} _.
Arguments writer {text} _.
Arguments sh_config {text} _.
Arguments Build_Shard {text} _ _ _ _.

(** ** Reads *)

Section Reads.
  Context {text : Type}.

Definition lookup_entry (m : gmap string FlowMem) (flow_id key : string) : option Versioned :=
  flow ← m !! flow_id; fm_keys flow !! key.

Definition live_entry (now : N) (entry : Versioned) : option Versioned :=
  if is_live entry now then Some entry else None.

Definition get_versioned (s : Shard text) (now : N) (flow_id key : string) : option Versioned :=
  entry ← lookup_entry (memory s) flow_id key; live_entry now entry.

Definition get (s : Shard text) (now : N) (flow_id key : string) : option Versioned :=
  entry ← get_versioned s now flow_id key; if deleted entry then None else Some entry.

Definition flow (s : Shard text) (now : N) (flow_id : string) : list (string * Versioned) :=
  match memory s !! flow_id with
  | None => []
  | Some f => List.filter (fun kv => is_live kv.2 now) (map_to_list (fm_keys f))
  end.

Definition flow_count (s : Shard text) : nat := size (memory s).

Definition flow_ids (s : Shard text) : list string := (map_to_list (memory s)).*1.

Definition entries_by_flow (s : Shard text) (now : N) : list (string * nat) :=
  (fun kv : string * FlowMem =>
     (kv.1, length (List.filter (fun e => is_live e.2 now && negb (deleted e.2)) (map_to_list (fm_keys kv.2)))))
  <$> map_to_list (memory s).

(** ** The atomic actions of a write *)

Definition set_memory (s : Shard text) (m : gmap string FlowMem) (seq : N) : Shard text :=
  Build_Shard m seq (writer s) (sh_config s).

(** Insert under the lock, stamping the flow as touched. *)
Definition mem_insert (s : Shard text) (now : N) (flow_id key : string) (entry : Versioned) : Shard text :=
  let f := default default_flow (memory s !! flow_id) in
  let f := {| fm_keys := <[key := entry]> (fm_keys f); last_touch := now; touch_seq := next_seq s |} in
  set_memory s (<[flow_id := f]> (memory s)) (next_seq s + 1).

Definition send (s : Shard text) (request : WriteRequest) : Shard text :=
  match writer s with
  | None => s
  | Some w =>
      Build_Shard (memory s) (next_seq s)
        (Some (Build_Writer (w_queue w ++ [request]) (w_current w) (w_durable w) (unsynced w) (w_acks w)))
        (sh_config s)
  end.

(** The requests a mutation at a durability sends: none for [None]. *)
Definition request_of (mutation : Mutation) (durability : Durability.t) (ack : N) : list WriteRequest :=
  match durability with
  | Durability.DNone => []
  | Durability.Sync => [{| wr_mutation := mutation; wr_durability := durability; wr_ack := Some ack |}]
  | Durability.Async => [{| wr_mutation := mutation; wr_durability := durability; wr_ack := None |}]
  end.

Definition submit (s : Shard text) (mutation : Mutation) (durability : Durability.t) (ack : N) : Shard text :=
  foldl send s (request_of mutation durability ack).

(** Eviction: the flows ordered by when they were last touched. *)
Definition touched_le (a b : string * FlowMem) : Prop :=
  (last_touch a.2 < last_touch b.2)%N \/
  (last_touch a.2 = last_touch b.2 /\ (touch_seq a.2 <= touch_seq b.2)%N).

#[export] Instance touched_le_dec a b : Decision (touched_le a b).
Proof. unfold touched_le. apply _. Defined.

Definition by_age (m : gmap string FlowMem) : list (string * FlowMem) := merge_sort touched_le (map_to_list m).

Definition victims (max : nat) (m : gmap string FlowMem) : list string := take (size m - max) (by_age m).*1.

Definition evict (max : nat) (m : gmap string FlowMem) : gmap string FlowMem :=
  foldl (fun m id => delete id m) m (victims max m).

Definition mem_evict (s : Shard text) : Shard text :=
  set_memory s (evict (max_flows (sh_config s)) (memory s)) (next_seq s).

Definition clear_request (id : string) : WriteRequest :=
  {| wr_mutation := MClearFlow id; wr_durability := Durability.Async; wr_ack := None |}.

Definition evict_if_needed (s : Shard text) : Shard text :=
  foldl send (mem_evict s) (clear_request <$> victims (max_flows (sh_config s)) (memory s)).

(** ** Writes, as one caller runs them *)

Definition set (s : Shard text) (now : N) (flow_id key : string) (entry : Versioned)
    (durability : Durability.t) (ack : N) : Shard text :=
  submit (evict_if_needed (mem_insert s now flow_id key entry)) (MSet flow_id key entry) durability ack.

(** Whether a live record refuses the entry. *)
Definition refuses (s : Shard text) (now : N) (flow_id key : string) (entry : Versioned) : bool :=
  match get_versioned s now flow_id key with
  | Some current => negb (superseded_by current entry)
  | None => false
  end.

(** The locked part of a merge: compare, install and send. *)
Definition merge_locked (s : Shard text) (now : N) (flow_id key : string) (entry : Versioned)
    (durability : Durability.t) (ack : N) : Shard text * bool :=
  if refuses s now flow_id key entry then (s, false)
  else (submit (mem_insert s now flow_id key entry) (MSet flow_id key entry) durability ack, true).

Definition merge (s : Shard text) (now : N) (flow_id key : string) (entry : Versioned)
    (durability : Durability.t) (ack : N) : Shard text * bool :=
  match merge_locked s now flow_id key entry durability ack with
  | (s, false) => (s, false)
  | (s, true) => (evict_if_needed s, true)
  end.

Definition mem_delete (s : Shard text) (now : N) (flow_id key : string) : Shard text :=
  match memory s !! flow_id with
  | None => s
  | Some f =>
      let f := {| fm_keys := delete key (fm_keys f); last_touch := now; touch_seq := next_seq s |} in
      let m := if decide (fm_keys f = ∅) then delete flow_id (memory s) else <[flow_id := f]> (memory s) in
      set_memory s m (next_seq s + 1)
  end.

Definition shard_delete (s : Shard text) (now : N) (flow_id key : string) (durability : Durability.t)
    (ack : N) : Shard text :=
  submit (mem_delete s now flow_id key) (MDelete flow_id key) durability ack.

Definition clear_flow (s : Shard text) (flow_id : string) (durability : Durability.t) (ack : N) : Shard text :=
  submit (set_memory s (delete flow_id (memory s)) (next_seq s)) (MClearFlow flow_id) durability ack.

End Reads.

(** ** The writer *)

Section Writer.
  Context {text : Type} {SC : ShardCodec text}.

Definition commit_one (now : N) (d : Disk text) (m : Mutation) : Disk text :=
  match m with
  | MSet flow_id key entry =>
      Build_Disk (<[(flow_id, key) := to_text entry]> (flow_kv d))
                 (<[flow_id := to_text {| fmeta_last_touch := now |}]> (flow_meta d))
  | MDelete flow_id key => Build_Disk (delete (flow_id, key) (flow_kv d)) (flow_meta d)
  | MClearFlow flow_id =>
      Build_Disk (filter (fun kv : string * string * text => kv.1.1 <> flow_id) (flow_kv d))
                 (delete flow_id (flow_meta d))
  end.

Definition commit_batch (now : N) (d : Disk text) (batch : list WriteRequest) : Disk text :=
  foldl (fun d r => commit_one now d (wr_mutation r)) d batch.

(** What every waiter of the batch is told. *)
Definition acks_of (batch : list WriteRequest) (r : result ShardError ()) : list (N * result ShardError ()) :=
  omap (fun q => match wr_ack q with Some id => Some (id, r) | None => None end) batch.

(** One turn of the loop on a received request: a batch of what is queued, up to
    [MAX_BATCH], committed in one transaction that may fail. *)
Definition drain (now : N) (failure : option string) (arrived : nat) (w : Writer text) : Writer text :=
  let batch := take (Nat.min MAX_BATCH (Nat.max 1 arrived)) (w_queue w) in
  let rest := drop (Nat.min MAX_BATCH (Nat.max 1 arrived)) (w_queue w) in
  match batch with
  | [] => w
  | _ =>
      let any_sync := existsb (fun r => bool_decide (wr_durability r = Durability.Sync)) batch in
      match failure with
      | Some e => Build_Writer rest (w_current w) (w_durable w) (unsynced w)
                               (w_acks w ++ acks_of batch (Err (Storage e)))
      | None =>
          let d := commit_batch now (w_current w) batch in
          Build_Writer rest d (if any_sync then d else w_durable w)
                       (if any_sync then 0 else unsynced w + N.of_nat (length batch))
                       (w_acks w ++ acks_of batch (Ok tt))
      end
  end.

Definition commit_deletes (d : Disk text) (deletes : list (string * string)) : Disk text :=
  foldl (fun d k => Build_Disk (delete k (flow_kv d)) (flow_meta d)) d deletes.

(** The writer's half of a tick, given what the sweep found. *)
Definition tick_commit (failure : option string) (expired : list (string * string)) (w : Writer text)
    : Writer text :=
  if (unsynced w =? 0)%N && match expired with [] => true | _ => false end then w
  else match failure with
       | Some _ => w
       | None =>
           let d := commit_deletes (w_current w) expired in
           Build_Writer (w_queue w) d d 0 (w_acks w)
       end.

(** The sweep of the mirror: what stays of a flow, and the keys to delete. *)
Definition swept_keys (now : N) (m : gmap string FlowMem) : list (string * string) :=
  kv ← map_to_list m;
  (fun ke : string * Versioned => (kv.1, ke.1)) <$>
    List.filter (fun ke => negb (is_live ke.2 now)) (map_to_list (fm_keys kv.2)).

Definition sweep_flow (now : N) (f : FlowMem) : option FlowMem :=
  let keys := filter (fun ke : string * Versioned => is_live ke.2 now = true) (fm_keys f) in
  if decide (keys = ∅) then None
  else Some {| fm_keys := keys; last_touch := last_touch f; touch_seq := touch_seq f |}.

Definition sweep_memory (now : N) (m : gmap string FlowMem) : gmap string FlowMem := omap (sweep_flow now) m.

Definition tick (now : N) (failure : option string) (s : Shard text) : Shard text :=
  match writer s with
  | None => s
  | Some w =>
      Build_Shard (sweep_memory now (memory s)) (next_seq s)
        (Some (tick_commit failure (swept_keys now (memory s)) w)) (sh_config s)
  end.

(** ** Recovery *)

Definition kv_le (a b : string * string * text) : Prop :=
  String.leb a.1.1 b.1.1 = true /\ (a.1.1 = b.1.1 -> String.leb a.1.2 b.1.2 = true).

#[export] Instance kv_le_dec a b : Decision (kv_le a b).
Proof. unfold kv_le. apply _. Defined.

Definition kv_rows (m : gmap (string * string) text) : list (string * string * text) :=
  merge_sort kv_le (map_to_list m).

Fixpoint recover_rows (now : N) (rows : list (string * string * text)) (m : gmap string FlowMem)
    : result ShardError (gmap string FlowMem) :=
  match rows with
  | [] => Ok m
  | ((flow_id, key), row) :: rest =>
      match from_text row with
      | Err e => Err (Encoding e)
      | Ok entry =>
          if is_live entry now then
            let f := default default_flow (m !! flow_id) in
            recover_rows now rest
              (<[flow_id := {| fm_keys := <[key := entry]> (fm_keys f); last_touch := last_touch f;
                               touch_seq := touch_seq f |}]> m)
          else recover_rows now rest m
      end
  end.

Definition restored_touch (now : N) (meta : gmap string text) (flow_id : string) : N :=
  match meta !! flow_id with
  | None => now
  | Some row => match from_text row with Ok fmeta => fmeta_last_touch fmeta | Err _ => now end
  end.

(** Each flow gets its stored touch and the next of the counter, in the map's order. *)
Definition restore_touch (now : N) (meta : gmap string text) (acc : gmap string FlowMem * N)
    (kv : string * FlowMem) : gmap string FlowMem * N :=
  (<[kv.1 := {| fm_keys := fm_keys kv.2; last_touch := restored_touch now meta kv.1;
                touch_seq := acc.2 |}]> acc.1, acc.2 + 1)%N.

Definition restore_touches (now : N) (meta : gmap string text) (seq : N) (m : gmap string FlowMem)
    : gmap string FlowMem * N := foldl (restore_touch now meta) (∅, seq) (map_to_list m).

(** The least recently touched flow. *)
Definition oldest (m : gmap string FlowMem) : option string := head (by_age m).*1.

(** [while memory.len() > max_flows]. The length drops at each turn, so the length is
    fuel enough. *)
Fixpoint shed (fuel : nat) (max : nat) (m : gmap string FlowMem) : gmap string FlowMem :=
  match fuel with
  | O => m
  | S fuel =>
      if decide (max < size m) then
        match oldest m with
        | Some id => shed fuel max (delete id m)
        | None => m
        end
      else m
  end.

Definition recover (now : N) (config : ShardConfig) (seq : N) (d : Disk text)
    : result ShardError (gmap string FlowMem * N) :=
  m ← recover_rows now (kv_rows (flow_kv d)) ∅;
  let ms := restore_touches now (flow_meta d) seq m in
  Ok (shed (size ms.1) (max_flows config) ms.1, ms.2).

(** Opening the file a crash or a close left. *)
Definition open_shard (now : N) (config : ShardConfig) (seq : N) (d : Disk text)
    : result ShardError (Shard text) :=
  ms ← recover now config seq d;
  Ok (Build_Shard ms.1 ms.2 (Some (Build_Writer [] d d 0 [])) config).

Definition in_memory (config : ShardConfig) : Shard text := Build_Shard ∅ 0 None config.

End Writer.
