(* ===== verification/ShardFacts.v ===== *)
(** * The shard's guarantees

    Merging by version converges whatever the order of arrival; eviction sheds whole
    flows, least recently touched first, on the live path and on recovery alike; an
    acknowledged [Sync] write survives a crash; a closed shard reopens with what it
    held. Two interleavings where the durable copy and the mirror part are at the
    end. *)

From S2P Require Import Prelude Upstream FlowConfig Shard.

(** ** Versions *)

Lemma version_ltb_irrefl a : version_ltb a a = false.
Proof. destruct a as [[x y] z]. unfold version_ltb. by rewrite !N.ltb_irrefl, !andb_false_r. Qed.

Definition version_lt (a b : N * N * N) : Prop :=
  (a.1.1 < b.1.1 \/ a.1.1 = b.1.1 /\ (a.1.2 < b.1.2 \/ a.1.2 = b.1.2 /\ a.2 < b.2))%N.

Lemma version_ltb_spec a b : version_ltb a b = true <-> version_lt a b.
Proof.
  destruct a as [[x y] z], b as [[x' y'] z']. unfold version_ltb, version_lt. simpl.
  rewrite !orb_true_iff, !andb_true_iff, !orb_true_iff, !andb_true_iff, !N.ltb_lt, !N.eqb_eq. tauto.
Qed.

Lemma version_ltb_false a b : version_ltb a b = false <-> b = a \/ version_lt b a.
Proof.
  rewrite <- not_true_iff_false, version_ltb_spec. destruct a as [[x y] z], b as [[x' y'] z'].
  unfold version_lt. simpl. split.
  - intros H. destruct (decide (x' = x /\ y' = y /\ z' = z)) as [(-> & -> & ->)|Hne]; [by left|right]. lia.
  - intros [[= -> -> ->]|H]; lia.
Qed.

(** ** Convergence *)

(** A push as it arrives: when, and which record of which key. *)
Record Push := { p_now : N; p_flow : string; p_key : string; p_entry : Versioned }.

Section Merge.
  Context {text : Type}.

Definition push (s : Shard text) (p : Push) : Shard text :=
  (merge s (p_now p) (p_flow p) (p_key p) (p_entry p) Durability.Async 0).1.

Definition pushes (s : Shard text) (ps : list Push) : Shard text := foldl push s ps.

(** The record of a key among pushes: pushed, and superseded by none of them. *)
Definition is_winner (ps : list Push) (f k : string) (e : Versioned) : Prop :=
  (exists p, p ∈ ps /\ p_flow p = f /\ p_key p = k /\ p_entry p = e)
  /\ forall p, p ∈ ps -> p_flow p = f -> p_key p = k -> superseded_by e (p_entry p) = false.

(** No push is expired when another arrives. *)
Definition all_live (ps : list Push) : Prop :=
  forall p q, p ∈ ps -> q ∈ ps -> is_live (p_entry p) (p_now q) = true.

(** A version names one record. *)
Definition versions_unique (ps : list Push) : Prop :=
  forall p q, p ∈ ps -> q ∈ ps -> p_flow p = p_flow q -> p_key p = p_key q ->
    version (p_entry p) = version (p_entry q) -> p_entry p = p_entry q.

Definition flows_of (ps : list Push) : gset string := list_to_set (p_flow <$> ps).

(** What the mirror holds after the pushes so far. *)
Definition mirrors (s : Shard text) (ps : list Push) : Prop :=
  dom (memory s) ⊆ flows_of ps /\
  forall f k, match lookup_entry (memory s) f k with
              | Some e => is_winner ps f k e
              | None => forall p, p ∈ ps -> p_flow p = f -> p_key p <> k
              end.

Lemma lookup_entry_insert (s : Shard text) now f k e f' k' :
  lookup_entry (memory (mem_insert s now f k e)) f' k'
  = if decide (f' = f /\ k' = k) then Some e else lookup_entry (memory s) f' k'.
Proof.
  unfold lookup_entry, mem_insert. simpl. destruct (decide (f' = f)) as [->|Hf].
  - rewrite lookup_insert_eq. simpl. destruct (decide (k' = k)) as [->|Hk].
    + rewrite lookup_insert_eq. by rewrite decide_True.
    + rewrite lookup_insert_ne by done. rewrite decide_False by naive_solver.
      by destruct (memory s !! f); simpl; rewrite ?lookup_empty.
  - rewrite lookup_insert_ne by done. by rewrite decide_False by naive_solver.
Qed.

Lemma memory_send (s : Shard text) r : memory (send s r) = memory s.
Proof. unfold send. by destruct (writer s). Qed.

Lemma memory_sends (s : Shard text) rs : memory (foldl send s rs) = memory s.
Proof. revert s. induction rs as [|r rs IH]; intros s; [done|]. simpl. by rewrite IH, memory_send. Qed.

Lemma config_send (s : Shard text) r : sh_config (send s r) = sh_config s.
Proof. unfold send. by destruct (writer s). Qed.

Lemma config_sends (s : Shard text) rs : sh_config (foldl send s rs) = sh_config s.
Proof. revert s. induction rs as [|r rs IH]; intros s; [done|]. simpl. by rewrite IH, config_send. Qed.

Lemma victims_under (max : nat) (m : gmap string FlowMem) : size m <= max -> victims max m = [].
Proof. intros H. unfold victims. by replace (size m - max) with 0 by lia. Qed.

Lemma evict_under (max : nat) (m : gmap string FlowMem) : size m <= max -> evict max m = m.
Proof. intros H. unfold evict. by rewrite victims_under. Qed.

(** A merge under the cap installs the entry, or leaves the mirror alone. *)
Lemma memory_merge (s : Shard text) now f k e d a :
  size (memory (mem_insert s now f k e)) <= max_flows (sh_config s) ->
  memory (merge s now f k e d a).1
  = if refuses s now f k e then memory s else memory (mem_insert s now f k e).
Proof.
  intros Hcap. unfold merge, merge_locked. destruct (refuses s now f k e); [done|]. simpl.
  unfold evict_if_needed. rewrite memory_sends. unfold mem_evict, submit. simpl.
  rewrite memory_sends, config_sends. by apply evict_under.
Qed.

Lemma config_merge (s : Shard text) now f k e d a : sh_config (merge s now f k e d a).1 = sh_config s.
Proof.
  unfold merge, merge_locked. destruct (refuses s now f k e); [done|]. simpl. unfold evict_if_needed.
  rewrite config_sends. simpl. unfold submit. by rewrite config_sends.
Qed.

Lemma winner_keep ps f k e p :
  is_winner ps f k e -> (p_flow p = f -> p_key p = k -> superseded_by e (p_entry p) = false) ->
  is_winner (ps ++ [p]) f k e.
Proof.
  intros [(q & Hq & Hqe) Hw] Hp. split.
  - exists q. split; [|done]. apply elem_of_app. by left.
  - intros q' [Hq'| ->%list_elem_of_singleton]%elem_of_app; [by apply Hw|done].
Qed.

Lemma winner_replace ps f k e p :
  is_winner ps f k e -> p_flow p = f -> p_key p = k -> superseded_by e (p_entry p) = true ->
  is_winner (ps ++ [p]) f k (p_entry p).
Proof.
  intros [_ Hw] Hf Hk Hs. split.
  - exists p. split; [|done]. apply elem_of_app. right. by apply list_elem_of_singleton.
  - intros q [Hq| ->%list_elem_of_singleton]%elem_of_app Hqf Hqk; [|apply version_ltb_irrefl].
    specialize (Hw q Hq Hqf Hqk). unfold superseded_by in *.
    apply version_ltb_spec in Hs. apply version_ltb_false. apply version_ltb_false in Hw. right.
    unfold version_lt in *. destruct Hw as [->|Hw]; [done|]. lia.
Qed.

Lemma push_mirrors s ps p :
  mirrors s ps -> all_live (ps ++ [p]) -> size (flows_of (ps ++ [p])) <= max_flows (sh_config s) ->
  mirrors (push s p) (ps ++ [p]).
Proof.
  intros [Hdom Hm] Hlive Hcap. unfold push.
  assert (flows_of (ps ++ [p]) = flows_of ps ∪ {[p_flow p]}) as Hfl.
  { unfold flows_of. rewrite fmap_app. simpl. set_solver. }
  assert (dom (memory (mem_insert s (p_now p) (p_flow p) (p_key p) (p_entry p))) ⊆ flows_of (ps ++ [p])) as Hdom'.
  { rewrite Hfl. unfold mem_insert. simpl. rewrite dom_insert_L. set_solver. }
  split.
  - rewrite memory_merge.
    + case_match; [|done]. rewrite Hfl. set_solver.
    + rewrite <- size_dom. etrans; [by apply subseteq_size|done].
  - intros f k. rewrite memory_merge by (rewrite <- size_dom; etrans; [by apply subseteq_size|done]).
    specialize (Hm f k). unfold refuses, get_versioned.
    destruct (decide (f = p_flow p /\ k = p_key p)) as [[-> ->]|Hne].
    + destruct (lookup_entry (memory s) (p_flow p) (p_key p)) as [e|] eqn:El; cbn [mbind option_bind].
      * assert (is_live e (p_now p) = true) as Hl.
        { destruct Hm as [(q & Hq & _ & _ & <-) _]. apply Hlive; apply elem_of_app; [by left|right].
          by apply list_elem_of_singleton. }
        unfold live_entry. rewrite Hl. destruct (superseded_by e (p_entry p)) eqn:Hs; cbn [negb].
        -- rewrite lookup_entry_insert, decide_True by done. by eapply winner_replace.
        -- rewrite El. by apply winner_keep.
      * rewrite lookup_entry_insert, decide_True by done. split.
        -- exists p. split; [|done]. apply elem_of_app. right. by apply list_elem_of_singleton.
        -- intros q [Hq| ->%list_elem_of_singleton]%elem_of_app Hf Hk; [by destruct (Hm q Hq Hf)|].
           apply version_ltb_irrefl.
    + assert (forall m', lookup_entry m' f k = lookup_entry (memory s) f k ->
        match lookup_entry m' f k with
        | Some e => is_winner (ps ++ [p]) f k e
        | None => forall q, q ∈ ps ++ [p] -> p_flow q = f -> p_key q <> k
        end) as Hsame.
      { intros m' ->. revert Hm. destruct (lookup_entry (memory s) f k); intros Hm.
        - apply winner_keep; [done|]. intros <- <-. by destruct Hne.
        - intros q [Hq| ->%list_elem_of_singleton]%elem_of_app; [by apply Hm|]. intros <- <-. by destruct Hne. }
      apply Hsame. match goal with |- context [if ?b then _ else _] => destruct b end; [done|].
      by rewrite lookup_entry_insert, decide_False.
Qed.

Lemma pushes_mirrors ps : forall s done_,
  mirrors s done_ -> all_live (done_ ++ ps) -> size (flows_of (done_ ++ ps)) <= max_flows (sh_config s) ->
  mirrors (pushes s ps) (done_ ++ ps).
Proof.
  induction ps as [|p ps IH]; intros s done_ Hm Hlive Hcap; [by rewrite app_nil_r|].
  replace (done_ ++ p :: ps) with ((done_ ++ [p]) ++ ps) in * by (by rewrite <- app_assoc). apply IH; [|done|].
  - apply push_mirrors; [done| |].
    + intros q q' Hq Hq'. apply Hlive; apply elem_of_app; by left.
    + etrans; [|exact Hcap]. apply subseteq_size. unfold flows_of. rewrite (fmap_app _ (_ ++ _)). set_solver.
  - unfold push. by rewrite config_merge.
Qed.

Lemma winner_unique ps f k e e' :
  versions_unique ps -> is_winner ps f k e -> is_winner ps f k e' -> e = e'.
Proof.
  intros Hu [(p & Hp & Hpf & Hpk & <-) Hw] [(q & Hq & Hqf & Hqk & <-) Hw'].
  apply Hu; try done; [by rewrite Hpf, Hqf|by rewrite Hpk, Hqk|].
  pose proof (Hw q Hq Hqf Hqk) as H1. pose proof (Hw' p Hp Hpf Hpk) as H2. unfold superseded_by in *.
  apply version_ltb_false in H1 as [->|H1]; [done|]. apply version_ltb_false in H2 as [->|H2]; [done|].
  unfold version_lt in *. lia.
Qed.

(** The same records pushed, whenever and in whatever order. *)
Definition same_records (ps ps' : list Push) : Prop :=
  forall f k e, (exists p, p ∈ ps /\ p_flow p = f /\ p_key p = k /\ p_entry p = e) <->
                (exists p, p ∈ ps' /\ p_flow p = f /\ p_key p = k /\ p_entry p = e).

Lemma mirrors_agree (s s' : Shard text) ps ps' f k :
  mirrors s ps -> mirrors s' ps' -> versions_unique ps -> same_records ps ps' ->
  lookup_entry (memory s) f k = lookup_entry (memory s') f k.
Proof.
  intros [_ Hm] [_ Hm'] Hu Hsame. specialize (Hm f k). specialize (Hm' f k).
  destruct (lookup_entry (memory s) f k) as [e|], (lookup_entry (memory s') f k) as [e'|]; [..|done].
  - f_equal. eapply winner_unique; [done|done|]. destruct Hm' as [Hin Hw]. split; [by apply Hsame|].
    intros p Hp Hf Hk. destruct (proj1 (Hsame f k (p_entry p))) as (q & Hq & Hqf & Hqk & <-); [by exists p|].
    by apply Hw.
  - destruct Hm as [Hin _]. apply Hsame in Hin as (q & Hq & Hqf & Hqk & _). by destruct (Hm' q Hq Hqf).
  - destruct Hm' as [Hin _]. apply Hsame in Hin as (q & Hq & Hqf & Hqk & _). by destruct (Hm q Hq Hqf).
Qed.

Lemma mirrors_empty (s : Shard text) : memory s = ∅ -> mirrors s [].
Proof.
  intros H0. split; [rewrite H0; set_solver|]. intros f k. unfold lookup_entry.
  rewrite H0, lookup_empty. simpl. by intros p ?%not_elem_of_nil.
Qed.


End Merge.

#[export] Hint Rewrite @memory_send @memory_sends @config_send @config_sends @config_merge : rift.

(** ** Eviction *)

Section Evict.

Lemma by_age_Permutation m : by_age m ≡ₚ map_to_list m.
Proof. apply merge_sort_Permutation. Qed.

Lemma by_age_sorted m : StronglySorted touched_le (by_age m).
Proof.
  apply StronglySorted_merge_sort; unfold touched_le.
  - intros a b c ??. lia.
  - intros a b. lia.
Qed.

Lemma elem_of_by_age m id f : (id, f) ∈ by_age m <-> m !! id = Some f.
Proof. rewrite by_age_Permutation. apply elem_of_map_to_list. Qed.

Lemma NoDup_by_age m : NoDup (by_age m).*1.
Proof. rewrite by_age_Permutation. apply NoDup_fst_map_to_list. Qed.

Lemma length_by_age m : length (by_age m) = size m.
Proof. rewrite by_age_Permutation. apply length_map_to_list. Qed.

Lemma lookup_deletes (ids : list string) (m : gmap string FlowMem) id :
  foldl (fun m id => delete id m) m ids !! id = if decide (id ∈ ids) then None else m !! id.
Proof.
  revert m. induction ids as [|i ids IH]; intros m; simpl; [done|].
  rewrite IH. destruct (decide (id = i)) as [->|Hne].
  - rewrite lookup_delete_eq. rewrite (decide_True (P := i ∈ i :: ids)) by left. by case_decide.
  - rewrite lookup_delete_ne by done. do 2 case_decide; set_solver.
Qed.

Lemma size_deletes (ids : list string) (m : gmap string FlowMem) :
  NoDup ids -> (forall id, id ∈ ids -> is_Some (m !! id)) ->
  size (foldl (fun m id => delete id m) m ids) = size m - length ids.
Proof.
  revert m. induction ids as [|i ids IH]; intros m Hnd Hin; simpl; [lia|].
  apply NoDup_cons in Hnd as [Hi Hnd]. rewrite IH; [|done|].
  - rewrite map_size_delete_Some by (apply Hin; left). lia.
  - intros id Hid. rewrite lookup_delete_ne by (by intros ->). apply Hin. by right.
Qed.

Lemma victims_in max m id : id ∈ victims max m -> exists f, (id, f) ∈ take (size m - max) (by_age m).
Proof.
  unfold victims. rewrite <- fmap_take, list_elem_of_fmap. intros ([i f] & -> & H). eauto.
Qed.

Lemma size_evict max m : size (evict max m) = Nat.min (size m) max.
Proof.
  unfold evict. rewrite size_deletes.
  - unfold victims. rewrite length_take, length_fmap, length_by_age. lia.
  - eapply sublist_NoDup; [apply NoDup_by_age|]. apply sublist_take.
  - intros id (f & H)%victims_in. exists f. apply elem_of_by_age. by eapply elem_of_take_in.
Qed.

Lemma evict_subset max m : evict max m ⊆ m.
Proof.
  apply map_subseteq_spec. intros id f. unfold evict. rewrite lookup_deletes. by case_decide.
Qed.

(** Distinct flows are touched at distinct stamps. *)
Definition touches_distinct (m : gmap string FlowMem) : Prop :=
  forall id id' f f', m !! id = Some f -> m !! id' = Some f' ->
    last_touch f = last_touch f' -> touch_seq f = touch_seq f' -> id = id'.

Definition touched_lt (a b : string * FlowMem) : Prop :=
  (last_touch a.2 < last_touch b.2)%N \/
  (last_touch a.2 = last_touch b.2 /\ (touch_seq a.2 < touch_seq b.2)%N).

Lemma by_age_lt m : touches_distinct m -> StronglySorted touched_lt (by_age m).
Proof.
  intros Hd. pose proof (NoDup_by_age m) as Hnd.
  assert (forall kv, kv ∈ by_age m -> m !! kv.1 = Some kv.2) as Hin.
  { intros [id f] H. by apply elem_of_by_age. }
  induction (by_age_sorted m) as [|kv rows Hs IH Hf]; [constructor|].
  rewrite fmap_cons in Hnd. apply NoDup_cons in Hnd as [Hni Hnd].
  constructor; [apply IH; [done|]; intros; apply Hin; by right|].
  rewrite Forall_forall in *. intros kv' Hkv'. specialize (Hf _ Hkv'). unfold touched_le, touched_lt in *.
  assert (~ (last_touch kv.2 = last_touch kv'.2 /\ touch_seq kv.2 = touch_seq kv'.2)); [|lia].
  intros [E1 E2]. apply Hni. rewrite (Hd kv.1 kv'.1 kv.2 kv'.2); [|by apply Hin; left|by apply Hin; right|done|done].
  apply list_elem_of_fmap. eauto.
Qed.

Lemma by_age_unique m rows :
  touches_distinct m -> StronglySorted touched_lt rows -> rows ≡ₚ map_to_list m -> by_age m = rows.
Proof.
  intros Hd Hs Hp.
  assert (Transitive touched_lt) by (intros a b c; unfold touched_lt; lia).
  assert (AntiSymm eq touched_lt) by (intros a b; unfold touched_lt; lia).
  apply (Sorted_unique touched_lt).
  - by apply StronglySorted_Sorted, by_age_lt.
  - by apply StronglySorted_Sorted.
  - by rewrite by_age_Permutation, Hp.
Qed.

Lemma touches_distinct_subset m m' : m' ⊆ m -> touches_distinct m -> touches_distinct m'.
Proof. intros Hs Hd id id' f f' H H'. eapply Hd; eapply lookup_weaken; eauto. Qed.

(** Shedding the oldest flow drops the head of the order. *)
Lemma by_age_delete m id f rest :
  touches_distinct m -> by_age m = (id, f) :: rest -> by_age (delete id m) = rest.
Proof.
  intros Hd Hb. apply by_age_unique.
  - eapply touches_distinct_subset; [apply delete_subseteq|done].
  - pose proof (by_age_lt m Hd) as Hs. rewrite Hb in Hs. by inversion Hs.
  - assert (m !! id = Some f) as Hid by (apply elem_of_by_age; rewrite Hb; left).
    apply (Permutation_cons_inv (a := (id, f))). rewrite <- Hb, by_age_Permutation.
    by rewrite map_to_list_delete.
Qed.

Lemma shed_evict max : forall fuel m,
  size m <= fuel -> touches_distinct m -> shed fuel max m = evict max m.
Proof.
  induction fuel as [|fuel IH]; intros m Hfuel Hd; simpl.
  - rewrite evict_under by lia. done.
  - case_decide as Hlt; [|by rewrite evict_under by lia].
    unfold oldest. destruct (by_age m) as [|[id f] rest] eqn:Hb.
    { pose proof (length_by_age m) as Hl. rewrite Hb in Hl. simpl in Hl. lia. }
    simpl. assert (m !! id = Some f) as Hid by (apply elem_of_by_age; rewrite Hb; left).
    assert (size (delete id m) = size m - 1) as Hsz by (rewrite map_size_delete_Some by eauto; lia).
    rewrite IH; [|lia|by eapply touches_distinct_subset; [apply delete_subseteq|]].
    unfold evict, victims. rewrite (by_age_delete _ _ _ _ Hd Hb), Hb, Hsz.
    replace (size m - max) with (S (size m - 1 - max)) by lia. done.
Qed.

(** No flow shed was touched after a flow kept. *)
Lemma evict_order max m id f id' f' :
  m !! id = Some f -> evict max m !! id = None -> evict max m !! id' = Some f' -> touched_le (id, f) (id', f').
Proof.
  intros Hid Hgone Hkept. unfold evict in Hgone, Hkept. rewrite lookup_deletes in Hgone, Hkept.
  destruct (decide (id ∈ victims max m)) as [Hv|]; [|congruence].
  destruct (decide (id' ∈ victims max m)) as [|Hk]; [done|].
  apply victims_in in Hv as (g & Hg).
  assert (g = f) as ->.
  { assert (m !! id = Some g); [|congruence]. apply elem_of_by_age. by eapply elem_of_take_in. }
  pose proof (by_age_sorted m) as Hs. rewrite <- (take_drop (size m - max) (by_age m)) in Hs.
  eapply StronglySorted_app_1_elem_of; [exact Hs|done|].
  apply elem_of_by_age in Hkept. rewrite <- (take_drop (size m - max) (by_age m)) in Hkept.
  apply elem_of_app in Hkept as [Hin|Hin]; [|done]. destruct Hk. unfold victims. rewrite <- fmap_take.
  apply list_elem_of_fmap. by exists (id', f').
Qed.

(** Eviction sheds whole flows, least recently touched first, and the live path and
    recovery shed the same ones. After an eviction the shard holds the lesser of what it
    held and its cap, every flow it holds is exactly the flow it held, and no flow shed was
    touched after a flow kept; and recovery's loop over the least recently touched flow
    keeps precisely the flows the live path keeps, when no two flows carry the same
    stamp. *)
Theorem evict_lru max m :
  size (evict max m) = Nat.min (size m) max /\ evict max m ⊆ m /\
  (forall id f id' f', m !! id = Some f -> evict max m !! id = None -> evict max m !! id' = Some f' ->
     touched_le (id, f) (id', f')) /\
  (touches_distinct m -> shed (size m) max m = evict max m).
Proof.
  split_and!; [apply size_evict|apply evict_subset|apply evict_order|by apply shed_evict].
Qed.

End Evict.
