(* ===== verification/ShardDisk.v ===== *)
(** * The shard and its file

    The writer's events and what is on disk: an acknowledged [Sync] write survives a
    crash, a shard reopens with what it held, and the two interleavings in which the
    durable copy loses or gains against the mirror. *)

From S2P Require Import Prelude Upstream FlowConfig Shard ShardFacts.

(** ** Mutations on the key-value table *)

Section Kv.
  Context {text : Type} {SC : ShardCodec text}.

Definition apply_kv (m : gmap (string * string) text) (x : Mutation) : gmap (string * string) text :=
  match x with
  | MSet f k e => <[(f, k) := to_text e]> m
  | MDelete f k => delete (f, k) m
  | MClearFlow f => filter (fun kv : string * string * text => kv.1.1 <> f) m
  end.

Definition replay (m : gmap (string * string) text) (rs : list WriteRequest) : gmap (string * string) text :=
  foldl (fun m r => apply_kv m (wr_mutation r)) m rs.

Lemma kv_commit_batch now d batch : flow_kv (commit_batch now d batch) = replay (flow_kv d) batch.
Proof.
  revert d. induction batch as [|r batch IH]; intros d; [done|]. unfold commit_batch, replay in *. simpl.
  rewrite IH. f_equal. by destruct (wr_mutation r).
Qed.

Lemma replay_app m rs rs' : replay m (rs ++ rs') = replay (replay m rs) rs'.
Proof. apply foldl_app. Qed.

(** A mutation reaches a key. *)
Definition touches (f k : string) (x : Mutation) : Prop :=
  match x with
  | MSet f' k' _ | MDelete f' k' => f' = f /\ k' = k
  | MClearFlow f' => f' = f
  end.

Lemma apply_kv_other m x f k : ~ touches f k x -> apply_kv m x !! (f, k) = m !! (f, k).
Proof.
  destruct x as [f' k' e|f' k'|f']; simpl; intros H.
  - rewrite lookup_insert_ne; [done|]. intros [= -> ->]. by apply H.
  - rewrite lookup_delete_ne; [done|]. intros [= -> ->]. by apply H.
  - rewrite map_lookup_filter. destruct (m !! (f, k)) as [row|]; simpl; [|done].
    by rewrite option_guard_True by (simpl; congruence).
Qed.

(** One that does decides the key's row whatever it was. *)
Lemma apply_kv_touched m m' x f k : touches f k x -> apply_kv m x !! (f, k) = apply_kv m' x !! (f, k).
Proof.
  destruct x as [f' k' e|f' k'|f']; simpl.
  - intros [-> ->]. by rewrite !lookup_insert_eq.
  - intros [-> ->]. by rewrite !lookup_delete_eq.
  - intros ->. rewrite !map_lookup_filter. destruct (m !! (f, k)), (m' !! (f, k)); simpl; try done;
      rewrite ?option_guard_False by (simpl; tauto); done.
Qed.

#[export] Instance touches_dec f k x : Decision (touches f k x).
Proof. destruct x; simpl; apply _. Defined.

Lemma replay_cases rs f k :
  (forall m, replay m rs !! (f, k) = m !! (f, k)) \/ (forall m m', replay m rs !! (f, k) = replay m' rs !! (f, k)).
Proof.
  induction rs as [|r rs IH] using rev_ind; [by left|].
  destruct (decide (touches f k (wr_mutation r))) as [Ht|Ht].
  - right. intros m m'. rewrite !replay_app. unfold replay at 1 3. simpl. by apply apply_kv_touched.
  - destruct IH as [IH|IH]; [left|right]; intros; rewrite !replay_app; unfold replay at 1; simpl;
      rewrite (apply_kv_other _ _ _ _ Ht); [done|]. unfold replay at 2. simpl. by rewrite (apply_kv_other _ _ _ _ Ht).
Qed.

Lemma replay_other m rs f k :
  (forall r, r ∈ rs -> ~ touches f k (wr_mutation r)) -> replay m rs !! (f, k) = m !! (f, k).
Proof.
  revert m. induction rs as [|r rs IH]; intros m H; [done|]. unfold replay in *. simpl.
  rewrite IH by (intros; apply H; by right). apply apply_kv_other. apply H. left.
Qed.

(** ** The writer's events *)

Inductive WEvent :=
  | WSend (r : WriteRequest)
  | WDrain (now : N) (failure : option string) (arrived : nat)
  | WTick (failure : option string) (expired : list (string * string)).

Definition wstep (w : Writer text) (ev : WEvent) : Writer text :=
  match ev with
  | WSend r => Build_Writer (w_queue w ++ [r]) (w_current w) (w_durable w) (unsynced w) (w_acks w)
  | WDrain now failure arrived => drain now failure arrived w
  | WTick failure expired => tick_commit failure expired w
  end.

Definition wrun (w : Writer text) (evs : list WEvent) : Writer text := foldl wstep w evs.

Definition fresh_writer (d : Disk text) : Writer text := Build_Writer [] d d 0 [].

(** An event that sends a mutation of a key, or sweeps it. *)
Definition event_touches (f k : string) (ev : WEvent) : Prop :=
  match ev with
  | WSend r => touches f k (wr_mutation r)
  | WTick _ expired => (f, k) ∈ expired
  | WDrain _ _ _ => False
  end.

Definition batch_size (arrived : nat) : nat := Nat.min MAX_BATCH (Nat.max 1 arrived).

(** A turn of the loop on a non-empty batch. *)
Lemma drain_cases now failure arrived w :
  drain now failure arrived w = w \/
  (exists e, failure = Some e /\
     drain now failure arrived w
     = Build_Writer (drop (batch_size arrived) (w_queue w)) (w_current w) (w_durable w) (unsynced w)
         (w_acks w ++ acks_of (take (batch_size arrived) (w_queue w)) (Err (Storage e)))) \/
  (exists any, (any = existsb (fun r => bool_decide (wr_durability r = Durability.Sync))
                        (take (batch_size arrived) (w_queue w))) /\
     let d := commit_batch now (w_current w) (take (batch_size arrived) (w_queue w)) in
     drain now failure arrived w
     = Build_Writer (drop (batch_size arrived) (w_queue w)) d (if any : bool then d else w_durable w)
         (if any then 0 else unsynced w + N.of_nat (length (take (batch_size arrived) (w_queue w))))%N
         (w_acks w ++ acks_of (take (batch_size arrived) (w_queue w)) (Ok tt))).
Proof.
  unfold drain, batch_size. cbv zeta. destruct (take _ (w_queue w)) as [|r batch]; [by left|].
  destruct failure as [e|]; [right; left; eauto|right; right; eauto].
Qed.

Lemma elem_of_acks batch r id x : (id, x) ∈ acks_of batch r -> exists q, q ∈ batch /\ wr_ack q = Some id /\ x = r.
Proof.
  unfold acks_of. rewrite list_elem_of_omap. intros (q & Hq & H). exists q. destruct (wr_ack q); [|done].
  by injection H as -> ->.
Qed.

(** A [Sync] set with its oneshot. *)
Definition tracked_set (f k : string) (e : Versioned) (id : N) : WriteRequest :=
  {| wr_mutation := MSet f k e; wr_durability := Durability.Sync; wr_ack := Some id |}.

(** The life of one acknowledged set of a key nothing else reaches: it waits in the
    queue with no acknowledgement, or it is on disk, durably once acknowledged. *)
Definition tracked (f k : string) (e : Versioned) (id : N) (w : Writer text) : Prop :=
  (exists before after,
     w_queue w = before ++ tracked_set f k e id :: after
     /\ (forall r, r ∈ after -> ~ touches f k (wr_mutation r)) /\ (forall r, r ∈ before ++ after -> wr_ack r <> Some id)
     /\ forall x, (id, x) ∉ w_acks w)
  \/ ((forall r, r ∈ w_queue w -> ~ touches f k (wr_mutation r) /\ wr_ack r <> Some id)
      /\ ((exists x, (id, Err x) ∈ w_acks w) /\ (id, Ok tt) ∉ w_acks w
          \/ flow_kv (w_current w) !! (f, k) = Some (to_text e) /\ flow_kv (w_durable w) !! (f, k) = Some (to_text e))).

Lemma take_split {A} n (l : list A) : l = take n l ++ drop n l.
Proof. by rewrite take_drop. Qed.

Lemma commit_deletes_other (d : Disk text) ks f k : (f, k) ∉ ks -> flow_kv (commit_deletes d ks) !! (f, k) = flow_kv d !! (f, k).
Proof.
  revert d. induction ks as [|x ks IH]; intros d H; [done|]. unfold commit_deletes in *. simpl.
  rewrite not_elem_of_cons in H. rewrite IH by tauto. simpl. rewrite lookup_delete_ne; [done|].
  destruct H as [H _]. congruence.
Qed.

Definition carries (id : N) (ev : WEvent) : Prop :=
  match ev with WSend r => wr_ack r = Some id | _ => False end.

Lemma acks_fresh id acks batch x y :
  (forall z, (id, z) ∉ acks) -> (forall r, r ∈ batch -> wr_ack r <> Some id) ->
  (id, x) ∉ acks ++ acks_of batch y.
Proof.
  intros Ha Hb [?|(q & Hq & ? & _)%elem_of_acks]%elem_of_app; [by eapply Ha|by eapply Hb].
Qed.

(** A batch that stops before the tracked set leaves it waiting. *)
Lemma drain_before f k e id w now failure arrived before after :
  w_queue w = before ++ tracked_set f k e id :: after ->
  (forall r, r ∈ after -> ~ touches f k (wr_mutation r)) ->
  (forall r, r ∈ before ++ after -> wr_ack r <> Some id) ->
  (forall x, (id, x) ∉ w_acks w) -> batch_size arrived <= length before ->
  tracked f k e id (drain now failure arrived w).
Proof.
  intros Hq Ha Hid Hack Hn. destruct (drain_cases now failure arrived w) as [->|Hd]; [left; eauto 10|].
  set (n := batch_size arrived) in *. left. exists (drop n before), after.
  assert (forall r, r ∈ take n (w_queue w) -> wr_ack r <> Some id) as Hb.
  { intros r Hr. apply Hid. rewrite Hq, take_app_le in Hr by lia. apply elem_of_app. left. by eapply elem_of_take_in. }
  assert (drop n (w_queue w) = drop n before ++ tracked_set f k e id :: after) as Hdrop
    by (by rewrite Hq, drop_app_le by lia).
  assert (forall r, r ∈ drop n before ++ after -> wr_ack r <> Some id) as Hid'.
  { intros r [Hr|Hr]%elem_of_app; apply Hid, elem_of_app; [left|by right].
    rewrite (take_split n before). apply elem_of_app. by right. }
  destruct Hd as [(x & _ & ->)|(any & _ & ->)]; simpl; split_and!; try done; intros; by apply acks_fresh.
Qed.

(** One that reaches it fails it, or commits it durably. *)
Lemma drain_reaches f k e id w now failure arrived before after :
  w_queue w = before ++ tracked_set f k e id :: after ->
  (forall r, r ∈ after -> ~ touches f k (wr_mutation r)) ->
  (forall r, r ∈ before ++ after -> wr_ack r <> Some id) ->
  (forall x, (id, x) ∉ w_acks w) -> length before < batch_size arrived ->
  tracked f k e id (drain now failure arrived w).
Proof.
  intros Hq Ha Hid Hack Hn. destruct (drain_cases now failure arrived w) as [->|Hd]; [left; eauto 10|].
  set (n := batch_size arrived) in *. right.
  assert (exists j, n = length before + S j) as [j Hj] by (exists (n - length before - 1); lia).
  assert (take n (w_queue w) = before ++ tracked_set f k e id :: take j after
          /\ drop n (w_queue w) = drop j after) as [Htake Hdrop].
  { rewrite Hq, Hj, take_app_ge, drop_app_ge by lia.
    by replace (length before + S j - length before) with (S j) by lia. }
  assert (forall r, r ∈ drop j after -> ~ touches f k (wr_mutation r) /\ wr_ack r <> Some id) as Hrest.
  { intros r Hr. assert (r ∈ after) by (rewrite (take_split j after); apply elem_of_app; by right).
    split; [by apply Ha|]. apply Hid, elem_of_app. by right. }
  destruct Hd as [(x & _ & ->)|(any & Hany & ->)]; simpl; rewrite ?Hdrop; (split; [done|]).
  - left. split.
    + exists (Storage x). apply elem_of_app. right. unfold acks_of. apply list_elem_of_omap.
      exists (tracked_set f k e id). split; [|done]. rewrite Htake. apply elem_of_app. right. left.
    + intros [?|(q & _ & _ & ?)%elem_of_acks]%elem_of_app; [by eapply Hack|done].
  - right. assert (any = true) as ->.
    { rewrite Hany, Htake. apply existsb_exists. exists (tracked_set f k e id). split; [|done].
      apply list_elem_of_In, elem_of_app. right. left. }
    assert (forall m, replay m (before ++ tracked_set f k e id :: take j after) !! (f, k) = Some (to_text e)) as Hr.
    { intros m. rewrite replay_app. change (tracked_set f k e id :: take j after)
        with ([tracked_set f k e id] ++ take j after). rewrite replay_app, replay_other.
      - apply lookup_insert_eq.
      - intros r Hr. apply Ha. by eapply elem_of_take_in. }
    by rewrite kv_commit_batch, Htake, Hr.
Qed.

(** Once it is decided, nothing more reaches it. *)
Lemma drain_after f k e id w now failure arrived :
  (forall r, r ∈ w_queue w -> ~ touches f k (wr_mutation r) /\ wr_ack r <> Some id) ->
  ((exists x, (id, Err x) ∈ w_acks w) /\ (id, Ok tt) ∉ w_acks w
   \/ flow_kv (w_current w) !! (f, k) = Some (to_text e) /\ flow_kv (w_durable w) !! (f, k) = Some (to_text e)) ->
  tracked f k e id (drain now failure arrived w).
Proof.
  intros Hq Hd2. destruct (drain_cases now failure arrived w) as [->|Hd]; [by right|].
  set (n := batch_size arrived) in *. right.
  assert (forall r, r ∈ take n (w_queue w) -> ~ touches f k (wr_mutation r) /\ wr_ack r <> Some id) as Hb.
  { intros r Hr. apply Hq. by eapply elem_of_take_in. }
  assert (forall r, r ∈ drop n (w_queue w) -> ~ touches f k (wr_mutation r) /\ wr_ack r <> Some id) as Hr.
  { intros r Hr. apply Hq. rewrite (take_split n (w_queue w)). apply elem_of_app. by right. }
  assert (forall y, (exists x, (id, Err x) ∈ w_acks w) /\ (id, Ok tt) ∉ w_acks w ->
    (exists x, (id, Err x) ∈ w_acks w ++ acks_of (take n (w_queue w)) y)
    /\ (id, Ok tt) ∉ w_acks w ++ acks_of (take n (w_queue w)) y) as Hmono.
  { intros y [[x Hx] Hnok]. split; [exists x; apply elem_of_app; by left|].
    intros [?|(q & Hq' & ? & _)%elem_of_acks]%elem_of_app; [done|]. by destruct (Hb q Hq'). }
  destruct Hd as [(x & _ & ->)|(any & _ & ->)]; simpl; (split; [done|]).
  - destruct Hd2 as [H|H]; [left; by apply Hmono|by right].
  - destruct Hd2 as [H|[Hc Hdur]]; [left; by apply Hmono|right].
    assert (flow_kv (commit_batch now (w_current w) (take n (w_queue w))) !! (f, k) = Some (to_text e)) as Hnew.
    { rewrite kv_commit_batch, replay_other; [done|]. intros r ?. by apply Hb. }
    split; [done|]. by destruct any.
Qed.

Lemma tracked_step f k e id w ev :
  ~ event_touches f k ev -> ~ carries id ev -> tracked f k e id w -> tracked f k e id (wstep w ev).
Proof.
  intros Ht Hc Hw. destruct ev as [r|now failure arrived|failure expired]; simpl in *.
  - destruct Hw as [(before & after & Hq & Ha & Hid & Hack)|[Hq Hd]].
    + left. exists before, (after ++ [r]). rewrite Hq, <- app_assoc. simpl. split_and!; try done.
      * intros r' [Hr| ->%list_elem_of_singleton]%elem_of_app; [by apply Ha|done].
      * intros r'. rewrite app_assoc. intros [Hr| ->%list_elem_of_singleton]%elem_of_app; [by apply Hid|done].
    + right. split; [|done]. intros r' [Hr| ->%list_elem_of_singleton]%elem_of_app; [by apply Hq|done].
  - destruct Hw as [(before & after & Hq & Ha & Hid & Hack)|[Hq Hd]]; [|by apply drain_after].
    destruct (decide (batch_size arrived <= length before)).
    + by eapply drain_before.
    + eapply drain_reaches; eauto. lia.
  - unfold tick_commit. case_match; [done|]. destruct failure; [done|].
    destruct Hw as [Hw|[Hq Hd]]; [by left|right]. split; [done|]. simpl.
    destruct Hd as [Hd|[Hcur Hdur]]; [by left|right]. by rewrite !commit_deletes_other.
Qed.

Lemma tracked_run f k e id evs : forall w,
  (forall ev, ev ∈ evs -> ~ event_touches f k ev /\ ~ carries id ev) ->
  tracked f k e id w -> tracked f k e id (wrun w evs).
Proof.
  induction evs as [|ev evs IH]; intros w H Hw; [done|]. simpl. apply IH; [intros; apply H; by right|].
  destruct (H ev) as [??]; [left|]. by apply tracked_step.
Qed.

(** Acknowledgements name requests that were sent. *)
Lemma wrun_fresh id evs : forall w,
  (forall ev, ev ∈ evs -> ~ carries id ev) ->
  (forall r, r ∈ w_queue w -> wr_ack r <> Some id) -> (forall x, (id, x) ∉ w_acks w) ->
  (forall r, r ∈ w_queue (wrun w evs) -> wr_ack r <> Some id) /\ (forall x, (id, x) ∉ w_acks (wrun w evs)).
Proof.
  induction evs as [|ev evs IH]; intros w H Hq Ha; [done|]. simpl.
  apply IH; [by intros; apply H; right|..]; specialize (H ev ltac:(left)); destruct ev as [r|now failure arrived|failure expired]; simpl in *.
  - intros r' [Hr| ->%list_elem_of_singleton]%elem_of_app; [by apply Hq|done].
  - destruct (drain_cases now failure arrived w) as [->|[(x & _ & ->)|(any & _ & ->)]]; [done|..]; simpl; intros r Hr;
      apply Hq; rewrite (take_split (batch_size arrived) (w_queue w)); apply elem_of_app; by right.
  - unfold tick_commit. case_match; [done|]. by destruct failure.
  - done.
  - destruct (drain_cases now failure arrived w) as [->|[(x & _ & ->)|(any & _ & ->)]]; [done|..]; simpl; intros y;
      (apply acks_fresh; [done|]); intros r Hr; apply Hq; by eapply elem_of_take_in.
  - unfold tick_commit. case_match; [done|]. by destruct failure.
Qed.

(** ** Recovery *)

(** Every row was written by the shard. *)
Definition disk_ok (d : Disk text) : Prop :=
  forall key row, flow_kv d !! key = Some row -> exists e : Versioned, row = to_text e.

(** The live record a row stands for. *)
Definition row_view (now : N) (row : text) : option Versioned :=
  match from_text row with Ok e => live_entry now e | Err _ => None end.

Definition disk_view (now : N) (d : Disk text) (f k : string) : option Versioned :=
  flow_kv d !! (f, k) ≫= row_view now.

Lemma recover_rows_spec now rows : forall m0,
  NoDup rows.*1 -> (forall kv, kv ∈ rows -> exists e : Versioned, kv.2 = to_text e) ->
  (forall f k, (f, k) ∈ rows.*1 -> lookup_entry m0 f k = None) ->
  exists m, recover_rows now rows m0 = Ok m /\
    forall f k, lookup_entry m f k
      = match lookup_entry m0 f k with
        | Some e => Some e
        | None => (list_to_map rows : gmap (string * string) text) !! (f, k) ≫= row_view now
        end.
Proof.
  induction rows as [|[[f0 k0] row] rows IH]; intros m0 Hnd Hok Hm0.
  { exists m0. split; [done|]. intros f k. simpl. rewrite lookup_empty. by destruct (lookup_entry m0 f k). }
  rewrite fmap_cons in Hnd. apply NoDup_cons in Hnd as [Hni Hnd].
  destruct (Hok (f0, k0, row) ltac:(left)) as [e He]. simpl in He. subst row. simpl. rewrite from_to_text.
  assert (lookup_entry m0 f0 k0 = None) as H0 by (apply Hm0; rewrite fmap_cons; left).
  set (m1 := if is_live e now then memory (mem_insert (Build_Shard m0 0 None default_shard_config : Shard text) 0 f0 k0 e) else m0).
  assert (forall f k, lookup_entry m1 f k = if decide (f = f0 /\ k = k0) then live_entry now e else lookup_entry m0 f k) as Hm1.
  { intros f k. unfold m1, live_entry. destruct (is_live e now); [apply lookup_entry_insert|].
    destruct (decide (f = f0 /\ k = k0)) as [[-> ->]|]; done. }
  set (m2 := if is_live e now then <[f0 := {| fm_keys := <[k0 := e]> (fm_keys (default default_flow (m0 !! f0)));
               last_touch := last_touch (default default_flow (m0 !! f0));
               touch_seq := touch_seq (default default_flow (m0 !! f0)) |}]> m0 else m0).
  assert (forall f k, lookup_entry m2 f k = lookup_entry m1 f k) as Hm2.
  { intros f k. unfold m1, m2, lookup_entry, mem_insert. destruct (is_live e now); [|done]. simpl.
    destruct (decide (f = f0)) as [->|]; [by rewrite !lookup_insert_eq|by rewrite !lookup_insert_ne]. }
  destruct (IH m2) as (m & Hm & Hview); [done|by intros; apply Hok; right| |].
  { intros f k Hfk. rewrite Hm2, Hm1. rewrite decide_False; [|by intros [-> ->]].
    apply Hm0. rewrite fmap_cons. by right. }
  exists m. split; [by unfold m2 in Hm; destruct (is_live e now)|].
  intros f k. rewrite Hview, Hm2, Hm1. destruct (decide (f = f0 /\ k = k0)) as [[-> ->]|Hne].
  - rewrite H0, lookup_insert_eq. simpl. unfold row_view. rewrite from_to_text.
    destruct (live_entry now e); [done|]. by rewrite not_elem_of_list_to_map_1.
  - rewrite (lookup_insert_ne (M := gmap (string * string))); [done|]. intros [= -> ->]. by apply Hne.
Qed.

(** Restoring the touches keeps every flow's keys and gives distinct stamps. *)
Definition stamped_from (m acc : gmap string FlowMem) (seq : N) : Prop :=
  (forall id g, acc !! id = Some g -> (touch_seq g < seq)%N /\ exists f, m !! id = Some f /\ fm_keys g = fm_keys f)
  /\ (forall id id' g g', acc !! id = Some g -> acc !! id' = Some g' -> touch_seq g = touch_seq g' -> id = id').

Lemma restore_fold now (meta : gmap string text) m l : forall acc,
  (forall id f, (id, f) ∈ l -> m !! id = Some f /\ acc.1 !! id = None) -> NoDup l.*1 ->
  stamped_from m acc.1 acc.2 ->
  let acc' := foldl (restore_touch now meta) acc l in
  stamped_from m acc'.1 acc'.2 /\ forall id, is_Some (acc'.1 !! id) <-> is_Some (acc.1 !! id) \/ id ∈ l.*1.
Proof.
  induction l as [|[id f] l IH]; intros acc Hin Hnd Hst; simpl.
  { split; [done|]. intros id. rewrite elem_of_nil. tauto. }
  rewrite fmap_cons in Hnd. apply NoDup_cons in Hnd as [Hni Hnd].
  destruct (Hin id f ltac:(left)) as [Hid Hnone].
  destruct (IH (restore_touch now meta acc (id, f))) as [Hst' Hdom]; [|done| |].
  - intros i g Hg. destruct (Hin i g ltac:(by right)) as [? ?]. split; [done|]. simpl.
    rewrite lookup_insert_ne; [done|]. intros ->. apply Hni. apply list_elem_of_fmap. by exists (i, g).
  - destruct Hst as [Hs Hd]. split; simpl.
    + intros i g. rewrite lookup_insert_Some. intros [[<- <-]|[_ Hg]]; simpl; [split; [lia|eauto]|].
      destruct (Hs _ _ Hg) as [? ?]. split; [lia|done].
    + intros i i' g g'. rewrite !lookup_insert_Some.
      intros [[<- <-]|[Hn Hg]] [[<- <-]|[Hn' Hg']]; simpl; intros E; [done|..|by eapply Hd].
      * destruct (Hs _ _ Hg'). lia.
      * destruct (Hs _ _ Hg). lia.
  - split; [done|]. intros i. rewrite Hdom. simpl. rewrite elem_of_cons.
    destruct (decide (id = i)) as [->|Hne]; [rewrite lookup_insert_eq|rewrite lookup_insert_ne by done]; naive_solver.
Qed.

Lemma restore_touches_spec now (meta : gmap string text) seq m :
  let m' := (restore_touches now meta seq m).1 in
  touches_distinct m' /\ (forall f, is_Some (m' !! f) <-> is_Some (m !! f))
  /\ forall f k, lookup_entry m' f k = lookup_entry m f k.
Proof.
  unfold restore_touches. destruct (restore_fold now meta m (map_to_list m) (∅, seq)) as [[Hs Hd] Hdom].
  - intros id f Hin%elem_of_map_to_list. simpl. by rewrite lookup_empty.
  - apply NoDup_fst_map_to_list.
  - split; simpl; intros *; by rewrite lookup_empty.
  - set (m' := (foldl _ _ _).1) in *. clearbody m'. simpl in Hdom.
    assert (forall id, is_Some (m' !! id) <-> is_Some (m !! id)) as Hiff.
    { intros id. rewrite Hdom, lookup_empty, list_elem_of_fmap. split.
      - intros [[? ?]|([i f] & -> & Hin%elem_of_map_to_list)]; [done|]. by exists f.
      - intros [f Hf]. right. exists (id, f). split; [done|]. by apply elem_of_map_to_list. }
    split_and!.
    + intros id id' f f' H H' _ E. by eapply Hd.
    + done.
    + intros f k. unfold lookup_entry. destruct (m' !! f) as [g|] eqn:Hg.
      * destruct (Hs _ _ Hg) as (_ & f0 & -> & Hk). simpl. by rewrite Hk.
      * destruct (m !! f) eqn:Hf; [|done]. destruct (proj2 (Hiff f)); [by rewrite Hf|]. congruence.
Qed.

(** Opening a file of the shard's own rows succeeds; each live record is there, unless its
    whole flow was shed by the cap, which is then full. *)
Lemma recover_spec now config seq (d : Disk text) :
  disk_ok d ->
  exists m seq', recover now config seq d = Ok (m, seq') /\ size m <= max_flows config /\
    forall f k, lookup_entry m f k = disk_view now d f k
                \/ m !! f = None /\ size m = max_flows config.
Proof.
  intros Hok. unfold recover.
  destruct (recover_rows_spec now (kv_rows (flow_kv d)) ∅) as (m & -> & Hm).
  - unfold kv_rows. rewrite merge_sort_Permutation. apply NoDup_fst_map_to_list.
  - intros [key row] Hin. unfold kv_rows in Hin. rewrite merge_sort_Permutation in Hin.
    apply elem_of_map_to_list in Hin. by eapply Hok.
  - intros f k _. unfold lookup_entry. by rewrite lookup_empty.
  - cbn [mbind result_bind]. destruct (restore_touches_spec now (flow_meta d) seq m) as (Hdist & _ & Hview).
    set (m' := (restore_touches now (flow_meta d) seq m).1) in *. eexists _, _. split; [done|].
    rewrite shed_evict by done. split; [rewrite size_evict; lia|]. intros f k.
    assert (lookup_entry m' f k = disk_view now d f k) as Heq.
    { rewrite Hview, Hm. unfold disk_view, lookup_entry at 1. rewrite lookup_empty. simpl. f_equal.
      rewrite <- (list_to_map_to_list (flow_kv d)) at 2. f_equal. apply list_to_map_proper.
      - unfold kv_rows. rewrite merge_sort_Permutation. apply NoDup_fst_map_to_list.
      - apply merge_sort_Permutation. }
    destruct (evict (max_flows config) m' !! f) as [g|] eqn:Hg.
    + left. rewrite <- Heq. unfold lookup_entry. rewrite Hg.
      by rewrite (lookup_weaken _ _ _ _ Hg (evict_subset _ _)).
    + destruct (m' !! f) as [g|] eqn:Hf.
      * right. split; [done|]. rewrite size_evict.
        destruct (decide (size m' <= max_flows config)) as [Hle|]; [|lia].
        by rewrite evict_under, Hf in Hg by done.
      * left. rewrite <- Heq. unfold lookup_entry. by rewrite Hg, Hf.
Qed.

(** ** A crash *)

Lemma disk_ok_step (w : Writer text) ev :
  disk_ok (w_current w) /\ disk_ok (w_durable w) -> disk_ok (w_current (wstep w ev)) /\ disk_ok (w_durable (wstep w ev)).
Proof.
  assert (forall now d r, disk_ok d -> disk_ok (commit_one now d r)) as Hone.
  { intros now d r Hd key row. destruct r as [f k e|f k|f]; simpl.
    - rewrite lookup_insert_Some. intros [[_ <-]|[_ H]]; [by exists e|by eapply Hd].
    - rewrite lookup_delete_Some. intros [_ H]. by eapply Hd.
    - rewrite map_lookup_filter_Some. intros [H _]. by eapply Hd. }
  assert (forall now d batch, disk_ok d -> disk_ok (commit_batch now d batch)) as Hbatch.
  { intros now d batch. unfold commit_batch. revert d. induction batch; intros d Hd; simpl; auto. }
  assert (forall d ks, disk_ok d -> disk_ok (commit_deletes d ks)) as Hdel.
  { intros d ks. unfold commit_deletes. revert d. induction ks as [|key ks IH]; intros d Hd; simpl; [done|].
    apply IH. intros x row. simpl. rewrite lookup_delete_Some. intros [_ H]. by eapply Hd. }
  intros [Hc Hd]. destruct ev as [r|now failure arrived|failure expired]; simpl; [done| |].
  - destruct (drain_cases now failure arrived w) as [->|[(x & _ & ->)|(any & _ & ->)]]; simpl; [done|done|].
    split; [by apply Hbatch|]. destruct any; [by apply Hbatch|done].
  - unfold tick_commit. case_match; [done|]. destruct failure; [done|]. simpl. split; by apply Hdel.
Qed.

Lemma disk_ok_run evs : forall w : Writer text,
  disk_ok (w_current w) /\ disk_ok (w_durable w) ->
  disk_ok (w_current (wrun w evs)) /\ disk_ok (w_durable (wrun w evs)).
Proof. induction evs as [|ev evs IH]; intros w H; [done|]. simpl. apply IH. by apply disk_ok_step. Qed.


(** ** Reopening *)

(** Recovery creates a flow for a live key only. *)
Lemma recover_rows_flows now rows : forall m0 m f,
  recover_rows now rows m0 = Ok m -> is_Some (m !! f) ->
  is_Some (m0 !! f) \/ exists k e, (f, k, e) ∈ rows /\ is_Some (row_view now e).
Proof.
  induction rows as [|[[f0 k0] row] rows IH]; intros m0 m f; simpl; [by intros [= <-]; left|].
  destruct (from_text row) as [e|] eqn:He; [|done]. intros Hm Hf.
  assert (is_Some (m0 !! f) \/ f = f0 /\ is_live e now = true \/ exists k x, (f, k, x) ∈ rows /\ is_Some (row_view now x))
    as [?|[[-> Hl]|(k & x & ? & ?)]].
  { destruct (is_live e now) eqn:Hl; destruct (IH _ _ _ Hm Hf) as [Hi|?]; auto.
    destruct (decide (f = f0)) as [->|Hne]; [auto|]. rewrite lookup_insert_ne in Hi by done. auto. }
  - by left.
  - right. exists k0, row. split; [left|]. unfold row_view, live_entry. rewrite He, Hl. eauto.
  - right. exists k, x. split; [by right|done].
Qed.

(** When the live flows fit under the cap, recovery serves exactly the live rows. *)
Lemma recover_exact now config seq (d : Disk text) (flows : gset string) :
  disk_ok d -> (forall f k, is_Some (disk_view now d f k) -> f ∈ flows) -> size flows <= max_flows config ->
  exists m seq', recover now config seq d = Ok (m, seq') /\ forall f k, lookup_entry m f k = disk_view now d f k.
Proof.
  intros Hok Hflows Hcap. destruct (recover_spec now config seq d Hok) as (m & seq' & Hr & _ & Hview).
  exists m, seq'. split; [done|]. intros f k. destruct (Hview f k) as [|[Hnone Hfull]]; [done|].
  destruct (disk_view now d f k) as [e|] eqn:He; [|unfold lookup_entry; by rewrite Hnone].
  exfalso. assert (dom m ⊆ flows ∖ {[f]}) as Hsub.
  { intros f' Hf'%elem_of_dom. apply elem_of_difference.
    split; [|intros ->%elem_of_singleton; rewrite Hnone in Hf'; by destruct Hf'].
    unfold recover in Hr. destruct (recover_rows now (kv_rows (flow_kv d)) ∅) as [m0|] eqn:H0; [|done].
    cbn [mbind result_bind] in Hr. injection Hr as <- _.
    destruct (restore_touches_spec now (flow_meta d) seq m0) as (Hd & Hiff & _).
    rewrite shed_evict in Hf' by done. destruct Hf' as [g Hg].
    pose proof (lookup_weaken _ _ _ _ Hg (evict_subset _ _)) as Hg'.
    destruct (recover_rows_flows _ _ _ _ f' H0) as [[? He0]|(k' & x & Hx & Hlive)].
    - apply Hiff. by eexists.
    - by rewrite lookup_empty in He0.
    - unfold kv_rows in Hx. rewrite merge_sort_Permutation in Hx. apply elem_of_map_to_list in Hx.
      apply (Hflows f' k'). unfold disk_view. by rewrite Hx. }
  apply subseteq_size in Hsub. rewrite size_dom, size_difference, size_singleton in Hsub.
  - assert (size flows <> 0); [|lia]. intros H0%size_empty_inv. specialize (Hflows f k). rewrite He in Hflows. set_solver.
  - apply singleton_subseteq_l. apply (Hflows f k). by rewrite He.
Qed.

(** What callers and the writer thread do, one after the other. *)
Inductive ShardOp :=
  | OpSet (f k : string) (e : Versioned) (d : Durability.t) (id : N)
  | OpMerge (f k : string) (e : Versioned) (d : Durability.t) (id : N)
  | OpDelete (f k : string) (d : Durability.t) (id : N)
  | OpClear (f : string) (d : Durability.t) (id : N)
  | OpDrain (arrived : nat)
  | OpTick.

Definition persists (o : ShardOp) : Prop :=
  match o with
  | OpSet _ _ _ d _ | OpMerge _ _ _ d _ | OpDelete _ _ d _ | OpClear _ d _ => d <> Durability.DNone
  | OpDrain _ | OpTick => True
  end.

Definition on_writer (f : Writer text -> Writer text) (s : Shard text) : Shard text :=
  Build_Shard (memory s) (next_seq s) (f <$> writer s) (sh_config s).

Definition run_op (s : Shard text) (now : N) (o : ShardOp) : Shard text :=
  match o with
  | OpSet f k e d id => set s now f k e d id
  | OpMerge f k e d id => (merge s now f k e d id).1
  | OpDelete f k d id => shard_delete s now f k d id
  | OpClear f d id => clear_flow s f d id
  | OpDrain arrived => on_writer (drain now None arrived) s
  | OpTick => tick now None s
  end.

Definition run_shard_ops (s : Shard text) (ops : list (N * ShardOp)) : Shard text :=
  foldl (fun s o => run_op s o.1 o.2) s ops.

Definition fresh_shard (config : ShardConfig) : Shard text :=
  Build_Shard ∅ 0 (Some (fresh_writer (Build_Disk ∅ ∅))) config.

(** The file with what is queued for it. *)
Definition pending_kv (w : Writer text) : gmap (string * string) text := replay (flow_kv (w_current w)) (w_queue w).

(** From [now] on, the file with its queue and the mirror serve the same live records. *)
Definition kv_agrees (now : N) (kv : gmap (string * string) text) (m : gmap string FlowMem) : Prop :=
  forall now' f k, (now <= now')%N -> kv !! (f, k) ≫= row_view now' = lookup_entry m f k ≫= live_entry now'.

Definition shard_ok (now : N) (s : Shard text) : Prop :=
  exists w, writer s = Some w /\ kv_agrees now (pending_kv w) (memory s)
    /\ (unsynced w = 0%N -> w_durable w = w_current w)
    /\ disk_ok (w_current w) /\ size (memory s) <= max_flows (sh_config s)
    /\ forall id g, memory s !! id = Some g -> (last_touch g <= now)%N /\ (touch_seq g < next_seq s)%N.

Lemma kv_agrees_later now now' kv m : (now <= now')%N -> kv_agrees now kv m -> kv_agrees now' kv m.
Proof. intros Hle H t f k Ht. apply H. lia. Qed.

(** A send adds to the queue and nothing else. *)
Lemma writer_sends rs : forall (s : Shard text) (w : Writer text), writer s = Some w ->
  writer (foldl send s rs)
  = Some (Build_Writer (w_queue w ++ rs) (w_current w) (w_durable w) (unsynced w) (w_acks w)).
Proof.
  induction rs as [|r rs IH]; intros s w Hw; simpl; [rewrite app_nil_r; by destruct w|].
  erewrite IH; [|unfold send; by rewrite Hw]. simpl. by rewrite <- app_assoc.
Qed.

Lemma seq_send (s : Shard text) r : next_seq (send s r) = next_seq s.
Proof. unfold send. by destruct (writer s). Qed.

Lemma seq_sends rs : forall s : Shard text, next_seq (foldl send s rs) = next_seq s.
Proof. induction rs as [|r rs IH]; intros s; [done|]. simpl. by rewrite IH, seq_send. Qed.

Lemma pending_sends (w : Writer text) rs d u a :
  pending_kv (Build_Writer (w_queue w ++ rs) (w_current w) d u a) = replay (pending_kv w) rs.
Proof. unfold pending_kv. simpl. by rewrite replay_app. Qed.

Lemma request_of_persists x d id :
  d <> Durability.DNone -> exists r, request_of x d id = [r] /\ wr_mutation r = x.
Proof. destruct d; [done|..]; intros _; simpl; eexists; done. Qed.

Lemma replay_one kv r : replay kv [r] = apply_kv kv (wr_mutation r).
Proof. done. Qed.

(** Inserting in the mirror agrees with the set queued for it. *)
Lemma agrees_insert (s : Shard text) now t f k e kv :
  kv_agrees now kv (memory s) -> kv_agrees now (apply_kv kv (MSet f k e)) (memory (mem_insert s t f k e)).
Proof.
  intros Hag now' f' k' Hle. rewrite lookup_entry_insert. destruct (decide (f' = f /\ k' = k)) as [[-> ->]|Hne].
  - simpl. rewrite lookup_insert_eq. simpl. unfold row_view. by rewrite from_to_text.
  - rewrite apply_kv_other; [by apply Hag|]. simpl. naive_solver.
Qed.

Lemma agrees_clears now kv m ids :
  kv_agrees now kv m ->
  kv_agrees now (replay kv (clear_request <$> ids)) (foldl (fun m id => delete id m) m ids).
Proof.
  revert kv m. induction ids as [|id ids IH]; intros kv m Hag; [done|]. csimpl. apply IH.
  intros now' f k Hle. simpl. unfold lookup_entry. destruct (decide (f = id)) as [->|Hne].
  - rewrite lookup_delete_eq. rewrite map_lookup_filter. simpl.
    destruct (kv !! (id, k)); simpl; [|done]. by rewrite option_guard_False by tauto.
  - rewrite lookup_delete_ne by done. change (filter _ kv) with (apply_kv kv (MClearFlow id)).
    rewrite apply_kv_other by (simpl; congruence). by apply Hag.
Qed.

(** The flow just written is the most recently touched, so a cap of at least one never
    sheds it. *)
Lemma written_not_victim (s : Shard text) now f k e :
  0 < max_flows (sh_config s) ->
  (forall id g, memory s !! id = Some g -> (last_touch g <= now)%N /\ (touch_seq g < next_seq s)%N) ->
  f ∉ victims (max_flows (sh_config s)) (memory (mem_insert s now f k e)).
Proof.
  intros Hmax Hst Hv. set (m := memory (mem_insert s now f k e)) in *.
  assert (exists g, m !! f = Some g /\ last_touch g = now /\ touch_seq g = next_seq s) as (g & Hg & Ht & Hs).
  { unfold m, mem_insert. simpl. rewrite lookup_insert_eq. by eexists. }
  assert (evict (max_flows (sh_config s)) m !! f = None) as Hgone.
  { unfold evict. by rewrite lookup_deletes, decide_True. }
  assert (size (evict (max_flows (sh_config s)) m) <> 0) as Hne.
  { rewrite size_evict. assert (size m <> 0); [|lia]. by apply map_size_non_empty_iff; intros H0; rewrite H0 in Hg. }
  apply map_size_non_empty_iff, map_choose in Hne as (id & h & Hh).
  pose proof (evict_order _ _ _ _ _ _ Hg Hgone Hh) as Hle. unfold touched_le in Hle. simpl in Hle.
  assert (id <> f) as Hid by (by intros ->; rewrite Hgone in Hh).
  assert (memory s !! id = Some h) as Hmem.
  { pose proof (lookup_weaken _ _ _ _ Hh (evict_subset _ _)) as H. unfold m, mem_insert in H. simpl in H.
    by rewrite lookup_insert_ne in H. }
  destruct (Hst _ _ Hmem). lia.
Qed.

Lemma stamps_insert (s : Shard text) now now' f k e :
  (now <= now')%N ->
  (forall id g, memory s !! id = Some g -> (last_touch g <= now)%N /\ (touch_seq g < next_seq s)%N) ->
  forall id g, memory (mem_insert s now' f k e) !! id = Some g ->
    (last_touch g <= now')%N /\ (touch_seq g < next_seq s + 1)%N.
Proof.
  intros Hle Hst id g. unfold mem_insert. simpl. rewrite lookup_insert_Some.
  intros [[<- <-]|[_ H]]; simpl; [lia|]. destruct (Hst _ _ H). lia.
Qed.

(** Replaying the clears of flows other than the written one, around the set. *)
Lemma agrees_set (s : Shard text) now now' f k e kv ids :
  kv_agrees now kv (memory s) -> f ∉ ids ->
  kv_agrees now (apply_kv (replay kv (clear_request <$> ids)) (MSet f k e))
            (foldl (fun m id => delete id m) (memory (mem_insert s now' f k e)) ids).
Proof.
  intros Hag Hf t f' k' Ht. unfold lookup_entry. rewrite lookup_deletes.
  destruct (decide (f' = f /\ k' = k)) as [[-> ->]|Hne].
  - rewrite decide_False by done. simpl. rewrite !lookup_insert_eq. simpl. rewrite lookup_insert_eq. simpl.
    unfold row_view. by rewrite from_to_text.
  - rewrite apply_kv_other by (simpl; naive_solver). rewrite (agrees_clears _ _ _ ids Hag t f' k' Ht).
    unfold lookup_entry. rewrite lookup_deletes. case_decide; [done|].
    pose proof (lookup_entry_insert s now' f k e f' k') as Hl. rewrite decide_False in Hl by done.
    unfold lookup_entry in Hl. by rewrite Hl.
Qed.

Lemma set_ok now now' s f k e d id :
  (now <= now')%N -> 0 < max_flows (sh_config s) -> d <> Durability.DNone ->
  shard_ok now s -> shard_ok now' (set s now' f k e d id).
Proof.
  intros Hle Hmax Hd (w & Hw & Hag & Hsync & Hok & Hsz & Hst).
  assert (forall id g, memory s !! id = Some g -> (last_touch g <= now')%N /\ (touch_seq g < next_seq s)%N) as Hst'.
  { intros i g H. destruct (Hst _ _ H). split; [lia|done]. }
  pose proof (written_not_victim s now' f k e Hmax Hst') as Hnv.
  unfold set, submit, evict_if_needed. rewrite <- foldl_app.
  destruct (request_of_persists (MSet f k e) d id Hd) as (r & Hr & Hm). rewrite Hr.
  eexists. split; [by apply writer_sends|].
  rewrite memory_sends, config_sends, pending_sends. simpl. split_and!; try done.
  - rewrite replay_app, replay_one, Hm. eapply kv_agrees_later; [exact Hle|]. by apply agrees_set.
  - rewrite size_evict. lia.
  - intros i g H. rewrite seq_sends. simpl.
    pose proof (lookup_weaken _ _ _ _ H (evict_subset _ _)) as H'. exact (stamps_insert s now now' f k e Hle Hst i g H').
Qed.

Lemma merge_ok now now' s f k e d id :
  (now <= now')%N -> d <> Durability.DNone -> shard_ok now s -> shard_ok now' (merge s now' f k e d id).1.
Proof.
  intros Hle Hd (w & Hw & Hag & Hsync & Hok & Hsz & Hst). unfold merge, merge_locked.
  destruct (refuses s now' f k e).
  { exists w. split_and!; try done; [by eapply kv_agrees_later|]. intros i g H. destruct (Hst _ _ H). split; [lia|done]. }
  destruct (request_of_persists (MSet f k e) d id Hd) as (r & Hr & Hm).
  unfold submit. rewrite Hr. cbv iota. cbn [fst].
  pose proof (writer_sends [r] (mem_insert s now' f k e) w Hw) as Hw1.
  pose proof (memory_sends (mem_insert s now' f k e) [r]) as Hm1.
  pose proof (config_sends (mem_insert s now' f k e) [r]) as Hc1.
  pose proof (seq_sends [r] (mem_insert s now' f k e)) as Hs1.
  set (s1 := foldl send (mem_insert s now' f k e) [r]) in *. clearbody s1. unfold evict_if_needed.
  eexists. split; [by apply writer_sends|].
  rewrite memory_sends, config_sends, pending_sends, pending_sends, replay_one, Hm. simpl.
  rewrite Hm1, Hc1. split_and!; try done.
  - eapply kv_agrees_later; [exact Hle|]. unfold evict. by apply agrees_clears, agrees_insert.
  - rewrite size_evict. simpl. lia.
  - intros i g H. rewrite seq_sends. simpl. rewrite Hs1. simpl.
    pose proof (lookup_weaken _ _ _ _ H (evict_subset _ _)) as H'.
    exact (stamps_insert s now now' f k e Hle Hst i g H').
Qed.

Lemma lookup_entry_delete (s : Shard text) now f k f' k' :
  lookup_entry (memory (mem_delete s now f k)) f' k'
  = if decide (f' = f /\ k' = k) then None else lookup_entry (memory s) f' k'.
Proof.
  unfold mem_delete. destruct (memory s !! f) as [g|] eqn:Hf; cbv zeta.
  - cbn [memory set_memory fm_keys]. destruct (decide (f' = f)) as [->|Hne].
    + unfold lookup_entry. case_decide as He.
      * rewrite lookup_delete_eq, Hf. simpl. destruct (decide (f = f /\ k' = k)) as [|Hk]; [done|].
        symmetry. assert (delete k (fm_keys g) !! k' = None) as H by (by rewrite He, lookup_empty).
        rewrite lookup_delete_ne in H by naive_solver. done.
      * rewrite lookup_insert_eq, Hf. simpl. destruct (decide (k' = k)) as [->|Hk].
        -- rewrite lookup_delete_eq. by rewrite decide_True.
        -- rewrite lookup_delete_ne by done. by rewrite decide_False by naive_solver.
    + rewrite (decide_False (P := f' = f /\ k' = k)) by naive_solver. unfold lookup_entry.
      case_decide; [by rewrite lookup_delete_ne|by rewrite lookup_insert_ne].
  - unfold lookup_entry. destruct (decide (f' = f /\ k' = k)) as [[-> ->]|]; [by rewrite Hf|done].
Qed.

Lemma delete_ok now now' s f k d id :
  (now <= now')%N -> d <> Durability.DNone -> shard_ok now s -> shard_ok now' (shard_delete s now' f k d id).
Proof.
  intros Hle Hd (w & Hw & Hag & Hsync & Hok & Hsz & Hst). unfold shard_delete, submit.
  destruct (request_of_persists (MDelete f k) d id Hd) as (r & Hr & Hm). rewrite Hr.
  assert (writer (mem_delete s now' f k) = Some w /\ sh_config (mem_delete s now' f k) = sh_config s) as [Hw' Hc].
  { unfold mem_delete. by destruct (memory s !! f). }
  eexists. split; [by apply writer_sends|]. rewrite memory_sends, config_sends, pending_sends, replay_one, Hm, Hc. simpl.
  split_and!; try done.
  - eapply kv_agrees_later; [exact Hle|]. intros t f' k' Ht. rewrite lookup_entry_delete.
    destruct (decide (f' = f /\ k' = k)) as [[-> ->]|Hne].
    + by rewrite lookup_delete_eq.
    + change (delete (f, k) (pending_kv w)) with (apply_kv (pending_kv w) (MDelete f k)).
      rewrite apply_kv_other by (simpl; naive_solver). by apply Hag.
  - etrans; [|exact Hsz]. unfold mem_delete. destruct (memory s !! f) as [g|] eqn:Hf; [|done].
    cbn [memory set_memory fm_keys]. case_decide; [|by rewrite map_size_insert_Some].
    apply map_subseteq_size, delete_subseteq.
  - intros i g. rewrite seq_send. unfold mem_delete. destruct (memory s !! f) as [g0|] eqn:Hf;
      cbn [memory set_memory fm_keys next_seq].
    + case_decide as He; [rewrite lookup_delete_Some; intros [_ H]; destruct (Hst _ _ H); lia|].
      rewrite lookup_insert_Some. intros [[<- <-]|[_ H]]; simpl; [lia|]. destruct (Hst _ _ H). lia.
    + intros H. destruct (Hst _ _ H). lia.
Qed.

Lemma clear_ok now now' s f d id :
  (now <= now')%N -> d <> Durability.DNone -> shard_ok now s -> shard_ok now' (clear_flow s f d id).
Proof.
  intros Hle Hd (w & Hw & Hag & Hsync & Hok & Hsz & Hst). unfold clear_flow, submit.
  destruct (request_of_persists (MClearFlow f) d id Hd) as (r & Hr & Hm). rewrite Hr.
  eexists. split; [by apply writer_sends|]. rewrite memory_sends, config_sends, pending_sends, replay_one, Hm. simpl.
  split_and!; try done.
  - eapply kv_agrees_later; [exact Hle|]. exact (agrees_clears now _ _ [f] Hag).
  - etrans; [|exact Hsz]. apply map_subseteq_size, delete_subseteq.
  - intros i g. rewrite seq_send. simpl. rewrite lookup_delete_Some. intros [_ H]. destruct (Hst _ _ H). lia.
Qed.

Lemma disk_ok_commit now (d : Disk text) batch : disk_ok d -> disk_ok (commit_batch now d batch).
Proof.
  unfold commit_batch. revert d.
  induction batch as [|r batch IH]; intros d Hd; simpl; [done|]. apply IH.
  intros key row. destruct (wr_mutation r) as [f k e|f k|f]; simpl.
  - rewrite lookup_insert_Some. intros [[_ <-]|[_ H]]; [by exists e|by eapply Hd].
  - rewrite lookup_delete_Some. intros [_ H]. by eapply Hd.
  - rewrite map_lookup_filter_Some. intros [H _]. by eapply Hd.
Qed.

Lemma drain_ok now now' s arrived :
  (now <= now')%N -> shard_ok now s -> shard_ok now' (on_writer (drain now' None arrived) s).
Proof.
  intros Hle (w & Hw & Hag & Hsync & Hok & Hsz & Hst).
  exists (drain now' None arrived w). split; [unfold on_writer; simpl; by rewrite Hw|]. simpl.
  assert (forall i g, memory s !! i = Some g -> (last_touch g <= now')%N /\ (touch_seq g < next_seq s)%N) as Hst'.
  { intros i g H. destruct (Hst _ _ H). split; [lia|done]. }
  destruct (drain_cases now' None arrived w) as [->|[(x & ? & _)|(any & _ & ->)]]; [|done|].
  - split_and!; try done. by eapply kv_agrees_later.
  - assert (pending_kv (Build_Writer (drop (batch_size arrived) (w_queue w))
        (commit_batch now' (w_current w) (take (batch_size arrived) (w_queue w))) (w_durable w) 0 []) = pending_kv w) as Hp.
    { unfold pending_kv. simpl. by rewrite kv_commit_batch, <- replay_app, take_drop. }
    unfold pending_kv in *. simpl in *. split_and!; try done.
    + rewrite Hp. by eapply kv_agrees_later.
    + destruct any; [done|]. intros H0. assert (length (take (batch_size arrived) (w_queue w)) = 0) as Hl by lia.
      apply nil_length_inv in Hl. rewrite Hl. apply Hsync. lia.
    + by apply disk_ok_commit.
Qed.

Lemma lookup_sweep now m f k : lookup_entry (sweep_memory now m) f k = lookup_entry m f k ≫= live_entry now.
Proof.
  unfold lookup_entry, sweep_memory. rewrite lookup_omap. destruct (m !! f) as [g|]; simpl; [|done].
  unfold sweep_flow. cbv zeta. case_decide as He.
  - destruct (fm_keys g !! k) as [e|] eqn:Hk; simpl; [|done]. unfold live_entry.
    destruct (is_live e now) eqn:Hl; [|done]. exfalso.
    assert (filter (fun ke : string * Versioned => is_live ke.2 now = true) (fm_keys g) !! k = Some e) as H
      by (by apply map_lookup_filter_Some).
    by rewrite He, lookup_empty in H.
  - simpl. rewrite map_lookup_filter. destruct (fm_keys g !! k) as [e|]; simpl; [|done]. unfold live_entry.
    destruct (is_live e now) eqn:Hl; [by rewrite option_guard_True|by rewrite option_guard_False by (simpl; congruence)].
Qed.

Lemma live_later now now' e : (now <= now')%N -> is_live e now = false -> is_live e now' = false.
Proof. unfold is_live. rewrite !orb_false_iff, !N.eqb_neq, !N.ltb_ge. lia. Qed.

Lemma elem_of_swept now m f k : (f, k) ∈ swept_keys now m -> exists e, lookup_entry m f k = Some e /\ is_live e now = false.
Proof.
  unfold swept_keys. rewrite list_elem_of_bind. intros ([f' g] & Hin & Hm%elem_of_map_to_list).
  apply list_elem_of_fmap in Hin as ([k' e] & [= -> ->] & [He Hl]%elem_of_List_filter).
  apply elem_of_map_to_list in He. exists e. unfold lookup_entry. rewrite Hm. simpl. split; [done|].
  by apply negb_true_iff.
Qed.

Lemma commit_deletes_cases (d : Disk text) ks f k :
  flow_kv (commit_deletes d ks) !! (f, k) = flow_kv d !! (f, k)
  \/ (f, k) ∈ ks /\ flow_kv (commit_deletes d ks) !! (f, k) = None.
Proof.
  destruct (decide ((f, k) ∈ ks)) as [Hin|]; [|left; by apply commit_deletes_other]. right. split; [done|].
  revert d Hin. induction ks as [|x ks IH] using rev_ind; intros d Hin; [by apply not_elem_of_nil in Hin|].
  unfold commit_deletes in *. rewrite foldl_app. simpl. destruct (decide (x = (f, k))) as [->|Hne].
  - by rewrite lookup_delete_eq.
  - rewrite lookup_delete_ne by done. apply IH. apply elem_of_app in Hin as [|H%list_elem_of_singleton]; [done|congruence].
Qed.

(** The sweep deletes on disk only records that are expired in the mirror. *)
Lemma agrees_sweep now now' (d : Disk text) queue m :
  (now <= now')%N -> kv_agrees now (replay (flow_kv d) queue) m ->
  kv_agrees now' (replay (flow_kv (commit_deletes d (swept_keys now' m))) queue) (sweep_memory now' m).
Proof.
  intros Hle Hag t f k Ht. rewrite lookup_sweep.
  assert ((lookup_entry m f k ≫= live_entry now') ≫= live_entry t = lookup_entry m f k ≫= live_entry t) as ->.
  { destruct (lookup_entry m f k) as [e|]; simpl; [|done]. unfold live_entry.
    destruct (is_live e now') eqn:Hl; simpl; [done|]. by rewrite (live_later now' t). }
  rewrite <- (Hag t f k) by lia.
  destruct (replay_cases queue f k) as [Hsame|Hconst]; [|by rewrite (Hconst _ (flow_kv d))].
  rewrite !Hsame. destruct (commit_deletes_cases d (swept_keys now' m) f k) as [->|[Hin ->]]; [done|].
  simpl. symmetry. specialize (Hag t f k ltac:(lia)). rewrite Hsame in Hag. rewrite Hag.
  destruct (elem_of_swept _ _ _ _ Hin) as (e & -> & Hl). simpl. unfold live_entry. by rewrite (live_later now' t).
Qed.

Lemma disk_ok_deletes (d : Disk text) ks : disk_ok d -> disk_ok (commit_deletes d ks).
Proof.
  unfold commit_deletes. revert d. induction ks as [|key ks IH]; intros d Hd; simpl; [done|].
  apply IH. intros x row. simpl. rewrite lookup_delete_Some. intros [_ H]. by eapply Hd.
Qed.

Lemma tick_ok now now' s : (now <= now')%N -> shard_ok now s -> shard_ok now' (tick now' None s).
Proof.
  intros Hle (w & Hw & Hag & Hsync & Hok & Hsz & Hst). unfold tick. rewrite Hw.
  assert (size (sweep_memory now' (memory s)) <= max_flows (sh_config s)) as Hsz'.
  { etrans; [|exact Hsz]. rewrite <- !size_dom. apply subseteq_size. apply dom_omap_subseteq. }
  assert (forall i g, sweep_memory now' (memory s) !! i = Some g ->
    (last_touch g <= now')%N /\ (touch_seq g < next_seq s)%N) as Hst'.
  { intros i g. unfold sweep_memory. rewrite lookup_omap_Some. intros (g0 & H0 & Hg0).
    destruct (Hst _ _ Hg0). unfold sweep_flow in H0. cbv zeta in H0. case_decide; [done|].
    injection H0 as <-. simpl. lia. }
  eexists. split; [done|]. simpl. unfold tick_commit.
  pose proof (agrees_sweep now now' (w_current w) (w_queue w) (memory s) Hle Hag) as Hnew.
  destruct ((unsynced w =? 0)%N && match swept_keys now' (memory s) with [] => true | _ => false end) eqn:Hidle.
  - apply andb_true_iff in Hidle as [_ Hnil]. destruct (swept_keys now' (memory s)); [|done]. by split_and!.
  - simpl. split_and!; try done. by apply disk_ok_deletes.
Qed.

Lemma config_run_op (s : Shard text) now o : sh_config (run_op s now o) = sh_config s.
Proof.
  destruct o; simpl; try done.
  - unfold set, submit, evict_if_needed. by rewrite !config_sends.
  - apply config_merge.
  - unfold shard_delete, submit. rewrite config_sends. unfold mem_delete. by case_match.
  - unfold clear_flow, submit. by rewrite config_sends.
  - unfold tick. by case_match.
Qed.

Lemma run_op_ok now now' s o :
  (now <= now')%N -> 0 < max_flows (sh_config s) -> persists o -> shard_ok now s -> shard_ok now' (run_op s now' o).
Proof.
  intros Hle Hmax Hp. destruct o; simpl in *.
  - by apply set_ok.
  - by apply merge_ok.
  - by apply delete_ok.
  - by apply clear_ok.
  - by apply drain_ok.
  - by apply tick_ok.
Qed.

(** Times that do not go back. *)
Fixpoint clock_from (now : N) (ops : list (N * ShardOp)) : Prop :=
  match ops with
  | [] => True
  | (t, _) :: rest => (now <= t)%N /\ clock_from t rest
  end.

Fixpoint clock_end (now : N) (ops : list (N * ShardOp)) : N :=
  match ops with [] => now | (t, _) :: rest => clock_end t rest end.

Lemma run_shard_ops_ok ops : forall now s,
  clock_from now ops -> 0 < max_flows (sh_config s) -> Forall (fun o => persists o.2) ops ->
  shard_ok now s -> shard_ok (clock_end now ops) (run_shard_ops s ops).
Proof.
  induction ops as [|[t o] ops IH]; intros now s Hc Hmax Hp Hs; [done|]. simpl in *. destruct Hc as [Ht Hc].
  apply Forall_cons in Hp as [Ho Hp]. apply IH; [done| |done|].
  - by rewrite config_run_op.
  - by eapply run_op_ok.
Qed.

(** A shard comes back from its file with what it held. From a new file, run any writes,
    merges, deletes and clears (none at durability [None]) under any cap of at least one
    flow, evictions included, with the writer's batches and sweeps anywhere between and a
    clock that does not go back. Once the queue is drained and an fsync has caught up, the
    file a crash leaves opens without error and serves, for every key, exactly the live
    record or deletion record the shard served before. *)
Theorem shard_reopens config ops now seq :
  0 < max_flows config -> Forall (fun o => persists o.2) ops -> clock_from 0 ops -> (clock_end 0 ops <= now)%N ->
  forall w, writer (run_shard_ops (fresh_shard config) ops) = Some w -> w_queue w = [] -> unsynced w = 0%N ->
  exists m seq', recover now config seq (w_durable w) = Ok (m, seq') /\
    forall f k, lookup_entry m f k = get_versioned (run_shard_ops (fresh_shard config) ops) now f k.
Proof.
  intros Hmax Hp Hc Hnow w Hw Hq Hu.
  assert (shard_ok 0 (fresh_shard config)) as H0.
  { exists (fresh_writer (Build_Disk ∅ ∅)). split; [done|]. split; [|split; [done|split; [|split]]].
    - intros t f k _. unfold lookup_entry, pending_kv. simpl. by rewrite !lookup_empty.
    - intros key row. simpl. by rewrite lookup_empty.
    - simpl. rewrite map_size_empty. lia.
    - intros id g. simpl. by rewrite lookup_empty. }
  destruct (run_shard_ops_ok ops 0 (fresh_shard config) Hc Hmax Hp H0) as (w' & Hw' & Hag & Hsync & Hok & Hsz & _).
  rewrite Hw in Hw'. injection Hw' as <-. set (s := run_shard_ops (fresh_shard config) ops) in *.
  assert (sh_config s = config) as Hcfg.
  { unfold s, run_shard_ops. generalize (fresh_shard config) (eq_refl : sh_config (fresh_shard config) = config).
    clear. induction ops as [|o ops IH]; intros s Hs; [done|]. simpl. apply IH. by rewrite config_run_op. }
  assert (forall f k, disk_view now (w_durable w) f k = get_versioned s now f k) as Hview.
  { intros f k. rewrite (Hsync Hu). unfold disk_view, get_versioned. specialize (Hag now f k Hnow).
    unfold pending_kv in Hag. rewrite Hq in Hag. exact Hag. }
  destruct (recover_exact now config seq (w_durable w) (dom (memory s))) as (m & seq' & Hr & Hm).
  - by rewrite (Hsync Hu).
  - intros f k. rewrite Hview. unfold get_versioned, lookup_entry. intros [e He]. apply elem_of_dom.
    by destruct (memory s !! f).
  - rewrite size_dom. by rewrite <- Hcfg.
  - exists m, seq'. split; [done|]. intros f k. by rewrite Hm, Hview.
Qed.

End Kv.

(** ** A concrete file *)

Inductive shard_doc :=
  | SVersioned (e : Versioned)
  | SMeta (m : FlowMeta).

#[local] Instance shard_doc_versioned : Serde shard_doc Versioned := {
  to_text := SVersioned;
  from_text d := match d with SVersioned e => Ok e | _ => Err "not an entry" end;
  from_to_text := fun e => eq_refl;
}.

#[local] Instance shard_doc_meta : Serde shard_doc FlowMeta := {
  to_text := SMeta;
  from_text d := match d with SMeta m => Ok m | _ => Err "not a meta row" end;
  from_to_text := fun m => eq_refl;
}.

#[local] Instance shard_doc_codec : ShardCodec shard_doc := {}.

Definition entry_at (v : N) : Versioned :=
  {| m_idx := 1; ver := v; origin := 1; expires_at := 0; value := JInt (Z.of_N v); deleted := false |}.

Definition small_config (max : nat) : ShardConfig := {| fsync_interval_ms := 50; max_flows := max; ttl_ms := None |}.

Definition flush (now : N) (s : Shard shard_doc) : Shard shard_doc :=
  tick now None (on_writer (drain now None 100) s).

(** What reopening the file as a crash leaves it serves for a key. *)
Definition reopened (now : N) (s : Shard shard_doc) (f k : string) : option Versioned :=
  match writer s with
  | None => None
  | Some w =>
      match recover now (sh_config s) 0 (w_durable w) with
      | Ok (m, _) => lookup_entry m f k
      | Err _ => None
      end
  end.

(** The shard after a crash and a restart with a configuration. *)
Definition restart (now : N) (config : ShardConfig) (s : Shard shard_doc) : Shard shard_doc :=
  match writer s with
  | None => s
  | Some w => match open_shard now config 0 (w_durable w) with Ok s' => s' | Err _ => s end
  end.

Definition demo_pushes : list Push :=
  [{| p_now := 1; p_flow := "a"; p_key := "k"; p_entry := entry_at 2 |};
   {| p_now := 2; p_flow := "a"; p_key := "k"; p_entry := entry_at 1 |}].



Definition demo_shard_ops : list (N * ShardOp) :=
  [(1%N, OpSet "a" "k" (entry_at 1) Durability.Async 0); (2%N, OpMerge "b" "k" (entry_at 3) Durability.Sync 1);
   (3%N, OpDrain 8); (4%N, OpTick)].

Lemma shard_reopens_witness :
  exists m seq',
    recover 5 (small_config 1) 0
      (match writer (run_shard_ops (fresh_shard (small_config 1)) demo_shard_ops) with
       | Some w => w_durable w | None => Build_Disk ∅ ∅ end) = Ok (m, seq')
    /\ lookup_entry m "b" "k" = Some (entry_at 3) /\ lookup_entry m "a" "k" = None.
Proof.
  destruct (shard_reopens (small_config 1) demo_shard_ops 5 0) with
    (w := match writer (run_shard_ops (fresh_shard (text := shard_doc) (small_config 1)) demo_shard_ops) with
          | Some w => w | None => fresh_writer (Build_Disk ∅ ∅) end) as (m & seq' & Hr & Hm).
  - simpl. lia.
  - repeat constructor; done.
  - simpl. lia.
  - simpl. lia.
  - vm_compute. reflexivity.
  - vm_compute. reflexivity.
  - vm_compute. reflexivity.
  - exists m, seq'. split; [exact Hr|]. rewrite !Hm. split; vm_compute; reflexivity.
Defined.

(** ** Where the durable copy parts from the mirror *)

(** Eviction takes a flow out of the mirror under the lock and sends its clear after. A
    write that lands in between is acknowledged as durable, then cleared: the mirror
    serves it until a restart loses it. *)
Lemma evict_race_loses_write :
  let s1 := set (fresh_shard (small_config 1)) 1 "a" "k0" (entry_at 1) Durability.Async 0 in
  let s2 := mem_insert s1 2 "b" "k" (entry_at 1) in
  let shed := victims 1 (memory s2) in
  let s3 := mem_evict s2 in
  let s4 := on_writer (drain 3 None 100) (set s3 3 "a" "k1" (entry_at 2) Durability.Sync 7) in
  let s5 := flush 4 (foldl send s4 (clear_request <$> shed)) in
  (exists w, writer s4 = Some w /\ w_acks w = [(7%N, Ok tt)])
  /\ get s5 5 "a" "k1" = Some (entry_at 2) /\ reopened 5 s5 "a" "k1" = None.
Proof. cbv zeta. split_and!; [eexists; split|..]; vm_compute; reflexivity. Qed.

(** Recovery sheds over-cap flows from the mirror and leaves their rows. A later write to a
    shed flow keeps the rows on disk, and the next restart serves the old key again beside
    the new one. *)
Lemma recovery_resurrects_keys :
  let s1 := flush 1 (set (fresh_shard (small_config 2)) 1 "a" "k1" (entry_at 1) Durability.Sync 0) in
  let s2 := flush 3 (set s1 2 "b" "k" (entry_at 1) Durability.Sync 1) in
  let s3 := restart 4 (small_config 1) s2 in
  let s4 := flush 6 (set s3 5 "a" "k2" (entry_at 2) Durability.Sync 2) in
  get s2 3 "a" "k1" = Some (entry_at 1) /\ get s3 4 "a" "k1" = None /\ get s4 6 "a" "k1" = None
  /\ reopened 7 s4 "a" "k1" = Some (entry_at 1) /\ reopened 7 s4 "a" "k2" = Some (entry_at 2).
Proof. cbv zeta. split_and!; vm_compute; reflexivity. Qed.
