(* ===== verification/Flow.v ===== *)
(** * The distributed flow store: [stores/flow.rs]

    [FlowNet] over one node's shard: the owner's write path (fence, ownership,
    isolation, adoption, then the read-modify-write under the lock), the pushes to the
    flow's other holders, the replica side that merges them, the repair paths, and
    the owner-filtered counts and listings. What the network and the disk answer is
    an argument of a call. The clock is read once per call. *)

From S2P Require Import Prelude Upstream Ring Node Auth Rpc FlowConfig Shard.

(** ** Wire types *)

Inductive WriteOp :=
  | WriteSet (value : FlowValue)
  | WriteDelete
  | WriteIncr (by_ : Z)
  | WriteCas (expected : option FlowValue) (new : FlowValue)
  | WriteSetTtl (ttl_seconds : Z)
  | WriteSetKeyTtl (ttl_seconds : Z)
  | WriteClearFlow.

Record WriteReq := {
  wq_flow_id : string;
  wq_key : string;
  wq_op : WriteOp;
  wq_ttl_seconds : option Z;
  wq_durability : Durability.t;
  wq_m_idx : N;
}.

Inductive WriteReply :=
  | Applied (entry : option Versioned) (incremented : option Z) (existed : option bool)
  | CasConflict (current : option FlowValue)
  | Fenced (owner_m_idx : N)
  | Misrouted (owner : NodeId)
  | WriteError (reason : string).

Inductive ReplicaOp :=
  | ReplicaPut (key : string) (entry : Versioned)
  | ReplicaDelete (key : string)
  | ReplicaClearFlow.

Record ReplicateReq := { rq_flow_id : string; rq_op : ReplicaOp; rq_durability : Durability.t }.

Abbreviation SyncReply := (list (string * list (string * Versioned))).

Record SpaceRow := { sr_space : string; sr_entry_count : N; sr_owner : NodeId }.

(** ** Constants *)

Definition TOMBSTONE_TTL_MS : N := 60000.
Definition REPLICAS : nat := 3.
Definition SYNC_CHUNK : nat := 256.
Definition REPAIR_DURABILITY : Durability.t := Durability.DNone.

Definition ISOLATED_REFUSAL : string := "flow store: owner is isolated from the cluster".
Definition NOT_READY_STARTING : string := "flow store: cluster is still starting".
Definition NOT_READY_SHUT_DOWN : string := "flow store: cluster node has shut down".
Definition NOT_READY_NO_MEMBERSHIP : string := "flow store: no applied membership yet".
Definition NOT_READY_NO_OWNER : string := "flow store: ring has no members".

Definition is_not_ready (reason : string) : bool :=
  bool_decide (reason ∈ [NOT_READY_STARTING; NOT_READY_SHUT_DOWN; NOT_READY_NO_MEMBERSHIP; NOT_READY_NO_OWNER]).

(** ** Machine integers *)

Definition i64_min : Z := -9223372036854775808.
Definition i64_max : Z := 9223372036854775807.

Definition in_i64 (z : Z) : bool := (i64_min <=? z)%Z && (z <=? i64_max)%Z.

(** [i64::checked_add]. *)
Definition checked_add (a b : Z) : option Z := if in_i64 (a + b) then Some (a + b)%Z else None.

(** [Value::as_i64]. *)
Definition as_i64 (v : FlowValue) : option Z :=
  match v with JInt n => if in_i64 n then Some n else None | _ => None end.

(** [u64] addition of one, which wraps in a release build. *)
Definition next_version (v : N) : N := ((v + 1) mod (u64_max + 1))%N.

(** [Duration::from_secs(secs.unsigned_abs())] in milliseconds, clamped to a [u64]. *)
Definition secs_ms (secs : Z) : N := sat_mul (Z.abs_N secs) 1000.

(** ** The node and its ring *)

Definition view (slot : NodeSlot) : result string (NodeId * Ring) :=
  match slot with
  | Unbound => Err NOT_READY_STARTING
  | Dropped => Err NOT_READY_SHUT_DOWN
  | Bound id ring => if ring_is_empty ring then Err NOT_READY_NO_MEMBERSHIP else Ok (id, ring)
  end.

Record FlowNet (text : Type) := { fn_shard : Shard text; adopted : gmap string N }.
Arguments fn_shard {text} _.
Arguments adopted {text} _.
Arguments Build_FlowNet {text} _ _.

(** What a call meets: the node, whether it is isolated at the first check and at the
    one under the lock, the clock, the name of its oneshot, the outcome of a write to
    disk, and what a peer answers to a sync (nothing when it is unreachable or its
    reply does not decode). *)
Record CallEnv := {
  ce_node : NodeSlot;
  ce_isolated : bool;
  ce_isolated_locked : bool;
  ce_now : N;
  ce_ack : N;
  ce_written : result ShardError ();
  ce_sync : NodeId -> list string -> option SyncReply;
}.

(** A push: to whom, and what. *)
Record Pushed := { pu_to : list NodeId; pu_req : ReplicateReq }.

(** [ShardError]'s [Display]. *)
Definition ShardError_display (e : ShardError) : string :=
  match e with
  | Storage detail => "flow shard storage: " +:+ detail
  | Encoding detail => "flow shard encoding: " +:+ detail
  | WriterStopped => "flow shard writer stopped"
  end.

(** What a shard write returns: [None] waits for nothing. *)
Definition settled (durability : Durability.t) (written : result ShardError ()) : result ShardError () :=
  match durability with Durability.DNone => Ok tt | _ => written end.

Section FlowNet.
  Context {text : Type} (xxh64 : bytes -> N -> N).

Definition with_shard (st : FlowNet text) (s : Shard text) : FlowNet text := Build_FlowNet s (adopted st).

(** The other holders of a flow. *)
Definition fellow_holders (id : NodeId) (ring : Ring) (flow_id : string) : list NodeId :=
  List.filter (fun n => negb (n =? id)%N) (owners xxh64 ring (OwnedKey_flow flow_id) REPLICAS).

Definition replicate (id : NodeId) (ring : Ring) (flow_id : string) (op : ReplicaOp)
    (durability : Durability.t) : list Pushed :=
  match fellow_holders id ring flow_id with
  | [] => []
  | successors =>
      [{| pu_to := successors;
          pu_req := {| rq_flow_id := flow_id; rq_op := op; rq_durability := durability |} |}]
  end.

(** ** Merging what peers hold *)

Definition merge_entry (now ack : N) (durability : Durability.t) (s : Shard text)
    (flow_id key : string) (entry : Versioned) : Shard text :=
  (merge s now flow_id key entry durability ack).1.

Definition merge_entries (now ack : N) (flow_id : string) (entries : list (string * Versioned))
    (s : Shard text) : Shard text :=
  foldl (fun s ke => merge_entry now ack REPAIR_DURABILITY s flow_id ke.1 ke.2) s entries.

Definition merge_reply (now ack : N) (reply : SyncReply) (s : Shard text) : Shard text :=
  foldl (fun s fe => merge_entries now ack fe.1 fe.2 s) s reply.

(** Adoption: every fellow holder is asked, and the marker stamped if one answered. *)
Fixpoint pull_holders (env : CallEnv) (flow_id : string) (holders : list NodeId) (s : Shard text)
    (reached : bool) : Shard text * bool :=
  match holders with
  | [] => (s, reached)
  | holder :: rest =>
      match ce_sync env holder [flow_id] with
      | Some reply => pull_holders env flow_id rest (merge_reply (ce_now env) (ce_ack env) reply s) true
      | None => pull_holders env flow_id rest s reached
      end
  end.

Definition ensure_adopted (env : CallEnv) (id : NodeId) (ring : Ring) (flow_id : string)
    (st : FlowNet text) : FlowNet text :=
  if decide (adopted st !! flow_id = Some (Ring.m_idx ring)) then st
  else match fellow_holders id ring flow_id with
  | [] => Build_FlowNet (fn_shard st) (<[flow_id := Ring.m_idx ring]> (adopted st))
  | holders =>
      let '(s, reached) := pull_holders env flow_id holders (fn_shard st) false in
      Build_FlowNet s (if reached : bool then <[flow_id := Ring.m_idx ring]> (adopted st) else adopted st)
  end.

(** ** The owner's write path *)

(** The guards, in order: a view, the fence, ownership, isolation. *)
Definition owner_admit (env : CallEnv) (req : WriteReq) : result WriteReply (NodeId * Ring) :=
  match view (ce_node env) with
  | Err reason => Err (WriteError reason)
  | Ok (id, ring) =>
      if negb (wq_m_idx req =? Ring.m_idx ring)%N then Err (Fenced (Ring.m_idx ring))
      else match owner xxh64 ring (OwnedKey_flow (wq_flow_id req)) with
      | None => Err (WriteError NOT_READY_NO_OWNER)
      | Some o =>
          if negb (o =? id)%N then Err (Misrouted o)
          else if ce_isolated env then Err (WriteError ISOLATED_REFUSAL)
          else Ok (id, ring)
      end
  end.

Definition expiry_of (now : N) (ttl_seconds : option Z) : N := expiry_from now (secs_ms <$> ttl_seconds).

Definition mint (id : NodeId) (ring : Ring) (expiry : N) (prev : option Versioned) (v : FlowValue) : Versioned :=
  {| m_idx := Ring.m_idx ring;
     ver := match prev with Some p => next_version (ver p) | None => 1 end;
     origin := id;
     expires_at := expiry;
     value := v;
     deleted := false |}.

Definition tombstone (now : N) (entry : Versioned) : Versioned :=
  {| m_idx := m_idx entry; ver := ver entry; origin := origin entry;
     expires_at := expiry_from now (Some TOMBSTONE_TTL_MS);
     value := value entry; deleted := true |}.

(** [shard.set], then the push and the reply if it succeeded. *)
Definition set_and_push (env : CallEnv) (id : NodeId) (ring : Ring) (flow_id key : string)
    (durability : Durability.t) (entry : Versioned) (reply : WriteReply) (s : Shard text)
    : Shard text * WriteReply * list Pushed :=
  let s := set s (ce_now env) flow_id key entry durability (ce_ack env) in
  match settled durability (ce_written env) with
  | Err e => (s, WriteError (ShardError_display e), [])
  | Ok _ => (s, reply, replicate id ring flow_id (ReplicaPut key entry) durability)
  end.

Definition clear_and_push (env : CallEnv) (id : NodeId) (ring : Ring) (flow_id : string)
    (durability : Durability.t) (s : Shard text) : Shard text * WriteReply * list Pushed :=
  let s := clear_flow s flow_id durability (ce_ack env) in
  match settled durability (ce_written env) with
  | Err e => (s, WriteError (ShardError_display e), [])
  | Ok _ => (s, Applied None None None, replicate id ring flow_id ReplicaClearFlow durability)
  end.

(** Re-stamp the expiry of the rows, each under the next version; the first write that
    fails ends the loop. *)
Fixpoint rewrite_rows (env : CallEnv) (id : NodeId) (ring : Ring) (flow_id : string)
    (only_key : option string) (expiry : N) (durability : Durability.t)
    (rows : list (string * Versioned)) (s : Shard text) (pushed : list Pushed)
    : Shard text * result ShardError () * list Pushed :=
  match rows with
  | [] => (s, Ok tt, pushed)
  | (key, prev) :: rest =>
      if match only_key with Some k => negb (String.eqb k key) | None => false end
      then rewrite_rows env id ring flow_id only_key expiry durability rest s pushed
      else
        let entry := {| m_idx := Ring.m_idx ring; ver := next_version (ver prev); origin := id;
                        expires_at := expiry; value := value prev; deleted := deleted prev |} in
        let s := set s (ce_now env) flow_id key entry durability (ce_ack env) in
        match settled durability (ce_written env) with
        | Err e => (s, Err e, pushed)
        | Ok _ =>
            rewrite_rows env id ring flow_id only_key expiry durability rest s
              (pushed ++ replicate id ring flow_id (ReplicaPut key entry) durability)
        end
  end.

Definition rewrite_expiries (env : CallEnv) (id : NodeId) (ring : Ring) (flow_id : string)
    (only_key : option string) (ttl_seconds : Z) (durability : Durability.t) (reply : WriteReply)
    (s : Shard text) : Shard text * WriteReply * list Pushed :=
  let expiry := expiry_from (ce_now env) (Some (secs_ms ttl_seconds)) in
  match rewrite_rows env id ring flow_id only_key expiry durability (flow s (ce_now env) flow_id) s [] with
  | (s, Ok _, pushed) => (s, reply, pushed)
  | (s, Err e, pushed) => (s, WriteError (ShardError_display e), pushed)
  end.

Definition not_deleted (prev : option Versioned) : option Versioned :=
  entry ← prev; if deleted entry then None else Some entry.

(** The read-modify-write, as the lock serialises it. *)
Definition apply_op (env : CallEnv) (id : NodeId) (ring : Ring) (req : WriteReq) (s : Shard text)
    : Shard text * WriteReply * list Pushed :=
  let now := ce_now env in
  let flow_id := wq_flow_id req in
  let key := wq_key req in
  let durability := wq_durability req in
  let prev := get_versioned s now flow_id key in
  let mint := mint id ring (expiry_of now (wq_ttl_seconds req)) prev in
  let put := set_and_push env id ring flow_id key durability in
  match wq_op req with
  | WriteSet v => put (mint v) (Applied (Some (mint v)) None None) s
  | WriteDelete => put (tombstone now (mint JNull)) (Applied None None None) s
  | WriteIncr by_ =>
      let current := default 0%Z (entry ← not_deleted prev; as_i64 (value entry)) in
      match checked_add current by_ with
      | None => (s, WriteError ("increment_by overflow: " +:+ pretty current +:+ " + " +:+ pretty by_
                                +:+ " exceeds i64 range"), [])
      | Some new_value => put (mint (JInt new_value)) (Applied None (Some new_value) None) s
      end
  | WriteCas expected new =>
      let current := value <$> not_deleted prev in
      if decide (current = expected) then put (mint new) (Applied (Some (mint new)) None None) s
      else (s, CasConflict current, [])
  | WriteSetTtl ttl_seconds =>
      if (ttl_seconds <=? 0)%Z then clear_and_push env id ring flow_id durability s
      else rewrite_expiries env id ring flow_id None ttl_seconds durability (Applied None None None) s
  | WriteSetKeyTtl ttl_seconds =>
      match get s now flow_id key with
      | None => (s, Applied None None (Some false), [])
      | Some _ =>
          if (ttl_seconds <=? 0)%Z
          then put (tombstone now (mint JNull)) (Applied None None (Some true)) s
          else rewrite_expiries env id ring flow_id (Some key) ttl_seconds durability
                 (Applied None None (Some true)) s
      end
  | WriteClearFlow => clear_and_push env id ring flow_id durability s
  end.

(** What runs under the lock: isolation again, then the operation. *)
Definition owner_apply (env : CallEnv) (id : NodeId) (ring : Ring) (req : WriteReq) (st : FlowNet text)
    : FlowNet text * WriteReply * list Pushed :=
  if ce_isolated_locked env then (st, WriteError ISOLATED_REFUSAL, [])
  else let '(s, reply, pushed) := apply_op env id ring req (fn_shard st) in
       (with_shard st s, reply, pushed).

Definition owner_write (env : CallEnv) (req : WriteReq) (st : FlowNet text)
    : FlowNet text * WriteReply * list Pushed :=
  match owner_admit env req with
  | Err reply => (st, reply, [])
  | Ok (id, ring) => owner_apply env id ring req (ensure_adopted env id ring (wq_flow_id req) st)
  end.

(** ** The replica side and the repair loop *)

Definition apply_replica (now ack : N) (req : ReplicateReq) (st : FlowNet text) : FlowNet text :=
  with_shard st
    match rq_op req with
    | ReplicaPut key entry => merge_entry now ack (rq_durability req) (fn_shard st) (rq_flow_id req) key entry
    | ReplicaDelete key => shard_delete (fn_shard st) now (rq_flow_id req) key (rq_durability req) ack
    | ReplicaClearFlow => clear_flow (fn_shard st) (rq_flow_id req) (rq_durability req) ack
    end.

(** [slice::chunks]. The list shrinks at each chunk, so its length is fuel enough. *)
Fixpoint chunks_go {A} (fuel n : nat) (l : list A) : list (list A) :=
  match fuel, l with
  | S fuel, _ :: _ => take n l :: chunks_go fuel n (drop n l)
  | _, _ => []
  end.

Definition chunks {A} (n : nat) (l : list A) : list (list A) := chunks_go (length l) n l.

(** The flows this node holds and another owns, by owner. *)
Definition group_by_owner (id : NodeId) (ring : Ring) (flows : list string) : gmap NodeId (list string) :=
  foldl (fun groups f =>
    match owner xxh64 ring (OwnedKey_flow f) with
    | Some o => if (o =? id)%N then groups else <[o := default [] (groups !! o) ++ [f]]> groups
    | None => groups
    end) ∅ flows.

Definition pull_chunk (env : CallEnv) (o : NodeId) (s : Shard text) (chunk : list string) : Shard text :=
  match ce_sync env o chunk with
  | Some reply => merge_reply (ce_now env) (ce_ack env) reply s
  | None => s
  end.

Definition anti_entropy_tick (env : CallEnv) (st : FlowNet text) : FlowNet text :=
  match view (ce_node env) with
  | Err _ => st
  | Ok (id, ring) =>
      with_shard st
        (foldl (fun s g => foldl (pull_chunk env g.1) s (chunks SYNC_CHUNK g.2)) (fn_shard st)
               (map_to_list (group_by_owner id ring (flow_ids (fn_shard st)))))
  end.

(** ** Deleted imposters *)

Definition imposter_ports_held (st : FlowNet text) : gset N :=
  list_to_set (omap imposter_port (flow_ids (fn_shard st))).

Definition in_ports (ports : gset N) (flow_id : string) : bool :=
  match imposter_port flow_id with Some p => bool_decide (p ∈ ports) | None => false end.

(** One flow dropped and counted against its port. *)
Definition clear_scope (ack : N) (acc : Shard text * gmap N nat) (flow_id : string)
    : Shard text * gmap N nat :=
  match imposter_port flow_id with
  | None => acc
  | Some p => (clear_flow acc.1 flow_id Durability.Async ack, <[p := S (default O (acc.2 !! p))]> acc.2)
  end.

Definition clear_imposter_scopes (ack : N) (ports : gset N) (st : FlowNet text)
    : FlowNet text * gmap N nat :=
  if decide (ports = ∅) then (st, ∅)
  else
    let '(s, dropped) :=
      foldl (clear_scope ack) (fn_shard st, ∅) (List.filter (in_ports ports) (flow_ids (fn_shard st))) in
    (with_shard st s, dropped).

(** ** Routes and reads *)

Definition get_route (env : CallEnv) (flow_id key : string) (st : FlowNet text)
    : FlowNet text * result RpcError (option Versioned) :=
  match view (ce_node env) with
  | Err reason => (st, Err (Unavailable reason None))
  | Ok (id, ring) =>
      if ce_isolated env then (st, Err (Unavailable ISOLATED_REFUSAL None))
      else let st := ensure_adopted env id ring flow_id st in
           (st, Ok (get (fn_shard st) (ce_now env) flow_id key))
  end.

Definition sync_route (now : N) (flow_ids : list string) (st : FlowNet text) : SyncReply :=
  (fun f => (f, flow (fn_shard st) now f)) <$> flow_ids.

(** ** Counts *)

Definition owned_counts (id : NodeId) (ring : Ring) (now : N) (ports : list N) (s : Shard text) : gmap N N :=
  foldl (fun counts fc =>
    match imposter_port fc.1 with
    | Some p =>
        if bool_decide (p ∈ ports) && bool_decide (owner xxh64 ring (OwnedKey_flow fc.1) = Some id)
        then <[p := (default 0 (counts !! p) + N.of_nat fc.2)%N]> counts
        else counts
    | None => counts
    end) (list_to_map ((fun p => (p, 0%N)) <$> ports)) (entries_by_flow s now).

Definition counts_route (slot : NodeSlot) (now : N) (ports : list N) (m : N) (st : FlowNet text)
    : result RpcError (list (N * N)) :=
  match view slot with
  | Err reason => Err (Handler reason)
  | Ok (id, ring) =>
      if negb (m =? Ring.m_idx ring)%N
      then Err (Handler ("flow/counts: ring diverged (caller m_idx " +:+ pretty m +:+ ", this node "
                         +:+ pretty (Ring.m_idx ring) +:+ ")"))
      else let totals := owned_counts id ring now ports (fn_shard st) in
           Ok ((fun p => (p, default 0%N (totals !! p))) <$> ports)
  end.

Definition merge_peer_counts (totals : gmap N N) (slots : list (N * N)) : gmap N N :=
  foldl (fun totals s =>
    match totals !! s.1 with
    | Some total => <[s.1 := sat_add total s.2]> totals
    | None => totals
    end) totals slots.

(** The fan-out: what each peer answered in the order the answers came, a failed or
    panicked task being [None], and whether the budget ran out. *)
Definition fleet_entry_counts (slot : NodeSlot) (now : N) (ports : list N)
    (answers : list (option (list (N * N)))) (timed_out : bool) (st : FlowNet text) : gmap N N * bool :=
  match ports with
  | [] => (∅, false)
  | _ =>
      match view slot with
      | Err _ => (∅, true)
      | Ok (id, ring) =>
          let totals := owned_counts id ring now ports (fn_shard st) in
          match List.filter (fun n => negb (n =? id)%N) (members ring) with
          | [] => (totals, false)
          | _ => (foldl merge_peer_counts totals (omap (fun a => a) answers),
                  timed_out || existsb (fun a => match a with None => true | Some _ => false end) answers)
          end
      end
  end.

(** ** Listings *)

Definition owned_spaces (entries : list (string * nat)) (prefix : string)
    (owner_of : string -> option NodeId) (me : NodeId) : list (string * N) :=
  omap (fun fc : string * nat =>
    unscoped ← strip_prefix prefix fc.1;
    if decide (owner_of fc.1 = Some me) then Some (unscoped, N.of_nat fc.2) else None) entries.

Definition space_rows (o : NodeId) (rows : list (string * N)) : list SpaceRow :=
  (fun r => {| sr_space := r.1; sr_entry_count := r.2; sr_owner := o |}) <$> rows.

Definition merge_space_rows (local : list (string * N)) (me : NodeId)
    (peers : list (NodeId * option (list (string * N)))) (timed_out : bool) : list SpaceRow * bool :=
  foldl (fun acc p =>
    match p.2 with
    | Some rows => (acc.1 ++ space_rows p.1 rows, acc.2)
    | None => (acc.1, true)
    end) (space_rows me local, timed_out) peers.

Definition shard_spaces (id : NodeId) (ring : Ring) (now : N) (prefix : string) (s : Shard text)
    : list (string * N) :=
  owned_spaces (entries_by_flow s now) prefix (fun scoped => owner xxh64 ring (OwnedKey_flow scoped)) id.

Definition spaces_route (slot : NodeSlot) (now port : N) (prefix : string) (m : N) (st : FlowNet text)
    : result RpcError (list (string * N)) :=
  match view slot with
  | Err reason => Err (Handler reason)
  | Ok (id, ring) =>
      if negb (m =? Ring.m_idx ring)%N
      then Err (Handler ("flow/spaces: ring diverged for port " +:+ pretty port +:+ " (caller m_idx "
                         +:+ pretty m +:+ ", this node " +:+ pretty (Ring.m_idx ring) +:+ ")"))
      else Ok (shard_spaces id ring now prefix (fn_shard st))
  end.

(** Peers that did not answer are listed last, as unknown. *)
Definition fleet_spaces (slot : NodeSlot) (now : N) (prefix : string)
    (answers : list (NodeId * option (list (string * N)))) (timed_out : bool) (st : FlowNet text)
    : list SpaceRow * bool :=
  match view slot with
  | Err _ => ([], true)
  | Ok (me, ring) =>
      let local := shard_spaces me ring now prefix (fn_shard st) in
      match List.filter (fun n => negb (n =? me)%N) (members ring) with
      | [] => merge_space_rows local me [] false
      | peers =>
          let lost := List.filter (fun p => negb (bool_decide (p ∈ answers.*1))) peers in
          merge_space_rows local me (answers ++ ((fun p => (p, None)) <$> lost)) timed_out
      end
  end.

End FlowNet.

(** ** The per-imposter face *)

(** An [anyhow::Error] of this face: unavailability, or a plain fault. *)
Inductive StoreError :=
  | BackendUnavailable (detail : string)
  | StoreFault (text : string).

Definition applied (reply : WriteReply) : result StoreError WriteReply :=
  match reply with
  | Fenced m => Err (BackendUnavailable ("flow write fenced: membership changed under the op (owner at m_idx "
                                         +:+ pretty m +:+ "); retry"))
  | Misrouted o => Err (BackendUnavailable ("flow write misrouted: node " +:+ pretty o +:+ " owns this flow; retry"))
  | WriteError reason =>
      if String.eqb reason ISOLATED_REFUSAL || is_not_ready reason then Err (BackendUnavailable reason)
      else Err (StoreFault ("flow store: " +:+ reason))
  | Applied _ _ _ | CasConflict _ => Ok reply
  end.

Inductive CasOutcome :=
  | CasApplied
  | Conflict (current : option FlowValue).

Definition compare_and_set (reply : WriteReply) : result StoreError CasOutcome :=
  r ← applied reply;
  match r with
  | CasConflict current => Ok (Conflict current)
  | _ => Ok CasApplied
  end.
