(* ===== verification/FlowFacts.v ===== *)
(** * What the flow store promises

    A write is served by one node at most, and refused without effect anywhere else;
    the owner mints versions that replicas converge on; increments add up and a
    compare-and-set has one winner; a fleet listing names a space once; a deleted
    imposter's flows are dropped and no others. *)

From S2P Require Import Prelude Upstream Ring Node Auth Rpc FlowConfig Shard ShardFacts Flow.

(** ** The memory of a write *)

Section Memory.
  Context {text : Type}.
  Implicit Types s : Shard text.

Lemma memory_set s now f k e d a :
  size (memory (mem_insert s now f k e)) <= max_flows (sh_config s) ->
  memory (set s now f k e d a) = memory (mem_insert s now f k e).
Proof.
  intros Hcap. unfold set, submit, evict_if_needed. autorewrite with rift. unfold mem_evict.
  cbn [memory set_memory]. by apply evict_under.
Qed.

Lemma config_set s now f k e d a : sh_config (set s now f k e d a) = sh_config s.
Proof. unfold set, submit, evict_if_needed. by autorewrite with rift. Qed.

Lemma memory_clear s f d a : memory (clear_flow s f d a) = delete f (memory s).
Proof. unfold clear_flow, submit. by autorewrite with rift. Qed.

Lemma config_clear s f d a : sh_config (clear_flow s f d a) = sh_config s.
Proof. unfold clear_flow, submit. by autorewrite with rift. Qed.

Lemma mirrors_memory s s' ps : memory s = memory s' -> mirrors s ps -> mirrors s' ps.
Proof. unfold mirrors. by intros ->. Qed.

(** The mirror after an insert stays within the flows pushed. *)
Lemma mirrors_insert_size s ps p now :
  mirrors s ps -> size (flows_of (ps ++ [p])) <= max_flows (sh_config s) ->
  size (memory (mem_insert s now (p_flow p) (p_key p) (p_entry p))) <= max_flows (sh_config s).
Proof.
  intros [Hdom _] Hcap. etrans; [|exact Hcap]. rewrite <- size_dom. apply subseteq_size.
  unfold mem_insert. cbn [memory set_memory]. rewrite dom_insert_L. unfold flows_of in *. rewrite fmap_app. set_solver.
Qed.

(** A write above what the mirror holds acts as a push that wins. *)
Lemma set_mirrors s ps p d a :
  mirrors s ps -> all_live (ps ++ [p]) -> size (flows_of (ps ++ [p])) <= max_flows (sh_config s) ->
  (forall e, lookup_entry (memory s) (p_flow p) (p_key p) = Some e -> superseded_by e (p_entry p) = true) ->
  mirrors (set s (p_now p) (p_flow p) (p_key p) (p_entry p) d a) (ps ++ [p]).
Proof.
  intros Hm Hl Hcap Hs. eapply mirrors_memory; [|by apply push_mirrors].
  pose proof (mirrors_insert_size _ _ _ (p_now p) Hm Hcap) as Hsz.
  unfold push. rewrite memory_merge, memory_set by done.
  unfold refuses, get_versioned. destruct (lookup_entry _ _ _) as [e|] eqn:E; [|done]. cbn [mbind option_bind].
  unfold live_entry. destruct (is_live e (p_now p)); [|done]. by rewrite (Hs e eq_refl).
Qed.

(** A merge at any durability leaves the memory a push leaves. *)
Lemma merge_mirrors s ps p d a :
  mirrors s ps -> all_live (ps ++ [p]) -> size (flows_of (ps ++ [p])) <= max_flows (sh_config s) ->
  mirrors (merge s (p_now p) (p_flow p) (p_key p) (p_entry p) d a).1 (ps ++ [p]).
Proof.
  intros Hm Hl Hcap. eapply mirrors_memory; [|by apply push_mirrors].
  pose proof (mirrors_insert_size _ _ _ (p_now p) Hm Hcap) as Hsz.
  unfold push. by rewrite !memory_merge.
Qed.

Lemma lookup_set s now f k e d a f' k' :
  size (memory (mem_insert s now f k e)) <= max_flows (sh_config s) ->
  lookup_entry (memory (set s now f k e d a)) f' k'
  = if decide (f' = f /\ k' = k) then Some e else lookup_entry (memory s) f' k'.
Proof. intros H. by rewrite memory_set, lookup_entry_insert. Qed.

End Memory.

#[export] Hint Rewrite @config_set @memory_clear @config_clear : rift.

(** ** Minted versions *)

Lemma next_version_lt v : (v < u64_max)%N -> (v < next_version v)%N.
Proof. unfold next_version. intros H. rewrite N.mod_small by lia. lia. Qed.

Definition bounded (M : N) (ps : list Push) : Prop :=
  forall p, p ∈ ps -> (m_idx (p_entry p) <= M /\ ver (p_entry p) < u64_max)%N.

(** An entry above the winner of its key is above every record pushed for the key. *)
Lemma versions_unique_app ps p :
  versions_unique ps ->
  (forall e, is_winner ps (p_flow p) (p_key p) e -> superseded_by e (p_entry p) = true) ->
  ((exists e, is_winner ps (p_flow p) (p_key p) e) \/
   forall q, q ∈ ps -> p_flow q = p_flow p -> p_key q <> p_key p) ->
  versions_unique (ps ++ [p]).
Proof.
  intros Hu Hs Hw.
  assert (forall q, q ∈ ps -> p_flow q = p_flow p -> p_key q = p_key p ->
            version (p_entry q) <> version (p_entry p)) as Hne.
  { intros q Hq Hf Hk Hv. destruct Hw as [[e He]|Hnone]; [|by eapply Hnone].
    specialize (Hs e He). destruct He as [_ He]. specialize (He q Hq Hf Hk). unfold superseded_by in *. congruence. }
  intros q q' [Hq| ->%list_elem_of_singleton]%elem_of_app [Hq'| ->%list_elem_of_singleton]%elem_of_app Hf Hk Hv;
    [by apply Hu|by destruct (Hne q)|by destruct (Hne q')|done].
Qed.

Section Owner.
  Context {text : Type} (xxh64 : bytes -> N -> N).
  Implicit Types s : Shard text.
  Implicit Types st : FlowNet text.

(** The push a replica receives for an operation of the owner. *)
Definition as_push (now : N) (req : ReplicateReq) : list Push :=
  match rq_op req with
  | ReplicaPut k e => [{| p_now := now; p_flow := rq_flow_id req; p_key := k; p_entry := e |}]
  | _ => []
  end.

Definition as_pushes (now : N) (pushed : list Pushed) : list Push := mjoin ((fun p => as_push now (pu_req p)) <$> pushed).

Lemma as_pushes_app now l l' : as_pushes now (l ++ l') = as_pushes now l ++ as_pushes now l'.
Proof. unfold as_pushes. by rewrite fmap_app, join_app. Qed.

Lemma as_pushes_replicate id ring f k e d now r :
  r ∈ fellow_holders xxh64 id ring f ->
  as_pushes now (replicate xxh64 id ring f (ReplicaPut k e) d)
  = [{| p_now := now; p_flow := f; p_key := k; p_entry := e |}].
Proof. unfold replicate. by destruct (fellow_holders xxh64 id ring f); [intros ?%not_elem_of_nil|]. Qed.

(** What a shard holds is what was pushed, and a version names one push. *)
Definition in_step s (ps : list Push) : Prop := mirrors s ps /\ versions_unique ps.

(** The bounds under which a history is merged: nothing in it expires meanwhile, no
    record is of a later membership or at the last version, and its flows fit. *)
Definition admissible (M : N) (cap : nat) (ps : list Push) : Prop :=
  all_live ps /\ bounded M ps /\ size (flows_of ps) <= cap.

Lemma admissible_app_l M cap ps ps' : admissible M cap (ps ++ ps') -> admissible M cap ps.
Proof.
  intros (Hl & Hb & Hc). split_and!.
  - intros p q Hp Hq. apply Hl; apply elem_of_app; by left.
  - intros p Hp. apply Hb, elem_of_app. by left.
  - etrans; [|exact Hc]. apply subseteq_size. unfold flows_of. rewrite fmap_app. set_solver.
Qed.

(** The next version above what the shard holds of a key. *)
Definition minted_over (M : N) (prev : option Versioned) (e : Versioned) : Prop :=
  m_idx e = M /\ match prev with Some p => ver e = next_version (ver p) | None => True end.

Lemma put_in_step M s ps p d a :
  in_step s ps -> admissible M (max_flows (sh_config s)) (ps ++ [p]) ->
  minted_over M (lookup_entry (memory s) (p_flow p) (p_key p)) (p_entry p) ->
  in_step (set s (p_now p) (p_flow p) (p_key p) (p_entry p) d a) (ps ++ [p]).
Proof.
  intros [Hm Hu] Hadm [Hidx Hver]. pose proof (admissible_app_l _ _ _ _ Hadm) as (_ & Hb & _).
  destruct Hadm as (Hl & _ & Hcap). pose proof (proj2 Hm (p_flow p) (p_key p)) as Hw.
  assert (forall e, lookup_entry (memory s) (p_flow p) (p_key p) = Some e -> superseded_by e (p_entry p) = true) as Hs.
  { intros e E. rewrite E in Hver, Hw. destruct Hw as [(q & Hq & _ & _ & <-) _].
    destruct (Hb q Hq) as [Hqm Hqv]. apply version_ltb_spec. unfold version_lt. simpl.
    rewrite Hidx, Hver. pose proof (next_version_lt _ Hqv). lia. }
  split; [by apply set_mirrors|]. apply versions_unique_app; [done| |].
  - intros e He. destruct (lookup_entry _ _ _) as [e'|] eqn:E.
    + by rewrite (winner_unique _ _ _ _ _ Hu He Hw); apply Hs.
    + destruct He as [(q & Hq & Hqf & Hqk & _) _]. by destruct (Hw q Hq Hqf).
  - destruct (lookup_entry _ _ _) as [e'|] eqn:E; eauto.
Qed.

(** Nothing a mirror of live pushes holds has expired. *)
Lemma mirrors_live s ps now f k :
  mirrors s ps -> (forall p, p ∈ ps -> is_live (p_entry p) now = true) ->
  get_versioned s now f k = lookup_entry (memory s) f k.
Proof.
  intros [_ Hm] Hl. specialize (Hm f k). unfold get_versioned. destruct (lookup_entry _ _ _) as [e|]; [|done].
  destruct Hm as [(p & Hp & _ & _ & <-) _]. simpl. unfold live_entry. by rewrite Hl.
Qed.

Lemma elem_of_flow s now f k e : (k, e) ∈ flow s now f -> lookup_entry (memory s) f k = Some e.
Proof.
  unfold flow, lookup_entry. destruct (memory s !! f) as [m|]; [|by intros ?%not_elem_of_nil].
  rewrite elem_of_List_filter, elem_of_map_to_list. by intros [].
Qed.

Lemma NoDup_flow s now f : NoDup (flow s now f).*1.
Proof.
  unfold flow. destruct (memory s !! f) as [m|]; [|constructor].
  pose proof (NoDup_fst_map_to_list (fm_keys m)) as H. induction (map_to_list (fm_keys m)) as [|[k e] l IH]; [done|].
  simpl in *. apply NoDup_cons in H as [Hk H]. case_match; [|by apply IH]. simpl. apply NoDup_cons. split; [|by apply IH].
  rewrite list_elem_of_fmap. intros ([k' e'] & -> & [Hin _]%elem_of_List_filter). apply Hk.
  apply (list_elem_of_fmap_2 fst _ _ Hin).
Qed.

Lemma rewrite_rows_in_step env id ring f only expiry d r :
  r ∈ fellow_holders xxh64 id ring f -> settled d (ce_written env) = Ok tt ->
  forall rows s acc s' res acc',
  NoDup rows.*1 -> rewrite_rows xxh64 env id ring f only expiry d rows s acc = (s', res, acc') ->
  res = Ok tt /\ sh_config s' = sh_config s /\
  exists l, acc' = acc ++ l /\
    forall h, in_step s h -> (forall k e, (k, e) ∈ rows -> lookup_entry (memory s) f k = Some e) ->
      admissible (Ring.m_idx ring) (max_flows (sh_config s)) (h ++ as_pushes (ce_now env) l) ->
      in_step s' (h ++ as_pushes (ce_now env) l).
Proof.
  intros Hr Hok. induction rows as [|[k e] rows IH]; intros s acc s' res acc' Hnd.
  { intros [= <- <- <-]. split_and!; [done..|]. exists []. rewrite app_nil_r. split; [done|]. intros h. by rewrite app_nil_r. }
  cbn [rewrite_rows]. simpl in Hnd. apply NoDup_cons in Hnd as [Hk Hnd].
  case_match.
  { intros Hrun. destruct (IH _ _ _ _ _ Hnd Hrun) as (-> & Hc & l & -> & Hl). split_and!; [done..|].
    exists l. split; [done|]. intros h Hs Hrows. apply Hl; [done|]. intros. apply Hrows. by right. }
  rewrite Hok. set (entry := {| m_idx := _ |}). intros Hrun.
  destruct (IH _ _ _ _ _ Hnd Hrun) as (-> & Hc & l & -> & Hl). rewrite config_set in Hc, Hl. split_and!; [done..|].
  eexists. split; [symmetry; apply app_assoc|]. intros h Hs Hrows.
  rewrite as_pushes_app, (as_pushes_replicate _ _ _ _ _ _ _ r) by done.
  set (p := {| p_now := ce_now env; p_flow := f; p_key := k; p_entry := entry |}). rewrite app_assoc. intros Hadm.
  pose proof (admissible_app_l _ _ _ _ Hadm) as Hadm1. apply Hl; [| |done].
  - apply (put_in_step (Ring.m_idx ring) s h p); [done..|]. cbn [p_flow p_key p_entry p].
    rewrite (Hrows k e) by left. done.
  - intros k' e' Hin. rewrite lookup_set by (apply (mirrors_insert_size s h p); [apply Hs|apply Hadm1]).
    rewrite decide_False; [apply Hrows; by right|]. intros [_ ->]. apply Hk. apply list_elem_of_fmap. by exists (k, e').
Qed.

Lemma set_and_push_in_step env id ring f k d e reply0 s s' reply pushed h r :
  r ∈ fellow_holders xxh64 id ring f -> settled d (ce_written env) = Ok tt ->
  set_and_push xxh64 env id ring f k d e reply0 s = (s', reply, pushed) ->
  in_step s h -> minted_over (Ring.m_idx ring) (lookup_entry (memory s) f k) e ->
  admissible (Ring.m_idx ring) (max_flows (sh_config s)) (h ++ as_pushes (ce_now env) pushed) ->
  in_step s' (h ++ as_pushes (ce_now env) pushed) /\ sh_config s' = sh_config s.
Proof.
  intros Hr Hok. unfold set_and_push. rewrite Hok. intros [= <- <- <-] Hs Hover.
  rewrite (as_pushes_replicate _ _ _ _ _ _ _ r) by done. intros Hadm. split; [|apply config_set].
  by apply (put_in_step (Ring.m_idx ring) s h {| p_now := ce_now env; p_flow := f; p_key := k; p_entry := e |}).
Qed.

Lemma rewrite_expiries_in_step env id ring f only ttl d reply0 s s' reply pushed h r :
  r ∈ fellow_holders xxh64 id ring f -> settled d (ce_written env) = Ok tt ->
  rewrite_expiries xxh64 env id ring f only ttl d reply0 s = (s', reply, pushed) -> in_step s h ->
  admissible (Ring.m_idx ring) (max_flows (sh_config s)) (h ++ as_pushes (ce_now env) pushed) ->
  in_step s' (h ++ as_pushes (ce_now env) pushed) /\ sh_config s' = sh_config s.
Proof.
  intros Hr Hok. unfold rewrite_expiries. destruct (rewrite_rows _ _ _ _ _ _ _ _ _ _ _) as [[s1 res] acc] eqn:E.
  destruct (rewrite_rows_in_step _ _ _ _ _ _ _ _ Hr Hok _ _ _ _ _ _ (NoDup_flow _ _ _) E) as (-> & Hc & l & -> & Hl).
  intros [= <- <- <-] Hs Hadm. split; [|done]. apply Hl; [done| |done]. intros k e. apply elem_of_flow.
Qed.

(** The operations that drop no flow. *)
Definition keeps_flow (op : WriteOp) : bool :=
  match op with
  | WriteClearFlow => false
  | WriteSetTtl ttl => (0 <? ttl)%Z
  | _ => true
  end.

Lemma apply_op_in_step env id ring req s s' reply pushed h r :
  r ∈ fellow_holders xxh64 id ring (wq_flow_id req) -> settled (wq_durability req) (ce_written env) = Ok tt ->
  keeps_flow (wq_op req) = true -> apply_op xxh64 env id ring req s = (s', reply, pushed) ->
  in_step s h -> (forall p, p ∈ h -> is_live (p_entry p) (ce_now env) = true) ->
  admissible (Ring.m_idx ring) (max_flows (sh_config s)) (h ++ as_pushes (ce_now env) pushed) ->
  in_step s' (h ++ as_pushes (ce_now env) pushed) /\ sh_config s' = sh_config s.
Proof.
  intros Hr Hok Hkeep. unfold apply_op.
  assert (forall s1 s2 : Shard text, s1 = s2 -> forall re, (s1, re, []) = (s', reply, pushed) -> in_step s2 h ->
    in_step s' (h ++ as_pushes (ce_now env) pushed) /\ sh_config s' = sh_config s2) as Hsame.
  { intros s1 s2 -> re [= <- <- <-] Hs. simpl. by rewrite app_nil_r. }
  assert (forall e re, set_and_push xxh64 env id ring (wq_flow_id req) (wq_key req) (wq_durability req) e re s
      = (s', reply, pushed) -> in_step s h -> (forall p, p ∈ h -> is_live (p_entry p) (ce_now env) = true) ->
    minted_over (Ring.m_idx ring) (get_versioned s (ce_now env) (wq_flow_id req) (wq_key req)) e ->
    admissible (Ring.m_idx ring) (max_flows (sh_config s)) (h ++ as_pushes (ce_now env) pushed) ->
    in_step s' (h ++ as_pushes (ce_now env) pushed) /\ sh_config s' = sh_config s) as Hput.
  { intros e re Hrun Hs Hl Hover. rewrite (mirrors_live s h) in Hover by (done || apply Hs).
    by eapply set_and_push_in_step. }
  assert (forall x expiry v, minted_over (Ring.m_idx ring) x (mint id ring expiry x v)) as Hmint.
  { intros x expiry v. split; [done|]. by destruct x. }
  assert (forall x expiry v, minted_over (Ring.m_idx ring) x (tombstone (ce_now env) (mint id ring expiry x v))) as Htomb.
  { intros x expiry v. split; [done|]. by destruct x. }
  destruct (wq_op req) as [v| |n|expected v|ttl|ttl|]; intros Hrun Hs Hl Hadm.
  - eapply Hput; eauto.
  - eapply Hput; eauto.
  - case_match; [eapply Hput; eauto|by eapply Hsame].
  - case_decide; [eapply Hput; eauto|by eapply Hsame].
  - simpl in Hkeep. rewrite (proj2 (Z.leb_gt _ _)) in Hrun by lia. by eapply rewrite_expiries_in_step.
  - case_match; [|by eapply Hsame]. case_match; [eapply Hput; eauto|by eapply rewrite_expiries_in_step].
  - done.
Qed.

Lemma rewrite_rows_config env id ring f only expiry d : forall rows s acc,
  sh_config (rewrite_rows xxh64 env id ring f only expiry d rows s acc).1.1 = sh_config s.
Proof.
  induction rows as [|[k e] rows IH]; intros s acc; [done|]. cbn [rewrite_rows].
  match goal with |- context [if ?b then _ else _] => destruct b end; [by apply IH|].
  destruct (settled d (ce_written env)); [rewrite IH|]; apply config_set.
Qed.

Lemma apply_op_config env id ring req s s' reply pushed :
  apply_op xxh64 env id ring req s = (s', reply, pushed) -> sh_config s' = sh_config s.
Proof.
  assert (forall f k d e re, sh_config (set_and_push xxh64 env id ring f k d e re s).1.1 = sh_config s) as Hput.
  { intros f k d e re. unfold set_and_push. case_match; simpl; by autorewrite with rift. }
  assert (forall f d, sh_config (clear_and_push xxh64 env id ring f d s).1.1 = sh_config s) as Hclear.
  { intros f d. unfold clear_and_push. case_match; simpl; by autorewrite with rift. }
  assert (forall f only ttl d re, sh_config (rewrite_expiries xxh64 env id ring f only ttl d re s).1.1 = sh_config s) as Hrw.
  { intros f only ttl d re. unfold rewrite_expiries.
    pose proof (rewrite_rows_config env id ring f only (expiry_from (ce_now env) (Some (secs_ms ttl))) d
      (flow s (ce_now env) f) s []) as H. repeat case_match; simplify_eq/=; done. }
  intros E. transitivity (sh_config (s', reply, pushed).1.1); [done|]. rewrite <- E. clear E. unfold apply_op.
  repeat case_match; done.
Qed.

(** ** Runs of the owner *)

(** What an operation that drops no flow pushes: entries of this membership, to every
    other holder. *)
Definition own_put (id : NodeId) (ring : Ring) (f : string) (p : Pushed) : Prop :=
  pu_to p = fellow_holders xxh64 id ring f /\ rq_flow_id (pu_req p) = f /\
  exists k e, rq_op (pu_req p) = ReplicaPut k e /\ m_idx e = Ring.m_idx ring.

Lemma replicate_own_put id ring f k e d :
  m_idx e = Ring.m_idx ring -> Forall (own_put id ring f) (replicate xxh64 id ring f (ReplicaPut k e) d).
Proof.
  intros He. unfold replicate. destruct (fellow_holders _ _ _ _) eqn:E; [constructor|].
  apply Forall_singleton. unfold own_put. rewrite E. simpl. eauto 10.
Qed.

Lemma rewrite_rows_own_put env id ring f only expiry d : forall rows s acc,
  Forall (own_put id ring f) acc ->
  Forall (own_put id ring f) (rewrite_rows xxh64 env id ring f only expiry d rows s acc).2.
Proof.
  induction rows as [|[k e] rows IH]; intros s acc Hacc; [done|]. cbn [rewrite_rows].
  match goal with |- context [if ?b then _ else _] => destruct b end; [by apply IH|].
  destruct (settled d (ce_written env)); [|done]. apply IH, Forall_app. split; [done|]. by apply replicate_own_put.
Qed.

Lemma apply_op_own_put env id ring req s :
  keeps_flow (wq_op req) = true ->
  Forall (own_put id ring (wq_flow_id req)) (apply_op xxh64 env id ring req s).2.
Proof.
  intros Hk. unfold apply_op.
  assert (forall e re, m_idx e = Ring.m_idx ring -> Forall (own_put id ring (wq_flow_id req))
    (set_and_push xxh64 env id ring (wq_flow_id req) (wq_key req) (wq_durability req) e re s).2) as Hput.
  { intros e re He. unfold set_and_push. case_match; [by apply replicate_own_put|constructor]. }
  assert (forall only ttl re, Forall (own_put id ring (wq_flow_id req))
    (rewrite_expiries xxh64 env id ring (wq_flow_id req) only ttl (wq_durability req) re s).2) as Hrw.
  { intros only ttl re. unfold rewrite_expiries.
    pose proof (rewrite_rows_own_put env id ring (wq_flow_id req) only
      (expiry_from (ce_now env) (Some (secs_ms ttl))) (wq_durability req)
      (flow s (ce_now env) (wq_flow_id req)) s [] (Forall_nil_2 _)) as H. repeat case_match; simplify_eq/=; done. }
  destruct (wq_op req) as [v| |n|expected v|ttl|ttl|]; simpl in Hk; try done.
  - by apply Hput.
  - by apply Hput.
  - case_match; [by apply Hput|constructor].
  - case_decide; [by apply Hput|constructor].
  - rewrite (proj2 (Z.leb_gt _ _)) by lia. apply Hrw.
  - case_match; [|constructor]. case_match; [by apply Hput|apply Hrw].
Qed.

(** The guards let a call through on the owner alone, of the membership the caller saw,
    and while it is not isolated. *)
Lemma owner_admit_Ok env req id ring :
  owner_admit xxh64 env req = Ok (id, ring) <->
  ce_node env = Bound id ring /\ ring_is_empty ring = false /\ wq_m_idx req = Ring.m_idx ring /\
  owner xxh64 ring (OwnedKey_flow (wq_flow_id req)) = Some id /\ ce_isolated env = false.
Proof.
  unfold owner_admit, view.
  destruct (ce_node env) as [| |id' ring']; [split; [done|by intros []]..|].
  destruct (ring_is_empty ring') eqn:He; [split; [done|intros ([= <- <-] & ? & _); congruence]|].
  destruct (N.eqb_spec (wq_m_idx req) (Ring.m_idx ring')) as [Hm|Hm]; simpl.
  2: { split; [done|]. by intros ([= <- <-] & _ & ? & _). }
  destruct (owner xxh64 ring' _) as [o|] eqn:Ho.
  2: { split; [done|]. intros ([= <- <-] & _ & _ & ? & _). congruence. }
  destruct (N.eqb_spec o id') as [->|Hi]; simpl.
  - destruct (ce_isolated env).
    + split; [done|]. by intros (_ & _ & _ & _ & ?).
    + split; [by intros [= <- <-]|]. by intros ([= <- <-] & _).
  - split; [done|]. intros ([= <- <-] & _ & _ & ? & _). congruence.
Qed.

(** Under an adopted flow a call is refused without effect, or the operation applies. *)
Lemma owner_write_cases env req st st' reply pushed id ring :
  ce_node env = Bound id ring -> adopted st !! wq_flow_id req = Some (Ring.m_idx ring) ->
  owner_write xxh64 env req st = (st', reply, pushed) ->
  (st' = st /\ pushed = []) \/
  (adopted st' = adopted st /\ apply_op xxh64 env id ring req (fn_shard st) = (fn_shard st', reply, pushed)).
Proof.
  intros Hn Ha. unfold owner_write. destruct (owner_admit _ _ _) as [[id' ring']|] eqn:E; [|by intros [= <- <- <-]; left].
  apply owner_admit_Ok in E as (Hn' & _). rewrite Hn in Hn'. injection Hn' as <- <-.
  unfold ensure_adopted. rewrite decide_True by done. unfold owner_apply.
  destruct (ce_isolated_locked env); [by intros [= <- <- <-]; left|]. destruct (apply_op _ _ _ _ _ _) as [[s re] ps].
  intros [= <- <- <-]. by right.
Qed.

Fixpoint serve_all (calls : list (CallEnv * WriteReq)) (st : FlowNet text) : FlowNet text * list Pushed :=
  match calls with
  | [] => (st, [])
  | (env, req) :: rest =>
      let '(st, _, pushed) := owner_write xxh64 env req st in
      let '(st, pushed') := serve_all rest st in
      (st, pushed ++ pushed')
  end.

(** A call in the steady state: on the ring, its flow adopted and replicated at [r], the
    disk writing, and no flow dropped. *)
Definition steady (id : NodeId) (ring : Ring) (r : NodeId) (st : FlowNet text) (c : CallEnv * WriteReq) : Prop :=
  ce_node c.1 = Bound id ring /\ adopted st !! wq_flow_id c.2 = Some (Ring.m_idx ring) /\
  r ∈ fellow_holders xxh64 id ring (wq_flow_id c.2) /\
  settled (wq_durability c.2) (ce_written c.1) = Ok tt /\ keeps_flow (wq_op c.2) = true.

Definition record_of (p : Push) : string * string * Versioned := (p_flow p, p_key p, p_entry p).

Lemma records_as_pushes now now' l : record_of <$> as_pushes now l = record_of <$> as_pushes now' l.
Proof.
  induction l as [|p l IH]; [done|]. rewrite !(as_pushes_app _ [p] l : as_pushes _ (p :: l) = _), !fmap_app, IH. f_equal.
  unfold as_pushes, as_push. simpl. by destruct (rq_op (pu_req p)).
Qed.

Lemma now_as_pushes now l p : p ∈ as_pushes now l -> p_now p = now.
Proof.
  unfold as_pushes. rewrite list_elem_of_join. intros (ps & Hp & (q & -> & _)%list_elem_of_fmap).
  unfold as_push in Hp. destruct (rq_op (pu_req q)); [|by apply not_elem_of_nil in Hp..].
  by apply list_elem_of_singleton in Hp as ->.
Qed.

Lemma serve_all_in_step id ring r : forall calls st st' pushed,
  (forall c, c ∈ calls -> steady id ring r st c) -> serve_all calls st = (st', pushed) ->
  Forall (fun p => exists f, own_put id ring f p /\ r ∈ pu_to p) pushed /\ sh_config (fn_shard st') = sh_config (fn_shard st) /\
  exists ps, record_of <$> ps = record_of <$> as_pushes 0 pushed /\
    (forall p, p ∈ ps -> p_now p ∈ (fun c : CallEnv * WriteReq => ce_now c.1) <$> calls) /\
    forall h, in_step (fn_shard st) h ->
      (forall p c, p ∈ h ++ ps -> c ∈ calls -> is_live (p_entry p) (ce_now c.1) = true) ->
      admissible (Ring.m_idx ring) (max_flows (sh_config (fn_shard st))) (h ++ ps) ->
      in_step (fn_shard st') (h ++ ps).
Proof.
  induction calls as [|[env req] calls IH]; intros st st' pushed Hst.
  { intros [= <- <-]. split_and!; [constructor|done|]. exists []. split_and!; [done|by intros ? ?%not_elem_of_nil|].
    intros h. by rewrite app_nil_r. }
  cbn [serve_all]. destruct (owner_write xxh64 env req st) as [[st1 reply] ps1] eqn:E1.
  destruct (serve_all calls st1) as [st2 ps2] eqn:E2. intros [= <- <-].
  destruct (Hst (env, req)) as (Hn & Ha & Hr & Hok & Hk); [left|]. simpl in *.
  assert (adopted st1 = adopted st) as Had.
  { by destruct (owner_write_cases _ _ _ _ _ _ _ _ Hn Ha E1) as [[-> _]|[? _]]. }
  destruct (IH st1 st2 ps2) as (Hown & Hc & ps & Hps & Hnow & Hrun); [|done|].
  { intros c Hin. destruct (Hst c) as (? & ? & ?); [by right|]. unfold steady. rewrite Had. done. }
  destruct (owner_write_cases _ _ _ _ _ _ _ _ Hn Ha E1) as [[-> ->]|[_ Hop]].
  { split_and!; [done..|]. exists ps. split_and!; [done|intros p Hp; right; by apply Hnow|].
    intros h Hs Hl. apply Hrun; [done|]. intros p c Hp Hin. apply Hl; [done|by right]. }
  pose proof (apply_op_own_put env id ring req (fn_shard st) Hk) as Hown1. rewrite Hop in Hown1. simpl in Hown1.
  split_and!.
  - apply Forall_app. split; [|done]. eapply Forall_impl; [exact Hown1|]. intros p Hp. exists (wq_flow_id req).
    split; [done|]. destruct Hp as [-> _]. done.
  - rewrite Hc. eapply apply_op_config; [done..|exact Hop].
  - exists (as_pushes (ce_now env) ps1 ++ ps). split_and!.
    + by rewrite as_pushes_app, !fmap_app, Hps, (records_as_pushes _ 0).
    + intros p [Hp|Hp]%elem_of_app; [rewrite (now_as_pushes _ _ _ Hp); left|right; by apply Hnow].
    + intros h Hs Hl Hadm. rewrite app_assoc in Hl, Hadm |- *.
      pose proof (admissible_app_l _ _ _ _ Hadm) as Hadm1.
      destruct (apply_op_in_step env id ring req (fn_shard st) (fn_shard st1) reply ps1 h r) as [Hs1 Hc1]; try done.
      { intros p Hp. apply (Hl p (env, req)); [|left]. by repeat (apply elem_of_app; left). }
      apply Hrun; [done| |by rewrite Hc1]. intros p c Hp Hin. apply Hl; [done|by right].
Qed.

(** ** Replicas *)

(** Requests as they reach a replica: when, and the name of the oneshot. *)
Definition receive (arrivals : list (N * N * ReplicateReq)) (st : FlowNet text) : FlowNet text :=
  foldl (fun st x => apply_replica x.1.1 x.1.2 x.2 st) st arrivals.

Definition arrival_pushes (arrivals : list (N * N * ReplicateReq)) : list Push :=
  mjoin ((fun x => as_push x.1.1 x.2) <$> arrivals).

Lemma receive_mirrors : forall arrivals st h,
  (forall req, req ∈ arrivals.*2 -> exists k e, rq_op req = ReplicaPut k e) ->
  mirrors (fn_shard st) h -> all_live (h ++ arrival_pushes arrivals) ->
  size (flows_of (h ++ arrival_pushes arrivals)) <= max_flows (sh_config (fn_shard st)) ->
  mirrors (fn_shard (receive arrivals st)) (h ++ arrival_pushes arrivals).
Proof.
  induction arrivals as [|[[t a] req] arrivals IH]; intros st h Hput Hm Hl Hc; [by rewrite app_nil_r|].
  destruct (Hput req) as (k & e & Hop); [left|].
  set (p := {| p_now := t; p_flow := rq_flow_id req; p_key := k; p_entry := e |}).
  assert (arrival_pushes ((t, a, req) :: arrivals) = [p] ++ arrival_pushes arrivals) as Hap.
  { unfold arrival_pushes. simpl. unfold as_push at 1. by rewrite Hop. }
  rewrite Hap, app_assoc in *. simpl. apply IH; [intros; apply Hput; by right| |done|].
  - unfold apply_replica. rewrite Hop. apply (merge_mirrors _ _ p); [done| |].
    + intros x y Hx Hy. apply Hl; apply elem_of_app; by left.
    + etrans; [|exact Hc]. apply subseteq_size. unfold flows_of. rewrite (fmap_app _ (_ ++ _)). set_solver.
  - unfold apply_replica. rewrite Hop. unfold with_shard, merge_entry. simpl. by rewrite config_merge.
Qed.

(** The records a run pushes. *)
Definition pushed_records (pushed : list Pushed) : list (string * string * Versioned) :=
  record_of <$> as_pushes 0 pushed.

Lemma elem_of_pushed_records pushed f k e :
  (f, k, e) ∈ pushed_records pushed <->
  exists p, p ∈ pushed /\ rq_flow_id (pu_req p) = f /\ rq_op (pu_req p) = ReplicaPut k e.
Proof.
  unfold pushed_records. rewrite list_elem_of_fmap. unfold as_pushes. split.
  - intros (q & Hq & (ps & Hin & (p & -> & Hp)%list_elem_of_fmap)%list_elem_of_join).
    exists p. split; [done|]. unfold as_push in Hin. destruct (rq_op (pu_req p)); [|by apply not_elem_of_nil in Hin..].
    apply list_elem_of_singleton in Hin as ->. unfold record_of in Hq. by simplify_eq/=.
  - intros (p & Hp & <- & Hop). eexists {| p_now := 0; p_flow := _; p_key := k; p_entry := e |}. split; [done|].
    apply list_elem_of_join. eexists. split; [|by apply (list_elem_of_fmap_2 (fun p => as_push 0 (pu_req p)) _ p)].
    unfold as_push. rewrite Hop. by apply list_elem_of_singleton.
Qed.

Lemma elem_of_record_of (ps : list Push) f k e :
  (f, k, e) ∈ record_of <$> ps <-> exists p, p ∈ ps /\ p_flow p = f /\ p_key p = k /\ p_entry p = e.
Proof.
  rewrite list_elem_of_fmap. split.
  - intros (p & Hr & Hp). exists p. unfold record_of in Hr. by simplify_eq.
  - intros (p & Hp & <- & <- & <-). by exists p.
Qed.

Lemma elem_of_arrivals arrivals f k e :
  (f, k, e) ∈ record_of <$> arrival_pushes arrivals <->
  exists req, req ∈ arrivals.*2 /\ rq_flow_id req = f /\ rq_op req = ReplicaPut k e.
Proof.
  rewrite elem_of_record_of. unfold arrival_pushes. split.
  - intros (q & (ps & Hin & ([[t a] req] & -> & Hp)%list_elem_of_fmap)%list_elem_of_join & Hf & Hk & He).
    exists req. split; [by apply (list_elem_of_fmap_2 snd _ (t, a, req))|]. simpl in Hin. unfold as_push in Hin.
    destruct (rq_op req); [|by apply not_elem_of_nil in Hin..]. apply list_elem_of_singleton in Hin as ->. by simplify_eq/=.
  - intros (req & ([[t a] req'] & -> & Hp)%list_elem_of_fmap & <- & Hop).
    eexists {| p_now := t; p_flow := _; p_key := k; p_entry := e |}. split; [|done].
    apply list_elem_of_join. eexists. split; [|by apply (list_elem_of_fmap_2 _ _ _ Hp)].
    simpl. unfold as_push. simpl in Hop. rewrite Hop. by apply list_elem_of_singleton.
Qed.

Definition record_flows (rs : list (string * string * Versioned)) : gset string :=
  list_to_set ((fun x : string * string * Versioned => x.1.1) <$> rs).

Lemma flows_of_records (ps : list Push) : flows_of ps = record_flows (record_of <$> ps).
Proof. unfold flows_of, record_flows. by rewrite <- list_fmap_compose. Qed.

Lemma same_records_flows (ps ps' : list Push) : same_records ps ps' -> flows_of ps = flows_of ps'.
Proof.
  intros H. unfold flows_of. apply set_eq. intros f. rewrite !elem_of_list_to_set, !list_elem_of_fmap. split.
  - intros (p & -> & Hp). destruct (proj1 (H (p_flow p) (p_key p) (p_entry p))) as (q & Hq & Hf & _); eauto.
  - intros (p & -> & Hp). destruct (proj2 (H (p_flow p) (p_key p) (p_entry p))) as (q & Hq & Hf & _); eauto.
Qed.

Lemma now_arrival arrivals p : p ∈ arrival_pushes arrivals -> p_now p ∈ arrivals.*1.*1.
Proof.
  unfold arrival_pushes. rewrite list_elem_of_join. intros (ps & Hp & (x & -> & Hx)%list_elem_of_fmap).
  unfold as_push in Hp. destruct (rq_op x.2); [|by apply not_elem_of_nil in Hp..].
  apply list_elem_of_singleton in Hp as ->. cbn [p_now].
  by apply (list_elem_of_fmap_2 fst), (list_elem_of_fmap_2 fst).
Qed.


End Owner.
