(* ===== verification/FlowSpec.v ===== *)
(** * The flow store as a map of registers

    What a caller of the flow store is promised, as an abstract machine: a map from
    flow and key to a value with its expiry, and one atomic step per operation. The
    owner's write path implements it: versions, tombstones, pushes, the mirror and the
    disk are invisible in its replies. *)

From S2P Require Import Prelude Upstream Ring Node Auth Rpc FlowConfig Shard ShardFacts Flow FlowFacts.

(** ** The abstract machine *)

Record Cell := { c_value : FlowValue; c_expires : N }.

Abbreviation Registers := (gmap (string * string) Cell).

Definition cell_live (now : N) (c : Cell) : bool := (c_expires c =? 0)%N || (now <? c_expires c)%N.

Definition reg_read (now : N) (regs : Registers) (f k : string) : option Cell :=
  c ← regs !! (f, k); if cell_live now c then Some c else None.

Definition reg_clear (regs : Registers) (f : string) : Registers :=
  filter (fun fc : string * string * Cell => fc.1.1 <> f) regs.

(** A new expiry for the live cells of a flow, or for one of its keys. *)
Definition reg_restamp (now : N) (regs : Registers) (f : string) (only : option string) (expiry : N) : Registers :=
  map_imap (fun (fk : string * string) c =>
    Some (if bool_decide (fk.1 = f) && match only with Some k => String.eqb k fk.2 | None => true end && cell_live now c
          then {| c_value := c_value c; c_expires := expiry |} else c)) regs.

Definition reg_step (now : N) (ttl : option Z) (f k : string) (op : WriteOp) (regs : Registers)
    : Registers * WriteReply :=
  let write v := <[(f, k) := {| c_value := v; c_expires := expiry_of now ttl |}]> regs in
  let current := c_value <$> reg_read now regs f k in
  match op with
  | WriteSet v => (write v, Applied None None None)
  | WriteDelete => (delete (f, k) regs, Applied None None None)
  | WriteIncr by_ =>
      let n := default 0%Z (current ≫= as_i64) in
      match checked_add n by_ with
      | Some n' => (write (JInt n'), Applied None (Some n') None)
      | None => (regs, WriteError ("increment_by overflow: " +:+ pretty n +:+ " + " +:+ pretty by_
                                   +:+ " exceeds i64 range"))
      end
  | WriteCas expected new =>
      if decide (current = expected) then (write new, Applied None None None) else (regs, CasConflict current)
  | WriteSetTtl t =>
      (if (t <=? 0)%Z then reg_clear regs f
       else reg_restamp now regs f None (expiry_of now (Some t)), Applied None None None)
  | WriteSetKeyTtl t =>
      match current with
      | None => (regs, Applied None None (Some false))
      | Some _ =>
          (if (t <=? 0)%Z then delete (f, k) regs
           else reg_restamp now regs f (Some k) (expiry_of now (Some t)), Applied None None (Some true))
      end
  | WriteClearFlow => (reg_clear regs f, Applied None None None)
  end.

(** The machine over a run of calls. *)
Fixpoint reg_run (calls : list (CallEnv * WriteReq)) (regs : Registers) : Registers * list WriteReply :=
  match calls with
  | [] => (regs, [])
  | (env, req) :: rest =>
      let '(regs, reply) := reg_step (ce_now env) (wq_ttl_seconds req) (wq_flow_id req) (wq_key req) (wq_op req) regs in
      let '(regs, replies) := reg_run rest regs in
      (regs, reply :: replies)
  end.

(** ** The implementation *)

Section Implements.
  Context {text : Type} (xxh64 : bytes -> N -> N).
  Implicit Types s : Shard text.
  Implicit Types st : FlowNet text.

(** The replies of a run, without the versioned entry a set or a swap echoes. *)
Definition erase_entry (reply : WriteReply) : WriteReply :=
  match reply with
  | Applied _ incremented existed => Applied None incremented existed
  | reply => reply
  end.

Fixpoint owner_run (calls : list (CallEnv * WriteReq)) (st : FlowNet text) : FlowNet text * list WriteReply :=
  match calls with
  | [] => (st, [])
  | (env, req) :: rest =>
      let '(st, reply, _) := owner_write xxh64 env req st in
      let '(st, replies) := owner_run rest st in
      (st, erase_entry reply :: replies)
  end.

(** A call the owner serves: on its ring, in the membership the caller saw, not isolated,
    its flow adopted, the disk writing. *)
Definition serving (id : NodeId) (ring : Ring) (st : FlowNet text) (c : CallEnv * WriteReq) : Prop :=
  ce_node c.1 = Bound id ring /\ ring_is_empty ring = false /\ wq_m_idx c.2 = Ring.m_idx ring /\
  owner xxh64 ring (OwnedKey_flow (wq_flow_id c.2)) = Some id /\ ce_isolated c.1 = false /\
  ce_isolated_locked c.1 = false /\ adopted st !! wq_flow_id c.2 = Some (Ring.m_idx ring) /\
  settled (wq_durability c.2) (ce_written c.1) = Ok tt.

Definition cell_of (e : Versioned) : option Cell :=
  if deleted e then None else Some {| c_value := value e; c_expires := expires_at e |}.

Definition represents s (regs : Registers) : Prop :=
  forall f k, lookup_entry (memory s) f k ≫= cell_of = regs !! (f, k).

(** Room for a flow under the cap. *)
Definition room s (f : string) : Prop := size ({[f]} ∪ dom (memory s)) <= max_flows (sh_config s).

Lemma room_insert s now f k e : room s f -> size (memory (mem_insert s now f k e)) <= max_flows (sh_config s).
Proof.
  unfold room. intros H. rewrite <- size_dom. unfold mem_insert. cbn [memory set_memory]. by rewrite dom_insert_L.
Qed.

Lemma dom_set s now f k e d a : room s f -> dom (memory (set s now f k e d a)) = {[f]} ∪ dom (memory s).
Proof.
  intros H. rewrite memory_set by (by apply room_insert). unfold mem_insert. cbn [memory set_memory].
  by rewrite dom_insert_L.
Qed.

Lemma room_set s now f k e d a : room s f -> room (set s now f k e d a) f.
Proof.
  intros H. unfold room. rewrite dom_set, config_set by done. unfold room in H.
  by rewrite (assoc_L (∪)), (idemp_L (∪)).
Qed.

Lemma represents_set s regs now f k e d a :
  represents s regs -> room s f ->
  represents (set s now f k e d a)
    match cell_of e with Some c => <[(f, k) := c]> regs | None => delete (f, k) regs end.
Proof.
  intros Hr Hroom f' k'. rewrite lookup_set by (by apply room_insert). case_decide as Hk.
  - destruct Hk as [-> ->]. simpl. destruct (cell_of e); [by rewrite lookup_insert_eq|by rewrite lookup_delete_eq].
  - rewrite Hr. destruct (cell_of e); [rewrite lookup_insert_ne|rewrite lookup_delete_ne]; naive_solver.
Qed.

Lemma represents_clear s regs f d a : represents s regs -> represents (clear_flow s f d a) (reg_clear regs f).
Proof.
  intros Hr f' k'. unfold lookup_entry, reg_clear. rewrite memory_clear. destruct (decide (f' = f)) as [->|Hf].
  - rewrite lookup_delete_eq. simpl. symmetry. apply map_lookup_filter_None. right. naive_solver.
  - rewrite lookup_delete_ne by done. specialize (Hr f' k'). unfold lookup_entry in Hr. rewrite Hr.
    destruct (regs !! (f', k')) eqn:E; symmetry; [by apply map_lookup_filter_Some|].
    apply map_lookup_filter_None. by left.
Qed.

(** A read through the shard and a read of the register. *)
Lemma represents_read s regs now f k :
  represents s regs -> not_deleted (get_versioned s now f k) ≫= cell_of = reg_read now regs f k.
Proof.
  intros Hr. unfold reg_read. rewrite <- Hr. unfold get_versioned. destruct (lookup_entry _ _ _) as [e|]; [|done].
  simpl. unfold live_entry, cell_of, is_live. destruct (deleted e) eqn:Hd; simpl.
  - destruct (_ || _); [|done]. simpl. by rewrite Hd.
  - unfold cell_live. simpl. destruct (_ || _); [|done]. simpl. by rewrite Hd; simpl; rewrite Hd.
Qed.

Lemma represents_value s regs now f k :
  represents s regs -> value <$> not_deleted (get_versioned s now f k) = c_value <$> reg_read now regs f k.
Proof.
  intros Hr. rewrite <- (represents_read s) by done. unfold not_deleted.
  destruct (get_versioned s now f k) as [e|]; [|done]. simpl. destruct (deleted e) eqn:Hd; [done|].
  simpl. unfold cell_of. by rewrite Hd.
Qed.

(** ** Expiry rewrites *)

Definition restamp (id : NodeId) (ring : Ring) (expiry : N) (prev : Versioned) : Versioned :=
  {| m_idx := Ring.m_idx ring; ver := next_version (ver prev); origin := id;
     expires_at := expiry; value := value prev; deleted := deleted prev |}.

Definition passes (only : option string) (k : string) : bool :=
  match only with Some k' => String.eqb k' k | None => true end.

Lemma rewrite_rows_spec env id ring f only expiry d :
  settled d (ce_written env) = Ok tt ->
  forall rows s acc, room s f -> NoDup rows.*1 ->
  let out := rewrite_rows xxh64 env id ring f only expiry d rows s acc in
  out.1.2 = Ok tt /\ dom (memory out.1.1) ⊆ {[f]} ∪ dom (memory s) /\
  (forall k e, (k, e) ∈ rows -> passes only k = true ->
     lookup_entry (memory out.1.1) f k = Some (restamp id ring expiry e)) /\
  (forall f' k, f' <> f \/ k ∉ rows.*1 \/ passes only k = false ->
     lookup_entry (memory out.1.1) f' k = lookup_entry (memory s) f' k).
Proof.
  intros Hok. induction rows as [|[k e] rows IH]; intros s acc Hroom Hnd.
  { simpl. split_and!; [done|set_solver|by intros ? ? ?%not_elem_of_nil|done]. }
  simpl in Hnd. apply NoDup_cons in Hnd as [Hk Hnd]. cbn [rewrite_rows].
  replace (match only with Some k0 => negb (k0 =? k)%string | None => false end) with (negb (passes only k))
    by (by destruct only). destruct (passes only k) eqn:Hp; simpl negb; cbv iota.
  - rewrite Hok. fold (restamp id ring expiry e).
    destruct (IH (set s (ce_now env) f k (restamp id ring expiry e) d (ce_ack env))
      (acc ++ replicate xxh64 id ring f (ReplicaPut k (restamp id ring expiry e)) d)) as (H1 & H2 & H3 & H4);
      [by apply room_set|done|]. split_and!; [done| | |].
    + rewrite dom_set in H2 by done. set_solver.
    + intros k' e' [[= -> ->]|Hin]%elem_of_cons Hp'; [|by apply H3].
      rewrite H4 by (by right; left). rewrite lookup_set by (by apply room_insert). by rewrite decide_True.
    + intros f' k' Hor. rewrite fmap_cons, not_elem_of_cons in Hor. simpl in Hor.
      rewrite H4 by (destruct Hor as [?|[[_ ?]|?]]; auto). rewrite lookup_set by (by apply room_insert).
      rewrite decide_False; [done|]. intros [-> ->]. destruct Hor as [?|[[? _]|?]]; congruence.
  - destruct (IH s acc Hroom Hnd) as (H1 & H2 & H3 & H4). split_and!; [done..| |].
    + intros k' e' [[= -> ->]|Hin]%elem_of_cons Hp'; [congruence|by apply H3].
    + intros f' k' Hor. apply H4. rewrite fmap_cons, not_elem_of_cons in Hor. simpl in Hor.
      destruct Hor as [?|[[_ ?]|?]]; auto.
Qed.

Lemma elem_of_flow_iff s now f k e :
  (k, e) ∈ flow s now f <-> lookup_entry (memory s) f k = Some e /\ is_live e now = true.
Proof.
  unfold flow, lookup_entry. destruct (memory s !! f) as [m|]; simpl; [|split; [by intros ?%not_elem_of_nil|by intros []]].
  rewrite elem_of_List_filter, elem_of_map_to_list. done.
Qed.

Lemma rewrite_expiries_spec env id ring f only ttl d reply s regs :
  settled d (ce_written env) = Ok tt -> room s f -> represents s regs ->
  let out := rewrite_expiries xxh64 env id ring f only ttl d reply s in
  out.1.2 = reply /\ dom (memory out.1.1) ⊆ {[f]} ∪ dom (memory s) /\
  represents out.1.1 (reg_restamp (ce_now env) regs f only (expiry_of (ce_now env) (Some ttl))).
Proof.
  intros Hok Hroom Hr. unfold rewrite_expiries, expiry_of. simpl.
  set (expiry := expiry_from (ce_now env) (Some (secs_ms ttl))).
  destruct (rewrite_rows_spec env id ring f only expiry d Hok (flow s (ce_now env) f) s [] Hroom (NoDup_flow _ _ _))
    as (H1 & H2 & H3 & H4).
  destruct (rewrite_rows _ _ _ _ _ _ _ _ _ _ _) as [[s' res] pushed]. simpl in *. subst res. split_and!; [done..|].
  intros f' k. unfold reg_restamp. rewrite map_lookup_imap, <- Hr. simpl.
  destruct (decide (f' = f)) as [->|Hf].
  2: { rewrite H4 by (by left). rewrite bool_decide_eq_false_2 by done. by destruct (_ ≫= _). }
  rewrite bool_decide_eq_true_2 by done. fold (passes only k). destruct (passes only k) eqn:Hp; simpl.
  2: { rewrite H4 by auto. by destruct (_ ≫= _). }
  destruct (lookup_entry (memory s) f k) as [e|] eqn:E; simpl.
  - destruct (is_live e (ce_now env)) eqn:Hl.
    + rewrite (H3 k e) by (done || by apply elem_of_flow_iff). simpl. unfold cell_of. simpl.
      destruct (deleted e); [done|]. simpl. unfold cell_live. simpl. unfold is_live in Hl. by rewrite Hl.
    + rewrite H4, E.
      * simpl. unfold cell_of. destruct (deleted e); [done|]. simpl. unfold cell_live. simpl. unfold is_live in Hl. by rewrite Hl.
      * right. left. intros ([k' e'] & -> & [Hin ?]%elem_of_flow_iff)%list_elem_of_fmap. simpl in *. congruence.
  - rewrite H4, E; [done|]. right. left. intros ([k' e'] & -> & [Hin ?]%elem_of_flow_iff)%list_elem_of_fmap.
    simpl in *. congruence.
Qed.

(** ** One operation *)

Definition implements (out : Shard text * WriteReply * list Pushed) s (f : string) (spec : Registers * WriteReply) : Prop :=
  represents out.1.1 spec.1 /\ erase_entry out.1.2 = spec.2 /\
  dom (memory out.1.1) ⊆ {[f]} ∪ dom (memory s) /\ sh_config out.1.1 = sh_config s.

Lemma put_implements env id ring f k d e reply s regs regs' :
  settled d (ce_written env) = Ok tt -> room s f -> represents s regs ->
  match cell_of e with Some c => <[(f, k) := c]> regs | None => delete (f, k) regs end = regs' ->
  implements (set_and_push xxh64 env id ring f k d e reply s) s f (regs', erase_entry reply).
Proof.
  intros Hok Hroom Hr <-. unfold implements, set_and_push. rewrite Hok. split_and!; simpl.
  - by apply represents_set.
  - done.
  - by rewrite dom_set.
  - apply config_set.
Qed.

Lemma clear_implements env id ring f d s regs :
  settled d (ce_written env) = Ok tt -> represents s regs ->
  implements (clear_and_push xxh64 env id ring f d s) s f (reg_clear regs f, Applied None None None).
Proof.
  intros Hok Hr. unfold implements, clear_and_push. rewrite Hok. split_and!; simpl.
  - by apply represents_clear.
  - done.
  - rewrite memory_clear, dom_delete_L. set_solver.
  - apply config_clear.
Qed.

Lemma rewrite_implements env id ring f only ttl d reply s regs :
  settled d (ce_written env) = Ok tt -> room s f -> represents s regs ->
  implements (rewrite_expiries xxh64 env id ring f only ttl d reply s) s f
    (reg_restamp (ce_now env) regs f only (expiry_of (ce_now env) (Some ttl)), erase_entry reply).
Proof.
  intros Hok Hroom Hr. destruct (rewrite_expiries_spec env id ring f only ttl d reply s regs) as (H1 & H2 & H3); [done..|].
  split_and!; simpl; [done|by rewrite H1|done|].
  unfold rewrite_expiries. pose proof (rewrite_rows_config xxh64 env id ring f only
    (expiry_from (ce_now env) (Some (secs_ms ttl))) d (flow s (ce_now env) f) s []) as H.
  destruct (rewrite_rows _ _ _ _ _ _ _ _ _ _ _) as [[s' [?|?]] ?]; done.
Qed.

Lemma same_implements s f regs reply :
  represents s regs -> erase_entry reply = reply -> implements (s, reply, []) s f (regs, reply).
Proof. intros Hr He. split_and!; simpl; [done|done|set_solver|done]. Qed.

Lemma apply_op_implements env id ring req s regs :
  settled (wq_durability req) (ce_written env) = Ok tt -> room s (wq_flow_id req) -> represents s regs ->
  implements (apply_op xxh64 env id ring req s) s (wq_flow_id req)
    (reg_step (ce_now env) (wq_ttl_seconds req) (wq_flow_id req) (wq_key req) (wq_op req) regs).
Proof.
  intros Hok Hroom Hr. unfold apply_op, reg_step.
  pose proof (represents_value s regs (ce_now env) (wq_flow_id req) (wq_key req) Hr) as Hv.
  destruct (wq_op req) as [v| |n|expected v|ttl|ttl|].
  - by apply put_implements with regs.
  - by apply put_implements with regs.
  - rewrite <- Hv. replace ((value <$> not_deleted _) ≫= as_i64) with
      (entry ← not_deleted (get_versioned s (ce_now env) (wq_flow_id req) (wq_key req)); as_i64 (value entry))
      by (by destruct (not_deleted _)).
    case_match; [by apply put_implements with regs|by apply same_implements].
  - rewrite <- Hv. case_decide; [by apply put_implements with regs|by apply same_implements].
  - case_match; [by apply clear_implements|by apply rewrite_implements].
  - rewrite <- Hv. unfold get. destruct (get_versioned s _ _ _) as [e|]; simpl; [|by apply same_implements].
    destruct (deleted e) eqn:Hd; simpl; [by apply same_implements|].
    case_match; [by apply put_implements with regs|by apply rewrite_implements].
  - by apply clear_implements.
Qed.

(** ** Runs *)

Lemma owner_write_serving id ring st env req :
  serving id ring st (env, req) ->
  owner_write xxh64 env req st
  = let '(s, reply, pushed) := apply_op xxh64 env id ring req (fn_shard st) in (with_shard st s, reply, pushed).
Proof.
  intros (Hn & He & Hm & Ho & Hi & Hi' & Ha & _). simpl in *. unfold owner_write.
  rewrite (proj2 (owner_admit_Ok xxh64 env req id ring)) by done.
  unfold ensure_adopted. rewrite decide_True by done. unfold owner_apply. by rewrite Hi'.
Qed.

(** C4: the owner is a map of atomic registers. Let the owner of some flows serve any
    sequence of calls in the membership it has adopted, of any operations on any keys and
    with any clocks, with room for the flows. Then every reply, the versioned entry it
    echoes aside, is the abstract map's, and what the shard holds represents the map
    after the run: increments add up and fail on overflow without effect, of two swaps
    that expect the same value the second loses unless the first restored it, a delete or
    a clear hides what was there, an expired value reads as absent, and a lifetime moves
    the expiry of live keys only. *)
Theorem owner_implements_registers id ring : forall calls (st st' : FlowNet text) replies regs,
  (forall c, c ∈ calls -> serving id ring st c) -> represents (fn_shard st) regs ->
  size (list_to_set ((fun c : CallEnv * WriteReq => wq_flow_id c.2) <$> calls) ∪ dom (memory (fn_shard st)))
    <= max_flows (sh_config (fn_shard st)) ->
  owner_run calls st = (st', replies) ->
  replies = (reg_run calls regs).2 /\ represents (fn_shard st') (reg_run calls regs).1.
Proof.
  induction calls as [|[env req] calls IH]; intros st st' replies regs Hserve Hr Hroom; [by intros [= <- <-]|].
  cbn [owner_run reg_run]. pose proof (Hserve (env, req) ltac:(left)) as Hs.
  rewrite (owner_write_serving id ring) by done.
  destruct (apply_op_implements env id ring req (fn_shard st) regs) as (Hr1 & Hrep & Hdom & Hcfg);
    [apply Hs| |done|].
  { unfold room. etrans; [|exact Hroom]. apply subseteq_size. simpl. set_solver. }
  destruct (apply_op _ _ _ _ _ _) as [[s reply] pushed]. destruct (reg_step _ _ _ _ _ _) as [regs1 reply1]. simpl in *.
  destruct (owner_run calls (with_shard st s)) as [st2 replies2] eqn:E. intros [= <- <-].
  destruct (IH (with_shard st s) st2 replies2 regs1) as [-> Hfin]; [|done| |done|].
  - intros c Hc. exact (Hserve c ltac:(by right)).
  - simpl. rewrite Hcfg. etrans; [|exact Hroom]. apply subseteq_size. set_solver.
  - rewrite Hrep. by destruct (reg_run calls regs1).
Qed.

End Implements.
