(* ===== verification/FlowFleet.v ===== *)
(** * The flow store across the fleet

    One node at most serves a request; a fleet listing names a space once and under its
    owner; a deleted imposter's flows are dropped and no others. The witnesses of the
    flow store's theorems and a run in which a deleted key comes back are at the end. *)

From S2P Require Import Prelude Upstream Ring Node Auth Rpc FlowConfig Shard ShardFacts Flow FlowFacts FlowSpec.

(** ** Who serves *)

Section Serve.
  Context {text : Type} (xxh64 : bytes -> N -> N).

Definition node_id (env : CallEnv) : option NodeId :=
  match ce_node env with Bound id _ => Some id | _ => None end.

Definition turned_away (reply : WriteReply) : Prop := exists detail, applied reply = Err (BackendUnavailable detail).

Lemma owner_admit_Err env req reply : owner_admit xxh64 env req = Err reply -> turned_away reply.
Proof.
  unfold turned_away, owner_admit, view. repeat case_match; intros; simplify_eq/=; eauto.
Qed.

(** C16: a request has one server. Hand the same request to two different nodes whose
    rings, where they are of the same membership, have the same members: at least one of
    them changes nothing, pushes nothing and answers with a refusal (fenced, misrouted,
    isolated or not ready) that its caller sees as unavailability rather than a fault. *)
Theorem single_writer env env' req (st st' st1 st1' : FlowNet text) reply reply' pushed pushed' :
  (forall id ring id' ring', ce_node env = Bound id ring -> ce_node env' = Bound id' ring' ->
     Ring.m_idx ring = Ring.m_idx ring' -> members ring = members ring') ->
  node_id env <> node_id env' ->
  owner_write xxh64 env req st = (st1, reply, pushed) ->
  owner_write xxh64 env' req st' = (st1', reply', pushed') ->
  (st1 = st /\ pushed = [] /\ turned_away reply) \/ (st1' = st' /\ pushed' = [] /\ turned_away reply').
Proof.
  intros Hrings Hid. unfold owner_write.
  destruct (owner_admit xxh64 env req) as [[id ring]|r] eqn:E.
  2: { intros [= <- <- <-] _. left. split_and!; [done..|]. by eapply owner_admit_Err. }
  destruct (owner_admit xxh64 env' req) as [[id' ring']|r'] eqn:E'.
  2: { intros _ [= <- <- <-]. right. split_and!; [done..|]. by eapply owner_admit_Err. }
  apply owner_admit_Ok in E as (Hn & _ & Hm & Ho & _), E' as (Hn' & _ & Hm' & Ho' & _). exfalso. apply Hid.
  unfold node_id. rewrite Hn, Hn'. f_equal. unfold owner in *. rewrite (Hrings _ _ _ _ Hn Hn') in Ho by congruence.
  congruence.
Qed.

End Serve.

(** ** Listings *)

Section Listings.
  Context {text : Type} (xxh64 : bytes -> N -> N).

Definition peer_rows (p : NodeId * option (list (string * N))) : list SpaceRow :=
  match p.2 with Some rows => space_rows p.1 rows | None => [] end.

Lemma merge_space_rows_spec local me peers timed_out :
  merge_space_rows local me peers timed_out
  = (space_rows me local ++ (peers ≫= peer_rows),
     timed_out || existsb (fun p => match p.2 with None => true | Some _ => false end) peers).
Proof.
  unfold merge_space_rows. generalize (space_rows me local). revert timed_out.
  induction peers as [|[p [rows|]] peers IH]; intros t acc; simpl; [by rewrite app_nil_r, orb_false_r|..].
  - rewrite IH. by rewrite <- app_assoc.
  - rewrite IH. by rewrite orb_true_r.
Qed.

Lemma NoDup_entries_by_flow (s : Shard text) now : NoDup (entries_by_flow s now).*1.
Proof.
  unfold entries_by_flow. rewrite <- list_fmap_compose. apply (NoDup_fst_map_to_list (memory s)).
Qed.

Lemma elem_of_owned_spaces entries prefix owner_of me x n :
  (x, n) ∈ owned_spaces entries prefix owner_of me <->
  exists c, (prefix +:+ x, c) ∈ entries /\ n = N.of_nat c /\ owner_of (prefix +:+ x) = Some me.
Proof.
  unfold owned_spaces. rewrite list_elem_of_omap. split.
  - intros ([f c] & Hin & H). simpl in H. destruct (strip_prefix prefix f) as [u|] eqn:E; [|done]. simpl in H.
    case_decide as Ho; [|done]. simplify_eq. apply strip_prefix_Some in E as ->. eauto.
  - intros (c & Hin & -> & Ho). exists (prefix +:+ x, c). split; [done|]. simpl. rewrite strip_prefix_app. simpl.
    by rewrite decide_True.
Qed.

Lemma NoDup_owned_spaces entries prefix owner_of me :
  NoDup entries.*1 -> NoDup (owned_spaces entries prefix owner_of me).*1.
Proof.
  induction entries as [|[f c] entries IH]; intros Hnd; [constructor|].
  simpl in Hnd. apply NoDup_cons in Hnd as [Hf Hnd]. unfold owned_spaces. simpl.
  destruct (strip_prefix prefix f) as [u|] eqn:E; simpl; [|by apply IH].
  case_decide; [|by apply IH]. simpl. apply NoDup_cons. split; [|by apply IH].
  intros ([x n] & -> & (c' & Hin & _)%elem_of_owned_spaces)%list_elem_of_fmap.
  apply strip_prefix_Some in E as ->. apply Hf. apply (list_elem_of_fmap_2 fst _ _ Hin).
Qed.

(** One node's share: distinct spaces, all of them its own. *)
Definition share_ok (owner_of : string -> option NodeId) (prefix : string) (sh : NodeId * list (string * N)) : Prop :=
  NoDup sh.2.*1 /\ forall x, x ∈ sh.2.*1 -> owner_of (prefix +:+ x) = Some sh.1.

Lemma share_ok_owned_spaces entries prefix owner_of me :
  NoDup entries.*1 -> share_ok owner_of prefix (me, owned_spaces entries prefix owner_of me).
Proof.
  intros Hnd. split; [by apply NoDup_owned_spaces|]. simpl.
  intros x ([y n] & -> & (c & _ & _ & Ho)%elem_of_owned_spaces)%list_elem_of_fmap. done.
Qed.

Lemma spaces_of_rows o rows : sr_space <$> space_rows o rows = rows.*1.
Proof. unfold space_rows. by rewrite <- list_fmap_compose. Qed.

Lemma shares_disjoint owner_of prefix shares :
  NoDup shares.*1 -> Forall (share_ok owner_of prefix) shares ->
  NoDup (sr_space <$> (shares ≫= fun sh => space_rows sh.1 sh.2)) /\
  forall row, row ∈ (shares ≫= fun sh => space_rows sh.1 sh.2) ->
    sr_owner row ∈ shares.*1 /\ owner_of (prefix +:+ sr_space row) = Some (sr_owner row).
Proof.
  induction shares as [|[o rows] shares IH]; intros Hnd Hok; simpl.
  { split; [constructor|]. by intros ? ?%not_elem_of_nil. }
  simpl in Hnd. apply NoDup_cons in Hnd as [Ho Hnd]. apply Forall_cons in Hok as [[Hrows Hown] Hok].
  destruct (IH Hnd Hok) as [IH1 IH2]. split.
  - rewrite fmap_app, spaces_of_rows. apply NoDup_app. split_and!; [done| |done].
    intros x Hx (row & -> & Hrow)%list_elem_of_fmap. destruct (IH2 row Hrow) as [Hin Heq].
    rewrite (Hown _ Hx) in Heq. injection Heq as Heq. simpl in *. by rewrite <- Heq in Hin.
  - intros row [Hrow|Hrow]%elem_of_app.
    + unfold space_rows in Hrow. apply list_elem_of_fmap in Hrow as ([x n] & -> & Hin). simpl.
      split; [left|]. apply Hown. by apply (list_elem_of_fmap_2 fst _ _ Hin).
    + destruct (IH2 row Hrow). split; [by right|done].
Qed.

(** The shares an answered listing is made of. *)
Definition answered (p : NodeId * option (list (string * N))) : option (NodeId * list (string * N)) :=
  (fun rows => (p.1, rows)) <$> p.2.

Lemma peer_rows_shares peers : peers ≫= peer_rows = omap answered peers ≫= (fun sh => space_rows sh.1 sh.2).
Proof. induction peers as [|[p [rows|]] peers IH]; simpl; [done|f_equal; exact IH|exact IH]. Qed.

Lemma omap_answered_sublist peers : (omap answered peers).*1 `sublist_of` peers.*1.
Proof. induction peers as [|[p [rows|]] peers IH]; simpl; [done|by constructor|by constructor]. Qed.

Lemma spaces_route_share p ring ring' now port prefix (st : FlowNet text) rs :
  (Ring.m_idx ring' = Ring.m_idx ring -> members ring' = members ring) ->
  spaces_route xxh64 (Bound p ring') now port prefix (Ring.m_idx ring) st = Ok rs ->
  share_ok (fun f => owner xxh64 ring (OwnedKey_flow f)) prefix (p, rs).
Proof.
  intros Hring. unfold spaces_route, view. destruct (ring_is_empty ring'); [done|].
  destruct (N.eqb_spec (Ring.m_idx ring) (Ring.m_idx ring')) as [Hm|]; [|done]. simpl. intros [= <-].
  assert ((fun f => owner xxh64 ring (OwnedKey_flow f)) = fun f => owner xxh64 ring' (OwnedKey_flow f)) as ->.
  { unfold owner. by rewrite Hring. }
  apply share_ok_owned_spaces, NoDup_entries_by_flow.
Qed.

(** Peers that answered on the caller's membership. *)
Definition answers_on (ring : Ring) (me : NodeId) (port : N) (prefix : string)
    (answers : list (NodeId * option (list (string * N)))) : Prop :=
  NoDup answers.*1 /\ (forall p, p ∈ answers.*1 -> p ∈ members ring /\ p <> me) /\
  (forall p rs, (p, Some rs) ∈ answers -> exists ring' now' (st' : FlowNet text),
     (Ring.m_idx ring' = Ring.m_idx ring -> members ring' = members ring) /\
     spaces_route xxh64 (Bound p ring') now' port prefix (Ring.m_idx ring) st' = Ok rs).

Lemma answered_rows me ring now port prefix answers (st : FlowNet text) rows :
  answers_on ring me port prefix answers ->
  rows = space_rows me (shard_spaces xxh64 me ring now prefix (fn_shard st)) ++ (answers ≫= peer_rows) ->
  NoDup (sr_space <$> rows) /\
  forall row, row ∈ rows -> owner xxh64 ring (OwnedKey_flow (prefix +:+ sr_space row)) = Some (sr_owner row).
Proof.
  intros (Hnd & Hmem & Hans) ->. set (local := shard_spaces xxh64 me ring now prefix (fn_shard st)).
  set (shares := (me, local) :: omap answered answers).
  destruct (shares_disjoint (fun f => owner xxh64 ring (OwnedKey_flow f)) prefix shares) as [Hdis Hown].
  { simpl. apply NoDup_cons. split.
    - intros Hin. by destruct (Hmem me (elem_of_sublist _ _ me Hin (omap_answered_sublist answers))).
    - eapply sublist_NoDup; [exact Hnd|]. apply omap_answered_sublist. }
  { apply Forall_cons. split; [apply share_ok_owned_spaces, NoDup_entries_by_flow|].
    apply Forall_forall. intros [p rs] Hin. apply list_elem_of_omap in Hin as ([p' [rs'|]] & Hin & [= -> ->]).
    destruct (Hans _ _ Hin) as (ring' & now' & st' & Hring & Hroute). by eapply spaces_route_share. }
  rewrite peer_rows_shares. split; [exact Hdis|]. intros row Hin. by apply Hown.
Qed.

Lemma lost_rows (lost : list NodeId) : ((fun p => (p, None)) <$> lost) ≫= peer_rows = [].
Proof. induction lost as [|p lost IH]; [done|exact IH]. Qed.

(** A fleet listing names a space once, and under its owner. Where each peer that
    answers did so on the caller's membership, with rings of one membership agreeing on
    its members, no two rows of the listing name the same space, each row carries the
    node the ring makes the owner of the space's flow, and a listing not marked partial
    has the answer of every other member. *)
Theorem fleet_spaces_exact me ring now port prefix answers timed_out (st : FlowNet text) rows partial :
  ring_is_empty ring = false ->
  answers_on ring me port prefix answers ->
  fleet_spaces xxh64 (Bound me ring) now prefix answers timed_out st = (rows, partial) ->
  NoDup (sr_space <$> rows) /\
  (forall row, row ∈ rows -> owner xxh64 ring (OwnedKey_flow (prefix +:+ sr_space row)) = Some (sr_owner row)) /\
  (partial = false -> forall p, p ∈ members ring -> p = me \/ exists rs, (p, Some rs) ∈ answers).
Proof.
  intros Hne Hans. unfold fleet_spaces, view. rewrite Hne.
  assert (forall p, p ∈ List.filter (fun n => negb (n =? me)%N) (members ring) <-> p ∈ members ring /\ p <> me) as Hpeers.
  { intros p. rewrite elem_of_List_filter, negb_true_iff, N.eqb_neq. done. }
  destruct (List.filter _ (members ring)) as [|p0 ps0] eqn:Hps; rewrite merge_space_rows_spec.
  - intros [= <- <-]. assert (answers = []) as ->.
    { destruct answers as [|[p a] ?]; [done|]. destruct Hans as (_ & Hmem & _). destruct (Hmem p) as [Hp Hp']; [left|].
      by destruct (not_elem_of_nil p (proj2 (Hpeers p) (conj Hp Hp'))). }
    destruct (answered_rows me ring now port prefix [] st _ Hans eq_refl). split_and!; [done..|].
    intros _ p Hp. left. apply dec_stable. intros Hp'. by destruct (not_elem_of_nil p (proj2 (Hpeers p) (conj Hp Hp'))).
  - set (peers := p0 :: ps0) in *. clearbody peers. intros [= <- <-]. rewrite bind_app, lost_rows, app_nil_r.
    destruct (answered_rows me ring now port prefix answers st _ Hans eq_refl). split_and!; [done..|].
    intros [_ Hall]%orb_false_iff p Hp. destruct (decide (p = me)) as [|Hne']; [by left|right].
    rewrite existsb_false_Forall, Forall_app, !Forall_forall in Hall. destruct Hall as [Ha Hl].
    destruct (decide (p ∈ answers.*1)) as [([q [rs|]] & -> & Hin)%list_elem_of_fmap|Hni]; [eauto| |].
    + by specialize (Ha _ Hin).
    + specialize (Hl (p, None)). discriminate Hl.
      apply (list_elem_of_fmap_2 (fun p => (p, None))), elem_of_List_filter. split; [by apply Hpeers|].
      by rewrite bool_decide_eq_false_2.
Qed.

End Listings.

(** ** Deleted imposters *)

Section Clear.
  Context {text : Type}.

(** How many of the flows are of a port. *)
Definition port_count (flows : list string) (p : N) : nat :=
  length (List.filter (fun f => bool_decide (imposter_port f = Some p)) flows).

Lemma clear_scopes_fold ack : forall flows (acc : Shard text * gmap N nat),
  (forall f, f ∈ flows -> is_Some (imposter_port f)) ->
  let out := foldl (clear_scope ack) acc flows in
  (forall f, memory out.1 !! f = if decide (f ∈ flows) then None else memory acc.1 !! f) /\
  forall p, default O (out.2 !! p) = (default O (acc.2 !! p) + port_count flows p)%nat /\
            (out.2 !! p = None <-> acc.2 !! p = None /\ port_count flows p = O).
Proof.
  induction flows as [|f flows IH]; intros acc Hp.
  { simpl. split; [done|]. intros p. unfold port_count. simpl. split; [lia|tauto]. }
  destruct (Hp f) as [q Hq]; [left|].
  set (acc1 := (clear_flow acc.1 f Durability.Async ack, <[q := S (default O (acc.2 !! q))]> acc.2)).
  assert (clear_scope ack acc f = acc1) as Hacc by (unfold clear_scope; by rewrite Hq).
  cbn [foldl]. rewrite Hacc. destruct (IH acc1) as [H1 H2]; [intros; apply Hp; by right|]. split.
  - intros g. rewrite H1. cbn [fst acc1]. rewrite memory_clear. destruct (decide (g = f)) as [->|Hne].
    + rewrite lookup_delete_eq. rewrite (decide_True (P := f ∈ f :: flows)) by left. by case_decide.
    + rewrite lookup_delete_ne by done. do 2 case_decide; set_solver.
  - intros p. destruct (H2 p) as [H3 H4]. rewrite H3, H4. unfold port_count. cbn [snd acc1 List.filter].
    rewrite Hq. destruct (decide (p = q)) as [->|Hne].
    + rewrite lookup_insert_eq, bool_decide_eq_true_2 by done. simpl. split; [lia|]. split; [by intros []|by intros [_ ?]].
    + rewrite lookup_insert_ne by done. rewrite bool_decide_eq_false_2 by congruence. done.
Qed.

Lemma elem_of_in_ports ports f : in_ports ports f = true <-> exists p, imposter_port f = Some p /\ p ∈ ports.
Proof.
  unfold in_ports. destruct (imposter_port f) as [p|]; [|split; [done|by intros (? & ? & _)]].
  rewrite bool_decide_eq_true. naive_solver.
Qed.

Lemma elem_of_flow_ids (s : Shard text) f : f ∈ flow_ids s <-> is_Some (memory s !! f).
Proof.
  unfold flow_ids. rewrite list_elem_of_fmap. split.
  - intros ([g m] & -> & H%elem_of_map_to_list). eauto.
  - intros [m H]. exists (f, m). split; [done|by apply elem_of_map_to_list].
Qed.

Lemma port_count_cons f flows p :
  port_count (f :: flows) p = ((if decide (imposter_port f = Some p) then 1 else 0) + port_count flows p)%nat.
Proof.
  unfold port_count. cbn [List.filter].
  case_decide; [by rewrite bool_decide_eq_true_2|by rewrite bool_decide_eq_false_2].
Qed.

Lemma port_count_filter ports flows p :
  port_count (List.filter (in_ports ports) flows) p = if decide (p ∈ ports) then port_count flows p else O.
Proof.
  induction flows as [|f flows IH]; [by case_decide|]. cbn [List.filter].
  destruct (in_ports ports f) eqn:Hf; rewrite !port_count_cons, IH.
  - apply elem_of_in_ports in Hf as (q & -> & Hq). repeat case_decide; simplify_eq; done.
  - destruct (decide (p ∈ ports)) as [Hp|]; [|done]. rewrite decide_False; [done|]. intros Hi.
    apply not_true_iff_false in Hf. apply Hf. apply elem_of_in_ports. eauto.
Qed.

(** The mirror after a clear, flow by flow. *)
Lemma clear_scopes_memory ack ports (st : FlowNet text) f :
  memory (fn_shard (clear_imposter_scopes ack ports st).1) !! f =
  if in_ports ports f then None else memory (fn_shard st) !! f.
Proof.
  unfold clear_imposter_scopes. destruct (decide (ports = ∅)) as [->|Hne]; simpl.
  { assert (in_ports ∅ f = false) as -> by (apply not_true_iff_false; rewrite elem_of_in_ports; set_solver). done. }
  destruct (clear_scopes_fold ack (List.filter (in_ports ports) (flow_ids (fn_shard st))) (fn_shard st, ∅)) as [H1 _].
  { intros g [_ (p & -> & _)%elem_of_in_ports]%elem_of_List_filter. eauto. }
  destruct (foldl _ _ _) as [s dropped]. cbn [fst snd with_shard fn_shard] in *. rewrite H1.
  destruct (in_ports ports f) eqn:Hf.
  - case_decide as Hin; [done|]. apply eq_None_not_Some. rewrite <- elem_of_flow_ids. intros ?.
    by destruct Hin; apply elem_of_List_filter.
  - rewrite decide_False; [done|]. rewrite elem_of_List_filter. intros [_ ?]. congruence.
Qed.

(** Deleting imposters drops their flows and no others. Clearing the scopes of a set of
    ports removes from the mirror every flow in the namespace of a port of the set, and
    leaves every other flow as it was, shared and other imposters' alike; it reports for
    each port of the set how many flows it dropped, with no entry where there were none;
    and afterwards the shard holds flows of exactly the ports it held and the set does
    not name. *)
Theorem clear_imposter_scopes_spec ack ports (st : FlowNet text) :
  let out := clear_imposter_scopes ack ports st in
  (forall f, memory (fn_shard out.1) !! f = if in_ports ports f then None else memory (fn_shard st) !! f) /\
  (forall p, out.2 !! p = if decide (p ∈ ports /\ port_count (flow_ids (fn_shard st)) p <> O)
                          then Some (port_count (flow_ids (fn_shard st)) p) else None) /\
  imposter_ports_held out.1 = imposter_ports_held st ∖ ports.
Proof.
  pose proof (clear_scopes_memory ack ports st) as Hm0. revert Hm0.
  unfold clear_imposter_scopes. destruct (decide (ports = ∅)) as [->|Hne]; simpl; intros Hm0.
  { assert (forall f, in_ports ∅ f = false) as Hno.
    { intros f. apply not_true_iff_false. rewrite elem_of_in_ports. set_solver. }
    split_and!; [intros f; by rewrite Hno| |set_solver].
    intros p. rewrite lookup_empty, decide_False; [done|]. set_solver. }
  destruct (clear_scopes_fold ack (List.filter (in_ports ports) (flow_ids (fn_shard st))) (fn_shard st, ∅)) as [H1 H2].
  { intros f [_ (p & -> & _)%elem_of_in_ports]%elem_of_List_filter. eauto. }
  destruct (foldl _ _ _) as [s dropped]. cbn [fst snd with_shard fn_shard] in *.
  rename Hm0 into Hmem.
  split_and!; [done| |].
  - intros p. destruct (H2 p) as [H3 H4]. rewrite port_count_filter, lookup_empty in H3, H4. simpl in H3.
    destruct (decide (p ∈ ports)) as [Hp|Hp].
    + destruct (decide (port_count (flow_ids (fn_shard st)) p = O)) as [H0|H0].
      * rewrite (proj2 H4) by done. rewrite decide_False; [done|]. by intros [_ ?].
      * rewrite decide_True by done. destruct (dropped !! p); simpl in H3; [congruence|by destruct H0].
    + rewrite (proj2 H4) by done. rewrite decide_False; [done|]. by intros [? _].
  - unfold imposter_ports_held. apply set_eq. intros p.
    rewrite elem_of_difference, !elem_of_list_to_set, !list_elem_of_omap. setoid_rewrite elem_of_flow_ids.
    cbn [fn_shard]. setoid_rewrite Hmem. split.
    + intros (f & [m Hm] & Hf). destruct (in_ports ports f) eqn:Hi; [done|]. split; [eauto|].
      intros Hp. apply not_true_iff_false in Hi. apply Hi, elem_of_in_ports. eauto.
    + intros [(f & Hm & Hf) Hp]. exists f. split; [|done]. destruct (in_ports ports f) eqn:Hi; [|done].
      apply elem_of_in_ports in Hi as (q & Hq & Hin). rewrite Hf in Hq. injection Hq as <-. done.
Qed.

End Clear.

(** ** Witnesses *)

Section Witnesses.

(** A hash that spreads keys by their last byte. *)
Definition demo_hash (buf : bytes) (_ : N) : N :=
  match buf with
  | node :: _ => (7 * N_of_ascii node + 3 * N_of_ascii node * N_of_ascii (default node (last buf))) mod 11
  | [] => 0
  end.

Definition demo_ring : Ring := Ring_new [1; 2; 3]%N 7.

Definition demo_shard : Shard () :=
  in_memory {| fsync_interval_ms := 50; max_flows := 8; ttl_ms := None |}.

Lemma triple_eta {A B C} (x : A * B * C) : x = (x.1.1, x.1.2, x.2).
Proof. by destruct x as [[]]. Qed.

Definition demo_net (flows : list string) : FlowNet () :=
  Build_FlowNet demo_shard (list_to_map ((fun f => (f, 7%N)) <$> flows)).

Definition demo_env (id now : N) : CallEnv :=
  {| ce_node := Bound id demo_ring; ce_isolated := false; ce_isolated_locked := false; ce_now := now;
     ce_ack := 0; ce_written := Ok tt; ce_sync := fun _ _ => None |}.

Definition demo_req (f k : string) (op : WriteOp) (ttl : option Z) : WriteReq :=
  {| wq_flow_id := f; wq_key := k; wq_op := op; wq_ttl_seconds := ttl; wq_durability := Durability.DNone; wq_m_idx := 7 |}.

Lemma single_writer_witness :
  let out1 := owner_write demo_hash (demo_env 1 0) (demo_req "i4545:a" "k" (WriteIncr 1) None) (demo_net []) in
  let out3 := owner_write demo_hash (demo_env 3 0) (demo_req "i4545:a" "k" (WriteIncr 1) None) (demo_net []) in
  out3.1.2 = Applied None (Some 1%Z) None /\
  ((out1.1.1 = demo_net [] /\ out1.2 = [] /\ turned_away out1.1.2) \/
   (out3.1.1 = demo_net [] /\ out3.2 = [] /\ turned_away out3.1.2)).
Proof.
  split; [by vm_compute|].
  apply (single_writer demo_hash (demo_env 1 0) (demo_env 3 0) (demo_req "i4545:a" "k" (WriteIncr 1) None)
    (demo_net []) (demo_net [])); [by intros ? ? ? ? [= <- <-] [= <- <-]|done|apply triple_eta..].
Defined.

(** A run of the owner of two flows: a counter, a swap, a deletion, a lifetime. *)
Definition demo_calls : list (CallEnv * WriteReq) :=
  [(demo_env 3 10, demo_req "i4545:a" "n" (WriteIncr 5) None);
   (demo_env 3 11, demo_req "i4545:c" "s" (WriteSet (JOther "on")) (Some 60%Z));
   (demo_env 3 12, demo_req "i4545:a" "n" (WriteIncr 9223372036854775807) None);
   (demo_env 3 13, demo_req "i4545:a" "n" (WriteCas (Some (JInt 5)) (JInt 8)) None);
   (demo_env 3 14, demo_req "i4545:a" "m" (WriteSet JNull) None);
   (demo_env 3 15, demo_req "i4545:a" "m" WriteDelete None);
   (demo_env 3 16, demo_req "i4545:c" "s" (WriteSetKeyTtl 5) None)].

Lemma demo_steady now f k op ttl :
  bool_decide (f ∈ ["i4545:a"; "i4545:c"]%string) = true -> keeps_flow op = true ->
  steady demo_hash 3 demo_ring 1 (demo_net ["i4545:a"; "i4545:c"]%string) (demo_env 3 now, demo_req f k op ttl).
Proof.
  rewrite bool_decide_eq_true. intros Hf Hk. unfold steady. simpl.
  rewrite !elem_of_cons in Hf. destruct Hf as [->|[->|[]%not_elem_of_nil]];
    (split_and!; [done|by vm_compute|by apply (bool_decide_unpack _); vm_compute|done|done]).
Qed.


Lemma demo_serving now f k op ttl :
  bool_decide (f ∈ ["i4545:a"; "i4545:c"]%string) = true ->
  serving demo_hash 3 demo_ring (demo_net ["i4545:a"; "i4545:c"]%string) (demo_env 3 now, demo_req f k op ttl).
Proof.
  rewrite bool_decide_eq_true. intros Hf. unfold serving. simpl.
  rewrite !elem_of_cons in Hf. destruct Hf as [->|[->|[]%not_elem_of_nil]];
    (split_and!; [done|done|done|by vm_compute|done|done|by vm_compute|done]).
Qed.

(** The same run against the registers, then a clear. *)
Definition demo_calls_clear : list (CallEnv * WriteReq) :=
  demo_calls ++ [(demo_env 3 20, demo_req "i4545:a" EmptyString WriteClearFlow None);
                 (demo_env 3 21, demo_req "i4545:a" "n" (WriteCas (Some (JInt 8)) (JInt 9)) None)].

Lemma owner_implements_registers_witness :
  let run := owner_run demo_hash demo_calls_clear (demo_net ["i4545:a"; "i4545:c"]%string) in
  last run.2 = Some (CasConflict None) /\
  run.2 = (reg_run demo_calls_clear ∅).2 /\ represents (fn_shard run.1) (reg_run demo_calls_clear ∅).1.
Proof.
  intros run. split; [by vm_compute|].
  apply (owner_implements_registers demo_hash 3 demo_ring demo_calls_clear
    (demo_net ["i4545:a"; "i4545:c"]%string) run.1 run.2 ∅).
  - apply Forall_forall. repeat (apply Forall_cons; split; [by apply demo_serving|]). constructor.
  - by intros f k.
  - by apply Nat.leb_le; vm_compute.
  - apply surjective_pairing.
Defined.

(** Three nodes that hold all the flows of a port, replicas included. *)
Definition demo_full : FlowNet () :=
  Build_FlowNet
    (foldl (fun s f => set s 0 f "k" (mint 1 demo_ring 0 None JNull) Durability.DNone 0) demo_shard
       ["i4545:a"; "i4545:b"; "i4545:c"; "i4545:d"]%string) ∅.

Definition demo_answer (p : NodeId) : option (list (string * N)) :=
  result_ok (spaces_route demo_hash (Bound p demo_ring) 0 4545 "i4545:" 7 demo_full).

Lemma fleet_spaces_exact_witness :
  let out := fleet_spaces demo_hash (Bound 3 demo_ring) 0 "i4545:" [(2, demo_answer 2); (1, demo_answer 1)]%N false demo_full in
  (length out.1 = 4 /\ out.2 = false) /\
  NoDup (sr_space <$> out.1) /\
  (forall row, row ∈ out.1 -> owner demo_hash demo_ring (OwnedKey_flow ("i4545:" +:+ sr_space row)) = Some (sr_owner row)) /\
  (out.2 = false -> forall p, p ∈ members demo_ring -> p = 3%N \/
     exists rs, (p, Some rs) ∈ [(2, demo_answer 2); (1, demo_answer 1)]%N).
Proof.
  intros out. split; [by vm_compute|].
  apply (fleet_spaces_exact demo_hash 3 demo_ring 0 4545 "i4545:" [(2, demo_answer 2); (1, demo_answer 1)]%N false
    demo_full out.1 out.2); [done| |apply surjective_pairing].
  split_and!.
  - by apply (bool_decide_unpack _); vm_compute.
  - intros p. cbn [fmap list_fmap fst]. rewrite !elem_of_cons. intros [->|[->|[]%not_elem_of_nil]]; (split; [by apply (bool_decide_unpack _); vm_compute|done]).
  - intros p rs Hin. exists demo_ring, 0%N, demo_full. split; [done|].
    assert (demo_answer p = Some rs) as Hrs; [|by apply result_ok_Some].
    rewrite !elem_of_cons in Hin. destruct Hin as [Hin|[Hin|[]%not_elem_of_nil]];
      rewrite (f_equal fst Hin : p = _); symmetry; exact (f_equal snd Hin).
Defined.

(** ** A deleted key comes back

    A replica cut off when a key is deleted keeps its live copy. A tombstone outlives a
    delete by a minute: after it, the owner's record no longer stands against that copy,
    and adoption at the next membership takes it in. *)

Definition resurrection_ring : Ring := Ring_new [1; 2; 3]%N 8.

Definition stale_replica (f k : string) (e : Versioned) : NodeId -> list string -> option SyncReply :=
  fun n _ => if (n =? 1)%N then Some [(f, [(k, e)])] else None.

(** The owner sets a key, deletes it, and reads it a minute later in a new membership in
    which the cut-off replica answers. *)
Definition resurrection : option FlowValue * option FlowValue :=
  let f := "i4545:a"%string in
  let '(st, reply, _) := owner_write demo_hash (demo_env 3 1000) (demo_req f "k" (WriteSet (JInt 1)) None) (demo_net [f]) in
  let '(st, _, _) := owner_write demo_hash (demo_env 3 2000) (demo_req f "k" WriteDelete None) st in
  let old := match reply with Applied (Some e) _ _ => e | _ => mint 3 demo_ring 0 None JNull end in
  let env := {| ce_node := Bound 3 resurrection_ring; ce_isolated := false; ce_isolated_locked := false;
                ce_now := 62001; ce_ack := 0; ce_written := Ok tt; ce_sync := stale_replica f "k" old |} in
  (value <$> get (fn_shard st) 62001 f "k",
   match (get_route demo_hash env f "k" st).2 with Ok (Some e) => Some (value e) | _ => None end).

Lemma deleted_key_returns : resurrection = (None, Some (JInt 1)).
Proof. by vm_compute. Qed.

End Witnesses.
