(* ===== verification/Drive.v ===== *)
(** * Driving the engine: the post-commit half of [raft/store.rs]

    What a node does with the actions its apply collected: each is driven into the local
    engine in log order, what failed is recorded per port, and a port the fleet stopped
    naming loses its flow state. The engine ([ImposterManager]) is a parameter: its calls
    change its state and answer with a report or an error. *)

From S2P Require Import Prelude Upstream Ring Node Auth Rpc FlowConfig Shard Flow Control Recorded StateMachine.

(** ** The engine *)

Record ImposterError := { ie_not_found : bool; ie_text : string }.

Record ApplyReport := {
  created : list N;
  replaced : list N;
  stub_patched : list N;
  toggled : list N;
  deleted : list N;
  failed : list (N * ImposterError);
}.

Definition report_default : ApplyReport :=
  {| created := []; replaced := []; stub_patched := []; toggled := []; deleted := []; failed := [] |}.

Abbreviation call E A := (E -> E * result ImposterError A).

Class ImposterManager (E : Type) := {
  list_imposters : E -> list (option N * bool);
  get_imposter : E -> N -> result ImposterError (bool * list Stub);
  apply_config : list ImposterConfig -> call E ApplyReport;
  apply_one : ImposterConfig -> call E ApplyReport;
  delete_imposter : N -> call E ();
  set_imposter_enabled : N -> bool -> call E ();
  clear_proxy_responses : N -> call E ();
  add_stub : N -> Stub -> option nat -> call E ();
  replace_stub : N -> nat -> Stub -> call E ();
  replace_stubs : N -> list Stub -> call E ();
  replace_stub_by_id : N -> string -> Stub -> call E ();
  delete_stub_by_id : N -> string -> call E ();
  delete_stub : N -> nat -> call E ();
  move_stub : N -> nat -> nat -> call E ();
  append_stub_responses_by_id : N -> string -> list StubResponse -> call E ();
  restart_runtime_state : N -> call E ();
}.

Section Drive.
  Context {E : Type} `{!ImposterManager E} {ftext : Type}.

(** ** A node's drive state *)

Record DriveState := {
  dv_engine : option E;
  dv_apply_failures : gmap N string;
  dv_bind_failures : gmap N string;
  dv_needs_resync : bool;
  dv_sequencing : option SequencingRegistry.t;
  dv_routes : option RouteTable;
  dv_flow_net : option (FlowNet ftext);
}.

Definition set_engine (e : E) (d : DriveState) : DriveState :=
  {| dv_engine := Some e; dv_apply_failures := dv_apply_failures d; dv_bind_failures := dv_bind_failures d;
     dv_needs_resync := dv_needs_resync d; dv_sequencing := dv_sequencing d; dv_routes := dv_routes d;
     dv_flow_net := dv_flow_net d |}.

Definition set_failures (f b : gmap N string -> gmap N string) (resync : bool) (d : DriveState) : DriveState :=
  {| dv_engine := dv_engine d; dv_apply_failures := f (dv_apply_failures d);
     dv_bind_failures := b (dv_bind_failures d); dv_needs_resync := resync; dv_sequencing := dv_sequencing d;
     dv_routes := dv_routes d; dv_flow_net := dv_flow_net d |}.

Definition set_sequencing (f : SequencingRegistry.t -> SequencingRegistry.t) (d : DriveState) : DriveState :=
  {| dv_engine := dv_engine d; dv_apply_failures := dv_apply_failures d; dv_bind_failures := dv_bind_failures d;
     dv_needs_resync := dv_needs_resync d; dv_sequencing := f <$> dv_sequencing d; dv_routes := dv_routes d;
     dv_flow_net := dv_flow_net d |}.

Definition set_routes_table (table : RouteTable) (d : DriveState) : DriveState :=
  {| dv_engine := dv_engine d; dv_apply_failures := dv_apply_failures d; dv_bind_failures := dv_bind_failures d;
     dv_needs_resync := dv_needs_resync d; dv_sequencing := dv_sequencing d;
     dv_routes := (fun _ => table) <$> dv_routes d; dv_flow_net := dv_flow_net d |}.

Definition set_flow_net (f : FlowNet ftext -> FlowNet ftext) (d : DriveState) : DriveState :=
  {| dv_engine := dv_engine d; dv_apply_failures := dv_apply_failures d; dv_bind_failures := dv_bind_failures d;
     dv_needs_resync := dv_needs_resync d; dv_sequencing := dv_sequencing d; dv_routes := dv_routes d;
     dv_flow_net := f <$> dv_flow_net d |}.

(** A failure recorded against a port; 0 is the set-level slot. *)
Definition record_failure (port : N) (reason : string) (d : DriveState) : DriveState :=
  set_failures <[port := reason]> id (dv_needs_resync d) d.

Definition is_degraded (d : DriveState) : bool :=
  negb (bool_decide (dv_apply_failures d = ∅)) || negb (bool_decide (dv_bind_failures d = ∅)) || dv_needs_resync d.

(** A toggle or a stub edit succeeded. If it erased a failure, the failure may have been
    of another drive, so the node stays degraded until a whole-set drive. *)
Definition clear_drive_outcome (port : N) (d : DriveState) : DriveState :=
  match dv_apply_failures d !! port with
  | Some _ => set_failures (delete port) id true d
  | None => d
  end.

(** The engine holds the port without a listener. *)
Definition serving_unbound (d : DriveState) (port : N) : bool :=
  match dv_engine d with
  | Some engine => match get_imposter engine port with Ok (bound, _) => negb bound | Err _ => false end
  | None => false
  end.

Definition is_locally_bound (d : DriveState) (port : N) : bool :=
  match dv_engine d with
  | Some engine => match get_imposter engine port with Ok (bound, _) => bound | Err _ => false end
  | None => false
  end.

Definition bind_failure (d : DriveState) (port : N) : option string :=
  if serving_unbound d port then dv_bind_failures d !! port else None.

Definition local_bind_report (d : DriveState) : option (list N * gmap N string) :=
  match dv_engine d with
  | None => None
  | Some engine =>
      Some (foldl (fun acc (imposter : option N * bool) =>
              match imposter with
              | (None, _) => acc
              | (Some port, true) => (acc.1 ++ [port], acc.2)
              | (Some port, false) =>
                  match dv_bind_failures d !! port with
                  | Some reason => (acc.1, <[port := reason]> acc.2)
                  | None => acc
                  end
              end) ([], ∅) (list_imposters engine))
  end.

(** ** Reports *)

Inductive ReportScope :=
  | WholeSet (desired : gset N)
  | OnePort (port : N).

Definition desires (scope : ReportScope) (port : N) : bool :=
  match scope with
  | WholeSet desired => bool_decide (port ∈ desired)
  | OnePort only => (only =? port)%N
  end.

Definition remove_all (ports : list N) (m : gmap N string) : gmap N string := foldl (fun m p => delete p m) m ports.

Definition reap (scope : ReportScope) (m : gmap N string) : gmap N string :=
  match scope with
  | WholeSet desired => filter (fun kv : N * string => kv.1 ∈ desired) m
  | OnePort _ => m
  end.

(** The failed bucket: every failure recorded, the first bind failure of a port kept. *)
Fixpoint record_failed (unbound : N -> bool) (scope : ReportScope) (failed : list (N * ImposterError))
    (recorded : gset N) (failures binds : gmap N string) : gmap N string * gmap N string :=
  match failed with
  | [] => (failures, binds)
  | (port, error) :: rest =>
      let failures := <[port := ie_text error]> failures in
      if desires scope port && unbound port && negb (bool_decide (port ∈ recorded))
      then record_failed unbound scope rest ({[port]} ∪ recorded) failures (<[port := ie_text error]> binds)
      else record_failed unbound scope rest recorded failures binds
  end.

Definition record_report (report : ApplyReport) (scope : ReportScope) (d : DriveState) : DriveState :=
  let touched := created report ++ replaced report ++ stub_patched report ++ toggled report ++ deleted report in
  let rebound := created report ++ replaced report ++ deleted report in
  let failures := reap scope (remove_all touched (dv_apply_failures d)) in
  let binds := reap scope (remove_all rebound (dv_bind_failures d)) in
  let out := record_failed (serving_unbound d) scope (failed report) ∅ failures binds in
  set_failures (fun _ => out.1) (fun _ => out.2) (dv_needs_resync d) d.

Definition previously_failed_ports (d : DriveState) : list N :=
  List.filter (fun port => negb (port =? 0)%N) (map_to_list (dv_apply_failures d)).*1.

(** ** Calls *)

Definition merge_report (report one : ApplyReport) : ApplyReport :=
  {| created := created report ++ created one; replaced := replaced report ++ replaced one;
     stub_patched := stub_patched report ++ stub_patched one; toggled := toggled report ++ toggled one;
     deleted := deleted report ++ deleted one; failed := failed report ++ failed one |}.

Definition note_deleted (port : N) (report : ApplyReport) : ApplyReport :=
  merge_report report {| created := []; replaced := []; stub_patched := []; toggled := []; deleted := [port]; failed := [] |}.

Definition note_failed (port : N) (e : ImposterError) (report : ApplyReport) : ApplyReport :=
  merge_report report {| created := []; replaced := []; stub_patched := []; toggled := []; deleted := []; failed := [(port, e)] |}.

(** One stale port of the whole-set drive with refused rows. *)
Definition delete_stale (acc : E * ApplyReport) (port : N) : E * ApplyReport :=
  match delete_imposter port acc.1 with
  | (engine, Ok _) => (engine, note_deleted port acc.2)
  | (engine, Err e) => (engine, if ie_not_found e then acc.2 else note_failed port e acc.2)
  end.

Definition apply_admitted_one (acc : E * ApplyReport) (config : ImposterConfig) : E * ApplyReport :=
  match cfg_port config with
  | None => acc
  | Some port =>
      match apply_one config acc.1 with
      | (engine, Ok one) => (engine, merge_report acc.2 one)
      | (engine, Err e) => (engine, note_failed port e acc.2)
      end
  end.

Definition apply_admitted (engine : E) (admitted : list ImposterConfig) (held : gset N) : E * ApplyReport :=
  let stale := List.filter (fun port => negb (bool_decide (port ∈ held))) (omap fst (list_imposters engine)) in
  foldl apply_admitted_one (foldl delete_stale (engine, report_default) stale) admitted.

(** The indices of a space's stubs are deleted from the last. *)
Fixpoint delete_indices (port : N) (indices : list nat) (engine : E) : E * result ImposterError () :=
  match indices with
  | [] => (engine, Ok tt)
  | index :: rest =>
      match delete_stub port index engine with
      | (engine, Ok _) => delete_indices port rest engine
      | (engine, Err e) => (engine, Err e)
      end
  end.

Definition space_indices (space : string) (stubs : list Stub) : list nat :=
  (List.filter (fun it : nat * Stub => bool_decide (in_space space it.2)) (imap pair stubs)).*1.

Definition drive_step (port : N) (step : StubEdit) (engine : E) : E * result ImposterError () :=
  match step with
  | Add stub index => add_stub port stub index engine
  | ReplaceById id stub => replace_stub_by_id port id stub engine
  | DeleteById id => delete_stub_by_id port id engine
  | DeleteBySpace space =>
      match get_imposter engine port with
      | Err e => (engine, Err e)
      | Ok (_, stubs) => delete_indices port (reverse (space_indices space stubs)) engine
      end
  | Move from to => move_stub port from to engine
  end.

Fixpoint drive_patch (port : N) (edit : StubEditScript) (engine : E) : E * result ImposterError () :=
  match edit with
  | [] => (engine, Ok tt)
  | step :: rest =>
      match drive_step port step engine with
      | (engine, Ok _) => drive_patch port rest engine
      | (engine, Err e) => (engine, Err e)
      end
  end.

(** ** Flow state *)

(** [ack] is the shard write each clear would wait on. *)
Definition clear_imposter_state (ack : N) (ports : list N) (d : DriveState) : DriveState :=
  set_flow_net (fun net => (clear_imposter_scopes ack (list_to_set ports) net).1) d.

(** ** Restarts *)

Definition restart (ack : N) (port : N) (what : Restart.t) (stubs : list Stub) (engine : E) (d : DriveState)
    : DriveState :=
  match what with
  | Restart.StubAt index =>
      match stubs !! index with
      | Some stub => set_engine (replace_stub port index stub engine).1 d
      | None => d
      end
  | Restart.AllStubs => set_engine (replace_stubs port stubs engine).1 d
  | Restart.Imposter => clear_imposter_state ack [port] (set_engine (restart_runtime_state port engine).1 d)
  | Restart.Unknown => d
  end.

(** ** One action *)

(** A whole-set drive, given what the engine answered. *)
Definition sync_outcome (ack : N) (held : gset N) (outcome : result ImposterError ApplyReport) (d : DriveState)
    : DriveState :=
  match outcome with
  | Ok report =>
      let previously_failed := previously_failed_ports d in
      let d := record_report report (WholeSet held) d in
      let d := set_failures id id false d in
      clear_imposter_state ack
        (List.filter (fun port => negb (bool_decide (port ∈ held))) (deleted report ++ previously_failed)) d
  | Err e => record_failure 0 (ie_text e) d
  end.

Definition drive_sync (ack : N) (desired : DesiredSet) (engine : E) (d : DriveState) : DriveState :=
  let d := set_sequencing (fun m => SequencingRegistry.apply_holding m (ds_admitted desired) (ds_held desired)) d in
  let '(engine, outcome) :=
    match ds_refused desired with
    | [] => apply_config (ds_admitted desired) engine
    | _ => let '(engine, report) := apply_admitted engine (ds_admitted desired) (ds_held desired) in (engine, Ok report)
    end in
  sync_outcome ack (ds_held desired) outcome (set_engine engine d).

Definition is_fresh (report : ApplyReport) (port : N) : bool :=
  bool_decide (port ∈ created report) || bool_decide (port ∈ replaced report)
  || existsb (fun f : N * ImposterError => (f.1 =? port)%N) (failed report).

Definition drive_put (L : Local) (ack : N) (config : ImposterConfig) (what : option Restart.t) (engine : E)
    (d : DriveState) : DriveState :=
  match cfg_port config with
  | None => record_failure 0 "a committed config carried no port" d
  | Some port =>
      match verdict L config with
      | Err _ => d
      | Ok _ =>
          let d := set_sequencing (fun m => SequencingRegistry.set m port config) d in
          match apply_one config engine with
          | (engine, Ok report) =>
              let d := record_report report (OnePort port) (set_engine engine d) in
              match what with
              | Some what => if is_fresh report port then d else restart ack port what (cfg_stubs config) engine d
              | None => d
              end
          | (engine, Err e) => record_failure port (ie_text e) (set_engine engine d)
          end
      end
  end.

Definition drive_delete (ack : N) (port : N) (engine : E) (d : DriveState) : DriveState :=
  let d := set_sequencing (fun m => SequencingRegistry.remove m port) d in
  let gone d :=
    clear_imposter_state ack [port] (set_failures (delete port) (delete port) (dv_needs_resync d) d) in
  match delete_imposter port engine with
  | (engine, Ok _) => gone (set_engine engine d)
  | (engine, Err e) =>
      if ie_not_found e then gone (set_engine engine d) else record_failure port (ie_text e) (set_engine engine d)
  end.

(** A toggle, a stub edit or a merge: it clears its port's outcome or records one. *)
Definition drive_edit (port : N) (out : E * result ImposterError ()) (d : DriveState) : DriveState :=
  let d := set_engine out.1 d in
  match out.2 with
  | Ok _ => clear_drive_outcome port d
  | Err e => record_failure port (ie_text e) d
  end.

(** The merge of a recording under owner sequencing replaces the whole stub. *)
Definition append_responses (d : DriveState) (port : N) (id : string) (responses : list StubResponse) (merged : Stub)
    (engine : E) : E * result ImposterError () :=
  let owner :=
    match dv_sequencing d with
    | Some m => match SequencingRegistry.mode m port with SequencingMode.Owner => true | SequencingMode.Local => false end
    | None => false
    end in
  if owner then replace_stub_by_id port id merged engine else append_stub_responses_by_id port id responses engine.

Definition drive_one (L : Local) (ack : N) (action : EngineAction) (d : DriveState) : DriveState :=
  match action with
  | ASyncRoutes table => set_routes_table table d
  | ARefuseRoutesSync _ _ => d
  | _ =>
      match dv_engine d with
      | None => d
      | Some engine =>
          match action with
          | ASync desired => drive_sync ack desired engine d
          | APut config what => drive_put L ack config what engine d
          | ADelete port => drive_delete ack port engine d
          | ASetEnabled port enabled => drive_edit port (set_imposter_enabled port enabled engine) d
          | APatch port edit => drive_edit port (drive_patch port edit engine) d
          | AClearProxyResponses port => set_engine (clear_proxy_responses port engine).1 d
          | ARestart port what stubs => restart ack port what stubs engine d
          | AAppendResponses port id responses merged =>
              drive_edit port (append_responses d port id responses merged engine) d
          | ASyncRoutes _ | ARefuseRoutesSync _ _ => d
          end
      end
  end.

Definition drive_engine (L : Local) (ack : N) (actions : list AttributedAction) (d : DriveState) : DriveState :=
  foldl (fun d a => drive_one L ack (aa_action a) d) d actions.

(** ** The reconcile *)

Section Reconcile.
  Context {text : Type} {CD : Codec text} {ER : EngineRules}.

Definition unattributed (action : EngineAction) : AttributedAction := {| aa_principal := None; aa_action := action |}.

Definition sync_engine (L : Local) (ack : N) (t : Tables text) (d : DriveState) : DriveState :=
  drive_engine L ack [unattributed (sync_action L (configs t)); unattributed (sync_routes_action (routes t))] d.

(** The sweep: [held] was read before the tables it is judged by, and the shard it is
    cleared from is the later one. *)
Definition sweep_orphaned (ack : N) (held : gset N) (t : Tables text) (d : DriveState) : DriveState :=
  match dv_flow_net d with
  | None => d
  | Some _ =>
      let orphaned := List.filter (fun port => negb (bool_decide (port ∈ dom (configs t)))) (elements held) in
      match orphaned with
      | [] => d
      | _ => clear_imposter_state ack orphaned d
      end
  end.

(** The whole reconcile. [between_read_and_drive] runs under the drive lock and cannot
    drive; [between_sweep_reads] is whatever the node applied between the two reads of
    the sweep, with the tables it left. *)
Definition reconcile_engine (L : Local) (ack : N) (t : Tables text)
    (between_sweep_reads : DriveState -> DriveState * Tables text) (d : DriveState) : DriveState :=
  let d := sync_engine L ack t d in
  let held := match dv_flow_net d with Some net => imposter_ports_held net | None => ∅ end in
  let '(d, t) := between_sweep_reads d in
  sweep_orphaned ack held t d.

End Reconcile.

End Drive.
Arguments DriveState : clear implicits.
