(* ===== verification/DriveFacts.v ===== *)
(** * What driving the engine promises

    The failure maps say exactly what the last reports said, a change the engine missed
    keeps the node degraded until a drive covers it, stub edits leave the engine with the
    committed list, and a port keeps its flow state as long as the fleet names it. *)

From S2P Require Import Prelude Upstream Ring Node Auth Rpc FlowConfig Shard Flow FlowFleet Control Recorded StateMachine Demo ApplyFacts Replica Projection Drive.

Section Facts.
  Context {E : Type} `{!ImposterManager E} {ftext : Type}.
  Implicit Types (d : DriveState E ftext).

(** ** Reports *)

Lemma lookup_remove_all ports : forall (m : gmap N string) p,
  remove_all ports m !! p = if decide (p ∈ ports) then None else m !! p.
Proof.
  induction ports as [|q ports IH]; intros m p; simpl; [done|]. rewrite IH. destruct (decide (p = q)) as [->|Hne].
  - rewrite lookup_delete_eq, (decide_True (P := q ∈ q :: ports)) by apply list_elem_of_here. by case_decide.
  - rewrite lookup_delete_ne by done. repeat case_decide; try done; exfalso; set_solver.
Qed.

Lemma lookup_reap scope (m : gmap N string) p :
  reap scope m !! p =
  match scope with WholeSet desired => if decide (p ∈ desired) then m !! p else None | OnePort _ => m !! p end.
Proof.
  destruct scope as [desired|]; [|done]. simpl. rewrite map_lookup_filter. destruct (m !! p); simpl; [|by case_decide].
  case_decide; by case_guard.
Qed.

(** The errors a report holds for a port, in order. *)
Definition port_errors (p : N) (fs : list (N * ImposterError)) : list string :=
  omap (fun f : N * ImposterError => if (f.1 =? p)%N then Some (ie_text f.2) else None) fs.

Lemma port_errors_cons p q e fs :
  port_errors p ((q, e) :: fs) = if (q =? p)%N then ie_text e :: port_errors p fs else port_errors p fs.
Proof. unfold port_errors. simpl. by destruct (q =? p)%N. Qed.

(** The last error recorded wins. *)
Lemma last_error {A} (e : A) l (m : option A) :
  match last (e :: l) with Some x => Some x | None => m end = match last l with Some x => Some x | None => Some e end.
Proof. rewrite last_cons. by destruct (last l). Qed.

Lemma record_failed_lookup unbound scope fs : forall recorded failures binds p,
  (record_failed unbound scope fs recorded failures binds).1 !! p =
    match last (port_errors p fs) with Some e => Some e | None => failures !! p end /\
  (record_failed unbound scope fs recorded failures binds).2 !! p =
    if desires scope p && unbound p && negb (bool_decide (p ∈ recorded))
    then match head (port_errors p fs) with Some e => Some e | None => binds !! p end else binds !! p.
Proof.
  induction fs as [|[q e] fs IH]; intros recorded failures binds p.
  { simpl. split; [done|]. by destruct (_ && _). }
  rewrite port_errors_cons. cbn [record_failed]. destruct (N.eqb_spec q p) as [->|Hne].
  - rewrite last_error. cbn [head]. destruct (desires scope p && unbound p) eqn:Hd; cbn [andb].
    + destruct (bool_decide_reflect (p ∈ recorded)) as [Hr|Hr]; cbn [negb].
      * destruct (IH recorded (<[p := ie_text e]> failures) binds p) as [-> ->].
        by rewrite Hd, lookup_insert_eq, (bool_decide_eq_true_2 (p ∈ recorded)).
      * destruct (IH ({[p]} ∪ recorded) (<[p := ie_text e]> failures) (<[p := ie_text e]> binds) p) as [-> ->].
        by rewrite Hd, !lookup_insert_eq, (bool_decide_eq_true_2 (p ∈ {[p]} ∪ recorded)) by set_solver.
    + destruct (IH recorded (<[p := ie_text e]> failures) binds p) as [-> ->]. by rewrite Hd, lookup_insert_eq.
  - destruct (desires scope q && unbound q && negb (bool_decide (q ∈ recorded))).
    + destruct (IH ({[q]} ∪ recorded) (<[q := ie_text e]> failures) (<[q := ie_text e]> binds) p) as [-> ->].
      rewrite !lookup_insert_ne by done. split; [done|].
      by rewrite (bool_decide_ext (p ∈ {[q]} ∪ recorded) (p ∈ recorded)) by set_solver.
    + destruct (IH recorded (<[q := ie_text e]> failures) binds p) as [-> ->]. by rewrite lookup_insert_ne.
Qed.

Definition in_scope (scope : ReportScope) (p : N) : Prop :=
  match scope with WholeSet desired => p ∈ desired | OnePort _ => True end.

#[local] Instance in_scope_dec scope p : Decision (in_scope scope p).
Proof. destruct scope; simpl; apply _. Defined.

Definition touched (report : ApplyReport) : list N :=
  created report ++ replaced report ++ stub_patched report ++ toggled report ++ deleted report.

Definition rebound (report : ApplyReport) : list N := created report ++ replaced report ++ deleted report.

Lemma reap_removed scope ports (m : gmap N string) p :
  reap scope (remove_all ports m) !! p = if decide (p ∈ ports \/ ~ in_scope scope p) then None else m !! p.
Proof.
  rewrite lookup_reap, lookup_remove_all.
  destruct scope as [desired|only]; simpl; repeat case_decide; try done; exfalso; tauto.
Qed.

Lemma report_failures report scope d p :
  dv_apply_failures (record_report report scope d) !! p =
    match last (port_errors p (failed report)) with
    | Some e => Some e
    | None => if decide (p ∈ touched report \/ ~ in_scope scope p) then None else dv_apply_failures d !! p
    end.
Proof.
  unfold record_report. simpl. fold (touched report). rewrite <- reap_removed. by apply record_failed_lookup.
Qed.

(** The failure maps say what the reports said. After a report is folded in, a port's
    drive failure is the report's last error for it; without one, its old failure, unless
    the report names the port among what it did or a whole-set report finds no config
    for it. Its bind reason is the report's first error for it when the engine holds it
    unbound and it is wanted; without one, its old reason, unless the report bound,
    replaced or deleted it or nothing wants it any more. *)
Theorem record_report_spec report scope d p :
  dv_apply_failures (record_report report scope d) !! p =
    match last (port_errors p (failed report)) with
    | Some e => Some e
    | None => if decide (p ∈ touched report \/ ~ in_scope scope p) then None else dv_apply_failures d !! p
    end /\
  dv_bind_failures (record_report report scope d) !! p =
    match (if desires scope p && serving_unbound d p then head (port_errors p (failed report)) else None) with
    | Some e => Some e
    | None => if decide (p ∈ rebound report \/ ~ in_scope scope p) then None else dv_bind_failures d !! p
    end.
Proof.
  split; [apply report_failures|]. unfold record_report. simpl. fold (rebound report). rewrite <- reap_removed.
  destruct (record_failed_lookup (serving_unbound d) scope (failed report) ∅
    (reap scope (remove_all (touched report) (dv_apply_failures d)))
    (reap scope (remove_all (rebound report) (dv_bind_failures d))) p) as [_ H]. etrans; [exact H|].
  rewrite (bool_decide_eq_false_2 (p ∈ ∅)) by set_solver. rewrite andb_true_r.
  by destruct (desires scope p && serving_unbound d p).
Qed.

(** ** What a node owes its engine *)

Definition failed_ports (report : ApplyReport) : gset N := list_to_set (failed report).*1.

(** What the engine answers to a whole-set drive. *)
Definition sync_answer (desired : DesiredSet) (engine : E) : result ImposterError ApplyReport :=
  match ds_refused desired with
  | [] => (apply_config (ds_admitted desired) engine).2
  | _ => Ok (apply_admitted engine (ds_admitted desired) (ds_held desired)).2
  end.

(** The ports whose committed change the engine has not taken: a drive that failed adds
    its port (0 for a set the engine refused), a report settles the ports it names and
    adds those it failed, a delete settles its port, a whole-set drive settles all but
    what it failed. A later edit of a port settles nothing. *)
Definition owed_after (L : Local) (action : EngineAction) d (owed : gset N) : gset N :=
  match dv_engine d with
  | None => owed
  | Some engine =>
      let edit port (answer : result ImposterError ()) := match answer with Ok _ => owed | Err _ => {[port]} ∪ owed end in
      match action with
      | ASync desired => match sync_answer desired engine with Ok report => failed_ports report | Err _ => {[0%N]} ∪ owed end
      | APut config _ =>
          match cfg_port config, verdict L config with
          | None, _ => {[0%N]} ∪ owed
          | Some _, Err _ => owed
          | Some port, Ok _ =>
              match (apply_one config engine).2 with
              | Ok report => (owed ∖ list_to_set (touched report)) ∪ failed_ports report
              | Err _ => {[port]} ∪ owed
              end
          end
      | ADelete port =>
          match (delete_imposter port engine).2 with
          | Ok _ => owed ∖ {[port]}
          | Err e => if ie_not_found e then owed ∖ {[port]} else {[port]} ∪ owed
          end
      | ASetEnabled port enabled => edit port (set_imposter_enabled port enabled engine).2
      | APatch port script => edit port (drive_patch port script engine).2
      | AAppendResponses port id responses merged => edit port (append_responses d port id responses merged engine).2
      | AClearProxyResponses _ | ARestart _ _ _ | ASyncRoutes _ | ARefuseRoutesSync _ _ => owed
      end
  end.

Fixpoint owed_run (L : Local) (ack : N) (actions : list AttributedAction) d (owed : gset N) : gset N :=
  match actions with
  | [] => owed
  | a :: rest => owed_run L ack rest (drive_one L ack (aa_action a) d) (owed_after L (aa_action a) d owed)
  end.

(** Everything owed is on record, or a whole-set drive is due. *)
Definition on_record d (owed : gset N) : Prop := owed ⊆ dom (dv_apply_failures d) \/ dv_needs_resync d = true.

Lemma on_record_degraded d owed : on_record d owed -> owed <> ∅ -> is_degraded d = true.
Proof.
  unfold is_degraded. intros [Hs| ->] Hne; [|by rewrite orb_true_r].
  rewrite bool_decide_eq_false_2; [done|]. intros He. rewrite He, dom_empty_L in Hs. set_solver.
Qed.

(** Drives that leave the maps alone leave what is owed on record. *)
Lemma on_record_same d d' owed :
  dv_apply_failures d' = dv_apply_failures d -> dv_needs_resync d' = dv_needs_resync d ->
  on_record d owed -> on_record d' owed.
Proof. unfold on_record. by intros -> ->. Qed.

Lemma on_record_failure d port reason owed : on_record d owed -> on_record (record_failure port reason d) ({[port]} ∪ owed).
Proof. unfold on_record. simpl. rewrite dom_insert_L. intros [|]; [left; set_solver|by right]. Qed.

Lemma on_record_edit d port out owed :
  on_record d owed ->
  on_record (drive_edit port out d) (match out.2 with Ok _ => owed | Err _ => {[port]} ∪ owed end).
Proof.
  intros H. unfold drive_edit. destruct out as [engine [|e]]; simpl.
  - unfold clear_drive_outcome. simpl. destruct (dv_apply_failures d !! port); [by right|exact H].
  - by apply on_record_failure.
Qed.

Lemma last_port_errors p fs : p ∈ fs.*1 <-> is_Some (last (port_errors p fs)).
Proof.
  rewrite last_is_Some. unfold port_errors. split.
  - intros ([q e] & -> & Hin)%list_elem_of_fmap. simpl. intros Hnil. assert (ie_text e ∈ ([] : list string)); [|set_solver].
    rewrite <- Hnil. apply list_elem_of_omap. exists (q, e). simpl. by rewrite N.eqb_refl.
  - intros Hne. destruct (omap _ fs) as [|x l] eqn:El; [done|].
    assert (x ∈ x :: l) as Hx by apply list_elem_of_here. rewrite <- El in Hx.
    apply list_elem_of_omap in Hx as ([q e] & Hin & Hq). simpl in Hq. destruct (N.eqb_spec q p) as [->|]; [|done].
    apply list_elem_of_fmap. by exists (p, e).
Qed.

Lemma failed_recorded report scope d : failed_ports report ⊆ dom (dv_apply_failures (record_report report scope d)).
Proof.
  intros p Hp%elem_of_list_to_set%last_port_errors. apply elem_of_dom. rewrite report_failures. by destruct (last _), Hp.
Qed.

Lemma on_record_report report port d owed :
  on_record d owed ->
  on_record (record_report report (OnePort port) d) ((owed ∖ list_to_set (touched report)) ∪ failed_ports report).
Proof.
  intros [Hs|Hr]; [left|by right]. intros p [Hp|Hp]%elem_of_union; [|by apply (failed_recorded report (OnePort port))].
  apply elem_of_difference in Hp as [Hp Ht]. rewrite elem_of_list_to_set in Ht. apply Hs in Hp.
  apply elem_of_dom. rewrite report_failures. destruct (last _); [done|]. apply elem_of_dom in Hp.
  rewrite decide_False; [done|]. simpl. tauto.
Qed.

Lemma on_record_restart ack port what stubs engine d owed :
  on_record d owed -> on_record (restart ack port what stubs engine d) owed.
Proof. apply on_record_same; unfold restart; by repeat case_match. Qed.

Lemma drive_one_on_record L ack action d owed :
  on_record d owed -> on_record (drive_one L ack action d) (owed_after L action d owed).
Proof.
  intros H. unfold drive_one, owed_after. destruct (dv_engine d) as [engine|] eqn:He; [|by destruct action].
  destruct action as [desired|config what|port|port what stubs|port|port script|port id rs merged|port en|table|id err];
    try (by apply on_record_edit); try exact H; try (by apply on_record_restart).
  - unfold drive_sync, sync_answer. destruct (ds_refused desired) as [|r rs].
    + destruct (apply_config _ _) as [engine' [report|e]]; simpl; [left; apply failed_recorded|by apply on_record_failure].
    + destruct (apply_admitted _ _ _) as [engine' report]. left. apply failed_recorded.
  - unfold drive_put. destruct (cfg_port config) as [port|]; [|by apply on_record_failure].
    destruct (verdict L config); [|exact H]. destruct (apply_one config engine) as [engine' [report|e]]; simpl.
    + pose proof (on_record_report report port
        (set_engine engine' (set_sequencing (fun m => SequencingRegistry.set m port config) d)) owed H) as H'.
      destruct what as [what|]; [|done]. destruct (is_fresh report port); [done|by apply on_record_restart].
    + by apply (on_record_failure (set_engine engine' (set_sequencing _ d))).
  - unfold drive_delete. assert (forall engine', on_record (clear_imposter_state ack [port] (set_failures (delete port)
      (delete port) (dv_needs_resync d) (set_engine engine' (set_sequencing (fun m => SequencingRegistry.remove m port) d))))
      (owed ∖ {[port]})) as Hgone.
    { intros engine'. unfold on_record. simpl. rewrite dom_delete_L. destruct H; [left; set_solver|by right]. }
    destruct (delete_imposter port engine) as [engine' [|e]]; simpl; [apply Hgone|].
    destruct (ie_not_found e); [apply Hgone|by apply (on_record_failure (set_engine engine' (set_sequencing _ d)))].
Qed.

Lemma drive_engine_on_record L ack actions : forall d owed,
  on_record d owed -> on_record (drive_engine L ack actions d) (owed_run L ack actions d owed).
Proof. induction actions as [|a actions IH]; intros d owed H; simpl; [done|]. by apply IH, drive_one_on_record. Qed.


(** ** Flow state *)

(** A flow of the node's shard. *)
Definition flow_at d (f : string) : option FlowMem :=
  net ← dv_flow_net d; memory (fn_shard net) !! f.

Lemma flow_at_clear ack ports d f :
  flow_at (clear_imposter_state ack ports d) f = if in_ports (list_to_set ports) f then None else flow_at d f.
Proof.
  unfold flow_at, clear_imposter_state. simpl. destruct (dv_flow_net d) as [net|]; simpl; [apply clear_scopes_memory|].
  by destruct (in_ports _ _).
Qed.

Lemma flow_at_same d d' f : dv_flow_net d' = dv_flow_net d -> flow_at d' f = flow_at d f.
Proof. unfold flow_at. by intros ->. Qed.

(** The actions that forget a port's flows: deletes, whole-imposter restarts, and a
    whole-set drive of a set that does not name it. *)
Definition forgets (action : EngineAction) (p : N) : Prop :=
  match action with
  | ASync desired => p ∉ ds_held desired
  | APut config (Some Restart.Imposter) => cfg_port config = Some p
  | ADelete port | ARestart port Restart.Imposter _ => port = p
  | _ => False
  end.

Lemma clear_keeps ack ports d f :
  (forall p, imposter_port f = Some p -> p ∉ ports) -> flow_at (clear_imposter_state ack ports d) f = flow_at d f.
Proof.
  intros H. rewrite flow_at_clear. destruct (in_ports _ f) eqn:Hi; [|done].
  apply elem_of_in_ports in Hi as (p & Hp & Hin%elem_of_list_to_set). by destruct (H p Hp).
Qed.

Lemma clear_drops ack ports d f p :
  imposter_port f = Some p -> p ∈ ports -> flow_at (clear_imposter_state ack ports d) f = None.
Proof.
  intros Hp Hin. rewrite flow_at_clear.
  assert (in_ports (list_to_set ports) f = true) as ->; [|done].
  apply elem_of_in_ports. exists p. by rewrite elem_of_list_to_set.
Qed.

Lemma restart_keeps ack port what stubs engine d f :
  (what = Restart.Imposter -> imposter_port f <> Some port) ->
  flow_at (restart ack port what stubs engine d) f = flow_at d f.
Proof.
  intros H. unfold restart. destruct what; [by destruct (stubs !! index)|done| |done].
  rewrite clear_keeps; [done|]. intros p Hp ->%list_elem_of_singleton. by apply H.
Qed.

Lemma sync_keeps ack held answer d f :
  (forall p, imposter_port f = Some p -> p ∈ held) -> flow_at (sync_outcome ack held answer d) f = flow_at d f.
Proof.
  intros H. destruct answer as [report|e]; [|done]. unfold sync_outcome. cbv zeta. rewrite clear_keeps; [done|].
  intros p Hp [_ Hn]%elem_of_List_filter. apply negb_true_iff, bool_decide_eq_false in Hn. by apply Hn, H.
Qed.

Lemma edit_keeps port out d f : flow_at (drive_edit port out d) f = flow_at d f.
Proof. unfold drive_edit, clear_drive_outcome. by repeat case_match. Qed.

Lemma drive_keeps L ack action d f :
  (forall p, imposter_port f = Some p -> ~ forgets action p) -> flow_at (drive_one L ack action d) f = flow_at d f.
Proof.
  intros H. unfold drive_one. destruct (dv_engine d) as [engine|] eqn:He; [|by destruct action].
  destruct action as [desired|config what|port|port what stubs|port|port script|port id rs merged|port en|table|id err];
    simpl in H; try done.
  - unfold drive_sync. destruct (match ds_refused desired with [] => _ | _ => _ end) as [engine' answer].
    rewrite sync_keeps; [done|]. intros p Hp. apply dec_stable. by apply H.
  - unfold drive_put. destruct (cfg_port config) as [port|]; [|done]. destruct (verdict L config); [|done].
    destruct (apply_one config engine) as [engine' [report|e]]; [|done]. destruct what as [what|]; [|done].
    destruct (is_fresh report port); [done|]. rewrite restart_keeps; [done|].
    intros -> Hp. by apply (H port).
  - rewrite restart_keeps; [done|]. intros -> Hp. by apply (H port).
  - unfold drive_delete. cbv zeta.
    assert (forall d0, dv_flow_net d0 = dv_flow_net d -> flow_at (clear_imposter_state ack [port] d0) f = flow_at d f) as Hc.
    { intros d0 Hd. rewrite clear_keeps; [by apply flow_at_same|]. intros p Hp ->%list_elem_of_singleton. by apply (H port). }
    destruct (delete_imposter port engine) as [engine' [|e]]; [by apply Hc|]. destruct (ie_not_found e); [by apply Hc|done].
  - apply edit_keeps.
  - apply edit_keeps.
  - apply edit_keeps.
Qed.

(** A port keeps its flow state while the fleet names it. No drive drops a flow unless
    it belongs to an imposter the action deletes or restarts whole, or a whole-set drive
    does not name, whatever the engine answers, a failed replace included; flows of no
    imposter are never dropped. Once the engine has let go of a deleted imposter, or
    never had it, no flow of it is left; and a whole-set drive drops the flows of every
    port it does not name that the engine reports deleted or that had failed before. *)
Theorem flow_state_follows_config L ack action d f :
  ((forall p, imposter_port f = Some p -> ~ forgets action p) -> flow_at (drive_one L ack action d) f = flow_at d f) /\
  (forall p engine, imposter_port f = Some p -> dv_engine d = Some engine ->
     (action = ADelete p -> match (delete_imposter p engine).2 with Ok _ => True | Err e => ie_not_found e = true end ->
        flow_at (drive_one L ack action d) f = None) /\
     (forall desired report, action = ASync desired -> sync_answer desired engine = Ok report -> p ∉ ds_held desired ->
        p ∈ deleted report \/ (p <> 0%N /\ is_Some (dv_apply_failures d !! p)) ->
        flow_at (drive_one L ack action d) f = None)).
Proof.
  split; [apply drive_keeps|]. intros p engine Hp He. unfold drive_one. rewrite He. split.
  - intros -> Hd. unfold drive_delete. cbv zeta.
    destruct (delete_imposter p engine) as [engine' [|e]]; simpl in Hd; [|rewrite Hd];
      (eapply clear_drops; [done|apply list_elem_of_here]).
  - intros desired report -> Ha Hn Hw. unfold drive_sync, sync_answer in *.
    assert (exists engine', match ds_refused desired with
      | [] => apply_config (ds_admitted desired) engine
      | _ => let '(engine, report) := apply_admitted engine (ds_admitted desired) (ds_held desired) in (engine, Ok report)
      end = (engine', Ok report)) as [engine' ->].
    { destruct (ds_refused desired); [destruct (apply_config _ _)|destruct (apply_admitted _ _ _)]; simpl in Ha; rewrite Ha || injection Ha as ->; by eexists. }
    simpl. eapply clear_drops; [done|]. apply elem_of_List_filter.
    split; [|by apply negb_true_iff, bool_decide_eq_false]. apply elem_of_app. destruct Hw as [|[H0 [e Hf]]]; [by left|right].
    apply elem_of_List_filter. split; [|by apply negb_true_iff, N.eqb_neq].
    apply list_elem_of_fmap. exists (p, e). split; [done|]. by apply elem_of_map_to_list.
Qed.

(** ** The reconcile *)

Section Reconcile.
  Context {text : Type} {CD : Codec text} {ER : EngineRules}.

(** The ports the node's shard holds imposter flows of. *)
Definition held_ports d : gset N := match dv_flow_net d with Some net => imposter_ports_held net | None => ∅ end.

(** A reconcile sweeps orphans and nothing else. Its whole-set drive drops no flow of a
    port the tables it read name; and after it, whatever the node applied and drove
    between the sweep's two reads, a flow is gone exactly when its port held flows at the
    first read and the tables of the second do not name it, so an imposter committed
    meanwhile keeps its flows. *)
Theorem reconcile_sweep_spec L ack (t : Tables text) between d f :
  let d1 := sync_engine L ack t d in
  ((forall p, imposter_port f = Some p -> p ∈ dom (configs t)) -> flow_at d1 f = flow_at d f) /\
  flow_at (reconcile_engine L ack t between d) f =
    match imposter_port f with
    | Some p => if decide (p ∈ held_ports d1 /\ p ∉ dom (configs (between d1).2)) then None else flow_at (between d1).1 f
    | None => flow_at (between d1).1 f
    end.
Proof.
  cbv zeta. split.
  - intros Hp.
    change (flow_at (drive_one L ack (sync_routes_action (routes t)) (drive_one L ack (sync_action L (configs t)) d)) f
      = flow_at d f).
    rewrite drive_keeps; [apply drive_keeps|].
    + intros p Hf. simpl. rewrite desired_held. intros Hn. by apply Hn, Hp.
    + intros p _. unfold sync_routes_action. by destruct (desired_routes (routes t)) as [|[]]; intros [].
  - unfold reconcile_engine. fold (held_ports (sync_engine L ack t d)). set (held := held_ports (sync_engine L ack t d)).
    destruct (between (sync_engine L ack t d)) as [d2 t2]. simpl. unfold sweep_orphaned.
    set (orphaned := List.filter _ _).
    assert (forall p, p ∈ orphaned <-> p ∈ held /\ p ∉ dom (configs t2)) as Ho.
    { intros p. unfold orphaned. rewrite elem_of_List_filter, elem_of_elements.
      by rewrite negb_true_iff, bool_decide_eq_false. }
    assert (flow_at (match orphaned with [] => d2 | _ => clear_imposter_state ack orphaned d2 end) f =
            flow_at (clear_imposter_state ack orphaned d2) f) as Hc.
    { clearbody orphaned. destruct orphaned as [|x l]; [|done]. rewrite clear_keeps; [done|]. set_solver. }
    destruct (dv_flow_net d2) as [net|] eqn:Hnet.
    + rewrite Hc. destruct (imposter_port f) as [p|] eqn:Hf; [|by rewrite clear_keeps by congruence].
      destruct (decide (p ∈ held /\ p ∉ dom (configs t2))) as [Hd%Ho|Hd]; [by eapply clear_drops|].
      rewrite clear_keeps; [done|]. intros q Hq. rewrite Hf in Hq. injection Hq as <-. by rewrite Ho.
    + assert (flow_at d2 f = None) as -> by (unfold flow_at; by rewrite Hnet). by repeat case_match.
Qed.

End Reconcile.

End Facts.

(** ** Stub edits *)

(** An engine whose imposter on [port] keeps its stubs as the list [live], edited as the
    state machine edits the committed one, and deleted from by position. *)
Class MirrorsStubs {E} `{!ImposterManager E} (port : N) (live : E -> list Stub) := {
  ms_get : forall e, exists bound, get_imposter e port = Ok (bound, live e);
  ms_add : forall e stub index l, edit_step (live e) (Add stub index) = Ok l ->
    exists e', add_stub port stub index e = (e', Ok tt) /\ live e' = l;
  ms_replace : forall e id stub l, edit_step (live e) (ReplaceById id stub) = Ok l ->
    exists e', replace_stub_by_id port id stub e = (e', Ok tt) /\ live e' = l;
  ms_delete : forall e id l, edit_step (live e) (DeleteById id) = Ok l ->
    exists e', delete_stub_by_id port id e = (e', Ok tt) /\ live e' = l;
  ms_move : forall e from to l, edit_step (live e) (Move from to) = Ok l ->
    exists e', move_stub port from to e = (e', Ok tt) /\ live e' = l;
  ms_delete_at : forall e i, (i < length (live e))%nat ->
    exists e', delete_stub port i e = (e', Ok tt) /\ live e' = vec_remove i (live e);
}.

Section Edits.
  Context {E : Type} `{!ImposterManager E} (port : N) (live : E -> list Stub) `{!MirrorsStubs port live}.

Lemma space_indices_snoc space l x :
  space_indices space (l ++ [x]) = space_indices space l ++ (if decide (in_space space x) then [length l] else []).
Proof.
  unfold space_indices. rewrite imap_app. simpl. rewrite Nat.add_0_r, List.filter_app, fmap_app. f_equal. simpl.
  by destruct (decide (in_space space x)); [rewrite bool_decide_eq_true_2|rewrite bool_decide_eq_false_2].
Qed.

(** Deleting a space's indices from the last leaves what a filter leaves. *)
Lemma delete_space_indices space l : forall tail e,
  live e = l ++ tail ->
  exists e', delete_indices port (reverse (space_indices space l)) e = (e', Ok tt) /\
    live e' = filter (fun s => ~ in_space space s) l ++ tail.
Proof.
  induction l as [|x l IH] using rev_ind; intros tail e He; [by exists e|].
  rewrite space_indices_snoc, filter_app, reverse_app. destruct (decide (in_space space x)) as [Hx|Hx].
  - rewrite filter_cons_False by tauto. simpl.
    destruct (ms_delete_at e (length l)) as (e1 & -> & Hl); [rewrite He, !length_app; simpl; lia|].
    rewrite filter_nil, app_nil_r. apply IH. rewrite Hl, He. unfold vec_remove.
    rewrite <- app_assoc, take_app_length, drop_app_ge by lia. by replace (S (length l) - length l)%nat with 1%nat by lia.
  - rewrite filter_cons_True by done. simpl. rewrite filter_nil, <- app_assoc. apply IH. by rewrite He, <- app_assoc.
Qed.

Lemma drive_step_mirrors step e l :
  edit_step (live e) step = Ok l -> exists e', drive_step port step e = (e', Ok tt) /\ live e' = l.
Proof.
  destruct step as [stub index|id stub|id|space|from to]; intros H; simpl.
  - by apply ms_add.
  - by apply ms_replace.
  - by apply ms_delete.
  - injection H as <-. destruct (ms_get e) as [bound ->].
    destruct (delete_space_indices space (live e) [] e) as (e' & -> & Hl); [by rewrite app_nil_r|].
    exists e'. by rewrite app_nil_r in Hl.
  - by apply ms_move.
Qed.

(** A committed stub edit leaves the engine with the committed list. Where the state
    machine accepts a script on the list it stores, driving the script into an engine
    whose live list is that list succeeds step by step and ends with the list the state
    machine stored, a space's stubs deleted by position included. *)
Theorem drive_patch_mirrors script e l :
  apply_edit (live e) script = Ok l -> exists e', drive_patch port script e = (e', Ok tt) /\ live e' = l.
Proof.
  revert e. induction script as [|step script IH]; intros e; simpl; [intros [= <-]; by exists e|].
  destruct (edit_step (live e) step) as [next|] eqn:Hs; [|done]. simpl. intros Hl.
  destruct (drive_step_mirrors step e next Hs) as (e1 & -> & <-). by apply IH.
Qed.

End Edits.

(** ** An engine that is one list of stubs *)

Definition list_step (e : list Stub) (step : StubEdit) : list Stub * result ImposterError () :=
  match edit_step e step with
  | Ok l => (l, Ok tt)
  | Err reason => (e, Err {| ie_not_found := false; ie_text := reason |})
  end.

Lemma list_step_ok e step l : edit_step e step = Ok l -> exists e', list_step e step = (e', Ok tt) /\ e' = l.
Proof. intros H. unfold list_step. rewrite H. eauto. Qed.

#[local] Instance list_engine : ImposterManager (list Stub) := {
  list_imposters e := [(Some 6400%N, true)];
  get_imposter e port := Ok (true, e);
  apply_config configs e := (concat (cfg_stubs <$> configs), Ok report_default);
  apply_one config e := (cfg_stubs config, Ok report_default);
  delete_imposter port e := ([], Ok tt);
  set_imposter_enabled port enabled e := (e, Ok tt);
  clear_proxy_responses port e := (e, Ok tt);
  add_stub port stub index e := list_step e (Add stub index);
  replace_stub port index stub e := (<[index := stub]> e, Ok tt);
  replace_stubs port stubs e := (stubs, Ok tt);
  replace_stub_by_id port id stub e := list_step e (ReplaceById id stub);
  delete_stub_by_id port id e := list_step e (DeleteById id);
  delete_stub port index e :=
    if (index <? length e)%nat then (vec_remove index e, Ok tt)
    else (e, Err {| ie_not_found := false; ie_text := "stub index out of bounds" |});
  move_stub port from to e := list_step e (Move from to);
  append_stub_responses_by_id port id responses e := (e, Ok tt);
  restart_runtime_state port e := (e, Ok tt);
}.

#[local] Instance list_engine_mirrors : MirrorsStubs (E := list Stub) 6400 id.
Proof.
  split; unfold id.
  - by exists true.
  - intros e stub index l. apply list_step_ok.
  - intros e i stub l. apply list_step_ok.
  - intros e i l. apply list_step_ok.
  - intros e from to l. apply list_step_ok.
  - intros e i Hi. simpl. rewrite (proj2 (Nat.ltb_lt _ _) Hi). eauto.
Qed.

Definition spaced_stub (id space : string) : Stub :=
  {| stub_id := Some id; stub_space := Some space; stub_predicates := []; stub_responses := [];
     stub_recorded_from := None; stub_rest := EmptyString |}.

Lemma drive_patch_mirrors_witness :
  let before := [spaced_stub "a" "x"; spaced_stub "b" "y"; spaced_stub "c" "x"; spaced_stub "d" "y"] in
  exists e, drive_patch 6400 [Move 0 3; DeleteBySpace "x"; DeleteById "d"] before = (e, Ok tt) /\ e = [spaced_stub "b" "y"].
Proof.
  apply (drive_patch_mirrors (E := list Stub) 6400 id
           [Move 0 3; DeleteBySpace "x"; DeleteById "d"]
           [spaced_stub "a" "x"; spaced_stub "b" "y"; spaced_stub "c" "x"; spaced_stub "d" "y"] [spaced_stub "b" "y"]).
  vm_compute. reflexivity.
Defined.
