(* ===== verification/Sequencer.v ===== *)
(** * Response cycling: [stores/sequencer.rs]

    One cursor per stub and scope, kept by the node the ring names. A node answers from
    its own cursors when the imposter never opted in or the fleet cannot answer; a
    cursor reset is delivered to every peer with bounded retries. The engine's cycler is
    a parameter. *)

From S2P Require Import Prelude Upstream Ring Node FlowConfig.

(** The cycler of one stub: a fresh one, the advancing read and the read that does not
    advance. *)
Class RuleCycler (C : Type) := {
  cycler_default : C;
  get_response_index_advance : C -> N -> (N -> option N) -> C * N;
  peek_response_index : C -> N -> N;
}.

#[export] Instance sequencing_mode_eq_dec : EqDecision SequencingMode.t.
Proof. solve_decision. Defined.

Module DecisionPath.
Inductive t :=
  | Owner
  | Forward
  | Local
  | Fallback.

Definition as_str (p : t) : string :=
  match p with
  | Owner => "owner"
  | Forward => "forward"
  | Local => "local"
  | Fallback => "fallback"
  end.
End DecisionPath.

Record SeqReq := {
  sq_m_idx : N;
  sq_port : N;
  sq_stub_key : string;
  sq_scope : string;
  sq_response_count : N;
  sq_repeats : list N;
}.

Inductive SeqReply :=
  | SeqIndex (index : N)
  | SeqFenced (owner_m_idx : N)
  | SeqNotOwner (owner : NodeId)
  | SeqError (reason : string).

Record ResetReq := { tq_port : N; tq_stub_key : option string }.

Abbreviation CursorKey := (N * string * string)%type.

(** [usize as u32]. *)
Definition as_u32 (n : N) : N := n mod 4294967296.

(** The ring key of a cursor: its parts with U+0001 between them. *)
Definition wire_key (key : CursorKey) : string :=
  let '(port, stub_key, scope) := key in
  let sep := String (ascii_of_N 1) EmptyString in
  pretty port +:+ sep +:+ stub_key +:+ sep +:+ scope.

Definition OwnedKey_sequence (key : CursorKey) : OwnedKey :=
  {| ok_class := KeyClass.Sequence; ok_key := wire_key key |}.

Definition seq_view (slot : NodeSlot) : option (NodeId * Ring) :=
  match slot with
  | Unbound | Dropped => None
  | Bound id ring => if ring_is_empty ring then None else Some (id, ring)
  end.

Section Node.
  Context {C : Type} `{!RuleCycler C} (xxh64 : bytes -> N -> N).

(** A node's sequencer: the node behind it, whether its bridge runs, whether the node is
    isolated, the modes of its ports and its cursors. *)
Record SeqNode := {
  sn_slot : NodeSlot;
  sn_bridge : bool;
  sn_isolated : bool;
  sn_registry : SequencingRegistry.t;
  sn_cursors : gmap CursorKey C;
}.

Definition with_cursors (node : SeqNode) (m : gmap CursorKey C) : SeqNode :=
  {| sn_slot := sn_slot node; sn_bridge := sn_bridge node; sn_isolated := sn_isolated node;
     sn_registry := sn_registry node; sn_cursors := m |}.

(** Advance or peek the node's own cursor; a zero count touches nothing. The index is
    clamped: after the responses shrink the cycler may answer a stale one. *)
Definition locally (cursors : gmap CursorKey C) (key : CursorKey) (response_count : N) (repeats : list N)
    (advance : bool) : gmap CursorKey C * N :=
  if (response_count =? 0)%N then (cursors, 0%N)
  else
    let cycler := default cycler_default (cursors !! key) in
    let '(cycler, index) :=
      if advance
      then get_response_index_advance cycler (as_u32 response_count) (fun i => repeats !! N.to_nat i)
      else (cycler, peek_response_index cycler (as_u32 response_count)) in
    (<[key := cycler]> cursors, N.min index (response_count - 1)).

(** Where a decision of an [owner] imposter goes. *)
Inductive OwnerPlan :=
  | Unanswered
  | Own
  | AskOwner (owner : NodeId) (req : SeqReq).

Definition owner_plan (node : SeqNode) (key : CursorKey) (response_count : N) (repeats : list N) : OwnerPlan :=
  if negb (sn_bridge node) then Unanswered
  else match seq_view (sn_slot node) with
  | None => Unanswered
  | Some (id, ring) =>
      match owner xxh64 ring (OwnedKey_sequence key) with
      | None => Unanswered
      | Some o =>
          if (o =? id)%N then if sn_isolated node then Unanswered else Own
          else AskOwner o {| sq_m_idx := m_idx ring; sq_port := key.1.1; sq_stub_key := key.1.2; sq_scope := key.2;
                             sq_response_count := response_count; sq_repeats := repeats |}
      end
  end.

(** What the asking node makes of the reply; [None] is a call the bridge or the transport
    failed, or a reply that did not decode. *)
Definition accept_reply (reply : option SeqReply) (response_count : N) : option N :=
  match reply with
  | Some (SeqIndex index) => if (index <? response_count)%N then Some index else None
  | _ => None
  end.

Definition owner_index (node : SeqNode) (key : CursorKey) (response_count : N) (repeats : list N) (advance : bool)
    (call : NodeId -> SeqReq -> option SeqReply) : SeqNode * option (N * DecisionPath.t) :=
  match owner_plan node key response_count repeats with
  | Unanswered => (node, None)
  | Own =>
      let '(m, index) := locally (sn_cursors node) key response_count repeats advance in
      (with_cursors node m, Some (index, DecisionPath.Owner))
  | AskOwner o req =>
      (node, (fun index => (index, DecisionPath.Forward)) <$> accept_reply (call o req) response_count)
  end.

(** One decision: the index to serve, how it was reached, and the annotation it leaves. *)
Definition route (node : SeqNode) (key : CursorKey) (response_count : N) (repeats : list N) (advance : bool)
    (call : NodeId -> SeqReq -> option SeqReply) : SeqNode * (N * DecisionPath.t * list (string * string)) :=
  let local path notes node :=
    let '(m, index) := locally (sn_cursors node) key response_count repeats advance in
    (with_cursors node m, (index, path, notes)) in
  if decide (SequencingRegistry.mode (sn_registry node) key.1.1 = SequencingMode.Owner) then
    match owner_index node key response_count repeats advance call with
    | (node, Some (index, path)) => (node, (index, path, []))
    | (node, None) => local DecisionPath.Fallback [("cluster.sequence", "local-fallback")] node
    end
  else local DecisionPath.Local [] node.

(** The owner's side of a routed decision. *)
Definition owner_decide (node : SeqNode) (req : SeqReq) (advance : bool) : SeqNode * SeqReply :=
  match seq_view (sn_slot node) with
  | None => (node, SeqError "sequencer: no applied membership yet")
  | Some (id, ring) =>
      if negb (sq_m_idx req =? m_idx ring)%N then (node, SeqFenced (m_idx ring))
      else
        let key := (sq_port req, sq_stub_key req, sq_scope req) in
        match owner xxh64 ring (OwnedKey_sequence key) with
        | None => (node, SeqError "sequencer: ring has no members")
        | Some o =>
            if negb (o =? id)%N then (node, SeqNotOwner o)
            else if sn_isolated node then (node, SeqError "sequencer: owner is isolated from the cluster")
            else
              let '(m, index) := locally (sn_cursors node) key (sq_response_count req) (sq_repeats req) advance in
              (with_cursors node m, SeqIndex index)
        end
  end.

(** Drop the cursors of a port, or of one stub on it. *)
Definition forget (port : N) (stub_key : option string) (cursors : gmap CursorKey C) : gmap CursorKey C :=
  match stub_key with
  | None => filter (fun kv : CursorKey * C => kv.1.1.1 <> port) cursors
  | Some key => filter (fun kv : CursorKey * C => kv.1.1.1 <> port \/ kv.1.1.2 <> key) cursors
  end.

Definition forget_at (port : N) (stub_key : option string) (node : SeqNode) : SeqNode :=
  with_cursors node (forget port stub_key (sn_cursors node)).

(** A reset: the node's own cursors at once, and the peers it is then sent to. Under an
    apply of the log nobody is asked. *)
Definition reset_scope (applying : bool) (port : N) (stub_key : option string) (node : SeqNode)
    : SeqNode * list NodeId :=
  (forget_at port stub_key node,
   if applying then []
   else if negb (sn_bridge node) then []
   else match seq_view (sn_slot node) with
   | None => []
   | Some (id, ring) => filter (fun n => n <> id) (members ring)
   end).

End Node.
Arguments SeqNode : clear implicits.

(** ** Delivering a reset *)

Definition RESET_BACKOFF_MIN_MS : N := 1000.
Definition RESET_MAX_ATTEMPTS : nat := 5.

Inductive Delivery :=
  | Delivered
  | NotAMember.

(** How one attempt ended; a panic takes the whole task with it. *)
Inductive Attempt :=
  | Answered (d : Delivery)
  | Failed_attempt
  | Panicked.

(** One peer's task: whether it reports the peer unreached, and the attempts it made, as
    the milliseconds they started at. [took] is how long an attempt ran. Five doublings of
    a second are far from where the pause would saturate. *)
Fixpoint deliver_one (send : nat -> Attempt) (took : nat -> N) (attempt fuel : nat) (now backoff : N)
    : bool * list N :=
  match fuel with
  | O => (true, [])
  | S fuel =>
      match send attempt with
      | Answered _ => (false, [now])
      | Panicked => (true, [now])
      | Failed_attempt =>
          let '(unreached, times) :=
            deliver_one send took (S attempt) fuel (now + took attempt + backoff) (backoff * 2) in
          (unreached, now :: times)
      end
  end.

(** The fan-out, its tasks joined in the order they end in, the unreached peers sorted. *)
Definition deliver_reset (joined : list NodeId) (send : NodeId -> nat -> Attempt) (took : NodeId -> nat -> N)
    : list NodeId :=
  merge_sort N.le
    (List.filter (fun p => (deliver_one (send p) (took p) 1 RESET_MAX_ATTEMPTS 0 RESET_BACKOFF_MIN_MS).1) joined).
