(* ===== verification/SequencerFacts.v ===== *)
(** * What response cycling promises

    A fleet that agrees on its ring cycles as one node would; every decision is in range
    and says when it was not the fleet's; and a reset reaches, or names, every peer. *)

From S2P Require Import Prelude Upstream Ring Node FlowConfig Sequencer.

Section Facts.
  Context {C : Type} `{!RuleCycler C} (xxh64 : bytes -> N -> N).
  Implicit Types (node : SeqNode C) (m : gmap CursorKey C) (key : CursorKey).

(** ** Cursors *)

Lemma locally_range m key count repeats advance :
  (0 < count)%N -> ((locally m key count repeats advance).2 < count)%N.
Proof.
  intros H. unfold locally. rewrite (proj2 (N.eqb_neq _ _)) by lia. destruct (if advance then _ else _) as [c i].
  simpl. lia.
Qed.

(** A decision reads and writes the cursor of its key alone. *)
Lemma locally_agree m m' key count repeats advance :
  m !! key = m' !! key ->
  (locally m key count repeats advance).2 = (locally m' key count repeats advance).2 /\
  (locally m key count repeats advance).1 !! key = (locally m' key count repeats advance).1 !! key.
Proof.
  intros H. unfold locally. destruct (count =? 0)%N; [done|]. rewrite H. destruct (if advance then _ else _) as [c i].
  simpl. by rewrite !lookup_insert_eq.
Qed.

Lemma locally_other m key key' count repeats advance :
  key <> key' -> (locally m key count repeats advance).1 !! key' = m !! key'.
Proof.
  intros H. unfold locally. destruct (count =? 0)%N; [done|]. destruct (if advance then _ else _) as [c i].
  simpl. by rewrite lookup_insert_ne.
Qed.

Lemma forget_agree port stub m m' key :
  m !! key = m' !! key -> forget port stub m !! key = forget port stub m' !! key.
Proof. intros H. unfold forget. destruct stub; by rewrite !map_lookup_filter, H. Qed.

Lemma with_cursors_same node : with_cursors node (sn_cursors node) = node.
Proof. by destruct node. Qed.

(** ** One decision *)

(** A decision is always answered, in range of the responses, and its path says who
    answered it: whatever the node's state and whatever the asked owner replies, the
    index is below the response count, the response is annotated exactly when an
    opted-in imposter was cycled from the node's own cursor, and a reply that is refused,
    out of range or missing costs the node a step of its own cursor and nothing else. *)
Theorem route_in_range node key count repeats advance call :
  let '(node', (index, path, notes)) := route xxh64 node key count repeats advance call in
  ((0 < count)%N -> (index < count)%N) /\ (count = 0%N -> index = 0%N) /\
  (notes <> [] <-> path = DecisionPath.Fallback) /\
  (path = DecisionPath.Forward -> node' = node) /\
  (path <> DecisionPath.Forward ->
     locally (sn_cursors node) key count repeats advance = (sn_cursors node', index)) /\
  (path <> DecisionPath.Local <-> SequencingRegistry.mode (sn_registry node) key.1.1 = SequencingMode.Owner).
Proof.
  assert (count = 0%N -> (locally (sn_cursors node) key count repeats advance).2 = 0%N) as H0.
  { intros ->. done. }
  pose proof (locally_range (sn_cursors node) key count repeats advance) as Hr.
  destruct (locally (sn_cursors node) key count repeats advance) as [m i] eqn:E. simpl in Hr, H0.
  unfold route. rewrite E. case_decide as Hm.
  - unfold owner_index. destruct (owner_plan _ _ _ _ _) as [| |o req].
    + rewrite E. split_and!; try done.
    + rewrite E. split_and!; try done.
    + unfold accept_reply. destruct (call o req) as [[index| | |]|]; simpl; rewrite ?E;
        [|split_and!; try done..].
      destruct (N.ltb_spec index count) as [Hi|Hi]; simpl; rewrite ?E; split_and!; try done; try lia.
  - split_and!; done.
Qed.

(** ** A fleet on one ring *)

Abbreviation Fleet := (gmap NodeId (SeqNode C)).

(** A decision asked of a node: a forwarded one runs at the owner. *)
Definition fleet_decide (f : Fleet) (n : NodeId) key (count : N) (repeats : list N) (advance : bool)
    : option (Fleet * N) :=
  match f !! n with
  | None => None
  | Some node =>
      let '(f, reply) :=
        match owner_plan xxh64 node key count repeats with
        | AskOwner o req =>
            match f !! o with
            | Some onode => let '(onode, reply) := owner_decide xxh64 onode req advance in (<[o := onode]> f, Some reply)
            | None => (f, None)
            end
        | _ => (f, None)
        end in
      let '(node, (index, _, _)) := route xxh64 node key count repeats advance (fun _ _ => reply) in
      Some (<[n := node]> f, index)
  end.

(** A reset whose fan-out reached every peer. *)
Definition fleet_reset (f : Fleet) (n : NodeId) (port : N) (stub : option string) : option Fleet :=
  match f !! n with
  | None => None
  | Some node =>
      let '(node, peers) := reset_scope false port stub node in
      Some (foldl (fun f p => alter (forget_at port stub) p f) (<[n := node]> f) peers)
  end.

Inductive SeqOp :=
  | Decide (n : NodeId) (key : CursorKey) (count : N) (repeats : list N) (advance : bool)
  | Reset_scope (n : NodeId) (port : N) (stub : option string).

Fixpoint fleet_run (f : Fleet) (ops : list SeqOp) : option (Fleet * list N) :=
  match ops with
  | [] => Some (f, [])
  | Decide n key count repeats advance :: ops =>
      '(f, index) ← fleet_decide f n key count repeats advance;
      '(f, out) ← fleet_run f ops; Some (f, index :: out)
  | Reset_scope n port stub :: ops => f ← fleet_reset f n port stub; fleet_run f ops
  end.

(** The same operations on the cursors of one process. *)
Fixpoint single_run m (ops : list SeqOp) : gmap CursorKey C * list N :=
  match ops with
  | [] => (m, [])
  | Decide _ key count repeats advance :: ops =>
      let '(m, index) := locally m key count repeats advance in
      let '(m, out) := single_run m ops in (m, index :: out)
  | Reset_scope _ port stub :: ops => single_run (forget port stub m) ops
  end.

(** Every node has applied the same membership and modes, is bound and is not isolated,
    and every member is in the fleet. *)
Record settled (ring : Ring) (reg : SequencingRegistry.t) (f : Fleet) : Prop := {
  st_nodes : forall n node, f !! n = Some node ->
    sn_slot node = Bound n ring /\ sn_bridge node = true /\ sn_isolated node = false /\ sn_registry node = reg;
  st_members : forall n, n ∈ members ring -> is_Some (f !! n);
  st_ring : members ring <> [];
}.

(** The owner of each cursor holds the process's. *)
Definition owns_as (ring : Ring) (f : Fleet) m : Prop :=
  forall key o node, owner xxh64 ring (OwnedKey_sequence key) = Some o -> f !! o = Some node ->
    sn_cursors node !! key = m !! key.

Definition op_of_fleet (reg : SequencingRegistry.t) (f : Fleet) (op : SeqOp) : Prop :=
  match op with
  | Decide n key _ _ _ => is_Some (f !! n) /\ SequencingRegistry.mode reg key.1.1 = SequencingMode.Owner
  | Reset_scope n _ _ => is_Some (f !! n)
  end.

(** Only cursors change. *)
Definition same_shape node node' : Prop :=
  sn_slot node' = sn_slot node /\ sn_bridge node' = sn_bridge node /\ sn_isolated node' = sn_isolated node /\
  sn_registry node' = sn_registry node.

Lemma settled_insert ring reg (f : Fleet) n node node' :
  settled ring reg f -> f !! n = Some node -> same_shape node node' -> settled ring reg (<[n := node']> f).
Proof.
  intros [H1 H2 H3] Hn (E1 & E2 & E3 & E4). destruct (H1 n node Hn) as (F1 & F2 & F3 & F4). split; [| |done].
  - intros n' node1. rewrite lookup_insert_Some. intros [[<- <-]|[_ ?]]; [|by apply H1].
    by rewrite E1, E2, E3, E4.
  - intros n' Hin. rewrite lookup_insert_is_Some'. right. by apply H2.
Qed.

Lemma same_shape_cursors node m : same_shape node (with_cursors node m).
Proof. done. Qed.

Lemma owner_member ring (key : OwnedKey) o : owner xxh64 ring key = Some o -> o ∈ members ring.
Proof.
  rewrite owner_head. intros H. rewrite <- (snd_ranked_Permutation xxh64 key (members ring)).
  destruct (merge_sort _ _) as [|[sc p] l]; [done|]. injection H as <-. apply list_elem_of_here.
Qed.

Lemma owner_exists ring (key : OwnedKey) : members ring <> [] -> is_Some (owner xxh64 ring key).
Proof.
  intros H. rewrite owner_head. pose proof (snd_ranked_Permutation xxh64 key (members ring)) as Hp.
  destruct (merge_sort _ _) as [|p l]; [|by eexists]. by apply Permutation_nil_l in Hp.
Qed.

Lemma settled_view ring reg (f : Fleet) n node :
  settled ring reg f -> f !! n = Some node -> seq_view (sn_slot node) = Some (n, ring).
Proof.
  intros [H1 _ H3] Hn. destruct (H1 n node Hn) as (-> & _). simpl. unfold ring_is_empty.
  by destruct (members ring).
Qed.

Lemma owns_as_locally ring (f : Fleet) m key o onode count repeats advance :
  owns_as ring f m -> owner xxh64 ring (OwnedKey_sequence key) = Some o -> f !! o = Some onode ->
  (locally (sn_cursors onode) key count repeats advance).2 = (locally m key count repeats advance).2 /\
  owns_as ring (<[o := with_cursors onode (locally (sn_cursors onode) key count repeats advance).1]> f)
               (locally m key count repeats advance).1.
Proof.
  intros Hs Ho Hf. pose proof (Hs key o onode Ho Hf) as Hk.
  destruct (locally_agree _ _ key count repeats advance Hk) as [Hi Hc]. split; [done|].
  intros key' o' node' Ho'. destruct (decide (key = key')) as [<-|Hne].
  - rewrite Ho in Ho'. injection Ho' as <-. rewrite lookup_insert_eq. by intros [= <-].
  - rewrite locally_other by done. rewrite lookup_insert_Some. intros [[<- <-]|[_ Hn]]; [|by eapply Hs].
    simpl. rewrite locally_other by done. by eapply Hs.
Qed.

Lemma owner_decide_own ring reg (f : Fleet) o onode key count repeats advance :
  settled ring reg f -> f !! o = Some onode -> owner xxh64 ring (OwnedKey_sequence key) = Some o ->
  owner_decide xxh64 onode
    {| sq_m_idx := m_idx ring; sq_port := key.1.1; sq_stub_key := key.1.2; sq_scope := key.2;
       sq_response_count := count; sq_repeats := repeats |} advance =
  (with_cursors onode (locally (sn_cursors onode) key count repeats advance).1,
   SeqIndex (locally (sn_cursors onode) key count repeats advance).2).
Proof.
  intros Hst Hf Ho. unfold owner_decide. rewrite (settled_view _ _ _ _ _ Hst Hf). simpl. rewrite N.eqb_refl. simpl.
  destruct key as [[port stub] scope]. simpl. rewrite Ho, N.eqb_refl. simpl.
  destruct (st_nodes _ _ _ Hst o onode Hf) as (_ & _ & -> & _). by destruct (locally _ _ _ _ _).
Qed.

Lemma fleet_decide_single ring reg (f : Fleet) m n key count repeats advance :
  settled ring reg f -> owns_as ring f m -> is_Some (f !! n) ->
  SequencingRegistry.mode reg key.1.1 = SequencingMode.Owner ->
  exists f', fleet_decide f n key count repeats advance = Some (f', (locally m key count repeats advance).2) /\
    settled ring reg f' /\ owns_as ring f' (locally m key count repeats advance).1 /\
    (forall k, is_Some (f !! k) -> is_Some (f' !! k)).
Proof.
  intros Hst Hs [node Hn] Hm. destruct (owner_exists ring (OwnedKey_sequence key) (st_ring _ _ _ Hst)) as [o Ho].
  destruct (st_members _ _ _ Hst o (owner_member _ _ _ Ho)) as [onode Hf].
  destruct (owns_as_locally ring f m key o onode count repeats advance Hs Ho Hf) as [Hi Hs'].
  assert (settled ring reg (<[o := with_cursors onode (locally (sn_cursors onode) key count repeats advance).1]> f)) as Hst'.
  { by eapply settled_insert. }
  eexists. split; [|split; [exact Hst'|split; [exact Hs'|]]].
  2: { intros k Hk. rewrite lookup_insert_is_Some'. by right. }
  destruct (st_nodes _ _ _ Hst n node Hn) as (_ & Hb & Hiso & Hreg).
  assert (owner_plan xxh64 node key count repeats =
    if (o =? n)%N then Own else AskOwner o {| sq_m_idx := m_idx ring; sq_port := key.1.1; sq_stub_key := key.1.2;
      sq_scope := key.2; sq_response_count := count; sq_repeats := repeats |}) as Hp.
  { unfold owner_plan. by rewrite Hb, (settled_view _ _ _ _ _ Hst Hn), Ho, Hiso. }
  unfold fleet_decide. rewrite Hn, Hp. unfold route, owner_index. rewrite Hp, Hreg. destruct (N.eqb_spec o n) as [->|Hne].
  - rewrite decide_True by done. rewrite Hn in Hf. injection Hf as <-. rewrite <- Hi.
    by destruct (locally (sn_cursors node) key count repeats advance).
  - rewrite Hf, (owner_decide_own ring reg f o onode key count repeats advance Hst Hf Ho). simpl.
    rewrite decide_True, Hi by done.
    destruct (N.ltb_spec (locally m key count repeats advance).2 count) as [Hlt|Hge]; simpl.
    + rewrite (insert_id _ n); [done|]. by rewrite lookup_insert_ne.
    + destruct (N.eq_dec count 0%N) as [->|Hnz]; [|pose proof (locally_range m key count repeats advance); lia].
      simpl. rewrite with_cursors_same, (insert_id _ n); [done|]. by rewrite lookup_insert_ne.
Qed.

Lemma forget_at_idem port stub node : forget_at port stub (forget_at port stub node) = forget_at port stub node.
Proof.
  unfold forget_at, with_cursors. simpl. f_equal. apply map_eq. intros k. unfold forget.
  destruct stub; rewrite !map_lookup_filter; destruct (sn_cursors node !! k); simpl; try done; by case_guard.
Qed.

Lemma lookup_forget_all port stub peers : forall (f : Fleet) k,
  foldl (fun f p => alter (forget_at port stub) p f) f peers !! k =
  if decide (k ∈ peers) then forget_at port stub <$> f !! k else f !! k.
Proof.
  induction peers as [|p peers IH]; intros f k; simpl; [done|].
  rewrite IH. destruct (decide (k = p)) as [->|Hne].
  - rewrite lookup_alter_eq, (decide_True (P := p ∈ p :: peers)) by apply list_elem_of_here.
    case_decide; [|done]. destruct (f !! p); [|done]. simpl. by rewrite forget_at_idem.
  - rewrite lookup_alter_ne by done. repeat case_decide; try done; exfalso; set_solver.
Qed.

Lemma fleet_reset_single ring reg (f : Fleet) m n port stub :
  settled ring reg f -> owns_as ring f m -> is_Some (f !! n) ->
  exists f', fleet_reset f n port stub = Some f' /\ settled ring reg f' /\ owns_as ring f' (forget port stub m) /\
    (forall k, is_Some (f !! k) -> is_Some (f' !! k)).
Proof.
  intros Hst Hs [node Hn]. unfold fleet_reset, reset_scope. rewrite Hn, (settled_view _ _ _ _ _ Hst Hn).
  destruct (st_nodes _ _ _ Hst n node Hn) as (_ & -> & _). simpl.
  set (peers := filter (fun k => k <> n) (members ring)).
  assert (forall k, foldl (fun f p => alter (forget_at port stub) p f) (<[n := forget_at port stub node]> f) peers !! k =
    if decide (k = n \/ k ∈ peers) then forget_at port stub <$> f !! k else f !! k) as Hl.
  { intros k. rewrite lookup_forget_all. destruct (decide (k = n)) as [->|Hne].
    - rewrite lookup_insert_eq, decide_False, decide_True, Hn; [done|by left|].
      unfold peers. rewrite list_elem_of_filter. by intros [].
    - rewrite lookup_insert_ne by done. repeat case_decide; naive_solver. }
  eexists. split; [done|]. split_and!.
  - split; [| |apply Hst].
    + intros k node'. rewrite Hl. case_decide; [|apply Hst].
      rewrite fmap_Some. intros (node1 & Hk & ->). by apply (st_nodes _ _ _ Hst) in Hk.
    + intros k Hk%(st_members _ _ _ Hst). rewrite Hl. case_decide; [by rewrite fmap_is_Some|done].
  - intros key o node' Ho. rewrite Hl, decide_True.
    + rewrite fmap_Some. intros (node1 & Hk & ->). apply forget_agree. by eapply Hs.
    + destruct (decide (o = n)); [by left|right]. apply list_elem_of_filter. split; [done|]. by eapply owner_member.
  - intros k Hk. rewrite Hl. case_decide; [by rewrite fmap_is_Some|done].
Qed.


End Facts.

(** ** Delivering a reset *)

Lemma Permutation_filter_bool {A} (f : A -> bool) l l' : l ≡ₚ l' -> List.filter f l ≡ₚ List.filter f l'.
Proof.
  induction 1; simpl; [done| | |by etrans]; repeat match goal with |- context [f ?x] => destruct (f x) end;
    try done; try (by apply Permutation_skip); apply Permutation_swap.
Qed.

(** Every attempt failed, or one panicked after the ones before it failed. *)
Definition gave_up (send : nat -> Attempt) (first attempts : nat) : Prop :=
  exists k, (k <= attempts)%nat /\ (forall i, (i < k)%nat -> send (first + i)%nat = Failed_attempt) /\
    (k = attempts \/ send (first + k)%nat = Panicked).

(** How long the attempts before the [i]-th ran. *)
Definition spent (took : nat -> N) (first i : nat) : N := foldr N.add 0%N (took <$> seq first i).

Lemma spent_S took first i : spent took first (S i) = (took first + spent took (S first) i)%N.
Proof. done. Qed.

Lemma deliver_one_unreached send took fuel : forall first now backoff,
  (deliver_one send took first fuel now backoff).1 = true <-> gave_up send first fuel.
Proof.
  unfold gave_up. induction fuel as [|fuel IH]; intros first now backoff; simpl.
  { split; [|done]. intros _. exists 0%nat. split_and!; [done|lia|by left]. }
  destruct (send first) as [d| |] eqn:E; simpl.
  - split; [done|]. intros (k & Hk & Hf & Hend). destruct k as [|k].
    + destruct Hend as [|Hp]; [done|]. rewrite Nat.add_0_r in Hp. congruence.
    + specialize (Hf 0%nat). rewrite Nat.add_0_r in Hf. rewrite Hf in E; [done|lia].
  - specialize (IH (S first) (now + took first + backoff)%N (backoff * 2)%N).
    destruct (deliver_one _ _ _ _ _ _) as [u ts]. simpl in *. rewrite IH. split; intros (k & Hk & Hf & Hend).
    + exists (S k). split_and!; [lia| |].
      * intros [|i] Hi; [by rewrite Nat.add_0_r|]. rewrite Nat.add_succ_r. apply Hf. lia.
      * rewrite Nat.add_succ_r. destruct Hend as [->|]; [by left|by right].
    + destruct k as [|k]; [destruct Hend as [|Hp]; [done|]; rewrite Nat.add_0_r in Hp; congruence|].
      exists k. split_and!; [lia| |].
      * intros i Hi. simpl. rewrite <- Nat.add_succ_r. apply Hf. lia.
      * simpl. rewrite <- Nat.add_succ_r. destruct Hend as [Hend|]; [left; lia|by right].
  - split; [|done]. intros _. exists 0%nat. split_and!; [lia|lia|]. right. by rewrite Nat.add_0_r.
Qed.

Lemma deliver_one_times send took fuel : forall first now backoff,
  (length (deliver_one send took first fuel now backoff).2 <= fuel)%nat /\
  forall i t, (deliver_one send took first fuel now backoff).2 !! i = Some t ->
    t = (now + backoff * (2 ^ N.of_nat i - 1) + spent took first i)%N.
Proof.
  induction fuel as [|fuel IH]; intros first now backoff; simpl; [by split|].
  assert (length [now] <= S fuel /\ forall i t, [now] !! i = Some t ->
    t = (now + backoff * (2 ^ N.of_nat i - 1) + spent took first i)%N)%nat as H1.
  { split; [simpl; lia|]. intros [|i] t; [|done]. intros [= <-]. cbn. lia. }
  destruct (send first) as [d| |]; [exact H1| |exact H1]. clear H1.
  destruct (IH (S first) (now + took first + backoff)%N (backoff * 2)%N) as [Hl Ht].
  destruct (deliver_one _ _ _ _ _ _) as [u ts]. simpl in *. split; [lia|].
  intros [|i] t; simpl; [intros [= <-]; cbn; lia|]. intros Hi. rewrite (Ht i t Hi).
  assert (2 ^ N.of_nat (S i) = 2 * 2 ^ N.of_nat i)%N as -> by (rewrite Nat2N.inj_succ; apply N.pow_succ_r').
  assert (1 <= 2 ^ N.of_nat i)%N by (apply N.lt_pred_le, N.neq_0_lt_0, N.pow_nonzero; done).
  rewrite spent_S. set (x := (2 ^ N.of_nat i)%N) in *. assert (exists y, x = (y + 1)%N) as [y ->] by (exists (x - 1)%N; lia).
  replace (2 * (y + 1) - 1)%N with (2 * y + 1)%N by lia. replace (y + 1 - 1)%N with y by lia. lia.
Qed.

(** A reset reaches every peer or names it. In whatever order the deliveries end, the
    report is sorted and holds exactly the peers whose five attempts all failed or whose
    delivery panicked, so a peer that accepted any attempt, or had left, is not named;
    and the attempts of a peer start one, two, four and eight seconds after the one
    before them ended. *)
Theorem deliver_reset_spec peers joined send took :
  joined ≡ₚ peers ->
  (forall p, p ∈ deliver_reset joined send took <-> p ∈ peers /\ gave_up (send p) 1 RESET_MAX_ATTEMPTS) /\
  StronglySorted N.le (deliver_reset joined send took) /\
  deliver_reset joined send took = deliver_reset peers send took /\
  forall p, let times := (deliver_one (send p) (took p) 1 RESET_MAX_ATTEMPTS 0 RESET_BACKOFF_MIN_MS).2 in
    (length times <= 5)%nat /\
    forall i t, times !! i = Some t -> t = (1000 * (2 ^ N.of_nat i - 1) + spent (took p) 1 i)%N.
Proof.
  intros Hj. unfold deliver_reset. split_and!.
  - intros p. rewrite merge_sort_Permutation, list_elem_of_In, filter_In, <- list_elem_of_In, deliver_one_unreached.
    by rewrite Hj.
  - apply StronglySorted_merge_sort; [apply _|]. intros x y. lia.
  - apply (StronglySorted_unique N.le); [apply StronglySorted_merge_sort; [apply _|intros x y; lia]..|].
    rewrite !merge_sort_Permutation. by apply Permutation_filter_bool.
  - intros p. cbv zeta. destruct (deliver_one_times (send p) (took p) RESET_MAX_ATTEMPTS 1 0 RESET_BACKOFF_MIN_MS) as [H1 H2].
    split; [exact H1|]. intros i t Hi. rewrite (H2 i t Hi). done.
Qed.

(** ** A fleet of three *)

#[local] Instance counting_cycler : RuleCycler N := {
  cycler_default := 0%N;
  get_response_index_advance c count repeats := ((c + 1)%N, (c mod count)%N);
  peek_response_index c count := (c mod count)%N;
}.

Definition seq_ring : Ring := Ring_new [1; 2; 3]%N 7.

Definition seq_registry : SequencingRegistry.t := {[4545%N := SequencingMode.Owner]}.

Definition seq_node (id : N) : SeqNode N :=
  {| sn_slot := Bound id seq_ring; sn_bridge := true; sn_isolated := false; sn_registry := seq_registry;
     sn_cursors := ∅ |}.

Definition seq_fleet : gmap NodeId (SeqNode N) :=
  <[1%N := seq_node 1]> (<[2%N := seq_node 2]> (<[3%N := seq_node 3]> ∅)).

Definition seq_key : CursorKey := (4545%N, "stub", "default").

Definition seq_ops : list SeqOp :=
  [Decide 1 seq_key 3 [] true; Decide 2 seq_key 3 [] true; Decide 3 seq_key 3 [] true; Decide 2 seq_key 3 [] true;
   Reset_scope 2 4545 None; Decide 3 seq_key 3 [] true].

Lemma seq_fleet_settled : settled seq_ring seq_registry seq_fleet.
Proof.
  split; [| |done].
  - intros n node. unfold seq_fleet. rewrite !lookup_insert_Some, lookup_empty.
    intros [[<- <-]|[_ [[<- <-]|[_ [[<- <-]|[_ ?]]]]]]; done.
  - intros n Hn. apply elem_of_dom. revert n Hn. apply Forall_forall, (bool_decide_unpack _). vm_compute. done.
Qed.


(** Peer 3 never answers, peer 2 answers its third attempt. *)
Definition seq_send (p : NodeId) (attempt : nat) : Attempt :=
  if (p =? 3)%N then Failed_attempt else if (attempt <? 3)%nat then Failed_attempt else Answered Delivered.

Lemma deliver_reset_spec_witness :
  deliver_reset [3; 2]%N seq_send (fun _ _ => 10%N) = [3%N] /\ gave_up (seq_send 3) 1 RESET_MAX_ATTEMPTS.
Proof.
  split; [vm_compute; reflexivity|].
  destruct (deliver_reset_spec [2; 3]%N [3; 2]%N seq_send (fun _ _ => 10%N)) as [H _];
    [apply Permutation_swap|]. apply (H 3%N). vm_compute. apply list_elem_of_here.
Defined.
