(* ===== verification/Proxy.v ===== *)
(** * Proxy recording claims: [stores/proxy.rs]

    The owner's table of pending claims and its cache of completed recordings, the
    handlers that grant, release, settle and look up, and the client side that chases a
    moving owner. A settle awaits the log: what it checks before and what it does after
    are two definitions. Instants are milliseconds. *)

From S2P Require Import Prelude Upstream Ring Node Auth Rpc FlowConfig Control.

(** ** Constants *)

Definition COMPLETE_CACHE_TTL_MS : N := 120000.
Definition UNGATED : N := 9223372036854775808.
Definition OWNER_REDIRECT_ATTEMPTS : nat := 2.
Definition DEFAULT_CLAIM_TTL_MS : N := 60000.

(** ** State *)

Record PendingClaim := { pc_token : N; pc_deadline : N }.

Record CachedRecording (text : Type) := { ca_resp_json : text; ca_at : N; ca_revision : N }.
Arguments ca_resp_json {text} _.
Arguments ca_at {text} _.
Arguments ca_revision {text} _.
Arguments Build_CachedRecording {text} _ _ _.

Abbreviation slot := (N * string)%type.

Record ProxyNet (text : Type) := {
  pending : gmap slot PendingClaim;
  completed : gmap slot (CachedRecording text);
  next_token : N;
}.
Arguments pending {text} _.
Arguments completed {text} _.
Arguments next_token {text} _.
Arguments Build_ProxyNet {text} _ _ _.

(** What a handler meets: the node, isolation, the clock, the configured claim lifetime,
    the node's applied marker rows and the index it has applied. *)
Record ProxyEnv (text : Type) := {
  pe_node : NodeSlot;
  pe_isolated : bool;
  pe_now : N;
  pe_claim_ttl : option N;
  pe_recorded : N -> string -> result string (option text);
  pe_last_applied : option N;
}.
Arguments pe_node {text} _.
Arguments pe_isolated {text} _.
Arguments pe_now {text} _.
Arguments pe_claim_ttl {text} _.
Arguments pe_recorded {text} _ _ _.
Arguments pe_last_applied {text} _.
Arguments Build_ProxyEnv {text} _ _ _ _ _ _.

(** ** Wire types *)

Record ClaimReq := { cq_port : N; cq_sig_hash : string; cq_m_idx : N }.

Inductive ClaimReply :=
  | Claimed (token : N)
  | InFlight
  | AlreadyRecorded
  | ClaimFenced (owner_m_idx : N)
  | ClaimNotOwner (owner : NodeId)
  | ClaimError (reason : string).

Record ReleaseReq := { lq_port : N; lq_sig_hash : string; lq_token : N; lq_m_idx : N }.

Record CompleteReq := {
  dq_port : N;
  dq_sig_hash : string;
  dq_token : N;
  dq_m_idx : N;
  dq_resp : RecordedResponse;
  dq_stub : option RecordedStub;
}.

Inductive SettleReply :=
  | Done
  | Stale
  | SettleFenced (owner_m_idx : N)
  | SettleNotOwner (owner : NodeId)
  | SettleUnavailable (reason : string).

Inductive OwnerRefusal :=
  | RefusalFenced (owner_m_idx : N)
  | RefusalNotOwner (owner : NodeId)
  | RefusalError (reason : string).

Definition into_claim (r : OwnerRefusal) : ClaimReply :=
  match r with
  | RefusalFenced m => ClaimFenced m
  | RefusalNotOwner o => ClaimNotOwner o
  | RefusalError reason => ClaimError reason
  end.

Definition into_settle (r : OwnerRefusal) : SettleReply :=
  match r with
  | RefusalFenced m => SettleFenced m
  | RefusalNotOwner o => SettleNotOwner o
  | RefusalError reason => SettleUnavailable reason
  end.

(** ** Keys *)

Section Keys.
  Context (xxh64 : bytes -> N -> N) {RequestSignature : Type} (sig_to_vec : RequestSignature -> bytes).

(** [{:016x}]: sixteen lowercase hexadecimal digits. *)
Definition sig_hash (sig : RequestSignature) : string :=
  hex_encode (reverse (to_le_bytes (xxh64 (sig_to_vec sig) 0))).

Definition proxy_sig_key (port : N) (sig : RequestSignature) : string := pretty port +:+ ":" +:+ sig_hash sig.

End Keys.

Definition slot_key (port : N) (hash : string) : string := pretty port +:+ ":" +:+ hash.

Definition OwnedKey_proxy (key : string) : OwnedKey := {| ok_class := KeyClass.Proxy; ok_key := key |}.

Definition proxy_view (slot : NodeSlot) : result string (NodeId * Ring) :=
  match slot with
  | Unbound => Err "proxy store: cluster is still starting"
  | Dropped => Err "proxy store: cluster node has shut down"
  | Bound id ring =>
      if ring_is_empty ring then Err "proxy store: no applied membership yet" else Ok (id, ring)
  end.

Section Owner.
  Context {text : Type} (xxh64 : bytes -> N -> N).

Definition proxy_new (seed : N) : ProxyNet text := Build_ProxyNet ∅ ∅ seed.

Definition set_pending (f : gmap slot PendingClaim -> gmap slot PendingClaim) (net : ProxyNet text) : ProxyNet text :=
  Build_ProxyNet (f (pending net)) (completed net) (next_token net).

Definition set_completed (f : gmap slot (CachedRecording text) -> gmap slot (CachedRecording text))
    (net : ProxyNet text) : ProxyNet text :=
  Build_ProxyNet (pending net) (f (completed net)) (next_token net).

Definition pending_claims (now port : N) (net : ProxyNet text) : nat :=
  length (List.filter (fun kc : slot * PendingClaim => (kc.1.1 =? port)%N && (now <? pc_deadline kc.2)%N)
                      (map_to_list (pending net))).

Definition claim_ttl (env : ProxyEnv text) : N := default DEFAULT_CLAIM_TTL_MS (pe_claim_ttl env).

(** [fetch_add] wraps; the bit of ungated tokens is cleared. *)
Definition mint_token (net : ProxyNet text) : N * ProxyNet text :=
  (N.ldiff (next_token net) UNGATED,
   Build_ProxyNet (pending net) (completed net) ((next_token net + 1) mod (u64_max + 1))%N).

(** ** Owner-side handlers *)

Definition owner_gate (ring : Ring) (id : NodeId) (m : N) (key : string) : option OwnerRefusal :=
  if negb (m =? Ring.m_idx ring)%N then Some (RefusalFenced (Ring.m_idx ring))
  else match owner xxh64 ring (OwnedKey_proxy key) with
  | Some o => if (o =? id)%N then None else Some (RefusalNotOwner o)
  | None => Some (RefusalError "proxy store: ring has no members")
  end.

(** A cached recording, trusted only until the node has applied its commit. *)
Definition completed_lookup (env : ProxyEnv text) (s : slot) (net : ProxyNet text)
    : ProxyNet text * option text :=
  match completed net !! s with
  | None => (net, None)
  | Some cached =>
      if (COMPLETE_CACHE_TTL_MS <=? pe_now env - ca_at cached)%N then (set_completed (delete s) net, None)
      else if match pe_last_applied env with Some applied => (ca_revision cached <=? applied)%N | None => false end
      then (set_completed (delete s) net, None)
      else (net, Some (ca_resp_json cached))
  end.

(** The grant, under the pending lock. *)
Definition grant (env : ProxyEnv text) (s : slot) (net : ProxyNet text) : ProxyNet text * ClaimReply :=
  let fresh :=
    let '(token, net) := mint_token net in
    (set_pending <[s := {| pc_token := token; pc_deadline := pe_now env + claim_ttl env |}]> net, Claimed token) in
  match pending net !! s with
  | Some claim => if (pe_now env <? pc_deadline claim)%N then (net, InFlight) else fresh
  | None => fresh
  end.

Definition owner_claim (env : ProxyEnv text) (req : ClaimReq) (net : ProxyNet text)
    : ProxyNet text * ClaimReply :=
  match proxy_view (pe_node env) with
  | Err reason => (net, ClaimError reason)
  | Ok (id, ring) =>
      match owner_gate ring id (cq_m_idx req) (slot_key (cq_port req) (cq_sig_hash req)) with
      | Some refusal => (net, into_claim refusal)
      | None =>
          if pe_isolated env then (net, ClaimError "proxy store: owner is isolated from the cluster")
          else match pe_recorded env (cq_port req) (cq_sig_hash req) with
          | Ok (Some _) => (net, AlreadyRecorded)
          | Err e => (net, ClaimError ("proxy store: " +:+ e))
          | Ok None =>
              match completed_lookup env (cq_port req, cq_sig_hash req) net with
              | (net, Some _) => (net, AlreadyRecorded)
              | (net, None) => grant env (cq_port req, cq_sig_hash req) net
              end
          end
      end
  end.

Definition owner_release (req : ReleaseReq) (net : ProxyNet text) : ProxyNet text :=
  match pending net !! (lq_port req, lq_sig_hash req) with
  | Some c => if (pc_token c =? lq_token req)%N then set_pending (delete (lq_port req, lq_sig_hash req)) net else net
  | None => net
  end.

(** Whether a token is the live claim of its slot. *)
Definition token_valid (now : N) (s : slot) (token : N) (net : ProxyNet text) : bool :=
  match pending net !! s with
  | Some claim => (pc_token claim =? token)%N && (now <? pc_deadline claim)%N
  | None => false
  end.

(** What a settle checks before it submits. *)
Definition complete_check (env : ProxyEnv text) (req : CompleteReq) (net : ProxyNet text) : result SettleReply () :=
  match proxy_view (pe_node env) with
  | Err reason => Err (SettleUnavailable reason)
  | Ok (id, ring) =>
      match owner_gate ring id (dq_m_idx req) (slot_key (dq_port req) (dq_sig_hash req)) with
      | Some refusal => Err (into_settle refusal)
      | None =>
          if token_valid (pe_now env) (dq_port req, dq_sig_hash req) (dq_token req) net then Ok tt else Err Stale
      end
  end.

Definition complete_request (op_id : string) (now_secs : N) (req : CompleteReq) : ControlRequest :=
  {| op_id := op_id; principal := None; issued_at_secs := now_secs; expected_revision := None;
     expect_absent := false;
     op := ProxyRecorded (dq_port req) (dq_sig_hash req) (dq_resp req) (dq_stub req) |}.

(** How the submit ended. *)
Inductive Submitted :=
  | SubmitTimedOut
  | SubmitFailed (e : string)
  | SubmitResponse (response : ControlResponse).

Context `{!Base64} `{!Serde text WireResponse}.

(** The two lock sections a settle ends with: it frees the slot, and caches what committed. *)
Definition settle_release (req : CompleteReq) (net : ProxyNet text) : ProxyNet text :=
  set_pending (delete (dq_port req, dq_sig_hash req)) net.

Definition settle_cache (now : N) (req : CompleteReq) (revision : N) (net : ProxyNet text) : ProxyNet text :=
  set_completed
    <[(dq_port req, dq_sig_hash req) := Build_CachedRecording (encode_row (dq_resp req)) now revision]> net.

(** What a settle does once the submit ended. *)
Definition complete_finish (now : N) (req : CompleteReq) (submitted : Submitted) (net : ProxyNet text)
    : ProxyNet text * SettleReply :=
  let released := settle_release req net in
  match submitted with
  | SubmitTimedOut => (released, SettleUnavailable "proxy store: publication timed out")
  | SubmitFailed e => (released, SettleUnavailable ("proxy store: publication failed: " +:+ e))
  | SubmitResponse response =>
      match cr_outcome response with
      | Applied => (settle_cache now req (cr_revision response) released, Done)
      | Failed reason => (released, SettleUnavailable reason)
      end
  end.

Definition owner_complete (env : ProxyEnv text) (req : CompleteReq) (submit : Submitted) (later : N)
    (net : ProxyNet text) : ProxyNet text * SettleReply :=
  match complete_check env req net with
  | Err reply => (net, reply)
  | Ok _ => complete_finish later req submit net
  end.

Definition owner_lookup (env : ProxyEnv text) (port : N) (hash : string) (net : ProxyNet text)
    : ProxyNet text * option RecordedResponse :=
  let '(net, json) :=
    match proxy_view (pe_node env) with
    | Err _ => (net, None)
    | Ok _ =>
        match pe_recorded env port hash with
        | Ok (Some json) => (net, Some json)
        | Ok None | Err _ => completed_lookup env (port, hash) net
        end
    end in
  (net, json ≫= fun j => result_ok (decode_row j)).

Definition clear_pending (port : N) (net : ProxyNet text) : ProxyNet text :=
  set_pending (filter (fun kc : slot * PendingClaim => kc.1.1 <> port)) net.

Definition clear_completed (port : N) (net : ProxyNet text) : ProxyNet text :=
  set_completed (filter (fun kc : slot * CachedRecording text => kc.1.1 <> port)) net.

Definition clear_local (port : N) (net : ProxyNet text) : ProxyNet text :=
  clear_completed port (clear_pending port net).

End Owner.

(** ** The client side *)

Inductive ClaimOutcome :=
  | OClaimed (token : N)
  | OInFlight
  | OAlreadyRecorded.

Inductive ProxyStoreError :=
  | PUnavailable (reason : string)
  | PRefused (feature detail : string).

(** [ProxyStoreError::Unavailable]'s [Display] is upstream's. *)
Section Client.
  Context (unavailable_display : string -> string).

(** An owner op across redirects: the [i]-th dispatch is rebuilt from the ring of its
    moment. *)
Fixpoint chase {A} (redirects : A -> bool) (dispatch : nat -> result string A) (i n : nat) (last : option A)
    (never : string) : result string A :=
  match n with
  | O => match last with Some reply => Ok reply | None => Err never end
  | S n =>
      match dispatch i with
      | Err e => Err e
      | Ok reply => if redirects reply then chase redirects dispatch (S i) n (Some reply) never else Ok reply
      end
  end.

Definition claim_redirects (r : ClaimReply) : bool :=
  match r with ClaimFenced _ | ClaimNotOwner _ => true | _ => false end.

Definition settle_redirects (r : SettleReply) : bool :=
  match r with SettleFenced _ | SettleNotOwner _ => true | _ => false end.

(** [bridge] is what the bridge makes of a call: its outcome, or the shed, timeout or
    transport error it answers with instead; [None] before the cluster is bound. *)
Abbreviation Bridged A := (option (result string A -> result string A)).

Definition not_bound : ProxyStoreError := PUnavailable "proxy store: not bound".

Definition blocking_claim (dispatch : nat -> result string ClaimReply) (bridge : Bridged ClaimReply)
    : result ProxyStoreError ClaimOutcome :=
  match bridge with
  | None => Err not_bound
  | Some bridge =>
  match bridge (chase claim_redirects dispatch 0 OWNER_REDIRECT_ATTEMPTS None "proxy store: claim never dispatched") with
  | Err e => Err (PUnavailable ("proxy store: " +:+ e))
  | Ok (Claimed token) => Ok (OClaimed token)
  | Ok InFlight => Ok OInFlight
  | Ok AlreadyRecorded => Ok OAlreadyRecorded
  | Ok (ClaimFenced _) | Ok (ClaimNotOwner _) => Err (PUnavailable "proxy store: ownership unsettled")
  | Ok (ClaimError reason) => Err (PUnavailable reason)
  end
  end.

Definition settle_outcome (dispatch : nat -> result string SettleReply) (bridge : Bridged SettleReply)
    : result ProxyStoreError () :=
  match bridge with
  | None => Err not_bound
  | Some bridge =>
  match bridge (chase settle_redirects dispatch 0 OWNER_REDIRECT_ATTEMPTS None "proxy store: complete never dispatched") with
  | Err e => Err (PUnavailable ("proxy store: " +:+ e))
  | Ok Done | Ok Stale => Ok tt
  | Ok (SettleFenced _) | Ok (SettleNotOwner _) => Err (PUnavailable "proxy store: ownership unsettled")
  | Ok (SettleUnavailable reason) => Err (PUnavailable reason)
  end
  end.

(** A settle whose recording fits no entry releases its claim instead. *)
Definition blocking_settle (fits : result ProxyStoreError ()) (dispatch : nat -> result string SettleReply)
    (bridge : Bridged SettleReply) : bool * result ProxyStoreError () :=
  match fits with
  | Err e => (true, Err e)
  | Ok _ => (false, settle_outcome dispatch bridge)
  end.

(** A publication with no claim behind it: it submits straight from the node it is on. *)
Definition blocking_publish_unclaimed (fits : result ProxyStoreError ()) (view : result string (NodeId * Ring))
    (submitted : result string ControlResponse) (bridge : Bridged ()) : result ProxyStoreError () :=
  match fits with
  | Err e => Err e
  | Ok _ =>
      match bridge with
      | None => Err not_bound
      | Some bridge =>
          let published :=
            match view with
            | Err reason => Err reason
            | Ok _ =>
                match submitted with
                | Err e => Err e
                | Ok response => match cr_outcome response with Applied => Ok tt | Failed reason => Err reason end
                end
            end in
          match bridge published with
          | Err e => Err (PUnavailable ("proxy store: " +:+ e))
          | Ok _ => Ok tt
          end
      end
  end.

Definition refused (e : ProxyStoreError) : ProxyStoreError :=
  match e with
  | PRefused _ _ => e
  | PUnavailable reason => PRefused "proxyOnce" (unavailable_display reason)
  end.

Inductive ProxyMode :=
  | ProxyOnce
  | ProxyAlways
  | ProxyTransparent.

(** A claim by the mode of the stub that answered: the node's store, and the outcome. *)
Definition try_claim_as {text} (mode : ProxyMode) (dispatch : nat -> result string ClaimReply)
    (bridge : Bridged ClaimReply) (net : ProxyNet text)
    : ProxyNet text * result ProxyStoreError ClaimOutcome :=
  match mode with
  | ProxyOnce =>
      (net, match blocking_claim dispatch bridge with Ok o => Ok o | Err e => Err (refused e) end)
  | ProxyAlways | ProxyTransparent =>
      let '(token, net) := mint_token net in (net, Ok (OClaimed (N.lor token UNGATED)))
  end.

(** What settling a token does: the formality of an ungated claim publishes without one. *)
Inductive SettleAction :=
  | PublishUnclaimed (stub : option RecordedStub)
  | SettleClaim (stub : option RecordedStub)
  | PublishNothing.

Definition is_ungated (token : N) : bool := negb (N.land token UNGATED =? 0)%N.

Definition complete_recorded (token : N) (recorded : RecordedStub) : SettleAction :=
  if is_ungated token then PublishUnclaimed (Some recorded) else SettleClaim (Some recorded).

Definition record_action (token : N) : SettleAction :=
  if is_ungated token then PublishNothing else SettleClaim None.

(** A placement this build does not know keeps the recording and drops the stub. *)
Definition complete_action (token : N) (placement : option Placement.t) (stub : Stub) (proxy_to : string)
    (anchor_index : option nat) : SettleAction :=
  match placement with
  | Some p =>
      complete_recorded token
        {| rs_stub := stub; rs_placement := p; rs_proxy_to := proxy_to; rs_anchor_index := anchor_index |}
  | None => record_action token
  end.

Definition releases (token : N) : bool := negb (is_ungated token).

End Client.

(** ** Sizing a recording *)

Definition recording_fits (written : ControlRequest -> option N) (display : EntryTooLarge -> string)
    (port : N) (hash : string) (resp : RecordedResponse) (stub : option RecordedStub)
    : result ProxyStoreError () :=
  let request := {| op_id := "00000000-0000-0000-0000-000000000000"; principal := None; issued_at_secs := 0;
                    expected_revision := None; expect_absent := false; op := ProxyRecorded port hash resp stub |} in
  match admit_entry_size written request with
  | Ok _ => Ok tt
  | Err e => Err (PUnavailable ("proxy store: recording skipped: " +:+ display e))
  end.

(** ** Replay *)

(** [lookup]: the node's applied row first, then what the owner answered ([None] when it
    could not be asked). *)
Definition lookup_recorded {text} `{!Base64} `{!Serde text WireResponse} (imposter_applied : bool)
    (local : result string (option text)) (from_owner : option RecordedResponse) : option RecordedResponse :=
  if imposter_applied then
    match local with
    | Ok (Some json) => match decode_row json with Ok resp => Some resp | Err _ => from_owner end
    | _ => from_owner
    end
  else None.
