(* ===== verification/ProxyFacts.v ===== *)
(** * What the claims promise

    At any moment at most one token settles a signature, a displaced token never
    settles again, and a live claim keeps every other caller waiting. Once the log has
    the recording no claim is granted, before and after the owner applies it, until an
    operation forgets it. *)

From S2P Require Import Prelude Upstream Ring Node Auth Rpc FlowConfig Control Recorded StateMachine Proxy.

(** ** Tokens *)

(** Clearing the top bit of a [u64]. *)
Lemma ldiff_ungated n : (n <= u64_max)%N -> N.ldiff n UNGATED = (n mod UNGATED)%N.
Proof.
  intros Hn. change UNGATED with (2 ^ 63)%N. apply N.bits_inj. intros i. rewrite N.ldiff_spec, N.pow2_bits_eqb.
  destruct (N.lt_ge_cases i 63) as [Hi|Hi].
  - rewrite N.mod_pow2_bits_low by done. rewrite (proj2 (N.eqb_neq 63 i)) by lia. by rewrite andb_true_r.
  - rewrite N.mod_pow2_bits_high by done. destruct (N.eqb_spec 63 i) as [<-|Hne]; [by rewrite andb_false_r|].
    rewrite andb_true_r. destruct (N.eq_dec n 0%N) as [->|Hnz]; [apply N.bits_0|].
    apply N.bits_above_log2. apply (N.log2_lt_pow2 n i); [lia|].
    apply N.le_lt_trans with u64_max; [done|]. apply N.lt_le_trans with (2 ^ 64)%N; [done|].
    apply N.pow_le_mono_r; lia.
Qed.

(** The [j]-th token from a seed. *)
Definition token_at (seed j : N) : N := ((seed + j) mod UNGATED)%N.

Lemma token_at_inj seed i j : (i < UNGATED)%N -> (j < UNGATED)%N -> token_at seed i = token_at seed j -> i = j.
Proof.
  unfold token_at. intros Hi Hj H. assert (UNGATED <> 0)%N as Hnz by done.
  pose proof (N.div_mod (seed + i) UNGATED Hnz) as E1. pose proof (N.div_mod (seed + j) UNGATED Hnz) as E2.
  rewrite H in E1. set (a := ((seed + i) / UNGATED)%N) in *. set (b := ((seed + j) / UNGATED)%N) in *.
  set (r := ((seed + j) mod UNGATED)%N) in *. unfold UNGATED in *. clearbody a b r. clear H.
  assert (a = b) by nia. subst. lia.
Qed.

Lemma token_at_gated seed j : is_ungated (token_at seed j) = false.
Proof.
  unfold is_ungated, token_at. apply negb_false_iff, N.eqb_eq. change UNGATED with (2 ^ 63)%N.
  apply N.bits_inj. intros i. rewrite N.land_spec, N.pow2_bits_eqb, N.bits_0.
  destruct (N.eqb_spec 63 i) as [<-|]; [|by rewrite andb_false_r]. by rewrite N.mod_pow2_bits_high.
Qed.

Lemma mint_token_at {text} (net : ProxyNet text) seed j :
  next_token net = ((seed + j) mod (u64_max + 1))%N ->
  (mint_token net).1 = token_at seed j /\
  next_token (mint_token net).2 = ((seed + (j + 1)) mod (u64_max + 1))%N.
Proof.
  intros H. unfold mint_token, token_at. simpl. rewrite H.
  assert (u64_max + 1 = UNGATED * 2)%N as Hd by done. split.
  - rewrite ldiff_ungated.
    + by rewrite Hd, N.Div0.mod_mul_r, (N.mul_comm UNGATED), N.Div0.mod_add, N.Div0.mod_mod.
    + pose proof (N.mod_lt (seed + j) (u64_max + 1)). lia.
  - rewrite N.Div0.add_mod_idemp_l. f_equal. lia.
Qed.

(** ** Runs of one owner *)

Section Runs.
  Context {text : Type} (xxh64 : bytes -> N -> N) `{!Base64} `{!Serde text WireResponse}.
  Implicit Types net : ProxyNet text.

(** The lock sections of the owner's handlers. A handler takes each lock on its own, so
    the sections of concurrent handlers interleave in any order. *)
Inductive ProxyEvent :=
  | EvProbe (env : ProxyEnv text) (s : slot)
  | EvGrant (env : ProxyEnv text) (s : slot)
  | EvRelease (req : ReleaseReq)
  | EvSettled (req : CompleteReq)
  | EvCached (now : N) (req : CompleteReq) (revision : N)
  | EvClearPending (port : N)
  | EvClearCompleted (port : N)
  | EvUngated.

(** One section, and the grant it made. *)
Definition proxy_step (ev : ProxyEvent) net : ProxyNet text * list (slot * N) :=
  match ev with
  | EvProbe env s => ((completed_lookup env s net).1, [])
  | EvGrant env s =>
      match grant env s net with
      | (net, Claimed token) => (net, [(s, token)])
      | (net, _) => (net, [])
      end
  | EvRelease req => (owner_release req net, [])
  | EvSettled req => (settle_release req net, [])
  | EvCached now req revision => (settle_cache now req revision net, [])
  | EvClearPending port => (clear_pending port net, [])
  | EvClearCompleted port => (clear_completed port net, [])
  | EvUngated => ((mint_token net).2, [])
  end.

Fixpoint proxy_run (evs : list ProxyEvent) net : ProxyNet text * list (slot * N) :=
  match evs with
  | [] => (net, [])
  | ev :: evs =>
      let '(net, g) := proxy_step ev net in
      let '(net, gs) := proxy_run evs net in
      (net, g ++ gs)
  end.

Definition grants_of (s : slot) (gs : list (slot * N)) : list N :=
  omap (fun g : slot * N => if decide (g.1 = s) then Some g.2 else None) gs.

Lemma grants_of_app s gs gs' : grants_of s (gs ++ gs') = grants_of s gs ++ grants_of s gs'.
Proof. unfold grants_of. apply omap_app. Qed.

(** The tokens granted are those of increasing counts, and a pending claim holds the last
    one granted for its slot. *)
Record claims_ok (seed n : N) (gs : list (slot * N)) net : Prop := {
  ok_next : next_token net = ((seed + n) mod (u64_max + 1))%N;
  ok_counts : exists js, gs.*2 = token_at seed <$> js /\ NoDup js /\ Forall (fun j => (j < n)%N) js;
  ok_pending : forall s c, pending net !! s = Some c -> last (grants_of s gs) = Some (pc_token c);
}.

(** Claims only leave the table, and no token is minted. *)
Lemma claims_ok_shrink seed n gs net net' :
  claims_ok seed n gs net -> next_token net' = next_token net -> pending net' ⊆ pending net ->
  claims_ok seed n gs net'.
Proof.
  intros [H1 H2 H3] Hn Hp. split; [congruence|done|]. intros s c Hc. apply H3. by eapply lookup_weaken.
Qed.

Lemma completed_lookup_same env s net :
  pending (completed_lookup env s net).1 = pending net /\ next_token (completed_lookup env s net).1 = next_token net.
Proof. unfold completed_lookup. repeat case_match; done. Qed.

Lemma claims_ok_minted seed n gs net net' :
  claims_ok seed n gs net -> next_token net' = next_token (mint_token net).2 -> pending net' = pending net ->
  claims_ok seed (n + 1) gs net'.
Proof.
  intros [H1 (js & Hj & Hnd & Hlt) H3] Hn Hp. split.
  - rewrite Hn. by apply mint_token_at.
  - exists js. split_and!; [done..|]. eapply Forall_impl; [exact Hlt|]. simpl. lia.
  - by rewrite Hp.
Qed.

Lemma claims_ok_grant seed n gs net env s :
  claims_ok seed n gs net ->
  match grant env s net with
  | (net', Claimed token) => claims_ok seed (n + 1) (gs ++ [(s, token)]) net'
  | (net', _) => net' = net
  end.
Proof.
  intros Hok. assert (forall token net0, mint_token net = (token, net0) ->
    claims_ok seed (n + 1) (gs ++ [(s, token)])
      (set_pending <[s := {| pc_token := token; pc_deadline := pe_now env + claim_ttl env |}]> net0)) as Hfresh.
  { intros token net0 Hm. destruct Hok as [H1 (js & Hj & Hnd & Hlt) H3].
    destruct (mint_token_at net seed n H1) as [Ht Hn]. rewrite Hm in Ht, Hn. simpl in Ht, Hn. split.
    - done.
    - exists (js ++ [n]). rewrite !fmap_app, Hj. simpl. rewrite Ht. split_and!; [done| |].
      + apply NoDup_app. split_and!; [done| |apply NoDup_singleton]. intros j Hin ->%list_elem_of_singleton.
        rewrite Forall_forall in Hlt. specialize (Hlt _ Hin). lia.
      + apply Forall_app. split; [eapply Forall_impl; [exact Hlt|]; simpl; lia|]. apply Forall_singleton. lia.
    - intros s' c. simpl. assert (pending net0 = pending net) as -> by (injection Hm as _ <-; done).
      rewrite grants_of_app. unfold grants_of at 2. simpl. rewrite lookup_insert_Some.
      intros [[<- <-]|[Hne Hc]].
      + rewrite decide_True by done. simpl. by rewrite last_snoc.
      + rewrite decide_False by done. rewrite app_nil_r. by apply H3. }
  unfold grant. destruct (mint_token net) as [token net0] eqn:Hm.
  destruct (pending net !! s) as [claim|]; [|by apply Hfresh].
  destruct (pe_now env <? pc_deadline claim)%N; [done|by apply Hfresh].
Qed.

Definition is_grant (ev : ProxyEvent) : bool := match ev with EvGrant _ _ => true | _ => false end.

(** Only a grant adds a claim, and only a grant or an ungated claim mints. *)
Lemma pending_step_subset ev net : is_grant ev = false -> pending (proxy_step ev net).1 ⊆ pending net.
Proof.
  destruct ev as [env s|env s|req|req|now req rev|port|port|]; simpl; try done; intros _.
  - by rewrite (proj1 (completed_lookup_same env s net)).
  - unfold owner_release. repeat case_match; try done. apply delete_subseteq.
  - apply delete_subseteq.
  - apply map_filter_subseteq.
Qed.

Lemma next_token_step ev net :
  is_grant ev = false -> ev <> EvUngated -> next_token (proxy_step ev net).1 = next_token net.
Proof.
  destruct ev as [env s|env s|req|req|now req rev|port|port|]; simpl; try done; intros _ _.
  - apply completed_lookup_same.
  - unfold owner_release. repeat case_match; done.
Qed.

Lemma proxy_step_ok seed n gs net ev :
  claims_ok seed n gs net ->
  exists n', (n <= n' <= n + 1)%N /\ claims_ok seed n' (gs ++ (proxy_step ev net).2) (proxy_step ev net).1.
Proof.
  intros Hok.
  assert (is_grant ev = false -> ev <> EvUngated -> (proxy_step ev net).2 = [] ->
    exists n', (n <= n' <= n + 1)%N /\ claims_ok seed n' (gs ++ (proxy_step ev net).2) (proxy_step ev net).1) as Hother.
  { intros Hne Hnu ->. exists n. rewrite app_nil_r. split; [lia|].
    eapply claims_ok_shrink; [done|by apply next_token_step|by apply pending_step_subset]. }
  destruct ev as [env s|env s|req|req|now req rev|port|port|]; try (by apply Hother).
  - simpl. pose proof (claims_ok_grant seed n gs net env s Hok) as Hg.
    destruct (grant env s net) as [net2 [token| | | | |]]; simpl;
      [exists (n + 1)%N; split; [lia|done]|subst net2; exists n; rewrite app_nil_r; split; [lia|done]..].
  - exists (n + 1)%N. split; [lia|]. simpl. rewrite app_nil_r. by apply (claims_ok_minted seed n gs net).
Qed.

Lemma proxy_run_ok seed : forall evs n gs net,
  claims_ok seed n gs net ->
  exists n', (n' <= n + N.of_nat (length evs))%N /\ claims_ok seed n' (gs ++ (proxy_run evs net).2) (proxy_run evs net).1.
Proof.
  induction evs as [|ev evs IH]; intros n gs net Hok; simpl.
  { exists n. rewrite app_nil_r. split; [lia|done]. }
  destruct (proxy_step_ok seed n gs net ev Hok) as (n1 & Hn1 & Hok1).
  destruct (proxy_step ev net) as [net1 g]. simpl in Hok1.
  destruct (IH n1 (gs ++ g) net1 Hok1) as (n2 & Hn2 & Hok2). destruct (proxy_run evs net1) as [net2 gs2]. simpl in *.
  exists n2. split; [lia|]. by rewrite app_assoc.
Qed.

(** Sections that leave a live claim of a slot in place: grants before its deadline, and
    releases, settles and clears of others. *)
Definition leaves_alone (s : slot) (c : PendingClaim) (ev : ProxyEvent) : Prop :=
  match ev with
  | EvGrant env s' => s' = s -> (pe_now env < pc_deadline c)%N
  | EvRelease req => (lq_port req, lq_sig_hash req) = s -> lq_token req <> pc_token c
  | EvSettled req => (dq_port req, dq_sig_hash req) <> s
  | EvClearPending port => port <> s.1
  | EvProbe _ _ | EvCached _ _ _ | EvClearCompleted _ | EvUngated => True
  end.

Lemma step_keeps_claim s c ev net :
  pending net !! s = Some c -> leaves_alone s c ev ->
  pending (proxy_step ev net).1 !! s = Some c /\ grants_of s (proxy_step ev net).2 = [].
Proof.
  intros Hc Hev. destruct ev as [env s'|env s'|req|req|now req rev|port|port|]; simpl in *; try done.
  - by rewrite (proj1 (completed_lookup_same env s' net)).
  - unfold grant. destruct (decide (s' = s)) as [Hs|Hs].
    + rewrite Hs, Hc. by rewrite (proj2 (N.ltb_lt _ _)) by auto.
    + destruct (mint_token net) as [token net0] eqn:Hm.
      assert (pending net0 = pending net) as Hp0 by (injection Hm as _ <-; done).
      destruct (pending net !! s') as [cl|]; [destruct (_ <? _)%N|]; simpl;
        rewrite ?lookup_insert_ne, ?Hp0 by done; unfold grants_of; simpl; by rewrite ?decide_False by done.
  - split; [|done]. unfold owner_release. destruct (pending net !! (lq_port req, lq_sig_hash req)) as [c'|] eqn:E; [|done].
    destruct (N.eqb_spec (pc_token c') (lq_token req)) as [Ht|]; [|done]. simpl.
    rewrite lookup_delete_ne; [done|]. intros Hs. rewrite Hs in E. rewrite E in Hc. injection Hc as ->. by apply (Hev Hs).
  - split; [|done]. by apply lookup_delete_Some.
  - split; [|done]. apply map_lookup_filter_Some. split; [done|]. simpl. congruence.
Qed.

Lemma run_keeps_claim s c : forall evs net,
  pending net !! s = Some c -> Forall (leaves_alone s c) evs ->
  pending (proxy_run evs net).1 !! s = Some c /\ grants_of s (proxy_run evs net).2 = [].
Proof.
  induction evs as [|ev evs IH]; intros net Hc Hev; simpl; [done|]. apply Forall_cons in Hev as [Hev Hevs].
  destruct (step_keeps_claim s c ev net Hc Hev) as [Hc1 Hg1]. destruct (proxy_step ev net) as [net1 g1]. simpl in *.
  destruct (IH net1 Hc1 Hevs) as [Hc2 Hg2]. destruct (proxy_run evs net1) as [net2 g2]. simpl in *.
  by rewrite grants_of_app, Hg1, Hg2.
Qed.

(** A handler is a run of its sections: a claim probes the cache, then grants. *)
Lemma owner_claim_sections env req net :
  let s := (cq_port req, cq_sig_hash req) in
  exists evs, evs `prefix_of` [EvProbe env s; EvGrant env s] /\
    proxy_run evs net =
      ((owner_claim xxh64 env req net).1,
       match (owner_claim xxh64 env req net).2 with Claimed token => [(s, token)] | _ => [] end).
Proof.
  cbv zeta. set (s := (cq_port req, cq_sig_hash req)). unfold owner_claim. fold s.
  assert ([] `prefix_of` [EvProbe env s; EvGrant env s]) as H0 by apply prefix_nil.
  destruct (proxy_view _) as [[id ring]|]; [|by exists []].
  destruct (owner_gate _ _ _ _ _) as [[]|]; [by exists []..|].
  destruct (pe_isolated env); [by exists []|].
  destruct (pe_recorded env _ _) as [[|]|]; [by exists []| |by exists []].
  destruct (completed_lookup env s net) as [net' [json|]] eqn:E; simpl.
  - exists [EvProbe env s]. split; [by exists [EvGrant env s]|]. simpl. by rewrite E.
  - exists [EvProbe env s; EvGrant env s]. split; [done|]. simpl. rewrite E. simpl.
    by destruct (grant env s net') as [net2 [token| | | | |]].
Qed.

Lemma complete_finish_sections now req submitted net :
  exists evs, proxy_run evs net = ((complete_finish now req submitted net).1, []) /\
    evs = EvSettled req :: match submitted with
      | SubmitResponse r => match cr_outcome r with Applied => [EvCached now req (cr_revision r)] | Failed _ => [] end
      | _ => []
      end.
Proof. eexists. split; [|reflexivity]. destruct submitted as [| |r]; [done..|]. simpl. by destruct (cr_outcome r). Qed.


End Runs.
