(* ===== verification/ProxyLog.v ===== *)
(** * Recording once: claims against the log

    A settled recording is known to its owner first from the cache of its own commit and
    then from the applied marker. Between them no claim is granted, until an op that
    forgets the marker applies. The interleavings the handlers leave open are written
    out at the end. *)

From S2P Require Import Prelude Upstream Ring Node Auth Rpc FlowConfig Control Recorded StateMachine Demo ApplyFacts Proxy ProxyFacts.

Section Log.
  Context {text : Type} {CD : Codec text} {ER : EngineRules} (xxh64 : bytes -> N -> N).
  Implicit Types (net : ProxyNet text) (s : Sm text) (env : ProxyEnv text).

(** The node a handler reads has applied exactly [s]. *)
Definition reads (env : ProxyEnv text) (s : Sm text) : Prop :=
  (forall port hash, pe_recorded env port hash = Ok (proxy_recorded (tables s) !! (port, hash))) /\
  pe_last_applied env = lid_index <$> last_applied_log (applied s).

(** The node has not applied the log up to an index. *)
Definition behind (s : Sm text) (index : N) : Prop :=
  match last_applied_log (applied s) with Some l => (lid_index l < index)%N | None => True end.

Lemma apply_entry_recorded L s e s' resp acts port hash rec stub request :
  apply_entry L s e = Ok (s', resp, acts) -> e_payload e = Normal request ->
  op request = ProxyRecorded port hash rec stub -> dedup_rows s !! op_id request = None -> merging stub = false ->
  cr_outcome resp = Applied -> is_Some (proxy_recorded (tables s') !! (port, hash)) /\ cr_revision resp = lid_index (e_log_id e).
Proof.
  unfold apply_entry. intros H Hp Ho Hd Hm Ha. rewrite Hp in H. unfold apply_normal, dedup_hit in H. simpl in H.
  rewrite Hd in H. destruct (decide_op _ _ _ _) as [t out] eqn:E. injection H as <- <- _. destruct out; [|done].
  split; [|done]. unfold decide_op in E. destruct (validate _); [|done]. destruct (check_preconditions _ _); [|done].
  rewrite Ho in E. by eapply recording_marks.
Qed.

(** The node serves the claim: it is the owner, at the caller's membership, not isolated. *)
Definition serving (env : ProxyEnv text) (req : ClaimReq) : Prop :=
  exists id ring, proxy_view (pe_node env) = Ok (id, ring) /\ pe_isolated env = false /\
    owner_gate xxh64 ring id (cq_m_idx req) (slot_key (cq_port req) (cq_sig_hash req)) = None.

(** No claim is granted, and a served one is told why. *)
Definition closed (env : ProxyEnv text) (req : ClaimReq) (net : ProxyNet text) : Prop :=
  (forall token, (owner_claim xxh64 env req net).2 <> Claimed token) /\
  (serving env req -> (owner_claim xxh64 env req net).2 = AlreadyRecorded).

(** A claim the node's own state does not answer is refused before it is granted. *)
Lemma closed_intro env req net :
  match pe_recorded env (cq_port req) (cq_sig_hash req) with
  | Ok (Some _) => True
  | Ok None => is_Some (completed_lookup env (cq_port req, cq_sig_hash req) net).2
  | Err _ => False
  end -> closed env req net.
Proof.
  intros H. unfold closed, serving, owner_claim. destruct (proxy_view _) as [[id ring]|].
  2: { split; [done|]. by intros (? & ? & ? & _). }
  destruct (owner_gate _ _ _ _ _) as [r|] eqn:Hg.
  { split; [by destruct r|]. intros (id' & ring' & [= <- <-] & _ & Hg'). congruence. }
  destruct (pe_isolated env). { split; [done|]. by intros (? & ? & _ & ? & _). }
  destruct (pe_recorded env _ _) as [[|]|]; [done| |done].
  by destruct (completed_lookup _ _ _) as [net' [json|]]; [|destruct H].
Qed.

(** Sections that leave a cached recording where it is. *)
Definition keeps_cached (sl : slot) (at_ revision : N) (ev : ProxyEvent (text := text)) : Prop :=
  match ev with
  | EvProbe env sl' =>
      sl' = sl -> (pe_now env - at_ < COMPLETE_CACHE_TTL_MS)%N /\
                  match pe_last_applied env with Some a => (a < revision)%N | None => True end
  | EvCached _ req _ => (dq_port req, dq_sig_hash req) <> sl
  | EvClearCompleted port => port <> sl.1
  | _ => True
  end.

Lemma completed_lookup_live env sl net cached :
  completed net !! sl = Some cached -> (pe_now env - ca_at cached < COMPLETE_CACHE_TTL_MS)%N ->
  match pe_last_applied env with Some a => (a < ca_revision cached)%N | None => True end ->
  completed_lookup env sl net = (net, Some (ca_resp_json cached)).
Proof.
  intros Hc Ht Ha. unfold completed_lookup. rewrite Hc, (proj2 (N.leb_gt _ _)) by done.
  destruct (pe_last_applied env); [|done]. by rewrite (proj2 (N.leb_gt _ _)).
Qed.

Lemma step_keeps_cached sl cached ev net :
  completed net !! sl = Some cached -> keeps_cached sl (ca_at cached) (ca_revision cached) ev ->
  completed (proxy_step ev net).1 !! sl = Some cached.
Proof.
  intros Hc Hev. destruct ev as [env s'|env s'|req|req|now req rev|port|port|]; simpl in *; try done.
  - destruct (decide (s' = sl)) as [->|Hne].
    + destruct Hev; [done|]. by rewrite (completed_lookup_live _ _ _ cached).
    + unfold completed_lookup. repeat case_match; simpl; rewrite ?lookup_delete_ne by done; done.
  - unfold grant, mint_token. destruct (pending net !! s') as [c|]; [destruct (_ <? _)%N|]; done.
  - unfold owner_release. repeat case_match; done.
  - by rewrite lookup_insert_ne.
  - apply map_lookup_filter_Some. split; [done|]. simpl. congruence.
Qed.

Lemma run_keeps_cached sl cached : forall evs net,
  completed net !! sl = Some cached -> Forall (keeps_cached sl (ca_at cached) (ca_revision cached)) evs ->
  completed (proxy_run evs net).1 !! sl = Some cached.
Proof.
  induction evs as [|ev evs IH]; intros net Hc Hev; simpl; [done|]. apply Forall_cons in Hev as [Hev Hevs].
  pose proof (step_keeps_cached sl cached ev net Hc Hev) as Hc1. destruct (proxy_step ev net) as [net1 g1].
  pose proof (IH net1 Hc1 Hevs). by destruct (proxy_run evs net1).
Qed.


End Log.

(** ** A concrete owner *)

#[local] Existing Instances doc_config doc_stored doc_route doc_session doc_dedup doc_wire demo_base64 demo_codec demo_rules.

Definition one_ring : Ring := Ring_new [1]%N 7.

Definition zero_hash (buf : bytes) (seed : N) : N := 0.

Definition owner_env (s : Sm doc) (now : N) : ProxyEnv doc :=
  {| pe_node := Bound 1 one_ring; pe_isolated := false; pe_now := now; pe_claim_ttl := None;
     pe_recorded := fun port hash => Ok (proxy_recorded (tables s) !! (port, hash));
     pe_last_applied := lid_index <$> last_applied_log (applied s) |}.

Definition claim_00ff : ClaimReq := {| cq_port := 6400; cq_sig_hash := "00ff"; cq_m_idx := 7 |}.
Definition slot_00ff : slot := (6400%N, "00ff").

Definition settle_with (token : N) : CompleteReq :=
  {| dq_port := 6400; dq_sig_hash := "00ff"; dq_token := token; dq_m_idx := 7; dq_resp := demo_response;
     dq_stub := None |}.

Definition started : Sm doc := state_after initial [e_put].

Definition e_settle : Entry := demo_entry 2 (complete_request "op-s" 11 (settle_with 5)).

(** Two callers: the first is granted, the second waits, and after a release is granted a
    token of its own, which the first one's does not settle. *)
Definition claim_run : list (ProxyEvent (text := doc)) :=
  let env := owner_env started in
  [EvProbe (env 0%N) slot_00ff; EvGrant (env 0%N) slot_00ff; EvGrant (env 9%N) slot_00ff;
   EvRelease {| lq_port := 6400; lq_sig_hash := "00ff"; lq_token := 5; lq_m_idx := 7 |};
   EvUngated; EvGrant (env 10%N) slot_00ff].



(** ** What the interleaving leaves open *)

(** A settle frees its slot whoever holds it by then: one that passed its check just
    before its deadline revokes the claim granted after it, and a third caller is granted
    the signature while that claim is live. *)
Lemma late_settle_revokes_claim :
  let env := owner_env started in
  let net := (proxy_run [EvGrant (env 0%N) slot_00ff] (proxy_new 5)).1 in
  complete_check zero_hash (env 59999%N) (settle_with 5) net = Ok tt /\
  (proxy_run [EvGrant (env 60000%N) slot_00ff; EvSettled (settle_with 5); EvGrant (env 60001%N) slot_00ff] net).2
    = [(slot_00ff, 6%N); (slot_00ff, 7%N)].
Proof. split; vm_compute; reflexivity. Qed.

(** A claim whose probe of the cache came before the settle's write and whose grant came
    after the settle freed the slot is granted, although the recording is committed. *)
Lemma claim_between_settle_sections :
  let env := owner_env started in
  let net := (proxy_run [EvGrant (env 0%N) slot_00ff] (proxy_new 5)).1 in
  (proxy_run [EvProbe (env 10%N) slot_00ff; EvSettled (settle_with 5); EvCached 10 (settle_with 5) 2;
              EvGrant (env 10%N) slot_00ff] net).2 = [(slot_00ff, 6%N)].
Proof. vm_compute; reflexivity. Qed.

(** A claim that read the marker table before the node applied the recording and the
    applied index after it trusts neither the table nor the cache. *)
Lemma claim_across_apply_granted :
  let s1 := step_state started e_settle in
  let net := (complete_finish 20 (settle_with 5) (SubmitResponse (step_response started e_settle)) (proxy_new 5)).1 in
  let torn := Build_ProxyEnv (Bound 1 one_ring) false 30 None (pe_recorded (owner_env started 30))
                (pe_last_applied (owner_env s1 30)) in
  (owner_claim zero_hash torn claim_00ff net).2 = Claimed 5.
Proof. vm_compute; reflexivity. Qed.
