(* ===== verification/Session.v ===== *)
(** * Console sessions and the admin gate

    The server's [session.rs] (the signing key, the token, its verification) and the part
    of [admin_front.rs] that uses it: the gate in front of every admin route, login,
    rotation and logout, and the headers a forwarded request keeps. HMAC-SHA256, URL-safe
    base64 and JSON are parameters. A response is its status and its [Set-Cookie]. *)

From S2P Require Import Prelude Upstream Auth Ring FlowConfig Control Recorded StateMachine Projection Intents.

(** ** Tokens *)

(** [URL_SAFE_NO_PAD]: its alphabet, and that it decodes what it encoded. *)
Definition is_b64u (c : ascii) : bool :=
  let n := N_of_ascii c in
  is_ascii_digit c || (65 <=? n)%N && (n <=? 90)%N || (97 <=? n)%N && (n <=? 122)%N || (n =? 45)%N || (n =? 95)%N.

Class Base64Url := {
  b64u_encode : bytes -> string;
  b64u_decode : string -> option bytes;
  b64u_decode_encode : forall b, b64u_decode (b64u_encode b) = Some b;
  b64u_alphabet : forall b, string_forallb is_b64u (b64u_encode b) = true;
}.

Record Payload := { pid : string; iat : N; exp : N; kr : N }.

Class TokenCrypto := {
  hmac : bytes -> bytes -> bytes;
  token_b64 :: Base64Url;
  payload_json :: Serde bytes Payload;
}.

Definition FORMAT_TAG : string := "v2".
Definition SUBJECT : string := "admin".
Definition SESSION_TTL_SECS : N := 8 * 60 * 60.
Definition API_KEY_BINDING_DOMAIN : bytes := as_bytes "rift-session/api-key-binding" ++ [Ascii.zero].

Inductive SessionError :=
  | Malformed
  | BadSignature
  | Expired
  | WrongRevision
  | UnusableSigningKey.

Record SigningKey := { mac_key : bytes; revision : N }.

(** The module's own decoder, beside [control::hex_decode]. *)
Definition session_hex_decode (s : string) : option bytes :=
  if negb (Nat.even (String.length s)) then None
  else if negb (string_forallb is_ascii_hexdigit s) then None
  else hex_pairs s.

Section Token.
  Context `{TokenCrypto}.

Definition derive (record : SessionKey) (api_key : string) : result SessionError SigningKey :=
  match session_hex_decode (sk_key record) with
  | Some key_bytes =>
      if (length key_bytes =? SESSION_KEY_BYTES)%nat
      then Ok {| mac_key := hmac key_bytes (API_KEY_BINDING_DOMAIN ++ as_bytes api_key);
                 revision := sk_revision record |}
      else Err UnusableSigningKey
  | None => Err UnusableSigningKey
  end.

Definition mint (key : SigningKey) (now_secs ttl_secs : N) : string :=
  let payload := {| pid := SUBJECT; iat := now_secs; exp := sat_add now_secs ttl_secs; kr := revision key |} in
  let payload_b64 := b64u_encode (to_text payload) in
  let signed_span := FORMAT_TAG +:+ "." +:+ payload_b64 in
  let sig := hmac (mac_key key) (as_bytes signed_span) in
  signed_span +:+ "." +:+ b64u_encode sig.

Definition verify (key : SigningKey) (token : string) (now_secs : N) : result SessionError () :=
  match split_char "." token with
  | [tag; payload_b64; sig_b64] =>
      if negb (String.eqb tag FORMAT_TAG) then Err Malformed
      else
        let expected := hmac (mac_key key) (as_bytes (tag +:+ "." +:+ payload_b64)) in
        match b64u_decode sig_b64 with
        | None => Err Malformed
        | Some provided =>
            if negb (bool_decide (expected = provided)) then Err BadSignature
            else
              match b64u_decode payload_b64 with
              | None => Err Malformed
              | Some json =>
                  match from_text (A := Payload) json with
                  | Err _ => Err Malformed
                  | Ok payload =>
                      if negb (String.eqb (pid payload) SUBJECT) then Err Malformed
                      else if negb (kr payload =? revision key)%N then Err WrongRevision
                      else if (exp payload <? now_secs)%N then Err Expired
                      else Ok tt
                  end
              end
        end
  | _ => Err Malformed
  end.

End Token.

(** ** Requests and their headers *)

Inductive Method := GET | HEAD | OPTIONS | POST | PUT | DELETE | PATCH | OtherMethod (name : string).

(** A header map's entries, names lower-cased as the map keeps them, values as bytes. *)
Abbreviation Headers := (list (string * string)).

Record Request := { rq_method : Method; rq_headers : Headers }.

Definition AUTHORIZATION : string := "authorization".
Definition X_API_KEY : string := "x-api-key".
Definition COOKIE : string := "cookie".
Definition SESSION_COOKIE_NAME : string := "rift_session".
Definition CSRF_HEADER : string := "x-rift-csrf".

Definition headers_get_all (name : string) (hs : Headers) : list string :=
  snd <$> List.filter (fun h => String.eqb h.1 name) hs.

Definition headers_get (name : string) (hs : Headers) : option string := head (headers_get_all name hs).

Definition headers_remove (name : string) (hs : Headers) : Headers :=
  List.filter (fun h => negb (String.eqb h.1 name)) hs.

Definition headers_append (name value : string) (hs : Headers) : Headers := hs ++ [(name, value)].

(** [HeaderValue::to_str] reads exactly the values made of visible ASCII, and
    [HeaderValue::from_str] takes any of those. *)
Definition is_visible (c : ascii) : bool :=
  let n := N_of_ascii c in (32 <=? n)%N && (n <? 127)%N || (n =? 9)%N.

Class HeaderText := {
  to_str : string -> option string;
  header_from_str : string -> option string;
  to_str_visible : forall v, to_str v = if string_forallb is_visible v then Some v else None;
  from_str_visible : forall v, string_forallb is_visible v = true -> header_from_str v = Some v;
}.

Definition api_key_matches (provided expected : string) : bool :=
  if is_blank expected then false else bool_decide (as_bytes provided = as_bytes expected).

Inductive BearerVerdict := Absent | Accepted | Refused.

Section Requests.
  Context {HT : HeaderText}.

Definition bearer_verdict (hs : Headers) (expected : string) : BearerVerdict :=
  match (match headers_get AUTHORIZATION hs with Some v => Some v | None => headers_get X_API_KEY hs end) with
  | None => Absent
  | Some presented =>
      match to_str presented with
      | Some provided => if api_key_matches provided expected then Accepted else Refused
      | None => Refused
      end
  end.

(** The value of one [name=value] segment, if it names the session. *)
Definition session_pair (pair : string) : option string :=
  '(name, value) ← split_once "=" pair;
  if String.eqb (trim name) SESSION_COOKIE_NAME then Some (trim value) else None.

Fixpoint find_map {A B} (f : A -> option B) (l : list A) : option B :=
  match l with
  | [] => None
  | x :: l' => match f x with Some y => Some y | None => find_map f l' end
  end.

Definition session_cookie (req : Request) : option string :=
  raw ← headers_get COOKIE (rq_headers req) ≫= to_str;
  find_map session_pair (split_char ";" raw).

Definition csrf_gate (req : Request) : result N () :=
  match rq_method req with
  | GET | HEAD | OPTIONS => Ok tt
  | _ => if bool_decide (is_Some (headers_get CSRF_HEADER (rq_headers req))) then Ok tt else Err 403%N
  end.

(** ** What a forwarded request keeps *)

Definition strip_admin_bearer (hs : Headers) (api_key : option string) : Headers :=
  match api_key with
  | Some expected =>
      if is_blank expected then hs
      else foldl (fun hs carrier =>
             if existsb (fun v => bool_decide (as_bytes v = as_bytes expected)) (headers_get_all carrier hs)
             then headers_remove carrier hs else hs) hs [AUTHORIZATION; X_API_KEY]
  | None => hs
  end.

(** A segment that is a cookie, split at its [=]; whether it is the session's. *)
Definition names_session (pair : string) : bool :=
  match split_once "=" pair with
  | Some (name, _) => String.eqb (trim name) SESSION_COOKIE_NAME
  | None => false
  end.

Definition names_other (pair : string) : bool :=
  match split_once "=" pair with
  | Some (name, _) => negb (String.eqb (trim name) SESSION_COOKIE_NAME)
  | None => false
  end.

Fixpoint join (sep : string) (l : list string) : string :=
  match l with
  | [] => EmptyString
  | [s] => s
  | s :: l' => s +:+ sep +:+ join sep l'
  end.

Definition strip_cookie_value (value : string) : option string :=
  raw ← to_str value;
  let pairs := trim <$> split_char ";" raw in
  if negb (existsb names_session pairs) then Some value
  else
    match List.filter names_other pairs with
    | [] => None
    | remaining => header_from_str (join "; " remaining)
    end.

Definition strip_session_cookie (hs : Headers) : Headers :=
  let kept := omap strip_cookie_value (headers_get_all COOKIE hs) in
  foldl (fun hs value => headers_append COOKIE value hs) (headers_remove COOKIE hs) kept.

(** Both strips, as the gateway legs run them. *)
Definition gateway_headers (api_key : option string) (hs : Headers) : Headers :=
  strip_session_cookie (strip_admin_bearer hs api_key).

Definition present_fleet_key (hs : Headers) (api_key : option string) : Headers :=
  let hs := headers_remove X_API_KEY hs in
  match header_from_str <$> api_key with
  | Some (Some value) => headers_append AUTHORIZATION value (headers_remove AUTHORIZATION hs)
  | Some None => headers_remove AUTHORIZATION hs
  | None => headers_remove AUTHORIZATION hs
  end.

End Requests.

(** ** The gate *)

Record FrontResponse := { fr_status : N; fr_set_cookie : option string }.

Definition bare (status : N) : FrontResponse := {| fr_status := status; fr_set_cookie := None |}.
Definition unauthorized : FrontResponse := bare 401.
Definition internal : FrontResponse := bare 500.

Definition refusal_status (reason : string) : N :=
  match refusal_response reason with Conflict409 => 409 | NotFound404 => 404 | BadRequest400 => 400 end.

(** The front's configured key, and whether its node is still up. *)
Record FrontState := { fs_api_key : option string; fs_node_up : bool }.

Section Front.
  Context {HT : HeaderText} `{TC : TokenCrypto} {itext text : Type} `{!Serde itext ControlRequest} {CD : Codec text} {ER : EngineRules}.
  Context (written : ControlRequest -> option N) (L : Local) (parse_login : bytes -> option string).
  Implicit Types (s : Sm text) (w : World itext text).

Definition node_session_key s : result string (option SessionKey) :=
  match session_key (tables s) with
  | None => Ok None
  | Some row => match from_text (A := SessionKey) row with Ok record => Ok (Some record) | Err e => Err e end
  end.

Definition resolve_cookie s (api_key : string) (req : Request) (now_secs : N) : result FrontResponse bool :=
  match session_cookie req with
  | None => Ok false
  | Some token =>
      match node_session_key s with
      | Err _ => Err internal
      | Ok None => Ok false
      | Ok (Some record) =>
          match derive record api_key with
          | Err _ => Ok false
          | Ok key => Ok (is_ok (verify key token now_secs))
          end
      end
  end.

Definition authenticate (st : FrontState) s (req : Request) (now_secs : N) : result FrontResponse () :=
  match fs_api_key st with
  | None => Ok tt
  | Some expected =>
      if negb (fs_node_up st) then Err (bare 503)
      else
        match bearer_verdict (rq_headers req) expected with
        | Accepted => Ok tt
        | Refused => Err unauthorized
        | Absent =>
            match resolve_cookie s expected req now_secs with
            | Ok true => match csrf_gate req with Ok _ => Ok tt | Err status => Err (bare status) end
            | Ok false => Err unauthorized
            | Err response => Err response
            end
        end
  end.

(** ** Login, rotation, logout *)

Definition set_session_cookie (response : FrontResponse) (token : string) (ttl_secs : N) : FrontResponse :=
  let value := SESSION_COOKIE_NAME +:+ "=" +:+ token +:+ "; HttpOnly; Secure; SameSite=Strict; Max-Age="
               +:+ pretty ttl_secs +:+ "; Path=/" in
  match header_from_str value with
  | Some header => {| fr_status := fr_status response; fr_set_cookie := Some header |}
  | None => internal
  end.

Definition clear_session_cookie (response : FrontResponse) : FrontResponse :=
  let value := SESSION_COOKIE_NAME +:+ "=; HttpOnly; Secure; SameSite=Strict; Max-Age=0; Path=/" in
  match header_from_str value with
  | Some header => {| fr_status := fr_status response; fr_set_cookie := Some header |}
  | None => internal
  end.

Inductive Precondition :=
  | Unconditional
  | OnRevision (revision : N)
  | OnAbsent.

Definition mint_request (id : string) (o : ControlOp) (precondition : Precondition) (now_secs : N) : ControlRequest :=
  {| op_id := id; principal := None; issued_at_secs := now_secs;
     expected_revision := match precondition with OnRevision r => Some r | _ => None end;
     expect_absent := match precondition with OnAbsent => true | _ => false end;
     op := o |}.

(** What one key commit draws and meets: the random key and op id, the clock, a ledger
    that cannot be written before or after, the deadline, and the submit's fate. *)
Record KeyCommit := {
  kc_bytes : bytes;
  kc_op_id : string;
  kc_now : N;
  kc_full : bool;
  kc_late : bool;
  kc_fate : Fate;
  kc_stuck : bool;
}.

Definition key_request (kc : KeyCommit) : ControlRequest :=
  mint_request (kc_op_id kc) (SessionKeyPut (hex_encode (kc_bytes kc))) Unconditional (kc_now kc).

Definition commit_new_session_key (kc : KeyCommit) w : World itext text * result FrontResponse () :=
  let request := key_request kc in
  match validate (op request) with
  | Err reason => (w, Err (bare (refusal_status reason)))
  | Ok _ =>
      if kc_full kc then (w, Err internal)
      else
        let w := set_ledger (park_intent request) w in
        let '(w, committed) := submit_in written L (kc_fate kc) request w in
        if kc_late kc then (w, Err (bare 504))
        else
          match committed with
          | Err (NodeUnavailable _) => (w, Err (bare 503))
          | Err _ => (w, Err internal)
          | Ok response =>
              let w := retire (kc_stuck kc) (op_id request) w in
              match cr_outcome response with
              | Failed reason => (w, Err (bare (refusal_status reason)))
              | Applied => (w, Ok tt)
              end
          end
  end.

(** [before] and [view] are this node's applied state at the two reads: the second waits,
    within a bound, for the commit to be applied here. *)
Definition ensure_session_key (kc : KeyCommit) (before : Sm text) (view : World itext text -> Sm text) w
    : World itext text * result FrontResponse SessionKey :=
  match node_session_key before with
  | Err _ => (w, Err internal)
  | Ok (Some key) => (w, Ok key)
  | Ok None =>
      match commit_new_session_key kc w with
      | (w, Err response) => (w, Err response)
      | (w, Ok _) =>
          match node_session_key (view w) with
          | Err _ => (w, Err internal)
          | Ok (Some key) => (w, Ok key)
          | Ok None => (w, Err internal)
          end
      end
  end.

(** [body] is the collected body, or none when it was refused while reading. *)
Definition session_login (st : FrontState) (kc : KeyCommit) (before : Sm text) (view : World itext text -> Sm text)
    (body : option bytes) (now_secs : N) w : World itext text * FrontResponse :=
  if negb (fs_node_up st) then (w, bare 503)
  else
    match body with
    | None => (w, bare 413)
    | Some body =>
        match parse_login body with
        | None => (w, bare 400)
        | Some api_key =>
            match fs_api_key st with
            | None => (w, bare 400)
            | Some expected =>
                if negb (api_key_matches api_key expected) then (w, unauthorized)
                else
                  match ensure_session_key kc before view w with
                  | (w, Err response) => (w, response)
                  | (w, Ok record) =>
                      match derive record expected with
                      | Err _ => (w, internal)
                      | Ok key =>
                          (w, set_session_cookie (bare 200) (mint key now_secs SESSION_TTL_SECS) SESSION_TTL_SECS)
                      end
                  end
            end
        end
    end.

Definition session_rotate (st : FrontState) (kc : KeyCommit) (before : Sm text) (req : Request) (now_secs : N) w
    : World itext text * FrontResponse :=
  match fs_api_key st with
  | None => (w, bare 400)
  | Some _ =>
      match authenticate st before req now_secs with
      | Err response => (w, response)
      | Ok _ =>
          if negb (fs_node_up st) then (w, bare 503)
          else
            match commit_new_session_key kc w with
            | (w, Err response) => (w, response)
            | (w, Ok _) => (w, clear_session_cookie (bare 204))
            end
      end
  end.

Definition session_logout (req : Request) : FrontResponse :=
  match csrf_gate req with
  | Err status => bare status
  | Ok _ => clear_session_cookie (bare 204)
  end.

End Front.
