(* ===== verification/SessionFacts.v ===== *)
(** * What the admin gate and a session promise

    Who the gate admits, how long a token lasts and what ends it, and that no admin
    credential leaves with a forwarded request. *)

From S2P Require Import Prelude Upstream Auth Ring FlowConfig Control Recorded StateMachine Demo ApplyFacts Replica Projection Intents IntentsFacts Session.

(** ** Strings *)

Lemma trim_start_idem s : trim_start (trim_start s) = trim_start s.
Proof. induction s as [|c s IH]; [done|]. simpl. destruct (is_space c) eqn:E; [done|]. simpl. by rewrite E. Qed.

Lemma trim_end_idem s : trim_end (trim_end s) = trim_end s.
Proof.
  induction s as [|c s IH]; [done|]. simpl. destruct (trim_end s) as [|d t] eqn:E.
  - destruct (is_space c) eqn:Ec; [done|]. simpl. by rewrite Ec.
  - change (trim_end (String c (String d t))) with
      (match trim_end (String d t) with EmptyString => if is_space c then EmptyString else String c EmptyString
       | u => String c u end). by rewrite IH.
Qed.

(** Trimming the end keeps a first character that is not a space. *)
Lemma trim_start_end s : trim_start s = s -> trim_start (trim_end s) = trim_end s.
Proof.
  destruct s as [|c s]; [done|]. simpl. destruct (is_space c) eqn:Ec.
  - intros H. exfalso. assert (String.length (trim_start s) = S (String.length s)) as Hl by (by rewrite H).
    clear -Hl. assert (forall t, String.length (trim_start t) <= String.length t)%nat as Hle; [|specialize (Hle s); lia].
    induction t as [|d t IH]; [done|]. simpl. destruct (is_space d); simpl; lia.
  - intros _. destruct (trim_end s); simpl; by rewrite Ec.
Qed.

Lemma trim_idem s : trim (trim s) = trim s.
Proof. unfold trim. rewrite (trim_start_end (trim_start s)) by apply trim_start_idem. apply trim_end_idem. Qed.

Lemma trim_space c s : is_space c = true -> trim (String c s) = trim s.
Proof. intros H. unfold trim. simpl. by rewrite H. Qed.

Lemma split_eq_cons c s :
  split_once "=" (String c s) =
    if Ascii.eqb "=" c then Some (EmptyString, s) else prod_map (String c) id <$> split_once "=" s.
Proof.
  change (split_once "=" (String c s)) with
    (match (if Ascii.eqb "=" c then Some s else None) with
     | Some rest => Some (EmptyString, rest)
     | None => match split_once "=" s with Some (a, b) => Some (String c a, b) | None => None end
     end).
  destruct (Ascii.eqb "=" c); [done|]. by destruct (split_once "=" s) as [[? ?]|].
Qed.

Lemma split_eq_trim_end s : split_once "=" (trim_end s) = prod_map id trim_end <$> split_once "=" s.
Proof.
  induction s as [|c s IH]; [done|]. rewrite split_eq_cons. simpl trim_end.
  destruct (Ascii.eqb_spec "=" c) as [<-|Hc].
  - simpl. destruct (trim_end s) eqn:E; by rewrite split_eq_cons.
  - destruct (trim_end s) as [|d t] eqn:E.
    + assert (split_once "=" s = None) as -> by (by destruct (split_once "=" s) as [[]|]).
      destruct (is_space c); [done|]. rewrite split_eq_cons. by destruct (Ascii.eqb_spec "=" c).
    + rewrite split_eq_cons, IH. destruct (Ascii.eqb_spec "=" c); [done|].
      by destruct (split_once "=" s) as [[]|].
Qed.

(** A segment names the session whether or not the space around it was trimmed. *)
Lemma names_session_trim s : names_session (trim s) = names_session s.
Proof.
  transitivity (names_session (trim_start s)).
  - unfold trim, names_session. rewrite split_eq_trim_end. by destruct (split_once "=" (trim_start s)) as [[]|].
  - induction s as [|c s IH]; [done|]. simpl. destruct (is_space c) eqn:Ec; [|done]. rewrite IH.
    unfold names_session. rewrite split_eq_cons. destruct (Ascii.eqb_spec "=" c) as [<-|]; [done|].
    destruct (split_once "=" s) as [[]|]; simpl; [|done]. by rewrite trim_space.
Qed.

Lemma existsb_names_trim ps : existsb names_session (trim <$> ps) = existsb names_session ps.
Proof.
  induction ps as [|p ps IH]; [done|]. rewrite fmap_cons. cbn [existsb]. by rewrite names_session_trim, IH.
Qed.

Lemma session_pair_None s : session_pair s = None <-> names_session s = false.
Proof. unfold session_pair, names_session. destruct (split_once "=" s) as [[]|]; simpl; [|done]. by case_match. Qed.

Lemma find_map_None {A B} (f : A -> option B) l : find_map f l = None <-> forall x, x ∈ l -> f x = None.
Proof.
  induction l as [|x l IH]; simpl; [set_solver|]. destruct (f x) eqn:E.
  - split; [done|]. intros H. rewrite <- E. apply H. set_solver.
  - rewrite IH. split; [|set_solver]. intros H y [->|]%elem_of_cons; auto.
Qed.

Definition lacks (sep : ascii) (s : string) : bool := string_forallb (fun c => negb (Ascii.eqb c sep)) s.

Lemma split_char_lacks sep s x : x ∈ split_char sep s -> lacks sep x = true.
Proof.
  revert x. induction s as [|c s IH]; intros x; simpl; [by intros ->%list_elem_of_singleton|].
  destruct (Ascii.eqb c sep) eqn:Ec; [intros [->|]%elem_of_cons; auto|].
  destruct (split_char sep s) as [|h t] eqn:E.
  - intros ->%list_elem_of_singleton. unfold lacks. simpl. by rewrite Ec.
  - intros [->|Hx]%elem_of_cons; [|apply IH; set_solver]. unfold lacks. simpl. rewrite Ec. apply IH. set_solver.
Qed.

Lemma forallb_trim p s : string_forallb p s = true -> string_forallb p (trim s) = true.
Proof.
  intros H. assert (string_forallb p (trim_start s) = true) as Hs.
  { induction s as [|c s IH]; [done|]. simpl in *. apply andb_true_iff in H as [Hc Hs].
    destruct (is_space c); [auto|]. simpl. by rewrite Hc. }
  unfold trim. clear H. induction (trim_start s) as [|c t IH]; [done|]. simpl in *.
  apply andb_true_iff in Hs as [Hc Ht]. specialize (IH Ht).
  destruct (trim_end t); [destruct (is_space c); simpl; by rewrite ?Hc|]. simpl in *. by rewrite Hc.
Qed.

Lemma forallb_split p sep s x : string_forallb p s = true -> x ∈ split_char sep s -> string_forallb p x = true.
Proof.
  revert x. induction s as [|c s IH]; intros x; simpl; [by intros _ ->%list_elem_of_singleton|].
  intros [Hc Hs]%andb_true_iff. destruct (Ascii.eqb c sep); [intros [->|]%elem_of_cons; auto|].
  destruct (split_char sep s) as [|h t] eqn:E.
  - intros ->%list_elem_of_singleton. simpl. by rewrite Hc.
  - intros [->|Hx]%elem_of_cons; [|apply IH; set_solver]. simpl. rewrite Hc. apply IH; set_solver.
Qed.

(** Segments joined with a semicolon and a space split back into themselves. *)
Lemma pairs_join rs :
  rs <> [] -> (forall r, r ∈ rs -> lacks ";" r = true /\ trim r = r) -> trim <$> split_char ";" (join "; " rs) = rs.
Proof.
  induction rs as [|r rs IH]; [done|]. intros _ H. destruct (H r) as [Hl Ht]; [set_solver|].
  destruct rs as [|r' rs].
  - simpl. rewrite split_char_one by done. simpl. by rewrite Ht.
  - change (join "; " (r :: r' :: rs)) with (r +:+ String ";" (String " " (join "; " (r' :: rs)))).
    rewrite split_char_app by done. rewrite fmap_cons, Ht. f_equal.
    assert (forall t, trim <$> split_char ";" (String " " t) = trim <$> split_char ";" t) as ->.
    { intros t. simpl. destruct (split_char ";" t) eqn:E; [|by rewrite !fmap_cons, trim_space].
      destruct t as [|c t]; simpl in E; [done|]. destruct (Ascii.eqb c ";"); [done|]. by destruct (split_char ";" t). }
    apply IH; [done|]. intros x Hx. apply H. set_solver.
Qed.

Lemma forallb_join p sep rs :
  string_forallb p sep = true -> (forall r, r ∈ rs -> string_forallb p r = true) -> string_forallb p (join sep rs) = true.
Proof.
  intros Hsep. induction rs as [|r rs IH]; intros H; [done|]. destruct rs as [|r' rs]; [apply H; set_solver|].
  change (join sep (r :: r' :: rs)) with (r +:+ sep +:+ join sep (r' :: rs)).
  rewrite !string_forallb_app, H, Hsep, IH by set_solver. done.
Qed.

(** ** Headers *)

Section Forwarded.
  Context {HT : HeaderText}.

Lemma get_all_remove name name' hs :
  headers_get_all name (headers_remove name' hs) = if String.eqb name name' then [] else headers_get_all name hs.
Proof.
  unfold headers_get_all, headers_remove.
  induction hs as [|[n v] hs IH]; simpl; [by destruct (String.eqb name name')|].
  destruct (String.eqb_spec n name') as [->|Hn]; simpl.
  - rewrite IH. destruct (String.eqb_spec name name') as [->|]; [done|].
    by destruct (String.eqb_spec name' name) as [->|].
  - destruct (String.eqb_spec n name) as [->|]; [|done]. rewrite !fmap_cons, IH.
    by destruct (String.eqb_spec name name').
Qed.

Lemma get_all_append name name' v hs :
  headers_get_all name (headers_append name' v hs) =
    headers_get_all name hs ++ (if String.eqb name' name then [v] else []).
Proof.
  unfold headers_get_all, headers_append. rewrite List.filter_app, fmap_app. simpl.
  by destruct (String.eqb name' name).
Qed.

Lemma get_all_appends name name' vs hs :
  headers_get_all name (foldl (fun hs v => headers_append name' v hs) hs vs) =
    headers_get_all name hs ++ (if String.eqb name' name then vs else []).
Proof.
  revert hs. induction vs as [|v vs IH]; intros hs; simpl.
  - by destruct (String.eqb name' name); rewrite app_nil_r.
  - rewrite IH, get_all_append. destruct (String.eqb name' name); rewrite <- app_assoc; by simpl.
Qed.

Lemma get_all_strip_cookie name hs :
  headers_get_all name (strip_session_cookie hs) =
    if String.eqb name COOKIE then omap strip_cookie_value (headers_get_all COOKIE hs) else headers_get_all name hs.
Proof.
  unfold strip_session_cookie. rewrite get_all_appends, get_all_remove.
  destruct (String.eqb_spec name COOKIE) as [->|Hn]; [done|].
  destruct (String.eqb_spec COOKIE name) as [<-|]; [done|]. apply app_nil_r.
Qed.

Definition holds_key (expected : string) (vs : list string) : bool :=
  existsb (fun v => bool_decide (as_bytes v = as_bytes expected)) vs.

Lemma get_all_strip_bearer name hs k :
  is_blank k = false ->
  headers_get_all name (strip_admin_bearer hs (Some k)) =
    if (String.eqb name AUTHORIZATION || String.eqb name X_API_KEY) && holds_key k (headers_get_all name hs)
    then [] else headers_get_all name hs.
Proof.
  intros Hk. unfold strip_admin_bearer. rewrite Hk. cbn [foldl]. fold (holds_key k (headers_get_all AUTHORIZATION hs)).
  set (hs1 := if holds_key k (headers_get_all AUTHORIZATION hs) then headers_remove AUTHORIZATION hs else hs).
  fold (holds_key k (headers_get_all X_API_KEY hs1)).
  assert (forall n, headers_get_all n hs1 =
    if String.eqb n AUTHORIZATION && holds_key k (headers_get_all n hs) then [] else headers_get_all n hs) as H1.
  { intros n. unfold hs1. destruct (String.eqb_spec n AUTHORIZATION) as [->|Hn]; simpl.
    - destruct (holds_key _ _) eqn:E; [by rewrite get_all_remove|done].
    - destruct (holds_key _ _); [|done]. rewrite get_all_remove. by destruct (String.eqb_spec n AUTHORIZATION). }
  assert (headers_get_all X_API_KEY hs1 = headers_get_all X_API_KEY hs) as Hx by (by rewrite H1).
  rewrite Hx. destruct (String.eqb_spec name X_API_KEY) as [->|Hn]; simpl.
  - destruct (holds_key k (headers_get_all X_API_KEY hs)); [by rewrite get_all_remove|done].
  - rewrite orb_false_r. destruct (holds_key k (headers_get_all X_API_KEY hs)); [|by rewrite H1].
    rewrite get_all_remove, H1. by destruct (String.eqb_spec name X_API_KEY).
Qed.

(** What one cookie header becomes. *)
Lemma strip_cookie_value_spec v :
  string_forallb is_visible v = true ->
  if existsb names_session (split_char ";" v) then
    match List.filter names_other (trim <$> split_char ";" v) with
    | [] => strip_cookie_value v = None
    | rest => exists v', strip_cookie_value v = Some v' /\ string_forallb is_visible v' = true /\
                         trim <$> split_char ";" v' = rest
    end
  else strip_cookie_value v = Some v.
Proof.
  intros Hv. unfold strip_cookie_value. rewrite to_str_visible, Hv. cbn [mbind option_bind].
  rewrite existsb_names_trim.
  destruct (existsb names_session (split_char ";" v)); [|done]. simpl negb. cbv iota.
  destruct (List.filter names_other (trim <$> split_char ";" v)) as [|r rs] eqn:E; [done|].
  assert (forall x, x ∈ r :: rs -> string_forallb is_visible x = true /\ lacks ";" x = true /\ trim x = x) as Hr.
  { intros x Hx. rewrite <- E in Hx. apply elem_of_List_filter in Hx as [Hx _].
    apply list_elem_of_fmap in Hx as (y & -> & Hy). split_and!.
    - eapply forallb_trim, forallb_split; done.
    - eapply forallb_trim, split_char_lacks; done.
    - apply trim_idem. }
  assert (string_forallb is_visible (join "; " (r :: rs)) = true) as Hj
    by (apply forallb_join; [done|intros x Hx; by apply Hr]).
  exists (join "; " (r :: rs)). split_and!; [|done|].
  - by apply from_str_visible.
  - apply pairs_join; [done|]. intros x Hx. by destruct (Hr x Hx) as (_ & ? & ?).
Qed.

Lemma filter_other_clean ps : existsb names_session (List.filter names_other ps) = false.
Proof.
  induction ps as [|p ps IH]; [done|]. simpl. destruct (names_other p) eqn:E; [|done]. simpl. rewrite IH, orb_false_r.
  revert E. unfold names_other, names_session. destruct (split_once "=" p) as [[]|]; [|done].
  by destruct (String.eqb _ _).
Qed.

(** A cookie header that is kept names no session, however it is read. *)
Lemma strip_cookie_value_clean v v' :
  strip_cookie_value v = Some v' ->
  string_forallb is_visible v' = true /\ find_map session_pair (split_char ";" v') = None.
Proof.
  intros H. assert (string_forallb is_visible v = true) as Hv.
  { revert H. unfold strip_cookie_value. rewrite to_str_visible. by destruct (string_forallb is_visible v). }
  assert (forall u, existsb names_session (split_char ";" u) = false ->
            find_map session_pair (split_char ";" u) = None) as Hu.
  { intros u He. apply find_map_None. intros x Hx. apply session_pair_None.
    destruct (names_session x) eqn:E; [|done]. rewrite <- He. symmetry. apply existsb_exists.
    exists x. split; [by apply list_elem_of_In|done]. }
  pose proof (strip_cookie_value_spec v Hv) as Hs.
  destruct (existsb names_session (split_char ";" v)) eqn:E.
  - pose proof (filter_other_clean (trim <$> split_char ";" v)) as Hc.
    destruct (List.filter _ _) as [|r rs]; [by rewrite H in Hs|].
    destruct Hs as (u & Hu' & Hvis & Hp). rewrite H in Hu'. injection Hu' as <-. split; [done|]. apply Hu.
    by rewrite <- Hp, existsb_names_trim in Hc.
  - rewrite H in Hs. injection Hs as <-. by split; [|apply Hu].
Qed.

Lemma get_all_gateway name k hs :
  is_blank k = false -> name <> COOKIE ->
  headers_get_all name (gateway_headers (Some k) hs) =
    if (String.eqb name AUTHORIZATION || String.eqb name X_API_KEY) && holds_key k (headers_get_all name hs)
    then [] else headers_get_all name hs.
Proof.
  intros Hk Hn. unfold gateway_headers. rewrite get_all_strip_cookie.
  destruct (String.eqb_spec name COOKIE); [done|]. by apply get_all_strip_bearer.
Qed.

Lemma get_all_gateway_cookie api_key hs :
  headers_get_all COOKIE (gateway_headers api_key hs) = omap strip_cookie_value (headers_get_all COOKIE hs).
Proof.
  unfold gateway_headers. rewrite get_all_strip_cookie. destruct api_key as [k|]; [|done].
  destruct (is_blank k) eqn:Hk; [unfold strip_admin_bearer; by rewrite Hk|]. by rewrite get_all_strip_bearer.
Qed.

(** No admin credential leaves with a request forwarded to an imposter. After both
    strips neither key header holds the fleet's key, and no cookie header, read the way the
    gate reads one, yields a session token. Nothing else is lost: other headers, and key
    headers that held some other value, keep their values in order; a readable cookie
    header without the session is kept byte for byte, and one that carried it keeps its
    other cookies in order, or goes when there were none. *)
Theorem gateway_headers_clean k hs :
  is_blank k = false ->
  let hs' := gateway_headers (Some k) hs in
  (forall v, v ∈ headers_get_all AUTHORIZATION hs' ++ headers_get_all X_API_KEY hs' -> v <> k)
  /\ (forall v, v ∈ headers_get_all COOKIE hs' ->
        to_str v = Some v /\ find_map session_pair (split_char ";" v) = None)
  /\ (forall name, name <> COOKIE -> k ∉ headers_get_all name hs \/ name <> AUTHORIZATION /\ name <> X_API_KEY ->
        headers_get_all name hs' = headers_get_all name hs)
  /\ (forall v, v ∈ headers_get_all COOKIE hs -> to_str v = Some v ->
        if existsb names_session (split_char ";" v) then
          List.filter names_other (trim <$> split_char ";" v) = []
          \/ exists v', v' ∈ headers_get_all COOKIE hs' /\
               trim <$> split_char ";" v' = List.filter names_other (trim <$> split_char ";" v)
        else v ∈ headers_get_all COOKIE hs').
Proof.
  intros Hk hs'.
  assert (forall vs, holds_key k vs = false <-> k ∉ vs) as Hh.
  { intros vs. unfold holds_key. induction vs as [|v vs IH]; simpl; [set_solver|].
    rewrite orb_false_iff, IH, bool_decide_eq_false, not_elem_of_cons.
    split; intros [Hv ?]; (split; [|done]); intros E; apply Hv; [by subst|by apply as_bytes_inj]. }
  split_and!.
  - intros v Hv ->. apply elem_of_app in Hv as [Hv|Hv]; unfold hs' in Hv; rewrite get_all_gateway in Hv by done;
      simpl in Hv; destruct (holds_key _ _) eqn:E; try set_solver; apply Hh in E; contradiction.
  - intros v Hv. unfold hs' in Hv. rewrite get_all_gateway_cookie in Hv.
    apply list_elem_of_omap in Hv as (u & _ & Hu). apply strip_cookie_value_clean in Hu as [Hvis ?].
    split; [|done]. by rewrite to_str_visible, Hvis.
  - intros name Hn Hkeep. unfold hs'. rewrite get_all_gateway by done. destruct Hkeep as [Hni|[Ha Hx]].
    + apply Hh in Hni. by rewrite Hni, andb_false_r.
    + by destruct (String.eqb_spec name AUTHORIZATION), (String.eqb_spec name X_API_KEY).
  - intros v Hv Hs. assert (string_forallb is_visible v = true) as Hvis
      by (revert Hs; rewrite to_str_visible; by destruct (string_forallb _ _)).
    pose proof (strip_cookie_value_spec v Hvis) as Hspec. unfold hs'. rewrite get_all_gateway_cookie.
    destruct (existsb names_session (split_char ";" v)); [|apply list_elem_of_omap; eauto].
    destruct (List.filter names_other _) as [|r rs]; [by left|]. right.
    destruct Hspec as (v' & Hv' & _ & Hp). exists v'. split; [|done]. apply list_elem_of_omap. eauto.
Qed.

End Forwarded.

(** ** Tokens *)

Section Tokens.
  Context `{TC : TokenCrypto}.

Lemma session_hex_decode_control s : session_hex_decode s = control_hex_decode s.
Proof. unfold session_hex_decode, control_hex_decode. by destruct (Nat.even _), (string_forallb _ _). Qed.

(** A key derives exactly when the control plane admits its record. *)
Lemma derive_validate record k :
  if is_ok (validate_session_key (sk_key record))
  then exists key_bytes, control_hex_decode (sk_key record) = Some key_bytes /\
         length key_bytes = SESSION_KEY_BYTES /\
         derive record k = Ok {| mac_key := hmac key_bytes (API_KEY_BINDING_DOMAIN ++ as_bytes k);
                                 revision := sk_revision record |}
  else derive record k = Err UnusableSigningKey.
Proof.
  unfold derive, validate_session_key. rewrite session_hex_decode_control.
  destruct (control_hex_decode (sk_key record)) as [bs|]; [|done].
  destruct (Nat.eqb_spec (length bs) SESSION_KEY_BYTES); simpl; eauto.
Qed.

Lemma derive_revision record k key : derive record k = Ok key -> revision key = sk_revision record.
Proof. unfold derive. repeat case_match; by intros [= <-]. Qed.

Lemma b64u_no_dot b : lacks "." (b64u_encode b) = true.
Proof.
  unfold lacks. eapply string_forallb_impl; [|apply b64u_alphabet].
  intros c. destruct c as [[] [] [] [] [] [] [] []]; done.
Qed.

Lemma split_minted p g : lacks "." p = true -> lacks "." g = true ->
  split_char "." ((FORMAT_TAG +:+ "." +:+ p) +:+ "." +:+ g) = [FORMAT_TAG; p; g].
Proof.
  intros Hp Hg. rewrite !append_assoc.
  change (split_char "." (FORMAT_TAG +:+ "." +:+ p +:+ "." +:+ g))
    with ("v2" :: split_char "." (p +:+ String "." g)).
  by rewrite split_char_app, split_char_one by done.
Qed.

(** A key's verdict on a token minted under another, or the same, key. *)
Lemma verify_minted key' key t ttl now :
  let span := as_bytes (FORMAT_TAG +:+ "." +:+ b64u_encode (to_text
    {| pid := SUBJECT; iat := t; exp := sat_add t ttl; kr := revision key |})) in
  verify key' (mint key t ttl) now =
    if negb (bool_decide (hmac (mac_key key') span = hmac (mac_key key) span)) then Err BadSignature
    else if negb (revision key =? revision key')%N then Err WrongRevision
    else if (sat_add t ttl <? now)%N then Err Expired
    else Ok tt.
Proof.
  intros span. unfold mint, verify. rewrite split_minted by apply b64u_no_dot. simpl String.eqb. cbn [negb].
  rewrite !b64u_decode_encode, from_to_text. by rewrite String.eqb_refl.
Qed.

(** What an accepted token is, without reference to the order of the checks. *)
Definition authentic (record : SessionKey) (k token : string) (now : N) : Prop :=
  exists key_bytes p g json payload,
    control_hex_decode (sk_key record) = Some key_bytes /\ length key_bytes = SESSION_KEY_BYTES
    /\ split_char "." token = [FORMAT_TAG; p; g]
    /\ b64u_decode g = Some (hmac (hmac key_bytes (API_KEY_BINDING_DOMAIN ++ as_bytes k))
                                  (as_bytes (FORMAT_TAG +:+ "." +:+ p)))
    /\ b64u_decode p = Some json /\ from_text json = Ok payload
    /\ pid payload = SUBJECT /\ kr payload = sk_revision record /\ (now <= exp payload)%N.

Lemma verify_authentic record k token now :
  authentic record k token now <-> exists key, derive record k = Ok key /\ verify key token now = Ok tt.
Proof.
  pose proof (derive_validate record k) as Hd. split.
  - intros (kb & p & g & json & payload & Hkb & Hl & Hs & Hg & Hp & Hj & Hpid & Hkr & Hexp).
    unfold validate_session_key in Hd. rewrite Hkb, Hl in Hd. simpl in Hd.
    destruct Hd as (kb' & [= <-] & _ & Hd). eexists. split; [exact Hd|].
    unfold verify. rewrite Hs, String.eqb_refl, Hg, Hp, Hj, Hpid, Hkr, N.eqb_refl. cbn [negb mac_key].
    rewrite bool_decide_true by done. cbn. by destruct (N.ltb_spec (exp payload) now); [lia|].
  - intros (key & Hk & Hv). rewrite Hk in Hd. destruct (is_ok _); [|done].
    destruct Hd as (kb & Hkb & Hl & Hd). injection Hd as ->. revert Hv. unfold verify. cbn [mac_key revision].
    destruct (split_char "." token) as [|tag [|p [|g [|]]]] eqn:Hs; try done.
    destruct (String.eqb_spec tag FORMAT_TAG) as [->|]; [|done]. cbn [negb].
    destruct (b64u_decode g) as [sig|] eqn:Hg; [|done]. case_bool_decide as Hsig; [|done]. cbn [negb].
    destruct (b64u_decode p) as [json|] eqn:Hp; [|done]. destruct (from_text json) as [payload|] eqn:Hj; [|done].
    destruct (String.eqb_spec (pid payload) SUBJECT) as [Hpid|]; [|done]. cbn [negb].
    destruct (N.eqb_spec (kr payload) (sk_revision record)) as [Hkr|]; [|done]. cbn [negb].
    destruct (N.ltb_spec (exp payload) now); [done|]. intros _. subst sig.
    exists kb, p, g, json, payload. by split_and!.
Qed.

End Tokens.

(** ** The gate *)

Section Credentials.
  Context {HT : HeaderText}.

Definition key_header (hs : Headers) : option string :=
  match headers_get AUTHORIZATION hs with Some v => Some v | None => headers_get X_API_KEY hs end.

Lemma bearer_verdict_spec hs k :
  match bearer_verdict hs k with
  | Absent => key_header hs = None
  | Accepted => key_header hs = Some k /\ to_str k = Some k /\ is_blank k = false
  | Refused => exists v, key_header hs = Some v /\ (v <> k \/ to_str k = None \/ is_blank k = true)
  end.
Proof.
  unfold bearer_verdict. fold (key_header hs). destruct (key_header hs) as [v|]; [|done].
  rewrite !to_str_visible. destruct (string_forallb is_visible v) eqn:Hv.
  - unfold api_key_matches. destruct (is_blank k); [eauto|]. case_bool_decide as E.
    + apply as_bytes_inj in E as ->. by rewrite Hv.
    + exists v. split; [done|]. left. by intros ->.
  - exists v. split; [done|]. destruct (decide (v = k)) as [->|]; [|eauto]. rewrite Hv. auto.
Qed.

Definition read_only (m : Method) : Prop := m = GET \/ m = HEAD \/ m = OPTIONS.

Lemma csrf_gate_spec req :
  csrf_gate req = Ok tt <-> read_only (rq_method req) \/ is_Some (headers_get CSRF_HEADER (rq_headers req)).
Proof.
  unfold csrf_gate, read_only. destruct (rq_method req); try case_bool_decide; naive_solver.
Qed.

End Credentials.

Section Gate.
  Context {HT : HeaderText} `{TC : TokenCrypto} {itext text : Type} `{!Serde itext ControlRequest} {CD : Codec text} {ER : EngineRules}.
  Context (written : ControlRequest -> option N) (L : Local) (parse_login : bytes -> option string).
  Implicit Types (s : Sm text) (w : World itext text).

Lemma resolve_cookie_true s k req now :
  resolve_cookie s k req now = Ok true <->
  exists token record, session_cookie req = Some token /\ node_session_key s = Ok (Some record)
    /\ authentic record k token now.
Proof.
  unfold resolve_cookie. destruct (session_cookie req) as [token|]; [|naive_solver].
  destruct (node_session_key s) as [[record|]|]; [|naive_solver..]. pose proof (verify_authentic record k token now) as Hv.
  transitivity (authentic record k token now); [|naive_solver]. rewrite Hv.
  destruct (derive record k) as [key|]; [|naive_solver].
  split; [|by intros (? & [= <-] & ->)]. intros H. exists key. split; [done|].
  by destruct (verify key token now) as [[]|].
Qed.

(** C17: who the admin gate admits. With no key configured, everyone; otherwise, on a node
    that is up, exactly two kinds of caller. One presents the key itself, readable and not
    blank, in the header that decides: [Authorization], or [x-api-key] when there is no
    [Authorization]. The other presents neither header and, in its first cookie header, a
    token signed under the fleet's current session key bound to this node's API key,
    unexpired and of the current revision; and when its method is not read-only it carries
    the CSRF header. *)
Theorem admin_gate st s req now :
  authenticate st s req now = Ok tt <->
  fs_api_key st = None
  \/ exists k, fs_api_key st = Some k /\ fs_node_up st = true /\
     (key_header (rq_headers req) = Some k /\ to_str k = Some k /\ is_blank k = false
      \/ key_header (rq_headers req) = None
         /\ (exists token record, session_cookie req = Some token /\ node_session_key s = Ok (Some record)
               /\ authentic record k token now)
         /\ (read_only (rq_method req) \/ is_Some (headers_get CSRF_HEADER (rq_headers req)))).
Proof.
  unfold authenticate. destruct (fs_api_key st) as [k|]; [|naive_solver].
  destruct (fs_node_up st); [|naive_solver]. cbn [negb].
  pose proof (bearer_verdict_spec (rq_headers req) k) as Hb.
  setoid_rewrite <- resolve_cookie_true. setoid_rewrite <- csrf_gate_spec.
  destruct (bearer_verdict (rq_headers req) k).
  - split.
    + destruct (resolve_cookie s k req now) as [[]|] eqn:Hr; [|done..].
      destruct (csrf_gate req) as [[]|]; [|done]. intros _. right. exists k. naive_solver.
    + intros [?|(k' & [= <-] & _ & [[Hk _]|(_ & -> & ->)])]; [done|congruence|done].
  - naive_solver.
  - destruct Hb as (v & Hv & Hn). split; [done|]. intros [?|(k' & [= <-] & _ & [(Hk & Ht & Hbl)|[Hk _]])]; [done| |].
    + rewrite Hv in Hk. injection Hk as ->. rewrite Ht, Hbl in Hn. naive_solver.
    + by rewrite Hv in Hk.
Qed.

End Gate.

(** ** What ends a session, and what opens one *)

Section Lifetime.
  Context {HT : HeaderText} `{TC : TokenCrypto} {itext text : Type} `{!Serde itext ControlRequest} {CD : Codec text} {ER : EngineRules}.
  Context (written : ControlRequest -> option N) (L : Local) (parse_login : bytes -> option string).
  Implicit Types (s : Sm text) (w : World itext text).

Lemma fresh_key_valid (b : bytes) : length b = SESSION_KEY_BYTES -> validate_session_key (hex_encode b) = Ok tt.
Proof.
  intros Hl. pose proof (hex_decode_encode b) as Hd. unfold hex_decode in Hd.
  unfold validate_session_key, control_hex_decode. destruct (Nat.even _); [|done].
  by rewrite hex_encode_hexdigits, Hd, Hl.
Qed.

Lemma commit_new_status kc w w' response :
  commit_new_session_key written L kc w = (w', Err response) -> fr_status response <> 204%N.
Proof.
  unfold commit_new_session_key, refusal_status, internal. cbv zeta. destruct (submit_in _ _ _ _ _) as [w1 out].
  repeat case_match; intros [= _ <-]; simpl; try done; by case_match.
Qed.

Lemma retire_sm stuck id w : wd_sm (retire stuck id w) = wd_sm w.
Proof. by destruct stuck. Qed.

(** A commit that is reported, for an op id not used before, wrote the drawn key at the
    log's next index. *)
Lemma commit_new_writes kc w w' :
  commit_new_session_key written L kc w = (w', Ok tt) -> takes_effect (key_request kc) w = true ->
  session_key (tables (wd_sm w')) =
    Some (to_text {| sk_key := hex_encode (kc_bytes kc); sk_revision := lid_index (wd_next w) |}).
Proof.
  unfold commit_new_session_key. cbv zeta. destruct (validate (op (key_request kc))) eqn:Hv; [|done].
  destruct (kc_full kc); [done|]. unfold submit_in. destruct (admit_entry_size _ _); [|by destruct (kc_late kc)].
  destruct (kc_fate kc) as [|q d|q d]; [|by destruct (kc_late kc), q..].
  set (w0 := set_ledger _ w). destruct (commit_apply L (key_request kc) w0) as (s' & response & acts & Ha & ->).
  destruct (kc_late kc); [done|]. destruct (cr_outcome response) eqn:Ho; [|done]. intros [= <-] Ht.
  rewrite retire_sm. revert Ha Ht. unfold takes_effect, apply_entry, entry_of. simpl. unfold apply_normal. simpl.
  fold (clock (wd_sm w)). destruct (dedup_hit _ _ _) as [[r|]|]; [done| |done].
  unfold decide_op. rewrite Hv. cbn. intros [= <- _ _]. done.
Qed.

(** The fleet's session key is no older than [n]. *)
Definition session_floor (n : N) s : Prop :=
  exists record, node_session_key s = Ok (Some record) /\ (n <= sk_revision record)%N.

Lemma session_floor_entries n L' es s s' rs acts :
  Forall (fun e => (n <= lid_index (e_log_id e))%N) es -> apply_entries L' s es = Ok (s', rs, acts) ->
  session_floor n s -> session_floor n s'.
Proof.
  revert s rs acts. induction es as [|e es IH]; intros s rs acts Hf; simpl; [by intros [= <- <- <-]|].
  apply Forall_cons in Hf as [Hle Hf]. destruct (apply_entry L' s e) as [[[s1 r] a]|] eqn:He; [|done].
  destruct (apply_entries L' s1 es) as [[[s2 rs'] a']|] eqn:Hes; [|done]. intros [= <- <- <-] Hs.
  apply (IH _ _ _ Hf Hes). revert Hs. unfold session_floor, node_session_key.
  apply apply_entry_cases in He as [[-> _]|(request & out & _ & Hd & _)]; [done|]. intros Hs.
  apply (decide_op_tables (fun t => exists record, match session_key t with
    | Some row => match from_text (A := SessionKey) row with Ok record => Ok (Some record) | Err e => Err e end
    | None => Ok None end = Ok (Some record) /\ (n <= sk_revision record)%N) _ _ _ _ _ _ Hd Hs).
  intros t0 o0 Hm. destruct (mutate_session _ _ _ _ _ _ Hm) as [-> |[key ->]]; [done|].
  rewrite from_to_text. by eexists.
Qed.

(** A session minted under an older record is refused. *)
Lemma older_session_refused n st s req now record k key t ttl :
  session_floor n s -> (sk_revision record < n)%N -> derive record k = Ok key ->
  is_Some (fs_api_key st) -> fs_node_up st = true -> key_header (rq_headers req) = None ->
  session_cookie req = Some (mint key t ttl) -> authenticate st s req now = Err unauthorized.
Proof.
  intros (cur & Hcur & Hle) Hlt Hd [k' Hk] Hup Hh Hc. unfold authenticate. rewrite Hk, Hup. cbn [negb].
  pose proof (bearer_verdict_spec (rq_headers req) k') as Hb. rewrite Hh in Hb.
  destruct (bearer_verdict (rq_headers req) k'); [|by destruct Hb|by destruct Hb as (? & ? & _)].
  unfold resolve_cookie. rewrite Hc, Hcur. destruct (derive cur k') as [key'|] eqn:Hd'; [|done].
  apply derive_revision in Hd, Hd'. rewrite verify_minted. case_bool_decide; [|done]. cbn [negb].
  destruct (N.eqb_spec (revision key) (revision key')); [lia|]. done.
Qed.

Lemma authenticate_status st s req now response :
  authenticate st s req now = Err response -> fr_status response <> 204%N.
Proof.
  unfold authenticate, resolve_cookie, csrf_gate. repeat case_match; intros [= <-]; simplify_eq/=; done.
Qed.


(** A drawn key of the right length commits when its entry fits, the ledger takes it and
    the log answers in time. *)
Lemma commit_new_answered kc w n :
  length (kc_bytes kc) = SESSION_KEY_BYTES -> admit_entry_size written (key_request kc) = Ok n ->
  kc_full kc = false -> kc_late kc = false -> kc_fate kc = Answered -> takes_effect (key_request kc) w = true ->
  exists w', commit_new_session_key written L kc w = (w', Ok tt).
Proof.
  intros Hl Hn Hfull Hlate Hfate Ht. unfold commit_new_session_key. cbv zeta.
  assert (validate (op (key_request kc)) = Ok tt) as Hv by (by apply fresh_key_valid).
  rewrite Hv, Hfull, Hlate, Hfate. unfold submit_in. rewrite Hn.
  set (w0 := set_ledger _ w). destruct (commit_apply L (key_request kc) w0) as (s' & response & acts & Ha & ->).
  assert (cr_outcome response = Applied) as ->; [|eauto].
  revert Ha Ht. unfold takes_effect, apply_entry, entry_of. simpl. unfold apply_normal. simpl.
  fold (clock (wd_sm w)). destruct (dedup_hit _ _ _) as [[r|]|]; [done| |done].
  unfold decide_op. rewrite Hv. cbn. by intros [= _ <- _].
Qed.

(** The characters of a token: none of those a cookie header gives a meaning. *)
Definition is_token_char (c : ascii) : bool := is_b64u c || Ascii.eqb c ".".

Lemma token_chars key t ttl : string_forallb is_token_char (mint key t ttl) = true.
Proof.
  unfold mint. cbv zeta. rewrite !string_forallb_app.
  assert (forall b, string_forallb is_token_char (b64u_encode b) = true) as Hb; [|by rewrite !Hb].
  intros b. eapply string_forallb_impl; [|apply b64u_alphabet]. intros c Hc. unfold is_token_char. by rewrite Hc.
Qed.

Lemma token_char_plain c :
  is_token_char c = true ->
  negb (is_space c) = true /\ negb (Ascii.eqb c ";") = true /\ is_visible c = true.
Proof. destruct c as [[] [] [] [] [] [] [] []]; done. Qed.

(** The cookie a browser sends back is read as the token it was given. *)
Lemma session_cookie_token req key t ttl :
  headers_get COOKIE (rq_headers req) = Some (SESSION_COOKIE_NAME +:+ "=" +:+ mint key t ttl) ->
  session_cookie req = Some (mint key t ttl).
Proof.
  set (token := mint key t ttl). pose proof (token_chars key t ttl) as Ht. fold token in Ht.
  assert (forall p, (forall c, is_token_char c = true -> p c = true) -> string_forallb p token = true) as Hp
    by (intros p H; by apply (string_forallb_impl is_token_char)).
  assert (string_forallb is_visible (SESSION_COOKIE_NAME +:+ "=" +:+ token) = true) as Hvis.
  { rewrite !string_forallb_app, Hp by (intros c Hc; by apply token_char_plain). done. }
  intros Hg. unfold session_cookie. rewrite Hg. cbn [mbind option_bind]. rewrite to_str_visible, Hvis.
  cbn [mbind option_bind]. rewrite split_char_one.
  - cbn [find_map]. unfold session_pair. rewrite (split_once_app "=" EmptyString SESSION_COOKIE_NAME token) by done.
    cbn [mbind option_bind]. rewrite (trim_id token) by (apply Hp; intros c Hc; by apply token_char_plain). done.
  - rewrite !string_forallb_app, Hp by (intros c Hc; by apply token_char_plain). done.
Qed.

(** C19: a login opens a session that works. With the fleet's key in the body, on a keyed
    node that is up and has a usable signing-key record, the login answers 200 with a
    hardened cookie. Sent back as the only credential, with the CSRF header when the method
    is not read-only, that cookie passes the gate of any node with the same API key and
    record, up to and including the last second of its eight hours, and is refused with 401
    after it. *)
Theorem login_opens_session st kc before view body now w w' record k :
  fs_api_key st = Some k -> fs_node_up st = true -> is_blank k = false -> parse_login body = Some k ->
  ensure_session_key written L kc before view w = (w', Ok record) ->
  validate_session_key (sk_key record) = Ok tt ->
  exists token,
    session_login written L parse_login st kc before view (Some body) now w =
      (w', {| fr_status := 200;
              fr_set_cookie := Some ("rift_session=" +:+ token +:+
                "; HttpOnly; Secure; SameSite=Strict; Max-Age=28800; Path=/") |})
    /\ forall s req now',
         node_session_key s = Ok (Some record) -> key_header (rq_headers req) = None ->
         headers_get COOKIE (rq_headers req) = Some ("rift_session=" +:+ token) ->
         read_only (rq_method req) \/ is_Some (headers_get CSRF_HEADER (rq_headers req)) ->
         authenticate st s req now' =
           if (now' <=? sat_add now 28800)%N then Ok tt else Err unauthorized.
Proof.
  intros Hk Hup Hblank Hbody He Hv. pose proof (derive_validate record k) as Hd. rewrite Hv in Hd. simpl in Hd.
  destruct Hd as (kb & _ & _ & Hd). set (key := Build_SigningKey _ _) in Hd.
  exists (mint key now SESSION_TTL_SECS). split.
  - unfold session_login. rewrite Hup, Hbody, Hk. unfold api_key_matches. rewrite Hblank, bool_decide_true by done.
    cbn [negb]. rewrite He, Hd. f_equal. unfold set_session_cookie. rewrite from_str_visible; [done|].
    rewrite !string_forallb_app, (string_forallb_impl _ _ _ (fun c Hc => proj2 (proj2 (token_char_plain c Hc)))
      (token_chars key now SESSION_TTL_SECS)). done.
  - intros s req now' Hs Hh Hc Hm. apply csrf_gate_spec in Hm. unfold authenticate. rewrite Hk, Hup. cbn [negb].
    pose proof (bearer_verdict_spec (rq_headers req) k) as Hb. rewrite Hh in Hb.
    destruct (bearer_verdict (rq_headers req) k); [|by destruct Hb|by destruct Hb as (? & ? & _)].
    unfold resolve_cookie. rewrite (session_cookie_token req key now SESSION_TTL_SECS Hc), Hs, Hd, verify_minted.
    rewrite bool_decide_true, N.eqb_refl by done. cbn [negb]. change SESSION_TTL_SECS with 28800%N.
    rewrite N.ltb_antisym. destruct (now' <=? sat_add now 28800)%N; cbn [negb is_ok]; [by rewrite Hm|done].
Qed.

End Lifetime.

(** ** A concrete fleet *)

#[local] Existing Instances demo_codec demo_rules.

#[local] Instance kept_request : Serde ControlRequest ControlRequest := {
  to_text q := q;
  from_text q := Ok q;
  from_to_text q := eq_refl;
}.

(** Header text as [http] documents it. *)
Definition read_visible (v : string) : option string := if string_forallb is_visible v then Some v else None.

Lemma read_visible_ok v : string_forallb is_visible v = true -> read_visible v = Some v.
Proof. unfold read_visible. by intros ->. Qed.

#[local] Instance demo_headers : HeaderText := {
  to_str := read_visible;
  header_from_str := read_visible;
  to_str_visible v := eq_refl;
  from_str_visible := read_visible_ok;
}.

Lemma hexdigits_b64u b : string_forallb is_b64u (hex_encode b) = true.
Proof.
  eapply string_forallb_impl; [|apply hex_encode_hexdigits].
  intros c. destruct c as [[] [] [] [] [] [] [] []]; done.
Qed.

#[local] Instance hex_base64url : Base64Url := {
  b64u_encode := hex_encode;
  b64u_decode := hex_decode;
  b64u_decode_encode := hex_decode_encode;
  b64u_alphabet := hexdigits_b64u;
}.

(** Claims written as the bits of a number. *)
Definition payload_bits (c : Payload) : bytes := pos_bits (encode (pid c, iat c, exp c, kr c)).

Definition bits_payload (b : bytes) : result string Payload :=
  match decode (A := string * N * N * N) (bits_pos b) with
  | Some (p, i, e, k) => Ok {| pid := p; iat := i; exp := e; kr := k |}
  | None => no_parse
  end.

Lemma bits_payload_bits c : bits_payload (payload_bits c) = Ok c.
Proof. unfold bits_payload, payload_bits. rewrite bits_pos_bits, decode_encode. by destruct c. Qed.

#[local] Instance bits_json : Serde bytes Payload := {
  to_text := payload_bits;
  from_text := bits_payload;
  from_to_text := bits_payload_bits;
}.

(** A keyed function of its message. *)
#[local] Instance demo_crypto : TokenCrypto := {| hmac k m := take 4 k ++ take 8 m |}.

Definition admin_key : string := "s3cret".
Definition keyed : FrontState := {| fs_api_key := Some admin_key; fs_node_up := true |}.
Definition key_commit (id : string) (c : ascii) : KeyCommit :=
  {| kc_bytes := replicate 32 c; kc_op_id := id; kc_now := 10; kc_full := false; kc_late := false;
     kc_fate := Answered; kc_stuck := false |}.

Abbreviation DemoWorld := (World ControlRequest doc).

(** The first login commits the first key. *)
Definition first_login : DemoWorld * FrontResponse :=
  session_login small demo_local (fun b => Some (string_of_list_ascii b)) keyed (key_commit "op-1" "B") initial (wd_sm (itext := ControlRequest))
    (Some (as_bytes admin_key)) 100 empty_world.

Definition first_record : SessionKey := {| sk_key := hex_encode (replicate 32 "B"%char); sk_revision := 1 |}.

Definition first_key : SigningKey :=
  match derive first_record admin_key with Ok key => key | Err _ => {| mac_key := []; revision := 0 |} end.

Definition first_token : string := mint first_key 100 SESSION_TTL_SECS.

Definition with_cookie (m : Method) (token : string) : Request :=
  {| rq_method := m; rq_headers := [("accept", "*/*"); (COOKIE, "theme=dark; rift_session=" +:+ token)] |}.

Lemma admin_gate_witness :
  authenticate keyed (wd_sm first_login.1) (with_cookie GET first_token) 200 = Ok tt.
Proof.
  apply admin_gate. right. exists admin_key. split_and!; [done|done|]. right.
  assert (authentic first_record admin_key first_token 200) as Ha.
  { apply verify_authentic. exists first_key. split; vm_compute; reflexivity. }
  split_and!; [vm_compute; reflexivity| |by left; left].
  exists first_token, first_record. split_and!; [vm_compute; reflexivity..|exact Ha].
Defined.

Lemma login_opens_session_witness :
  exists token,
    first_login.2 = {| fr_status := 200; fr_set_cookie := Some ("rift_session=" +:+ token +:+
      "; HttpOnly; Secure; SameSite=Strict; Max-Age=28800; Path=/") |}
    /\ let req := {| rq_method := POST; rq_headers := [(COOKIE, "rift_session=" +:+ token); (CSRF_HEADER, "1")] |} in
       authenticate keyed (wd_sm first_login.1) req 28900 = Ok tt
       /\ authenticate keyed (wd_sm first_login.1) req 28901 = Err unauthorized.
Proof.
  destruct (login_opens_session small demo_local (fun b => Some (string_of_list_ascii b)) keyed (key_commit "op-1" "B")
    initial (wd_sm (itext := ControlRequest)) (as_bytes admin_key) 100 empty_world first_login.1 first_record admin_key)
    as (token & Hl & Ha); [vm_compute; reflexivity..|].
  exists token. split; [unfold first_login; by rewrite Hl|]. cbv zeta. split.
  - rewrite Ha; [vm_compute; reflexivity..|reflexivity|right; eexists; reflexivity].
  - rewrite Ha; [vm_compute; reflexivity..|reflexivity|right; eexists; reflexivity].
Defined.

Definition by_key (m : Method) : Request := {| rq_method := m; rq_headers := [(AUTHORIZATION, admin_key)] |}.

(** An operator rotates with the key; the cookie the first login handed out is dead. *)
Definition rotated : DemoWorld * FrontResponse :=
  session_rotate small demo_local keyed (key_commit "op-2" "C") (wd_sm first_login.1) (by_key POST) 150 first_login.1.


Lemma gateway_headers_clean_witness :
  let hs := [(AUTHORIZATION, admin_key); (X_API_KEY, "app"); ("host", "mock");
             (COOKIE, "a=1; rift_session=v2.aa.bb;loose; b=2"); (COOKIE, "c=3;d")] in
  gateway_headers (Some admin_key) hs = [(X_API_KEY, "app"); ("host", "mock"); (COOKIE, "a=1; b=2"); (COOKIE, "c=3;d")]
  /\ (forall v, v ∈ headers_get_all COOKIE (gateway_headers (Some admin_key) hs) ->
        find_map session_pair (split_char ";" v) = None).
Proof.
  cbv zeta. split; [vm_compute; reflexivity|]. intros v Hv.
  match type of Hv with context [gateway_headers _ ?hs] =>
    destruct (gateway_headers_clean admin_key hs ltac:(vm_compute; reflexivity)) as (_ & H & _) end.
  by apply H.
Defined.

(** ** Where the comments and the code part *)

(** A key with a byte outside visible ASCII is refused in either header, though a login
    with it succeeds. *)
Definition accented_key : string := "cl" +:+ String (byte_of 195) (String (byte_of 169) EmptyString).

Lemma accented_key_refused :
  let st := {| fs_api_key := Some accented_key; fs_node_up := true |} in
  let req := {| rq_method := GET; rq_headers := [(AUTHORIZATION, accented_key)] |} in
  authenticate st (wd_sm first_login.1) req 200 = Err unauthorized
  /\ fr_status (session_login small demo_local (fun b => Some (string_of_list_ascii b)) st (key_commit "op-1" "B")
       (wd_sm first_login.1) (wd_sm (itext := ControlRequest)) (Some (as_bytes accented_key)) 100 first_login.1).2 = 200%N.
Proof. by vm_compute. Qed.
