(* ===== verification/Json.v ===== *)
(** * JSON values and floating-point numbers

    What the spec compiler reads of [serde_json] and of [f64]: values with their objects as
    maps sorted by key, numbers as an integer or a binary64, and the arithmetic the sources
    use, on the standard library's specification of IEEE 754. *)

From Stdlib Require Import SpecFloat.
From S2P Require Import Prelude.

(** ** binary64 *)

Abbreviation f64 := spec_float.

Definition f64_add : f64 -> f64 -> f64 := SFadd 53 1024.
Definition f64_sub : f64 -> f64 -> f64 := SFsub 53 1024.
Definition f64_mul : f64 -> f64 -> f64 := SFmul 53 1024.
Definition f64_div : f64 -> f64 -> f64 := SFdiv 53 1024.
Definition f64_of_Z (z : Z) : f64 := binary_normalize 53 1024 z 0 false.

Definition is_finite (f : f64) : bool :=
  match f with S754_zero _ | S754_finite _ _ _ => true | S754_infinity _ | S754_nan => false end.

(** [f64::max]: the other operand when one is not a number. *)
Definition f64_max (a b : f64) : f64 :=
  match a, b with
  | S754_nan, _ => b
  | _, S754_nan => a
  | _, _ => if SFltb a b then b else a
  end.

(** [f64::round]: to the nearest integer, halves away from zero. *)
Definition f64_round (f : f64) : f64 :=
  match f with
  | S754_finite s m e =>
      if (0 <=? e)%Z then f
      else
        let n := ((Zpos m + 2 ^ (- e - 1)) / 2 ^ (- e))%Z in
        if (n =? 0)%Z then S754_zero s else f64_of_Z (if s then - n else n)
  | _ => f
  end.

Lemma SFeqb_refl (f : f64) : is_finite f = true -> SFeqb f f = true.
Proof.
  unfold SFeqb, SFcompare. destruct f as [s|s| |s m e]; try done. intros _.
  destruct s; rewrite Z.compare_refl; change (Pos.compare_cont Eq m m) with (m ?= m)%positive;
    by rewrite Pos.compare_refl.
Qed.

(** ** Values *)

#[warnings="-register-all"]
Inductive Json :=
  | JNull
  | JBool (b : bool)
  | JInt (z : Z)
  | JFloat (f : f64)
  | JString (s : string)
  | JArray (items : list Json)
  | JObject (fields : list (string * Json)).

Section Json_ind.
Context (P : Json -> Prop) (Hnull : P JNull) (Hbool : forall b, P (JBool b)) (Hint : forall z, P (JInt z)).
Context (Hfloat : forall f, P (JFloat f)) (Hstring : forall s, P (JString s)).
Context (Harray : forall items, Forall P items -> P (JArray items)).
Context (Hobject : forall fields, Forall (fun p => P p.2) fields -> P (JObject fields)).

Fixpoint Json_rect' (v : Json) : P v :=
  match v with
  | JNull => Hnull
  | JBool b => Hbool b
  | JInt z => Hint z
  | JFloat f => Hfloat f
  | JString s => Hstring s
  | JArray items =>
      Harray items ((fix go l := match l return Forall P l with
                                 | [] => Forall_nil_2 _
                                 | x :: l => Forall_cons_2 _ _ _ (Json_rect' x) (go l)
                                 end) items)
  | JObject fields =>
      Hobject fields ((fix go l := match l return Forall (fun p => P p.2) l with
                                   | [] => Forall_nil_2 _
                                   | x :: l => Forall_cons_2 _ _ _ (Json_rect' x.2) (go l)
                                   end) fields)
  end.
End Json_ind.

(** [Value::from(f64)]: a number that is not finite has no JSON form. *)
Definition json_of_f64 (f : f64) : Json := if is_finite f then JFloat f else JNull.

Definition is_null (v : Json) : bool := match v with JNull => true | _ => false end.
Definition is_boolean (v : Json) : bool := match v with JBool _ => true | _ => false end.
Definition is_number (v : Json) : bool := match v with JInt _ | JFloat _ => true | _ => false end.
Definition is_integer (v : Json) : bool := match v with JInt _ => true | _ => false end.
Definition as_string (v : Json) : option string := match v with JString s => Some s | _ => None end.
Definition as_array (v : Json) : option (list Json) := match v with JArray l => Some l | _ => None end.
Definition as_object (v : Json) : option (list (string * Json)) := match v with JObject m => Some m | _ => None end.

Definition i64_min : Z := - 2 ^ 63.
Definition i64_max : Z := 2 ^ 63 - 1.

Definition as_i64 (v : Json) : option Z :=
  match v with
  | JInt z => if (i64_min <=? z)%Z && (z <=? i64_max)%Z then Some z else None
  | _ => None
  end.

Definition as_f64 (v : Json) : option f64 :=
  match v with JInt z => Some (f64_of_Z z) | JFloat f => Some f | _ => None end.

(** ** Objects *)

(** A [serde_json::Map] is kept sorted by key; insertion replaces an entry of the same key. *)
Fixpoint map_get {A} (key : string) (m : list (string * A)) : option A :=
  match m with
  | [] => None
  | (k, v) :: m => if String.eqb key k then Some v else map_get key m
  end.

Fixpoint map_insert {A} (key : string) (v : A) (m : list (string * A)) : list (string * A) :=
  match m with
  | [] => [(key, v)]
  | (k, w) :: m' =>
      match String.compare key k with
      | Lt => (key, v) :: m
      | Eq => (key, v) :: m'
      | Gt => (k, w) :: map_insert key v m'
      end
  end.

(** Collecting entries into a map, in order. *)
Definition map_of {A} (l : list (string * A)) : list (string * A) :=
  fold_left (fun m p => map_insert p.1 p.2 m) l [].

Definition json_get (key : string) (v : Json) : option Json :=
  match v with JObject m => map_get key m | _ => None end.

Definition json_obj (l : list (string * Json)) : Json := JObject (map_of l).

Lemma string_compare_refl s : String.compare s s = Eq.
Proof. pose proof (String.compare_antisym s s). by destruct (String.compare s s). Qed.

Lemma map_get_insert {A} key k (v : A) m :
  map_get key (map_insert k v m) = if String.eqb key k then Some v else map_get key m.
Proof.
  induction m as [|[k' w] m IH]; [done|]. simpl. destruct (String.compare k k') eqn:Hc; simpl.
  - apply String.compare_eq_iff in Hc as ->. by destruct (String.eqb key k').
  - done.
  - rewrite IH. destruct (String.eqb_spec key k') as [H1|], (String.eqb_spec key k) as [H2|]; try done.
    exfalso. subst. by rewrite string_compare_refl in Hc.
Qed.

Lemma map_get_fold {A} key (l : list (string * A)) m :
  NoDup l.*1 ->
  map_get key (fold_left (fun m p => map_insert p.1 p.2 m) l m)
  = match map_get key l with Some v => Some v | None => map_get key m end.
Proof.
  revert m. induction l as [|[k v] l IH]; intros m; [done|]. rewrite fmap_cons. intros [Hk Hn]%NoDup_cons. simpl.
  rewrite IH, map_get_insert by done. destruct (String.eqb_spec key k) as [->|]; [|done].
  destruct (map_get k l) as [w|] eqn:Hl; [|done]. exfalso. apply Hk. clear -Hl.
  induction l as [|[k' v'] l IH]; [done|]. simpl in Hl. destruct (String.eqb_spec k k') as [->|]; [by left|].
  right. by apply IH.
Qed.

Lemma map_get_of {A} key (l : list (string * A)) : NoDup l.*1 -> map_get key (map_of l) = map_get key l.
Proof. intros Hn. unfold map_of. rewrite map_get_fold by done. by destruct (map_get key l). Qed.

Lemma map_get_Some {A} key (v : A) m : map_get key m = Some v -> (key, v) ∈ m.
Proof.
  induction m as [|[k w] m IH]; [done|]. simpl. destruct (String.eqb_spec key k) as [->|].
  - intros [= ->]. apply list_elem_of_here.
  - intros H. apply elem_of_cons. right. by apply IH.
Qed.

Lemma map_get_elem {A} key (v : A) m : NoDup m.*1 -> (key, v) ∈ m -> map_get key m = Some v.
Proof.
  induction m as [|[k w] m IH]; [by intros _ ?%elem_of_nil|]. rewrite fmap_cons. intros [Hk Hn]%NoDup_cons.
  intros [[= -> ->]|Hin]%elem_of_cons; simpl; [by rewrite String.eqb_refl|].
  destruct (String.eqb_spec key k) as [->|]; [|by apply IH]. exfalso. apply Hk, list_elem_of_fmap. by exists (k, v).
Qed.
