(* ===== verification/Spec.v ===== *)
(** * The spec compiler

    [crates/rift-cluster-spec]: an OpenAPI 3.0 document is compiled into the JSON of an
    imposter. Here are the seeded generator ([digest.rs]), path templates ([path.rs]),
    normalised schemas ([schema.rs]), body synthesis ([synth.rs]), validation
    ([validate.rs]) and the compiler ([lib.rs]). SHA-256, regex escaping, the YAML parser
    and the rendering of a value are parameters; the parsed document is the part of
    [openapiv3] the sources read. *)

From Stdlib Require Import SpecFloat.
From S2P Require Import Prelude Upstream Json.

(** ** Digests and the generator *)

Definition wrap64 (n : N) : N := N.land n u64_max.

Definition of_le_bytes (b : bytes) : N := foldr (fun c n => (N_of_ascii c + 256 * n)%N) 0%N b.

Fixpoint to_hex (digest : bytes) : string :=
  match digest with [] => EmptyString | c :: digest => hex2 (N_of_ascii c) +:+ to_hex digest end.

Definition seeded (sha256 : bytes -> bytes) (digest : bytes) (operation status : string) : N :=
  of_le_bytes (take 8 (sha256 (digest ++ as_bytes operation ++ as_bytes status))).

(** The state after the draw, and what was drawn. *)
Definition next_u64 (rng : N) : N * N :=
  let rng := wrap64 (rng + 0x9E3779B97F4A7C15) in
  let z := wrap64 (N.lxor rng (N.shiftr rng 30) * 0xBF58476D1CE4E5B9) in
  let z := wrap64 (N.lxor z (N.shiftr z 27) * 0x94D049BB133111EB) in
  (rng, N.lxor z (N.shiftr z 31)).

Definition below (rng n : N) : N * N :=
  if (n =? 0)%N then (rng, 0%N) else let '(rng, x) := next_u64 rng in (rng, x mod n)%N.

(** ** Path templates *)

Record CompiledPath := {
  regex : string;
  route_pattern : option string;
  literal_segments : nat;
  total_segments : nat;
}.

(** [str::strip_suffix] of one character. *)
Fixpoint strip_last (c : ascii) (s : string) : option string :=
  match s with
  | EmptyString => None
  | String d EmptyString => if Ascii.eqb c d then Some EmptyString else None
  | String d s => String d <$> strip_last c s
  end.

Definition contains_char (c : ascii) (s : string) : bool := negb (string_forallb (fun d => negb (Ascii.eqb c d)) s).

Definition whole_segment_placeholder (segment : string) : option string :=
  inner ← strip_prefix "{" segment;
  inner ← strip_last "}" inner;
  if negb (String.eqb inner EmptyString) && negb (contains_char "{" inner) && negb (contains_char "}" inner)
  then Some inner else None.

(** Cut at each complete placeholder; the fuel is the segment's length, and each cut
    shortens what is left. *)
Fixpoint partial_segment_go (escape : string -> string) (fuel : nat) (rest : string) : string * bool :=
  match fuel with
  | O => (escape rest, false)
  | S fuel =>
      match split_once "{" rest with
      | None => (escape rest, false)
      | Some (literal, after) =>
          match split_once "}" after with
          | None => (escape rest, false)
          | Some (_, rest) => (escape literal +:+ "[^/]+" +:+ (partial_segment_go escape fuel rest).1, true)
          end
      end
  end.

Definition partial_segment_regex (escape : string -> string) (segment : string) : string * bool :=
  partial_segment_go escape (String.length segment) segment.

Record PathAcc := { pa_regex : string; pa_route : string; pa_literal : nat; pa_total : nat; pa_expressible : bool }.

(** One segment after the first. *)
Definition path_segment (escape : string -> string) (acc : PathAcc) (segment : string) : PathAcc :=
  match whole_segment_placeholder segment with
  | Some name =>
      {| pa_regex := pa_regex acc +:+ "/" +:+ "[^/]+"; pa_route := pa_route acc +:+ "/" +:+ ":" +:+ name;
         pa_literal := pa_literal acc; pa_total := S (pa_total acc); pa_expressible := pa_expressible acc |}
  | None =>
      let '(rendered, has_placeholder) := partial_segment_regex escape segment in
      {| pa_regex := pa_regex acc +:+ "/" +:+ rendered; pa_route := pa_route acc +:+ "/" +:+ segment;
         pa_literal := if has_placeholder then pa_literal acc else S (pa_literal acc);
         pa_total := S (pa_total acc);
         pa_expressible := if has_placeholder then false else pa_expressible acc |}
  end.

Definition compile_path (escape : string -> string) (template : string) : CompiledPath :=
  let segments := split_char "/" template in
  let first := default EmptyString (head segments) in
  let acc := fold_left (path_segment escape) (tail segments)
    {| pa_regex := "^" +:+ escape first; pa_route := first; pa_literal := 0; pa_total := 0; pa_expressible := true |} in
  {| regex := pa_regex acc +:+ "$";
     route_pattern := if (pa_literal acc <? pa_total acc)%nat && pa_expressible acc then Some (pa_route acc) else None;
     literal_segments := pa_literal acc;
     total_segments := pa_total acc |}.

(** The sort key: the three counts are compared in reverse. *)
Record OrderKey := { ok_literal : nat; ok_total : nat; ok_length : nat; ok_template : string; ok_method : string }.

Definition order_key (path : CompiledPath) (template method : string) : OrderKey :=
  {| ok_literal := literal_segments path; ok_total := total_segments path; ok_length := String.length template;
     ok_template := template; ok_method := method |}.

Definition then_cmp (a b : comparison) : comparison := match a with Eq => b | _ => a end.

Definition order_cmp (a b : OrderKey) : comparison :=
  then_cmp (Nat.compare (ok_literal b) (ok_literal a))
    (then_cmp (Nat.compare (ok_total b) (ok_total a))
      (then_cmp (Nat.compare (ok_length b) (ok_length a))
        (then_cmp (String.compare (ok_template a) (ok_template b)) (String.compare (ok_method a) (ok_method b))))).

(** ** The document, as the sources read it *)

Inductive ReferenceOr (A : Type) := Reference (reference : string) | Item (item : A).
Arguments Reference {A} _.
Arguments Item {A} _.

Inductive KnownFormat := FmtDate | FmtDateTime | FmtPassword | FmtByte | FmtBinary.
Inductive StringFormat := FmtItem (f : KnownFormat) | FmtUnknown (name : string) | FmtEmpty.

#[warnings="-register-all"]
Inductive Schema := SchemaOf (nullable : bool) (kind : SchemaKind)
with SchemaKind :=
  | KBoolean
  | KInteger (minimum maximum : option Z) (enumeration : list (option Z))
  | KNumber (minimum maximum : option f64) (enumeration : list (option f64))
  | KString (format : StringFormat) (enumeration : list (option string))
  | KArray (items : option (ReferenceOr Schema)) (min_items : option N)
  | KObject (properties : list (string * ReferenceOr Schema)) (required : list string)
  | KAllOf (all_of : list (ReferenceOr Schema))
  | KOneOf (one_of : list (ReferenceOr Schema))
  | KAnyOf (any_of : list (ReferenceOr Schema))
  | KOpaque.

(** ** Normalised schemas *)

Definition MAX_DEPTH : nat := 8.
Definition MAX_SCHEMA_NODES : N := 200000.

Inductive TextFormat := Plain | Date | DateTime | Uuid | Email | Byte.

#[warnings="-register-all"]
Inductive SchemaNode := Node (nullable : bool) (shape : SchemaShape)
with SchemaShape :=
  | Unconstrained
  | Boolean
  | Integer (minimum maximum : option Z) (enumeration : list Z)
  | Number (minimum maximum : option f64) (enumeration : list f64)
  | Text (format : TextFormat) (enumeration : list string)
  | Array (items : SchemaNode) (min_items : N)
  | Object (properties : list (string * SchemaNode)) (required : list string).

Definition node_nullable (n : SchemaNode) : bool := let 'Node b _ := n in b.
Definition node_shape (n : SchemaNode) : SchemaShape := let 'Node _ s := n in s.

Definition unconstrained : SchemaNode := Node false Unconstrained.

Definition is_unconstrained (n : SchemaNode) : bool :=
  match node_shape n with Unconstrained => true | _ => false end.

Definition or_nullable (nullable : bool) (n : SchemaNode) : SchemaNode := Node (node_nullable n || nullable) (node_shape n).

Definition text_format (f : StringFormat) : TextFormat :=
  match f with
  | FmtItem FmtDate => Date
  | FmtItem FmtDateTime => DateTime
  | FmtItem FmtByte => Byte
  | FmtUnknown name =>
      if String.eqb name "uuid" then Uuid
      else if String.eqb name "email" then Email
      else if String.eqb name "date" then Date
      else if String.eqb name "date-time" then DateTime
      else Plain
  | FmtItem _ | FmtEmpty => Plain
  end.

(** A later branch redefining a property wins, in the place of the first. *)
Fixpoint merge_property (name : string) (value : SchemaNode) (props : list (string * SchemaNode))
    : list (string * SchemaNode) :=
  match props with
  | [] => [(name, value)]
  | (n, v) :: props => if String.eqb n name then (n, value) :: props else (n, v) :: merge_property name value props
  end.

Definition merge_required (required : list string) (name : string) : list string :=
  if bool_decide (name ∈ required) then required else required ++ [name].

Record Merged := {
  mg_properties : list (string * SchemaNode);
  mg_required : list string;
  mg_saw_object : bool;
  mg_fallback : SchemaNode;
}.

Definition merge_branch (acc : Merged) (node : SchemaNode) : Merged :=
  match node_shape node with
  | Object props req =>
      {| mg_properties := fold_left (fun ps p => merge_property p.1 p.2 ps) props (mg_properties acc);
         mg_required := fold_left merge_required req (mg_required acc);
         mg_saw_object := true; mg_fallback := mg_fallback acc |}
  | _ =>
      {| mg_properties := mg_properties acc; mg_required := mg_required acc; mg_saw_object := mg_saw_object acc;
         mg_fallback := if is_unconstrained (mg_fallback acc) then node else mg_fallback acc |}
  end.

Definition merged_node (nullable : bool) (acc : Merged) : SchemaNode :=
  if mg_saw_object acc then Node nullable (Object (mg_properties acc) (mg_required acc))
  else or_nullable nullable (mg_fallback acc).

(** The recursion of [resolve], [follow] and [normalize_schema]; [None] is a stack that has
    run out. The node budget is threaded through, the depth is passed down. *)
Section normalize.
Context (schemas : list (string * ReferenceOr Schema)).
Context (rec : ReferenceOr Schema -> nat -> N -> option (SchemaNode * N)).

Definition follow (reference : string) (depth : nat) (budget : N) : option (SchemaNode * N) :=
  match strip_prefix "#/components/schemas/" reference with
  | None => Some (unconstrained, budget)
  | Some name =>
      match map_get name schemas with
      | None => Some (unconstrained, budget)
      | Some target => rec target depth budget
      end
  end.

Fixpoint resolve_properties (props : list (string * ReferenceOr Schema)) (depth : nat) (budget : N)
    : option (list (string * SchemaNode) * N) :=
  match props with
  | [] => Some ([], budget)
  | (name, prop) :: props =>
      '(node, budget) ← rec prop depth budget;
      '(nodes, budget) ← resolve_properties props depth budget;
      Some ((name, node) :: nodes, budget)
  end.

Fixpoint merge_all_of (branches : list (ReferenceOr Schema)) (depth : nat) (budget : N) (acc : Merged)
    : option (Merged * N) :=
  match branches with
  | [] => Some (acc, budget)
  | branch :: branches =>
      '(node, budget) ← rec branch depth budget;
      merge_all_of branches depth budget (merge_branch acc node)
  end.

Definition first_branch (branches : list (ReferenceOr Schema)) (depth : nat) (budget : N) (nullable : bool)
    : option (SchemaNode * N) :=
  match branches with
  | [] => Some (unconstrained, budget)
  | branch :: _ => '(node, budget) ← rec branch depth budget; Some (or_nullable nullable node, budget)
  end.

Definition normalize_schema (schema : Schema) (depth : nat) (budget : N) : option (SchemaNode * N) :=
  if (MAX_DEPTH <=? depth)%nat || (budget =? 0)%N then Some (unconstrained, budget)
  else
    let budget := (budget - 1)%N in
    let 'SchemaOf nullable kind := schema in
    match kind with
    | KBoolean => Some (Node nullable Boolean, budget)
    | KInteger minimum maximum enumeration =>
        Some (Node nullable (Integer minimum maximum (omap id enumeration)), budget)
    | KNumber minimum maximum enumeration =>
        Some (Node nullable (Number minimum maximum (omap id enumeration)), budget)
    | KString format enumeration => Some (Node nullable (Text (text_format format) (omap id enumeration)), budget)
    | KArray items min_items =>
        '(node, budget) ←
          match items with Some items => rec items (S depth) budget | None => Some (unconstrained, budget) end;
        Some (Node nullable (Array node (default 1%N min_items)), budget)
    | KObject properties required =>
        '(nodes, budget) ← resolve_properties properties (S depth) budget;
        Some (Node nullable (Object nodes required), budget)
    | KAllOf branches =>
        '(acc, budget) ← merge_all_of branches depth budget
           {| mg_properties := []; mg_required := []; mg_saw_object := false; mg_fallback := unconstrained |};
        Some (merged_node nullable acc, budget)
    | KOneOf branches | KAnyOf branches => first_branch branches depth budget nullable
    | KOpaque => Some (Node nullable Unconstrained, budget)
    end.
End normalize.

(** The fuel is the frames of [resolve] the stack has room for. *)
Fixpoint resolve (schemas : list (string * ReferenceOr Schema)) (fuel : nat) (schema : ReferenceOr Schema)
    (depth : nat) (budget : N) : option (SchemaNode * N) :=
  match fuel with
  | O => None
  | S fuel =>
      match schema with
      | Reference reference => follow schemas (resolve schemas fuel) reference depth budget
      | Item item => normalize_schema (resolve schemas fuel) item depth budget
      end
  end.

Definition normalize (schemas : list (string * ReferenceOr Schema)) (fuel : nat) (schema : ReferenceOr Schema)
    (budget : N) : option (SchemaNode * N) :=
  resolve schemas fuel schema 0 budget.

(** ** Synthesis *)

Definition MAX_ARRAY_ITEMS : N := 100.
Definition MAX_BODY_NODES : N := 200000.
Definition FIXED_DATE : string := "2024-01-01".
Definition FIXED_DATE_TIME : string := "2024-01-01T00:00:00Z".

(** The low [width] hexadecimal digits. *)
Fixpoint hex_pad (width : nat) (n : N) : string :=
  match width with
  | O => EmptyString
  | S width => hex_pad width (n / 16) +:+ String (lower_hex_digit (n mod 16)) EmptyString
  end.

Definition BASE64_ALPHABET : bytes := as_bytes "ABCDEFGHIJKLMNOPQRSTUVWXYZabcdefghijklmnopqrstuvwxyz0123456789+/".

Definition base64_char (n : N) : ascii := nth (N.to_nat (N.land n 63)) BASE64_ALPHABET "A"%char.

Definition base64_triple (b0 b1 b2 : ascii) : N :=
  N.lor (N.lor (N.shiftl (N_of_ascii b0) 16) (N.shiftl (N_of_ascii b1) 8)) (N_of_ascii b2).

Fixpoint base64_of (input : string) : string :=
  match input with
  | EmptyString => EmptyString
  | String b0 EmptyString =>
      let t := base64_triple b0 Ascii.zero Ascii.zero in
      String (base64_char (N.shiftr t 18)) (String (base64_char (N.shiftr t 12)) "==")
  | String b0 (String b1 EmptyString) =>
      let t := base64_triple b0 b1 Ascii.zero in
      String (base64_char (N.shiftr t 18)) (String (base64_char (N.shiftr t 12)) (String (base64_char (N.shiftr t 6)) "="))
  | String b0 (String b1 (String b2 input)) =>
      let t := base64_triple b0 b1 b2 in
      String (base64_char (N.shiftr t 18)) (String (base64_char (N.shiftr t 12))
        (String (base64_char (N.shiftr t 6)) (String (base64_char t) (base64_of input))))
  end.

Definition text (format : TextFormat) (rng : N) : string * N :=
  let '(rng, n) := next_u64 rng in
  (match format with
   | Date => FIXED_DATE
   | DateTime => FIXED_DATE_TIME
   | Uuid =>
       hex_pad 8 n +:+ "-" +:+ hex_pad 4 (N.shiftr n 8) +:+ "-4" +:+ hex_pad 3 (N.shiftr n 16)
       +:+ "-a" +:+ hex_pad 3 (N.shiftr n 28) +:+ "-" +:+ hex_pad 12 n
   | Email => "user" +:+ hex_pad 4 n +:+ "@example.com"
   | Byte => base64_of ("bytes-" +:+ hex_pad 4 n)
   | Plain => "string-" +:+ hex_pad 4 n
   end, rng).

Definition i64_sat (z : Z) : Z := Z.max i64_min (Z.min z i64_max).

Definition integer_in (minimum maximum : option Z) (rng : N) : Z * N :=
  let low := default 0%Z minimum in
  let high := match maximum with Some high => high | None => i64_sat (low + 999) end in
  if (high <=? low)%Z then (low, rng)
  else
    let span := sat_add (Z.to_N (Z.abs (high - low))) 1 in
    let '(rng, n) := next_u64 rng in
    let offset := Z.of_N (n mod span) in
    let offset := if (offset <=? i64_max)%Z then offset else 0%Z in
    (i64_sat (low + offset), rng).

Definition number_in (minimum maximum : option f64) (rng : N) : f64 * N :=
  let low := default (S754_zero false) minimum in
  let high := match maximum with Some high => high | None => f64_add low (f64_of_Z 1000) end in
  let span := f64_max (f64_sub high low) (S754_zero false) in
  let '(rng, n) := next_u64 rng in
  let offset := f64_div (f64_of_Z (Z.of_N (n mod 100000))) (f64_of_Z 100000) in
  let scaled := f64_div (f64_round (f64_mul (f64_add low (f64_mul span offset)) (f64_of_Z 100))) (f64_of_Z 100) in
  (if is_finite scaled then scaled else if is_finite low then low else S754_zero false, rng).

(** An element drawn from an enumeration that is not empty. *)
Definition draw {A} (to_json : A -> Json) (enumeration : list A) (rng : N) : Json * N :=
  let '(rng, index) := below rng (N.of_nat (length enumeration)) in
  (match enumeration !! N.to_nat index with Some x => to_json x | None => JNull end, rng).

(** Elements and fields are rendered until the budget is gone. *)
Section render_many.
Context (element : N -> N -> Json * N * N) (field : SchemaNode -> N -> N -> Json * N * N).

Fixpoint render_elements (count : nat) (rng budget : N) : list Json * N * N :=
  match count with
  | O => ([], rng, budget)
  | S count =>
      if (budget =? 0)%N then ([], rng, budget)
      else
        let '(v, rng, budget) := element rng budget in
        let '(out, rng, budget) := render_elements count rng budget in
        (v :: out, rng, budget)
  end.

Fixpoint render_fields (props : list (string * SchemaNode)) (rng budget : N) : list (string * Json) * N * N :=
  match props with
  | [] => ([], rng, budget)
  | (name, prop) :: props =>
      if (budget =? 0)%N then ([], rng, budget)
      else
        let '(v, rng, budget) := field prop rng budget in
        let '(out, rng, budget) := render_fields props rng budget in
        ((name, v) :: out, rng, budget)
  end.
End render_many.

(** The value, the generator and the budget left. *)
Fixpoint render (node : SchemaNode) (rng budget : N) : Json * N * N :=
  if (budget =? 0)%N then (JNull, rng, budget)
  else
    let budget := (budget - 1)%N in
    let 'Node _ shape := node in
    match shape with
    | Unconstrained => (JNull, rng, budget)
    | Boolean => let '(rng, n) := next_u64 rng in (JBool (N.testbit n 0), rng, budget)
    | Integer minimum maximum enumeration =>
        match enumeration with
        | [] => let '(z, rng) := integer_in minimum maximum rng in (JInt z, rng, budget)
        | _ :: _ => (draw JInt enumeration rng, budget)
        end
    | Number minimum maximum enumeration =>
        match enumeration with
        | [] => let '(f, rng) := number_in minimum maximum rng in (json_of_f64 f, rng, budget)
        | _ :: _ => (draw json_of_f64 enumeration rng, budget)
        end
    | Text format enumeration =>
        match enumeration with
        | [] => let '(s, rng) := text format rng in (JString s, rng, budget)
        | _ :: _ => (draw JString enumeration rng, budget)
        end
    | Array items min_items =>
        let '(out, rng, budget) :=
          render_elements (render items) (N.to_nat (N.min min_items MAX_ARRAY_ITEMS)) rng budget in
        (JArray out, rng, budget)
    | Object properties _ =>
        let '(out, rng, budget) := render_fields render properties rng budget in
        (json_obj out, rng, budget)
    end.

Definition synthesize (node : SchemaNode) (rng budget : N) : Json * N * N := render node rng budget.

(** ** Validation *)

Inductive ViolationKind := UnknownStatus | MissingRequired | TypeMismatch | NotInEnum.

Record Violation := { vi_pointer : string; vi_kind : ViolationKind; vi_detail : string }.

Definition Violation_display (v : Violation) : string :=
  (if String.eqb (vi_pointer v) EmptyString then "(body)" else vi_pointer v) +:+ ": " +:+ vi_detail v.

Definition type_name (v : Json) : string :=
  match v with
  | JNull => "null"
  | JBool _ => "boolean"
  | JFloat _ => "number"
  | JInt _ => "integer"
  | JString _ => "string"
  | JArray _ => "array"
  | JObject _ => "object"
  end.

(** [str::replace] of one character, and of two. *)
Fixpoint replace_char (c : ascii) (by_ s : string) : string :=
  match s with
  | EmptyString => EmptyString
  | String d s => (if Ascii.eqb c d then by_ else String d EmptyString) +:+ replace_char c by_ s
  end.

Fixpoint replace_pair (c1 c2 : ascii) (by_ s : string) : string :=
  match s with
  | EmptyString => EmptyString
  | String d1 s =>
      match s with
      | String d2 s' =>
          if Ascii.eqb c1 d1 && Ascii.eqb c2 d2 then by_ +:+ replace_pair c1 c2 by_ s'
          else String d1 (replace_pair c1 c2 by_ s)
      | EmptyString => String d1 EmptyString
      end
  end.

Definition escape_pointer_token (token : string) : string := replace_char "/" "~1" (replace_char "~" "~0" token).
Definition unescape_pointer_token (raw : string) : string := replace_pair "~" "0" "~" (replace_pair "~" "1" "/" raw).

Section check.
(** The rendering of a value in a message. *)
Context (show : Json -> string).

Definition mismatch (pointer expected : string) (actual : Json) : Violation :=
  {| vi_pointer := pointer; vi_kind := TypeMismatch; vi_detail := "expected " +:+ expected +:+ ", found " +:+ type_name actual |}.

Definition not_in_enum (pointer : string) (actual : Json) : Violation :=
  {| vi_pointer := pointer; vi_kind := NotInEnum; vi_detail := show actual +:+ " is not one of the declared enum values" |}.

Definition missing_required (pointer name : string) : Violation :=
  {| vi_pointer := pointer; vi_kind := MissingRequired;
     vi_detail := "required property " +:+ debug_str name +:+ " is absent" |}.

(** The violations in the order they are reported. *)
Fixpoint check (node : SchemaNode) (value : Json) (pointer : string) : list Violation :=
  let 'Node nullable shape := node in
  if is_null value && nullable then []
  else
    match shape with
    | Unconstrained => []
    | Boolean => if is_boolean value then [] else [mismatch pointer "boolean" value]
    | Integer _ _ enumeration =>
        if negb (is_integer value) then [mismatch pointer "integer" value]
        else if negb (bool_decide (enumeration = []))
                && negb (match as_i64 value with Some v => existsb (Z.eqb v) enumeration | None => false end)
        then [not_in_enum pointer value]
        else []
    | Number _ _ enumeration =>
        if negb (is_number value) then [mismatch pointer "number" value]
        else match enumeration with
             | [] => []
             | _ :: _ =>
                 if match as_f64 value with Some v => existsb (fun e => SFeqb e v) enumeration | None => false end
                 then [] else [not_in_enum pointer value]
             end
    | Text _ enumeration =>
        match as_string value with
        | None => [mismatch pointer "string" value]
        | Some s =>
            if negb (bool_decide (enumeration = [])) && negb (existsb (String.eqb s) enumeration)
            then [not_in_enum pointer value] else []
        end
    | Array items _ =>
        match as_array value with
        | None => [mismatch pointer "array" value]
        | Some elements =>
            concat (imap (fun index element => check items element (pointer +:+ "/" +:+ pretty (N.of_nat index))) elements)
        end
    | Object properties required =>
        match as_object value with
        | None => [mismatch pointer "object" value]
        | Some m =>
            omap (fun name => match map_get name m with Some _ => None | None => Some (missing_required pointer name) end) required
            ++ concat (map (fun p =>
                 match map_get p.1 m with
                 | None => []
                 | Some present => check p.2 present (pointer +:+ "/" +:+ escape_pointer_token p.1)
                 end) properties)
        end
    end.

Definition check_body (node : SchemaNode) (body : Json) : list Violation := check node body EmptyString.
End check.

(** ** The rest of the document *)

Record ParameterData := { pd_name : string; pd_required : bool }.
Inductive Param := PQuery (d : ParameterData) | PHeader (d : ParameterData) | PPath (d : ParameterData) | PCookie (d : ParameterData).

Record MediaType := {
  mt_schema : option (ReferenceOr Schema);
  mt_example : option Json;
  mt_examples : list (string * ReferenceOr (option Json));
}.

Record Response := { rs_content : list (string * MediaType) }.

Inductive StatusCode := SCode (code : N) | SRange (leading : N).

Record Operation := {
  op_id : option string;
  op_parameters : list (ReferenceOr Param);
  op_responses : list (StatusCode * ReferenceOr Response);
  op_default : option (ReferenceOr Response);
}.

Record PathItem := {
  pi_parameters : list (ReferenceOr Param);
  pi_get : option Operation;
  pi_put : option Operation;
  pi_post : option Operation;
  pi_delete : option Operation;
  pi_options : option Operation;
  pi_head : option Operation;
  pi_patch : option Operation;
  pi_trace : option Operation;
}.

Record OpenAPI := {
  api_paths : list (string * ReferenceOr PathItem);
  api_schemas : list (string * ReferenceOr Schema);
  api_parameters : list (string * ReferenceOr Param);
  api_responses : list (string * ReferenceOr Response);
}.

(** ** The compiler *)

Definition STATUS_DISCRIMINATOR_HEADER : string := "X-Rift-Spec-Status".
Definition STUB_ID_PREFIX : string := "spec".

Record CompileOptions := { co_port : option N; co_name : option string; co_max_bytes : N }.

Inductive CompileError :=
  | UnsupportedVersion (found : string)
  | TooLarge (max : N)
  | ExternalRef (reference : string)
  | ParseError (detail : string)
  | SelfCheck (operation status detail : string).

(** A run of the compiler: a value, a refusal, or a stack that ran out. *)
Inductive Run (A : Type) := Done (a : A) | Refused (e : CompileError) | OutOfStack.
Arguments Done {A} _.
Arguments Refused {A} _.
Arguments OutOfStack {A}.

#[global] Instance Run_ret : MRet Run := @Done.
#[global] Instance Run_bind : MBind Run := fun A B f m =>
  match m with Done a => f a | Refused e => Refused e | OutOfStack => OutOfStack end.

Definition of_result {A} (r : result CompileError A) : Run A := match r with Ok a => Done a | Err e => Refused e end.
Definition of_stack {A} (o : option A) : Run A := match o with Some a => Done a | None => OutOfStack end.

Inductive StatusKey := Default | Code (code : N) | Range (leading : N).

#[global] Instance StatusKey_eq_dec : EqDecision StatusKey.
Proof. solve_decision. Defined.

Definition label (k : StatusKey) : string :=
  match k with Default => "default" | Code code => pretty code | Range leading => pretty leading +:+ "XX" end.

Definition http_status (k : StatusKey) : N :=
  match k with Default => 200 | Code code => code | Range leading => N.min (leading * 100) u16_max end.

Definition is_success (k : StatusKey) : bool :=
  match k with
  | Default => false
  | Code code => (200 <=? code)%N && (code <? 300)%N
  | Range leading => (leading =? 2)%N
  end.

Record CompiledResponse := {
  cr_status : StatusKey;
  cr_stub_id : string;
  cr_content_type : option string;
  cr_schema : SchemaNode;
}.

Record CompiledOperation := {
  cop_id : string;
  cop_method : string;
  cop_path_template : string;
  cop_stub_ids : list string;
  cop_responses : list CompiledResponse;
}.

Record CompiledSpec := { cs_imposter : Json; cs_operations : list CompiledOperation; cs_digest : bytes }.

Definition response (op : CompiledOperation) (status : StatusKey) : option CompiledResponse :=
  List.find (fun r => bool_decide (cr_status r = status)) (cop_responses op).

Definition validate_stub_response (show : Json -> string) (op : CompiledOperation) (status : StatusKey) (body : Json)
    : list Violation :=
  match response op status with
  | None =>
      [{| vi_pointer := EmptyString; vi_kind := UnknownStatus;
          vi_detail := "operation " +:+ cop_id op +:+ " declares no " +:+ label status +:+ " response" |}]
  | Some r => check_body show (cr_schema r) body
  end.

Definition key_le (a b : string * Json) : Prop := String.compare a.1 b.1 <> Gt.
#[global] Instance key_le_dec a b : Decision (key_le a b).
Proof. unfold key_le. destruct (String.compare a.1 b.1); [left|left|right]; congruence. Defined.

Fixpoint canonicalize (v : Json) : Json :=
  match v with
  | JObject fields => json_obj (merge_sort key_le (map (fun p => (p.1, canonicalize p.2)) fields))
  | JArray items => JArray (map canonicalize items)
  | other => other
  end.

Definition to_canonical_string (show : Json -> string) (v : Json) : string := show (canonicalize v).

(** *** The gates over the raw document *)

Definition require_supported_version (document : Json) : result CompileError () :=
  match json_get "openapi" document ≫= as_string with
  | Some version =>
      if starts_with "3.0." version || String.eqb version "3.0" then Ok tt else Err (UnsupportedVersion version)
  | None =>
      Err (UnsupportedVersion
        match json_get "swagger" document ≫= as_string with
        | Some version => "swagger " +:+ version
        | None => "unknown (no `openapi` or `swagger` field)"
        end)
  end.

Definition RESOLVABLE_COMPONENTS : list string := ["schemas"; "parameters"; "responses"]%string.

Fixpoint pointer_walk (current : Json) (tokens : list string) : option Json :=
  match tokens with
  | [] => Some current
  | raw :: tokens =>
      let token := unescape_pointer_token raw in
      match current with
      | JObject m => map_get token m ≫= fun next => pointer_walk next tokens
      | JArray items => parse_u64 token ≫= fun i => items !! N.to_nat i ≫= fun next => pointer_walk next tokens
      | _ => None
      end
  end.

Definition resolve_pointer (root : Json) (reference : string) : option Json :=
  pointer ← strip_prefix "#" reference;
  if String.eqb pointer EmptyString then Some root
  else (path ← strip_prefix "/" pointer; pointer_walk root (split_char "/" path)).

(** A reference that is refused, with the reason. *)
Definition check_ref (show : Json -> string) (root reference : Json) : result CompileError () :=
  match reference with
  | JString reference =>
      if negb (starts_with "#" reference) then Err (ExternalRef reference)
      else
        match resolve_pointer root reference with
        | None => Err (ParseError ("$ref " +:+ debug_str reference +:+ " does not resolve within the document"))
        | Some _ =>
            if existsb (fun kind => starts_with ("#/components/" +:+ kind +:+ "/") reference) RESOLVABLE_COMPONENTS
            then Ok tt
            else Err (ParseError ("$ref " +:+ debug_str reference
                   +:+ " points outside components.{schemas,parameters,responses}, which is all this compiler resolves"))
        end
  | other => Err (ParseError ("$ref must be a string, found " +:+ show other))
  end.

Fixpoint walk_refs (show : Json -> string) (root node : Json) : result CompileError () :=
  match node with
  | JObject m =>
      match match map_get "$ref" m with Some reference => check_ref show root reference | None => Ok tt end with
      | Err e => Err e
      | Ok _ =>
          (fix fields (l : list (string * Json)) :=
             match l with
             | [] => Ok tt
             | p :: l => match walk_refs show root p.2 with Err e => Err e | Ok _ => fields l end
             end) m
      end
  | JArray items =>
      (fix elements (l : list Json) :=
         match l with
         | [] => Ok tt
         | x :: l => match walk_refs show root x with Err e => Err e | Ok _ => elements l end
         end) items
  | _ => Ok tt
  end.

Definition validate_refs (show : Json -> string) (document : Json) : result CompileError () := walk_refs show document document.

Definition in_range (low high : N) (n : option N) : bool :=
  match n with Some n => (low <=? n)%N && (n <=? high)%N | None => false end.

Definition strip_suffix (suffix s : string) : option string :=
  let n := String.length s - String.length suffix in
  if (String.length suffix <=? String.length s)%nat && String.eqb (String.substring n (String.length suffix) s) suffix
  then Some (String.substring 0 n s) else None.

Definition status_key_recognised (key : string) : bool :=
  String.eqb key "default"
  || match strip_suffix "XX" key with
     | Some leading => in_range 1 5 (parse_u16 leading)
     | None => in_range 100 599 (parse_u16 key)
     end.

(** The first failure of a check over a list. *)
Fixpoint first_error {A E} (f : A -> result E ()) (l : list A) : result E () :=
  match l with
  | [] => Ok tt
  | x :: l => match f x with Err e => Err e | Ok _ => first_error f l end
  end.

Definition validate_status_keys (document : Json) : result CompileError () :=
  match json_get "paths" document ≫= as_object with
  | None => Ok tt
  | Some paths =>
      first_error (fun '(template, item) =>
        match as_object item with
        | None => Ok tt
        | Some item =>
            first_error (fun '(method, operation) =>
              match json_get "responses" operation ≫= as_object with
              | None => Ok tt
              | Some responses =>
                  first_error (fun '(key, _) =>
                    if status_key_recognised key then Ok tt
                    else Err (ParseError (method +:+ " " +:+ template +:+ ": response key " +:+ debug_str key
                           +:+ " is not `default`, an HTTP status 100-599, or a 1XX-5XX range"))) responses
              end) item
        end) paths
  end.

(** *** Planning *)

Record PlannedResponse := {
  pr_status : StatusKey;
  pr_content_type : option string;
  pr_schema : SchemaNode;
  pr_example : option Json;
}.

Record Plan := {
  pl_id : string;
  pl_method : string;
  pl_template : string;
  pl_path : CompiledPath;
  pl_required_query : list string;
  pl_required_headers : list string;
  pl_responses : list PlannedResponse;
  pl_order : OrderKey;
}.

Definition METHODS : list string := ["GET"; "PUT"; "POST"; "DELETE"; "OPTIONS"; "HEAD"; "PATCH"; "TRACE"]%string.

Definition method_operation (item : PathItem) (method : string) : option Operation :=
  if String.eqb method "GET" then pi_get item
  else if String.eqb method "PUT" then pi_put item
  else if String.eqb method "POST" then pi_post item
  else if String.eqb method "DELETE" then pi_delete item
  else if String.eqb method "OPTIONS" then pi_options item
  else if String.eqb method "HEAD" then pi_head item
  else if String.eqb method "PATCH" then pi_patch item
  else if String.eqb method "TRACE" then pi_trace item
  else None.

Definition resolve_component {T} (reference kind : string) (table : list (string * ReferenceOr T)) : result CompileError T :=
  match strip_prefix ("#/components/" +:+ kind +:+ "/") reference ≫= fun name => map_get name table with
  | Some (Item item) => Ok item
  | Some (Reference _) =>
      Err (ParseError ("$ref " +:+ debug_str reference +:+ " points at another $ref, which this compiler does not follow"))
  | None =>
      Err (ParseError ("$ref " +:+ debug_str reference +:+ " does not name an entry in components." +:+ kind))
  end.

Definition resolve_parameter (api : OpenAPI) (p : ReferenceOr Param) : result CompileError Param :=
  match p with Item p => Ok p | Reference r => resolve_component r "parameters" (api_parameters api) end.

Definition resolve_response (api : OpenAPI) (r : ReferenceOr Response) : result CompileError Response :=
  match r with Item r => Ok r | Reference x => resolve_component x "responses" (api_responses api) end.

Definition declared_example (media : MediaType) : option Json :=
  match mt_example media with
  | Some example => Some example
  | None => head (omap (fun e => match e.2 with Item value => value | Reference _ => None end) (mt_examples media))
  end.

Definition to_lowercase (s : string) : string :=
  string_of_list_ascii ((fun c => if is_ascii_uppercase c then byte_of (N_of_ascii c + 32) else c) <$> as_bytes s).

Fixpoint readable_id (last_was_separator : bool) (template : string) : string :=
  match template with
  | EmptyString => EmptyString
  | String ch template =>
      if is_ascii_alphanumeric ch
      then (if last_was_separator then "_" else EmptyString) +:+ String ch (readable_id false template)
      else readable_id true template
  end.

Definition synthesize_operation_id (sha256 : bytes -> bytes) (method template : string) : string :=
  to_lowercase method +:+ readable_id true template +:+ "_"
  +:+ String.substring 0 8 (to_hex (sha256 (as_bytes (method +:+ " " +:+ template)))).

Section plan.
Context (sha256 : bytes -> bytes) (escape : string -> string) (fuel : nat) (api : OpenAPI).

Definition plan_response (status : StatusKey) (r : Response) (budget : N) : Run (PlannedResponse * N) :=
  match rs_content r with
  | [] => Done ({| pr_status := status; pr_content_type := None; pr_schema := unconstrained; pr_example := None |}, budget)
  | (content_type, media) :: _ =>
      '(schema, budget) ←
        match mt_schema media with
        | Some schema => of_stack (normalize (api_schemas api) fuel schema budget)
        | None => Done (unconstrained, budget)
        end;
      Done ({| pr_status := status; pr_content_type := Some content_type; pr_schema := schema;
               pr_example := declared_example media |}, budget)
  end.

Fixpoint plan_declared (responses : list (StatusKey * ReferenceOr Response)) (budget : N) : Run (list PlannedResponse * N) :=
  match responses with
  | [] => Done ([], budget)
  | (status, r) :: responses =>
      r ← of_result (resolve_response api r);
      '(planned, budget) ← plan_response status r budget;
      '(rest, budget) ← plan_declared responses budget;
      Done (planned :: rest, budget)
  end.

Definition status_key (c : StatusCode) : StatusKey := match c with SCode code => Code code | SRange leading => Range leading end.

(** The declared codes in order, then [default]. *)
Definition declared_responses (op : Operation) : list (StatusKey * ReferenceOr Response) :=
  ((fun p => (status_key p.1, p.2)) <$> op_responses op)
  ++ match op_default op with Some d => [(Default, d)] | None => [] end.

(** The first success moves to the front. *)
Definition unconditional_first (out : list PlannedResponse) : list PlannedResponse :=
  match position (fun p => is_success (pr_status p)) out with
  | Some index =>
      match out !! index with
      | Some unconditional => unconditional :: vec_remove index out
      | None => out
      end
  | None => out
  end.

Definition plan_responses (op : Operation) (budget : N) : Run (list PlannedResponse * N) :=
  '(out, budget) ← plan_declared (declared_responses op) budget;
  Done (unconditional_first out, budget).

(** The names of the required query and header parameters, in order. *)
Fixpoint required_parameters (params : list (ReferenceOr Param)) : result CompileError (list string * list string) :=
  match params with
  | [] => Ok ([], [])
  | p :: params =>
      match resolve_parameter api p with
      | Err e => Err e
      | Ok p =>
          match required_parameters params with
          | Err e => Err e
          | Ok (query, headers) =>
              match p with
              | PQuery d => Ok (if pd_required d then (pd_name d :: query, headers) else (query, headers))
              | PHeader d => Ok (if pd_required d then (query, pd_name d :: headers) else (query, headers))
              | _ => Ok (query, headers)
              end
          end
      end
  end.

Definition plan_operation (template : string) (item : PathItem) (method : string) (op : Operation) (budget : N)
    : Run (Plan * N) :=
  let path := compile_path escape template in
  '(query, headers) ← of_result (required_parameters (pi_parameters item ++ op_parameters op));
  '(responses, budget) ← plan_responses op budget;
  Done ({| pl_id := default (synthesize_operation_id sha256 method template) (op_id op);
           pl_method := method; pl_template := template; pl_path := path;
           pl_required_query := query; pl_required_headers := headers; pl_responses := responses;
           pl_order := order_key path template method |}, budget).

Fixpoint plan_methods (template : string) (item : PathItem) (methods : list string) (budget : N) : Run (list Plan * N) :=
  match methods with
  | [] => Done ([], budget)
  | method :: methods =>
      match method_operation item method with
      | None => plan_methods template item methods budget
      | Some op =>
          '(plan, budget) ← plan_operation template item method op budget;
          '(plans, budget) ← plan_methods template item methods budget;
          Done (plan :: plans, budget)
      end
  end.

Fixpoint plan_operations (paths : list (string * ReferenceOr PathItem)) (budget : N) : Run (list Plan * N) :=
  match paths with
  | [] => Done ([], budget)
  | (template, Reference _) :: _ =>
      Refused (ParseError ("path " +:+ debug_str template +:+ " is declared as a $ref, which this compiler does not resolve"))
  | (template, Item item) :: paths =>
      '(plans, budget) ← plan_methods template item METHODS budget;
      '(rest, budget) ← plan_operations paths budget;
      Done (plans ++ rest, budget)
  end.
End plan.

Definition plan_le (a b : Plan) : Prop := order_cmp (pl_order a) (pl_order b) <> Gt.
#[global] Instance plan_le_dec a b : Decision (plan_le a b).
Proof. unfold plan_le. destruct (order_cmp (pl_order a) (pl_order b)); [left|left|right]; congruence. Defined.

Fixpoint reject_duplicate_ids (seen : list string) (plans : list Plan) : result CompileError () :=
  match plans with
  | [] => Ok tt
  | plan :: plans =>
      if contains_char ":" (pl_id plan) then
        Err (ParseError ("operationId " +:+ debug_str (pl_id plan)
               +:+ " contains ':', which would break the spec:<id>:<status> stub-id grammar"))
      else if bool_decide (pl_id plan ∈ seen) then
        Err (ParseError ("duplicate operation id " +:+ debug_str (pl_id plan) +:+ ": stub ids would collide"))
      else reject_duplicate_ids (pl_id plan :: seen) plans
  end.

(** *** Emission *)

Definition predicates (plan : Plan) (status : StatusKey) (unconditional : bool) : list Json :=
  [json_obj [("equals", json_obj [("method", JString (pl_method plan))])];
   json_obj [("matches", json_obj [("path", JString (regex (pl_path plan)))]); ("caseSensitive", JBool true)]]%string
  ++ ((fun name => json_obj [("exists", json_obj [("query", json_obj [(name, JBool true)])])]%string) <$> pl_required_query plan)
  ++ ((fun name => json_obj [("exists", json_obj [("headers", json_obj [(name, JBool true)])])]%string) <$> pl_required_headers plan)
  ++ if unconditional then []
     else [json_obj [("equals", json_obj [("headers", json_obj [(STATUS_DISCRIMINATOR_HEADER, JString (label status))])])]%string].

Definition stub_id (plan : Plan) (status : StatusKey) : string :=
  STUB_ID_PREFIX +:+ ":" +:+ pl_id plan +:+ ":" +:+ label status.

Section emit.
Context (sha256 : bytes -> bytes) (show : Json -> string) (digest : bytes).

(** The body of a response: its example, or one synthesized from its schema. *)
Definition body_of (plan : Plan) (planned : PlannedResponse) (budget : N) : option Json * N :=
  match pr_example planned with
  | Some example => (Some example, budget)
  | None =>
      if bool_decide (is_Some (pr_content_type planned)) && negb (is_unconstrained (pr_schema planned)) then
        let '(v, _, budget) :=
          synthesize (pr_schema planned) (seeded sha256 digest (pl_id plan) (label (pr_status planned))) budget in
        (Some v, budget)
      else (None, budget)
  end.

Definition stub_of (plan : Plan) (planned : PlannedResponse) (body : option Json) (unconditional : bool) : Json :=
  let is_response :=
    [("statusCode", JInt (Z.of_N (http_status (pr_status planned))))]%string
    ++ match pr_content_type planned with
       | Some content_type => [("headers", json_obj [("Content-Type", JString content_type)])]%string
       | None => []
       end
    ++ match body with Some body => [("body"%string, body)] | None => [] end in
  json_obj ([("id", JString (stub_id plan (pr_status planned)));
             ("predicates", JArray (predicates plan (pr_status planned) unconditional))]%string
            ++ match route_pattern (pl_path plan) with
               | Some route => [("routePattern"%string, JString route)]
               | None => []
               end
            ++ [("responses", JArray [json_obj [("is", json_obj is_response)]])]%string).

(** The stubs of the responses from [index] on, each with its contract. *)
Fixpoint emit_responses (plan : Plan) (index : nat) (planned : list PlannedResponse) (budget : N)
    : result CompileError (list (Json * CompiledResponse) * N) :=
  match planned with
  | [] => Ok ([], budget)
  | p :: planned =>
      let '(body, budget) := body_of plan p budget in
      match match body with Some body => head (check_body show (pr_schema p) body) | None => None end with
      | Some violation => Err (SelfCheck (pl_id plan) (label (pr_status p)) (Violation_display violation))
      | None =>
          let contract := {| cr_status := pr_status p; cr_stub_id := stub_id plan (pr_status p);
                             cr_content_type := pr_content_type p; cr_schema := pr_schema p |} in
          match emit_responses plan (S index) planned budget with
          | Err e => Err e
          | Ok (rest, budget) => Ok ((stub_of plan p body (index =? 0)%nat, contract) :: rest, budget)
          end
      end
  end.

(** The unconditional stub, of the first response, goes last. *)
Definition rotate {A} (l : list A) : list A := match l with [] => [] | x :: l => l ++ [x] end.

Definition emit (plan : Plan) (budget : N) : result CompileError (list Json * CompiledOperation * N) :=
  match emit_responses plan 0 (pl_responses plan) budget with
  | Err e => Err e
  | Ok (emitted, budget) =>
      Ok (rotate emitted.*1,
          {| cop_id := pl_id plan; cop_method := pl_method plan; cop_path_template := pl_template plan;
             cop_stub_ids := rotate (cr_stub_id <$> emitted.*2); cop_responses := emitted.*2 |}, budget)
  end.

Fixpoint emit_all (plans : list Plan) (budget : N) : result CompileError (list Json * list CompiledOperation) :=
  match plans with
  | [] => Ok ([], [])
  | plan :: plans =>
      match emit plan budget with
      | Err e => Err e
      | Ok (stubs, op, budget) =>
          match emit_all plans budget with
          | Err e => Err e
          | Ok (rest, ops) => Ok (stubs ++ rest, op :: ops)
          end
      end
  end.
End emit.

Definition compile (sha256 : bytes -> bytes) (escape : string -> string) (show : Json -> string)
    (parse_document : bytes -> result string Json) (parse_api : bytes -> result string OpenAPI)
    (fuel : nat) (spec_bytes : bytes) (options : CompileOptions) : Run CompiledSpec :=
  if (co_max_bytes options <? N.of_nat (length spec_bytes))%N then Refused (TooLarge (co_max_bytes options))
  else
    document ← of_result (match parse_document spec_bytes with Ok d => Ok d | Err e => Err (ParseError e) end);
    _ ← of_result (require_supported_version document);
    _ ← of_result (validate_refs show document);
    _ ← of_result (validate_status_keys document);
    api ← of_result (match parse_api spec_bytes with Ok api => Ok api | Err e => Err (ParseError e) end);
    let digest := sha256 spec_bytes in
    '(planned, _) ← plan_operations sha256 escape fuel api (api_paths api) MAX_SCHEMA_NODES;
    let planned := merge_sort plan_le planned in
    _ ← of_result (reject_duplicate_ids [] planned);
    '(stubs, operations) ← of_result (emit_all sha256 show digest planned MAX_BODY_NODES);
    Done {| cs_imposter := canonicalize (json_obj (
              match co_port options with Some port => [("port"%string, JInt (Z.of_N port))] | None => [] end
              ++ [("protocol", JString "http")]%string
              ++ match co_name options with Some name => [("name"%string, JString name)] | None => [] end
              ++ [("stubs"%string, JArray stubs)]));
            cs_operations := operations; cs_digest := digest |}.
