(* ===== verification/SpecPath.v ===== *)
(** * Path templates: what a compiled pattern matches, and the order of the stubs

    The pattern emitted for a template matches exactly the paths that fill its placeholders,
    segment by segment; and the order the operations are emitted in puts the more specific
    template first and does not depend on the order of the document. *)

From S2P Require Import Prelude Upstream Json Spec.

(** ** Patterns *)

Definition slash_free (s : string) : Prop := string_forallb (fun c => negb (Ascii.eqb c "/")) s = true.

(** The patterns emitted are sequences of literal text and of the wildcard. *)
Inductive Piece := Lit (s : string) | Wild.

#[global] Instance Piece_eq_dec : EqDecision Piece.
Proof. solve_decision. Defined.

Inductive matches_pieces : list Piece -> string -> Prop :=
  | mp_nil : matches_pieces [] EmptyString
  | mp_lit a ps s : matches_pieces ps s -> matches_pieces (Lit a :: ps) (a +:+ s)
  | mp_wild w ps s : w <> EmptyString -> slash_free w -> matches_pieces ps s -> matches_pieces (Wild :: ps) (w +:+ s).

Fixpoint pattern (escape : string -> string) (ps : list Piece) : string :=
  match ps with
  | [] => EmptyString
  | Lit a :: ps => escape a +:+ pattern escape ps
  | Wild :: ps => "[^/]+" +:+ pattern escape ps
  end.

(** What the regex engine documents of these patterns: escaped text stands for itself, a slash
    needs no escape, and an anchored pattern matches whole texts. *)
Class RegexRules := {
  escape : string -> string;
  is_match : string -> string -> Prop;
  escape_empty : escape EmptyString = EmptyString;
  escape_slash : escape "/" = "/"%string;
  is_match_pieces ps s : is_match ("^" +:+ pattern escape ps +:+ "$") s <-> matches_pieces ps s;
}.

(** How a segment of a template is read: the first opening brace that is closed begins a
    placeholder, and what is left is read the same way; otherwise it is literal. *)
Definition brace_free (c : ascii) (s : string) : Prop := string_forallb (fun d => negb (Ascii.eqb c d)) s = true.

Inductive reads : string -> list Piece -> Prop :=
  | reads_literal s : (forall a name b, s <> a +:+ "{" +:+ name +:+ "}" +:+ b) -> reads s [Lit s]
  | reads_hole a name rest ps : brace_free "{" a -> brace_free "}" name -> reads rest ps ->
      reads (a +:+ "{" +:+ name +:+ "}" +:+ rest) (Lit a :: Wild :: ps).

Definition segment_matches (segment s : string) : Prop := exists ps, reads segment ps /\ matches_pieces ps s.

(** A template fits a path: the first segments are equal, the others match one by one. *)
Definition template_matches (template path : string) : Prop :=
  match split_char "/" template, split_char "/" path with
  | t :: ts, p :: ps => t = p /\ Forall2 segment_matches ts ps
  | _, _ => False
  end.

Lemma matches_app ps qs s :
  matches_pieces (ps ++ qs) s <-> exists a b, s = a +:+ b /\ matches_pieces ps a /\ matches_pieces qs b.
Proof.
  revert s. induction ps as [|p ps IH]; intros s; simpl.
  - split; [intros H; exists EmptyString, s; by repeat constructor|]. intros (a & b & -> & Ha & Hb). by inversion Ha.
  - split.
    + inversion 1 as [|a ps' s' Hs|w ps' s' Hw Hf Hs]; subst; apply IH in Hs as (x & y & -> & Hx & Hy).
      * exists (a +:+ x), y. rewrite append_assoc. split; [done|]. split; [by constructor|done].
      * exists (w +:+ x), y. rewrite append_assoc. split; [done|]. split; [by constructor|done].
    + intros (x & y & -> & Hx & Hy). inversion Hx as [|a ps' s' Hs|w ps' s' Hw Hf Hs]; subst; rewrite append_assoc;
        constructor; try done; apply IH; by eauto.
Qed.

Lemma slash_free_app a b : slash_free (a +:+ b) <-> slash_free a /\ slash_free b.
Proof. unfold slash_free. rewrite string_forallb_app. apply andb_true_iff. Qed.

(** Literal text without slashes makes pieces that match no slash. *)
Definition pieces_slash_free (ps : list Piece) : Prop := Forall (fun p => match p with Lit a => slash_free a | Wild => True end) ps.

Lemma matches_slash_free ps s : pieces_slash_free ps -> matches_pieces ps s -> slash_free s.
Proof.
  intros Hf Hm. induction Hm as [|a ps s Hm IH|w ps s Hw Hs Hm IH]; [done| |]; apply Forall_cons in Hf as [Ha Hf];
    apply slash_free_app; auto.
Qed.

Lemma reads_slash_free seg ps : reads seg ps -> slash_free seg -> pieces_slash_free ps.
Proof.
  induction 1 as [s Hs|a name rest ps Ha Hn Hr IH]; intros Hf; [by repeat constructor|].
  apply slash_free_app in Hf as [H1 Hf]. apply slash_free_app in Hf as [_ Hf]. apply slash_free_app in Hf as [_ Hf].
  apply slash_free_app in Hf as [_ Hf]. repeat constructor; [done|]. by apply IH.
Qed.

Lemma split_hole a name rest : brace_free "{" a -> brace_free "}" name ->
  split_once "{" (a +:+ "{" +:+ name +:+ "}" +:+ rest) = Some (a, name +:+ "}" +:+ rest)
  /\ split_once "}" (name +:+ "}" +:+ rest) = Some (name, rest).
Proof. intros Ha Hn. split; [apply (split_once_app "{" EmptyString)|apply (split_once_app "}" EmptyString)]; done. Qed.

Lemma reads_det seg ps : reads seg ps -> forall qs, reads seg qs -> ps = qs.
Proof.
  induction 1 as [s Hs|a name rest ps Ha Hn Hr IH]; intros qs Hq.
  - inversion Hq as [|a' name' rest' ps' ? ? ? Heq]; subst; [done|]. by destruct (Hs a' name' rest').
  - remember (a +:+ "{" +:+ name +:+ "}" +:+ rest)%string as seg eqn:Hseg.
    destruct Hq as [s Hs|a' name' rest' qs' Ha' Hn' Hr']; [by destruct (Hs a name rest)|].
    destruct (split_hole a name rest Ha Hn) as [E1 E2], (split_hole a' name' rest' Ha' Hn') as [E1' E2'].
    rewrite <-Hseg, E1' in E1. injection E1 as -> E1. rewrite <-E1, E2' in E2. injection E2 as -> ->.
    by rewrite (IH qs' Hr').
Qed.

Lemma append_nil_r (s : string) : s +:+ EmptyString = s.
Proof. induction s as [|c s IH]; [done|]. change (String c (s +:+ EmptyString) = String c s). by rewrite IH. Qed.

Lemma split_once_free c s a b : split_once (String c EmptyString) s = Some (a, b) -> brace_free c a.
Proof.
  revert a b. induction s as [|d s IH]; intros a b; simpl; [done|].
  destruct (Ascii.eqb_spec c d) as [->|Hne]; [by intros [= <- _]|].
  destruct (split_once _ s) as [[x y]|]; [|done]. intros [= <- <-]. unfold brace_free. simpl.
  apply andb_true_iff. split; [|by eapply IH]. by apply negb_true_iff, Ascii.eqb_neq.
Qed.

Lemma split_once_none c s : split_once (String c EmptyString) s = None -> forall a b, s <> a +:+ String c b.
Proof.
  intros H a b ->. revert H. induction a as [|d a IH]; simpl; [by rewrite Ascii.eqb_refl|].
  destruct (Ascii.eqb_spec c d); [done|]. by destruct (split_once _ _) as [[]|].
Qed.

Lemma append_cancel_free c a b x y : brace_free c a -> brace_free c x -> a +:+ String c b = x +:+ String c y -> a = x /\ b = y.
Proof.
  intros Ha Hx Heq. pose proof (split_once_app c EmptyString a b Ha) as H1.
  pose proof (split_once_app c EmptyString x y Hx) as H2.
  change (a +:+ String c b) with (a +:+ String c EmptyString +:+ b) in Heq.
  change (x +:+ String c y) with (x +:+ String c EmptyString +:+ y) in Heq.
  rewrite Heq, H2 in H1. by injection H1 as -> ->.
Qed.

Lemma length_append (a b : string) : String.length (a +:+ b) = String.length a + String.length b.
Proof. induction a as [|c a IH]; [done|]. change (S (String.length (a +:+ b)) = S (String.length a + String.length b)). by rewrite IH. Qed.

(** An opening brace before which there is none, and no closing brace after it. *)
Lemma no_hole_after s a after : split_once "{" s = Some (a, after) -> split_once "}" after = None ->
  forall x name y, s <> x +:+ "{" +:+ name +:+ "}" +:+ y.
Proof.
  intros Hs Hc x name y Heq. pose proof (split_once_Some _ _ _ _ Hs) as Heq'. pose proof (split_once_free _ _ _ _ Hs) as Ha.
  assert (Hin : exists u v, after = u +:+ String "}" v); [|destruct Hin as (u & v & Hin); by eapply split_once_none in Hc].
  rewrite Heq in Heq'. clear Hs Hc Heq. revert a after Ha Heq'. induction x as [|c x IH]; intros a after Ha Heq'.
  - destruct a as [|d a].
    + injection Heq' as Heq'. subst. by exists name, y.
    + injection Heq' as <- _. done.
  - destruct a as [|d a].
    + injection Heq' as -> Heq'. change (x +:+ "{" +:+ name +:+ "}" +:+ y = after)%string in Heq'.
      exists (x +:+ "{" +:+ name)%string, y. rewrite <-Heq'. by rewrite !append_assoc.
    + injection Heq' as -> Heq'. apply (IH a after); [|done]. unfold brace_free in *. simpl in Ha. by apply andb_true_iff in Ha as [_ ?].
Qed.

Section patterns.
Context `{RegexRules}.

Lemma partial_reads fuel s : String.length s <= fuel ->
  exists ps, reads s ps /\ (partial_segment_go escape fuel s).1 = pattern escape ps
             /\ ((partial_segment_go escape fuel s).2 = true <-> Wild ∈ ps).
Proof.
  assert (Hlit : forall s, (forall a name b, s <> a +:+ "{" +:+ name +:+ "}" +:+ b) ->
    exists ps, reads s ps /\ escape s = pattern escape ps /\ (false = true <-> Wild ∈ ps)).
  { intros t Ht. exists [Lit t]. split; [by constructor|]. simpl. rewrite append_nil_r. split; [done|]. set_solver. }
  revert s. induction fuel as [|fuel IH]; intros s Hl; simpl.
  - destruct s; [|simpl in Hl; lia]. apply (Hlit EmptyString). intros [|c a] name b; done.
  - destruct (split_once "{" s) as [[a after]|] eqn:Hs.
    + destruct (split_once "}" after) as [[name rest]|] eqn:Hc.
      * pose proof (split_once_Some _ _ _ _ Hs) as ->. pose proof (split_once_Some _ _ _ _ Hc) as ->.
        rewrite !length_append in Hl. simpl in Hl.
        destruct (IH rest) as (ps & Hr & Hp & Hw); [lia|]. exists (Lit a :: Wild :: ps).
        split; [constructor; [by eapply split_once_free|by eapply split_once_free|done]|].
        simpl. rewrite Hp. split; [done|]. set_solver.
      * apply Hlit. by eapply no_hole_after.
    + apply Hlit. intros a name b ->. by eapply (split_once_none "{" _ Hs a).
Qed.

Lemma strip_last_Some c s t : strip_last c s = Some t -> s = t +:+ String c EmptyString.
Proof.
  revert t. induction s as [|d s IH]; intros t; [done|]. destruct s as [|e s].
  - simpl. destruct (Ascii.eqb_spec c d) as [->|]; [|done]. by intros [= <-].
  - change (strip_last c (String d (String e s))) with (String d <$> strip_last c (String e s)).
    destruct (strip_last c (String e s)) as [u|]; [|done]. intros [= <-]. by rewrite (IH u).
Qed.

Lemma contains_char_false c s : contains_char c s = false <-> brace_free c s.
Proof. unfold contains_char, brace_free. apply negb_false_iff. Qed.

Lemma whole_reads seg name : whole_segment_placeholder seg = Some name -> reads seg [Lit EmptyString; Wild; Lit EmptyString].
Proof.
  unfold whole_segment_placeholder. destruct (strip_prefix "{" seg) as [inner|] eqn:Hp; [|done]. simpl.
  destruct (strip_last "}" inner) as [t|] eqn:Hl; [|done]. simpl.
  destruct (_ && _) eqn:Hb; [|done]. intros _. rewrite !andb_true_iff, !negb_true_iff, !contains_char_false in Hb.
  destruct Hb as [[_ Ho] Hc]. apply strip_prefix_Some in Hp as ->. apply strip_last_Some in Hl as ->.
  apply (reads_hole EmptyString t EmptyString); [done|done|]. constructor. intros [|c a] n b; done.
Qed.

(** What a segment adds to the pattern. *)
Lemma segment_pattern acc seg :
  exists ps, reads seg ps /\ pa_regex (path_segment escape acc seg) = pa_regex acc +:+ pattern escape (Lit "/" :: ps)
    /\ pa_total (path_segment escape acc seg) = S (pa_total acc)
    /\ (Wild ∈ ps -> pa_literal (path_segment escape acc seg) = pa_literal acc)
    /\ (Wild ∉ ps -> pa_literal (path_segment escape acc seg) = S (pa_literal acc)).
Proof.
  unfold path_segment. destruct (whole_segment_placeholder seg) as [name|] eqn:Hw.
  - exists [Lit EmptyString; Wild; Lit EmptyString]. split; [by eapply whole_reads|]. simpl.
    rewrite escape_slash, escape_empty. repeat split; set_solver.
  - destruct (partial_reads (String.length seg) seg (le_n _)) as (ps & Hr & Hp & Hh). exists ps. split; [done|].
    unfold partial_segment_regex. destruct (partial_segment_go escape (String.length seg) seg) as [t b]. simpl in *.
    rewrite escape_slash, Hp. repeat split; [|]; destruct b; intuition congruence.
Qed.

Lemma pattern_app ps qs : pattern escape (ps ++ qs) = pattern escape ps +:+ pattern escape qs.
Proof. induction ps as [|[a|] ps IH]; simpl; [done| |]; by rewrite IH, append_assoc. Qed.

Definition slashed (pss : list (list Piece)) : list Piece := concat (map (cons (Lit "/")) pss).

Definition literal_reading (ps : list Piece) : Prop := Wild ∉ ps.
#[local] Instance literal_reading_dec ps : Decision (literal_reading ps).
Proof. unfold literal_reading. apply _. Defined.

Lemma fold_segments segs acc :
  exists pss, Forall2 reads segs pss
    /\ pa_regex (fold_left (path_segment escape) segs acc) = pa_regex acc +:+ pattern escape (slashed pss)
    /\ pa_total (fold_left (path_segment escape) segs acc) = pa_total acc + length segs
    /\ pa_literal (fold_left (path_segment escape) segs acc) = pa_literal acc + length (filter literal_reading pss).
Proof.
  revert acc. induction segs as [|seg segs IH]; intros acc; simpl.
  - exists []. split; [constructor|]. simpl. rewrite append_nil_r. repeat split; lia.
  - destruct (segment_pattern acc seg) as (ps & Hr & Hp & Ht & Hw & Hl).
    destruct (IH (path_segment escape acc seg)) as (pss & Hrs & Hps & Hts & Hls). exists (ps :: pss).
    split; [by constructor|]. rewrite Hps, Hts, Hls, Hp, Ht. unfold slashed. cbn [map concat].
    rewrite pattern_app, append_assoc. split; [done|]. split; [lia|]. rewrite filter_cons.
    destruct (decide (literal_reading ps)) as [Hf|Hf].
    + rewrite (Hl Hf). cbn [length]. lia.
    + unfold literal_reading in Hf. rewrite Hw by by apply dec_stable. lia.
Qed.

Lemma split_char_cons c s : exists h t, split_char c s = h :: t.
Proof. destruct s as [|d s]; simpl; [by eauto|]. destruct (Ascii.eqb d c); [by eauto|]. destruct (split_char c s); by eauto. Qed.

Lemma split_char_inv c s h t : split_char c s = h :: t ->
  string_forallb (fun d => negb (Ascii.eqb d c)) h = true
  /\ match t with [] => s = h | _ :: _ => exists b, s = h +:+ String c b /\ split_char c b = t end.
Proof.
  revert h t. induction s as [|d s IH]; intros h t; simpl; [by intros [= <- <-]|].
  destruct (Ascii.eqb_spec d c) as [->|Hne].
  - intros [= <- <-]. split; [done|]. destruct (split_char_cons c s) as (h & t & Hs). rewrite Hs. by exists s.
  - destruct (split_char_cons c s) as (h' & t' & Hs). rewrite Hs. intros [= <- <-]. destruct (IH _ _ Hs) as [Hf Ht].
    split; [simpl; rewrite Hf; by rewrite (proj2 (Ascii.eqb_neq _ _) Hne)|].
    destruct t' as [|x t']; [by rewrite Ht|]. destruct Ht as (b & -> & Hb). by exists b.
Qed.

Lemma split_char_free c s : Forall (fun h => string_forallb (fun d => negb (Ascii.eqb d c)) h = true) (split_char c s).
Proof.
  remember (split_char c s) as l eqn:Hl. symmetry in Hl. revert s Hl. induction l as [|h t IH]; intros s Hl; [constructor|].
  destruct (split_char_inv _ _ _ _ Hl) as [Hf Ht]. constructor; [done|]. destruct t as [|x t]; [constructor|].
  destruct Ht as (b & _ & Hb). by apply (IH b).
Qed.

(** Segment by segment. *)
Lemma matches_slashed ps0 pss s : pieces_slash_free ps0 -> Forall pieces_slash_free pss ->
  matches_pieces (ps0 ++ slashed pss) s <->
  exists h t, split_char "/" s = h :: t /\ matches_pieces ps0 h /\ Forall2 matches_pieces pss t.
Proof.
  revert ps0 s. induction pss as [|ps pss IH]; intros ps0 s H0 Hf.
  - unfold slashed. simpl. rewrite app_nil_r. split.
    + intros Hm. exists s, []. split; [|by repeat constructor]. apply split_char_one. by eapply matches_slash_free.
    + intros (h & t & Hs & Hm & Ht). inversion Ht; subst. apply split_char_inv in Hs as [_ ->]. done.
  - apply Forall_cons in Hf as [Hps Hf]. unfold slashed. cbn [map concat]. fold (slashed pss).
    change ((Lit "/" :: ps) ++ slashed pss) with (Lit "/" :: ps ++ slashed pss). rewrite matches_app. split.
    + intros (a & b & -> & Ha & Hb). inversion Hb as [|x qs s' Hs'|]; subst. apply (IH ps s' Hps Hf) in Hs' as (h & t & Hs & Hh & Ht).
      exists a, (h :: t). split; [|by repeat constructor]. change ("/" +:+ s')%string with (String "/" s').
      rewrite split_char_app by exact (matches_slash_free ps0 a H0 Ha). by rewrite Hs.
    + intros (h & t & Hs & Hh & Ht). inversion Ht as [|? h' ? t' Hh' Ht']; subst.
      apply split_char_inv in Hs as [_ (b & -> & Hb)]. exists h, (String "/" b). split; [done|]. split; [done|].
      apply (mp_lit "/"). apply (IH ps b Hps Hf). by exists h', t'.
Qed.

(** C32: the pattern emitted for a template matches a path exactly when the path has the template's
    segments: the same text before the first slash, and for every later segment a text that
    reads it, each complete brace pair filled by at least one character other than a slash
    and everything else, metacharacters of the pattern language included, literal. *)
Theorem path_pattern_exact template path :
  is_match (regex (compile_path escape template)) path <-> template_matches template path.
Proof.
  unfold compile_path, template_matches. destruct (split_char_cons "/" template) as (t & ts & Ht). rewrite Ht. simpl.
  destruct (fold_segments ts {| pa_regex := "^" +:+ escape t; pa_route := t; pa_literal := 0; pa_total := 0; pa_expressible := true |})
    as (pss & Hr & Hp & _ & _). rewrite Hp. cbn [pa_regex].
  change (("^" +:+ escape t) +:+ pattern escape (slashed pss))%string with ("^" +:+ pattern escape (Lit t :: slashed pss))%string.
  rewrite append_assoc, is_match_pieces. change (Lit t :: slashed pss) with ([Lit t] ++ slashed pss).
  pose proof (split_char_free "/" template) as Hfree. rewrite Ht in Hfree. apply Forall_cons in Hfree as [Hft Hfts].
  rewrite matches_slashed; [|by repeat constructor|].
  - destruct (split_char_cons "/" path) as (h & l & Hs). rewrite Hs. split.
    + intros (h' & l' & [= <- <-] & Hm & Hl). inversion Hm as [|? ? s' Hn|]; subst. inversion Hn; subst.
      rewrite append_nil_r. split; [done|]. revert Hl. clear -Hr. revert l. induction Hr as [|seg ps segs pss Hr Hrs IH]; intros l Hl;
        inversion Hl; subst; constructor; [by exists ps|by apply IH].
    + intros [-> Hl]. exists h, l. split; [done|]. split; [pose proof (mp_lit h [] EmptyString mp_nil) as Hx; by rewrite append_nil_r in Hx|].
      clear -Hr Hl. revert l Hl. induction Hr as [|seg ps segs pss Hr Hrs IH]; intros l Hl;
        inversion Hl as [|? ? ? ? (qs & Hq & Hm)]; subst; constructor; [by rewrite (reads_det _ _ Hr _ Hq)|by apply IH].
  - clear -Hr Hfts. induction Hr as [|seg ps segs pss Hr Hrs IH]; [constructor|]. apply Forall_cons in Hfts as [? ?].
    constructor; [by eapply reads_slash_free|by apply IH].
Qed.
End patterns.

(** ** The order of the operations *)

(** A three-way comparison that orders: what sorting needs of it. *)
Record cmp_laws {A} (c : A -> A -> comparison) : Prop := {
  cmp_opp x y : c y x = CompOpp (c x y);
  cmp_eq x y z : c x y = Eq -> c x z = c y z;
  cmp_lt x y z : c x y = Lt -> c y z = Lt -> c x z = Lt;
}.

Lemma cmp_laws_pull {A B} (f : A -> B) c : cmp_laws c -> cmp_laws (fun x y => c (f x) (f y)).
Proof. intros [Ho He Hl]. split; eauto. Qed.

Lemma cmp_laws_flip {A} (c : A -> A -> comparison) : cmp_laws c -> cmp_laws (fun x y => c y x).
Proof.
  intros [Ho He Hl]. split; [eauto| |eauto]. intros x y z H. rewrite (Ho x z), (Ho y z). f_equal. symmetry. by apply He.
Qed.

Lemma cmp_laws_lex {A} (c d : A -> A -> comparison) : cmp_laws c -> cmp_laws d -> cmp_laws (fun x y => then_cmp (c x y) (d x y)).
Proof.
  intros [Ho He Hl] [Ho' He' Hl']. split.
  - intros x y. rewrite Ho, Ho'. by destruct (c x y).
  - intros x y z. destruct (c x y) eqn:E; simpl; try done. intros E'. by rewrite (He x y z E), (He' x y z E').
  - intros x y z H1 H2. destruct (c x y) eqn:E1; simpl in H1; try done.
    + rewrite (He x y z E1). destruct (c y z) eqn:E2; simpl in *; try done. by eapply Hl'.
    + destruct (c y z) eqn:E2; simpl in H2; try done.
      * assert (E : c x z = Lt); [|by rewrite E]. by rewrite (Ho z x), <-(He y z x E2), (Ho x y), E1.
      * by rewrite (Hl x y z E1 E2).
Qed.

Lemma cmp_laws_nat : cmp_laws Nat.compare.
Proof.
  split; [intros x y; apply Nat.compare_antisym|intros x y z ->%Nat.compare_eq; done|].
  intros x y z. rewrite !Nat.compare_lt_iff. lia.
Qed.

Lemma string_compare_lt_trans a b c : String.compare a b = Lt -> String.compare b c = Lt -> String.compare a c = Lt.
Proof.
  revert b c. induction a as [|x a IH]; intros [|y b] [|z c]; simpl; try done.
  unfold Ascii.compare. destruct (N.compare_spec (N_of_ascii x) (N_of_ascii y)) as [E1|E1|E1]; try done;
    destruct (N.compare_spec (N_of_ascii y) (N_of_ascii z)) as [E2|E2|E2]; try done;
    destruct (N.compare_spec (N_of_ascii x) (N_of_ascii z)) as [E3|E3|E3]; try done; try lia. apply IH.
Qed.

Lemma cmp_laws_string : cmp_laws String.compare.
Proof.
  split; [intros x y; apply String.compare_antisym|intros x y z ->%String.compare_eq_iff; done|].
  apply string_compare_lt_trans.
Qed.

Lemma cmp_laws_order : cmp_laws order_cmp.
Proof.
  unfold order_cmp.
  apply (cmp_laws_lex (fun a b => Nat.compare (ok_literal b) (ok_literal a))); [exact (cmp_laws_pull ok_literal _ (cmp_laws_flip _ cmp_laws_nat))|].
  apply (cmp_laws_lex (fun a b => Nat.compare (ok_total b) (ok_total a))); [exact (cmp_laws_pull ok_total _ (cmp_laws_flip _ cmp_laws_nat))|].
  apply (cmp_laws_lex (fun a b => Nat.compare (ok_length b) (ok_length a))); [exact (cmp_laws_pull ok_length _ (cmp_laws_flip _ cmp_laws_nat))|].
  apply (cmp_laws_lex (fun a b => String.compare (ok_template a) (ok_template b)));
    [exact (cmp_laws_pull ok_template _ cmp_laws_string)|exact (cmp_laws_pull ok_method _ cmp_laws_string)].
Qed.

Lemma order_cmp_Eq a b : order_cmp a b = Eq -> a = b.
Proof.
  unfold order_cmp, then_cmp. destruct a as [l1 t1 n1 s1 m1], b as [l2 t2 n2 s2 m2]. simpl.
  destruct (Nat.compare l2 l1) eqn:E1; try done. destruct (Nat.compare t2 t1) eqn:E2; try done.
  destruct (Nat.compare n2 n1) eqn:E3; try done. destruct (String.compare s1 s2) eqn:E4; try done.
  intros E5. apply Nat.compare_eq in E1, E2, E3. apply String.compare_eq_iff in E4, E5. congruence.
Qed.

#[global] Instance plan_le_trans : Transitive plan_le.
Proof.
  intros x y z. unfold plan_le. destruct cmp_laws_order as [Ho He Hl]. intros H1 H2.
  destruct (order_cmp (pl_order x) (pl_order y)) eqn:E1; try done; [by rewrite (He _ _ _ E1)|].
  destruct (order_cmp (pl_order y) (pl_order z)) eqn:E2; try done; [|by rewrite (Hl _ _ _ E1 E2)].
  by rewrite (Ho (pl_order z)), <-(He _ _ _ E2), Ho, E1.
Qed.

#[global] Instance plan_le_total : Total plan_le.
Proof.
  intros x y. unfold plan_le. destruct cmp_laws_order as [Ho _ _]. rewrite (Ho (pl_order x) (pl_order y)).
  destruct (order_cmp (pl_order x) (pl_order y)); [left|left|right]; done.
Qed.

Lemma plan_le_literal a b : plan_le a b -> ok_literal (pl_order b) <= ok_literal (pl_order a).
Proof.
  unfold plan_le, order_cmp, then_cmp. destruct (Nat.compare_spec (ok_literal (pl_order b)) (ok_literal (pl_order a))); [lia|lia|done].
Qed.

Lemma list_find_first {A} (P : A -> Prop) `{forall x, Decision (P x)} l i x :
  list_find P l = Some (i, x) -> forall y, y ∈ l -> P y -> exists j, i <= j /\ l !! j = Some y.
Proof.
  intros (Hx & HP & Hf)%list_find_Some y [j Hj]%list_elem_of_lookup Hy. exists j. split; [|done].
  destruct (decide (i <= j)); [done|]. exfalso. apply (Hf j y Hj); [lia|done].
Qed.

Lemma StronglySorted_lookup_lt {A} (R : relation A) l i j x y :
  StronglySorted R l -> l !! i = Some x -> l !! j = Some y -> i < j -> R x y.
Proof.
  intros Hs. revert i j. induction Hs as [|z l Hs IH Hf]; intros i j Hi Hj Hlt; [done|].
  destruct j as [|j]; [lia|]. destruct i as [|i]; simpl in *.
  - simplify_eq. rewrite Forall_forall in Hf. apply Hf. by eapply list_elem_of_lookup_2.
  - apply (IH i j); [done|done|lia].
Qed.

(** Two sorted arrangements of plans with distinct keys are equal. *)
Lemma sorted_plans_unique l l' : StronglySorted plan_le l -> StronglySorted plan_le l' ->
  NoDup (pl_order <$> l) -> l ≡ₚ l' -> l = l'.
Proof.
  intros Hs. revert l'. induction Hs as [|x l Hs IH Hx]; intros l' Hs' Hn Hp; [by apply Permutation_nil_l in Hp|].
  destruct Hs' as [|y l' Hs' Hy]; [by apply Permutation_sym, Permutation_nil_cons in Hp|].
  assert (x = y) as <-.
  { assert (Hy' : y ∈ x :: l) by (rewrite Hp; apply list_elem_of_here).
    assert (Hx' : x ∈ y :: l') by (rewrite <-Hp; apply list_elem_of_here).
    apply elem_of_cons in Hy' as [->|Hy']; [done|]. apply elem_of_cons in Hx' as [->|Hx']; [done|]. exfalso.
    rewrite Forall_forall in Hx, Hy. specialize (Hx y Hy'). specialize (Hy x Hx').
    assert (Heq : pl_order x = pl_order y).
    { apply order_cmp_Eq. unfold plan_le in *. destruct cmp_laws_order as [Ho _ _].
      rewrite (Ho (pl_order x) (pl_order y)) in Hy. by destruct (order_cmp (pl_order x) (pl_order y)). }
    rewrite fmap_cons in Hn. apply NoDup_cons in Hn as [Hn _]. apply Hn. rewrite Heq. by apply list_elem_of_fmap_2. }
  f_equal. rewrite fmap_cons in Hn. apply NoDup_cons in Hn as [_ Hn]. apply IH; [done|done|].
  by apply Permutation_cons_inv in Hp.
Qed.

(** Of the operations of a document, the first in the emitted order that a request could be
    for has at least as many literal segments as any other it could be for, so a literal
    route is never hidden by a template; and the order does not depend on the order the
    document lists them in, as long as no two share a template and a method. *)
Theorem most_specific_first (fits : Plan -> Prop) `{forall p, Decision (fits p)} plans plans' :
  (forall i p q, list_find fits (merge_sort plan_le plans) = Some (i, p) -> q ∈ plans -> fits q ->
     ok_literal (pl_order q) <= ok_literal (pl_order p))
  /\ (NoDup (pl_order <$> plans) -> plans ≡ₚ plans' -> merge_sort plan_le plans = merge_sort plan_le plans').
Proof.
  pose proof (StronglySorted_merge_sort plan_le plans) as Hs. pose proof (StronglySorted_merge_sort plan_le plans') as Hs'.
  split.
  - intros i p q Hf Hq Hfit. pose proof Hf as (Hp & _ & _)%list_find_Some.
    rewrite <-(merge_sort_Permutation plan_le) in Hq. destruct (list_find_first _ _ _ _ Hf q Hq Hfit) as (j & Hij & Hj).
    destruct (decide (i = j)) as [->|Hne]; [by simplify_eq|]. apply plan_le_literal.
    apply (StronglySorted_lookup_lt plan_le _ i j _ _ Hs Hp Hj). lia.
  - intros Hn Hp. apply sorted_plans_unique; [done|done| |by rewrite !merge_sort_Permutation].
    by rewrite merge_sort_Permutation.
Qed.

(** ** Witnesses *)

(** The escaping of the regex engine, and a matcher for the patterns above. *)
Definition is_meta (c : ascii) : bool := contains_char c "\.+*?()|[]{}^$#&-~".

Fixpoint meta_escape (s : string) : string :=
  match s with
  | EmptyString => EmptyString
  | String c s => if is_meta c then String backslash (String c (meta_escape s)) else String c (meta_escape s)
  end.

Fixpoint decode_pattern (fuel : nat) (p : string) : list Piece :=
  match fuel with
  | O => []
  | S fuel =>
      match strip_prefix "[^/]+" p with
      | Some rest => Wild :: decode_pattern fuel rest
      | None =>
          match p with
          | EmptyString => []
          | String c rest =>
              if Ascii.eqb c backslash then
                match rest with
                | String d rest => Lit (String d EmptyString) :: decode_pattern fuel rest
                | EmptyString => []
                end
              else Lit (String c EmptyString) :: decode_pattern fuel rest
          end
      end
  end.

Definition anchored_match (p s : string) : Prop :=
  match strip_prefix "^" p ≫= strip_last "$" with
  | Some body => matches_pieces (decode_pattern (String.length body) body) s
  | None => False
  end.

Lemma strip_last_app c s : strip_last c (s +:+ String c EmptyString) = Some s.
Proof.
  induction s as [|d s IH]; [simpl; by rewrite Ascii.eqb_refl|]. change (String d s +:+ String c EmptyString) with (String d (s +:+ String c EmptyString)).
  destruct (s +:+ String c EmptyString) as [|e t] eqn:Ht; [by destruct s|].
  change (strip_last c (String d (String e t))) with (String d <$> strip_last c (String e t)). by rewrite IH.
Qed.

Lemma matches_lit_cons c a ps s :
  matches_pieces (Lit (String c EmptyString) :: Lit a :: ps) s <-> matches_pieces (Lit (String c a) :: ps) s.
Proof.
  split; inversion 1 as [|? ? s' Hs|]; subst.
  - inversion Hs as [|? ? s'' Hs'|]; subst. exact (mp_lit (String c a) ps s'' Hs').
  - exact (mp_lit (String c EmptyString) (Lit a :: ps) (a +:+ s') (mp_lit a ps s' Hs)).
Qed.

Lemma matches_lit_nil ps s : matches_pieces (Lit EmptyString :: ps) s <-> matches_pieces ps s.
Proof. split; [inversion 1; by subst|]. intros H. exact (mp_lit EmptyString ps s H). Qed.

Lemma matches_head p ps qs s : (forall s, matches_pieces ps s <-> matches_pieces qs s) ->
  matches_pieces (p :: ps) s <-> matches_pieces (p :: qs) s.
Proof. intros H. split; inversion 1; subst; constructor; try done; by apply H. Qed.

Lemma decode_meta c fuel rest : decode_pattern (S fuel) (if is_meta c then String backslash (String c rest) else String c rest)
  = Lit (String c EmptyString) :: decode_pattern fuel rest.
Proof.
  destruct (is_meta c) eqn:Hm; [done|].
  assert (Hb : c <> "["%char /\ c <> backslash) by (split; intros ->; done). destruct Hb as [H1 H2].
  cbn [decode_pattern strip_prefix]. rewrite (proj2 (Ascii.eqb_neq _ _) (not_eq_sym H1)), (proj2 (Ascii.eqb_neq _ _) H2). done.
Qed.

Lemma decode_lit a : forall ps fuel s,
  (forall f s, String.length (pattern meta_escape ps) <= f -> matches_pieces (decode_pattern f (pattern meta_escape ps)) s <-> matches_pieces ps s) ->
  String.length (meta_escape a +:+ pattern meta_escape ps) <= fuel ->
  matches_pieces (decode_pattern fuel (meta_escape a +:+ pattern meta_escape ps)) s <-> matches_pieces (Lit a :: ps) s.
Proof.
  induction a as [|c a IH]; intros ps fuel s Hps Hl.
  - rewrite matches_lit_nil. by apply Hps.
  - set (rest := (meta_escape a +:+ pattern meta_escape ps)%string).
    assert (Heq : meta_escape (String c a) +:+ pattern meta_escape ps = if is_meta c then String backslash (String c rest) else String c rest)
      by (simpl; by destruct (is_meta c)).
    rewrite Heq in *. destruct fuel as [|fuel]; [destruct (is_meta c); simpl in Hl; lia|]. rewrite decode_meta, <-(matches_lit_cons c a ps).
    apply matches_head. intros s'. apply IH; [done|]. fold rest. destruct (is_meta c); simpl in Hl; lia.
Qed.

Lemma decode_matches ps : forall fuel s, String.length (pattern meta_escape ps) <= fuel ->
  matches_pieces (decode_pattern fuel (pattern meta_escape ps)) s <-> matches_pieces ps s.
Proof.
  induction ps as [|[a|] ps IH]; intros fuel s Hl.
  - by destruct fuel.
  - by apply decode_lit.
  - destruct fuel as [|fuel]; [simpl in Hl; lia|]. cbn [pattern decode_pattern]. rewrite strip_prefix_app.
    apply matches_head. intros s'. apply IH. cbn [pattern] in Hl. rewrite length_append in Hl. simpl in Hl. lia.
Qed.

Lemma anchored_pieces ps s : anchored_match ("^" +:+ pattern meta_escape ps +:+ "$") s <-> matches_pieces ps s.
Proof.
  unfold anchored_match. rewrite strip_prefix_app. simpl. rewrite strip_last_app. by apply decode_matches.
Qed.

#[local] Instance meta_regex : RegexRules := {|
  escape := meta_escape; is_match := anchored_match; escape_empty := eq_refl; escape_slash := eq_refl;
  is_match_pieces := anchored_pieces |}.

Lemma path_pattern_exact_witness :
  is_match (regex (compile_path escape "/a(b/v{n}.json")) "/a(b/v2.json"
  /\ regex (compile_path escape "/a(b/v{n}.json") = "^/a\(b/v[^/]+\.json$"%string.
Proof.
  split; [|vm_compute; reflexivity]. apply path_pattern_exact. split; [reflexivity|].
  repeat constructor.
  - exists [Lit "a(b"%string]. split; [|exact (mp_lit "a(b" [] EmptyString mp_nil)].
    constructor. intros a name b Heq. apply (split_once_none "{" "a(b" eq_refl a (name +:+ "}" +:+ b)). exact Heq.
  - exists [Lit "v"%string; Wild; Lit ".json"%string]. split.
    + apply (reads_hole "v" "n" ".json"); [reflexivity|reflexivity|]. constructor. intros a name b Heq.
      apply (split_once_none "{" ".json" eq_refl a (name +:+ "}" +:+ b)). exact Heq.
    + apply (mp_lit "v" _ "2.json"), (mp_wild "2" _ ".json"); [discriminate|reflexivity|].
      exact (mp_lit ".json" [] EmptyString mp_nil).
Defined.

Definition plan_for (template : string) : Plan :=
  {| pl_id := template; pl_method := "GET"; pl_template := template; pl_path := compile_path meta_escape template;
     pl_required_query := []; pl_required_headers := []; pl_responses := [];
     pl_order := order_key (compile_path meta_escape template) template "GET" |}.

Definition user_routes : list Plan := plan_for <$> ["/users/{id}"; "/users/me"]%string.

Lemma most_specific_first_witness :
  ok_literal (pl_order (plan_for "/users/{id}")) <= ok_literal (pl_order (plan_for "/users/me"))
  /\ pl_template <$> merge_sort plan_le user_routes = ["/users/me"; "/users/{id}"]%string
  /\ merge_sort plan_le user_routes = merge_sort plan_le (rev user_routes).
Proof.
  split; [|split; [vm_compute; reflexivity|]].
  - apply (proj1 (most_specific_first (fun _ => True) user_routes user_routes) 0); [|by left|done].
    replace (merge_sort plan_le user_routes) with [plan_for "/users/me"; plan_for "/users/{id}"] by (vm_compute; reflexivity).
    reflexivity.
  - apply (proj2 (most_specific_first (fun _ => True) user_routes (rev user_routes))).
    + repeat constructor; vm_compute; set_solver.
    + symmetry. apply Permutation_rev.
Defined.
