(* ===== verification/SpecSchema.v ===== *)
(** * Schemas: normalisation, synthesis and validation

    A normalised schema is bounded in depth and in size by what it took from the document's
    budget, and normalising ends wherever references do; a body synthesized from a sound
    schema within its budget satisfies it, so the compiler's self-check is never about its
    own output there. *)

From Stdlib Require Import SpecFloat.
From S2P Require Import Prelude Upstream Json Spec.

(** ** Nodes *)

Definition children (s : SchemaShape) : list SchemaNode :=
  match s with Array items _ => [items] | Object properties _ => map snd properties | _ => [] end.

(** Induction with the hypothesis on every child. *)
Lemma node_ind (P : SchemaNode -> Prop) :
  (forall nullable shape, Forall P (children shape) -> P (Node nullable shape)) -> forall node, P node.
Proof.
  intros H. fix IH 1. intros [nullable shape]. apply H. destruct shape as [| | | | |items m|props req]; simpl;
    try apply Forall_nil_2; [constructor; [apply IH|constructor]|].
  clear req. revert props. fix IHl 1. intros [|[name prop] props]; [constructor|constructor; [apply IH|apply IHl]].
Qed.

(** ** Synthesis *)

(** The values rendered for a node. *)
Fixpoint cost (node : SchemaNode) : N :=
  let 'Node _ shape := node in
  match shape with
  | Array items min_items => (1 + N.min min_items MAX_ARRAY_ITEMS * cost items)%N
  | Object properties _ => (1 + foldr N.add 0 (map (fun p => cost p.2) properties))%N
  | _ => 1%N
  end.

(** A schema with a value: enumerated numbers that JSON has, and required properties that are
    declared. *)
Fixpoint sound (node : SchemaNode) : Prop :=
  let 'Node _ shape := node in
  match shape with
  | Integer _ _ enumeration => Forall (fun z => (i64_min <= z <= i64_max)%Z) enumeration
  | Number _ _ enumeration => Forall (fun f => is_finite f = true) enumeration
  | Array items _ => sound items
  | Object properties required =>
      NoDup properties.*1 /\ Forall (fun name => name ∈ properties.*1) required
      /\ foldr and True (map (fun p => sound p.2) properties)
  | _ => True
  end.

Lemma foldr_and_Forall {A} (P : A -> Prop) l : foldr and True (map P l) <-> Forall P l.
Proof.
  induction l as [|x l IH]; simpl; [by split|]. rewrite IH. split; [intros [? ?]; by constructor|].
  by intros [? ?]%Forall_cons.
Qed.

Lemma below_lt rng n : (0 < n)%N -> ((below rng n).2 < n)%N.
Proof.
  intros Hn. unfold below. destruct (N.eqb_spec n 0); [lia|]. destruct (next_u64 rng) as [r x]. simpl. by apply N.mod_lt.
Qed.

(** What is drawn from an enumeration is one of its values. *)
Lemma draw_elem {A} (to_json : A -> Json) (enumeration : list A) rng : enumeration <> [] ->
  exists x, x ∈ enumeration /\ (draw to_json enumeration rng).1 = to_json x.
Proof.
  intros Hne. unfold draw. pose proof (below_lt rng (N.of_nat (length enumeration))) as Hlt.
  destruct (below rng (N.of_nat (length enumeration))) as [r i]. simpl in *.
  destruct enumeration as [|y l]; [done|]. destruct (lookup_lt_is_Some_2 (y :: l) (N.to_nat i)) as [x Hx].
  { specialize (Hlt ltac:(simpl; lia)). lia. }
  rewrite Hx. exists x. split; [by eapply list_elem_of_lookup_2|done].
Qed.

Lemma number_in_finite minimum maximum rng : is_finite (number_in minimum maximum rng).1 = true.
Proof.
  unfold number_in. destruct (next_u64 rng) as [r n]. simpl.
  match goal with |- context [if is_finite ?f then _ else _] => destruct (is_finite f) eqn:Hf end; [done|].
  destruct (is_finite (default _ minimum)) eqn:Hl; done.
Qed.

Section synthesis.
Context (show : Json -> string).

(** A body that renders and conforms, at every pointer, for exactly its cost. *)
Definition conforms (node : SchemaNode) : Prop := forall rng budget pointer, (cost node <= budget)%N ->
  check show node (render node rng budget).1.1 pointer = [] /\ (render node rng budget).2 = (budget - cost node)%N.

Lemma elements_conform items n : forall rng budget, conforms items -> (N.of_nat n * cost items <= budget)%N -> (0 < cost items)%N ->
  Forall (fun v => forall pointer, check show items v pointer = []) (render_elements (render items) n rng budget).1.1
  /\ (render_elements (render items) n rng budget).2 = (budget - N.of_nat n * cost items)%N.
Proof.
  induction n as [|n IH]; intros rng budget Hc Hb Hpos; simpl; [split; [constructor|lia]|].
  destruct (N.eqb_spec budget 0); [lia|]. pose proof (fun p => Hc rng budget p ltac:(lia)) as Hv.
  destruct (render items rng budget) as [[v rng'] budget'] eqn:Hr. simpl in Hv.
  destruct (Hv EmptyString) as [_ ->]. destruct (IH rng' (budget - cost items)%N Hc) as [Hs Hb']; [lia|done|].
  destruct (render_elements (render items) n rng' (budget - cost items)) as [[out r] b]. simpl in *.
  split; [constructor; [intros p; by apply Hv|done]|lia].
Qed.

Definition total_cost (props : list (string * SchemaNode)) : N := foldr N.add 0%N (map (fun p => cost p.2) props).

Lemma cost_pos node : (0 < cost node)%N.
Proof. destruct node as [n []]; simpl; lia. Qed.

Lemma fields_conform props : forall rng budget, Forall (fun p => conforms p.2) props -> (total_cost props <= budget)%N ->
  Forall2 (fun p f => f.1 = p.1 /\ forall pointer, check show p.2 f.2 pointer = []) props (render_fields render props rng budget).1.1
  /\ (render_fields render props rng budget).2 = (budget - total_cost props)%N.
Proof.
  induction props as [|[name prop] props IH]; intros rng budget Hc Hb; simpl;
    [split; [constructor|unfold total_cost; simpl; lia]|].
  apply Forall_cons in Hc as [Hp Hc]. unfold total_cost in Hb. simpl in Hb. fold (total_cost props) in Hb.
  pose proof (cost_pos prop). destruct (N.eqb_spec budget 0); [lia|].
  pose proof (fun p => Hp rng budget p ltac:(simpl; lia)) as Hv. simpl in Hv.
  destruct (render prop rng budget) as [[v rng'] budget'] eqn:Hr. simpl in Hv.
  destruct (Hv EmptyString) as [_ ->]. destruct (IH rng' (budget - cost prop)%N Hc) as [Hs Hb']; [lia|].
  destruct (render_fields render props rng' (budget - cost prop)) as [[out r] b]. simpl in *.
  split; [constructor; [split; [done|intros p; by apply Hv]|done]|]. unfold total_cost. simpl. fold (total_cost props). lia.
Qed.

Lemma render_object_get props fields : NoDup props.*1 ->
  Forall2 (fun p f => f.1 = p.1 /\ forall pointer, check show p.2 f.2 pointer = []) props fields ->
  NoDup fields.*1
  /\ (forall name, name ∈ props.*1 -> is_Some (map_get name (map_of fields)))
  /\ forall p v, p ∈ props -> map_get p.1 (map_of fields) = Some v -> forall pointer, check show p.2 v pointer = [].
Proof.
  intros Hn Hf. assert (Hk : fields.*1 = props.*1).
  { clear Hn. induction Hf as [|p f props fields [Hk _] _ IH]; [done|]. by rewrite !fmap_cons, Hk, IH. }
  split; [by rewrite Hk|]. assert (Hnf : NoDup fields.*1) by by rewrite Hk. split.
  - intros name Hin. rewrite <-Hk in Hin. apply list_elem_of_fmap in Hin as ([k v] & -> & Hin). simpl.
    rewrite map_get_of by done. rewrite (map_get_elem k v) by done. by eexists.
  - intros p v Hin Hget pointer. rewrite map_get_of in Hget by done. apply map_get_Some in Hget.
    apply list_elem_of_lookup in Hin as [i Hi]. destruct (Forall2_lookup_l _ _ _ _ _ Hf Hi) as ([k w] & Hw & Hk' & Hc).
    simpl in Hk', Hc. subst k. apply list_elem_of_lookup_2 in Hw.
    assert (v = w) as ->; [|by apply Hc]. pose proof (map_get_elem p.1 v fields Hnf Hget) as E1.
    rewrite (map_get_elem p.1 w fields Hnf Hw) in E1. congruence.
Qed.

Lemma imap_concat_nil {A B} (f : nat -> A -> list B) l : Forall (fun x => forall i, f i x = []) l -> concat (imap f l) = [].
Proof.
  revert f. induction l as [|x l IH]; intros f H; [done|]. apply Forall_cons in H as [Hx Hl].
  rewrite imap_cons. simpl. rewrite Hx. apply IH. eapply Forall_impl; [exact Hl|]. simpl. auto.
Qed.

Lemma existsb_elem {A} (f : A -> bool) l x : x ∈ l -> f x = true -> existsb f l = true.
Proof. intros Hin Hx. apply existsb_exists. exists x. split; [by apply list_elem_of_In|done]. Qed.

Lemma array_conforms nullable items m rng budget pointer :
  conforms items -> (cost (Node nullable (Array items m)) <= budget)%N ->
  check show (Node nullable (Array items m)) (render (Node nullable (Array items m)) rng budget).1.1 pointer = []
  /\ (render (Node nullable (Array items m)) rng budget).2 = (budget - cost (Node nullable (Array items m)))%N.
Proof.
  intros IH Hb. cbn [cost render] in *. destruct (N.eqb_spec budget 0); [lia|].
  destruct (elements_conform items (N.to_nat (N.min m MAX_ARRAY_ITEMS)) rng (budget - 1) IH) as [He Hb'];
    [rewrite N2Nat.id; lia|apply cost_pos|].
  destruct (render_elements _ _ _ _) as [[out r] b]. simpl in He, Hb' |- *. rewrite N2Nat.id in Hb'. split; [|lia].
  apply imap_concat_nil. eapply Forall_impl; [exact He|]. simpl. auto.
Qed.

Lemma object_conforms nullable props req rng budget pointer :
  sound (Node nullable (Object props req)) -> Forall (fun p => conforms p.2) props ->
  (cost (Node nullable (Object props req)) <= budget)%N ->
  check show (Node nullable (Object props req)) (render (Node nullable (Object props req)) rng budget).1.1 pointer = []
  /\ (render (Node nullable (Object props req)) rng budget).2 = (budget - cost (Node nullable (Object props req)))%N.
Proof.
  intros (Hn & Hreq & _) Hc Hb. cbn [cost render] in *. fold (total_cost props) in *. destruct (N.eqb_spec budget 0); [lia|].
  destruct (fields_conform props rng (budget - 1) Hc) as [Hf Hb']; [lia|].
  destruct (render_fields _ _ _ _) as [[out r] b]. cbn [fst snd] in *. split; [|lia].
  destruct (render_object_get props out Hn Hf) as (Hno & Hget & Hchk). cbn [check as_object json_obj is_null andb].
  apply app_nil. split.
  - clear -Hreq Hget. induction Hreq as [|name req Hname _ IH]; [done|]. cbn [omap list_omap].
    destruct (Hget name Hname) as [v ->]. exact IH.
  - clear -Hchk. revert Hchk. generalize (map_of out) as m. intros m. induction props as [|p props IH]; intros Hchk; [done|].
    assert (IH' : concat (map (fun p => match map_get p.1 m with
        | None => [] | Some present => check show p.2 present (pointer +:+ "/" +:+ escape_pointer_token p.1) end) props) = []).
    { apply IH. intros q w Hq. apply Hchk. by apply elem_of_cons; right. }
    simpl. rewrite IH', app_nil_r. destruct (map_get p.1 m) as [v|] eqn:Hv; [|done].
    by rewrite (Hchk p v (list_elem_of_here _ _) Hv).
Qed.

Lemma sound_conforms node : sound node -> conforms node.
Proof.
  induction node as [nullable shape IH] using node_ind. intros Hs rng budget pointer Hb.
  pose proof (cost_pos (Node nullable shape)) as Hpos.
  destruct shape as [| |lo hi en|lo hi en|fmt en|items m|props req]; cbn [children] in IH;
    [| | | | |apply Forall_cons in IH as [IH _]; by apply (array_conforms nullable items m rng budget pointer (IH Hs))|].
  6: { apply (object_conforms nullable props req); [done| |done]. apply Forall_forall. intros p Hp. destruct Hs as (_ & _ & Hs).
    rewrite foldr_and_Forall, Forall_forall in Hs. rewrite Forall_forall in IH. apply IH; [|by apply Hs].
    apply list_elem_of_In, in_map, list_elem_of_In, Hp. }
  all: cbn [render]; destruct (N.eqb_spec budget 0); [lia|].
  - simpl. split; [by destruct nullable|lia].
  - destruct (next_u64 rng) as [r x]. simpl. split; [done|lia].
  - destruct en as [|e en].
    + destruct (integer_in lo hi rng) as [z r]. simpl. split; [done|lia].
    + destruct (draw_elem JInt (e :: en) rng) as (z & Hz & Heq); [done|].
      destruct (draw JInt (e :: en) rng) as [v r]. simpl in Heq. subst v. cbn [fst snd]. split; [|simpl; lia].
      simpl in Hs. rewrite Forall_forall in Hs. specialize (Hs z Hz). simpl.
      rewrite (proj2 (Z.leb_le _ _) (proj1 Hs)), (proj2 (Z.leb_le _ _) (proj2 Hs)). simpl.
      pose proof (existsb_elem (Z.eqb z) (e :: en) z Hz (Z.eqb_refl z)) as Hex. simpl in Hex. by rewrite Hex.
  - destruct en as [|e en].
    + pose proof (number_in_finite lo hi rng) as Hf. destruct (number_in lo hi rng) as [f r]. simpl in *.
      unfold json_of_f64. rewrite Hf. split; [done|lia].
    + destruct (draw_elem json_of_f64 (e :: en) rng) as (f & Hf & Heq); [done|].
      destruct (draw json_of_f64 (e :: en) rng) as [v r]. simpl in Heq. subst v. cbn [fst snd]. split; [|simpl; lia].
      simpl in Hs. rewrite Forall_forall in Hs. specialize (Hs f Hf). unfold json_of_f64. rewrite Hs. simpl.
      pose proof (existsb_elem (fun x => SFeqb x f) (e :: en) f Hf (SFeqb_refl f Hs)) as Hex. simpl in Hex. by rewrite Hex.
  - destruct en as [|e en].
    + destruct (text fmt rng) as [t r]. simpl. split; [done|lia].
    + destruct (draw_elem JString (e :: en) rng) as (t & Ht & Heq); [done|].
      destruct (draw JString (e :: en) rng) as [v r]. simpl in Heq. subst v. cbn [fst snd]. split; [|simpl; lia]. simpl.
      pose proof (existsb_elem (String.eqb t) (e :: en) t Ht (String.eqb_refl t)) as Hex. simpl in Hex. by rewrite Hex.
Qed.

(** C33: a body synthesized from a sound schema (enumerated numbers JSON can hold, declared
    required properties, distinct property names) satisfies that schema at every pointer,
    whatever the seed, as long as the budget covers the values it renders, and takes exactly
    those from the budget. *)
Theorem synthesized_conforms node rng budget pointer :
  sound node -> (cost node <= budget)%N ->
  check show node (synthesize node rng budget).1.1 pointer = []
  /\ (synthesize node rng budget).2 = (budget - cost node)%N.
Proof. intros Hs Hb. by apply sound_conforms. Qed.
End synthesis.

(** ** Normalisation *)

(** The constrained nodes of a tree, how deep it nests, and whether its property names are
    distinct. *)
Fixpoint constrained (node : SchemaNode) : N :=
  let 'Node _ shape := node in
  match shape with
  | Unconstrained => 0%N
  | Array items _ => (1 + constrained items)%N
  | Object properties _ => (1 + foldr N.add 0 (map (fun p => constrained p.2) properties))%N
  | _ => 1%N
  end.

Fixpoint height (node : SchemaNode) : nat :=
  let 'Node _ shape := node in
  match shape with
  | Array items _ => S (height items)
  | Object properties _ => S (foldr Nat.max 0 (map (fun p => height p.2) properties))
  | _ => 0
  end.

Fixpoint distinct (node : SchemaNode) : Prop :=
  let 'Node _ shape := node in
  match shape with
  | Array items _ => distinct items
  | Object properties _ => NoDup properties.*1 /\ foldr and True (map (fun p => distinct p.2) properties)
  | _ => True
  end.

(** The property tables of the document hold one entry per name. *)
Inductive keyed : ReferenceOr Schema -> Prop :=
  | keyed_reference r : keyed (Reference r)
  | keyed_item nullable kind : keyed_kind kind -> keyed (Item (SchemaOf nullable kind))
with keyed_kind : SchemaKind -> Prop :=
  | keyed_scalar kind :
      match kind with KArray _ _ | KObject _ _ | KAllOf _ | KOneOf _ | KAnyOf _ => False | _ => True end -> keyed_kind kind
  | keyed_array items m : (forall i, items = Some i -> keyed i) -> keyed_kind (KArray items m)
  | keyed_object ps req : NoDup ps.*1 -> (forall p, p ∈ ps -> keyed p.2) -> keyed_kind (KObject ps req)
  | keyed_all bs : (forall b, b ∈ bs -> keyed b) -> keyed_kind (KAllOf bs)
  | keyed_one bs : (forall b, b ∈ bs -> keyed b) -> keyed_kind (KOneOf bs)
  | keyed_any bs : (forall b, b ∈ bs -> keyed b) -> keyed_kind (KAnyOf bs).

(** A result paid for: its constrained nodes came out of the budget, it nests no deeper than
    the depth leaves room for, and its names are distinct. *)
Definition paid (depth : nat) (budget : N) (r : SchemaNode * N) : Prop :=
  (constrained r.1 + r.2 <= budget)%N /\ height r.1 <= MAX_DEPTH - depth /\ distinct r.1.

Definition sum_constrained (ps : list (string * SchemaNode)) : N := foldr N.add 0%N (map (fun p => constrained p.2) ps).

Lemma foldr_max_le (ps : list (string * SchemaNode)) n : Forall (fun p => height p.2 <= n) ps ->
  foldr Nat.max 0 (map (fun p => height p.2) ps) <= n.
Proof. induction 1; simpl; lia. Qed.

Lemma foldr_max_Forall (ps : list (string * SchemaNode)) n : foldr Nat.max 0 (map (fun p => height p.2) ps) <= n ->
  Forall (fun p => height p.2 <= n) ps.
Proof. induction ps as [|p ps IH]; simpl; intros H; constructor; [lia|]. apply IH. lia. Qed.

Lemma unconstrained_paid depth budget : paid depth budget (unconstrained, budget).
Proof. unfold paid. simpl. split; [lia|]. split; [lia|done]. Qed.

Lemma or_nullable_paid nullable depth budget node b : paid depth budget (node, b) -> paid depth budget (or_nullable nullable node, b).
Proof. destruct node as [n s]. unfold paid, or_nullable. simpl. done. Qed.

Lemma elem_of_merge_property name value ps p : p ∈ merge_property name value ps -> p.2 = value \/ p ∈ ps.
Proof.
  induction ps as [|[n v] ps IH]; simpl; [intros ->%list_elem_of_singleton; by left|].
  destruct (String.eqb n name); intros [->|Hin]%elem_of_cons; try (by left); try (right; set_solver).
  destruct (IH Hin); [by left|right; set_solver].
Qed.

Lemma merge_property_sum name value ps :
  (sum_constrained (merge_property name value ps) <= sum_constrained ps + constrained value)%N.
Proof.
  unfold sum_constrained. induction ps as [|[n v] ps IH]; simpl; [lia|]. destruct (String.eqb n name); simpl; lia.
Qed.

Lemma merge_property_keys name value ps : NoDup ps.*1 ->
  NoDup (merge_property name value ps).*1 /\ forall k, k ∈ (merge_property name value ps).*1 -> k = name \/ k ∈ ps.*1.
Proof.
  induction ps as [|[n v] ps IH]; [intros _; split; [apply NoDup_singleton|set_solver]|].
  cbn [merge_property]. rewrite fmap_cons. intros [Hn Hps]%NoDup_cons. destruct (IH Hps) as [H1 H2]. destruct (String.eqb_spec n name) as [->|Hne].
  - rewrite fmap_cons. simpl. split; [by apply NoDup_cons|set_solver].
  - rewrite fmap_cons. simpl. split; [|set_solver]. apply NoDup_cons. split; [|done]. intros [->|?]%H2; done.
Qed.

(** A property bag that is paid for. *)
Definition bag_paid (h : nat) (used : N) (ps : list (string * SchemaNode)) : Prop :=
  (sum_constrained ps <= used)%N /\ Forall (fun p => S (height p.2) <= h /\ distinct p.2) ps /\ NoDup ps.*1.

Lemma merge_property_paid h used name value ps : bag_paid h used ps -> S (height value) <= h -> distinct value ->
  bag_paid h (used + constrained value) (merge_property name value ps).
Proof.
  intros (Hs & Hf & Hn) Hh Hd. split; [pose proof (merge_property_sum name value ps); lia|].
  split; [|by apply merge_property_keys]. rewrite Forall_forall in *. intros p [->|Hin]%elem_of_merge_property; auto.
Qed.

Lemma merge_properties_paid h used props ps : bag_paid h used ps ->
  Forall (fun p => S (height p.2) <= h /\ distinct p.2) props ->
  bag_paid h (used + sum_constrained props) (fold_left (fun ps p => merge_property p.1 p.2 ps) props ps).
Proof.
  intros Hb Hf. revert used ps Hb. induction Hf as [|p props [Hh Hd] _ IH]; intros used ps Hb; simpl.
  - unfold sum_constrained. simpl. by rewrite N.add_0_r.
  - unfold sum_constrained. simpl. fold (sum_constrained props). rewrite N.add_assoc. apply IH. by apply merge_property_paid.
Qed.

Definition merged_paid (h : nat) (used : N) (acc : Merged) : Prop :=
  exists u1 u2, (u1 + u2 <= used)%N /\ bag_paid h u1 (mg_properties acc)
    /\ (constrained (mg_fallback acc) <= u2)%N /\ height (mg_fallback acc) <= h /\ distinct (mg_fallback acc).

Lemma merge_branch_paid h used acc node : merged_paid h used acc -> height node <= h -> distinct node ->
  merged_paid h (used + constrained node) (merge_branch acc node).
Proof.
  intros (u1 & u2 & Hu & Hb & Hc & Hh & Hd) Hhn Hdn. unfold merge_branch, merged_paid.
  assert (Hfall : forall node', node' = node -> exists u1 u2, (u1 + u2 <= used + constrained node)%N /\ bag_paid h u1 (mg_properties acc)
    /\ (constrained (if is_unconstrained (mg_fallback acc) then node' else mg_fallback acc) <= u2)%N
    /\ height (if is_unconstrained (mg_fallback acc) then node' else mg_fallback acc) <= h
    /\ distinct (if is_unconstrained (mg_fallback acc) then node' else mg_fallback acc)).
  { intros node' ->. destruct (is_unconstrained (mg_fallback acc)); [exists u1, (constrained node)|exists u1, u2];
      (split; [lia|]); (split; [done|]); auto with lia. }
  destruct node as [nullable shape]. simpl in *. destruct shape as [| | | | |items m|props req]; simpl; try (by apply Hfall).
  exists (u1 + sum_constrained props)%N, u2. fold (sum_constrained props). destruct Hdn as [_ Hdp]. apply foldr_and_Forall in Hdp.
  split; [lia|]. split; [|done]. apply merge_properties_paid; [done|].
  assert (Hhp := foldr_max_Forall props (h - 1) ltac:(lia)). rewrite Forall_forall in *. intros p Hp. split; [|by apply Hdp].
  specialize (Hhp p Hp). lia.
Qed.

Lemma merged_node_paid nullable h used acc : 0 < h -> merged_paid h used acc ->
  (constrained (merged_node nullable acc) <= used + 1)%N /\ height (merged_node nullable acc) <= h /\ distinct (merged_node nullable acc).
Proof.
  intros Hpos (u1 & u2 & Hu & (Hs & Hf & Hn) & Hc & Hh & Hd). unfold merged_node. destruct (mg_saw_object acc).
  - cbn [constrained height distinct]. fold (sum_constrained (mg_properties acc)). split; [lia|]. split.
    + assert (Hm := foldr_max_le (mg_properties acc) (h - 1)). rewrite Forall_forall in Hf, Hm.
      specialize (Hm ltac:(intros p Hp; specialize (Hf p Hp); lia)). lia.
    + split; [done|]. apply foldr_and_Forall. eapply Forall_impl; [exact Hf|]. by intros p [_ ?].
  - destruct (mg_fallback acc) as [n s]. unfold or_nullable. simpl in *. split; [lia|]. done.
Qed.

Section resolved.
Context (schemas : list (string * ReferenceOr Schema)) (Hschemas : forall name s, map_get name schemas = Some s -> keyed s).
Context (rec : ReferenceOr Schema -> nat -> N -> option (SchemaNode * N)).
Context (Hrec : forall s depth budget r, keyed s -> rec s depth budget = Some r -> paid depth budget r).

Lemma follow_paid reference depth budget r : follow schemas rec reference depth budget = Some r -> paid depth budget r.
Proof.
  unfold follow. destruct (strip_prefix _ reference) as [name|]; [|intros [= <-]; apply unconstrained_paid].
  destruct (map_get name schemas) as [s|] eqn:Hs; [|intros [= <-]; apply unconstrained_paid]. apply Hrec. by eapply Hschemas.
Qed.

Lemma resolve_properties_paid props : forall depth budget nodes b, (forall p, p ∈ props -> keyed p.2) ->
  resolve_properties rec props depth budget = Some (nodes, b) ->
  (sum_constrained nodes + b <= budget)%N /\ nodes.*1 = props.*1
  /\ Forall (fun p => height p.2 <= MAX_DEPTH - depth /\ distinct p.2) nodes.
Proof.
  induction props as [|[name prop] props IH]; intros depth budget nodes b Hk; simpl.
  - intros [= <- <-]. split; [unfold sum_constrained; simpl; lia|]. split; [done|constructor].
  - destruct (rec prop depth budget) as [[node b1]|] eqn:Hr; [|done]. simpl.
    destruct (resolve_properties rec props depth b1) as [[rest b2]|] eqn:Hrs; [|done]. simpl. intros [= <- <-].
    apply Hrec in Hr as (H1 & H2 & H3); [|apply (Hk (name, prop)), list_elem_of_here].
    apply IH in Hrs as (H4 & H5 & H6); [|intros p Hp; apply Hk; by apply elem_of_cons; right].
    unfold sum_constrained in *. split; [simpl in *; lia|]. split; [by rewrite !fmap_cons, H5|]. by constructor.
Qed.

Lemma merge_all_of_paid branches : forall depth budget acc used acc' b, (forall s, s ∈ branches -> keyed s) ->
  merged_paid (MAX_DEPTH - depth) used acc ->
  merge_all_of rec branches depth budget acc = Some (acc', b) ->
  (b <= budget)%N /\ merged_paid (MAX_DEPTH - depth) (used + (budget - b)) acc'.
Proof.
  induction branches as [|branch branches IH]; intros depth budget acc used acc' b Hk Ha; simpl.
  - intros [= <- <-]. split; [lia|]. by rewrite N.sub_diag, N.add_0_r.
  - destruct (rec branch depth budget) as [[node b1]|] eqn:Hr; [|done]. simpl. intros Hm.
    apply Hrec in Hr as (H1 & H2 & H3); [|apply Hk, list_elem_of_here]. simpl in *.
    apply (IH _ _ _ (used + constrained node)%N) in Hm as [H4 (u1 & u2 & Hu & Hrest)];
      [|intros s Hs; apply Hk; by apply elem_of_cons; right|by apply merge_branch_paid].
    split; [lia|]. exists u1, u2. split; [lia|done].
Qed.

Lemma normalize_schema_paid nullable kind depth budget r : keyed_kind kind ->
  normalize_schema rec (SchemaOf nullable kind) depth budget = Some r -> paid depth budget r.
Proof.
  intros Hk. unfold normalize_schema. destruct (Nat.leb_spec MAX_DEPTH depth) as [Hd|Hd]; simpl; [intros [= <-]; apply unconstrained_paid|].
  destruct (N.eqb_spec budget 0) as [Hb|Hb]; [intros [= <-]; apply unconstrained_paid|].
  assert (Hscalar : forall s, constrained (Node nullable s) = 1%N -> height (Node nullable s) = 0 -> distinct (Node nullable s) ->
    paid depth budget (Node nullable s, (budget - 1)%N)).
  { intros s H1 H2 H3. unfold paid. cbn [fst snd]. rewrite H1, H2. split; [lia|]. split; [lia|done]. }
  assert (Hbranch : forall bs r, (forall b, b ∈ bs -> keyed b) -> first_branch rec bs depth (budget - 1) nullable = Some r -> paid depth budget r).
  { intros [|branch bs] r' Hb'; simpl; [intros [= <-]; unfold paid; simpl; split; [lia|]; split; [lia|done]|].
    destruct (rec branch depth (budget - 1)) as [[node b1]|] eqn:Hr; [|done]. simpl. intros [= <-]. apply or_nullable_paid.
    apply Hrec in Hr as (H1 & H2 & H3); [|apply Hb', list_elem_of_here]. split; [simpl in *; lia|done]. }
  inversion Hk as [k Hs|items m Hi|ps req Hn Hp|bs Hbs|bs Hbs|bs Hbs]; subst.
  - destruct kind; try done; intros [= <-]; try (by apply Hscalar). unfold paid. simpl. split; [lia|]. split; [lia|done].
  - destruct items as [items|]; simpl.
    + destruct (rec items (S depth) (budget - 1)) as [[node b1]|] eqn:Hr; [|done]. simpl. intros [= <-].
      apply Hrec in Hr as (H1 & H2 & H3); [|by apply Hi]. unfold paid. cbn [fst snd constrained height distinct] in *.
      split; [lia|]. split; [lia|done].
    + intros [= <-]. unfold paid. simpl. split; [lia|]. split; [lia|done].
  - destruct (resolve_properties rec ps (S depth) (budget - 1)) as [[nodes b1]|] eqn:Hr; [|done]. simpl. intros [= <-].
    apply resolve_properties_paid in Hr as (H1 & H2 & H3); [|done]. unfold paid. cbn [fst snd constrained height distinct].
    fold (sum_constrained nodes). split; [lia|]. split.
    + assert (Hm := foldr_max_le nodes (MAX_DEPTH - S depth) ltac:(eapply Forall_impl; [exact H3|]; by intros ? [? _])). lia.
    + split; [by rewrite H2|]. apply foldr_and_Forall. eapply Forall_impl; [exact H3|]. by intros ? [_ ?].
  - destruct (merge_all_of _ _ _ _ _) as [[acc b1]|] eqn:Hr; [|done]. simpl. intros [= <-].
    apply (merge_all_of_paid _ _ _ _ 0%N) in Hr as [Hle Hm]; [|done|].
    + apply (merged_node_paid nullable) in Hm as (H1 & H2 & H3); [|lia]. split; [simpl; lia|done].
    + exists 0%N, 0%N. split; [lia|]. split; [split; [unfold sum_constrained; simpl; lia|by repeat constructor]|].
      simpl. split; [lia|]. split; [lia|done].
  - by apply Hbranch.
  - by apply Hbranch.
Qed.
End resolved.

Lemma resolve_paid schemas fuel : (forall name s, map_get name schemas = Some s -> keyed s) ->
  forall s depth budget r, keyed s -> resolve schemas fuel s depth budget = Some r -> paid depth budget r.
Proof.
  intros Hs. induction fuel as [|fuel IH]; intros s depth budget r Hk; simpl; [done|]. destruct Hk as [reference|nullable kind Hk].
  - by apply follow_paid.
  - by apply normalize_schema_paid.
Qed.

(** *** Termination *)

(** A chain of references that reaches a schema, or nothing, within [k] steps. *)
Fixpoint alias_within (schemas : list (string * ReferenceOr Schema)) (k : nat) (s : ReferenceOr Schema) : Prop :=
  match s with
  | Item _ => True
  | Reference r =>
      match k with
      | O => False
      | S k =>
          match strip_prefix "#/components/schemas/" r ≫= fun name => map_get name schemas with
          | Some target => alias_within schemas k target
          | None => True
          end
      end
  end.

Section total.
Context (schemas : list (string * ReferenceOr Schema)) (k : nat) (Hends : forall r, alias_within schemas k (Reference r)).

Lemma alias_within_all s : alias_within schemas k s.
Proof. destruct s; [apply Hends|by destruct k]. Qed.

Definition returns (o : option (SchemaNode * N)) (budget : N) : Prop := exists node b, o = Some (node, b) /\ (b <= budget)%N.

(** The frames a call may need: those of the aliases before it, and per unit of budget one
    more schema with the aliases before that. *)
Definition enough (j : nat) (budget : N) (fuel : nat) : Prop := j + 1 + N.to_nat budget * (k + 1) <= fuel.

Section children.
Context (rec : ReferenceOr Schema -> nat -> N -> option (SchemaNode * N)) (room : N).
Context (Hrec : forall s depth budget, (budget <= room)%N -> returns (rec s depth budget) budget).

Lemma resolve_properties_returns props : forall depth budget, (budget <= room)%N ->
  exists nodes b, resolve_properties rec props depth budget = Some (nodes, b) /\ (b <= budget)%N.
Proof.
  induction props as [|[name prop] props IH]; intros depth budget Hb; simpl; [by exists [], budget|].
  destruct (Hrec prop depth budget Hb) as (node & b1 & -> & H1). simpl.
  destruct (IH depth b1) as (nodes & b2 & -> & H2); [lia|]. simpl. eexists _, _. split; [done|lia].
Qed.

Lemma merge_all_of_returns branches : forall depth budget acc, (budget <= room)%N ->
  exists acc' b, merge_all_of rec branches depth budget acc = Some (acc', b) /\ (b <= budget)%N.
Proof.
  induction branches as [|branch branches IH]; intros depth budget acc Hb; simpl; [by exists acc, budget|].
  destruct (Hrec branch depth budget Hb) as (node & b1 & -> & H1). simpl.
  destruct (IH depth b1 (merge_branch acc node)) as (acc' & b2 & -> & H2); [lia|]. eexists _, _. split; [done|lia].
Qed.

Lemma normalize_schema_returns schema depth budget : (budget <= room + 1)%N -> returns (normalize_schema rec schema depth budget) budget.
Proof.
  intros Hb. unfold normalize_schema. destruct ((MAX_DEPTH <=? depth)%nat); simpl; [by exists unconstrained, budget|].
  destruct (N.eqb_spec budget 0); [by exists unconstrained, budget|]. destruct schema as [nullable kind].
  assert (Hbranch : forall bs, returns (first_branch rec bs depth (budget - 1) nullable) budget).
  { intros [|s bs]; simpl; [exists unconstrained, (budget - 1)%N; split; [done|lia]|].
    destruct (Hrec s depth (budget - 1)%N) as (node & b & -> & H); [lia|]. simpl. eexists _, _. split; [done|lia]. }
  destruct kind as [| | | |items m|ps req|bs|bs|bs|]; try (eexists _, _; split; [done|lia]); try apply Hbranch.
  - destruct items as [items|]; simpl; [|eexists _, _; split; [done|lia]].
    destruct (Hrec items (S depth) (budget - 1)%N) as (node & b & -> & H); [lia|]. simpl. eexists _, _. split; [done|lia].
  - destruct (resolve_properties_returns ps (S depth) (budget - 1)%N) as (nodes & b & -> & H); [lia|]. simpl.
    eexists _, _. split; [done|lia].
  - match goal with |- context [merge_all_of rec bs depth ?b ?a] =>
      destruct (merge_all_of_returns bs depth b a) as (acc & b' & -> & H); [lia|] end.
    simpl. eexists _, _. split; [done|lia].
Qed.
End children.

Lemma resolve_returns fuel : forall j s depth budget, alias_within schemas j s -> j <= k -> enough j budget fuel ->
  returns (resolve schemas fuel s depth budget) budget.
Proof.
  induction fuel as [|fuel IH]; intros j s depth budget Ha Hj Hf; unfold enough in Hf; [lia|]. simpl. destruct s as [r|item].
  - destruct j as [|j]; [done|]. cbn [alias_within] in Ha. unfold follow. destruct (strip_prefix _ r) as [name|]; [|by exists unconstrained, budget].
    cbn in Ha. destruct (map_get name schemas) as [target|]; [|by exists unconstrained, budget].
    apply (IH j); [done|lia|unfold enough; lia].
  - destruct (N.eq_dec budget 0%N) as [->|Hb].
    + unfold normalize_schema. destruct (MAX_DEPTH <=? depth)%nat; by exists unconstrained, 0%N.
    + apply (normalize_schema_returns _ (budget - 1)%N); [|lia]. intros s d b Hle. apply (IH k); [apply alias_within_all|lia|].
      unfold enough. assert (N.to_nat b + 1 <= N.to_nat budget) by lia. nia.
Qed.
End total.

(** Normalising a schema of a document ends, in frames bounded by the node budget and the
    longest chain of references, whenever no such chain is endless; and the tree it returns
    is no deeper than [MAX_DEPTH], has one entry per property name, and holds no more
    constrained nodes than it took from the budget the whole document shares. *)
Theorem normalize_bounded schemas k schema budget fuel :
  (forall r, alias_within schemas k (Reference r)) ->
  keyed schema -> (forall name s, map_get name schemas = Some s -> keyed s) ->
  k + 1 + N.to_nat budget * (k + 1) <= fuel ->
  exists node left_, normalize schemas fuel schema budget = Some (node, left_)
    /\ (constrained node + left_ <= budget)%N /\ height node <= MAX_DEPTH /\ distinct node.
Proof.
  intros Hends Hk Hs Hf. unfold normalize.
  destruct (resolve_returns schemas k Hends fuel k schema 0 budget) as (node & b & Heq & _); [by apply alias_within_all|done|done|].
  exists node, b. split; [done|]. apply resolve_paid in Heq as (H1 & H2 & H3); [|done|done]. cbn [fst snd] in *.
  split; [done|]. split; [|done]. by rewrite Nat.sub_0_r in H2.
Qed.

(** *** Where it does not end *)

Definition ref_to (name : string) : ReferenceOr Schema := Reference ("#/components/schemas/" +:+ name).

(** A reference to itself, or two that name each other: no stack is enough. *)
Definition alias_cycle : list (string * ReferenceOr Schema) := [("A", ref_to "B"); ("B", ref_to "A")]%string.

Lemma alias_cycle_diverges fuel : forall depth budget,
  resolve alias_cycle fuel (ref_to "A") depth budget = None /\ resolve alias_cycle fuel (ref_to "B") depth budget = None.
Proof. induction fuel as [|fuel IH]; intros depth budget; [done|]. split; simpl; apply IH. Qed.

(** A schema composed of itself: the depth does not grow, so the stack has to hold two frames
    for every node of the budget, whatever [MAX_DEPTH]. *)
Definition self_composed : list (string * ReferenceOr Schema) := [("A"%string, Item (SchemaOf false (KAllOf [ref_to "A"])))].

Lemma self_composed_depth (n fuel : nat) : fuel < 2 * n + 1 -> forall depth, depth < MAX_DEPTH ->
  resolve self_composed fuel (ref_to "A") depth (N.of_nat n) = None.
Proof.
  revert fuel. induction n as [|n IH]; intros fuel Hf depth Hd; [by replace fuel with 0 by lia|].
  destruct fuel as [|[|fuel]]; [done|done|].
  change (resolve self_composed (S (S fuel)) (ref_to "A") depth (N.of_nat (S n)))
    with (normalize_schema (resolve self_composed fuel) (SchemaOf false (KAllOf [ref_to "A"])) depth (N.of_nat (S n))).
  unfold normalize_schema. rewrite (proj2 (Nat.leb_gt _ _) Hd). destruct (N.eqb_spec (N.of_nat (S n)) 0); [lia|].
  replace (N.of_nat (S n) - 1)%N with (N.of_nat n) by lia. cbn [orb merge_all_of]. rewrite IH by lia. done.
Qed.

(** ** Witnesses *)

(** A tree of nodes, a schema that refers to it through an alias, and a body for it. *)
Definition tree_schemas : list (string * ReferenceOr Schema) :=
  [("Alias", ref_to "Tree");
   ("Tree", Item (SchemaOf false (KObject [("name", Item (SchemaOf false (KString FmtEmpty [])));
                                           ("kids", Item (SchemaOf false (KArray (Some (ref_to "Alias")) None)))] ["name"])))]%string.

Lemma tree_aliases r : alias_within tree_schemas 2 (Reference r).
Proof.
  cbn [alias_within]. destruct (strip_prefix "#/components/schemas/" r) as [name|]; [|exact I].
  cbn [mbind option_bind]. unfold tree_schemas. cbn [map_get].
  destruct (String.eqb name "Alias"); [vm_compute; exact I|]. destruct (String.eqb name "Tree"); exact I.
Qed.

Lemma tree_keyed name s : map_get name tree_schemas = Some s -> keyed s.
Proof.
  unfold tree_schemas. cbn [map_get]. destruct (String.eqb name "Alias"); [intros [= <-]; constructor|].
  destruct (String.eqb name "Tree"); [|done]. intros [= <-]. constructor. apply keyed_object; [by apply (bool_decide_unpack _)|].
  intros p [->|[->|?%elem_of_nil]%elem_of_cons]%elem_of_cons; [by repeat constructor| |done].
  constructor. apply keyed_array. intros i [= <-]. constructor.
Qed.

Lemma normalize_bounded_witness :
  exists node left_, normalize tree_schemas 40 (ref_to "Alias") 12 = Some (node, left_)
    /\ (constrained node + left_ <= 12)%N /\ height node <= MAX_DEPTH /\ distinct node.
Proof.
  apply (normalize_bounded tree_schemas 2 (ref_to "Alias") 12 40).
  - exact tree_aliases.
  - constructor.
  - exact tree_keyed.
  - apply (bool_decide_unpack _). vm_compute. exact I.
Defined.

Definition flat_node : SchemaNode :=
  Node false (Object [("id", Node false (Integer (Some 1%Z) None [])); ("tags", Node false (Array (Node false (Text Plain ["a"; "b"])) 2))] ["id"])%string.

Lemma synthesized_conforms_witness :
  check (fun _ => EmptyString) flat_node (synthesize flat_node 7 100).1.1 EmptyString = []
  /\ (synthesize flat_node 7 100).2 = 95%N.
Proof.
  apply (synthesized_conforms (fun _ => EmptyString) flat_node 7 100 EmptyString).
  - split; [|split; [|by repeat constructor]]; apply (bool_decide_unpack _); vm_compute; exact I.
  - vm_compute. discriminate.
Defined.

(** A property that is required and not declared: the synthesized body misses it. *)
Lemma undeclared_required_refused rng budget show :
  (0 < budget)%N ->
  let node := Node false (Object [] ["id"%string]) in
  check_body show node (synthesize node rng budget).1.1 = [missing_required EmptyString "id"].
Proof. intros Hb. simpl. unfold synthesize. simpl. destruct (N.eqb_spec budget 0); [lia|done]. Qed.
