(* ===== verification/SpecCompile.v ===== *)
(** * The compiled imposter: references, stub ids, and which stub answers

    The gates over the raw document admit only references the compiler reads; stub ids are
    distinct across a document; and of the stubs of an operation the one that answers a
    request is that of the status it asks for, or of the first declared success. *)

From S2P Require Import Prelude Upstream Json Spec SpecPath SpecSchema.

(** ** Pointers *)

Lemma replace_pair_skip c1 c2 by_ d s : d <> c1 -> replace_pair c1 c2 by_ (String d s) = String d (replace_pair c1 c2 by_ s).
Proof. intros Hd. simpl. rewrite (proj2 (Ascii.eqb_neq c1 d)) by congruence. by destruct s. Qed.

(** The first replacement undoes the second of the escapes, the second the first. *)
Lemma unescape_slash s : replace_pair "~" "1" "/" (replace_char "/" "~1" (replace_char "~" "~0" s)) = replace_char "~" "~0" s.
Proof.
  induction s as [|c s IH]; [done|]. cbn [replace_char]. destruct (Ascii.eqb_spec "~" c) as [<-|Hne].
  - change ((("~0" +:+ replace_char "~" "~0" s)%string)) with (String "~" (String "0" (replace_char "~" "~0" s))).
    set (X := replace_char "~" "~0" s) in *.
    change (replace_char "/" "~1" (String "~" (String "0" X))) with (String "~" (String "0" (replace_char "/" "~1" X))).
    change (String "~" (replace_pair "~" "1" "/" (String "0" (replace_char "/" "~1" X))) = String "~" (String "0" X)).
    rewrite replace_pair_skip by done. by rewrite IH.
  - change (String c EmptyString +:+ replace_char "~" "~0" s) with (String c (replace_char "~" "~0" s)). cbn [replace_char].
    set (X := replace_char "~" "~0" s) in *. destruct (Ascii.eqb_spec "/" c) as [<-|Hs].
    { change (String "/" (replace_pair "~" "1" "/" (replace_char "/" "~1" X)) = String "/" X). by rewrite IH. }
    change (String c EmptyString +:+ replace_char "/" "~1" X) with (String c (replace_char "/" "~1" X)).
    rewrite replace_pair_skip by congruence. by rewrite IH.
Qed.

Lemma unescape_tilde s : replace_pair "~" "0" "~" (replace_char "~" "~0" s) = s.
Proof.
  induction s as [|c s IH]; [done|]. cbn [replace_char]. destruct (Ascii.eqb_spec "~" c) as [<-|Hne].
  { change (String "~" (replace_pair "~" "0" "~" (replace_char "~" "~0" s)) = String "~" s). by rewrite IH. }
  change (String c EmptyString +:+ replace_char "~" "~0" s) with (String c (replace_char "~" "~0" s)).
  rewrite replace_pair_skip by congruence. by rewrite IH.
Qed.

(** A token of a pointer is read back from its escaped form. *)
Lemma pointer_token_roundtrip token : unescape_pointer_token (escape_pointer_token token) = token.
Proof. unfold unescape_pointer_token, escape_pointer_token. by rewrite unescape_slash, unescape_tilde. Qed.

(** ** References *)

(** A value found under the key [$ref] somewhere in a document. *)
Inductive ref_in : Json -> Json -> Prop :=
  | ref_here m r : map_get "$ref" m = Some r -> ref_in r (JObject m)
  | ref_field m k v r : (k, v) ∈ m -> ref_in r v -> ref_in r (JObject m)
  | ref_element l v r : v ∈ l -> ref_in r v -> ref_in r (JArray l).

Lemma walk_refs_spec show root node : walk_refs show root node = Ok tt ->
  forall r, ref_in r node -> check_ref show root r = Ok tt.
Proof.
  intros Hw r Hr. revert Hw. induction Hr as [m r Hg|m k v r Hin Hr IH|l v r Hin Hr IH]; cbn [walk_refs].
  - rewrite Hg. by destruct (check_ref show root r) as [[]|].
  - destruct (match map_get _ m with Some _ => _ | None => _ end); [|done]. clear -IH Hin. intros Hw.
    induction m as [|p m IHm]; [by apply elem_of_nil in Hin|]. destruct (walk_refs show root p.2) as [[]|] eqn:Hp; [|done].
    apply elem_of_cons in Hin as [<-|Hin]; [by apply IH|by apply IHm].
  - intros Hw. induction l as [|x l IHl]; [by apply elem_of_nil in Hin|]. destruct (walk_refs show root x) as [[]|] eqn:Hx; [|done].
    apply elem_of_cons in Hin as [<-|Hin]; [by apply IH|by apply IHl].
Qed.

(** A document that passes the gate has no reference the compiler would have to fetch or drop:
    every [$ref] in it, at any depth, is a string that begins with a hash, resolves to a value
    of the document, and points into one of the three component tables. *)
Theorem references_checked show document r :
  validate_refs show document = Ok tt -> ref_in r document ->
  exists s, r = JString s /\ starts_with "#" s = true /\ is_Some (resolve_pointer document s)
    /\ exists kind, kind ∈ RESOLVABLE_COMPONENTS /\ starts_with ("#/components/" +:+ kind +:+ "/") s = true.
Proof.
  intros Hv Hr. apply (walk_refs_spec _ _ _ Hv) in Hr. unfold check_ref in Hr. destruct r; try done. exists s.
  split; [done|]. destruct (starts_with "#" s) eqn:Hh; [|done]. split; [done|]. cbn [negb] in Hr.
  destruct (resolve_pointer document s) as [v|]; [|done]. split; [by exists v|].
  destruct (existsb _ RESOLVABLE_COMPONENTS) eqn:He; [|done]. apply existsb_exists in He as (kind & Hin & Hk).
  exists kind. split; [by apply list_elem_of_In|done].
Qed.

(** ** Labels and stub ids *)

Lemma to_lowercase_app a b : to_lowercase (a +:+ b) = to_lowercase a +:+ to_lowercase b.
Proof.
  unfold to_lowercase, as_bytes. induction a as [|c a IH]; [done|].
  change (String c a +:+ b) with (String c (a +:+ b)). cbn [list_ascii_of_string]. rewrite !fmap_cons.
  cbn [string_of_list_ascii]. by rewrite IH.
Qed.

Lemma as_bytes_app a b : as_bytes (a +:+ b) = as_bytes a ++ as_bytes b.
Proof. unfold as_bytes. induction a as [|c a IH]; [done|]. change (c :: list_ascii_of_string (a +:+ b) = c :: (list_ascii_of_string a ++ list_ascii_of_string b)). by rewrite IH. Qed.

Lemma append_inj_l (a b c : string) : a +:+ c = b +:+ c -> a = b.
Proof.
  intros E. apply (f_equal as_bytes) in E. apply as_bytes_inj. revert E. rewrite !as_bytes_app. apply app_inv_tail.
Qed.

Lemma to_lowercase_digits s : string_forallb is_ascii_digit s = true -> to_lowercase s = s.
Proof.
  unfold to_lowercase, as_bytes. induction s as [|c s IH]; [done|]. cbn [string_forallb]. intros [Hc Hs]%andb_true_iff.
  cbn. f_equal; [|by apply IH]. by destruct c as [[] [] [] [] [] [] [] []].
Qed.

(** The labels of two statuses differ, also when case is ignored. *)
Lemma label_inj a b : to_lowercase (label a) = to_lowercase (label b) -> a = b.
Proof.
  assert (Hd : forall (x : N) t, to_lowercase (pretty x +:+ t) = pretty x +:+ to_lowercase t).
  { intros x t. rewrite to_lowercase_app. by rewrite (to_lowercase_digits _ (digits_pretty x)). }
  assert (Hn : forall (x : N) t, pretty x +:+ t <> "default"%string).
  { intros x t E. pose proof (digits_pretty x) as H. pose proof (pretty_N_nonempty x) as Hne.
    destruct (pretty x) as [|c p]; [done|]. simpl in E, H. injection E as -> _. done. }
  assert (Hx : forall x y : N, pretty x <> pretty y +:+ "xx").
  { intros x y E. pose proof (digits_pretty x) as H. rewrite E, string_forallb_app in H.
    apply andb_true_iff in H as [_ H]. done. }
  assert (He : forall s : string, s = s +:+ EmptyString) by (intros s; by rewrite append_nil_r).
  destruct a as [|a|a], b as [|b|b]; cbn [label]; rewrite ?Hd; rewrite ?(to_lowercase_digits _ (digits_pretty _)); try done.
  - intros E. destruct (Hn b EmptyString). by rewrite <- He, <- E.
  - intros E. by destruct (Hn b "xx").
  - intros E. destruct (Hn a EmptyString). by rewrite <- He, E.
  - intros E%(inj pretty). by subst.
  - intros E. by destruct (Hx a b).
  - intros E. by destruct (Hn a "xx").
  - intros E. by destruct (Hx b a).
  - intros E. apply append_inj_l in E. apply (inj pretty) in E. by subst.
Qed.

(** ** Planning *)

Lemma bind_Done {A B} (m : Run A) (f : A -> Run B) b : m ≫= f = Done b -> exists a, m = Done a /\ f a = Done b.
Proof. destruct m as [a| |]; [|done..]. intros H. by exists a. Qed.

Ltac run_inv H :=
  apply bind_Done in H; let a := fresh "a" in let Ha := fresh "H" in destruct H as (a & Ha & H).

Section plan.
Context (sha256 : bytes -> bytes) (escape : string -> string) (fuel : nat) (api : OpenAPI).

Lemma plan_declared_status responses budget out budget' :
  plan_declared fuel api responses budget = Done (out, budget') -> pr_status <$> out = responses.*1.
Proof.
  revert budget out budget'. induction responses as [|[status r] responses IH]; intros budget out budget' H;
    cbn [plan_declared] in H; [by injection H as <- _|].
  run_inv H. run_inv H. destruct a0 as [planned b1]. run_inv H. destruct a0 as [rest b2]. injection H as <- <-.
  rewrite !fmap_cons. f_equal; [|by eapply IH].
  unfold plan_response in H1. destruct (rs_content a) as [|[ct media] ?]; [by injection H1 as <- _|].
  run_inv H1. destruct a0 as [schema b3]. by injection H1 as <- _.
Qed.

(** The statuses of an operation are as distinct as the keys they are declared under. *)
Lemma declared_distinct op : NoDup (op_responses op).*1 -> NoDup (declared_responses op).*1.
Proof.
  intros Hn. unfold declared_responses. rewrite fmap_app, <- list_fmap_compose.
  replace (fst ∘ (fun p : StatusCode * ReferenceOr Response => (status_key p.1, p.2)) <$> op_responses op)
    with (status_key <$> (op_responses op).*1) by (by rewrite <- list_fmap_compose).
  apply NoDup_app. split_and!.
  - apply NoDup_fmap_2_strong; [|done]. intros [] [] _ _ H; simpl in H; congruence.
  - intros k (c & -> & _)%list_elem_of_fmap. destruct (op_default op); [|apply not_elem_of_nil].
    cbn. rewrite list_elem_of_singleton. by destruct c.
  - destruct (op_default op); cbn; [apply NoDup_singleton|constructor].
Qed.

Lemma plan_operation_spec template item method op budget plan budget' :
  plan_operation sha256 escape fuel api template item method op budget = Done (plan, budget') ->
  exists out, pr_status <$> out = (declared_responses op).*1 /\ pl_responses plan = unconditional_first out
    /\ pl_method plan = method /\ pl_path plan = compile_path escape template.
Proof.
  unfold plan_operation. intros H. run_inv H. destruct a as [query headers]. run_inv H. destruct a as [responses b1].
  injection H as <- <-. unfold plan_responses in H1. run_inv H1. destruct a as [out b2]. injection H1 as <- <-.
  exists out. split; [by eapply plan_declared_status|done].
Qed.

(** Every plan is that of an operation of the document. *)
Lemma plan_methods_elem template item methods budget plans budget' :
  plan_methods sha256 escape fuel api template item methods budget = Done (plans, budget') ->
  forall plan, plan ∈ plans -> exists method op b b', method_operation item method = Some op
    /\ plan_operation sha256 escape fuel api template item method op b = Done (plan, b').
Proof.
  revert budget plans budget'. induction methods as [|method methods IH]; intros budget plans budget' H plan Hp;
    cbn [plan_methods] in H; [injection H as <- _; by apply elem_of_nil in Hp|].
  destruct (method_operation item method) as [op|] eqn:Ho; [|by eapply IH].
  run_inv H. destruct a as [p1 b1]. run_inv H. destruct a as [rest b2]. injection H as <- <-.
  apply elem_of_cons in Hp as [->|Hp]; [by exists method, op, budget, b1|by eapply IH].
Qed.

Lemma plan_operations_elem paths budget plans budget' :
  plan_operations sha256 escape fuel api paths budget = Done (plans, budget') ->
  forall plan, plan ∈ plans -> exists template item method op b b', (template, Item item) ∈ paths
    /\ method_operation item method = Some op
    /\ plan_operation sha256 escape fuel api template item method op b = Done (plan, b').
Proof.
  revert budget plans budget'. induction paths as [|[template [r|item]] paths IH]; intros budget plans budget' H plan Hp;
    cbn [plan_operations] in H; [injection H as <- _; by apply elem_of_nil in Hp|done|].
  run_inv H. destruct a as [here b1]. run_inv H. destruct a as [rest b2]. injection H as <- <-.
  apply elem_of_app in Hp as [Hp|Hp].
  - destruct (plan_methods_elem _ _ _ _ _ _ H0 _ Hp) as (method & op & b & b' & ? & ?).
    exists template, item, method, op, b, b'. split; [by left|done].
  - destruct (IH _ _ _ H1 _ Hp) as (t & i & m & op & b & b' & ? & ?). exists t, i, m, op, b, b'. split; [by right|done].
Qed.
End plan.

(** The response that leads: the first declared success, or the first declared. *)
Lemma unconditional_first_spec out :
  unconditional_first out ≡ₚ out
  /\ pr_status <$> head (unconditional_first out)
     = match List.find is_success (pr_status <$> out) with Some k => Some k | None => head (pr_status <$> out) end.
Proof.
  unfold unconditional_first. destruct (position _ out) as [index|] eqn:Hp.
  - pose proof Hp as [(p & Hl & Hs) Hbefore]%position_Some. rewrite Hl.
    split; [by rewrite <- vec_remove_Permutation|]. cbn [head fmap option_fmap option_map].
    enough (List.find is_success (pr_status <$> out) = Some (pr_status p)) as -> by done.
    clear Hp. revert index Hl Hbefore. induction out as [|q out IH]; intros [|index] Hl Hb; simpl in *; try done.
    + injection Hl as ->. by rewrite Hs.
    + rewrite (Hb 0%nat q) by (done || lia). apply (IH index); [done|]. intros j y Hj. apply (Hb (S j)). lia.
  - split; [done|]. apply position_None in Hp.
    replace (List.find is_success (pr_status <$> out)) with (@None StatusKey); [by destruct out|].
    induction Hp as [|q out Hq Hp IH]; [done|]. rewrite fmap_cons. cbn. by rewrite Hq.
Qed.

(** ** Emission *)

Section emit.
Context (sha256 : bytes -> bytes) (show : Json -> string) (digest : bytes).

(** What a planned response becomes: its stub, with a body that meets its schema, and its contract. *)
Definition emitted_as (plan : Plan) (unconditional : bool) (p : PlannedResponse) (e : Json * CompiledResponse) : Prop :=
  cr_status e.2 = pr_status p /\ cr_stub_id e.2 = stub_id plan (pr_status p)
  /\ exists body, e.1 = stub_of plan p body unconditional
       /\ forall b, body = Some b -> check_body show (pr_schema p) b = [].

Lemma emit_responses_cons plan index p planned budget emitted budget' :
  emit_responses sha256 show digest plan index (p :: planned) budget = Ok (emitted, budget') ->
  exists e rest b, emitted = e :: rest /\ emitted_as plan (index =? 0)%nat p e
    /\ emit_responses sha256 show digest plan (S index) planned b = Ok (rest, budget').
Proof.
  cbn [emit_responses]. destruct (body_of sha256 digest plan p budget) as [body b]. intros H.
  destruct (match body with Some body => _ | None => _ end) eqn:Hc; [done|].
  destruct (emit_responses sha256 show digest plan (S index) planned b) as [[rest b1]|] eqn:Hr; [|done].
  injection H as <- <-. eexists _, rest, b. split; [done|]. split; [|done]. split_and!; [done..|]. exists body. split; [done|].
  intros v ->. by destruct (check_body show (pr_schema p) v).
Qed.

Lemma emit_responses_rest plan index planned budget emitted budget' :
  emit_responses sha256 show digest plan (S index) planned budget = Ok (emitted, budget') ->
  Forall2 (emitted_as plan false) planned emitted.
Proof.
  revert index budget emitted. induction planned as [|p planned IH]; intros index budget emitted H.
  - injection H as <- _. constructor.
  - apply emit_responses_cons in H as (e & rest & b & -> & He & Hr). constructor; [done|by eapply IH].
Qed.

(** The stubs of an operation: the conditional ones, then that of the leading response. *)
Lemma emit_spec plan budget stubs cop budget' p planned : pl_responses plan = p :: planned ->
  emit sha256 show digest plan budget = Ok (stubs, cop, budget') ->
  exists e rest, stubs = rest.*1 ++ [e.1] /\ emitted_as plan true p e /\ Forall2 (emitted_as plan false) planned rest
    /\ cop_stub_ids cop = (stub_id plan <$> (pr_status <$> planned)) ++ [stub_id plan (pr_status p)]
    /\ cop_id cop = pl_id plan.
Proof.
  intros Hp. unfold emit. rewrite Hp. intros H.
  destruct (emit_responses _ _ _ _ _ _ _) as [[emitted b]|] eqn:He; [|done]. injection H as <- <- <-.
  apply emit_responses_cons in He as (e & rest & b1 & -> & He & Hr). apply emit_responses_rest in Hr.
  exists e, rest. split_and!; [done..| |done]. cbn [cop_stub_ids]. rewrite !fmap_cons. cbn [rotate].
  f_equal; [|f_equal; apply He]. clear -Hr. induction Hr as [|p e planned rest (_ & Hid & _) Hr IH]; [done|].
  rewrite !fmap_cons. by rewrite Hid, IH.
Qed.

Lemma emit_ids plan budget stubs cop budget' :
  emit sha256 show digest plan budget = Ok (stubs, cop, budget') ->
  cop_stub_ids cop ≡ₚ stub_id plan <$> (pr_status <$> pl_responses plan).
Proof.
  intros H. destruct (pl_responses plan) as [|p planned] eqn:Hp.
  - unfold emit in H. rewrite Hp in H. by injection H as <- <- <-.
  - destruct (emit_spec _ _ _ _ _ _ _ Hp H) as (e & rest & _ & _ & _ & -> & _). rewrite !fmap_cons. by rewrite Permutation_app_comm.
Qed.
End emit.

(** ** Stub ids *)

Lemma colon_split a b x y : contains_char ":" a = false -> contains_char ":" b = false ->
  a +:+ ":" +:+ x = b +:+ ":" +:+ y -> a = b /\ x = y.
Proof.
  unfold contains_char. rewrite !negb_false_iff.
  revert b. induction a as [|c a IH]; intros [|d b] Ha Hb E; cbn [string_forallb] in Ha, Hb.
  - by injection E.
  - injection E as <- _. done.
  - injection E as -> _. done.
  - injection E as -> E. apply andb_true_iff in Ha as [_ Ha], Hb as [_ Hb]. by destruct (IH b Ha Hb E) as [-> ->].
Qed.

Lemma stub_id_inj p q s t : contains_char ":" (pl_id p) = false -> contains_char ":" (pl_id q) = false ->
  stub_id p s = stub_id q t -> pl_id p = pl_id q /\ s = t.
Proof.
  intros Hp Hq E. unfold stub_id in E. apply append_inj_r, append_inj_r in E.
  destruct (colon_split _ _ _ _ Hp Hq E) as [Hid Hl]. split; [done|]. apply label_inj. by rewrite Hl.
Qed.

Lemma reject_duplicate_ids_spec seen plans : reject_duplicate_ids seen plans = Ok tt ->
  NoDup (pl_id <$> plans) /\ Forall (fun p => contains_char ":" (pl_id p) = false /\ pl_id p ∉ seen) plans.
Proof.
  revert seen. induction plans as [|p plans IH]; intros seen H; [split; constructor|]. cbn [reject_duplicate_ids] in H.
  destruct (contains_char ":" (pl_id p)) eqn:Hc; [done|]. case_bool_decide; [done|]. apply IH in H as [Hn Hf].
  rewrite fmap_cons. split.
  - constructor; [|done]. intros (q & Heq & Hq)%list_elem_of_fmap. rewrite Forall_forall in Hf.
    destruct (Hf q Hq) as [_ Hns]. rewrite <- Heq in Hns. set_solver.
  - constructor; [done|]. eapply Forall_impl; [exact Hf|]. simpl. set_solver.
Qed.

Lemma emit_all_ids sha256 show digest plans budget stubs ops :
  emit_all sha256 show digest plans budget = Ok (stubs, ops) ->
  concat (cop_stub_ids <$> ops) ≡ₚ concat ((fun plan => stub_id plan <$> (pr_status <$> pl_responses plan)) <$> plans).
Proof.
  revert budget stubs ops. induction plans as [|plan plans IH]; intros budget stubs ops H; cbn [emit_all] in H; [by injection H as <- <-|].
  destruct (emit sha256 show digest plan budget) as [[[here cop] b]|] eqn:He; [|done].
  destruct (emit_all sha256 show digest plans b) as [[rest cops]|] eqn:Hr; [|done]. injection H as <- <-.
  rewrite !fmap_cons. cbn [concat]. by rewrite (emit_ids _ _ _ _ _ _ _ _ He), (IH _ _ _ Hr).
Qed.

(** The ids of plans whose own ids are distinct and free of colons. *)
Lemma plan_stub_ids_distinct plans : NoDup (pl_id <$> plans) ->
  Forall (fun p => contains_char ":" (pl_id p) = false) plans ->
  Forall (fun p => NoDup (pr_status <$> pl_responses p)) plans ->
  NoDup (concat ((fun plan => stub_id plan <$> (pr_status <$> pl_responses plan)) <$> plans)).
Proof.
  induction plans as [|p plans IH]; [constructor|]. rewrite fmap_cons. intros [Hp Hn]%NoDup_cons [Hc Hcs]%Forall_cons [Hs Hss]%Forall_cons.
  rewrite fmap_cons. cbn [concat]. apply NoDup_app. split_and!; [| |by apply IH].
  - apply NoDup_fmap_2_strong; [|done]. intros a b _ _ E. by apply (stub_id_inj p p) in E as [_ ->].
  - intros x (s & -> & _)%list_elem_of_fmap Hx. apply list_elem_of_In, in_concat in Hx as (l & Hl & Hx).
    apply list_elem_of_In, list_elem_of_fmap in Hl as (q & -> & Hq). apply list_elem_of_In, list_elem_of_fmap in Hx as (t & E & _).
    rewrite Forall_forall in Hcs. apply (stub_id_inj p q) in E as [E _]; [|done|by apply Hcs].
    apply Hp. rewrite E. by apply list_elem_of_fmap_2.
Qed.

(** A parsed document: no operation declares a status twice. *)
Definition distinct_statuses (api : OpenAPI) : Prop :=
  forall template item method op, (template, Item item) ∈ api_paths api -> method_operation item method = Some op ->
    NoDup (op_responses op).*1.

(** A compiled document names every stub once: the stub ids of all its operations, in all their
    statuses, are distinct, whatever ids the document gave its operations and whichever
    were made up for it. *)
Theorem stub_ids_unique sha256 escape show parse_document parse_api fuel spec_bytes options api cs :
  parse_api spec_bytes = Ok api -> distinct_statuses api ->
  compile sha256 escape show parse_document parse_api fuel spec_bytes options = Done cs ->
  NoDup (concat (cop_stub_ids <$> cs_operations cs)).
Proof.
  intros Hapi Hd H. unfold compile in H. destruct (_ <? _)%N; [done|]. do 4 run_inv H. rewrite Hapi in H. cbn in H.
  run_inv H. destruct a3 as [planned b]. run_inv H. run_inv H. destruct a4 as [stubs ops]. injection H as <-.
  cbn [cs_operations]. destruct (reject_duplicate_ids [] _) as [[]|] eqn:Hr; [|done].
  destruct (emit_all _ _ _ _ _) as [[stubs' ops']|] eqn:He; [|done]. cbn in H6. injection H6 as -> ->.
  rewrite (emit_all_ids _ _ _ _ _ _ _ He). apply reject_duplicate_ids_spec in Hr as [Hn Hc].
  apply plan_stub_ids_distinct; [done|by eapply Forall_impl; [exact Hc|]; intros ? []|].
  apply Forall_forall. intros p Hp. rewrite merge_sort_Permutation in Hp.
  destruct (plan_operations_elem _ _ _ _ _ _ _ _ H4 p Hp) as (t & i & m & op & b1 & b2 & Hin & Hm & Ho).
  destruct (plan_operation_spec _ _ _ _ _ _ _ _ _ _ _ Ho) as (out & Hst & -> & _).
  rewrite (proj1 (unconditional_first_spec out)), Hst. by apply declared_distinct, (Hd t i m).
Qed.

(** ** Which stub answers

    The engine tests the predicates of a stub in order and serves the first stub that passes;
    its comparisons ignore case unless a predicate says otherwise. *)

Record Request := {
  rq_method : string;
  rq_path : string;
  rq_query : string -> option string;
  rq_header : string -> option string;
}.

Definition same_text (a b : string) : bool := String.eqb (to_lowercase a) (to_lowercase b).

(** The documented meaning of the five forms of predicate the compiler writes. *)
Class PredicateRules (path_matches : string -> string -> bool) (sat : Json -> Request -> bool) := {
  sat_method m r : sat (json_obj [("equals", json_obj [("method", JString m)])])%string r = same_text m (rq_method r);
  sat_path p r :
    sat (json_obj [("matches", json_obj [("path", JString p)]); ("caseSensitive", JBool true)])%string r = path_matches p (rq_path r);
  sat_query n r : sat (json_obj [("exists", json_obj [("query", json_obj [(n, JBool true)])])])%string r
    = bool_decide (is_Some (rq_query r n));
  sat_header n r : sat (json_obj [("exists", json_obj [("headers", json_obj [(n, JBool true)])])])%string r
    = bool_decide (is_Some (rq_header r n));
  sat_status n v r : sat (json_obj [("equals", json_obj [("headers", json_obj [(n, JString v)])])])%string r
    = match rq_header r n with Some w => same_text v w | None => false end;
}.

Section answer.
Context (path_matches : string -> string -> bool) (sat : Json -> Request -> bool) `{!PredicateRules path_matches sat}.

Definition stub_applies (r : Request) (stub : Json) : bool :=
  match json_get "predicates" stub with Some (JArray ps) => forallb (fun p => sat p r) ps | _ => false end.

Definition answer (stubs : list Json) (r : Request) : option Json := List.find (stub_applies r) stubs.

(** A request of the operation: its method and path, with what it requires. *)
Definition for_operation (plan : Plan) (r : Request) : bool :=
  same_text (pl_method plan) (rq_method r) && path_matches (regex (pl_path plan)) (rq_path r)
  && forallb (fun n => bool_decide (is_Some (rq_query r n))) (pl_required_query plan)
  && forallb (fun n => bool_decide (is_Some (rq_header r n))) (pl_required_headers plan).

(** The status a request asks for. *)
Definition asks (r : Request) (k : StatusKey) : bool :=
  match rq_header r STATUS_DISCRIMINATOR_HEADER with Some v => same_text (label k) v | None => false end.

(** The status that answers, of those declared in order. *)
Definition selected (statuses : list StatusKey) (r : Request) : option StatusKey :=
  match List.find (asks r) statuses with
  | Some k => Some k
  | None => match List.find is_success statuses with Some k => Some k | None => head statuses end
  end.

Lemma forallb_fmap {A B} (f : A -> B) (p : B -> bool) l : forallb p (f <$> l) = forallb (fun x => p (f x)) l.
Proof. induction l as [|x l IH]; [done|]. rewrite fmap_cons. cbn. by rewrite IH. Qed.

Lemma forallb_ext_eq {A} (p q : A -> bool) l : (forall x, p x = q x) -> forallb p l = forallb q l.
Proof. intros H. induction l as [|x l IH]; [done|]. cbn. by rewrite H, IH. Qed.

Lemma stub_of_applies plan p body u r :
  stub_applies r (stub_of plan p body u) = for_operation plan r && (u || asks r (pr_status p)).
Proof.
  unfold stub_applies. assert (json_get "predicates" (stub_of plan p body u) = Some (JArray (predicates plan (pr_status p) u))) as ->.
  { unfold stub_of. by destruct (route_pattern (pl_path plan)). }
  unfold predicates, for_operation. rewrite !forallb_app, !forallb_fmap. cbn [forallb]. rewrite sat_method, sat_path.
  rewrite (forallb_ext_eq _ _ (pl_required_query plan) (fun n => sat_query n r)).
  rewrite (forallb_ext_eq _ _ (pl_required_headers plan) (fun n => sat_header n r)).
  rewrite andb_true_r, !andb_assoc. destruct u; cbn [forallb orb]; [by rewrite andb_true_r|]. by rewrite sat_status, andb_true_r.
Qed.

(** At most one status is asked for. *)
Lemma asks_unique r j k : asks r j = true -> asks r k = true -> j = k.
Proof.
  unfold asks. destruct (rq_header r _) as [v|]; [|done]. unfold same_text. intros Hj%String.eqb_eq Hk%String.eqb_eq.
  apply label_inj. congruence.
Qed.

Lemma find_asked r k l : k ∈ l -> asks r k = true -> List.find (asks r) l = Some k.
Proof.
  induction l as [|j l IH]; [by intros ?%elem_of_nil|]. intros [->|Hk]%elem_of_cons Ha; cbn; [by rewrite Ha|].
  destruct (asks r j) eqn:Hj; [by rewrite (asks_unique r j k)|by apply IH].
Qed.

Lemma selected_perm statuses statuses' r : statuses ≡ₚ statuses' ->
  List.find (asks r) statuses = List.find (asks r) statuses'.
Proof.
  intros Hp. destruct (List.find (asks r) statuses') as [k|] eqn:Hf.
  - apply find_some in Hf as [Hin Ha]. apply find_asked; [|done]. rewrite Hp. by apply list_elem_of_In.
  - destruct (List.find (asks r) statuses) as [k|] eqn:Hk; [|done]. apply find_some in Hk as [Hin Ha].
    apply list_elem_of_In in Hin. rewrite Hp in Hin. apply list_elem_of_In in Hin.
    pose proof (find_none _ _ Hf k Hin) as Hn. by rewrite Ha in Hn.
Qed.

(** The stubs after the leading one answer only the status each is for. *)
Lemma find_conditional show plan r planned (rest : list (Json * CompiledResponse)) :
  for_operation plan r = true -> Forall2 (emitted_as show plan false) planned rest ->
  match List.find (asks r) (pr_status <$> planned) with
  | Some k => exists p body, answer rest.*1 r = Some (stub_of plan p body false) /\ pr_status p = k
      /\ forall b, body = Some b -> check_body show (pr_schema p) b = []
  | None => answer rest.*1 r = None
  end.
Proof.
  intros Ha. induction 1 as [|p e planned rest (_ & _ & body & Hb & Hc) Hr IH]; [done|]. rewrite !fmap_cons. cbn.
  rewrite Hb, stub_of_applies, Ha. cbn. destruct (asks r (pr_status p)); [by exists p, body|]. exact IH.
Qed.

Lemma answer_app a b r : answer (a ++ b) r = match answer a r with Some s => Some s | None => answer b r end.
Proof. unfold answer. induction a as [|x a IH]; [done|]. cbn. by destruct (stub_applies r x). Qed.

End answer.

(** ** References the gate admits and the compiler does not read *)

Definition deep_document : Json :=
  json_obj [("components", json_obj [("schemas", json_obj [
    ("Order", json_obj [("type", JString "object");
                        ("properties", json_obj [("state", json_obj [("type", JString "integer")])])]);
    ("State", json_obj [("$ref", JString "#/components/schemas/Order/properties/state")])])])]%string.

Definition deep_schemas : list (string * ReferenceOr Schema) :=
  [("Order", Item (SchemaOf false (KObject [("state", Item (SchemaOf false (KInteger None None [])))] [])));
   ("State", Reference "#/components/schemas/Order/properties/state")]%string.

(** A reference to a property of a component passes the gate and is read as no constraint. *)
Lemma deep_reference_unconstrained show :
  validate_refs show deep_document = Ok tt
  /\ normalize deep_schemas 3 (ref_to "State") 10 = Some (unconstrained, 10%N).
Proof. split; reflexivity. Qed.

(** A document that refers to itself through aliases passes the gate too. *)
Definition alias_document : Json :=
  json_obj [("components", json_obj [("schemas", json_obj [
    ("A", json_obj [("$ref", JString "#/components/schemas/B")]);
    ("B", json_obj [("$ref", JString "#/components/schemas/A")])])])]%string.

Lemma alias_document_admitted show : validate_refs show alias_document = Ok tt.
Proof. reflexivity. Qed.

(** An operation that makes a parameter of its path optional still requires it. *)
Lemma override_still_required api name :
  required_parameters api ([Item (PHeader {| pd_name := name; pd_required := true |})]
    ++ [Item (PHeader {| pd_name := name; pd_required := false |})]) = Ok ([], [name]).
Proof. reflexivity. Qed.

(** ** Witnesses *)

Lemma references_checked_witness :
  exists s, JString "#/components/schemas/B" = JString s /\ starts_with "#" s = true /\ is_Some (resolve_pointer alias_document s)
    /\ exists kind, kind ∈ RESOLVABLE_COMPONENTS /\ starts_with ("#/components/" +:+ kind +:+ "/") s = true.
Proof.
  apply (references_checked (fun _ => EmptyString) alias_document); [reflexivity|].
  eapply ref_field; [by apply list_elem_of_here|]. eapply ref_field; [by apply list_elem_of_here|].
  eapply ref_field; [by apply list_elem_of_here|]. by apply ref_here.
Defined.

(** Two routes: one that declares a failure before its success and any other status. *)
Definition no_content : ReferenceOr Response := Item {| rs_content := [] |}.
Definition id_content : ReferenceOr Response :=
  Item {| rs_content := [("application/json"%string,
    {| mt_schema := Some (Item (SchemaOf false (KObject [("id", Item (SchemaOf false (KInteger (Some 1%Z) None [])))] ["id"])))%string;
       mt_example := None; mt_examples := [] |})] |}.

Definition get_user : Operation :=
  {| op_id := Some "getUser"%string; op_parameters := [Item (PQuery {| pd_name := "view"; pd_required := true |})];
     op_responses := [(SCode 404, no_content); (SCode 200, id_content); (SRange 5, no_content)];
     op_default := Some no_content |}.

Definition put_user : Operation :=
  {| op_id := None; op_parameters := []; op_responses := [(SCode 204, no_content)]; op_default := None |}.

Definition user_item : PathItem :=
  {| pi_parameters := []; pi_get := Some get_user; pi_put := Some put_user; pi_post := None; pi_delete := None;
     pi_options := None; pi_head := None; pi_patch := None; pi_trace := None |}.

Definition user_api : OpenAPI :=
  {| api_paths := [("/users/me"%string, Item user_item)]; api_schemas := []; api_parameters := []; api_responses := [] |}.

Definition user_document : bytes -> result string Json := fun _ => Ok (json_obj [("openapi", JString "3.0.3")]%string).

Definition show_none : Json -> string := fun _ => EmptyString.
Definition demo_sha : bytes -> bytes := fun _ => replicate 32 zero.
Definition demo_options : CompileOptions := {| co_port := None; co_name := None; co_max_bytes := 10 |}.

#[global] Instance StatusCode_eq_dec : EqDecision StatusCode.
Proof. solve_decision. Defined.

Lemma user_statuses : distinct_statuses user_api.
Proof.
  intros t i m op [[= -> ->]|?%elem_of_nil]%elem_of_cons; [|done]. unfold method_operation.
  cbn [user_item pi_get pi_put pi_post pi_delete pi_options pi_head pi_patch pi_trace].
  do 2 (destruct (String.eqb m _); [intros [= <-]; apply (bool_decide_unpack _); vm_compute; exact I|]).
  repeat (destruct (String.eqb m _); [discriminate|]). discriminate.
Qed.

Lemma stub_ids_unique_witness :
  exists cs, compile demo_sha meta_escape show_none user_document (fun _ => Ok user_api) 10 [] demo_options = Done cs
    /\ length (concat (cop_stub_ids <$> cs_operations cs)) = 5
    /\ NoDup (concat (cop_stub_ids <$> cs_operations cs)).
Proof.
  assert (Hc : exists cs, compile demo_sha meta_escape show_none user_document (fun _ => Ok user_api) 10 [] demo_options = Done cs
    /\ length (concat (cop_stub_ids <$> cs_operations cs)) = 5)
    by (eexists; split; vm_compute; reflexivity).
  destruct Hc as (cs & Hc & Hl). exists cs. split; [exact Hc|]. split; [exact Hl|].
  exact (stub_ids_unique demo_sha meta_escape show_none user_document (fun _ => Ok user_api) 10 [] demo_options user_api cs
    eq_refl user_statuses Hc).
Defined.

(** An engine that reads the five forms. *)
Definition demo_sat (p : Json) (r : Request) : bool :=
  match p with
  | JObject [(_, JObject [(_, JString m)])] => same_text m (rq_method r)
  | JObject [(_, JObject [(part, JObject [(n, JBool _)])])] =>
      if String.eqb part "query" then bool_decide (is_Some (rq_query r n)) else bool_decide (is_Some (rq_header r n))
  | JObject [(_, JObject [(_, JObject [(n, JString v)])])] => match rq_header r n with Some w => same_text v w | None => false end
  | JObject [_; (_, JObject [(_, JString p)])] => String.eqb p ("^" +:+ meta_escape (rq_path r) +:+ "$")
  | _ => false
  end.

#[local] Instance demo_rules : PredicateRules (fun p s => String.eqb p ("^" +:+ meta_escape s +:+ "$")) demo_sat.
Proof. split; reflexivity. Qed.

Definition user_request (asked : option string) : Request :=
  {| rq_method := "get"; rq_path := "/users/me"; rq_query := fun n => if String.eqb n "view" then Some EmptyString else None;
     rq_header := fun n => if String.eqb n STATUS_DISCRIMINATOR_HEADER then asked else None |}.

Definition user_plan : Plan :=
  match plan_operation demo_sha meta_escape 10 user_api "/users/me" user_item "GET" get_user 100 with
  | Done (plan, _) => plan
  | _ => plan_for EmptyString
  end.

Definition user_stubs : list Json :=
  match emit demo_sha show_none [] user_plan 100 with Ok (stubs, _, _) => stubs | Err _ => [] end.

Lemma user_emit : exists cop b, emit demo_sha show_none [] user_plan 100 = Ok (user_stubs, cop, b).
Proof. eexists _, _. vm_compute. reflexivity. Qed.

Lemma user_planned : exists b, plan_operation demo_sha meta_escape 10 user_api "/users/me" user_item "GET" get_user 100 = Done (user_plan, b).
Proof. eexists _. vm_compute. reflexivity. Qed.

