(* ===== verification/Routing.v ===== *)
(** * The admin front's reading of a request

    Which routes [admin_front.rs] answers itself, how it reads a path, a query parameter, a
    stub index and an [If-Match] token, and the tokens it hands out. A path is what the URI
    parser leaves of a request target, so it has no question mark in it. *)

From S2P Require Import Prelude Upstream FlowConfig Control Recorded StateMachine Auth Projection Intents Session.

(** ** Errors as the client sees them *)

Inductive ErrorKind := BadData | NoSuchResource | ResourceConflict | RequestTooLarge | Unavailable | Timeout | InternalError
  | InvalidInjection | BackendUnavailable.

Record TypedError := { te_status : N; te_kind : ErrorKind; te_message : string }.

Definition typed_error (status : N) (kind : ErrorKind) (message : string) : TypedError :=
  {| te_status := status; te_kind := kind; te_message := message |}.

Definition internal_error (message : string) : TypedError := typed_error 500 InternalError message.

Definition refusal_error (reason : string) : TypedError :=
  match refusal_response reason with
  | Conflict409 => typed_error 409 ResourceConflict reason
  | NotFound404 => typed_error 404 NoSuchResource reason
  | BadRequest400 => typed_error 400 BadData reason
  end.

(** ** Routes *)

Module Terminated.

Inductive t :=
  | Create
  | ReplaceAllImposters
  | DeleteAllImposters
  | DeleteImposter (port : N)
  | AddStub (port : N)
  | ReplaceStubs (port : N)
  | ReplaceStubAt (port : N) (index : string)
  | DeleteStubAt (port : N) (index : string)
  | ReplaceStubById (port : N) (id : string)
  | DeleteStubById (port : N) (id : string)
  | SetEnabled (port : N) (enabled : bool)
  | ClearSavedProxyResponses (port : N)
  | SpaceTeardown (port : N) (flow : string)
  | AddSpaceStub (port : N) (flow : string)
  | SpacesList (port : N)
  | TryImposter (port : N)
  | PutRoutes
  | DeleteRoute (id : string)
  | FleetNamePut
  | SpecCompile.

End Terminated.

#[global] Instance Method_eq_dec : EqDecision Method.
Proof. solve_decision. Defined.

Definition FLEET_NAME_PATH : string := "/admin/fleet/name".

Definition is_empty (s : string) : bool := String.eqb s EmptyString.

(** [path.split('?').next().unwrap_or(path)]. *)
Definition before_query (path : string) : string := default path (head (split_char "?" path)).

(** What follows either spelling of the imposters prefix. *)
Definition after_imposters (path : string) : option string :=
  match strip_prefix "/admin/imposters/" path with
  | Some rest => Some rest
  | None => strip_prefix "/imposters/" path
  end.

Definition spaces_list_target (path : string) : option N :=
  rest ← after_imposters (before_query path);
  match split_char "/" rest with
  | [port; spaces] => if String.eqb spaces "spaces" then parse_u16 port else None
  | [port; spaces; flow] => if String.eqb spaces "spaces" && is_empty flow then parse_u16 port else None
  | _ => None
  end.

Definition space_read_target (path : string) : option (N * string) :=
  rest ← after_imposters (before_query path);
  match split_char "/" rest with
  | [port; spaces; flow] =>
      if String.eqb spaces "spaces" && negb (is_empty flow) then port ← parse_u16 port; Some (port, flow) else None
  | _ => None
  end.

(** The segments after the port. *)
Definition imposter_route (method : Method) (port : N) (segments : list string) : option Terminated.t :=
  match segments with
  | [] => if decide (method = DELETE) then Some (Terminated.DeleteImposter port) else None
  | [a] =>
      if String.eqb a "enable" && bool_decide (method = POST) then Some (Terminated.SetEnabled port true)
      else if String.eqb a "disable" && bool_decide (method = POST) then Some (Terminated.SetEnabled port false)
      else if String.eqb a "savedProxyResponses" && bool_decide (method = DELETE)
      then Some (Terminated.ClearSavedProxyResponses port)
      else if String.eqb a "stubs" then
        match method with
        | POST => Some (Terminated.AddStub port)
        | PUT => Some (Terminated.ReplaceStubs port)
        | _ => None
        end
      else None
  | [a; b] =>
      if String.eqb a "spaces" && bool_decide (method = DELETE) && negb (is_empty b)
      then Some (Terminated.SpaceTeardown port b)
      else if String.eqb a "stubs" && negb (is_empty b) then
        match method with
        | PUT => Some (Terminated.ReplaceStubAt port b)
        | DELETE => Some (Terminated.DeleteStubAt port b)
        | _ => None
        end
      else None
  | [a; b; c] =>
      if String.eqb a "spaces" && String.eqb c "stubs" && bool_decide (method = POST) && negb (is_empty b)
      then Some (Terminated.AddSpaceStub port b)
      else if String.eqb a "stubs" && String.eqb b "by-id" && negb (is_empty c) then
        match method with
        | PUT => Some (Terminated.ReplaceStubById port c)
        | DELETE => Some (Terminated.DeleteStubById port c)
        | _ => None
        end
      else None
  | _ => None
  end.

(** The port of a path [/admin/imposters/{port}/try], as its segment. *)
Definition try_target (path : string) : option string :=
  rest ← strip_prefix "/admin/imposters/" path;
  match split_char "/" rest with
  | [port; a] => if String.eqb a "try" then Some port else None
  | _ => None
  end.

Definition classify (method : Method) (path : string) : option Terminated.t :=
  if String.eqb path FLEET_NAME_PATH && bool_decide (method = PUT) then Some Terminated.FleetNamePut
  else if String.eqb path "/specs/compile" then
    match method with POST => Some Terminated.SpecCompile | _ => None end
  else if String.eqb path "/front-door/routes" then
    match method with PUT => Some Terminated.PutRoutes | _ => None end
  else match strip_prefix "/front-door/routes/" path with
  | Some id =>
      match method with
      | DELETE => if is_empty id then None else Some (Terminated.DeleteRoute id)
      | _ => None
      end
  | None =>
      if String.eqb path "/imposters" then
        match method with
        | POST => Some Terminated.Create
        | PUT => Some Terminated.ReplaceAllImposters
        | DELETE => Some Terminated.DeleteAllImposters
        | _ => None
        end
      else match (if decide (method = GET) then spaces_list_target path else None) with
      | Some port => Some (Terminated.SpacesList port)
      | None =>
          match try_target path with
          | Some port => if decide (method = POST) then Terminated.TryImposter <$> parse_u16 port else None
          | None =>
              rest ← strip_prefix "/imposters/" path;
              match split_char "/" rest with
              | [] => None
              | first :: segments => port ← parse_u16 first; imposter_route method port segments
              end
          end
      end
  end.

(** [str::trim_start_matches('/')]. *)
Fixpoint trim_slashes (s : string) : string :=
  match s with
  | String c s' => if Ascii.eqb c "/" then trim_slashes s' else s
  | EmptyString => EmptyString
  end.

Definition is_single_imposter_read (path : string) : bool :=
  let of_port segments :=
    match segments with [port] => bool_decide (is_Some (parse_u16 port)) | _ => false end in
  match split_char "/" (trim_slashes (before_query path)) with
  | first :: segments =>
      if String.eqb first "imposters" then of_port segments
      else if String.eqb first "admin" then
        match segments with
        | second :: segments => String.eqb second "imposters" && of_port segments
        | [] => false
        end
      else false
  | [] => false
  end.

(** The port the engine's own classifier read out of a proxied route. *)
Definition port_param (params : list (string * string)) : option N :=
  '(_, value) ← List.find (fun p => String.eqb p.1 "port") params; parse_u16 value.

(** ** Query parameters *)

Definition query_pair (name pair : string) : option string :=
  match split_once "=" pair with
  | Some (key, value) =>
      if String.eqb key name then Some value else if String.eqb pair name then Some EmptyString else None
  | None => if String.eqb pair name then Some EmptyString else None
  end.

Definition query_param (query : option string) (name : string) : option string :=
  find_map (query_pair name) (split_char "&" (default EmptyString query)).

Definition hex_nibble (c : ascii) : option N :=
  let n := N_of_ascii c in
  if (48 <=? n)%N && (n <=? 57)%N then Some (n - 48)%N
  else if (97 <=? n)%N && (n <=? 102)%N then Some (n - 97 + 10)%N
  else if (65 <=? n)%N && (n <=? 70)%N then Some (n - 65 + 10)%N
  else None.

(** [String::from_utf8] reads exactly the well-formed byte sequences. *)
Definition in_bytes (low high : N) (c : ascii) : bool :=
  let n := N_of_ascii c in (low <=? n)%N && (n <=? high)%N.

Fixpoint utf8 (s : string) : bool :=
  match s with
  | EmptyString => true
  | String a s1 =>
      if in_bytes 0 127 a then utf8 s1
      else match s1 with
      | EmptyString => false
      | String b s2 =>
          if in_bytes 194 223 a then in_bytes 128 191 b && utf8 s2
          else match s2 with
          | EmptyString => false
          | String c s3 =>
              if in_bytes 224 239 a then
                in_bytes (if in_bytes 224 224 a then 160 else 128) (if in_bytes 237 237 a then 159 else 191) b
                && in_bytes 128 191 c && utf8 s3
              else match s3 with
              | EmptyString => false
              | String d s4 =>
                  in_bytes 240 244 a
                  && in_bytes (if in_bytes 240 240 a then 144 else 128) (if in_bytes 244 244 a then 143 else 191) b
                  && in_bytes 128 191 c && in_bytes 128 191 d && utf8 s4
              end
          end
      end
  end.

Fixpoint percent_bytes (s : string) : option string :=
  match s with
  | EmptyString => Some EmptyString
  | String c s1 =>
      if Ascii.eqb c "%" then
        match s1 with
        | String h (String l s3) =>
            high ← hex_nibble h; low ← hex_nibble l; String (byte_of (N.lor (N.shiftl high 4) low)) <$> percent_bytes s3
        | _ => None
        end
      else String c <$> percent_bytes s1
  end.

Definition percent_decode (raw : string) : option string :=
  out ← percent_bytes raw; if utf8 out then Some out else None.

Definition is_c0_control (c : ascii) : bool := in_bytes 0 31 c || in_bytes 127 127 c.

Definition reconcile_param (query : option string) : result string bool :=
  match percent_decode <$> query_param query "reconcile" with
  | None => Ok false
  | Some other =>
      let value := default EmptyString other in
      if String.eqb value "true" then Ok true
      else if String.eqb value "false" then Ok false
      else Err ("Invalid query parameter reconcile=" +:+ debug_str value +:+ ": expected true or false")
  end.

(** ** Stub indices and revision tokens *)

Definition parse_usize : string -> option N := parse_u64.

Definition stub_position (raw : string) (len : nat) : option nat :=
  n ← parse_usize raw;
  if String.eqb (pretty n) raw && (n <? N.of_nat len)%N then Some (N.to_nat n) else None.

Definition STUB_INDEX_MESSAGE : string :=
  "'stubIndex' must be a valid integer, representing the array index position of the stub to replace".

Definition bad_stub_index : TypedError := typed_error 404 BadData STUB_INDEX_MESSAGE.

Definition ROUTES_REVISION_SUBJECT : string := "routes".
Definition HEADER_REVISION : string := "rift-cluster-revision".

(** What a revision belongs to: an imposter's port, or the route table. *)
Definition subject (port : option N) : string :=
  match port with Some port => pretty port | None => ROUTES_REVISION_SUBJECT end.

(** The token a read and a write stamp into the revision header. *)
Definition revision_token (port : option N) (revision : N) : string := subject port +:+ "@" +:+ pretty revision.

Definition bad_if_match (expected_port : option N) : TypedError :=
  typed_error 400 BadData ("If-Match must be the value from " +:+ HEADER_REVISION +:+ " (" +:+ subject expected_port
    +:+ "@<revision>) or a bare revision integer").

(** One pair of quotes, as entity tags are often written. *)
Definition unquote (s : string) : string :=
  match strip_prefix (String quote_char EmptyString) s ≫= fun inner =>
        match rev (as_bytes inner) with
        | c :: front => if Ascii.eqb c quote_char then Some (string_of_list_ascii (rev front)) else None
        | [] => None
        end with
  | Some inner => inner
  | None => s
  end.

Definition parse_if_match (raw : string) (expected_port : option N) : result TypedError N :=
  let bad := Err (bad_if_match expected_port) in
  let unquoted := unquote (trim raw) in
  match parse_u64 unquoted with
  | Some revision => Ok revision
  | None =>
      match split_once "@" unquoted with
      | None => bad
      | Some (named, revision) =>
          let matches_subject :=
            match expected_port with
            | Some port => bool_decide (parse_u16 named = Some port)
            | None => String.eqb named ROUTES_REVISION_SUBJECT
            end in
          if matches_subject then match parse_u64 revision with Some revision => Ok revision | None => bad end else bad
      end
  end.
