(* ===== verification/RoutingFacts.v ===== *)
(** * Facts about the admin front's reading of a request

    The routes it answers itself are exactly the documented ones; a percent-encoded value reads
    back; an index names a stub only in its canonical spelling; and a revision token conditions
    a write of the record it was read from and of no other. *)

From S2P Require Import Prelude Upstream FlowConfig Control Recorded StateMachine Auth Projection Intents Session SessionFacts Routing.

(** ** Segments *)

Lemma split_join sep s : s = join (String sep EmptyString) (split_char sep s) /\ split_char sep s <> [].
Proof.
  induction s as [|c s [IH Hne]]; [done|]. cbn [split_char]. destruct (Ascii.eqb_spec c sep) as [->|Hc].
  - split; [|done]. destruct (split_char sep s) as [|h t]; [done|].
    change (join (String sep EmptyString) (EmptyString :: h :: t)) with (String sep (join (String sep EmptyString) (h :: t))). by rewrite <- IH.
  - destruct (split_char sep s) as [|h t]; [done|]. split; [|done]. rewrite IH. by destruct t.
Qed.

Lemma join_split sep l : l <> [] -> Forall (fun s => lacks sep s = true) l -> split_char sep (join (String sep EmptyString) l) = l.
Proof.
  induction l as [|s l IH]; [done|]. intros _ [Hs Hl]%Forall_cons. destruct l as [|t l]; [by apply split_char_one|].
  change (join (String sep EmptyString) (s :: t :: l)) with (s +:+ String sep (join (String sep EmptyString) (t :: l))).
  rewrite split_char_app by done. by rewrite IH.
Qed.

(** The segments of a path are what a slash joins back into it. *)
Lemma split_char_iff sep s l :
  split_char sep s = l <-> l <> [] /\ Forall (fun x => lacks sep x = true) l /\ s = join (String sep EmptyString) l.
Proof.
  split.
  - intros <-. destruct (split_join sep s) as [Hs Hne]. split; [done|]. split; [|done].
    apply Forall_forall. intros x Hx. by eapply split_char_lacks.
  - intros (Hne & Hl & ->). by apply join_split.
Qed.

(** ** Numerals *)

Lemma parse_digits_digits max acc s n : parse_digits 10 max acc s = Some n -> string_forallb is_ascii_digit s = true.
Proof.
  revert acc. induction s as [|c s IH]; intros acc H; [done|]. cbn [parse_digits] in H. cbn [string_forallb].
  destruct (digit_val 10 c) as [d|] eqn:Hd; [|done]. destruct (_ <=? max)%N; [|done]. rewrite (IH _ H), andb_true_r.
  revert Hd. by destruct c as [[] [] [] [] [] [] [] []].
Qed.

(** A port or a revision is written in digits, after at most a sign. *)
Lemma parse_digits_le radix max acc s n : (acc <= max)%N -> parse_digits radix max acc s = Some n -> (n <= max)%N.
Proof.
  revert acc. induction s as [|c s IH]; intros acc Ha; cbn; [by intros [= <-]|]. destruct (digit_val radix c) as [d|]; [|done].
  destruct (N.leb_spec (acc * radix + d) max); [|done]. by apply IH.
Qed.

Lemma from_str_radix_le radix max s n : from_str_radix radix max s = Some n -> (n <= max)%N.
Proof.
  destruct s as [|c s]; [done|]. unfold from_str_radix. destruct (Ascii.eqb c "+"); [destruct s; [done|]|]; apply parse_digits_le; lia.
Qed.

Lemma numeral_lacks max s n c : from_str_radix 10 max s = Some n -> is_ascii_digit c = false -> c <> "+"%char -> lacks c s = true.
Proof.
  intros H Hc Hp. assert (Hs : string_forallb (fun d => is_ascii_digit d || Ascii.eqb d "+") s = true).
  { assert (Hi : forall t, string_forallb is_ascii_digit t = true ->
      string_forallb (fun d => is_ascii_digit d || Ascii.eqb d "+") t = true).
    { intros t. apply string_forallb_impl. by intros x ->. }
    unfold from_str_radix in H. destruct s as [|d s]; [done|]. destruct (Ascii.eqb_spec d "+") as [->|Hd].
    - destruct s as [|e s]; [done|]. exact (Hi _ (parse_digits_digits _ _ _ _ H)).
    - exact (Hi _ (parse_digits_digits _ _ _ _ H)). }
  revert Hs. apply string_forallb_impl. intros d [Hd|Hd]%orb_true_iff; apply negb_true_iff, Ascii.eqb_neq; [congruence|].
  apply Ascii.eqb_eq in Hd. congruence.
Qed.

Lemma port_lacks_slash p port : parse_u16 p = Some port -> lacks "/" p = true.
Proof. intros H. by apply (numeral_lacks _ _ _ _ H). Qed.

(** ** Routes *)

(** The routes under an imposter's port, by the segments that follow it. *)
Inductive on_imposter (port : N) : Method -> list string -> Terminated.t -> Prop :=
  | on_delete : on_imposter port DELETE [] (Terminated.DeleteImposter port)
  | on_enable : on_imposter port POST ["enable"]%string (Terminated.SetEnabled port true)
  | on_disable : on_imposter port POST ["disable"]%string (Terminated.SetEnabled port false)
  | on_clear_saved : on_imposter port DELETE ["savedProxyResponses"]%string (Terminated.ClearSavedProxyResponses port)
  | on_add_stub : on_imposter port POST ["stubs"]%string (Terminated.AddStub port)
  | on_replace_stubs : on_imposter port PUT ["stubs"]%string (Terminated.ReplaceStubs port)
  | on_teardown flow : flow <> EmptyString -> on_imposter port DELETE ["spaces"; flow]%string (Terminated.SpaceTeardown port flow)
  | on_space_stub flow : flow <> EmptyString ->
      on_imposter port POST ["spaces"; flow; "stubs"]%string (Terminated.AddSpaceStub port flow)
  | on_replace_at index : index <> EmptyString -> on_imposter port PUT ["stubs"; index]%string (Terminated.ReplaceStubAt port index)
  | on_delete_at index : index <> EmptyString -> on_imposter port DELETE ["stubs"; index]%string (Terminated.DeleteStubAt port index)
  | on_replace_id id : id <> EmptyString -> on_imposter port PUT ["stubs"; "by-id"; id]%string (Terminated.ReplaceStubById port id)
  | on_delete_id id : id <> EmptyString -> on_imposter port DELETE ["stubs"; "by-id"; id]%string (Terminated.DeleteStubById port id).

Inductive route : Method -> string -> Terminated.t -> Prop :=
  | at_fleet_name : route PUT "/admin/fleet/name" Terminated.FleetNamePut
  | at_compile : route POST "/specs/compile" Terminated.SpecCompile
  | at_routes : route PUT "/front-door/routes" Terminated.PutRoutes
  | at_route id : id <> EmptyString -> route DELETE ("/front-door/routes/" +:+ id) (Terminated.DeleteRoute id)
  | at_create : route POST "/imposters" Terminated.Create
  | at_replace_all : route PUT "/imposters" Terminated.ReplaceAllImposters
  | at_delete_all : route DELETE "/imposters" Terminated.DeleteAllImposters
  | at_spaces prefix p port tail : prefix = "/imposters/"%string \/ prefix = "/admin/imposters/"%string -> parse_u16 p = Some port ->
      tail = ["spaces"]%string \/ tail = ["spaces"; EmptyString]%string ->
      route GET (prefix +:+ join "/" (p :: tail)) (Terminated.SpacesList port)
  | at_try p port : parse_u16 p = Some port -> route POST ("/admin/imposters/" +:+ join "/" [p; "try"%string]) (Terminated.TryImposter port)
  | at_imposter method p port segments k : parse_u16 p = Some port -> Forall (fun s => lacks "/" s = true) segments ->
      on_imposter port method segments k -> route method ("/imposters/" +:+ join "/" (p :: segments)) k.

Ltac eqb_cases :=
  repeat match goal with
  | H : context [String.eqb ?a ?b] |- _ => destruct (String.eqb_spec a b); subst; cbn [andb negb orb] in H
  | H : context [bool_decide ?P] |- _ => destruct (bool_decide_reflect P); subst; cbn [andb negb orb] in H
  end.

Ltac route_cases :=
  eqb_cases; try discriminate; try (match goal with H : Some _ = Some _ |- _ => injection H as <- end; by constructor);
  repeat match goal with
  | m : Method |- _ => destruct m; try discriminate
  | H : Some _ = Some _ |- _ => injection H as <-; by constructor
  end.

Lemma imposter_route_exact method port segments k : imposter_route method port segments = Some k <-> on_imposter port method segments k.
Proof.
  split.
  - unfold imposter_route, is_empty. destruct segments as [|a [|b [|c [|d segments]]]]; intros H; [| | | |done].
    + destruct (decide (method = DELETE)) as [->|]; [|done]. injection H as <-. constructor.
    + route_cases.
    + route_cases.
    + route_cases.
  - destruct 1 as [| | | | | |flow Hne|flow Hne|i Hne|i Hne|i Hne|i Hne]; try done; unfold imposter_route, is_empty; cbn;
      by rewrite (proj2 (String.eqb_neq _ _) Hne).
Qed.

Lemma before_query_id path : lacks "?" path = true -> before_query path = path.
Proof. intros H. unfold before_query. by rewrite split_char_one. Qed.

Lemma spaces_list_exact path port : lacks "?" path = true ->
  spaces_list_target path = Some port <->
  exists prefix p tail, (prefix = "/imposters/"%string \/ prefix = "/admin/imposters/"%string) /\ parse_u16 p = Some port
    /\ (tail = ["spaces"]%string \/ tail = ["spaces"; EmptyString]%string) /\ path = prefix +:+ join "/" (p :: tail).
Proof.
  intros Hq. unfold spaces_list_target. rewrite before_query_id by done. split.
  - unfold after_imposters. intros H.
    assert (exists prefix rest, (prefix = "/imposters/"%string \/ prefix = "/admin/imposters/"%string) /\ path = prefix +:+ rest
      /\ match split_char "/" rest with
         | [port; spaces] => if String.eqb spaces "spaces" then parse_u16 port else None
         | [port; spaces; flow] => if String.eqb spaces "spaces" && is_empty flow then parse_u16 port else None
         | _ => None
         end = Some port) as (prefix & rest & Hp & -> & Hs).
    { destruct (strip_prefix "/admin/imposters/" path) as [rest|] eqn:Ha.
      - apply strip_prefix_Some in Ha. exists "/admin/imposters/"%string, rest. eauto.
      - destruct (strip_prefix "/imposters/" path) as [rest|] eqn:Hi; [|done]. apply strip_prefix_Some in Hi.
        exists "/imposters/"%string, rest. eauto. }
    clear H. destruct (split_char "/" rest) as [|p [|a [|b [|c l]]]] eqn:E; try done; apply split_char_iff in E as (_ & _ & ->);
      unfold is_empty in Hs; eqb_cases; try done;
      [by exists prefix, p, ["spaces"]%string; split_and!; eauto|by exists prefix, p, ["spaces"; EmptyString]%string; split_and!; eauto].
  - intros (prefix & p & tail & Hpre & Hp & Ht & ->).
    assert (after_imposters (prefix +:+ join "/" (p :: tail)) = Some (join "/" (p :: tail))) as ->.
    { unfold after_imposters. destruct Hpre as [-> | ->]; [reflexivity|by rewrite strip_prefix_app]. }
    cbn [mbind option_bind]. apply port_lacks_slash in Hp as Hl.
    rewrite join_split; [by destruct Ht as [-> | ->]|done|]. constructor; [done|]. destruct Ht as [-> | ->]; by repeat constructor.
Qed.

Lemma try_target_exact path p : try_target path = Some p <-> lacks "/" p = true /\ path = "/admin/imposters/" +:+ join "/" [p; "try"%string].
Proof.
  unfold try_target. split.
  - destruct (strip_prefix "/admin/imposters/" path) as [rest|] eqn:E; [|done]. apply strip_prefix_Some in E as ->. cbn [mbind option_bind].
    destruct (split_char "/" rest) as [|q [|a [|b l]]] eqn:E; try done. apply split_char_iff in E as (_ & Hf & ->).
    intros H. eqb_cases; [|done]. injection H as <-. apply Forall_cons in Hf as [Hq _]. done.
  - intros [Hp ->]. rewrite strip_prefix_app. cbn [mbind option_bind]. rewrite join_split; [done|done|]. by repeat constructor.
Qed.

(** A path under the imposters prefix gets past the fixed paths. *)
Lemma classify_imposters method rest :
  classify method ("/imposters/" +:+ rest)
  = match (if decide (method = GET) then spaces_list_target ("/imposters/" +:+ rest) else None) with
    | Some port => Some (Terminated.SpacesList port)
    | None =>
        match split_char "/" rest with
        | [] => None
        | first :: segments => port ← parse_u16 first; imposter_route method port segments
        end
    end.
Proof. reflexivity. Qed.

Lemma classify_admin_imposters method rest :
  classify method ("/admin/imposters/" +:+ rest)
  = match (if decide (method = GET) then spaces_list_target ("/admin/imposters/" +:+ rest) else None) with
    | Some port => Some (Terminated.SpacesList port)
    | None =>
        match try_target ("/admin/imposters/" +:+ rest) with
        | Some port => if decide (method = POST) then Terminated.TryImposter <$> parse_u16 port else None
        | None => None
        end
    end.
Proof. reflexivity. Qed.

Lemma classify_route id : classify DELETE ("/front-door/routes/" +:+ id) = if is_empty id then None else Some (Terminated.DeleteRoute id).
Proof. reflexivity. Qed.

Lemma route_classified method path k : lacks "?" path = true -> route method path k -> classify method path = Some k.
Proof.
  intros Hq Hr. destruct Hr as [| | |id Hne| | | |prefix p port tail Hpre Hp Ht|p port Hp|m p port segments k' Hp Hf Ho];
    [reflexivity|reflexivity|reflexivity| |reflexivity|reflexivity|reflexivity| | |].
  - rewrite classify_route. unfold is_empty. by rewrite (proj2 (String.eqb_neq _ _) Hne).
  - assert (spaces_list_target (prefix +:+ join "/" (p :: tail)) = Some port) as Hs by (apply (spaces_list_exact _ _ Hq); by exists prefix, p, tail).
    destruct Hpre as [-> | ->]; [rewrite classify_imposters|rewrite classify_admin_imposters]; rewrite decide_True by done; by rewrite Hs.
  - assert (try_target ("/admin/imposters/" +:+ join "/" [p; "try"%string]) = Some p) as Ht.
    { apply try_target_exact. split; [by eapply port_lacks_slash|done]. }
    rewrite classify_admin_imposters, Ht. rewrite decide_False, decide_True by done. by rewrite Hp.
  - assert (m <> GET) as Hg by (destruct Ho; done). rewrite classify_imposters, decide_False by done.
    rewrite join_split; [|done|by constructor; [eapply port_lacks_slash|]]. rewrite Hp. cbn [mbind option_bind]. by apply imposter_route_exact.
Qed.

(** The routes the front answers itself are exactly the documented ones: a method and a path are
    classified as a route if and only if they are a spelling of it, with a port the parser
    reads and ids that are not empty and hold no slash; every other request goes to the
    engine, so no write to the engine's own copy of a replicated resource slips through
    under a spelling the front does not know, and none it should not take is taken. *)
Theorem classify_exact method path k : lacks "?" path = true -> classify method path = Some k <-> route method path k.
Proof.
  intros Hq. split; [|by apply route_classified]. unfold classify. intros H.
  destruct (String.eqb_spec path FLEET_NAME_PATH) as [->|_]; [|cbn [andb] in H].
  { destruct method; try done. injection H as <-. constructor. }
  destruct (String.eqb_spec path "/specs/compile") as [->|_]; [destruct method; try done; injection H as <-; constructor|].
  destruct (String.eqb_spec path "/front-door/routes") as [->|_]; [destruct method; try done; injection H as <-; constructor|].
  destruct (strip_prefix "/front-door/routes/" path) as [id|] eqn:Hs.
  { apply strip_prefix_Some in Hs as ->. unfold is_empty in H. destruct method; try done. eqb_cases; [done|]. injection H as <-. by constructor. }
  destruct (String.eqb_spec path "/imposters") as [->|_]; [destruct method; try done; injection H as <-; constructor|].
  destruct (if decide (method = GET) then _ else _) as [port|] eqn:Hsp.
  { destruct (decide (method = GET)) as [->|]; [|done]. injection H as <-.
    apply spaces_list_exact in Hsp as (prefix & p & tail & Hpre & Hp & Ht & ->); [|done]. by constructor. }
  destruct (try_target path) as [p|] eqn:Ht.
  { apply try_target_exact in Ht as [_ ->]. destruct (decide (method = POST)) as [->|]; [|done].
    destruct (parse_u16 p) as [port|] eqn:Hp; [|done]. injection H as <-. by constructor. }
  destruct (strip_prefix "/imposters/" path) as [rest|] eqn:Hi; [|done]. apply strip_prefix_Some in Hi as ->.
  cbn [mbind option_bind] in H. destruct (split_char "/" rest) as [|p segments] eqn:E; [done|].
  apply split_char_iff in E as (_ & [_ Hf]%Forall_cons & ->). destruct (parse_u16 p) as [port|] eqn:Hp; [|done].
  apply imposter_route_exact in H. by econstructor.
Qed.

(** ** Percent-encoding *)

(** A value with the bytes a client does not keep written as escapes. *)
Fixpoint percent_encode (keep : ascii -> bool) (digit : N -> ascii) (s : string) : string :=
  match s with
  | EmptyString => EmptyString
  | String c s =>
      if keep c then String c (percent_encode keep digit s)
      else String "%" (String (digit (N_of_ascii c / 16)%N) (String (digit (N_of_ascii c mod 16)%N) (percent_encode keep digit s)))
  end.

Lemma percent_bytes_encode keep digit s : keep "%"%char = false ->
  (forall k, (k < 16)%N -> hex_nibble (digit k) = Some k) -> percent_bytes (percent_encode keep digit s) = Some s.
Proof.
  intros Hk Hd. induction s as [|c s IH]; [done|]. cbn [percent_encode]. destruct (keep c) eqn:Hc.
  - cbn [percent_bytes]. destruct (Ascii.eqb_spec c "%") as [->|_]; [congruence|]. by rewrite IH.
  - assert (N_of_ascii c < 256)%N as Hn by apply N_ascii_bounded.
    cbn [percent_bytes Ascii.eqb Bool.eqb]. rewrite (Hd (N_of_ascii c / 16)%N) by (apply N.Div0.div_lt_upper_bound; lia).
    cbn [mbind option_bind]. rewrite (Hd (N_of_ascii c mod 16)%N) by (apply N.mod_lt; lia). cbn [mbind option_bind]. rewrite IH. cbn. f_equal. f_equal.
    by destruct c as [[] [] [] [] [] [] [] []].
Qed.

(** A percent-encoded query value reads back as the text that was typed: whichever bytes a client
    leaves as they are, and with digits of either case, decoding the encoded value gives the
    value if it is UTF-8 and nothing otherwise. *)
Theorem percent_roundtrip keep digit s : keep "%"%char = false ->
  (forall k, (k < 16)%N -> hex_nibble (digit k) = Some k) ->
  percent_decode (percent_encode keep digit s) = if utf8 s then Some s else None.
Proof. intros Hk Hd. unfold percent_decode. by rewrite percent_bytes_encode. Qed.

(** ** Stub indices *)

(** An index names a stub in exactly one spelling. *)
Lemma stub_position_exact raw len i : (N.of_nat len <= u64_max)%N ->
  stub_position raw len = Some i <-> raw = pretty (N.of_nat i) /\ i < len.
Proof.
  intros Hl. unfold stub_position, parse_usize. split.
  - destruct (parse_u64 raw) as [n|]; [|done]. cbn [mbind option_bind]. intros H. eqb_cases; [|done].
    destruct (N.ltb_spec n (N.of_nat len)) as [Hn|]; [|done]. injection H as <-. by rewrite N2Nat.id; split; [|lia].
  - intros [-> Hi]. unfold parse_u64. rewrite from_str_radix_pretty by lia. cbn [mbind option_bind]. rewrite String.eqb_refl. cbn [andb].
    rewrite (proj2 (N.ltb_lt _ _)) by lia. by rewrite Nat2N.id.
Qed.

(** ** Revision tokens *)

Lemma numeral_with_at max a b : from_str_radix 10 max (a +:+ "@" +:+ b) = None.
Proof.
  destruct (from_str_radix 10 max (a +:+ "@" +:+ b)) as [n|] eqn:H; [|done]. apply (numeral_lacks _ _ _ "@") in H; [|done|done].
  unfold lacks in H. rewrite !string_forallb_app in H. by rewrite !andb_false_r in H.
Qed.

(** Neither space nor quote. *)
Definition plain (c : ascii) : bool := negb (is_space c) && negb (Ascii.eqb c quote_char).

Lemma plain_digits s : string_forallb is_ascii_digit s = true -> string_forallb plain s = true.
Proof. apply string_forallb_impl. by intros [[] [] [] [] [] [] [] []]. Qed.

Lemma token_plain port revision : string_forallb plain (revision_token port revision) = true.
Proof.
  unfold revision_token. rewrite !string_forallb_app, (plain_digits _ (digits_pretty revision)).
  destruct port as [port|]; [|done]. cbn [subject]. by rewrite (plain_digits _ (digits_pretty port)).
Qed.

Lemma unquote_plain s : string_forallb plain s = true -> unquote s = s.
Proof.
  destruct s as [|c s]; [done|]. cbn [string_forallb]. intros [Hc _]%andb_true_iff. unfold unquote. cbn [strip_prefix].
  destruct (Ascii.eqb_spec quote_char c) as [<-|_]; [done|]. done.
Qed.

Lemma unquote_quoted s : unquote (String quote_char (s +:+ String quote_char EmptyString)) = s.
Proof.
  unfold unquote. cbn [strip_prefix]. rewrite Ascii.eqb_refl. cbn [mbind option_bind]. unfold as_bytes.
  assert (Ha : forall a b, list_ascii_of_string (a +:+ b) = list_ascii_of_string a ++ list_ascii_of_string b).
  { intros a b. induction a as [|c a IH]; [done|].
    change (c :: list_ascii_of_string (a +:+ b) = c :: (list_ascii_of_string a ++ list_ascii_of_string b)). by rewrite IH. }
  rewrite Ha, rev_app_distr. cbn. by rewrite rev_involutive, string_of_list_ascii_of_string.
Qed.

(** What is parsed out of a token, for any record it is presented to. *)
Lemma parse_token raw port revision expected : (revision <= u64_max)%N -> unquote (trim raw) = revision_token port revision ->
  parse_if_match raw expected
  = if match expected with
       | Some q => bool_decide (parse_u16 (subject port) = Some q)
       | None => String.eqb (subject port) ROUTES_REVISION_SUBJECT
       end then Ok revision else Err (bad_if_match expected).
Proof.
  intros Hr Hu. unfold parse_if_match. rewrite Hu. unfold revision_token. 
  replace (parse_u64 (subject port +:+ "@" +:+ pretty revision)) with (@None N) by (symmetry; apply numeral_with_at).
  assert (string_forallb (fun d => negb (Ascii.eqb "@" d)) (subject port) = true) as Hs.
  { destruct port as [port|]; [|done]. cbn [subject]. pose proof (digits_pretty port) as Hd. revert Hd. apply string_forallb_impl.
    by intros [[] [] [] [] [] [] [] []]. }
  rewrite (split_once_app "@" EmptyString _ _ Hs). destruct (match expected with Some _ => _ | None => _ end); [|done].
  unfold parse_u64. by rewrite from_str_radix_pretty.
Qed.

Lemma token_trimmed port revision : unquote (trim (revision_token port revision)) = revision_token port revision.
Proof.
  rewrite trim_id; [apply unquote_plain, token_plain|]. pose proof (token_plain port revision) as Ht. revert Ht.
  apply string_forallb_impl. intros c. unfold plain. by intros [H _]%andb_true_iff.
Qed.

Lemma parse_own_subject raw port revision : (revision <= u64_max)%N -> (forall p, port = Some p -> (p <= u16_max)%N) ->
  unquote (trim raw) = revision_token port revision -> parse_if_match raw port = Ok revision.
Proof.
  intros Hr Hp Hu. rewrite (parse_token _ port revision) by done. destruct port as [p|]; [|done].
  rewrite bool_decide_eq_true_2; [done|]. unfold parse_u16, subject. apply from_str_radix_pretty. by apply Hp.
Qed.

(** A revision token conditions the record it was read from and no other: presented with a write
    of that record, bare or in quotes, it is read as its revision, and presented with a
    write of another port, or of the route table for a port's token, it is refused. *)
Theorem token_names_its_record port revision : (revision <= u64_max)%N -> (forall p, port = Some p -> (p <= u16_max)%N) ->
  let token := revision_token port revision in
  parse_if_match token port = Ok revision
  /\ parse_if_match (String quote_char (token +:+ String quote_char EmptyString)) port = Ok revision
  /\ forall other, other <> port -> parse_if_match token other = Err (bad_if_match other).
Proof.
  intros Hr Hp token. pose proof (token_trimmed port revision) as Hb. split_and!.
  - by apply parse_own_subject.
  - apply parse_own_subject; [done|done|]. rewrite trim_id; [apply unquote_quoted|].
    pose proof (token_plain port revision) as Ht. cbn [string_forallb]. rewrite string_forallb_app. apply andb_true_iff. split; [done|].
    apply andb_true_iff. split; [|done]. revert Ht. apply string_forallb_impl. intros c. unfold plain. by intros [H _]%andb_true_iff.
  - intros other Hne. rewrite (parse_token _ port revision) by done. destruct other as [q|], port as [p|]; cbn [subject] in *; try done.
    + rewrite bool_decide_eq_false_2; [done|]. unfold parse_u16. rewrite from_str_radix_pretty by auto. congruence.
    + destruct (String.eqb_spec (pretty p) ROUTES_REVISION_SUBJECT) as [E|]; [|done].
      pose proof (digits_pretty p) as Hd. by rewrite E in Hd.
Qed.

(** ** Witnesses *)

Lemma classify_exact_witness :
  classify PUT "/imposters/4545/stubs/0" = Some (Terminated.ReplaceStubAt 4545 "0")
  /\ route DELETE "/imposters/4545/spaces/run-1" (Terminated.SpaceTeardown 4545 "run-1").
Proof.
  split; [apply classify_exact|apply (classify_exact DELETE "/imposters/4545/spaces/run-1")]; try (vm_compute; reflexivity).
  apply (at_imposter PUT "4545" 4545 ["stubs"; "0"]%string); [vm_compute; reflexivity|by repeat constructor|by constructor].
Defined.

(** What a browser's encoder keeps, and its digits. *)
Definition uri_component (c : ascii) : bool := is_ascii_alphanumeric c || contains (String c EmptyString) "-_.!~*'()".
Definition upper_digit (k : N) : ascii := if (k <? 10)%N then byte_of (48 + k) else byte_of (55 + k).

Lemma percent_roundtrip_witness :
  percent_decode (percent_encode uri_component upper_digit "C++ & 100%") = Some "C++ & 100%"%string
  /\ percent_encode uri_component upper_digit "C++ & 100%" = "C%2B%2B%20%26%20100%25"%string.
Proof.
  split; [|vm_compute; reflexivity].
  apply (percent_roundtrip uri_component upper_digit "C++ & 100%"); [vm_compute; reflexivity|].
  intros k Hk. apply (below_cases (fun k => hex_nibble (upper_digit k) = Some k) 16); [|exact Hk].
  repeat constructor; vm_compute; reflexivity.
Defined.

Lemma token_names_its_record_witness :
  parse_if_match "4545@17" (Some 4545%N) = Ok 17%N /\ parse_if_match "routes@3" (Some 4545%N) = Err (bad_if_match (Some 4545%N)).
Proof.
  split.
  - apply (token_names_its_record (Some 4545%N) 17); [vm_compute; discriminate|]. intros p [= <-]. vm_compute. discriminate.
  - apply (token_names_its_record None 3); [vm_compute; discriminate|done|done].
Defined.
