(* ===== verification/Front.v ===== *)
(** * The admin front's writes

    A terminated route as the ops it commits and the answer it renders, the checks a write
    passes before anything is parked, and the dispatch of a request with its gate:
    [build_mutation], [run_mutation] and [handle] of [admin_front.rs]. Reads come from the
    node's applied tables; the engine's own admin listener, its checks and its decoders are
    parameters. *)

From S2P Require Import Prelude Upstream FlowConfig Control Recorded StateMachine Auth Projection Intents Session Barrier Routing.

(** ** Replies *)

Inductive Reply :=
  | Typed (e : TypedError) (headers : list (string * string))
  | Buffered (status : N) (content_type : option string) (body : string) (headers : list (string * string)).

Definition reply_status (r : Reply) : N := match r with Typed e _ => te_status e | Buffered status _ _ _ => status end.

Definition refuse (status : N) (kind : ErrorKind) (message : string) : Reply := Typed (typed_error status kind message) [].
Definition internal_reply (message : string) : Reply := Typed (internal_error message) [].
Definition refusal_reply (reason : string) : Reply := Typed (refusal_error reason) [].

Definition buffered (status : N) (body : string) (content_type : option string) : Reply := Buffered status content_type body [].

Definition insert_header (name value : string) (headers : list (string * string)) : list (string * string) :=
  headers_append name value (headers_remove name headers).

(** A value a header cannot carry is dropped. *)
Definition set_header {HT : HeaderText} (name value : string) (r : Reply) : Reply :=
  match header_from_str value with
  | None => r
  | Some value =>
      match r with
      | Typed e headers => Typed e (insert_header name value headers)
      | Buffered status content_type body headers => Buffered status content_type body (insert_header name value headers)
      end
  end.

Definition HEADER_OP_ID : string := "rift-cluster-op-id".
Definition HEADER_WARNINGS : string := "rift-cluster-warnings".
Definition HEADER_BIND_FAILURES : string := "rift-cluster-bind-failures".

Definition json_content_type : option string := Some "application/json"%string.

(** ** Mutations *)

Module Render.

Inductive t :=
  | FetchAfter (path : string) (status : N)
  | FetchAfterOrdered (path : string) (status : N) (order : list N)
  | Captured (body : string) (content_type : option string) (status : N).

End Render.

Inductive Admit := Content | Nothing.

Record Mutation := {
  mu_ops : list ControlOp;
  mu_port : option N;
  mu_render : Render.t;
  mu_admit : Admit;
}.

Definition IMPOSTER_DOOR : string := "Invalid imposter JSON".
Definition BATCH_DOOR : string := "Invalid batch JSON".
Definition STUB_DOOR : string := "Invalid stub JSON".
Definition STUBS_DOOR : string := "Invalid stubs JSON".
Definition CLUSTER_DOOR : string := "invalid request JSON".

(** A task of the blocking pool: its result, or the failure of the task. *)
Inductive Task (A : Type) := Joined (a : A) | JoinFailed (e : string).
Arguments Joined {A} _.
Arguments JoinFailed {A} _.

(** What the front asks of the engine and of serde. *)
Class AdminEngine := {
  decode_imposter : bytes -> Task (result string ImposterConfig);
  decode_batch : bytes -> Task (result string (list ImposterConfig));
  decode_fleet_name : bytes -> Task (result string string);
  decode_add_stub : bytes -> Task (result string (Stub * option nat));
  decode_stub : bytes -> Task (result string Stub);
  decode_stubs : bytes -> Task (result string (list Stub));
  decode_routes : bytes -> Task (result string RouteTable);
  (** The body as a value, and why it is no stub. *)
  decode_value : bytes -> Task (result string (option string));
  render_routes : RouteTable -> result string string;
  render_route : Route -> result string string;
  (** A listing's entries: the port each names and its raw text. *)
  parse_listing : string -> result string (list (option N * string));
  uses_script_surface : ImposterConfig -> bool;
  default_config : ImposterConfig;
  resolve_scripts : ImposterConfig -> result string ImposterConfig;
  (** The scripts and the default engine of an imposter a stub is resolved against. *)
  script_context : ImposterConfig -> string * string;
  no_scripts : string;
  resolve_stub_scripts : string * string -> Stub -> result string Stub;
  check_lookup_paths : list Stub -> result string ();
  validate_stubs : list Stub -> result string ();
  validate_stub : Stub -> nat -> result string ();
}.

Definition decode_config {A} (door : string) (decoded : Task (result string A)) : result Reply A :=
  match decoded with
  | JoinFailed e => Err (internal_reply ("decoding the request body: " +:+ e))
  | Joined (Ok a) => Ok a
  | Joined (Err e) => Err (refuse 400 BadData (door +:+ ": " +:+ e))
  end.

(** ** Reads of the applied state *)

Section reads.
Context {text : Type} {CD : Codec text}.

Definition read_config (t : Tables text) (port : N) : result string (option text) :=
  match configs t !! port with
  | None => Ok None
  | Some row => match from_text (A := StoredImposter text) row with Ok stored => Ok (Some (si_config stored)) | Err e => Err e end
  end.

Definition configured_ports (t : Tables text) : list N := (port_rows (configs t)).*1.

Definition imposter_revision (t : Tables text) (port : N) : option N :=
  row ← configs t !! port; match from_text (A := StoredImposter text) row with Ok stored => Some (si_revision stored) | Err _ => None end.

Definition route_table (t : Tables text) : result string RouteTable :=
  match desired_routes (routes t) with
  | Ok table => Ok table
  | Err (id, e) => Err ("corrupt stored route " +:+ id +:+ ": " +:+ e)
  end.

Definition route_table_with_revision (t : Tables text) : result string (RouteTable * N) :=
  match route_table t with Ok table => Ok (table, default 0%N (routes_revision t)) | Err e => Err e end.

Definition stored_config (t : Tables text) (port : N) : result Reply ImposterConfig :=
  match read_config t port with
  | Err e => Err (internal_reply e)
  | Ok None => Err (refuse 404 NoSuchResource ("no imposter on port " +:+ pretty port))
  | Ok (Some stored) =>
      match from_text (A := ImposterConfig) stored with
      | Ok config => Ok config
      | Err e => Err (internal_reply ("stored config for " +:+ pretty port +:+ ": " +:+ e))
      end
  end.

(** The token of a single-imposter read. *)
Definition imposter_read_token (t : Tables text) (method : Method) (path : string) (params : list (string * string)) : option string :=
  if bool_decide (method = GET) && is_single_imposter_read path then
    port ← port_param params; revision ← imposter_revision t port; Some (revision_token (Some port) revision)
  else None.
End reads.

(** ** Building a mutation *)

Section build.
Context {text : Type} {CD : Codec text} {AE : AdminEngine}.
(** The engine's own admin listener: a path's status, content type and body. *)
Context (t : Tables text) (fetch : string -> result Reply (N * option string * string)).

Definition needs_port : Reply :=
  refuse 400 BadData "a clustered imposter needs an explicit port: auto-assigned ports cannot replicate".

Definition imposter_path (port : N) : string := "/imposters/" +:+ pretty port.

Definition put_config_mutation (port : N) (config : ImposterConfig) (admit_ : Admit) (restart : option Restart.t) : Mutation :=
  {| mu_ops := [PutImposter config restart]; mu_port := Some port;
     mu_render := Render.FetchAfter (imposter_path port) 200; mu_admit := admit_ |}.

Definition patch_mutation (port : N) (edit : StubEdit) (admit_ : Admit) (path : string) (status : N) : Mutation :=
  {| mu_ops := [PatchStubs port [edit]]; mu_port := Some port; mu_render := Render.FetchAfter path status; mu_admit := admit_ |}.

(** The puts of a batch in its order, and its ports, each where it first occurs. *)
Fixpoint batch_puts (configs : list ImposterConfig) : result Reply (list ControlOp * list N) :=
  match configs with
  | [] => Ok ([], [])
  | config :: rest =>
      match cfg_port config with
      | None => Err needs_port
      | Some port =>
          match batch_puts rest with
          | Err r => Err r
          | Ok (ops, ports) => Ok (PutImposter config None :: ops, port :: ports)
          end
      end
  end.

Fixpoint first_occurrences (seen ports : list N) : list N :=
  match ports with
  | [] => []
  | port :: ports =>
      if bool_decide (port ∈ seen) then first_occurrences seen ports else port :: first_occurrences (port :: seen) ports
  end.

Definition replace_all (imposters : list ImposterConfig) : result Reply Mutation :=
  match batch_puts imposters with
  | Err r => Err r
  | Ok ([], _) =>
      Ok {| mu_ops := [DeleteAll]; mu_port := None; mu_render := Render.FetchAfter "/imposters" 200; mu_admit := Content |}
  | Ok (puts, ports) =>
      let pruned := List.filter (fun port => negb (bool_decide (port ∈ ports))) (configured_ports t) in
      Ok {| mu_ops := puts ++ (DeleteImposter <$> pruned); mu_port := None;
            mu_render := Render.FetchAfterOrdered "/imposters" 200 (first_occurrences [] ports); mu_admit := Content |}
  end.

Definition with_space (s : Stub) (space : string) : Stub :=
  {| stub_id := stub_id s; stub_space := Some space; stub_predicates := stub_predicates s;
     stub_responses := stub_responses s; stub_recorded_from := stub_recorded_from s; stub_rest := stub_rest s |}.

Definition add_space_stub (port : N) (flow : string) (body : bytes) : result Reply Mutation :=
  reason ← decode_config STUB_DOOR (decode_value body);
  match reason with
  | Some reason => Err (refuse 400 BadData reason)
  | None =>
      stub ← decode_config STUB_DOOR (decode_stub body);
      Ok (patch_mutation port (Add (with_space stub flow) None) Content
            (imposter_path port +:+ "/spaces/" +:+ flow +:+ "/stubs") 201)
  end.

(** The imposter, then the index, then the body. *)
Definition replace_stub_at (port : N) (index : string) (body : bytes) : result Reply Mutation :=
  config ← stored_config t port;
  match stub_position index (length (cfg_stubs config)) with
  | None => Err (Typed bad_stub_index [])
  | Some index =>
      stub ← decode_config STUB_DOOR (decode_stub body);
      Ok (put_config_mutation port (with_stubs config (<[index := stub]> (cfg_stubs config))) Content (Some (Restart.StubAt index)))
  end.

Definition delete_stub_at (port : N) (index : string) : result Reply Mutation :=
  config ← stored_config t port;
  match stub_position index (length (cfg_stubs config)) with
  | None => Err (Typed bad_stub_index [])
  | Some index => Ok (put_config_mutation port (with_stubs config (vec_remove index (cfg_stubs config))) Nothing None)
  end.

Definition set_enabled_mutation (port : N) (enabled : bool) : Mutation :=
  let message := "{" +:+ quoted json_escape_char "message" +:+ ":"
    +:+ quoted json_escape_char ("Imposter " +:+ if enabled then "enabled" else "disabled") +:+ "}" in
  {| mu_ops := [SetEnabled port enabled]; mu_port := Some port;
        mu_render := Render.Captured message json_content_type 200; mu_admit := Nothing |}.

Definition put_routes_mutation (body : bytes) : result Reply Mutation :=
  table ← decode_config CLUSTER_DOOR (decode_routes body);
  match render_routes table with
  | Err e => Err (internal_reply e)
  | Ok rendered =>
      Ok {| mu_ops := [PutRoutes table]; mu_port := None;
            mu_render := Render.Captured rendered json_content_type 200; mu_admit := Nothing |}
  end.

Definition delete_route_mutation (id : string) : result Reply Mutation :=
  match route_table t with
  | Err e => Err (internal_reply e)
  | Ok table =>
      match List.find (fun r => String.eqb (route_id r) id) table with
      | None => Err (refuse 404 NoSuchResource ("no route with id " +:+ debug_str id))
      | Some route =>
          match render_route route with
          | Err e => Err (internal_reply e)
          | Ok rendered =>
              Ok {| mu_ops := [DeleteRoute id]; mu_port := None;
                    mu_render := Render.Captured rendered json_content_type 200; mu_admit := Nothing |}
          end
      end
  end.

Definition build_mutation (kind : Terminated.t) (body : bytes) : result Reply Mutation :=
  match kind with
  | Terminated.Create =>
      config ← decode_config IMPOSTER_DOOR (decode_imposter body);
      match cfg_port config with
      | None => Err needs_port
      | Some port =>
          Ok {| mu_ops := [PutImposter config None]; mu_port := Some port;
                mu_render := Render.FetchAfter (imposter_path port) 201; mu_admit := Content |}
      end
  | Terminated.ReplaceAllImposters => imposters ← decode_config BATCH_DOOR (decode_batch body); replace_all imposters
  | Terminated.FleetNamePut =>
      name ← decode_config CLUSTER_DOOR (decode_fleet_name body);
      Ok {| mu_ops := [FleetNamePut name]; mu_port := None; mu_render := Render.Captured EmptyString None 200; mu_admit := Nothing |}
  | Terminated.DeleteAllImposters =>
      '(_, content_type, captured) ← fetch "/imposters";
      Ok {| mu_ops := [DeleteAll]; mu_port := None; mu_render := Render.Captured captured content_type 200; mu_admit := Nothing |}
  | Terminated.DeleteImposter port =>
      '(status, content_type, captured) ← fetch (imposter_path port);
      if (status =? 404)%N then Err (buffered 200 "{}" (Some "application/json; charset=utf-8"%string))
      else Ok {| mu_ops := [DeleteImposter port]; mu_port := Some port;
                 mu_render := Render.Captured captured content_type 200; mu_admit := Nothing |}
  | Terminated.AddStub port =>
      '(stub, index) ← decode_config STUB_DOOR (decode_add_stub body);
      Ok (patch_mutation port (Add stub index) Content (imposter_path port) 200)
  | Terminated.AddSpaceStub port flow => add_space_stub port flow body
  | Terminated.ReplaceStubs port =>
      stubs ← decode_config STUBS_DOOR (decode_stubs body);
      config ← stored_config t port;
      Ok (put_config_mutation port (with_stubs config stubs) Content (Some Restart.AllStubs))
  | Terminated.ReplaceStubAt port index => replace_stub_at port index body
  | Terminated.DeleteStubAt port index => delete_stub_at port index
  | Terminated.ReplaceStubById port id =>
      stub ← decode_config STUB_DOOR (decode_stub body);
      Ok (patch_mutation port (ReplaceById id stub) Content (imposter_path port) 200)
  | Terminated.DeleteStubById port id => Ok (patch_mutation port (DeleteById id) Nothing (imposter_path port) 200)
  | Terminated.SetEnabled port enabled => Ok (set_enabled_mutation port enabled)
  | Terminated.PutRoutes => put_routes_mutation body
  | Terminated.DeleteRoute id => delete_route_mutation id
  | Terminated.ClearSavedProxyResponses port =>
      Ok {| mu_ops := [ProxyRecordedClear port]; mu_port := Some port;
            mu_render := Render.FetchAfter (imposter_path port) 200; mu_admit := Nothing |}
  | Terminated.SpaceTeardown _ _ =>
      Err (internal_reply "space teardown is served by terminate_space_teardown, not build_mutation")
  | Terminated.SpacesList _ => Err (internal_reply "the spaces listing is served by terminate_spaces_list, not build_mutation")
  | Terminated.TryImposter _ => Err (internal_reply "a try is served by terminate_try_imposter, not build_mutation")
  | Terminated.SpecCompile => Err (internal_reply "the OpenAPI compile is served by terminate_spec_compile, not build_mutation")
  end.

(** A whole-set replace restarts every imposter it keeps unless asked to reconcile. *)
Definition restart_puts (mutation : Mutation) : Mutation :=
  {| mu_ops := (fun o => match o with PutImposter config _ => PutImposter config (Some Restart.Imposter) | _ => o end) <$> mu_ops mutation;
     mu_port := mu_port mutation; mu_render := mu_render mutation; mu_admit := mu_admit mutation |}.
End build.

(** ** The checks of a write *)

(** The first refusal of a list of checks. *)
Fixpoint each {A} (check : A -> result Reply ()) (l : list A) : result Reply () :=
  match l with
  | [] => Ok tt
  | x :: l => match check x with Err r => Err r | Ok _ => each check l end
  end.

Fixpoint each_map {A B} (f : A -> result Reply B) (l : list A) : result Reply (list B) :=
  match l with
  | [] => Ok []
  | x :: l => match f x with Err r => Err r | Ok y => match each_map f l with Err r => Err r | Ok ys => Ok (y :: ys) end end
  end.

Definition written_stubs (edit : StubEditScript) : list Stub :=
  omap (fun step => match step with Add stub _ | ReplaceById _ stub => Some stub | _ => None end) edit.

(** A batch's puts are counted, as the engine labels them. *)
Fixpoint batch_indices (is_batch : bool) (next_put : nat) (ops : list ControlOp) : list (ControlOp * option nat) :=
  match ops with
  | [] => []
  | (PutImposter _ _ as o) :: ops =>
      if is_batch then (o, Some next_put) :: batch_indices is_batch (S next_put) ops else (o, None) :: batch_indices is_batch next_put ops
  | o :: ops => (o, None) :: batch_indices is_batch next_put ops
  end.

Definition debug_port (port : option N) : string := match port with Some p => "Some(" +:+ pretty p +:+ ")" | None => "None" end.

Definition batch_label (what : string) (config : ImposterConfig) (batch_index : option nat) (detail : string) : string :=
  match batch_index with
  | Some idx => what +:+ " in imposter[" +:+ pretty idx +:+ "] (port " +:+ debug_port (cfg_port config) +:+ "): " +:+ detail
  | None => what +:+ ": " +:+ detail
  end.

Section checks.
Context {text : Type} {CD : Codec text} {ER : EngineRules} {AE : AdminEngine} (t : Tables text) (L : Local).

Definition op_uses_script_surface (o : ControlOp) : bool :=
  match o with
  | PutImposter config _ => uses_script_surface config
  | PatchStubs _ edit =>
      match written_stubs edit with
      | [] => false
      | stubs => uses_script_surface (with_stubs default_config stubs)
      end
  | _ => false
  end.

Definition injection_disallowed : Reply :=
  refuse 400 InvalidInjection
    "inject requires --allowInjection to be set. See http://www.mbtest.org/docs/api/injection for more information.".

Definition stored_script_context (port : N) : result Reply (string * string) :=
  match read_config t port with
  | Err e => Err (internal_reply e)
  | Ok None => Ok (no_scripts, "rhai"%string)
  | Ok (Some stored) =>
      match from_text (A := ImposterConfig) stored with
      | Ok config => Ok (script_context config)
      | Err e => Err (internal_reply ("stored config for " +:+ pretty port +:+ ": " +:+ e))
      end
  end.

Definition resolve_step (context : string * string) (step : StubEdit) : result Reply StubEdit :=
  let resolved stub rebuild :=
    match resolve_stub_scripts context stub with
    | Ok stub => Ok (rebuild stub)
    | Err e => Err (refuse 400 BadData ("Script resolution failed: " +:+ e))
    end in
  match step with
  | Add stub index => resolved stub (fun stub => Add stub index)
  | ReplaceById id stub => resolved stub (ReplaceById id)
  | _ => Ok step
  end.

Definition resolve_op_scripts (o : ControlOp * option nat) : result Reply (ControlOp * option nat) :=
  match o.1 with
  | PutImposter config restart =>
      match resolve_scripts config with
      | Ok config => Ok (PutImposter config restart, o.2)
      | Err e => Err (refuse 400 BadData (batch_label "Script resolution failed" config o.2 e))
      end
  | PatchStubs port edit =>
      if existsb adds_content edit then
        match stored_script_context port with
        | Err r => Err r
        | Ok context => match each_map (resolve_step context) edit with Ok edit => Ok (PatchStubs port edit, o.2) | Err r => Err r end
        end
      else Ok o
  | _ => Ok o
  end.

Definition check_op_lookups (o : ControlOp) : result Reply () :=
  match match o with
        | PutImposter config _ => check_lookup_paths (cfg_stubs config)
        | PatchStubs _ edit => check_lookup_paths (written_stubs edit)
        | _ => Ok tt
        end with
  | Ok _ => Ok tt
  | Err message => Err (refuse 400 BadData message)
  end.

Definition validate_step (step : StubEdit) : result Reply () :=
  match match step with
        | Add stub index => validate_stub stub (default 0 index)
        | ReplaceById _ stub => validate_stub stub 0
        | _ => Ok tt
        end with
  | Ok _ => Ok tt
  | Err detail => Err (refuse 400 BadData ("Script validation failed: " +:+ detail))
  end.

Definition validate_op_scripts (o : ControlOp * option nat) : result Reply () :=
  match o.1 with
  | PutImposter config _ =>
      match validate_stubs (cfg_stubs config) with
      | Ok _ => Ok tt
      | Err detail => Err (refuse 400 BadData (batch_label "Script validation failed" config o.2 detail))
      end
  | PatchStubs _ edit => each validate_step edit
  | _ => Ok tt
  end.

(** ** Admission *)

Definition result_err {A} (r : result string A) : option string := match r with Ok _ => None | Err e => Some e end.

Definition admission_refusal (o : ControlOp) (stored : option text) : option string :=
  match o with
  | PutImposter config _ => result_err (verdict L config)
  | PatchStubs _ edit =>
      if negb (existsb adds_content edit) then None
      else
        stored ← stored;
        config ← result_ok (from_text (A := ImposterConfig) stored);
        stubs ← result_ok (edited_stubs (cfg_stubs config) edit);
        result_err (verdict L (with_stubs config stubs))
  | _ => None
  end.

Definition admission_message (reason : string) (in_batch : bool) : string :=
  if in_batch then "Invalid imposter set (imposters unchanged): " +:+ reason else reason.

Definition admit_op (o : ControlOp * option nat) : result Reply () :=
  let judge stored :=
    match admission_refusal o.1 stored with
    | None => Ok tt
    | Some reason => Err (refuse 400 BadData (admission_message reason (bool_decide (is_Some o.2))))
    end in
  match o.1 with
  | PatchStubs port _ =>
      match read_config t port with
      | Err e => Err (internal_reply ("reading the stored config for " +:+ pretty port +:+ ": " +:+ e))
      | Ok stored => judge stored
      end
  | _ => judge None
  end.
End checks.

(** ** Op ids *)

(** The UUID library: reading one, in its canonical text, and deriving one from a name. *)
Class UuidRules := {
  uuid_parse : string -> option string;
  uuid_v5 : string -> bytes -> string;
}.

Section ids.
Context {UR : UuidRules}.

Definition IDEMPOTENCY_NAMESPACE : string := "00524946-542d-4545-2d49-44454d504f54".

(** [fresh] is the random id drawn when the client gave no key. *)
Definition base_op_id (fresh : string) (idempotency : option string) : string :=
  match trim <$> idempotency with
  | Some key =>
      if is_empty key then fresh
      else match uuid_parse key with Some id => id | None => uuid_v5 IDEMPOTENCY_NAMESPACE (as_bytes key) end
  | None => fresh
  end.

Definition to_be_bytes (n : N) : bytes := rev (to_le_bytes n).

Definition op_id_for (base : string) (index total : nat) : string :=
  if (total =? 1)%nat then base else uuid_v5 base (to_be_bytes (N.of_nat index)).
End ids.

(** ** From a mutation to requests *)

Definition precondition_port (mutation : Mutation) : result Reply (option N) :=
  match mu_port mutation with
  | Some port => Ok (Some port)
  | None =>
      if negb (bool_decide (mu_ops mutation = []))
         && forallb (fun o => match precondition_target o with Some PreconditionTarget.RouteTable => true | _ => false end) (mu_ops mutation)
      then Ok None
      else Err (refuse 400 BadData "If-Match applies to single-imposter and route-table operations only")
  end.

Definition precondition_of (mutation : Mutation) (create_only : bool) (if_match : option string) : result Reply Precondition :=
  match if_match with
  | Some raw =>
      port ← precondition_port mutation;
      match parse_if_match raw port with Ok revision => Ok (OnRevision revision) | Err e => Err (Typed e []) end
  | None => Ok (if create_only then OnAbsent else Unconditional)
  end.

Section prepare.
Context {text : Type} {CD : Codec text} {ER : EngineRules} {AE : AdminEngine} {UR : UuidRules} (t : Tables text) (L : Local).
Context (allow_injection : bool).

(** Everything before the ops are sized and parked. *)
Definition prepare (mutation : Mutation) (is_batch create_only : bool) (fresh : string) (idempotency if_match : option string)
    (now_secs : N) : result Reply (list ControlRequest) :=
  _ ← each (fun o => match validate o with Ok _ => Ok tt | Err reason => Err (refusal_reply reason) end) (mu_ops mutation);
  precondition ← precondition_of mutation create_only if_match;
  _ ← (if negb allow_injection && existsb op_uses_script_surface (mu_ops mutation) then Err injection_disallowed else Ok tt);
  ops ← each_map (resolve_op_scripts t) (batch_indices is_batch 0 (mu_ops mutation));
  _ ← (match mu_admit mutation with Content => each (fun o => check_op_lookups o.1) ops | Nothing => Ok tt end);
  _ ← each validate_op_scripts ops;
  _ ← (match mu_admit mutation with Content => each (admit_op t L) ops | Nothing => Ok tt end);
  let base := base_op_id fresh idempotency in
  Ok (imap (fun index (o : ControlOp * option nat) => mint_request (op_id_for base index (length ops)) o.1 precondition now_secs) ops).
End prepare.
