(* ===== verification/FrontHandle.v ===== *)
(** * Requests through the admin front

    The dispatch of a request with its gate, the commit of a prepared write with the answer it
    ends in, the two halves of a space teardown, and what a read of the engine is decorated
    with: [handle], [terminate], [run_mutation] and their helpers of [admin_front.rs], and
    [classify] of [fleet.rs]. *)

From S2P Require Import Prelude Upstream Ring Node Auth Rpc FlowConfig Shard Flow Drive Control Recorded StateMachine Projection Intents Session Barrier Routing Front.

(** ** Dispatch *)

Inductive FleetRoute := Members | FleetHealth | FleetOp (id : string).

Definition fleet_classify {UR : UuidRules} (method : Method) (path : string) : option FleetRoute :=
  if negb (bool_decide (method = GET)) then None
  else
    rest ← strip_prefix "/_fleet/" path;
    if String.eqb rest "members" then Some Members
    else if String.eqb rest "health" then Some FleetHealth
    else id ← strip_prefix "ops/" rest; FleetOp <$> uuid_parse (default EmptyString (head (split_char "?" id))).

Definition stamps_partial (route : FleetRoute) (partial_ : bool) : bool :=
  partial_ && match route with Members | FleetHealth => true | FleetOp _ => false end.

Definition console_matches (path : string) : bool := String.eqb path "/console" || starts_with "/console/" path.

(** Where a request goes. The first five are open by design, the next is a refusal. *)
Inductive Destination :=
  | Gateway (rest : string)
  | Console
  | Login
  | Logout
  | Rotate
  | Refuse (r : FrontResponse)
  | Fleet (route : FleetRoute)
  | ReadRoutes
  | Contract
  | Terminate (kind : Terminated.t)
  | Proxied.

Section handle.
Context {HT : HeaderText} `{TC : TokenCrypto} {text : Type} {CD : Codec text} {UR : UuidRules}.
Context (console_enabled : bool) (st : FrontState) (s : Sm text) (now_secs : N).

Definition gated (req : Request) (d : Destination) : Destination :=
  match authenticate st s req now_secs with Ok _ => d | Err r => Refuse r end.

Definition handle (req : Request) (path : string) : Destination :=
  let method := rq_method req in
  match strip_prefix "/__rift/" path with
  | Some rest => Gateway rest
  | None =>
      if console_enabled && console_matches path then Console
      else if String.eqb path "/session" then
        match method with POST => Login | DELETE => Logout | _ => Refuse (bare 405) end
      else if String.eqb path "/session/rotate" then
        match method with POST => Rotate | _ => Refuse (bare 405) end
      else match fleet_classify method path with
      | Some route => gated req (Fleet route)
      | None =>
          if bool_decide (method = GET) && String.eqb path "/front-door/routes" then gated req ReadRoutes
          else if bool_decide (method = GET) && String.eqb path "/openapi.json" then gated req Contract
          else match classify method path with
          | Some kind => gated req (Terminate kind)
          | None => gated req Proxied
          end
      end
  end.
End handle.

(** ** Warnings *)

Definition barrier_warnings (barrier : BarrierOutcome) : list string :=
  let item word ids :=
    match ids with
    | [] => []
    | _ => [word +:+ "=" +:+ join "," ((fun id : NodeId => pretty id) <$> ids)]
    end in
  item "unapplied" (bo_unapplied barrier) ++ item "unreachable" (bo_unreachable barrier).

(** The hexadecimal of a code point, without leading zeros. *)
Fixpoint hex_go (fuel : nat) (n : N) (acc : string) : string :=
  match fuel with
  | O => acc
  | S fuel =>
      let acc := String (lower_hex_digit (n mod 16)) acc in
      if (n / 16 =? 0)%N then acc else hex_go fuel (n / 16) acc
  end.

Definition escape_point (n : N) : string :=
  let esc t := String backslash (String t EmptyString) in
  if (n =? 9)%N then esc "t"%char
  else if (n =? 10)%N then esc "n"%char
  else if (n =? 13)%N then esc "r"%char
  else String backslash ("u{" +:+ hex_go 6 n "}").

(** [pending] is the code point of a character whose bytes are still being read. *)
Fixpoint header_safe_go (pending : option N) (s : string) : string :=
  let flush := match pending with Some n => escape_point n | None => EmptyString end in
  match s with
  | EmptyString => flush
  | String c s =>
      let n := N_of_ascii c in
      if is_continuation c then header_safe_go (Some (default 0 pending * 64 + (n - 128))%N) s
      else flush +:+
        if (32 <=? n)%N && (n <? 127)%N then String c (header_safe_go None s)
        else if (n <? 128)%N then escape_point n +:+ header_safe_go None s
        else if (n <? 224)%N then header_safe_go (Some (n - 192)%N) s
        else if (n <? 240)%N then header_safe_go (Some (n - 224)%N) s
        else header_safe_go (Some (n - 240)%N) s
  end.

Definition header_safe (text : string) : string := header_safe_go None text.

Section warnings.
Context {text : Type} {CD : Codec text} {E : Type} `{!ImposterManager E} {ftext : Type} (L : Local).

Definition config_refusal (t : Tables text) (port : N) : option string :=
  row ← configs t !! port; result_err (admit_row L row).

Definition flow_store_refusal (t : Tables text) (port : N) : option string :=
  stored ← result_ok (read_config t port);
  stored ← stored;
  config ← result_ok (from_text (A := ImposterConfig) stored);
  result_err (FlowConfig_from_imposter config).

Definition engine_refusal (t : Tables text) (d : DriveState E ftext) (port : N) : option string :=
  match config_refusal t port with
  | Some reason => Some ("config refused by this engine version: " +:+ header_safe reason +:+ " - PUT a corrected config")
  | None =>
      match dv_apply_failures d !! port with
      | Some reason => Some reason
      | None => (fun r => "flow store refused: " +:+ r) <$> flow_store_refusal t port
      end
  end.

Definition local_engine_failure (t : Tables text) (d : DriveState E ftext) (params : list (string * string)) : option string :=
  port ← port_param params; (fun reason => "local-engine=" +:+ reason) <$> engine_refusal t d port.

Definition local_bind_failure (d : DriveState E ftext) (params : list (string * string)) : option string :=
  port ← port_param params; (fun reason => pretty port +:+ "=" +:+ reason) <$> bind_failure d port.
End warnings.

(** ** Committing a prepared write *)

Definition display_too_large (e : EntryTooLarge) : string :=
  "log entry is " +:+ pretty (et_size e) +:+ " bytes serialized, over the " +:+ pretty (et_limit e) +:+ "-byte log entry bound".

Definition NodeError_display (e : NodeError) : string :=
  match e with
  | NodeStorage d => "raft storage: " +:+ d
  | NodeBind d => "bind cluster port: " +:+ d
  | NodeRuntime d => "raft runtime: " +:+ d
  | NodeInit d => "cluster init: " +:+ d
  | NodeWrite d => "client write: " +:+ d
  | NodeUnavailable d => "no reachable leader: " +:+ d
  | NodeEntryTooLarge e => "write refused: " +:+ display_too_large e
  | NodeMembership d => "membership: " +:+ d
  | NodeTimeout what d => "timed out waiting for " +:+ what +:+ ": " +:+ d
  | NodeNotLeader None => "not leader (leader: None)"
  | NodeNotLeader (Some id) => "not leader (leader: Some(" +:+ pretty id +:+ "))"
  | NodeAlreadyInitialized => "cluster already initialized"
  end.

(** A stable sort by key: each element goes before the first that is not smaller. *)
Fixpoint insert_by {A} (key : A -> nat) (x : A) (l : list A) : list A :=
  match l with
  | [] => [x]
  | y :: l => if (key x <=? key y)%nat then x :: y :: l else y :: insert_by key x l
  end.

Definition sort_by_key {A} (key : A -> nat) (l : list A) : list A := foldr (insert_by key) [] l.

(** The place of an entry's port in the order asked for; an entry not named there goes last. *)
Definition listing_rank (order : list N) (entry : option N * string) : nat :=
  match entry.1 ≫= fun port => position (fun wanted => (wanted =? port)%N) order with
  | Some rank => rank
  | None => length order
  end.

Definition order_imposters {AE : AdminEngine} (body : string) (order : list N) : result string string :=
  entries ← parse_listing body;
  Ok ("{" +:+ quoted json_escape_char "imposters" +:+ ":[" +:+ join "," (snd <$> sort_by_key (listing_rank order) entries) +:+ "]}").

(** What a committed write waits for before it is answered. *)
Inductive WriteBarrier := BarrierNone | ReadyNodes.

Section commit.
Context {HT : HeaderText} {itext text : Type} `{!Serde itext ControlRequest} {CD : Codec text} {ER : EngineRules} {AE : AdminEngine}.
Context {E : Type} `{!ImposterManager E} {ftext : Type}.
Context (written : ControlRequest -> option N) (L : Local) (me : NodeId) (level : WriteBarrier).
Context (fetch : string -> result Reply (N * option string * string)).
Implicit Types (w : World itext text).

Definition with_op_id (id : string) (r : Reply) : Reply := set_header HEADER_OP_ID id r.

(** The ids a client can ask about, which are those that were parked. *)
Definition accepted_reply (base : string) (ids : list string) : Reply :=
  let field name value := quoted json_escape_char name +:+ ":" +:+ value in
  with_op_id base (buffered 202
    ("{" +:+ field "opId" (quoted json_escape_char base) +:+ ","
     +:+ field "opIds" ("[" +:+ join "," (quoted json_escape_char <$> ids) +:+ "]") +:+ "}") json_content_type).

(** The answer to a write left parked; [late] is one whose deadline passed. *)
Definition parked_reply (late : bool) (base : string) (e : NodeError) : Reply :=
  with_op_id base
    (if late then refuse 504 Timeout "write did not commit within the deadline; parked for replay"
     else match e with
     | NodeUnavailable detail =>
         Typed (typed_error 503 Unavailable ("no quorum / leader unreachable (parked for replay): " +:+ detail)) [("retry-after", "1")]%string
     | e => internal_reply (NodeError_display e)
     end).

Definition ok_status (status : N) : bool := (200 <=? status)%N && (status <? 300)%N.

Definition render_reply (render : Render.t) : result Reply Reply :=
  match render with
  | Render.Captured body content_type status => Ok (buffered status body content_type)
  | Render.FetchAfter path status =>
      '(fetched, content_type, body) ← fetch path;
      Ok (buffered (if ok_status fetched then status else fetched) body content_type)
  | Render.FetchAfterOrdered path status order =>
      '(fetched, content_type, body) ← fetch path;
      if ok_status fetched then
        match order_imposters body order with
        | Ok ordered => Ok (buffered status ordered content_type)
        | Err e => Err (internal_reply ("render reorder: " +:+ e))
        end
      else Ok (buffered fetched body content_type)
  end.

(** What the node adds to a committed write's answer. *)
Definition decorate_write (t : Tables text) (d : DriveState E ftext) (barrier : BarrierOutcome) (port : option N)
    (id : string) (revision : N) (r : Reply) : Reply :=
  let r := set_header HEADER_REVISION (revision_token port revision) r in
  let r := with_op_id id r in
  let r := match port ≫= fun port => (fun reason => pretty port +:+ "=" +:+ reason) <$> bind_failure d port with
           | Some marker => set_header HEADER_BIND_FAILURES marker r
           | None => r
           end in
  let warnings := barrier_warnings barrier
    ++ match port ≫= engine_refusal L t d with Some failure => ["local-engine=" +:+ failure] | None => [] end in
  match warnings with [] => r | _ => set_header HEADER_WARNINGS (join "," warnings) r end.

(** What the commit of a write meets: a ledger that cannot be written and its error, the fate of
    each submit, a deadline that passes, whether this node applies the write in time, what the
    fleet's barrier finds, and the node afterwards. *)
Record Meets := {
  mt_full : ControlRequest -> bool;
  mt_full_error : string;
  mt_fates : ControlRequest -> Fate * bool;
  mt_late : bool;
  mt_local_applied : bool;
  mt_fleet_applied : BarrierOutcome;
  mt_drive : DriveState E ftext;
}.

Definition write_barrier (m : Meets) : BarrierOutcome :=
  match level with
  | BarrierNone =>
      if mt_local_applied m then {| bo_unapplied := []; bo_unreachable := [] |}
      else {| bo_unapplied := [me]; bo_unreachable := [] |}
  | ReadyNodes => mt_fleet_applied m
  end.

Definition commit_write (m : Meets) (base : string) (mutation : Mutation) (requests : list ControlRequest) w : World itext text * Reply :=
  match Intents.run_mutation written L (mt_full m) (mt_fates m) requests w with
  | (w, TooLargeToReplicate e) => (w, refuse 413 RequestTooLarge ("the write is too large to replicate: " +:+ display_too_large e))
  | (w, CannotAccept) => (w, refuse 500 InternalError ("cannot durably accept the write: " +:+ mt_full_error m))
  | (w, Intents.Accepted ids) => (w, accepted_reply base ids)
  | (w, ParkedForReplay e) => (w, parked_reply (mt_late m) base e)
  | (w, Intents.Refused reason) => (w, refusal_reply reason)
  | (w, Committed None) => (w, refuse 400 BadData "nothing to apply")
  | (w, Committed (Some (id, response))) =>
      (w, match render_reply (mu_render mutation) with
          | Err r => r
          | Ok r => decorate_write (tables (wd_sm w)) (mt_drive m) (write_barrier m) (mu_port mutation) id (cr_revision response) r
          end)
  end.

(** The accepted answer of the asynchronous mode. *)
Definition accept_write (m : Meets) (base : string) (requests : list ControlRequest) w : World itext text * Reply :=
  match run_mutation_async written (mt_full m) requests w with
  | (w, TooLargeToReplicate e) => (w, refuse 413 RequestTooLarge ("the write is too large to replicate: " +:+ display_too_large e))
  | (w, CannotAccept) => (w, refuse 500 InternalError ("cannot durably accept the write: " +:+ mt_full_error m))
  | (w, _) => (w, accepted_reply base (op_id <$> requests))
  end.
End commit.

(** ** A terminated write, end to end *)

Section terminate.
Context {HT : HeaderText} {itext text : Type} `{!Serde itext ControlRequest} {CD : Codec text} {ER : EngineRules} {AE : AdminEngine} {UR : UuidRules}.
Context {E : Type} `{!ImposterManager E} {ftext : Type}.
Context (written : ControlRequest -> option N) (L : Local) (me : NodeId) (level : WriteBarrier).
Context (fetch : string -> result Reply (N * option string * string)).
Context (allow_injection admin_async : bool).
Implicit Types (w : World itext text).

Definition if_match_header (headers : Headers) : result Reply (option string) :=
  match headers_get "if-match" headers with
  | None => Ok None
  | Some value =>
      match to_str value with
      | Some value => Ok (Some value)
      | None => Err (refuse 400 BadData "If-Match is not readable ASCII; expected <port>@<revision> or a bare revision")
      end
  end.

Definition is_replace_all (kind : Terminated.t) : bool := match kind with Terminated.ReplaceAllImposters => true | _ => false end.
Definition is_create (kind : Terminated.t) : bool := match kind with Terminated.Create => true | _ => false end.

(** [view] is the node's applied tables when the write is built and checked, [body] the
    request's, or why it could not be read. *)
Definition terminate_write (m : Meets (E := E) (ftext := ftext)) (view : Tables text) (kind : Terminated.t) (query : option string)
    (headers : Headers) (body : result string bytes) (fresh : string) (now_secs : N) w : World itext text * Reply :=
  match (if is_replace_all kind then reconcile_param query else Ok false) with
  | Err message => (w, refuse 400 BadData message)
  | Ok reconcile =>
      let idempotency := headers_get "idempotency-key" headers ≫= to_str in
      match if_match_header headers with
      | Err r => (w, r)
      | Ok if_match =>
          match body with
          | Err e => (w, refuse 413 RequestTooLarge ("admin request body refused: " +:+ e))
          | Ok body =>
              match build_mutation view fetch kind body with
              | Err r => (w, r)
              | Ok mutation =>
                  let mutation := if is_replace_all kind && negb reconcile then restart_puts mutation else mutation in
                  match prepare view L allow_injection mutation (is_replace_all kind) (is_create kind) fresh idempotency if_match now_secs with
                  | Err r => (w, r)
                  | Ok requests =>
                      let base := base_op_id fresh idempotency in
                      if admin_async then accept_write written m base requests w
                      else commit_write written L me level fetch m base mutation requests w
                  end
              end
          end
      end
  end.

(** ** A space's teardown *)

Definition teardown_op (port : N) (flow : string) : ControlOp := PatchStubs port [DeleteBySpace flow].

Definition commit_teardown_half (full_error : string) (kc : KeyCommit) (o : ControlOp) (what : string) w : World itext text * result Reply () :=
  match validate o with
  | Err reason => (w, Err (refusal_reply reason))
  | Ok _ =>
      let request := mint_request (kc_op_id kc) o Unconditional (kc_now kc) in
      if kc_full kc then
        (w, Err (internal_reply ("flow-state teardown succeeded but the " +:+ what +:+ " could not be durably accepted: " +:+ full_error)))
      else
        let w := set_ledger (park_intent request) w in
        let '(w, committed) := submit_in written L (kc_fate kc) request w in
        let failed status kind message := (w, Err (with_op_id (kc_op_id kc) (refuse status kind ("flow-state teardown succeeded but the " +:+ what +:+ message)))) in
        if kc_late kc then failed 504%N Timeout " did not commit within the deadline; parked for replay"
        else
          match committed with
          | Err (NodeUnavailable detail) => failed 503%N Unavailable (" found no quorum/leader (parked for replay): " +:+ detail)
          | Err e => failed 500%N InternalError (" failed: " +:+ NodeError_display e)
          | Ok response =>
              let w := retire (kc_stuck kc) (op_id request) w in
              match cr_outcome response with
              | Failed reason => (w, Err (refusal_reply reason))
              | Control.Applied => (w, Ok tt)
              end
          end
  end.
End terminate.

(** ** Spaces *)

Section spaces.
Context (xxh64 : bytes -> N -> N) {text : Type} {CD : Codec text}.

Definition imposter_scope (t : Tables text) (port : N) : option ContextScope.t :=
  stored ← result_ok (read_config t port);
  stored ← stored;
  config ← result_ok (from_text (A := ImposterConfig) stored);
  fc_scope <$> result_ok (FlowConfig_from_imposter config).

Definition space_owner (t : Tables text) (ring : Ring) (port : N) (flow_id : string) : option NodeId :=
  match members ring with
  | [] => None
  | _ => owner xxh64 ring (OwnedKey_flow (ContextScope.scoped_flow_id (default ContextScope.Imposter (imposter_scope t port)) (Some port) flow_id))
  end.

Definition flow_state_resolved (t : Tables text) (port : N) : option ResolvedKnobs :=
  stored ← result_ok (read_config t port);
  stored ← stored;
  config ← result_ok (from_text (A := ImposterConfig) stored);
  result_ok (ResolvedKnobs_from_imposter config).

Record SpacesListing := {
  sl_spaces : list SpaceRow;
  sl_partial : bool;
  sl_unavailable : option string;
  sl_durability : option (Knob Durability.t);
}.

(** [enumerate] is the fan-out over the fleet for a prefix. *)
Definition terminate_spaces_list (t : Tables text) (enumerate : string -> list SpaceRow * bool) (port : N) : SpacesListing :=
  let '(rows, partial_, unavailable) :=
    match imposter_scope t port with
    | None => ([], true, Some "scope-unresolved"%string)
    | Some scope => let '(rows, partial_) := enumerate (ContextScope.prefix_for scope (Some port)) in (rows, partial_, None)
    end in
  {| sl_spaces := rows; sl_partial := partial_; sl_unavailable := unavailable; sl_durability := rk_durability <$> flow_state_resolved t port |}.
End spaces.
