(* ===== verification/FrontFacts.v ===== *)
(** * Facts about the admin front

    Every admin path is behind the gate; a whole-set replace never passes through a fleet
    without the imposters it keeps; the listing it answers with is in the order of the
    request; a write the front admits leaves a config the engine runs; a stale token is a
    conflict, and a clear of the recordings that carries any token is one too. *)

From S2P Require Import Prelude Upstream Ring Node Auth Rpc FlowConfig Shard Flow Drive Control Recorded StateMachine Demo ApplyFacts Projection Intents Session SessionFacts Barrier Routing RoutingFacts Front FrontHandle.

(** ** The gate *)

Section gate.
Context {HT : HeaderText} `{TC : TokenCrypto} {text : Type} {CD : Codec text} {UR : UuidRules}.

Lemma gated_cases st (s : Sm text) now req d :
  (gated st s now req d = d /\ authenticate st s req now = Ok tt)
  \/ exists r, gated st s now req d = Refuse r /\ authenticate st s req now = Err r.
Proof. unfold gated. destruct (authenticate st s req now) as [[]|r]; [by left|right; by exists r]. Qed.

(** C21: nothing of the admin surface is reached without the gate: a request goes to the fleet's
    projection, the route table, the contract, a terminated route or the engine only when
    it is authenticated; what goes elsewhere is gateway traffic, a page of the console, or one of
    the three session exchanges, each at its own path, and what is refused is refused by
    the gate or for a method a session path does not have. *)
Theorem front_gated console_enabled st (s : Sm text) now req path :
  match handle console_enabled st s now req path with
  | Gateway rest => path = "/__rift/" +:+ rest
  | Console => console_enabled = true /\ (path = "/console" \/ starts_with "/console/" path = true)
  | Login => path = "/session" /\ rq_method req = POST
  | Logout => path = "/session" /\ rq_method req = DELETE
  | Rotate => path = "/session/rotate" /\ rq_method req = POST
  | Refuse r => r = bare 405 \/ authenticate st s req now = Err r
  | Fleet _ | ReadRoutes | Contract | Terminate _ | Proxied => authenticate st s req now = Ok tt
  end.
Proof.
  unfold handle. destruct (strip_prefix "/__rift/" path) as [rest|] eqn:Hg; [by apply strip_prefix_Some in Hg|].
  destruct (console_enabled && console_matches path) eqn:Hc.
  { apply andb_true_iff in Hc as [-> Hc]. split; [done|]. unfold console_matches in Hc.
    apply orb_true_iff in Hc as [Hc%String.eqb_eq|Hc]; auto. }
  destruct (String.eqb_spec path "/session") as [->|_]; [destruct (rq_method req); auto|].
  destruct (String.eqb_spec path "/session/rotate") as [->|_]; [destruct (rq_method req); auto|].
  destruct (fleet_classify (rq_method req) path) as [route|].
  { destruct (gated_cases st s now req (Fleet route)) as [[-> Ha]|(r & -> & Ha)]; auto. }
  destruct (bool_decide (rq_method req = GET) && String.eqb path "/front-door/routes").
  { destruct (gated_cases st s now req ReadRoutes) as [[-> Ha]|(r & -> & Ha)]; auto. }
  destruct (bool_decide (rq_method req = GET) && String.eqb path "/openapi.json").
  { destruct (gated_cases st s now req Contract) as [[-> Ha]|(r & -> & Ha)]; auto. }
  destruct (classify (rq_method req) path) as [kind|].
  - destruct (gated_cases st s now req (Terminate kind)) as [[-> Ha]|(r & -> & Ha)]; auto.
  - destruct (gated_cases st s now req Proxied) as [[-> Ha]|(r & -> & Ha)]; auto.
Qed.
End gate.

(** ** Replacing the whole set *)

Section replace.
Context {text : Type} {CD : Codec text} {ER : EngineRules} {AE : AdminEngine}.

(** The tables after a run of ops, each at its own index, on a node of its own verdicts. *)
Fixpoint apply_ops (run : list (Local * ControlOp * N)) (t : Tables text) : Tables text :=
  match run with
  | [] => t
  | (L, o, index) :: run => apply_ops run (mutate_tables L t o index).1
  end.

Lemma dom_put L (t : Tables text) config restart index port : cfg_port config = Some port ->
  dom (configs (put_imposter L t config restart index).1) = {[port]} ∪ dom (configs t).
Proof.
  intros Hp. unfold put_imposter. rewrite Hp. destruct (degraded L); simpl; rewrite dom_insert_L; f_equal;
    (destruct (decide (restart = Some Restart.Imposter)); simpl; by rewrite configs_put_forget).
Qed.

Lemma dom_delete_imposter L (t : Tables text) port :
  dom (configs (StateMachine.delete_imposter L t port).1) = dom (configs t) ∖ {[port]}.
Proof. unfold StateMachine.delete_imposter. destruct (degraded L); simpl; by rewrite dom_delete_L. Qed.

(** The ports an op of a batch puts or deletes. *)
Definition put_port (o : ControlOp) : option N := match o with PutImposter config _ => cfg_port config | _ => None end.

Lemma apply_puts run (t : Tables text) : Forall (fun e => is_Some (put_port e.1.2)) run ->
  dom (configs (apply_ops run t)) = list_to_set (omap (fun e => put_port e.1.2) run) ∪ dom (configs t).
Proof.
  revert t. induction run as [|[[L o] index] run IH]; intros t; [set_solver|]. intros [[port Hp] Hr]%Forall_cons.
  cbn [apply_ops]. rewrite IH by done. simpl in Hp. destruct o; try done. simpl in Hp. cbn [mutate_tables].
  rewrite (dom_put _ _ _ _ _ _ Hp). cbn. rewrite Hp. set_solver.
Qed.

Definition deleted_port (o : ControlOp) : option N := match o with DeleteImposter port => Some port | _ => None end.

Lemma apply_deletes run (t : Tables text) : Forall (fun e => is_Some (deleted_port e.1.2)) run ->
  dom (configs (apply_ops run t)) = dom (configs t) ∖ list_to_set (omap (fun e => deleted_port e.1.2) run).
Proof.
  revert t. induction run as [|[[L o] index] run IH]; intros t; [set_solver|]. intros [[port Hp] Hr]%Forall_cons.
  cbn [apply_ops]. rewrite IH by done. simpl in Hp. destruct o; try done. simpl in Hp. injection Hp as ->. cbn [mutate_tables].
  rewrite dom_delete_imposter. cbn. set_solver.
Qed.

Lemma apply_ops_app a b (t : Tables text) : apply_ops (a ++ b) t = apply_ops b (apply_ops a t).
Proof. revert t. induction a as [|[[L o] i] a IH]; intros t; [done|]. simpl. by rewrite IH. Qed.

Lemma batch_puts_spec configs puts ports : batch_puts configs = Ok (puts, ports) ->
  Forall2 (fun o port => put_port o = Some port) puts ports /\ ports = omap cfg_port configs /\ length puts = length configs.
Proof.
  revert puts ports. induction configs as [|c configs IH]; intros puts ports H; cbn [batch_puts] in H.
  - injection H as <- <-. split_and!; [constructor|done|done].
  - destruct (cfg_port c) as [p|] eqn:Hp; [|done]. destruct (batch_puts configs) as [[ops ps]|]; [|done]. injection H as <- <-.
    destruct (IH _ _ eq_refl) as (Hf & -> & Hl). split_and!; [by constructor|cbn; by rewrite Hp|simpl; by rewrite Hl].
Qed.

Lemma elem_of_configured_ports (t : Tables text) port : port ∈ configured_ports t <-> port ∈ dom (configs t).
Proof.
  unfold configured_ports. rewrite list_elem_of_fmap, elem_of_dom. split.
  - intros ([p row] & -> & H%elem_of_port_rows). by exists row.
  - intros [row H]. exists (port, row). split; [done|]. by apply elem_of_port_rows.
Qed.

(** The ops of a replace: its puts, then the deletes of what it leaves out. *)
Lemma replace_all_ops (t : Tables text) imposters mutation :
  imposters <> [] -> replace_all t imposters = Ok mutation ->
  exists puts pruned, mu_ops mutation = puts ++ (DeleteImposter <$> pruned)
    /\ Forall2 (fun o port => put_port o = Some port) puts (omap cfg_port imposters) /\ length puts = length imposters
    /\ forall port, port ∈ pruned <-> port ∈ dom (configs t) /\ port ∉ omap cfg_port imposters.
Proof.
  intros Hne. unfold replace_all. destruct (batch_puts imposters) as [[puts ports]|] eqn:Hb; [|done].
  destruct (batch_puts_spec _ _ _ Hb) as (Hf & -> & Hl). destruct puts as [|put puts]; [by destruct imposters|].
  intros [= <-]. exists (put :: puts). eexists. split; [done|]. split; [done|]. split; [done|].
  intros port. rewrite elem_of_List_filter, elem_of_configured_ports, negb_true_iff, bool_decide_eq_false. done.
Qed.

Lemma omap_Forall2 {A} (f : A -> option N) l ps : Forall2 (fun o p => f o = Some p) l ps -> omap f l = ps /\ Forall (fun o => is_Some (f o)) l.
Proof. induction 1 as [|o p l ps Ho _ [IH Hf]]; [done|]. cbn. rewrite Ho. split; [by f_equal|]. by constructor; [rewrite Ho|]. Qed.

Lemma run_ops (f : ControlOp -> option N) (run : list (Local * ControlOp * N)) :
  omap (fun e => f e.1.2) run = omap f run.*1.*2 /\ (Forall (fun o => is_Some (f o)) run.*1.*2 -> Forall (fun e => is_Some (f e.1.2)) run).
Proof.
  induction run as [|[[L o] i] run [IH Hf]]; [done|]. split.
  - cbn. destruct (f o); by rewrite IH.
  - intros [Ho Hr]%Forall_cons. constructor; [done|by apply Hf].
Qed.

(** The state of a replace at any point of its run. *)
Lemma replace_run (t : Tables text) (kept : list N) puts pruned run n :
  Forall2 (fun o port => put_port o = Some port) puts kept ->
  (forall port, port ∈ pruned <-> port ∈ dom (configs t) /\ port ∉ kept) ->
  run.*1.*2 = puts ++ (DeleteImposter <$> pruned) ->
  let now := dom (configs (apply_ops (take n run) t)) in
  (n <= length puts -> dom (configs t) ⊆ now) /\ list_to_set kept ∩ dom (configs t) ⊆ now
  /\ (length run <= n -> now = list_to_set kept).
Proof.
  intros Hputs Hpruned Hrun. set (run1 := take (length puts) run). set (run2 := drop (length puts) run).
  assert (H1 : run1.*1.*2 = puts) by (unfold run1; rewrite !fmap_take, Hrun; by rewrite take_app_length).
  assert (H2 : run2.*1.*2 = DeleteImposter <$> pruned) by (unfold run2; rewrite !fmap_drop, Hrun; by rewrite drop_app_length).
  assert (Hl1 : length run1 = length puts) by (rewrite <- H1; by rewrite !length_fmap).
  destruct (omap_Forall2 _ _ _ Hputs) as [Hk Hsome].
  assert (Hp1 : Forall (fun e => is_Some (put_port e.1.2)) run1) by (apply run_ops; by rewrite H1).
  assert (Hd2 : Forall (fun e => is_Some (deleted_port e.1.2)) run2).
  { apply run_ops. rewrite H2. apply Forall_fmap, Forall_forall. intros p _. by exists p. }
  assert (Hdel : omap (fun e => deleted_port e.1.2) run2 = pruned).
  { rewrite (proj1 (run_ops deleted_port run2)), H2. clear. induction pruned as [|p l IH]; [done|]. cbn. by rewrite IH. }
  assert (Hput : omap (fun e => put_port e.1.2) run1 = kept) by (by rewrite (proj1 (run_ops put_port run1)), H1).
  rewrite <- (take_drop (length puts) run). fold run1 run2. rewrite take_app, apply_ops_app, Hl1.
  intros now. subst now. rewrite apply_deletes by (by apply Forall_take). rewrite apply_puts by (by apply Forall_take).
  assert (Hsub : forall x, x ∈ omap (fun e => deleted_port e.1.2) (take (n - length puts) run2) -> x ∈ pruned).
  { intros x Hx. rewrite <- Hdel. apply list_elem_of_omap in Hx as (e & He & Hx). apply list_elem_of_omap. exists e. split; [|done].
    by eapply elem_of_take_in. }
  split_and!.
  - intros Hn. replace (n - length puts) with 0 by lia. cbn. set_solver.
  - intros x [Hx Hd]%elem_of_intersection. apply elem_of_difference. split; [set_solver|].
    intros Hc%elem_of_list_to_set%Hsub%Hpruned. apply elem_of_list_to_set in Hx. tauto.
  - intros Hn. rewrite length_app, Hl1 in Hn. rewrite !take_ge, Hput, Hdel by lia. apply set_eq. intros x.
    rewrite elem_of_difference, elem_of_union, !elem_of_list_to_set, Hpruned. destruct (decide (x ∈ kept)); tauto.
Qed.

Lemma restart_puts_ports mutation puts pruned kept :
  mu_ops mutation = puts ++ (DeleteImposter <$> pruned) -> Forall2 (fun o port => put_port o = Some port) puts kept ->
  exists puts', mu_ops (restart_puts mutation) = puts' ++ (DeleteImposter <$> pruned)
    /\ Forall2 (fun o port => put_port o = Some port) puts' kept /\ length puts' = length puts.
Proof.
  intros Hm Hf. eexists. unfold restart_puts. cbn [mu_ops]. rewrite Hm, fmap_app. split_and!.
  - f_equal. clear. induction pruned as [|p l IH]; [done|]. rewrite !fmap_cons. by rewrite IH.
  - apply Forall2_fmap_l. eapply Forall2_impl; [exact Hf|]. intros o p Ho. by destruct o.
  - by rewrite length_fmap.
Qed.

(** C22: a replace of the whole set is never seen as a fleet that lost what it keeps: wherever its run of
    entries stops, every imposter that was there and is in the request is still there;
    until its last put nothing at all is gone; and when all of it is applied the ports are
    those of the request. *)
Theorem replace_all_keeps (t : Tables text) fetch body imposters mutation reconcile run n :
  decode_batch body = Joined (Ok imposters) -> imposters <> [] ->
  build_mutation t fetch Terminated.ReplaceAllImposters body = Ok mutation ->
  run.*1.*2 = mu_ops (if reconcile : bool then mutation else restart_puts mutation) ->
  let now := dom (configs (apply_ops (take n run) t)) in
  (n <= length imposters -> dom (configs t) ⊆ now)
  /\ list_to_set (omap cfg_port imposters) ∩ dom (configs t) ⊆ now
  /\ (length run <= n -> now = list_to_set (omap cfg_port imposters)).
Proof.
  intros Hd Hne Hb Hrun. cbn [build_mutation] in Hb. rewrite Hd in Hb. cbn in Hb.
  destruct (replace_all_ops _ _ _ Hne Hb) as (puts & pruned & Hops & Hf & Hl & Hp). rewrite <- Hl. destruct reconcile.
  - apply (replace_run t _ puts pruned); [done|done|congruence].
  - destruct (restart_puts_ports _ _ _ _ Hops Hf) as (puts' & Hops' & Hf' & Hl'). rewrite <- Hl'.
    apply (replace_run t _ puts' pruned); [done|done|congruence].
Qed.
End replace.

(** ** The order of a listing *)

Section order.
Context {A : Type} (key : A -> nat).

Lemma insert_by_Permutation x l : insert_by key x l ≡ₚ x :: l.
Proof. induction l as [|y l IH]; [done|]. cbn. destruct (key x <=? key y)%nat; [done|]. by rewrite IH, Permutation_swap. Qed.

Lemma sort_by_key_Permutation l : sort_by_key key l ≡ₚ l.
Proof. induction l as [|x l IH]; [done|]. cbn. by rewrite insert_by_Permutation, IH. Qed.

Lemma insert_by_sorted x l : StronglySorted (fun a b => key a <= key b) l -> StronglySorted (fun a b => key a <= key b) (insert_by key x l).
Proof.
  induction 1 as [|y l Hs IH Hy]; [repeat constructor|]. cbn. destruct (Nat.leb_spec (key x) (key y)).
  - constructor; [by constructor|]. constructor; [done|]. eapply Forall_impl; [exact Hy|]. simpl. lia.
  - constructor; [done|]. rewrite insert_by_Permutation. constructor; [lia|done].
Qed.

Lemma sort_by_key_sorted l : StronglySorted (fun a b => key a <= key b) (sort_by_key key l).
Proof. induction l as [|x l IH]; [constructor|]. by apply insert_by_sorted. Qed.

Lemma insert_by_stable k x l :
  List.filter (fun a => (key a =? k)%nat) (insert_by key x l) = List.filter (fun a => (key a =? k)%nat) (x :: l).
Proof.
  induction l as [|y l IH]; [done|]. cbn [insert_by]. destruct (Nat.leb_spec (key x) (key y)) as [Hle|Hlt]; [done|].
  cbn [List.filter] in *. rewrite IH. destruct (Nat.eqb_spec (key x) k), (Nat.eqb_spec (key y) k); [lia|done..].
Qed.

Lemma sort_by_key_stable k l :
  List.filter (fun a => (key a =? k)%nat) (sort_by_key key l) = List.filter (fun a => (key a =? k)%nat) l.
Proof. induction l as [|x l IH]; [done|]. change (sort_by_key key (x :: l)) with (insert_by key x (sort_by_key key l)). rewrite insert_by_stable. cbn [List.filter]. by rewrite IH. Qed.
End order.

(** A replace answers with the engine's listing in the order of the request: every entry once, those
    the request named in the order it named them, the others after them as the engine had
    them. *)
Theorem listing_in_request_order {AE : AdminEngine} body order entries out :
  parse_listing body = Ok entries -> order_imposters body order = Ok out ->
  exists sorted, out = "{" +:+ quoted json_escape_char "imposters" +:+ ":[" +:+ join "," (snd <$> sorted) +:+ "]}"
    /\ sorted ≡ₚ entries
    /\ StronglySorted (fun a b => listing_rank order a <= listing_rank order b) sorted
    /\ forall rank, List.filter (fun e => (listing_rank order e =? rank)%nat) sorted
                   = List.filter (fun e => (listing_rank order e =? rank)%nat) entries.
Proof.
  unfold order_imposters. intros ->. cbn. intros [= <-]. exists (sort_by_key (listing_rank order) entries).
  split_and!; [done|apply sort_by_key_Permutation|apply sort_by_key_sorted|intros rank; apply sort_by_key_stable].
Qed.

(** ** Admission *)

Section admission.
Context {text : Type} {CD : Codec text} {ER : EngineRules} {AE : AdminEngine}.

Definition writes_content (o : ControlOp) : bool :=
  match o with PutImposter _ _ => true | PatchStubs _ edit => existsb adds_content edit | _ => false end.

Lemma read_written (t : Tables text) port config enabled index :
  read_record (write_record port (Build_StoredImposter (to_text config) enabled index) t) port
  = Ok (Build_StoredImposter (to_text config) enabled index, config).
Proof. unfold read_record, write_record. simpl. rewrite lookup_insert_eq, from_to_text. cbn [si_config]. by rewrite from_to_text. Qed.

Lemma read_record_markers (t : Tables text) f port : read_record (set_proxy_recorded f t) port = read_record t port.
Proof. done. Qed.

Lemma read_record_config (t : Tables text) port record config : read_record t port = Ok (record, config) ->
  read_config t port = Ok (Some (si_config record)) /\ from_text (si_config record) = Ok config.
Proof.
  unfold read_record, read_config. destruct (configs t !! port) as [row|]; [|done].
  destruct (from_text (A := StoredImposter text) row) as [stored|]; [|done].
  destruct (from_text (A := ImposterConfig) (si_config stored)) as [c|] eqn:Hc; [|done]. by intros [= <- <-].
Qed.

(** C24: a write the front admits is one the engine runs: when an op that adds content passes the check
    and then applies to the state it was checked against, the config stored for its port is
    one the engine accepts. *)
Theorem admitted_write_runs (t : Tables text) L o batch_index index t' actions :
  writes_content o = true -> admit_op t L (o, batch_index) = Ok tt -> mutate_tables L t o index = (t', Ok actions) ->
  exists port record config, precondition_target o = Some (PreconditionTarget.Imposter port)
    /\ read_record t' port = Ok (record, config) /\ verdict L config = Ok tt.
Proof.
  intros Hw Ha Hm. destruct o as [config restart|port edit| | | | | | | | |]; try done.
  - unfold admit_op in Ha. cbn in Ha. destruct (verdict L config) as [[]|] eqn:Hv; [|done].
    cbn [mutate_tables] in Hm. unfold put_imposter in Hm. destruct (cfg_port config) as [port|] eqn:Hp; [|done].
    exists port, (Build_StoredImposter (to_text config) (cfg_enabled config) index), config. cbn [precondition_target]. rewrite Hp.
    split; [done|]. split; [|done]. destruct (degraded L); injection Hm as <- _; apply read_written.
  - cbn [mutate_tables] in Hm. unfold patch_stubs in Hm. destruct (read_record t port) as [[record config]|] eqn:Hr; [|done].
    destruct (read_record_config _ _ _ _ Hr) as [Hc Hd]. destruct (apply_edit (cfg_stubs config) edit) as [after|] eqn:He; [|done].
    injection Hm as <- _. unfold admit_op in Ha. cbn [fst] in Ha. rewrite Hc in Ha. cbn [admission_refusal] in Ha.
    cbn in Hw. rewrite Hw in Ha. cbn in Ha. rewrite Hd in Ha. cbn in Ha. unfold edited_stubs in Ha. rewrite He in Ha. cbn in Ha.
    destruct (verdict L (with_stubs config after)) as [[]|] eqn:Hv; [|done].
    exists port, (Build_StoredImposter (to_text (with_stubs config after)) (si_enabled record) index), (with_stubs config after).
    split; [done|]. split; [|done]. rewrite read_record_markers. apply read_written.
Qed.
End admission.

(** ** Conditional writes *)

Section conditional.
Context {text : Type} {CD : Codec text} {ER : EngineRules} {AE : AdminEngine} {UR : UuidRules}.

(** An op that is conditioned on the port's record, or a clear, which cannot be conditioned. *)
Definition on_port (port : N) (o : ControlOp) : Prop :=
  precondition_target o = Some (PreconditionTarget.Imposter port) \/ exists p, o = ProxyRecordedClear p.

Lemma stored_config_port (t : Tables text) port config : tables_wf t -> stored_config t port = Ok config -> cfg_port config = Some port.
Proof.
  intros Hwf. unfold stored_config, read_config. destruct (configs t !! port) as [row|] eqn:Hrow; [|done].
  destruct (read_record_wf t port Hwf) as (c & rev & Hr & Hp & _); [by exists row|]. unfold read_record in Hr. rewrite Hrow in Hr.
  destruct (from_text (A := StoredImposter text) row) as [stored|]; [|done].
  destruct (from_text (A := ImposterConfig) (si_config stored)) as [c'|]; [|done]. injection Hr as _ <-. by intros [= <-].
Qed.

Lemma bind_Ok {E A B} (m : result E A) (f : A -> result E B) b : m ≫= f = Ok b -> exists a, m = Ok a /\ f a = Ok b.
Proof. destruct m as [a|]; [|done]. intros H. by exists a. Qed.

(** The ops of a mutation with a port are conditioned on that port. *)
Lemma build_on_port (t : Tables text) fetch kind body mutation port : tables_wf t ->
  build_mutation t fetch kind body = Ok mutation -> mu_port mutation = Some port -> Forall (on_port port) (mu_ops mutation).
Proof.
  intros Hwf H Hp.
  destruct kind; cbn [build_mutation] in H;
    unfold add_space_stub, replace_stub_at, delete_stub_at, put_routes_mutation, delete_route_mutation in H;
    repeat match goal with
    | H : _ ≫= _ = Ok _ |- _ =>
        apply bind_Ok in H; let a := fresh "a" in let Ha := fresh "Ha" in destruct H as (a & Ha & H)
    | H : (let '(_, _) := ?p in _) = Ok _ |- _ => destruct p
    end;
    try discriminate H; try (injection H as <-; discriminate Hp);
    try (injection H as <-; cbn in Hp; injection Hp as <-; constructor; [first [by left|right; by eexists]|by constructor]).
  - destruct (cfg_port a) as [p|] eqn:Ha'; [|done]. injection H as <-. injection Hp as <-. constructor; [|done].
    left. cbn. by rewrite Ha'.
  - unfold replace_all in H. destruct (batch_puts a) as [[[|o ops] ports]|]; [| |done]; injection H as <-; discriminate Hp.
  - destruct (_ =? 404)%N; [done|]. injection H as <-. injection Hp as <-. constructor; [by left|done].
  - injection H as <-. injection Hp as <-. constructor; [|done]. left. cbn. by rewrite (stored_config_port t port0 a0).
  - destruct (stub_position _ _); [|done]. apply bind_Ok in H as (stub & _ & H). injection H as <-. injection Hp as <-.
    constructor; [|done]. left. cbn. by rewrite (stored_config_port t port0 a).
  - destruct (stub_position _ _); [|done]. injection H as <-. injection Hp as <-.
    constructor; [|done]. left. cbn. by rewrite (stored_config_port t port0 a).
  - destruct a; [done|]. apply bind_Ok in H as (stub & _ & H). injection H as <-. injection Hp as <-. constructor; [by left|done].
  - destruct (render_routes a); [|done]. injection H as <-. discriminate Hp.
  - destruct (route_table t); [|done]. destruct (List.find _ _); [|done]. destruct (render_route _); [|done]. injection H as <-. discriminate Hp.
Qed.

Lemma batch_indices_fst is_batch next ops : (batch_indices is_batch next ops).*1 = ops.
Proof.
  revert next. induction ops as [|o ops IH]; intros next; [done|]. destruct o; cbn [batch_indices]; try destruct is_batch;
    rewrite fmap_cons; cbn; by rewrite IH.
Qed.

Lemma each_map_Forall2 {A B} (f : A -> result Reply B) l l' : each_map f l = Ok l' -> Forall2 (fun x y => f x = Ok y) l l'.
Proof.
  revert l'. induction l as [|x l IH]; intros l' H; cbn in H; [injection H as <-; constructor|].
  destruct (f x) as [y|] eqn:Hx; [|done]. destruct (each_map f l) as [ys|] eqn:Hl; [|done]. injection H as <-. constructor; [done|by apply IH].
Qed.

(** Resolving an imposter's scripts leaves its port alone. *)
Definition resolve_keeps_port : Prop := forall c c', resolve_scripts c = Ok c' -> cfg_port c' = cfg_port c.

Lemma resolve_on_port (t : Tables text) port o o' : resolve_keeps_port ->
  resolve_op_scripts t o = Ok o' -> on_port port o.1 -> on_port port o'.1.
Proof.
  intros Hk. unfold resolve_op_scripts, on_port. destruct o as [[config restart|p edit| | | | | | | | |] bi]; cbn; try (by intros [= <-]).
  - destruct (resolve_scripts config) as [c|] eqn:Hc; [|done]. intros [= <-]. cbn. rewrite (Hk _ _ Hc). by intros [H|[p H]]; [left|].
  - destruct (existsb adds_content edit); [|by intros [= <-]]. destruct (stored_script_context t p); [|done].
    destruct (each_map _ edit); [|done]. intros [= <-]. by intros [H|[q H]]; [left|].
Qed.

(** What a prepared request is: an op of the mutation with its scripts resolved, under the
    precondition the client gave. *)
Lemma prepare_request (t : Tables text) L allow mutation is_batch create_only fresh idempotency if_match now requests request :
  prepare t L allow mutation is_batch create_only fresh idempotency if_match now = Ok requests -> request ∈ requests ->
  exists precondition o o', precondition_of mutation create_only if_match = Ok precondition
    /\ o.1 ∈ mu_ops mutation /\ resolve_op_scripts t o = Ok o' /\ op request = o'.1
    /\ expected_revision request = match precondition with OnRevision r => Some r | _ => None end
    /\ expect_absent request = match precondition with OnAbsent => true | _ => false end.
Proof.
  unfold prepare. intros H Hr. apply bind_Ok in H as (_ & _ & H). apply bind_Ok in H as (precondition & Hp & H).
  apply bind_Ok in H as (_ & _ & H). apply bind_Ok in H as (ops & Hops & H). do 3 apply bind_Ok in H as (_ & _ & H). injection H as <-.
  apply elem_of_lookup_imap in Hr as (i & o' & -> & Hi). apply each_map_Forall2 in Hops.
  destruct (Forall2_lookup_r _ _ _ _ _ Hops Hi) as (o & Ho & Hres). exists precondition, o, o'. split_and!; try done.
  apply list_elem_of_lookup_2 in Ho. rewrite <- (batch_indices_fst is_batch 0 (mu_ops mutation)). by apply list_elem_of_fmap_2.
Qed.

(** A precondition that fails on an op of the port is reported as a conflict. *)
Lemma stale_revision_conflict (t : Tables text) port o revision : tables_wf t -> on_port port o -> imposter_revision t port <> Some revision ->
  exists rest, check_expected_revision t o revision = Err ("revision conflict" +:+ rest).
Proof.
  intros Hwf Hon Hstale. unfold check_expected_revision. destruct Hon as [->|[p ->]]; [|by eexists]. unfold imposter_revision in Hstale.
  destruct (configs t !! port) as [row|] eqn:Hrow; [|by eexists]. cbn in Hstale.
  destruct (read_record_wf t port Hwf) as (c & rev & Hr & _); [by exists row|]. unfold read_record in Hr. rewrite Hrow in Hr.
  destruct (from_text (A := StoredImposter text) row) as [stored|]; [|done].
  destruct (N.eqb_spec (si_revision stored) revision) as [E|_]; [congruence|by eexists].
Qed.

(** A request prepared with a port's token is of that port and under the token's revision. *)
Lemma conditioned_request (view : Tables text) L fetch kind body mutation port allow is_batch create_only fresh idempotency revision now
    requests request :
  tables_wf view -> resolve_keeps_port -> (revision <= u64_max)%N -> (port <= u16_max)%N ->
  build_mutation view fetch kind body = Ok mutation -> mu_port mutation = Some port ->
  prepare view L allow mutation is_batch create_only fresh idempotency (Some (revision_token (Some port) revision)) now = Ok requests ->
  request ∈ requests -> on_port port (op request) /\ expected_revision request = Some revision /\ expect_absent request = false.
Proof.
  intros Hwv Hk Hrev Hport Hb Hmp Hprep Hreq.
  destruct (prepare_request _ _ _ _ _ _ _ _ _ _ _ _ Hprep Hreq) as (precondition & o & o' & Hpre & Ho & Hres & Hop & Hexp & Habs).
  unfold precondition_of, precondition_port in Hpre. rewrite Hmp in Hpre. cbn [mbind result_bind] in Hpre.
  rewrite (parse_own_subject _ (Some port) revision Hrev ltac:(by intros p [= <-]) (token_trimmed _ _)) in Hpre. injection Hpre as <-.
  split; [|done]. rewrite Hop. apply (resolve_on_port _ _ _ _ Hk Hres). pose proof (build_on_port _ _ _ _ _ _ Hwv Hb Hmp) as Hall.
  by apply (proj1 (Forall_forall _ _) Hall).
Qed.

(** A write that carries the token of an older read changes nothing: a request prepared with the
    token of a port's revision, applied to a state in which that port is gone or at another
    revision, leaves the tables as they are, and the client is told of a conflict. *)
Theorem stale_token_refused (view t : Tables text) L L' fetch kind body mutation port allow is_batch create_only fresh idempotency
    revision now requests request index :
  tables_wf view -> tables_wf t -> resolve_keeps_port -> (revision <= u64_max)%N -> (port <= u16_max)%N ->
  build_mutation view fetch kind body = Ok mutation -> mu_port mutation = Some port ->
  prepare view L allow mutation is_batch create_only fresh idempotency (Some (revision_token (Some port) revision)) now = Ok requests ->
  request ∈ requests -> imposter_revision t port <> Some revision ->
  exists reason, decide_op L' t request index = (t, Err reason)
    /\ (validate (op request) = Ok tt -> te_status (refusal_error reason) = 409%N).
Proof.
  intros Hwv Hwt Hk Hrev Hport Hb Hmp Hprep Hreq Hstale.
  destruct (conditioned_request _ _ _ _ _ _ _ _ _ _ _ _ _ _ _ _ Hwv Hk Hrev Hport Hb Hmp Hprep Hreq) as (Hon & Hexp & Habs).
  destruct (stale_revision_conflict t port (op request) revision Hwt Hon Hstale) as [rest Hc].
  unfold decide_op, check_preconditions. rewrite Hexp, Habs, Hc. destruct (validate (op request)) as [u|reason].
  - exists ("revision conflict" +:+ rest). split; [done|]. intros _. unfold refusal_error, refusal_response.
    by replace (starts_with _ _) with true by (symmetry; apply starts_with_app).
  - by exists reason.
Qed.


(** A clear of a port's recordings that carries the token of the port's current revision passes the
    front and is still refused as a conflict, for the state machine has no record to compare. *)
Lemma clear_with_token_conflicts (view t : Tables text) L L' fetch body port allow fresh idempotency revision now index :
  (0 < port <= u16_max)%N -> (revision <= u64_max)%N ->
  exists request, (mutation ← build_mutation view fetch (Terminated.ClearSavedProxyResponses port) body;
      prepare view L allow mutation false false fresh idempotency (Some (revision_token (Some port) revision)) now) = Ok [request]
    /\ exists rest, decide_op L' t request index = (t, Err ("revision conflict" +:+ rest)).
Proof.
  intros Hp Hr. unfold prepare. cbn [build_mutation]. cbn.
  destruct (N.eqb_spec port 0) as [->|Hne]; [lia|]. unfold precondition_of. cbn.
  rewrite (parse_own_subject _ (Some port) revision Hr ltac:(intros p [= <-]; lia) (token_trimmed _ _)). cbn. destruct allow; cbn;
    (eexists; split; [done|]; unfold decide_op; cbn; rewrite (proj2 (N.eqb_neq _ _) Hne); by eexists).
Qed.
End conditional.

(** ** A concrete front *)

#[local] Existing Instances demo_codec demo_rules demo_headers hex_base64url bits_json demo_crypto.

(** An engine that reads a batch of two imposters and one stub, and a listing of three entries. *)
#[local] Instance demo_engine : AdminEngine := {
  decode_imposter _ := Joined (Ok (demo_config 6400 [proxy_stub]));
  decode_batch _ := Joined (Ok [demo_config 6402 []; demo_config 6400 []]);
  decode_fleet_name _ := Joined no_parse;
  decode_add_stub _ := Joined (Ok (plain_stub (Some "s") [], None));
  decode_stub _ := Joined (Ok (plain_stub (Some "s") []));
  decode_stubs _ := Joined (Ok []);
  decode_routes _ := JoinFailed "cancelled";
  decode_value _ := Joined (Ok None);
  render_routes _ := no_parse;
  render_route _ := no_parse;
  parse_listing _ := Ok [(Some 6400%N, "a"); (None, "b"); (Some 6402%N, "c")]%string;
  uses_script_surface _ := false;
  default_config := demo_config 0 [];
  resolve_scripts c := Ok c;
  script_context _ := (EmptyString, EmptyString);
  no_scripts := EmptyString;
  resolve_stub_scripts _ stub := Ok stub;
  check_lookup_paths _ := Ok tt;
  validate_stubs _ := Ok tt;
  validate_stub _ _ := Ok tt;
}.

#[local] Instance demo_uuids : UuidRules := {
  uuid_parse s := if (String.length s =? 36)%nat then Some s else None;
  uuid_v5 ns name := ns +:+ string_of_list_ascii name;
}.

Definition no_fetch (path : string) : result Reply (N * option string * string) := Ok (200%N, None, path).

(** Two imposters, one of which the batch keeps. *)
Definition two : Tables doc :=
  tables (state_after initial [e_put; demo_entry 2 (demo_request "op-2" 11 None (PutImposter (demo_config 6401 []) None))]).

Definition replace_mutation : Mutation :=
  match build_mutation two no_fetch Terminated.ReplaceAllImposters [] with
  | Ok m => m
  | Err _ => {| mu_ops := []; mu_port := None; mu_render := Render.Captured EmptyString None 200; mu_admit := Nothing |}
  end.

Definition replace_entries : list (Local * ControlOp * N) := imap (fun i o => (demo_local, o, N.of_nat (i + 3))) (mu_ops replace_mutation).

Lemma front_gated_witness : authenticate keyed (wd_sm first_login.1) (with_cookie GET first_token) 200 = Ok tt
  /\ handle true keyed (wd_sm first_login.1) 200 (with_cookie GET first_token) "/imposters" = Proxied.
Proof.
  assert (handle true keyed (wd_sm first_login.1) 200 (with_cookie GET first_token) "/imposters" = Proxied) as Hh by (vm_compute; reflexivity).
  split; [|exact Hh].
  pose proof (front_gated true keyed (wd_sm first_login.1) 200 (with_cookie GET first_token) "/imposters") as H. by rewrite Hh in H.
Defined.

Lemma replace_all_keeps_witness :
  map fst (map_to_list (configs two)) = [6400; 6401]%N
  /\ dom (configs (apply_ops (take 3 replace_entries) two)) = {[6400; 6402]}%N
  /\ dom (configs two) ⊆ dom (configs (apply_ops (take 2 replace_entries) two)).
Proof.
  split; [vm_compute; reflexivity|].
  assert (forall n, _) as H by (intros n; exact (replace_all_keeps two no_fetch [] [demo_config 6402 []; demo_config 6400 []] replace_mutation
    true replace_entries n eq_refl ltac:(discriminate) ltac:(vm_compute; reflexivity) ltac:(vm_compute; reflexivity))).
  split; [|apply (H 2); cbn; lia]. rewrite (proj2 (proj2 (H 3))) by (vm_compute; lia). cbn. set_solver.
Defined.

Lemma listing_in_request_order_witness :
  order_imposters EmptyString [6402; 6400]%N = Ok ("{" +:+ quoted json_escape_char "imposters" +:+ ":[c,a,b]}")
  /\ exists sorted, sorted ≡ₚ [(Some 6400%N, "a"); (None, "b"); (Some 6402%N, "c")]%string
     /\ StronglySorted (fun a b => listing_rank [6402; 6400]%N a <= listing_rank [6402; 6400]%N b) sorted.
Proof.
  split; [vm_compute; reflexivity|].
  destruct (listing_in_request_order (AE := demo_engine) EmptyString [6402; 6400]%N [(Some 6400%N, "a"); (None, "b"); (Some 6402%N, "c")]%string _ eq_refl eq_refl) as (sorted & _ & Hp & Hs & _). by exists sorted.
Defined.

Lemma admitted_write_runs_witness :
  exists port record config, port = 6400%N /\ read_record (mutate_tables demo_local two (PatchStubs 6400 [Add (plain_stub None []) None]) 9).1 port = Ok (record, config)
    /\ verdict demo_local config = Ok tt.
Proof.
  destruct (admitted_write_runs two demo_local (PatchStubs 6400 [Add (plain_stub None []) None]) None 9
    (mutate_tables demo_local two (PatchStubs 6400 [Add (plain_stub None []) None]) 9).1
    (match (mutate_tables demo_local two (PatchStubs 6400 [Add (plain_stub None []) None]) 9).2 with Ok a => a | Err _ => [] end))
    as (port & record & config & [= <-] & Hr & Hv); [vm_compute; reflexivity..|]. by exists 6400%N, record, config.
Defined.

(** A stub added under a token that is one revision old. *)
Definition add_mutation : Mutation := patch_mutation 6400 (Add (plain_stub (Some "s") []) None) Content (imposter_path 6400) 200.

Definition add_requests : list ControlRequest :=
  match prepare demo_tables demo_local true add_mutation false false "op-7" None (Some (revision_token (Some 6400%N) 2)) 12 with
  | Ok l => l
  | Err _ => []
  end.

Definition edited : Tables doc := (decide_op demo_local demo_tables (demo_request "op-3" 12 None (SetEnabled 6400 false)) 3).1.

Lemma stale_token_refused_witness :
  Forall (fun request => exists reason, decide_op demo_local edited request 4 = (edited, Err reason)
    /\ te_status (refusal_error reason) = 409%N) add_requests
  /\ length add_requests = 1.
Proof.
  split; [|vm_compute; reflexivity]. apply Forall_forall. intros request Hin.
  destruct (stale_token_refused demo_tables edited demo_local demo_local no_fetch (Terminated.AddStub 6400) [] add_mutation 6400
    true false false "op-7" None 2 12 add_requests request 4) as (reason & Hd & Hs).
  - apply demo_tables_wf.
  - apply decide_op_wf, demo_tables_wf.
  - by intros c c' [= <-].
  - by vm_compute.
  - by vm_compute.
  - vm_compute. reflexivity.
  - reflexivity.
  - vm_compute. reflexivity.
  - exact Hin.
  - vm_compute. discriminate.
  - exists reason. split; [exact Hd|]. apply Hs. vm_compute in Hin. apply list_elem_of_singleton in Hin as ->. vm_compute. reflexivity.
Defined.

