(* ===== verification/FrontRoutes.v ===== *)
(** * The admin front's other routes

    The one-shot OpenAPI compile, the try of an imposter, the dispatch of a terminated route, and
    the reads that go on to the engine's own admin listener with what the front adds to their
    answers: [terminate_spec_compile], [perform_try], [terminate_try_imposter], [terminate],
    [read_routes], [proxy] and the proxied tail of [handle] in [admin_front.rs]. The parsers of
    an HTTP message, the engine's dispatch and the transport between the two ends of a try are
    parameters. *)

From S2P Require Import Prelude Upstream Json Spec Ring Node Auth Rpc FlowConfig Shard Flow Drive Control Recorded StateMachine Projection Intents Session Barrier Routing Front FrontHandle.

(** ** [POST /specs/compile] *)

Definition CompileError_display (e : CompileError) : string :=
  match e with
  | UnsupportedVersion found => "unsupported spec version " +:+ found +:+ ": v1 compiles OpenAPI 3.0.x only"
  | TooLarge max => "spec exceeds " +:+ pretty max +:+ " bytes"
  | ExternalRef reference => "external $ref " +:+ debug_str reference +:+ " refused: remote references do not replicate"
  | ParseError detail => "parse: " +:+ detail
  | SelfCheck operation status detail =>
      "self-check: the body compiled for " +:+ operation +:+ " " +:+ status +:+ " violates its own schema: " +:+ detail
  end.

Definition MAX_SPEC_BYTES : N := 4 * 1024 * 1024.

Definition json_ok (show : Json -> string) (status : N) (body : Json) : Reply := buffered status (show body) json_content_type.

Definition compile_port (query : option string) : result Reply N :=
  match query_param query "port" with
  | Some raw =>
      let unusable := Err (refuse 400 BadData ("port " +:+ debug_str raw +:+ " is not a usable port number")) in
      match parse_u16 raw with
      | Some port => if (port =? 0)%N then unusable else Ok port
      | None => unusable
      end
  | None =>
      Err (refuse 400 BadData "compile needs ?port=<number>: a compiled imposter with no port cannot be replicated, so there is nothing useful to answer without one")
  end.

Definition compile_name (query : option string) : result Reply (option string) :=
  match query_param query "name" with
  | Some raw =>
      match percent_decode raw with
      | Some decoded =>
          if is_empty decoded then Ok None
          else if existsb is_c0_control (as_bytes decoded) then
            Err (refuse 400 BadData ("name " +:+ debug_str raw +:+ " decodes to text containing a control character: an imposter name is identity that is logged and rendered, so U+0000-U+001F and U+007F are refused rather than carried"))
          else Ok (Some decoded)
      | None =>
          Err (refuse 400 BadData ("name " +:+ debug_str raw +:+ " is not percent-encoded UTF-8: the value must be RFC 3986 percent-encoded (`%XX` for a byte; a space is `%20`)"))
      end
  | None => Ok None
  end.

Definition operation_json (op : CompiledOperation) : Json :=
  json_obj [("id"%string, Json.JString (cop_id op)); ("method"%string, Json.JString (cop_method op));
            ("pathTemplate"%string, Json.JString (cop_path_template op)); ("stubIds"%string, Json.JArray (Json.JString <$> cop_stub_ids op))].

Section compile_route.
Context (sha256 : bytes -> bytes) (escape : string -> string) (show : Json -> string).
Context (parse_document : bytes -> result string Json) (parse_api : bytes -> result string OpenAPI).

(** [body] is what was read of the request under a cap of one byte more than the spec's, or
    [Err] when that was passed or the read failed. [None] is a compile whose stack ran out. *)
Definition terminate_spec_compile (fuel : nat) (query : option string) (body : result string bytes) : option Reply :=
  match compile_port query with
  | Err r => Some r
  | Ok port =>
      match compile_name query with
      | Err r => Some r
      | Ok name =>
          let too_large := Some (refuse 413 RequestTooLarge ("spec exceeds " +:+ pretty MAX_SPEC_BYTES +:+ " bytes")) in
          match body with
          | Err _ => too_large
          | Ok body =>
              if (MAX_SPEC_BYTES <? N.of_nat (length body))%N then too_large
              else
                match compile sha256 escape show parse_document parse_api fuel body
                        {| co_port := Some port; co_name := name; co_max_bytes := MAX_SPEC_BYTES |} with
                | Spec.OutOfStack => None
                | Spec.Refused e => Some (refuse 400 BadData ("spec does not compile: " +:+ CompileError_display e))
                | Spec.Done compiled =>
                    Some (json_ok show 200 (json_obj [("imposter"%string, cs_imposter compiled);
                                                      ("operations"%string, Json.JArray (operation_json <$> cs_operations compiled))]))
                end
          end
      end
  end.
End compile_route.

(** ** [POST /admin/imposters/{port}/try] *)

Definition TRY_BUDGET_SECS : N := 10.
Definition TRY_MAX_RESPONSE_BYTES : nat := Nat.pow 2 20.

Record TryHeader := { th_name : string; th_value : string }.

Record TryRequest := {
  tq_method : string;
  tq_path : string;
  tq_headers : list TryHeader;
  tq_body : option string;
}.

Record TryResponse := {
  tp_status : N;
  tp_headers : list TryHeader;
  tp_body : string;
  tp_body_lossy : bool;
  tp_headers_lossy : bool;
  tp_truncated : bool;
  tp_elapsed_ms : N;
}.

Inductive TryFailure :=
  | TryTimeout
  | Unreachable (why : string)
  | TryBadRequest (why : string)
  | Fault (name : string).

(** How [http] reads a method, a target, a header's name and its value, what it refuses in a
    request as a whole, and how a try's body is decoded. *)
Class TryWire := {
  method_from_bytes : string -> result string string;
  path_and_query : string -> result string string;
  header_name : string -> result string string;
  header_value : string -> result string string;
  request_refusal : list (string * string) -> option string;
  decode_try : bytes -> result string TryRequest;
}.

Record WireRequest := {
  wr_method : string;
  wr_target : string;
  wr_headers : list (string * string);
  wr_body : string;
}.

Definition HOST : string := "host".
Definition is_framing (name : string) : bool := String.eqb name "content-length" || String.eqb name "transfer-encoding".

(** What the imposter's dispatch answers: a status, headers as bytes, the body in frames, [None]
    for a frame of trailers, and the connection fault it carries. *)
Record Answer := {
  an_status : N;
  an_headers : list (string * string);
  an_frames : list (result string (option bytes));
  an_fault : option string;
}.

(** How far an exchange over the in-memory connection gets. *)
Inductive Link :=
  | NoHandshake (e : string)
  | LostBefore (e : string)
  | LostAfter (e : string)
  | Whole.

(** [String::from_utf8_lossy]: each maximal prefix of a sequence that cannot go on is replaced. *)
Definition REPLACEMENT : bytes := ascii_of_N <$> [239; 191; 189]%N.

Fixpoint utf8_lossy (s : bytes) : bytes * bool :=
  let kept l (r : bytes * bool) := (l ++ r.1, r.2) in
  let replaced (r : bytes * bool) := (REPLACEMENT ++ r.1, true) in
  match s with
  | [] => ([], false)
  | a :: s1 =>
      if in_bytes 0 127 a then kept [a] (utf8_lossy s1)
      else if in_bytes 194 223 a then
        match s1 with
        | b :: s2 => if in_bytes 128 191 b then kept [a; b] (utf8_lossy s2) else replaced (utf8_lossy s1)
        | [] => replaced ([], false)
        end
      else if in_bytes 224 239 a then
        match s1 with
        | b :: s2 =>
            if in_bytes (if in_bytes 224 224 a then 160 else 128) (if in_bytes 237 237 a then 159 else 191) b then
              match s2 with
              | c :: s3 => if in_bytes 128 191 c then kept [a; b; c] (utf8_lossy s3) else replaced (utf8_lossy s2)
              | [] => replaced ([], false)
              end
            else replaced (utf8_lossy s1)
        | [] => replaced ([], false)
        end
      else if in_bytes 240 244 a then
        match s1 with
        | b :: s2 =>
            if in_bytes (if in_bytes 240 240 a then 144 else 128) (if in_bytes 244 244 a then 143 else 191) b then
              match s2 with
              | c :: s3 =>
                  if in_bytes 128 191 c then
                    match s3 with
                    | d :: s4 => if in_bytes 128 191 d then kept [a; b; c; d] (utf8_lossy s4) else replaced (utf8_lossy s3)
                    | [] => replaced ([], false)
                    end
                  else replaced (utf8_lossy s2)
              | [] => replaced ([], false)
              end
            else replaced (utf8_lossy s1)
        | [] => replaced ([], false)
        end
      else replaced (utf8_lossy s1)
  end.

Section try.
Context {TW : TryWire}.

(** The headers that are sent, and whether the caller named the host. *)
Fixpoint try_headers (headers : list TryHeader) : result TryFailure (list (string * string) * bool) :=
  match headers with
  | [] => Ok ([], false)
  | header :: rest =>
      match header_name (th_name header) with
      | Err e => Err (TryBadRequest (debug_str (th_name header) +:+ " is not a usable header name: " +:+ e))
      | Ok name =>
          match header_value (th_value header) with
          | Err e => Err (TryBadRequest (debug_str (th_value header) +:+ " is not a usable value for header "
                                         +:+ debug_str (th_name header) +:+ ": " +:+ e))
          | Ok value =>
              match try_headers rest with
              | Err failure => Err failure
              | Ok (sent, host) => if is_framing name then Ok (sent, host) else Ok ((name, value) :: sent, String.eqb name HOST || host)
              end
          end
      end
  end.

Definition try_request (port : N) (spec : TryRequest) : result TryFailure WireRequest :=
  match method_from_bytes (tq_method spec) with
  | Err e => Err (TryBadRequest (debug_str (tq_method spec) +:+ " is not an HTTP method: " +:+ e))
  | Ok method =>
      if negb (starts_with "/" (tq_path spec)) then
        Err (TryBadRequest (debug_str (tq_path spec) +:+ " is not a usable path: it must start with '/'"))
      else
        match path_and_query (tq_path spec) with
        | Err e => Err (TryBadRequest (debug_str (tq_path spec) +:+ " is not a usable path: " +:+ e))
        | Ok target =>
            match try_headers (tq_headers spec) with
            | Err failure => Err failure
            | Ok (sent, caller_set_host) =>
                let sent := if caller_set_host then sent else sent ++ [(HOST, "127.0.0.1:" +:+ pretty port)] in
                match request_refusal sent with
                | Some e => Err (TryBadRequest ("not a usable request: " +:+ e))
                | None => Ok {| wr_method := method; wr_target := target; wr_headers := sent; wr_body := default EmptyString (tq_body spec) |}
                end
            end
        end
  end.

Fixpoint collect_frames (cap : nat) (collected : bytes) (frames : list (result string (option bytes)))
    : result TryFailure (bytes * bool) :=
  match frames with
  | [] => Ok (collected, false)
  | Err e :: _ => Err (Unreachable e)
  | Ok None :: frames => collect_frames cap collected frames
  | Ok (Some chunk) :: frames =>
      let room := cap - length collected in
      if (room <? length chunk)%nat then Ok (collected ++ take room chunk, true)
      else collect_frames cap (collected ++ chunk) frames
  end.

Definition lossy_header (h : string * string) : TryHeader * bool :=
  let '(value, lossy) := utf8_lossy (as_bytes h.2) in ({| th_name := h.1; th_value := string_of_list_ascii value |}, lossy).

Definition gone_message (port : N) : string :=
  "imposter " +:+ pretty port +:+ " is no longer served by this node: it left between the gate and the exchange".

(** What is read of an answer. *)
Definition try_answer (cap : nat) (elapsed_ms : N) (answer : Answer) : result TryFailure TryResponse :=
  match an_fault answer with
  | Some name => Err (Fault name)
  | None =>
      match collect_frames cap [] (an_frames answer) with
      | Err failure => Err failure
      | Ok (collected, truncated) =>
          let headers := lossy_header <$> an_headers answer in
          let '(body, body_lossy) := utf8_lossy collected in
          Ok {| tp_status := an_status answer; tp_headers := headers.*1; tp_body := string_of_list_ascii body;
                tp_body_lossy := body_lossy; tp_headers_lossy := existsb snd headers; tp_truncated := truncated;
                tp_elapsed_ms := elapsed_ms |}
      end
  end.

(** [dispatch] is the engine's own handler for the port, [None] when it no longer holds it; [late]
    is an exchange whose budget ran out. The requests it was handed are returned with the
    outcome. *)
Definition perform_try (dispatch : WireRequest -> option Answer) (link : Link) (late : bool) (elapsed_ms : N)
    (port : N) (spec : TryRequest) (cap : nat) : list WireRequest * result TryFailure TryResponse :=
  match try_request port spec with
  | Err failure => ([], Err failure)
  | Ok request =>
      let outcome :=
        match link with
        | NoHandshake e | LostBefore e => ([], Err (Unreachable e))
        | LostAfter e =>
            ([request], Err (Unreachable (match dispatch request with None => gone_message port | Some _ => e end)))
        | Whole =>
            ([request], match dispatch request with
                        | None => Err (Unreachable (gone_message port))
                        | Some answer => try_answer cap elapsed_ms answer
                        end)
        end in
      if late then (outcome.1, Err TryTimeout) else outcome
  end.

Definition try_json (r : TryResponse) : Json :=
  let flag name (b : bool) := if b then [(name, Json.JBool true)] else [] in
  Json.JObject ([("status"%string, Json.JInt (Z.of_N (tp_status r)));
            ("headers"%string, Json.JArray ((fun h => Json.JObject [("name"%string, Json.JString (th_name h)); ("value"%string, Json.JString (th_value h))]) <$> tp_headers r));
            ("body"%string, Json.JString (tp_body r))]
           ++ flag "bodyLossy"%string (tp_body_lossy r) ++ flag "headersLossy"%string (tp_headers_lossy r)
           ++ flag "truncated"%string (tp_truncated r)
           ++ [("elapsedMs"%string, Json.JInt (Z.of_N (tp_elapsed_ms r)))]).

Definition render_try_outcome (show : Json -> string) (outcome : result TryFailure TryResponse) (port : N) : Reply :=
  match outcome with
  | Ok r => buffered 200 (show (try_json r)) json_content_type
  | Err TryTimeout => refuse 504 Timeout ("the imposter did not answer within " +:+ pretty TRY_BUDGET_SECS +:+ "s")
  | Err (Unreachable why) => refuse 502 BackendUnavailable ("could not reach the imposter on port " +:+ pretty port +:+ ": " +:+ why)
  | Err (TryBadRequest why) => refuse 400 BadData why
  | Err (Fault name) =>
      refuse 502 BackendUnavailable ("the imposter's stub on port " +:+ pretty port +:+ " injects a connection fault ("
        +:+ name +:+ "): on the wire this connection would be aborted with no response, so there is nothing to show")
  end.

Context {text : Type} {CD : Codec text} {E : Type} `{!ImposterManager E} {ftext : Type}.

Definition terminate_try_imposter (show : Json -> string) (t : Tables text) (d : DriveState E ftext)
    (dispatch : WireRequest -> option Answer) (link : Link) (late : bool) (elapsed_ms : N) (body : result string bytes) (port : N)
    : list WireRequest * Reply :=
  match body with
  | Err e => ([], refuse 413 RequestTooLarge ("admin request body refused: " +:+ e))
  | Ok body =>
      match decode_try body with
      | Err e => ([], refuse 400 BadData (CLUSTER_DOOR +:+ ": " +:+ e))
      | Ok spec =>
          if negb (starts_with "/" (tq_path spec)) then
            ([], refuse 400 BadData "path must start with '/': this endpoint addresses an imposter by port, and an absolute-form target would be a way to name a different host")
          else
            match read_config t port with
            | Err e => ([], internal_reply e)
            | Ok None => ([], refuse 404 NoSuchResource ("no imposter on port " +:+ pretty port))
            | Ok (Some _) =>
                if negb (is_locally_bound d port) then
                  ([], refuse 502 BackendUnavailable ("imposter " +:+ pretty port +:+ " is not bound by this node's engine, so nothing was dispatched: a try only ever answers from an imposter this node is actually serving"))
                else
                  let '(sent, outcome) := perform_try dispatch link late elapsed_ms port spec TRY_MAX_RESPONSE_BYTES in
                  (sent, render_try_outcome show outcome port)
            end
      end
  end.
End try.
