(* ===== verification/FrontReads.v ===== *)
(** * Reads through the admin front

    The terminated routes put together, the route table the front answers itself, and the requests
    that go on to the engine's own admin listener: the leg they take with its credentials and its
    bound, and the decorations of their answers. [terminate], [read_routes], [proxy],
    [bounded_admin_body] and the proxied tail of [handle] in [admin_front.rs]. *)

From S2P Require Import Prelude Upstream Json Spec Ring Node Auth Rpc FlowConfig Shard Flow Drive Control Recorded StateMachine Projection Intents Session Barrier Routing Front FrontHandle FrontRoutes.

(** ** The route table *)

Definition node_gone : Reply := refuse 503 Unavailable "cluster node is shutting down".

Section routes.
Context {HT : HeaderText} {text : Type} {CD : Codec text} {AE : AdminEngine}.

Definition answer_routes (node_up : bool) (t : Tables text) : Reply :=
  if negb node_up then node_gone
  else
    match route_table_with_revision t with
    | Err e => internal_reply e
    | Ok (table, revision) =>
        match render_routes table with
        | Err e => internal_reply e
        | Ok body => set_header HEADER_REVISION (revision_token None revision) (buffered 200 body json_content_type)
        end
    end.
End routes.

(** ** Bodies *)

Definition MAX_BODY_BYTES : N := 16 * 1024 * 1024.

(** A body that could not be collected: it passed the bound, or the read failed. *)
Inductive BodyError := OverLimit | BodyUnread (e : string).

Definition bounded_admin_body {HT : HeaderText} (headers : Headers) (body : result BodyError bytes) : result Reply bytes :=
  let too_large := refuse 413 RequestTooLarge ("admin request body exceeds " +:+ pretty MAX_BODY_BYTES +:+ " bytes") in
  let declared := value ← headers_get "content-length" headers; value ← to_str value; parse_u64 value in
  if match declared with Some len => (MAX_BODY_BYTES <? len)%N | None => false end then Err too_large
  else
    match body with
    | Ok body => Ok body
    | Err OverLimit => Err too_large
    | Err (BodyUnread e) => Err (refuse 400 BadData ("admin request body could not be read: " +:+ e))
    end.

(** ** The leg to the engine *)

Inductive ProxyLeg := LegAdmin | LegGateway.

(** What the engine's listener answers: its body is read only by what rewrites it. *)
Record EngineAnswer := {
  ea_status : N;
  ea_headers : Headers;
  ea_body : result string string;
}.

(** What goes back to the client: the engine's answer as it streams, or one the front composed. *)
Inductive Outgoing := Streamed (a : EngineAnswer) | Composed (r : Reply).

Definition out_status (o : Outgoing) : N := match o with Streamed a => ea_status a | Composed r => reply_status r end.

Section proxy.
Context {HT : HeaderText}.
(** The target behind the listener's authority, and what the listener answers to a request's
    target, headers and body. *)
Context (retarget : string -> result string string) (engine : string -> Headers -> bytes -> result string EngineAnswer).
Context (api_key : option string).

Definition sent_to (target : string) (headers : Headers) (body : bytes) : Outgoing :=
  match engine target headers body with
  | Ok a => Streamed a
  | Err e => Composed (refuse 503 Unavailable ("local admin backend unreachable: " +:+ e))
  end.

(** On the gateway leg the body streams; [body] is then all of it. *)
Definition proxy (leg : ProxyLeg) (path_and_query : string) (headers : Headers) (body : result BodyError bytes) : Outgoing :=
  match retarget path_and_query with
  | Err e => Composed (refuse 400 BadData ("request target does not re-target: " +:+ e))
  | Ok target =>
      match leg with
      | LegAdmin =>
          let headers := present_fleet_key headers api_key in
          match bounded_admin_body headers body with
          | Err refusal => Composed refusal
          | Ok body => sent_to target headers body
          end
      | LegGateway => sent_to target (gateway_headers api_key headers) (match body with Ok body => body | Err _ => [] end)
      end
  end.

(** [dispatch] is the node's in-process engine, [None] for a node that has none or is gone. *)
Definition gateway (dispatch : option (string -> Headers -> Outgoing)) (rest path_and_query : string) (headers : Headers)
    (body : result BodyError bytes) : Outgoing :=
  match dispatch with
  | None => proxy LegGateway path_and_query headers body
  | Some dispatch => dispatch rest (gateway_headers api_key headers)
  end.
End proxy.

(** ** Decorations *)

Definition durability_name (d : Durability.t) : string :=
  match d with Durability.DNone => "none" | Durability.Async => "async" | Durability.Sync => "sync" end.
Definition consistency_name (c : ReadConsistency.t) : string :=
  match c with ReadConsistency.Strong => "strong" | ReadConsistency.Local => "local" end.

Definition knob_json {A} (value : A -> string) (k : Knob A) : Json :=
  json_obj [("value"%string, Json.JString (value (knob_value k))); ("source"%string, Json.JString (KnobSource.as_str (knob_source k)))].

Definition ResolvedKnobs_to_json (knobs : ResolvedKnobs) : Json :=
  json_obj [("durability"%string, knob_json durability_name (rk_durability knobs));
            ("readConsistency"%string, knob_json consistency_name (rk_read_consistency knobs));
            ("flowIdSource"%string, knob_json id (rk_flow_id_source knobs))].

(** Why a text is not an object of members: it is no JSON, or JSON of another kind. *)
Inductive MembersError := NotJson (e : string) | NotObject.

(** How [serde_json] reads and writes: an object's members in document order, each value as its
    own text; an object as a map; a value; and the compact text of a value. *)
Class JsonText := {
  ordered_members : string -> result MembersError (list (string * string));
  parse_map : string -> option (list (string * Json));
  parse_value : string -> result string Json;
  show : Json -> string;
}.

Section decorate.
Context {HT : HeaderText} {JT : JsonText}.

Definition decorated_rift (knobs : ResolvedKnobs) (rift : option string) : result string string :=
  match rift with
  | Some raw =>
      match parse_map raw with
      | Some m => Ok (show (Json.JObject (map_insert "flowStateResolved" (ResolvedKnobs_to_json knobs) m)))
      | None => Err "the imposter body's `_rift` was not a JSON object"
      end
  | None => Ok (show (Json.JObject (map_insert "flowStateResolved" (ResolvedKnobs_to_json knobs) [])))
  end.

(** The members as they are written, every [_rift] decorated. *)
Fixpoint rewrite_members (knobs : ResolvedKnobs) (members : list (string * string)) : result string (list (string * string)) :=
  match members with
  | [] => Ok []
  | (key, value) :: members =>
      match (if String.eqb key "_rift" then decorated_rift knobs (Some value) else Ok value) with
      | Err e => Err e
      | Ok value => match rewrite_members knobs members with Ok rest => Ok ((key, value) :: rest) | Err e => Err e end
      end
  end.

Definition object_text (members : list (string * string)) : string :=
  "{" +:+ join "," ((fun m => quoted json_escape_char m.1 +:+ ":" +:+ m.2) <$> members) +:+ "}".

Definition rewrite_flow_state_resolved (body : string) (knobs : ResolvedKnobs) : result string string :=
  match ordered_members body with
  | Err NotObject => Err "the imposter body was not a JSON object"
  | Err (NotJson e) => Err ("the imposter body was not JSON: " +:+ e)
  | Ok members =>
      match rewrite_members knobs members with
      | Err e => Err e
      | Ok rewritten =>
          if existsb (fun m => String.eqb m.1 "_rift") members then Ok (object_text rewritten)
          else match decorated_rift knobs None with Ok rift => Ok (object_text (rewritten ++ [("_rift"%string, rift)])) | Err e => Err e end
      end
  end.

Definition rewrite_space_owner (body : string) (owner : NodeId) : result string string :=
  match parse_value body with
  | Err e => Err ("the space body was not JSON: " +:+ e)
  | Ok (Json.JObject m) => Ok (show (Json.JObject (map_insert "owner" (Json.JString (pretty owner)) m)))
  | Ok _ => Err "the space body was not a JSON object"
  end.

(** The headers a rebuilt answer keeps: all but those of the body it replaces. *)
Definition carried_headers (previous : Headers) : Headers :=
  List.filter (fun h => negb (String.eqb h.1 "content-type" || String.eqb h.1 "content-length")) previous.

(** A successful answer, for a decoration to rewrite. *)
Definition as_success (o : Outgoing) : option EngineAnswer :=
  let answer := match o with
    | Streamed a => Some a
    | Composed (Buffered status content_type body headers) =>
        Some {| ea_status := status; ea_body := Ok body;
                ea_headers := match content_type with Some t => [("content-type"%string, t)] | None => [] end ++ headers |}
    | Composed (Typed _ _) => None
    end in
  a ← answer; if ok_status (ea_status a) then Some a else None.

Definition decorate_space_owner (o : Outgoing) (owner : option NodeId) : Outgoing :=
  match as_success o, owner with
  | Some a, Some owner =>
      match ea_body a with
      | Err e => Composed (internal_reply ("reading the space body to decorate owner: " +:+ e))
      | Ok body =>
          Composed (buffered (ea_status a) (match rewrite_space_owner body owner with Ok rewritten => rewritten | Err _ => body end) json_content_type)
      end
  | _, _ => o
  end.

Definition decorate_flow_state_resolved (o : Outgoing) (knobs : ResolvedKnobs) : Outgoing :=
  match as_success o with
  | Some a =>
      match ea_body a with
      | Err e => Composed (internal_reply ("reading the imposter body to decorate flowStateResolved: " +:+ e))
      | Ok body =>
          Composed (Buffered (ea_status a) json_content_type
            (match rewrite_flow_state_resolved body knobs with Ok rewritten => rewritten | Err _ => body end) (carried_headers (ea_headers a)))
      end
  | None => o
  end.

Definition set_out_header (name value : string) (o : Outgoing) : Outgoing :=
  match o with
  | Composed r => Composed (set_header name value r)
  | Streamed a =>
      match header_from_str value with
      | None => o
      | Some value => Streamed {| ea_status := ea_status a; ea_headers := insert_header name value (ea_headers a); ea_body := ea_body a |}
      end
  end.

Definition set_out (name : string) (value : option string) (o : Outgoing) : Outgoing :=
  match value with Some value => set_out_header name value o | None => o end.

Context (xxh64 : bytes -> N -> N) {text : Type} {CD : Codec text} {E : Type} `{!ImposterManager E} {ftext : Type} (L : Local).

(** [params] are those of the engine's own route for the path, [None] when it has no such route;
    [t] and [d] are the node's, and everything read of them is read before the request goes on. *)
Definition proxied (t : Tables text) (ring : Ring) (d : DriveState E ftext) (params : option (list (string * string)))
    (method : Method) (path : string) (answer : Outgoing) : Outgoing :=
  match params with
  | None => answer
  | Some params =>
      let is_get := bool_decide (method = GET) in
      let degraded := local_bind_failure d params in
      let local_engine := local_engine_failure L t d params in
      let token := imposter_read_token t method path params in
      let space_flow_owner := if is_get then (fun '(port, flow) => space_owner xxh64 t ring port flow) <$> space_read_target path else None in
      let flow_knobs := if is_get && is_single_imposter_read path then port ← port_param params; flow_state_resolved t port else None in
      let answer := match space_flow_owner with Some owner => decorate_space_owner answer owner | None => answer end in
      let answer := match flow_knobs with Some knobs => decorate_flow_state_resolved answer knobs | None => answer end in
      set_out HEADER_REVISION token (set_out HEADER_WARNINGS local_engine (set_out HEADER_BIND_FAILURES degraded answer))
  end.
End decorate.

(** ** The terminated routes *)

Section terminated.
Context {HT : HeaderText} {itext text : Type} `{!Serde itext ControlRequest} {CD : Codec text} {ER : EngineRules} {AE : AdminEngine} {UR : UuidRules} {JT : JsonText}.
Context {E : Type} `{!ImposterManager E} {ftext : Type}.
Context (written : ControlRequest -> option N) (L : Local) (me : NodeId) (level : WriteBarrier).
Context (fetch : string -> result Reply (N * option string * string)) (allow_injection admin_async : bool).
Implicit Types (w : World itext text).

Definition space_json (row : SpaceRow) : Json :=
  json_obj [("space"%string, Json.JString (sr_space row)); ("entryCount"%string, Json.JInt (Z.of_N (sr_entry_count row)));
            ("owner"%string, Json.JString (pretty (sr_owner row)))].

Definition listing_reply (l : SpacesListing) : Reply :=
  buffered 200 (show (json_obj (
    [("spaces"%string, Json.JArray (space_json <$> sl_spaces l)); ("partial"%string, Json.JBool (sl_partial l))]
    ++ match sl_unavailable l with Some reason => [("unavailable"%string, Json.JString reason)] | None => [] end
    ++ match sl_durability l with Some knob => [("durability"%string, knob_json durability_name knob)] | None => [] end))) json_content_type.

(** [proxied] is the engine's answer to the same request, which tears down the flow state. *)
Definition terminate_space_teardown (full_error : string) (kc : KeyCommit) (proxied : Outgoing) (port : N) (flow : string) w
    : World itext text * Outgoing :=
  if negb (ok_status (out_status proxied)) then (w, proxied)
  else
    match commit_teardown_half written L full_error kc (teardown_op port flow) "space-stub delete" w with
    | (w, Ok _) => (w, proxied)
    | (w, Err r) => (w, Composed r)
    end.

(** The routes that commit nothing, or commit in their own way: the compile, the try, the engine's
    answer to a teardown and the commit of its stub half, and the fan-out over the fleet. *)
Record Diverted := {
  di_compile : option string -> result string bytes -> option Reply;
  di_try : N -> result string bytes -> Reply;
  di_proxied : Outgoing;
  di_teardown : KeyCommit;
  di_enumerate : string -> list SpaceRow * bool;
}.

(** [None] is a compile whose stack ran out. *)
Definition terminate (node_up : bool) (m : Meets (E := E) (ftext := ftext)) (dv : Diverted) (view : Tables text) (kind : Terminated.t)
    (query : option string) (headers : Headers) (body : result string bytes) (fresh : string) (now_secs : N) w
    : option (World itext text * Outgoing) :=
  if negb node_up then Some (w, Composed node_gone)
  else
    match kind with
    | Terminated.SpecCompile => (fun r => (w, Composed r)) <$> di_compile dv query body
    | Terminated.TryImposter port => Some (w, Composed (di_try dv port body))
    | Terminated.SpaceTeardown port flow =>
        Some (terminate_space_teardown (mt_full_error m) (di_teardown dv) (di_proxied dv) port flow w)
    | Terminated.SpacesList port => Some (w, Composed (listing_reply (terminate_spaces_list view (di_enumerate dv) port)))
    | _ =>
        let '(w, r) := terminate_write written L me level fetch allow_injection admin_async m view kind query headers body fresh now_secs w in
        Some (w, Composed r)
    end.
End terminated.
