(* ===== verification/FrontRoutesFacts.v ===== *)
(** * Facts about the admin front's other routes

    A try reaches only the imposter its path names and reports what that answered; the text it
    shows is well formed and its flags are exact; a compile answers a config for the port it was
    asked for; a decorated read keeps all the engine said; and a space's teardown is never
    reported done unless the stubs are gone. *)

From S2P Require Import Prelude Upstream Json Spec SpecPath SpecCompile Ring Node Auth Rpc FlowConfig Shard Flow Drive Control Recorded StateMachine DriveFacts Demo ApplyFacts Replica Projection Intents IntentsFacts Session SessionFacts Barrier Routing RoutingFacts Front FrontHandle FrontFacts FrontRoutes FrontReads.

(** ** Text of bytes *)

Abbreviation as_text := string_of_list_ascii.

Lemma utf8_replacement l : utf8 (as_text (REPLACEMENT ++ l)) = utf8 (as_text l).
Proof. reflexivity. Qed.

Definition lossy_exact (s : bytes) : Prop :=
  (utf8_lossy s).2 = negb (utf8 (as_text s)) /\ (utf8 (as_text s) = true -> (utf8_lossy s).1 = s)
  /\ utf8 (as_text (utf8_lossy s).1) = true.

Lemma exact_kept l s whole : whole = l ++ s -> (forall x, utf8 (as_text (l ++ x)) = utf8 (as_text x)) ->
  lossy_exact s -> utf8_lossy whole = (l ++ (utf8_lossy s).1, (utf8_lossy s).2) -> lossy_exact whole.
Proof.
  intros -> Hl (Hf & Hk & Hw) Hr. unfold lossy_exact. rewrite Hr. cbn [fst snd]. rewrite !Hl.
  split_and!; [done|by intros ->%Hk|done].
Qed.

Lemma exact_replaced s whole : utf8 (as_text whole) = false -> lossy_exact s ->
  utf8_lossy whole = (REPLACEMENT ++ (utf8_lossy s).1, true) -> lossy_exact whole.
Proof.
  intros Hu (_ & _ & Hw) Hr. unfold lossy_exact. rewrite Hr, Hu. cbn [fst snd]. rewrite utf8_replacement. by split_and!.
Qed.

(** What replacing does to a byte sequence: nothing when it is well formed, which is when the flag is
    not set, and the text it leaves is always well formed. *)
Lemma utf8_lossy_spec s : lossy_exact s.
Proof.
  enough (forall n s, length s < n -> lossy_exact s) as H by (apply (H (S (length s))); lia). clear s.
  induction n as [|n IH]; intros s Hn; [lia|]. destruct s as [|a s1]; [done|]. cbn in Hn.
  destruct (in_bytes 0 127 a) eqn:E0.
  { apply (exact_kept [a] s1); [done| |apply IH; lia|]; [intros x|]; cbn; by rewrite E0. }
  destruct (in_bytes 194 223 a) eqn:E1.
  { destruct s1 as [|b s2]; [apply (exact_replaced []); [|done|]; cbn; by rewrite ?E0, ?E1|]. cbn in Hn.
    destruct (in_bytes 128 191 b) eqn:Eb.
    - apply (exact_kept [a; b] s2); [done| |apply IH; lia|]; [intros x|]; cbn; by rewrite E0, E1, Eb.
    - apply (exact_replaced (b :: s2)); [|apply IH; cbn; lia|]; cbn; by rewrite E0, E1, Eb. }
  destruct (in_bytes 224 239 a) eqn:E2.
  { destruct s1 as [|b s2]; [apply (exact_replaced []); [|done|]; cbn; by rewrite ?E0, ?E1, ?E2|]. cbn in Hn.
    destruct (in_bytes (if in_bytes 224 224 a then 160 else 128) (if in_bytes 237 237 a then 159 else 191) b) eqn:Eb.
    - destruct s2 as [|c s3]; [apply (exact_replaced []); [|done|]; cbn; by rewrite ?E0, ?E1, ?E2, ?Eb|]. cbn in Hn.
      destruct (in_bytes 128 191 c) eqn:Ec.
      + apply (exact_kept [a; b; c] s3); [done| |apply IH; lia|]; [intros x|]; cbn; by rewrite E0, E1, E2, Eb, Ec.
      + apply (exact_replaced (c :: s3)); [|apply IH; cbn; lia|]; cbn; by rewrite E0, E1, E2, Eb, Ec.
    - apply (exact_replaced (b :: s2)); [|apply IH; cbn; lia|]; cbn; rewrite E0, E1, E2, Eb; [|done]. by destruct s2. }
  destruct (in_bytes 240 244 a) eqn:E3; [|apply (exact_replaced s1); [|apply IH; lia|]; cbn; rewrite E0, E1, E2, ?E3; [|done]; by destruct s1 as [|b [|c []]]].
  destruct s1 as [|b s2]; [apply (exact_replaced []); [|done|]; cbn; by rewrite ?E0, ?E1, ?E2, ?E3|]. cbn in Hn.
  destruct (in_bytes (if in_bytes 240 240 a then 144 else 128) (if in_bytes 244 244 a then 143 else 191) b) eqn:Eb.
  - destruct s2 as [|c s3]; [apply (exact_replaced []); [|done|]; cbn; by rewrite ?E0, ?E1, ?E2, ?E3, ?Eb|]. cbn in Hn.
    destruct (in_bytes 128 191 c) eqn:Ec.
    + destruct s3 as [|d s4]; [apply (exact_replaced []); [|done|]; cbn; by rewrite ?E0, ?E1, ?E2, ?E3, ?Eb, ?Ec|]. cbn in Hn.
      destruct (in_bytes 128 191 d) eqn:Ed.
      * apply (exact_kept [a; b; c; d] s4); [done| |apply IH; lia|]; [intros x|]; cbn; by rewrite E0, E1, E2, E3, Eb, Ec, Ed.
      * apply (exact_replaced (d :: s4)); [|apply IH; cbn; lia|]; cbn; by rewrite E0, E1, E2, E3, Eb, Ec, Ed.
    + apply (exact_replaced (c :: s3)); [|apply IH; cbn; lia|]; cbn; rewrite E0, E1, E2, E3, Eb, Ec; [|done]. by destruct s3.
  - apply (exact_replaced (b :: s2)); [|apply IH; cbn; lia|]; cbn; rewrite E0, E1, E2, E3, Eb; [|done]. by destruct s2 as [|c []].
Qed.

(** ** The body of a try *)

(** The bytes of frames none of which fails. *)
Fixpoint frame_data (frames : list (result string (option bytes))) : option bytes :=
  match frames with
  | [] => Some []
  | Err _ :: _ => None
  | Ok None :: frames => frame_data frames
  | Ok (Some chunk) :: frames => (fun rest => chunk ++ rest) <$> frame_data frames
  end.

Lemma collect_frames_spec cap frames data collected : frame_data frames = Some data -> length collected <= cap ->
  collect_frames cap collected frames = Ok (take cap (collected ++ data), (cap <? length (collected ++ data))%nat).
Proof.
  revert data collected. induction frames as [|[[chunk|]|e] frames IH]; intros data collected Hd Hc; cbn [frame_data collect_frames] in Hd |- *.
  - injection Hd as <-. rewrite app_nil_r, take_ge by lia. destruct (Nat.ltb_spec cap (length collected)); [lia|done].
  - destruct (frame_data frames) as [rest|]; [|done]. injection Hd as <-. rewrite app_assoc.
    destruct (Nat.ltb_spec (cap - length collected) (length chunk)) as [Hl|Hl].
    + rewrite !length_app. destruct (Nat.ltb_spec cap (length collected + length chunk + length rest)); [|lia].
      rewrite <- app_assoc, take_app, (take_ge collected cap), take_app_le by lia. done.
    + apply IH; [done|]. rewrite length_app. lia.
  - by apply IH.
  - done.
Qed.

(** What a try shows of an answer is exact. When no frame fails, the text is the body up to the cap with
    what is not UTF-8 replaced, so it is the body itself when that fits and is well formed; the
    cut is flagged when bytes were left out and only then, a body that just fits being whole;
    and the text is always well formed. *)
Theorem try_shows_answer cap elapsed_ms answer data :
  an_fault answer = None -> frame_data (an_frames answer) = Some data ->
  exists r, try_answer cap elapsed_ms answer = Ok r /\ tp_status r = an_status answer
    /\ tp_truncated r = (cap <? length data)%nat /\ tp_body_lossy r = negb (utf8 (as_text (take cap data)))
    /\ utf8 (tp_body r) = true
    /\ (length data <= cap -> utf8 (as_text data) = true -> tp_body r = as_text data).
Proof.
  intros Hf Hd. unfold try_answer. rewrite Hf, (collect_frames_spec cap _ data []) by (done || cbn; lia). cbn [app].
  destruct (utf8_lossy_spec (take cap data)) as (Hl & Hk & Hw). destruct (utf8_lossy (take cap data)) as [body lossy] eqn:E.
  cbn [fst snd] in *. eexists. split; [done|]. cbn. split_and!; try done.
  intros Hlen Hu. rewrite take_ge in Hk by done. by rewrite Hk.
Qed.

(** ** Where a try goes *)

Section confined.
Context {TW : TryWire}.

(** The headers sent are the caller's, read, without those that frame the body. *)
Lemma try_headers_spec headers sent host : try_headers headers = Ok (sent, host) ->
  Forall (fun h => is_framing h.1 = false
    /\ exists own, own ∈ headers /\ header_name (th_name own) = Ok h.1 /\ header_value (th_value own) = Ok h.2) sent
  /\ host = existsb (fun h => String.eqb h.1 HOST) sent.
Proof.
  revert sent host. induction headers as [|header headers IH]; intros sent host H; cbn in H; [by injection H as <- <-|].
  destruct (header_name (th_name header)) as [name|] eqn:Hn; [|done]. destruct (header_value (th_value header)) as [value|] eqn:Hv; [|done].
  destruct (try_headers headers) as [[sent' host']|]; [|done]. destruct (IH _ _ eq_refl) as [Hf Hh]. clear IH.
  assert (Forall (fun h => is_framing h.1 = false
    /\ exists own, own ∈ header :: headers /\ header_name (th_name own) = Ok h.1 /\ header_value (th_value own) = Ok h.2) sent') as Hf'.
  { eapply Forall_impl; [exact Hf|]. intros h [? (own & ? & ?)]. split; [done|]. exists own. split; [by right|done]. }
  destruct (is_framing name) eqn:Hfr; injection H as <- <-; [done|]. split; [|cbn; by rewrite Hh].
  constructor; [|done]. split; [done|]. exists header. split; [by left|done].
Qed.

Lemma existsb_get_all headers : existsb (fun h => String.eqb h.1 HOST) headers = false -> headers_get_all HOST headers = [].
Proof.
  intros H. unfold headers_get_all. induction headers as [|h headers IH]; [done|]. cbn in *. apply orb_false_iff in H as [-> H]. by apply IH.
Qed.

(** The request of a try: origin-form, with the transport's framing and a host of its own when the
    caller gave none. *)
Lemma try_request_spec port spec q : try_request port spec = Ok q ->
  starts_with "/" (tq_path spec) = true /\ path_and_query (tq_path spec) = Ok (wr_target q)
  /\ Forall (fun h => is_framing h.1 = false) (wr_headers q)
  /\ headers_get_all HOST (wr_headers q) <> []
  /\ (forall h, h ∈ wr_headers q ->
        (exists own, own ∈ tq_headers spec /\ header_name (th_name own) = Ok h.1 /\ header_value (th_value own) = Ok h.2)
        \/ h = (HOST, "127.0.0.1:" +:+ pretty port) /\ headers_get_all HOST (wr_headers q) = [h.2]).
Proof.
  unfold try_request. destruct (method_from_bytes _) as [method|]; [|done]. destruct (starts_with "/" (tq_path spec)); [|done]. cbn [negb].
  destruct (path_and_query _) as [target|]; [|done]. destruct (try_headers _) as [[sent host]|] eqn:Hs; [|done].
  destruct (try_headers_spec _ _ _ Hs) as [Hf Hh]. destruct (request_refusal _) as [|]; [done|]. intros [= <-]. cbn [wr_target wr_headers].
  split; [done|]. split; [done|]. destruct host; symmetry in Hh.
  - split_and!.
    + eapply Forall_impl; [exact Hf|]. by intros h [? _].
    + apply existsb_exists in Hh as ((name & value) & Hin & Hname%String.eqb_eq). cbn in Hname. subst name. unfold headers_get_all.
      intros E%fmap_nil_inv. assert ((HOST, value) ∈ List.filter (fun h => String.eqb h.1 HOST) sent) as Hel.
      { apply list_elem_of_In, filter_In. split; [done|]. apply String.eqb_refl. }
      rewrite E in Hel. by apply not_elem_of_nil in Hel.
    + intros h Hin. left. rewrite Forall_forall in Hf. by destruct (Hf h Hin).
  - assert (headers_get_all HOST (sent ++ [(HOST, "127.0.0.1:" +:+ pretty port)]) = ["127.0.0.1:" +:+ pretty port]) as Hone.
    { unfold headers_get_all. rewrite List.filter_app, fmap_app. fold (headers_get_all HOST sent). rewrite existsb_get_all by done.
      cbn [app List.filter fst]. by rewrite String.eqb_refl. }
    split_and!.
    + apply Forall_app. split; [eapply Forall_impl; [exact Hf|]; by intros h [? _]|by constructor].
    + by rewrite Hone.
    + intros h [Hin|Hin]%elem_of_app; [left; rewrite Forall_forall in Hf; by destruct (Hf h Hin)|].
      apply list_elem_of_singleton in Hin as ->. by right.
Qed.

Context {text : Type} {CD : Codec text} {E : Type} `{!ImposterManager E} {ftext : Type}.

(** What a try was handed on, and when that is its answer. *)
Lemma perform_try_spec dispatch link late elapsed_ms port spec cap sent outcome :
  perform_try dispatch link late elapsed_ms port spec cap = (sent, outcome) ->
  (sent = [] \/ exists q, sent = [q] /\ try_request port spec = Ok q)
  /\ (forall r, outcome = Ok r -> exists q answer, sent = [q] /\ link = Whole /\ late = false /\ dispatch q = Some answer /\ an_fault answer = None).
Proof.
  unfold perform_try. destruct (try_request port spec) as [q|failure]; [|by intros [= <- <-]; split; [left|]].
  destruct late.
  { intros [= <- <-]. split; [|done]. destruct link; cbn; [by left..|right; by exists q|right; by exists q]. }
  destruct link as [e|e|e|]; intros [= <- <-].
  - by split; [left|].
  - by split; [left|].
  - split; [right; by exists q|done].
  - split; [right; by exists q|]. intros r. destruct (dispatch q) as [answer|] eqn:Hd; [|done]. unfold try_answer.
    destruct (an_fault answer) eqn:Hf; [done|]. intros _. by exists q, answer.
Qed.

Definition confined_to (t : Tables text) (d : DriveState E ftext) (body : result string bytes) port (sent : list WireRequest) : Prop :=
  length sent <= 1 /\ forall q, q ∈ sent ->
    (exists stored, read_config t port = Ok (Some stored)) /\ is_locally_bound d port = true
    /\ exists b spec, body = Ok b /\ decode_try b = Ok spec /\ try_request port spec = Ok q.

Lemma confined_none (t : Tables text) d body port : confined_to t d body port [].
Proof. split; [cbn; lia|]. by intros q Hq%not_elem_of_nil. Qed.

(** A try reaches nothing but the imposter its path names. Whatever the body asks for, at most one
    request is handed on, and only when the port has an applied config and this node's engine
    holds its socket; the request is origin-form, its framing headers are the transport's, and
    its host, unless the caller named one, is the imposter's. And the answer is a 200 only when
    the imposter answered that request and no connection fault stood for the answer. *)
Theorem try_confined show (t : Tables text) (d : DriveState E ftext) dispatch link late elapsed_ms body port sent reply :
  terminate_try_imposter show t d dispatch link late elapsed_ms body port = (sent, reply) ->
  length sent <= 1
  /\ (forall q, q ∈ sent ->
        (exists stored, read_config t port = Ok (Some stored)) /\ is_locally_bound d port = true
        /\ Forall (fun h => is_framing h.1 = false) (wr_headers q) /\ headers_get_all HOST (wr_headers q) <> []
        /\ exists b spec, body = Ok b /\ decode_try b = Ok spec /\ try_request port spec = Ok q /\ starts_with "/" (tq_path spec) = true)
  /\ (reply_status reply = 200%N ->
        exists q answer, sent = [q] /\ link = Whole /\ late = false /\ dispatch q = Some answer /\ an_fault answer = None).
Proof.
  intros H. enough (confined_to t d body port sent /\ (reply_status reply = 200%N ->
    exists q answer, sent = [q] /\ link = Whole /\ late = false /\ dispatch q = Some answer /\ an_fault answer = None)) as [[Hlen Hc] Hr].
  { split; [done|]. split; [|done]. intros q Hq. destruct (Hc q Hq) as (Hs & Hl & b & spec & Hb & Hd & Hq').
    destruct (try_request_spec _ _ _ Hq') as (Hp & _ & Hf & Hh & _). split_and!; try done. by exists b, spec. }
  revert H. unfold terminate_try_imposter. destruct body as [b|e]; [|intros [= <- <-]; by split; [apply confined_none|]].
  destruct (decode_try b) as [spec|e] eqn:Hb; [|intros [= <- <-]; by split; [apply confined_none|]].
  destruct (starts_with "/" (tq_path spec)) eqn:Hp; cbn [negb]; [|intros [= <- <-]; by split; [apply confined_none|]].
  destruct (read_config t port) as [[stored|]|e] eqn:Hr; [|intros [= <- <-]; by split; [apply confined_none|]..].
  destruct (is_locally_bound d port) eqn:Hl; cbn [negb]; [|intros [= <- <-]; by split; [apply confined_none|]].
  destruct (perform_try _ _ _ _ _ _ _) as [sent' outcome] eqn:Ht. intros [= <- <-]. apply perform_try_spec in Ht as [Hs Ho]. split.
  - destruct Hs as [->|(q & -> & Hq)]; [apply confined_none|]. split; [cbn; lia|]. intros q' ->%list_elem_of_singleton. rewrite Hr.
    split; [by exists stored|]. split; [done|]. by exists b, spec.
  - destruct outcome as [r|[]]; [intros _; by eapply Ho|done..].
Qed.
End confined.

(** ** The compile *)

Lemma compile_port_ok query port : compile_port query = Ok port -> (0 < port <= u16_max)%N.
Proof.
  unfold compile_port. destruct (query_param query "port") as [raw|]; [|done]. destruct (parse_u16 raw) as [p|] eqn:Hp; [|done].
  destruct (N.eqb_spec p 0); [done|]. intros [= <-]. apply from_str_radix_le in Hp. lia.
Qed.

Lemma compile_name_ok query name : compile_name query = Ok (Some name) ->
  name <> EmptyString /\ utf8 name = true /\ Forall (fun c => is_c0_control c = false) (as_bytes name).
Proof.
  unfold compile_name. destruct (query_param query "name") as [raw|]; [|done]. destruct (percent_decode raw) as [decoded|] eqn:Hd; [|done].
  destruct decoded as [|c decoded]; [done|]. cbn [is_empty]. destruct (existsb _ _) eqn:He; [done|]. intros [= <-].
  split; [done|]. split.
  - unfold percent_decode in Hd. destruct (percent_bytes raw) as [out|]; [|done]. cbn in Hd. destruct (utf8 out) eqn:Hu; [|done]. by injection Hd as <-.
  - apply Forall_forall. intros x Hx. destruct (is_c0_control x) eqn:Hc; [|done]. exfalso. apply not_true_iff_false in He. apply He, existsb_exists.
    exists x. split; [by apply list_elem_of_In|done].
Qed.

(** The document of a compile, by its members. *)
Lemma compiled_members sha256 escape show parse_document parse_api fuel b port name max cs :
  compile sha256 escape show parse_document parse_api fuel b {| co_port := Some port; co_name := name; co_max_bytes := max |} = Spec.Done cs ->
  json_get "port" (cs_imposter cs) = Some (Json.JInt (Z.of_N port)) /\ json_get "protocol" (cs_imposter cs) = Some (Json.JString "http")
  /\ json_get "name" (cs_imposter cs) = Json.JString <$> name.
Proof.
  unfold compile. destruct (_ <? _)%N; [done|]. intros H. do 6 run_inv H. destruct a4 as [planned bud]. run_inv H. run_inv H.
  destruct a5 as [stubs ops]. injection H as <-. cbn [cs_imposter co_port co_name]. destruct name as [name|]; split_and!; vm_compute; reflexivity.
Qed.

Section compile_facts.
Context (sha256 : bytes -> bytes) (escape : string -> string) (show : Json -> string).
Context (parse_document : bytes -> result string Json) (parse_api : bytes -> result string OpenAPI).

(** A compile that succeeds answers a document that can be put as it is: it is what the compiler made
    of the body, which was within the bound, it names the port of the query, a port a fleet can
    replicate, and it is named by the query's decoded name, which is well-formed text without
    control characters; no other document is answered with success. *)
Theorem compile_answers_port fuel query body reply :
  terminate_spec_compile sha256 escape show parse_document parse_api fuel query body = Some reply -> reply_status reply = 200%N ->
  exists port name b cs, body = Ok b /\ (N.of_nat (length b) <= MAX_SPEC_BYTES)%N
    /\ compile_port query = Ok port /\ (0 < port <= u16_max)%N /\ compile_name query = Ok name
    /\ compile sha256 escape show parse_document parse_api fuel b
         {| co_port := Some port; co_name := name; co_max_bytes := MAX_SPEC_BYTES |} = Spec.Done cs
    /\ reply = json_ok show 200 (json_obj [("imposter"%string, cs_imposter cs); ("operations"%string, Json.JArray (operation_json <$> cs_operations cs))])
    /\ json_get "port" (cs_imposter cs) = Some (Json.JInt (Z.of_N port))
    /\ json_get "name" (cs_imposter cs) = Json.JString <$> name
    /\ (forall n, name = Some n -> n <> EmptyString /\ utf8 n = true /\ Forall (fun c => is_c0_control c = false) (as_bytes n)).
Proof.
  unfold terminate_spec_compile. destruct (compile_port query) as [port|r] eqn:Hp.
  2:{ intros [= <-]. revert Hp. unfold compile_port. destruct (query_param query "port") as [raw|]; [|by intros [= <-]].
      destruct (parse_u16 raw) as [p|]; [destruct (p =? 0)%N; [|done]|]; by intros [= <-]. }
  destruct (compile_name query) as [name|r] eqn:Hn.
  2:{ intros [= <-]. revert Hn. unfold compile_name. destruct (query_param query "name") as [raw|]; [|done].
      destruct (percent_decode raw) as [decoded|]; [|by intros [= <-]]. destruct (is_empty decoded); [done|]. destruct (existsb _ _); [by intros [= <-]|done]. }
  destruct body as [b|e]; [|by intros [= <-]]. destruct (N.ltb_spec MAX_SPEC_BYTES (N.of_nat (length b))); [by intros [= <-]|].
  destruct (compile _ _ _ _ _ _ _ _) as [cs|e|] eqn:Hc; [|by intros [= <-]|done]. intros [= <-] _.
  destruct (compiled_members _ _ _ _ _ _ _ _ _ _ _ Hc) as (Hport & _ & Hname). exists port, name, b, cs.
  split_and!; try done; [apply (compile_port_ok query port Hp)..|]. intros n ->. by apply (compile_name_ok query).
Qed.
End compile_facts.

(** ** Decorated reads *)

Section decorated.
Context {HT : HeaderText} {JT : JsonText}.

Abbreviation is_rift := (fun m : string * string => String.eqb m.1 "_rift").
Abbreviation is_body_header := (fun h : string * string => String.eqb h.1 "content-type" || String.eqb h.1 "content-length").

(** The members of a decorated body: the others as they were, every [_rift] an object with the knobs. *)
Definition decorates (knobs : ResolvedKnobs) (before after : list (string * string)) : Prop :=
  List.filter (fun m => negb (is_rift m)) after = List.filter (fun m => negb (is_rift m)) before
  /\ Forall (fun m => is_rift m = true -> exists fields,
       m.2 = show (Json.JObject fields) /\ map_get "flowStateResolved" fields = Some (ResolvedKnobs_to_json knobs)) after
  /\ Exists (fun m => is_rift m = true) after.

Lemma decorated_rift_spec knobs rift out : decorated_rift knobs rift = Ok out ->
  exists fields, out = show (Json.JObject fields) /\ map_get "flowStateResolved" fields = Some (ResolvedKnobs_to_json knobs).
Proof.
  unfold decorated_rift. destruct rift as [raw|]; [destruct (parse_map raw) as [m|]; [|done]|]; intros [= <-].
  - exists (map_insert "flowStateResolved" (ResolvedKnobs_to_json knobs) m). split; [done|]. by rewrite map_get_insert, String.eqb_refl.
  - by exists [("flowStateResolved"%string, ResolvedKnobs_to_json knobs)].
Qed.

Lemma rewrite_members_spec knobs before after : rewrite_members knobs before = Ok after ->
  List.filter (fun m => negb (is_rift m)) after = List.filter (fun m => negb (is_rift m)) before
  /\ after.*1 = before.*1
  /\ Forall (fun m => is_rift m = true -> exists fields,
       m.2 = show (Json.JObject fields) /\ map_get "flowStateResolved" fields = Some (ResolvedKnobs_to_json knobs)) after.
Proof.
  revert after. induction before as [|[key value] before IH]; intros after H; cbn [rewrite_members] in H; [by injection H as <-|].
  destruct (String.eqb key "_rift") eqn:Hk.
  - destruct (decorated_rift knobs (Some value)) as [value'|] eqn:Hd; [|done]. destruct (rewrite_members knobs before) as [rest|]; [|done].
    injection H as <-. destruct (IH rest eq_refl) as (Hf & Hs & Hr). cbn. rewrite Hk. cbn. split_and!; [done|by rewrite Hs|].
    constructor; [|done]. intros _. by apply decorated_rift_spec in Hd.
  - destruct (rewrite_members knobs before) as [rest|]; [|done]. injection H as <-. destruct (IH rest eq_refl) as (Hf & Hs & Hr). cbn. rewrite Hk. cbn.
    split_and!; [by rewrite Hf|by rewrite Hs|]. constructor; [|done]. cbn. by rewrite Hk.
Qed.

Lemma existsb_keys (l : list (string * string)) : existsb is_rift l = existsb (String.eqb "_rift") l.*1.
Proof. induction l as [|[k v] l IH]; [done|]. cbn. by rewrite IH, String.eqb_sym. Qed.

(** A read of an imposter tells what the engine told: the status and every header of the answer are
    kept but those of the body that is replaced; of the body, every member but [_rift] is
    written with its own text, in the order the engine wrote it, and [_rift] holds the resolved
    knobs; a body that cannot be decorated goes through unchanged. *)
Theorem decoration_keeps_answer a knobs body :
  ok_status (ea_status a) = true -> ea_body a = Ok body ->
  exists text, decorate_flow_state_resolved (Streamed a) knobs
    = Composed (Buffered (ea_status a) json_content_type text (List.filter (fun h => negb (is_body_header h)) (ea_headers a)))
  /\ match rewrite_flow_state_resolved body knobs with
     | Ok _ => exists before after, ordered_members body = Ok before /\ text = object_text after /\ decorates knobs before after
     | Err _ => text = body
     end.
Proof.
  intros Hs Hb. unfold decorate_flow_state_resolved, as_success. cbn. rewrite Hs, Hb. eexists. split; [done|].
  destruct (rewrite_flow_state_resolved body knobs) as [out|] eqn:Hr; [|done]. revert Hr. unfold rewrite_flow_state_resolved.
  destruct (ordered_members body) as [before|[|]]; [|done..]. destruct (rewrite_members knobs before) as [after|] eqn:Hm; [|done].
  destruct (rewrite_members_spec _ _ _ Hm) as (Hf & Hk & Hall). destruct (existsb _ before) eqn:He.
  - intros [= <-]. exists before, after. split; [done|]. split; [done|]. split; [done|]. split; [done|].
    rewrite existsb_keys, <- Hk, <- existsb_keys in He. apply existsb_exists in He as (m & Hin & Hm').
    apply Exists_exists. exists m. split; [by apply list_elem_of_In|done].
  - destruct (decorated_rift knobs None) as [rift|] eqn:Hd; [|done]. intros [= <-]. apply decorated_rift_spec in Hd.
    exists before, (after ++ [("_rift"%string, rift)]). split; [done|]. split; [done|]. split; [|split].
    + rewrite List.filter_app, Hf. cbn. by rewrite app_nil_r.
    + apply Forall_app. split; [done|]. by constructor.
    + apply Exists_app. right. by constructor.
Qed.
End decorated.

(** ** A space's teardown *)

Section teardown.
Context {HT : HeaderText} {itext text : Type} `{!Serde itext ControlRequest} {CD : Codec text} {ER : EngineRules}.
Context (written : ControlRequest -> option N) (L : Local).
Implicit Types (w : World itext text).

(** A commit under an id the fleet has not seen is decided by the state machine. *)
Lemma fresh_commit request w : dedup_rows (wd_sm w) !! op_id request = None ->
  exists w' outcome, commit L request w = (w', Ok (response_of (lid_index (wd_next w)) outcome))
    /\ decide_op L (tables (wd_sm w)) request (lid_index (wd_next w)) = (tables (wd_sm w'), outcome) /\ wd_ledger w' = wd_ledger w.
Proof.
  intros Hd. destruct (commit_apply L request w) as (s' & response & acts & Ha & Hc). rewrite Hc.
  assert (dedup_rows (swept (wd_sm w)) !! op_id request = None) as Hs.
  { unfold swept, gc_dedup. cbn. apply map_lookup_filter_None. by left. }
  revert Ha. unfold apply_entry, entry_of. cbn [e_payload e_log_id]. unfold apply_normal, dedup_hit. cbn [dedup_rows tables]. rewrite Hs.
  change (tables (swept (wd_sm w))) with (tables (wd_sm w)).
  destruct (decide_op L (tables (wd_sm w)) request (lid_index (wd_next w))) as [t outcome]. intros [= <- <- _].
  eexists _, outcome. by split_and!.
Qed.

(** The stubs of a space are gone from the port's config. *)
Definition space_gone (t : Tables text) (port : N) (flow : string) : Prop :=
  exists record config, read_record t port = Ok (record, config) /\ Forall (fun s => stub_space s <> Some flow) (cfg_stubs config).

Lemma teardown_applies t port flow request index t' actions : op request = teardown_op port flow ->
  decide_op L t request index = (t', Ok actions) -> space_gone t' port flow.
Proof.
  intros Hop. unfold decide_op. destruct (validate _); [|done]. destruct (check_preconditions _ _); [|done]. rewrite Hop.
  unfold teardown_op. cbn [mutate_tables]. unfold patch_stubs. destruct (read_record t port) as [[record config]|]; [|done].
  cbn. intros [= <- _]. eexists _, _. rewrite read_record_markers, read_written. split; [done|]. cbn.
  apply Forall_forall. intros s [Hs _]%list_elem_of_filter. exact Hs.
Qed.

Lemma set_header_status name value r : reply_status (set_header name value r) = reply_status r.
Proof. unfold set_header. destruct (header_from_str value); [|done]. by destruct r. Qed.

Lemma refusal_not_ok reason : ok_status (reply_status (refusal_reply reason)) = false.
Proof. unfold refusal_reply, refusal_error. by destruct (refusal_response reason). Qed.

(** A submit leaves the ledger alone, and one that is answered as applied was applied. *)
Lemma submit_fresh fate request w w' committed : dedup_rows (wd_sm w) !! op_id request = None ->
  submit_in written L fate request w = (w', committed) ->
  wd_ledger w' = wd_ledger w
  /\ forall response, committed = Ok response -> cr_outcome response = Control.Applied ->
       exists index actions, decide_op L (tables (wd_sm w)) request index = (tables (wd_sm w'), Ok actions).
Proof.
  intros Hd. unfold submit_in. destruct (admit_entry_size written request); [|by intros [= <- <-]].
  destruct (fresh_commit request w Hd) as (w1 & outcome & Hc & Hdec & Hl). destruct fate; rewrite ?Hc; intros [= <- <-]; try done.
  split; [done|]. intros response [= <-] Ha. destruct outcome as [actions|]; [|done]. by exists (lid_index (wd_next w)), actions.
Qed.

(** C25: a space's teardown is reported done only when it is: an answer of success means that the engine tore
    down the flow state and that the stubs of the space are gone from the replicated config;
    when the engine did not, nothing is committed; and when the commit is what failed, the
    delete is still parked for the replayer unless the state machine refused it. *)
Theorem teardown_not_silent full_error kc proxied port flow w w' out :
  kc_full kc = false -> dedup_rows (wd_sm w) !! kc_op_id kc = None ->
  terminate_space_teardown written L full_error kc proxied port flow w = (w', out) ->
  (ok_status (out_status out) = true -> ok_status (out_status proxied) = true /\ space_gone (tables (wd_sm w')) port flow)
  /\ (ok_status (out_status proxied) = false -> w' = w /\ out = proxied)
  /\ (ok_status (out_status proxied) = true -> ok_status (out_status out) = false ->
       is_Some (wd_ledger w' !! kc_op_id kc) \/ exists reason, out = Composed (refusal_reply reason)).
Proof.
  intros Hfull Hfresh. unfold terminate_space_teardown. destruct (ok_status (out_status proxied)) eqn:Hp; cbn [negb].
  2:{ intros [= <- <-]. split_and!; [congruence|done|done]. }
  unfold commit_teardown_half. cbn [validate teardown_op]. rewrite Hfull.
  set (request := mint_request _ _ _ _). set (w1 := set_ledger (park_intent request) w).
  destruct (submit_in written L (kc_fate kc) request w1) as [w0 committed] eqn:Hsub.
  apply submit_fresh in Hsub as [Hl Ha]; [|exact Hfresh].
  assert (is_Some (wd_ledger w0 !! kc_op_id kc)) as Hparked by (rewrite Hl; cbn; rewrite lookup_insert_eq; by eexists).
  assert (forall status kind message, ok_status status = false ->
    ok_status (out_status (Composed (with_op_id (kc_op_id kc) (refuse status kind message)))) = false) as Hno.
  { intros. cbn. unfold with_op_id. by rewrite set_header_status. }
  destruct (kc_late kc).
  { intros [= <- <-]. rewrite Hno by done. split_and!; [done|done|by left]. }
  destruct committed as [response|[]]; [|intros [= <- <-]; rewrite Hno by done; split_and!; [done|done|by left]..].
  destruct (cr_outcome response) as [|reason] eqn:Ho; intros [= <- <-].
  - destruct (Ha response eq_refl Ho) as (index & actions & Hdec). rewrite Hp. split_and!; [|done|done]. intros _. split; [done|].
    apply (teardown_applies _ port flow request _ _ _ eq_refl) in Hdec. by destruct (kc_stuck kc).
  - cbn. change (te_status (refusal_error reason)) with (reply_status (refusal_reply reason)). rewrite refusal_not_ok.
    split_and!; [done|done|]. intros _ _. right. by exists reason.
Qed.
End teardown.

(** ** A concrete front *)

#[local] Existing Instances demo_codec demo_rules demo_headers list_engine kept_request.

#[local] Instance demo_wire : TryWire := {
  method_from_bytes := Ok;
  path_and_query := Ok;
  header_name s := Ok (to_lowercase s);
  header_value := Ok;
  request_refusal _ := None;
  decode_try b := Ok {| tq_method := "GET"; tq_path := as_text b; tq_body := None;
                        tq_headers := [{| th_name := "Content-Length"; th_value := "99" |}; {| th_name := "Accept"; th_value := "*/*" |}] |};
}.

(** Text of its own: an object is its fields' names. *)
#[local] Instance demo_json : JsonText := {
  ordered_members s := if String.eqb s "{}" then Ok [("port", "6400"); ("_rift", "{}")]%string else Err NotObject;
  parse_map _ := Some [];
  parse_value _ := Ok (Json.JObject []);
  show _ := "{...}";
}.

Definition demo_drive : DriveState (list Stub) doc :=
  {| dv_engine := Some []; dv_apply_failures := ∅; dv_bind_failures := ∅; dv_needs_resync := false; dv_sequencing := None;
     dv_routes := None; dv_flow_net := None |}.

(** A snowman, in two frames around trailers. *)
Definition snowman : Answer :=
  {| an_status := 302; an_headers := [("location", "/x")]%string; an_fault := None;
     an_frames := [Ok (Some (map ascii_of_N [226; 152]%N)); Ok None; Ok (Some [ascii_of_N 131])] |}.

Lemma try_shows_answer_witness :
  (exists r, try_answer 3 7 snowman = Ok r /\ tp_truncated r = false /\ tp_body_lossy r = false)
  /\ exists r, try_answer 2 7 snowman = Ok r /\ tp_truncated r = true /\ tp_body_lossy r = true.
Proof.
  split.
  - destruct (try_shows_answer 3 7 snowman (map ascii_of_N [226; 152; 131]%N) eq_refl eq_refl) as (r & Hr & _ & Ht & Hl & _).
    exists r. split_and!; [exact Hr|rewrite Ht; reflexivity|rewrite Hl; vm_compute; reflexivity].
  - destruct (try_shows_answer 2 7 snowman (map ascii_of_N [226; 152; 131]%N) eq_refl eq_refl) as (r & Hr & _ & Ht & Hl & _).
    exists r. split_and!; [exact Hr|rewrite Ht; reflexivity|rewrite Hl; vm_compute; reflexivity].
Defined.

Definition tried : list WireRequest * Reply :=
  terminate_try_imposter show demo_tables demo_drive (fun _ => Some snowman) Whole false 7 (Ok (as_bytes "/a")) 6400.

Lemma try_confined_witness :
  length tried.1 = 1 /\ Forall (fun q => headers_get_all HOST (wr_headers q) <> []) tried.1 /\ reply_status tried.2 = 200%N.
Proof.
  split_and!; [vm_compute; reflexivity| |vm_compute; reflexivity]. apply Forall_forall. intros q Hq.
  destruct (try_confined show demo_tables demo_drive (fun _ => Some snowman) Whole false 7 (Ok (as_bytes "/a")) 6400 tried.1 tried.2)
    as (_ & H & _); [exact (surjective_pairing tried)|]. by destruct (H q Hq) as (_ & _ & _ & Hh & _).
Defined.

Definition compiled_reply : option Reply :=
  terminate_spec_compile demo_sha meta_escape show user_document (fun _ => Ok user_api) 10 (Some "port=6400&name=Pet%20Store"%string) (Ok []).

Lemma compile_answers_port_witness :
  exists reply cs, compiled_reply = Some reply /\ json_get "port" (cs_imposter cs) = Some (Json.JInt 6400)
    /\ json_get "name" (cs_imposter cs) = Some (Json.JString "Pet Store")
    /\ reply = json_ok show 200 (json_obj [("imposter"%string, cs_imposter cs); ("operations"%string, Json.JArray (operation_json <$> cs_operations cs))]).
Proof.
  assert (exists reply, compiled_reply = Some reply /\ reply_status reply = 200%N) as (reply & Hr & Hs) by (eexists; split; vm_compute; reflexivity).
  destruct (compile_answers_port demo_sha meta_escape show user_document (fun _ => Ok user_api) 10
    (Some "port=6400&name=Pet%20Store"%string) (Ok []) reply Hr Hs) as (port & name & b & cs & _ & _ & Hp & _ & Hn & _ & He & Hport & Hname & _).
  vm_compute in Hp. injection Hp as <-. vm_compute in Hn. injection Hn as <-. exists reply, cs. by split_and!.
Defined.

Definition default_knobs : ResolvedKnobs :=
  {| rk_durability := Build_Knob Durability.Async KnobSource.Default; rk_read_consistency := Build_Knob ReadConsistency.Strong KnobSource.Set_;
     rk_flow_id_source := Build_Knob DEFAULT_FLOW_ID_SOURCE KnobSource.Default |}.

Definition engine_read : EngineAnswer :=
  {| ea_status := 200; ea_headers := [("vary", "accept"); ("content-length", "2")]%string; ea_body := Ok "{}"%string |}.

Lemma decoration_keeps_answer_witness :
  exists text before after, decorate_flow_state_resolved (Streamed engine_read) default_knobs
    = Composed (Buffered 200 json_content_type text [("vary", "accept")]%string)
  /\ text = object_text after /\ decorates default_knobs before after.
Proof.
  destruct (decoration_keeps_answer engine_read default_knobs "{}" eq_refl eq_refl) as (text & Hd & Hm).
  destruct (rewrite_flow_state_resolved "{}" default_knobs) eqn:E; [|vm_compute in E; discriminate E].
  destruct Hm as (before & after & _ & Ht & Hdec). by exists text, before, after.
Defined.

(** A space of an imposter with one stub in it. *)
Definition spaced_world : World ControlRequest doc :=
  {| wd_ledger := ∅; wd_sm := state_after initial [demo_entry 1 (demo_request "op-1" 10 None (PutImposter (demo_config 6400 [spaced_stub "a" "x"; spaced_stub "b" "y"]) None))];
     wd_next := {| lid_term := 1; lid_node := 1; lid_index := 2 |} |}.

Definition torn_down : World ControlRequest doc * Outgoing :=
  terminate_space_teardown small demo_local "disk full" (key_commit "op-2" "B") (Streamed engine_read) 6400 "x" spaced_world.

Lemma teardown_not_silent_witness :
  torn_down.2 = Streamed engine_read /\ space_gone (tables (wd_sm torn_down.1)) 6400 "x".
Proof.
  assert (torn_down.2 = Streamed engine_read) as Ho by (vm_compute; reflexivity). split; [exact Ho|].
  destruct (teardown_not_silent small demo_local "disk full" (key_commit "op-2" "B") (Streamed engine_read) 6400 "x" spaced_world torn_down.1 torn_down.2)
    as (H & _ & _); [reflexivity|vm_compute; reflexivity|exact (surjective_pairing torn_down)|]. rewrite Ho in H. by apply H.
Defined.
