(* ===== verification/Operator.v ===== *)
(** * The operator's surface

    The startup latch behind the probes ([readiness.rs], [probes.rs]), the cluster port's reports
    of one node ([cluster_api.rs]), what a write rides ([write_path.rs]), and the fan-outs that
    fold the reports of every voter ([fleet.rs]). A fan-out is the calls it makes, the order
    in which they end and whether its budget runs out first. State that a body reads more than
    once, with nothing held between the reads, is an argument per read. *)

From S2P Require Import Prelude Upstream Json Ring Node Auth Rpc FlowConfig Shard Flow Drive Control Recorded StateMachine Projection Intents Session Barrier Routing Front FrontHandle.

(** ** [readiness.rs]: the latch *)

Definition GATE_JOINED : string := "cluster-joined".
Definition GATE_RECONCILED : string := "cluster-reconciled".

Inductive ReadyState := Ready | NotReady | Draining.

Definition ReadyState_as_str (s : ReadyState) : string :=
  match s with Ready => "ready" | NotReady => "not-ready" | Draining => "draining" end.

Definition is_ready (s : ReadyState) : bool := match s with Ready => true | _ => false end.

Record Gate := { gt_name : string; gt_satisfied : bool }.
Record Readiness := { rd_gates : list Gate; rd_draining : bool }.

Definition awaiting (gates : list string) : Readiness :=
  {| rd_gates := (fun name => {| gt_name := name; gt_satisfied := false |}) <$> gates; rd_draining := false |}.

(** The first gate of the name is set; a name that was never registered changes nothing. *)
Fixpoint satisfy_gate (gate : string) (gates : list Gate) : list Gate :=
  match gates with
  | [] => []
  | g :: gates =>
      if String.eqb (gt_name g) gate then {| gt_name := gt_name g; gt_satisfied := true |} :: gates
      else g :: satisfy_gate gate gates
  end.

Definition satisfy (gate : string) (r : Readiness) : Readiness :=
  {| rd_gates := satisfy_gate gate (rd_gates r); rd_draining := rd_draining r |}.

Definition start_draining (r : Readiness) : Readiness := {| rd_gates := rd_gates r; rd_draining := true |}.

Definition pending (r : Readiness) : list string := gt_name <$> List.filter (fun g => negb (gt_satisfied g)) (rd_gates r).

Definition ready_state (r : Readiness) : ReadyState :=
  if rd_draining r then Draining else match pending r with [] => Ready | _ => NotReady end.

(** ** [probes.rs]: the probe listener *)

(** [later] is the latch when the gates still out are read, after the state. *)
Definition probe_handle (r later : Readiness) (method : Method) (path : string) : N * Json :=
  if bool_decide (method = GET) && String.eqb path "/readyz" then
    (if is_ready (ready_state r) then 200%N else 503%N,
     json_obj [("status"%string, Json.JString (ReadyState_as_str (ready_state r)));
               ("pending"%string, Json.JArray (Json.JString <$> pending later))])
  else if bool_decide (method = GET) && String.eqb path "/healthz" then
    (200%N, json_obj [("status"%string, Json.JString "ok"); ("readiness"%string, Json.JString (ReadyState_as_str (ready_state r)))])
  else
    (404%N, json_obj [("error"%string, Json.JString "notFound"); ("probes"%string, Json.JArray [Json.JString "/readyz"; Json.JString "/healthz"])]).

(** An accept of the listener's loop: the pause after a failure, whether the connection is served. *)
Definition MAX_CONCURRENT_PROBES : nat := 64.

Definition accept_backoff (backoff_ms : N) (accepted : bool) : N := if accepted then 1%N else N.min (backoff_ms * 2) 1000.

Definition admits_probe (in_flight : nat) : bool := (in_flight <? MAX_CONCURRENT_PROBES)%nat.

Inductive IpAddr := V4 (text : string) (unspecified : bool) | V6 (text : string) (unspecified : bool).

Inductive HealthcheckTarget := ProbeListener (url : string) | AdminPlane.

Definition is_unspecified (ip : IpAddr) : bool := match ip with V4 _ u | V6 _ u => u end.

(** [answers] is whether a listener takes a connection at the address. *)
Definition healthcheck_target (answers : IpAddr -> N -> bool) (cluster : bool) (ip : IpAddr) (port : N) : HealthcheckTarget :=
  let connect_ip := if is_unspecified ip then V4 "127.0.0.1" false else ip in
  let url :=
    match connect_ip with
    | V6 ip _ => "http://[" +:+ ip +:+ "]:" +:+ pretty port +:+ "/healthz"
    | V4 ip _ => "http://" +:+ ip +:+ ":" +:+ pretty port +:+ "/healthz"
    end in
  if cluster || answers connect_ip port then ProbeListener url else AdminPlane.

(** ** [write_path.rs] *)

Record WritePathSettings := {
  wp_barrier : WriteBarrier;
  wp_barrier_timeout_secs : N;
  wp_admin_async : bool;
  wp_flow_fsync_interval_ms : N;
}.

Definition json_N (n : N) : Json := Json.JInt (Z.of_N n).
Definition json_opt {A} (f : A -> Json) (o : option A) : Json := match o with Some a => f a | None => Json.JNull end.

Definition write_path_json (w : WritePathSettings) : Json :=
  json_obj [("write_barrier"%string, Json.JString (match wp_barrier w with ReadyNodes => "ready-nodes" | BarrierNone => "none" end));
            ("write_barrier_timeout_seconds"%string, json_N (wp_barrier_timeout_secs w));
            ("admin_async"%string, Json.JBool (wp_admin_async w));
            ("flow_fsync_interval_ms"%string, json_N (wp_flow_fsync_interval_ms w))].

(** ** [cluster_api.rs]: one node's reports *)

(** The slot the handlers read the node through. *)
Inductive Slot (A : Type) := Unbound | Bound (node : A) | Released.
Arguments Unbound {A}. Arguments Bound {A} _. Arguments Released {A}.

Definition slot_set {A} (node : A) (s : Slot A) : Slot A * bool := match s with Unbound => (Bound node, true) | _ => (s, false) end.

Definition slot_node {A} (s : Slot A) : result RpcError A :=
  match s with
  | Unbound => Err (Handler "cluster node is not available yet")
  | Released => Err (Handler "cluster node is shutting down")
  | Bound node => Ok node
  end.

Record StatusReport := {
  st_node_id : NodeId;
  st_is_leader : bool;
  st_current_leader : option NodeId;
  st_last_applied : option N;
  st_voters : list NodeId;
  st_learners : list NodeId;
  st_isolated : bool;
}.

Definition node_id (id : NodeId) : Json := Json.JString (pretty id).

Record BindFields := { bf_bound_ports : Json; bf_bind_failures : Json; bf_bind_status_unavailable : Json }.

Definition bind_unknown : BindFields :=
  {| bf_bound_ports := Json.JNull; bf_bind_failures := Json.JNull; bf_bind_status_unavailable := Json.JNull |}.

Definition bind_from_reply (reply : option Json) : BindFields :=
  match reply with
  | None => bind_unknown
  | Some reply =>
      match json_get "bound_ports" reply, json_get "bind_failures" reply, json_get "bind_status_unavailable" reply with
      | Some ports, Some failures, Some unavailable =>
          {| bf_bound_ports := ports; bf_bind_failures := failures; bf_bind_status_unavailable := unavailable |}
      | _, _, _ => bind_unknown
      end
  end.

Section reports.
Context {E : Type} `{!ImposterManager E} {ftext : Type}.

Definition local_bind_fields (d : DriveState E ftext) : BindFields :=
  match local_bind_report d with
  | Some (ports, failures) =>
      {| bf_bound_ports := Json.JArray (json_N <$> ports);
         bf_bind_failures := json_obj ((fun kv => (pretty kv.1, Json.JString kv.2)) <$> port_rows failures);
         bf_bind_status_unavailable := Json.JBool false |}
  | None => {| bf_bound_ports := Json.JNull; bf_bind_failures := Json.JNull; bf_bind_status_unavailable := Json.JBool true |}
  end.

Definition bind_members (b : BindFields) : list (string * Json) :=
  [("bound_ports"%string, bf_bound_ports b); ("bind_failures"%string, bf_bind_failures b);
   ("bind_status_unavailable"%string, bf_bind_status_unavailable b)].

Definition members_fields (status : StatusReport) (fleet_name : result string (option string)) (bind : BindFields) (w : WritePathSettings)
    : list (string * Json) :=
  [("node_id"%string, node_id (st_node_id status)); ("is_leader"%string, Json.JBool (st_is_leader status));
   ("current_leader"%string, json_opt node_id (st_current_leader status));
   ("last_applied"%string, json_opt json_N (st_last_applied status));
   ("voters"%string, Json.JArray (node_id <$> st_voters status));
   ("fleet_name"%string, json_opt Json.JString (match fleet_name with Ok name => name | Err _ => None end));
   ("fleet_name_unavailable"%string, Json.JBool (match fleet_name with Ok _ => false | Err _ => true end))]
  ++ bind_members bind ++ [("write_path"%string, write_path_json w)].

Definition members_body (status : StatusReport) (fleet_name : result string (option string)) (d : DriveState E ftext) (w : WritePathSettings) : Json :=
  json_obj (members_fields status fleet_name (local_bind_fields d) w).

(** The latch is read three times. *)
Definition health_fields (r r' r'' : Readiness) (isolated : bool) (parked : result string N) (m_idx : N) (members : list NodeId) : list (string * Json) :=
  [("ready"%string, Json.JBool (is_ready (ready_state r))); ("state"%string, Json.JString (ReadyState_as_str (ready_state r')));
   ("pending_gates"%string, Json.JArray (Json.JString <$> pending r'')); ("isolated"%string, Json.JBool isolated);
   ("parked_intents"%string, json_opt json_N (match parked with Ok n => Some n | Err _ => None end));
   ("ring"%string, json_obj [("m_idx"%string, json_N m_idx); ("members"%string, Json.JArray (node_id <$> members))])].

Definition health_body (r r' r'' : Readiness) (isolated : bool) (parked : result string N) (m_idx : N) (members : list NodeId) : Json :=
  json_obj (health_fields r r' r'' isolated parked m_idx members).

Context {text : Type} {CD : Codec text}.

Definition config_body (t : Tables text) (last_applied : option N) : Json :=
  json_obj [("ports"%string, Json.JArray ((fun port => json_obj [("port"%string, json_N port)]) <$> configured_ports t));
            ("last_applied"%string, json_opt json_N last_applied)].

(** [parse] reads a stored config as a value. *)
Fixpoint imposter_rows (parse : text -> result string Json) (t : Tables text) (d : DriveState E ftext) (ports : list N) : result string (list Json) :=
  match ports with
  | [] => Ok []
  | port :: ports =>
      match read_config t port with
      | Err e => Err e
      | Ok body =>
          let config := match body with
                        | Some body => match parse body with Ok v => v | Err e => json_obj [("error"%string, Json.JString e)] end
                        | None => Json.JNull
                        end in
          match imposter_rows parse t d ports with
          | Err e => Err e
          | Ok rows =>
              Ok (json_obj [("port"%string, json_N port); ("config"%string, config);
                            ("bind_failure"%string, json_opt Json.JString (bind_failure d port))] :: rows)
          end
      end
  end.

Definition imposters_body (parse : text -> result string Json) (t : Tables text) (d : DriveState E ftext) : result string Json :=
  match imposter_rows parse t d (configured_ports t) with
  | Ok rows => Ok (json_obj [("imposters"%string, Json.JArray rows)])
  | Err e => Err e
  end.
End reports.

(** ** [fleet.rs]: reports of every voter *)

Record FleetBody := { fb_value : Json; fb_partial : bool }.

(** How a peer's call ends. *)
Inductive PeerCall := Replied (reply : Json) | Unanswered (e : string) | Panicked (e : string).

Definition as_u64 (v : Json) : option N :=
  match v with Json.JInt z => if (0 <=? z)%Z && (z <? 2 ^ 64)%Z then Some (Z.to_N z) else None | _ => None end.

Definition add_peer_depth (total : N) (reply : option Json) : N * bool :=
  match (reply ≫= json_get "parked_intents") ≫= as_u64 with
  | Some depth => (sat_add total depth, true)
  | None => (total, false)
  end.

(** One call's end folded into the sum and the count of those that gave no depth. *)
Definition fold_health (acc : N * nat) (call : PeerCall) : N * nat :=
  let '(total, usable) := add_peer_depth acc.1 (match call with Replied reply => Some reply | _ => None end) in
  (total, if usable then acc.2 else S acc.2).

(** [ended] are the peers whose calls end inside the budget, in order. *)
Record FanOut := { fo_calls : NodeId -> PeerCall; fo_ended : list NodeId; fo_timed_out : bool }.

Definition peers_of (status : StatusReport) : list NodeId :=
  List.filter (fun id => negb (id =? st_node_id status)%N) (st_voters status).

Definition fleet_health (own : list (string * Json)) (f : FanOut) : FleetBody :=
  match json_get "parked_intents" (json_obj own) ≫= as_u64 with
  | None => {| fb_value := json_obj own; fb_partial := true |}
  | Some mine =>
      let '(total, unanswered) := foldl fold_health (mine, 0) (fo_calls f <$> fo_ended f) in
      {| fb_value := Json.JObject (map_insert "parked_intents_fleet" (json_N total) (map_of own));
         fb_partial := fo_timed_out f || (0 <? unanswered)%nat |}
  end.

Definition or_null (o : option Json) : Json := default Json.JNull o.

Definition member_row (id : NodeId) (is_me : bool) (last_applied : option N) (is_leader : bool) (answered : option Json)
    (local_bind : BindFields) (w : WritePathSettings) : Json :=
  let row applied leader reachable bind path :=
    json_obj ([("node_id"%string, node_id id); ("last_applied"%string, applied); ("is_leader"%string, leader);
               ("reachable"%string, Json.JBool reachable)] ++ bind_members bind ++ [("write_path"%string, path)]) in
  if is_me then row (json_opt json_N last_applied) (Json.JBool is_leader) true local_bind (write_path_json w)
  else
    match answered with
    | Some reply =>
        row (or_null (json_get "last_applied" reply)) (or_null (json_get "is_leader" reply)) true (bind_from_reply (Some reply))
            (or_null (json_get "write_path" reply))
    | None => row Json.JNull Json.JNull false bind_unknown Json.JNull
    end.

Definition is_json_bool (b : bool) (v : option Json) : bool :=
  match v with Some (Json.JBool c) => Bool.eqb b c | _ => false end.

Definition json_is_null (v : option Json) : bool := match v with Some Json.JNull | None => true | _ => false end.

Definition members_partial (timed_out : bool) (rows : list Json) : bool :=
  timed_out
  || existsb (fun row => is_json_bool false (json_get "reachable" row)) rows
  || existsb (fun row => is_json_bool true (json_get "reachable" row) && json_is_null (json_get "bound_ports" row)) rows.

(** The replies that were read, by the peer that gave them. *)
Definition answered_of (f : FanOut) (id : NodeId) : option Json :=
  if bool_decide (id ∈ fo_ended f) then match fo_calls f id with Replied reply => Some reply | _ => None end else None.

Section merged.
Context {E : Type} `{!ImposterManager E} {ftext : Type}.

(** [reported] is the status the node's own report is built from, [status] the one read after it. *)
Definition merged_members (reported status : StatusReport) (fleet_name : result string (option string)) (d : DriveState E ftext) (w : WritePathSettings)
    (front_door : option string) (admin_port : N) (f : FanOut) : FleetBody :=
  let bind := local_bind_fields d in
  let rows := (fun id => member_row id (id =? st_node_id status)%N (st_last_applied status) (st_is_leader status) (answered_of f id) bind w)
              <$> st_voters status in
  {| fb_value := Json.JObject (map_insert "members" (Json.JArray rows)
                  (map_insert "admin_port" (json_N admin_port)
                    (map_insert "front_door" (json_opt Json.JString front_door) (map_of (members_fields reported fleet_name bind w)))));
     fb_partial := members_partial (fo_timed_out f) rows |}.
End merged.
