(* ===== verification/OperatorFacts.v ===== *)
(** * Facts about the operator's surface

    The probe opens exactly when every gate has reported and no drain has begun; the fleet's
    backlog is a floor, and exact when it is not marked partial; and a member's row is what the
    member said of itself, unknown when it said nothing. *)

From S2P Require Import Prelude Upstream Json Ring Node Auth Rpc FlowConfig Shard Flow Drive DriveFacts Control Recorded StateMachine Projection Intents Session Barrier Routing Front FrontHandle Operator.

(** ** The latch *)

Inductive ReadyOp := Satisfy (gate : string) | Drain.

Definition ready_op (r : Readiness) (o : ReadyOp) : Readiness :=
  match o with Satisfy gate => satisfy gate r | Drain => start_draining r end.

Definition gate_state (ops : list ReadyOp) (name : string) : Gate :=
  {| gt_name := name; gt_satisfied := existsb (fun o => match o with Satisfy g => String.eqb g name | Drain => false end) ops |}.

Lemma satisfy_gate_state ops gate names : NoDup names ->
  satisfy_gate gate (gate_state ops <$> names) = gate_state (ops ++ [Satisfy gate]) <$> names.
Proof.
  assert (Hs : forall name, gate_state (ops ++ [Satisfy gate]) name
    = {| gt_name := name; gt_satisfied := gt_satisfied (gate_state ops name) || String.eqb gate name |}).
  { intros name. unfold gate_state. f_equal. rewrite existsb_app. cbn. by rewrite orb_false_r. }
  induction names as [|name names IH]; [done|]. rewrite !fmap_cons. intros [Hn Hd]%NoDup_cons. cbn [satisfy_gate]. rewrite Hs. cbn [gt_name gate_state].
  destruct (String.eqb_spec name gate) as [->|Hne].
  - f_equal; [by rewrite String.eqb_refl, orb_true_r|]. apply list_fmap_ext. intros i name Hi. rewrite Hs.
    destruct (String.eqb_spec gate name) as [->|]; [|by rewrite orb_false_r]. destruct Hn. by eapply list_elem_of_lookup_2.
  - rewrite IH by done. f_equal. unfold gate_state at 1. f_equal. rewrite String.eqb_sym. apply String.eqb_neq in Hne as ->. by rewrite orb_false_r.
Qed.

Lemma run_ready_ops names ops : NoDup names ->
  foldl ready_op (awaiting names) ops
  = {| rd_gates := gate_state ops <$> names; rd_draining := existsb (fun o => match o with Drain => true | _ => false end) ops |}.
Proof.
  intros Hd. induction ops as [|o ops IH] using rev_ind; [done|]. rewrite foldl_app, IH. cbn [foldl]. rewrite existsb_app.
  destruct o as [gate|]; cbn; unfold satisfy, start_draining; cbn [rd_gates rd_draining].
  - by rewrite satisfy_gate_state, orb_false_r.
  - rewrite orb_true_r. f_equal. apply list_fmap_ext. intros i name _. unfold gate_state. by rewrite existsb_app, orb_false_r.
Qed.

Lemma reported_elem ops name : gt_satisfied (gate_state ops name) = true <-> Satisfy name ∈ ops.
Proof.
  cbn. rewrite existsb_exists. split.
  - intros ([gate|] & Hin & He); [|done]. apply String.eqb_eq in He as ->. by apply list_elem_of_In.
  - intros Hin. exists (Satisfy name). split; [by apply list_elem_of_In|apply String.eqb_refl].
Qed.

Lemma drained_elem ops : existsb (fun o => match o with Drain => true | _ => false end) ops = true <-> Drain ∈ ops.
Proof.
  rewrite existsb_exists. split.
  - intros ([gate|] & Hin & He); [done|]. by apply list_elem_of_In.
  - intros Hin. exists Drain. split; [by apply list_elem_of_In|done].
Qed.

Lemma pending_names ops names draining :
  pending {| rd_gates := gate_state ops <$> names; rd_draining := draining |}
  = List.filter (fun name => negb (gt_satisfied (gate_state ops name))) names.
Proof.
  unfold pending. cbn [rd_gates]. induction names as [|name names IH]; [done|]. rewrite fmap_cons. cbn [List.filter].
  destruct (negb (gt_satisfied (gate_state ops name))); [rewrite fmap_cons|]; by rewrite IH.
Qed.

Lemma none_pending ops names : List.filter (fun name => negb (gt_satisfied (gate_state ops name))) names = []
  <-> forall name, name ∈ names -> Satisfy name ∈ ops.
Proof.
  split.
  - intros H name Hin. apply reported_elem. destruct (gt_satisfied (gate_state ops name)) eqn:Hs; [done|].
    assert (name ∈ List.filter (fun name => negb (gt_satisfied (gate_state ops name))) names) as Hel.
    { apply list_elem_of_In, filter_In. split; [by apply list_elem_of_In|by rewrite Hs]. }
    rewrite H in Hel. by apply not_elem_of_nil in Hel.
  - intros H. destruct (List.filter _ names) as [|name l] eqn:Hf; [done|].
    assert (In name (List.filter (fun name => negb (gt_satisfied (gate_state ops name))) names)) as Hin by (rewrite Hf; by left).
    apply filter_In in Hin as [Hin Hs]. apply list_elem_of_In, H, reported_elem in Hin. by rewrite Hin in Hs.
Qed.

(** The balancer's gate opens exactly when it should: whatever the order in which gates report and a leave
    begins, the readiness probe answers 200 when every registered gate has reported and no leave
    has begun and 503 otherwise, naming the gates still out when it gets to them, in the order they
    were registered; a leave is final; and the liveness probe answers 200 throughout. *)
Theorem ready_exact names ops more : NoDup names ->
  let r := foldl ready_op (awaiting names) ops in
  let later := foldl ready_op (awaiting names) (ops ++ more) in
  ((probe_handle r later GET "/readyz").1 = 200%N <-> (forall name, name ∈ names -> Satisfy name ∈ ops) /\ Drain ∉ ops)
  /\ ((probe_handle r later GET "/readyz").1 <> 200%N -> (probe_handle r later GET "/readyz").1 = 503%N)
  /\ json_get "pending" (probe_handle r later GET "/readyz").2
     = Some (Json.JArray (Json.JString <$> List.filter (fun name => negb (gt_satisfied (gate_state (ops ++ more) name))) names))
  /\ (Drain ∈ ops -> ready_state r = Draining)
  /\ (probe_handle r later GET "/healthz").1 = 200%N.
Proof.
  intros Hd r later. subst r later. rewrite !run_ready_ops by done. set (drained := existsb _ ops). unfold probe_handle. cbn [fst snd].
  assert (Hr : forall names, ready_state {| rd_gates := gate_state ops <$> names; rd_draining := drained |}
    = if drained then Draining else match List.filter (fun name => negb (gt_satisfied (gate_state ops name))) names with [] => Ready | _ => NotReady end).
  { intros. unfold ready_state. by rewrite pending_names. }
  pose proof (drained_elem ops) as Hdr. fold drained in Hdr. pose proof (none_pending ops names) as Hn. rewrite Hr, pending_names.
  split_and!; [|..|done].
  - destruct drained; cbn; [split; [done|]; intros [_ []]; by apply Hdr|].
    destruct (List.filter _ names); cbn; (split; [|tauto || (intros [H _]; apply Hn in H; done)]); [|done].
    intros _. split; [by apply Hn|]. intros H%Hdr. done.
  - destruct drained; [done|]. by destruct (List.filter _ names).
  - reflexivity.
  - intros H%Hdr. by rewrite H.
Qed.

(** ** The fleet's backlog *)

Definition depth_of (reply : Json) : option N := json_get "parked_intents" reply ≫= as_u64.

Fixpoint sum_list (l : list N) : N := match l with [] => 0%N | n :: l => (n + sum_list l)%N end.

(** The depth a call contributes, if any. *)
Definition contributes (call : PeerCall) : option N := match call with Replied reply => depth_of reply | _ => None end.

Lemma fold_health_spec calls total unanswered : (total <= u64_max)%N ->
  foldl fold_health (total, unanswered) calls
  = (N.min (total + sum_list (omap contributes calls)) u64_max, unanswered + length (List.filter (fun c => negb (bool_decide (is_Some (contributes c)))) calls)).
Proof.
  revert total unanswered. induction calls as [|call calls IH]; intros total unanswered Ht; cbn [foldl].
  { cbn. rewrite N.add_0_r, N.min_l, Nat.add_0_r by done. done. }
  assert (Hf : fold_health (total, unanswered) call
    = match contributes call with Some depth => (sat_add total depth, unanswered) | None => (total, S unanswered) end).
  { unfold fold_health, add_peer_depth, contributes, depth_of. cbn [fst snd]. destruct call as [reply|e|e]; [|done..]. cbn.
    by destruct (json_get "parked_intents" reply ≫= as_u64). }
  rewrite Hf. cbn [omap list_omap]. destruct (contributes call) as [depth|] eqn:Hc.
  - rewrite IH by (unfold sat_add; lia). cbn [List.filter]. rewrite Hc. cbn. f_equal. unfold sat_add.
    lia.
  - rewrite IH by done. cbn [List.filter]. rewrite Hc. cbn. f_equal. lia.
Qed.

Lemma sum_list_Permutation l k : l ≡ₚ k -> sum_list l = sum_list k.
Proof. induction 1; cbn; lia. Qed.

Lemma sum_list_app l k : sum_list (l ++ k) = (sum_list l + sum_list k)%N.
Proof. induction l as [|x l IH]; cbn; [done|]. rewrite IH. lia. Qed.

Lemma sum_submseteq l k : l ⊆+ k -> (sum_list l <= sum_list k)%N.
Proof. intros [m Hm]%submseteq_Permutation. rewrite (sum_list_Permutation _ _ Hm), sum_list_app. lia. Qed.

(** What the fan-out can rely on: it asks each other voter once, hears of each at most once, and of all
    when its budget does not run out; and a depth in a reply is the voter's own. *)
Record FanOutOk (status : StatusReport) (depth : NodeId -> N) (f : FanOut) : Prop := {
  ok_ended : fo_ended f ⊆+ peers_of status;
  ok_drained : fo_timed_out f = false -> fo_ended f ≡ₚ peers_of status;
  ok_depth : forall id reply d, fo_calls f id = Replied reply -> depth_of reply = Some d -> d = depth id;
}.

Lemma contributed_depths (f : FanOut) status depth ids : FanOutOk status depth f ->
  omap contributes (fo_calls f <$> ids) = depth <$> List.filter (fun id => bool_decide (is_Some (contributes (fo_calls f id)))) ids.
Proof.
  intros Hok. induction ids as [|id ids IH]; [done|]. rewrite fmap_cons. cbn. destruct (contributes (fo_calls f id)) as [d|] eqn:Hc; cbn.
  - rewrite IH. f_equal. unfold contributes in Hc. destruct (fo_calls f id) eqn:Hcall; try done. by eapply ok_depth.
  - exact IH.
Qed.

Lemma filter_submseteq {A} (p : A -> bool) l : List.filter p l ⊆+ l.
Proof. induction l as [|x l IH]; [done|]. cbn. destruct (p x); by constructor. Qed.

Lemma filter_all {A} (p : A -> bool) l : (forall x, x ∈ l -> p x = true) -> List.filter p l = l.
Proof.
  induction l as [|x l IH]; intros H; [done|]. cbn. rewrite H by apply list_elem_of_here. f_equal. apply IH. intros y Hy. apply H. by right.
Qed.

Lemma sum_voters status (depth : NodeId -> N) : st_node_id status ∈ st_voters status -> NoDup (st_voters status) ->
  sum_list (depth <$> st_voters status) = (depth (st_node_id status) + sum_list (depth <$> peers_of status))%N.
Proof.
  unfold peers_of. induction (st_voters status) as [|v vs IH]; intros Hme Hnd; [by apply not_elem_of_nil in Hme|].
  apply NoDup_cons in Hnd as [Hv Hnd]. cbn [List.filter]. destruct (N.eqb_spec v (st_node_id status)) as [->|Hne]; cbn [negb].
  - rewrite filter_all; [done|]. intros x Hx. destruct (N.eqb_spec x (st_node_id status)) as [->|]; [|done]. by destruct Hv.
  - rewrite !fmap_cons. cbn. apply elem_of_cons in Hme as [Heq|Hme]; [congruence|]. rewrite IH by done. lia.
Qed.


(** ** Members' rows *)

Section rows.
Context {E : Type} `{!ImposterManager E} {ftext : Type}.

(** What a row says of a peer: its own report, or nothing. *)
Definition reports (answered : option Json) (row : Json) : Prop :=
  match answered with
  | Some reply =>
      json_get "reachable" row = Some (Json.JBool true)
      /\ json_get "last_applied" row = Some (or_null (json_get "last_applied" reply))
      /\ json_get "is_leader" row = Some (or_null (json_get "is_leader" reply))
      /\ json_get "write_path" row = Some (or_null (json_get "write_path" reply))
      /\ json_get "bound_ports" row = Some (bf_bound_ports (bind_from_reply (Some reply)))
      /\ json_get "bind_failures" row = Some (bf_bind_failures (bind_from_reply (Some reply)))
  | None =>
      json_get "reachable" row = Some (Json.JBool false)
      /\ Forall (fun key => json_get key row = Some Json.JNull)
           ["last_applied"; "is_leader"; "bound_ports"; "bind_failures"; "bind_status_unavailable"; "write_path"]%string
  end.

Lemma member_row_reports id applied leader answered bind w :
  json_get "node_id" (member_row id false applied leader answered bind w) = Some (node_id id)
  /\ reports answered (member_row id false applied leader answered bind w).
Proof.
  unfold member_row. destruct answered as [reply|]; (split; [reflexivity|]); unfold reports.
  - split_and!; reflexivity.
  - split; [reflexivity|]. repeat constructor.
Qed.

(** A row of a complete answer: the peer was heard and told of its listeners. *)
Lemma row_complete answered row : reports answered row ->
  is_json_bool false (json_get "reachable" row) = false ->
  is_json_bool true (json_get "reachable" row) && json_is_null (json_get "bound_ports" row) = false ->
  exists reply ports, answered = Some reply /\ json_get "bound_ports" reply = Some ports /\ ports <> Json.JNull
    /\ is_Some (json_get "bind_failures" reply) /\ is_Some (json_get "bind_status_unavailable" reply).
Proof.
  destruct answered as [reply|]; [|by intros [-> _]]. intros (Hr & _ & _ & _ & Hb & _) _. rewrite Hr, Hb. cbn [is_json_bool andb Bool.eqb].
  unfold bind_from_reply. destruct (json_get "bound_ports" reply) as [ports|] eqn:Hp, (json_get "bind_failures" reply) eqn:Hf,
    (json_get "bind_status_unavailable" reply) eqn:Hu; try done. cbn. intros Hn. exists reply, ports. split_and!; try done; [by intros ->|by eexists..].
Qed.

(** The members answer says of each voter what that voter said of itself. There is one row per voter, in order; a
    peer's row carries the peer's own words, and nothing but unknowns when the peer was not
    heard; the node's own row has the listeners its report has; an answer that is not marked partial heard every other voter and has its listeners;
    and every field of the node's own report is there as it was. *)
Theorem members_rows_honest reported status name (d : DriveState E ftext) w door admin_port f :
  let b := merged_members reported status name d w door admin_port f in
  (exists rows, json_get "members" (fb_value b) = Some (Json.JArray rows)
     /\ Forall2 (fun id row =>
            if (id =? st_node_id status)%N then
              Forall (fun key => json_get key row = json_get key (fb_value b)) ["bound_ports"; "bind_failures"; "bind_status_unavailable"]%string
            else json_get "node_id" row = Some (node_id id) /\ reports (answered_of f id) row)
          (st_voters status) rows)
  /\ (fb_partial b = false -> forall id, id ∈ st_voters status -> id <> st_node_id status ->
        exists reply ports, answered_of f id = Some reply /\ json_get "bound_ports" reply = Some ports /\ ports <> Json.JNull
          /\ is_Some (json_get "bind_failures" reply) /\ is_Some (json_get "bind_status_unavailable" reply))
  /\ (forall key, key ∉ ["members"; "admin_port"; "front_door"]%string ->
        json_get key (fb_value b) = json_get key (members_body reported name d w)).
Proof.
  intros b. subst b. unfold merged_members. cbn [fb_value fb_partial].
  set (row := fun id => member_row id (id =? st_node_id status)%N (st_last_applied status) (st_is_leader status) (answered_of f id) (local_bind_fields d) w).
  assert (Hrow : forall id, id <> st_node_id status -> json_get "node_id" (row id) = Some (node_id id) /\ reports (answered_of f id) (row id)).
  { intros id Hid. unfold row. apply N.eqb_neq in Hid as ->. apply member_row_reports. }
  split_and!.
  - exists (row <$> st_voters status). split; [cbn [json_get]; by rewrite map_get_insert, String.eqb_refl|].
    generalize (Json.JArray (row <$> st_voters status)). intros all.
    induction (st_voters status) as [|v vs IH]; constructor; [|apply IH]. destruct (N.eqb_spec v (st_node_id status)) as [->|Hne]; [|by apply Hrow].
    unfold row, member_row. rewrite N.eqb_refl. repeat constructor.
  - unfold members_partial. intros [[_ H1]%orb_false_iff H2]%orb_false_iff id Hin Hid. destruct (Hrow id Hid) as [_ Hr].
    assert (forall p, existsb p (row <$> st_voters status) = false -> p (row id) = false) as Hex.
    { intros p Hp. destruct (p (row id)) eqn:He; [|done]. exfalso. apply not_true_iff_false in Hp. apply Hp, existsb_exists.
      exists (row id). split; [by apply list_elem_of_In, list_elem_of_fmap_2|done]. }
    apply (row_complete _ _ Hr); [apply (Hex _ H1)|apply (Hex _ H2)].
  - intros key Hk. cbn [json_get]. rewrite !map_get_insert. unfold members_body, json_obj. cbn [json_get].
    destruct (String.eqb_spec key "members") as [->|_]; [set_solver|]. destruct (String.eqb_spec key "admin_port") as [->|_]; [set_solver|].
    destruct (String.eqb_spec key "front_door") as [->|_]; [set_solver|]. done.
Qed.
End rows.

(** A fleet of three: node 2 replies in full, node 3 is not heard in time. *)
Definition three : StatusReport :=
  {| st_node_id := 1; st_is_leader := true; st_current_leader := Some 1%N; st_last_applied := Some 9%N; st_voters := [1; 2; 3]%N; st_learners := [4%N]; st_isolated := false |}.

Definition two_parked : Json := json_obj [("parked_intents"%string, json_N 2); ("bound_ports"%string, Json.JArray [json_N 6400]);
  ("bind_failures"%string, json_obj []); ("bind_status_unavailable"%string, Json.JBool false)].

Definition one_silent : FanOut :=
  {| fo_calls := fun id => if (id =? 2)%N then Replied two_parked else Unanswered "timed out"; fo_ended := [2%N]; fo_timed_out := true |}.

Definition all_heard : FanOut := {| fo_calls := fun _ => Replied two_parked; fo_ended := [3; 2]%N; fo_timed_out := false |}.

Definition bare_drive : DriveState (list Stub) unit :=
  {| dv_engine := None; dv_apply_failures := ∅; dv_bind_failures := ∅; dv_needs_resync := false; dv_sequencing := None;
     dv_routes := None; dv_flow_net := None |}.

#[local] Existing Instances list_engine.

(** The report and the row of one answer are two reads of the node's status, which may differ. *)
Lemma own_row_may_lag : exists reported status row,
  let b := merged_members reported status (Ok None) bare_drive (Build_WritePathSettings ReadyNodes 5 false 50) None 2525 all_heard in
  json_get "members" (fb_value b) = Some (Json.JArray [row])
  /\ json_get "last_applied" (fb_value b) <> json_get "last_applied" row.
Proof.
  exists three, {| st_node_id := 1; st_is_leader := true; st_current_leader := Some 1%N; st_last_applied := Some 10%N; st_voters := [1%N]; st_learners := [4%N]; st_isolated := false |}.
  eexists. split; [vm_compute; reflexivity|]. vm_compute. discriminate.
Qed.

(** One gate of two has reported, and the other does between the probe's two reads. *)
Lemma ready_exact_witness :
  (probe_handle (foldl ready_op (awaiting [GATE_JOINED; GATE_RECONCILED]) [Satisfy GATE_JOINED])
     (foldl ready_op (awaiting [GATE_JOINED; GATE_RECONCILED]) ([Satisfy GATE_JOINED] ++ [Satisfy GATE_RECONCILED])) GET "/readyz").1 = 503%N.
Proof.
  destruct (ready_exact [GATE_JOINED; GATE_RECONCILED] [Satisfy GATE_JOINED] [Satisfy GATE_RECONCILED]) as (_ & H & _).
  - apply (bool_decide_unpack _). vm_compute. exact I.
  - apply H. vm_compute. discriminate.
Defined.

Lemma all_heard_ok : FanOutOk three (fun _ => 2%N) all_heard.
Proof.
  split.
  - cbn. apply Permutation_submseteq, Permutation_swap.
  - intros _. cbn. apply Permutation_swap.
  - cbn. intros _ reply d [= <-]. vm_compute. by intros [= <-].
Qed.


Lemma members_rows_honest_witness : exists rows,
  json_get "members" (fb_value (merged_members three three (Ok None) bare_drive (Build_WritePathSettings ReadyNodes 5 false 50) None 2525 one_silent))
  = Some (Json.JArray rows) /\ length rows = 3.
Proof.
  destruct (members_rows_honest three three (Ok None) bare_drive (Build_WritePathSettings ReadyNodes 5 false 50) None 2525 one_silent)
    as ((rows & Hr & Hf) & _).
  exists rows. split; [exact Hr|]. symmetry. exact (Forall2_length _ _ _ Hf).
Defined.
