(* ===== verification/Startup.v ===== *)
(** * Starting, rejoining and leaving

    How a node comes into its cluster and out of it ([compose.rs]): the table that picks resume,
    rejoin or bootstrap, the passes over the places it may join through, the reconciler that opens
    the last readiness gate, the graceful leave, and the one-shot import of [--imposters]. Peers'
    answers, name resolution, the file system's answers and clocks are inputs; times are
    milliseconds. *)

From S2P Require Import Prelude Upstream Json Spec Ring Node Auth Rpc FlowConfig Shard Flow Drive Control Recorded StateMachine Projection Intents Session Barrier Routing Front Operator.

Definition SEED_JOIN_DEADLINE : N := 30000.
Definition RECONCILE_REJOIN_FALLBACK : N := 60000.
Definition REJOIN_ATTEMPT_INTERVAL : N := 5000.

(** ** The departure marker *)

(** How writing the marker ends; a file that was created but not synced is there. *)
Inductive MarkerWrite := MarkerWritten | MarkerUnsynced | MarkerNotCreated.

Definition write_departed_marker (w : MarkerWrite) (marker : bool) : bool :=
  match w with MarkerWritten | MarkerUnsynced => true | MarkerNotCreated => marker end.

Definition clear_departed_marker (removed : bool) (marker : bool) : bool := if removed then false else marker.

(** ** Where a node offers itself *)

Definition rejoin_targets (seeds known_peers : list string) : list string :=
  foldl (fun targets peer => if bool_decide (peer ∈ targets) then targets else targets ++ [peer]) seeds known_peers.

(** What one pass over the targets meets: names resolved, and addresses asked. *)
Record Pass := {
  ps_lookup : string -> result string (list string);
  ps_join : string -> result string ();
}.

(** The addresses of one target in turn: the one that admits the node, or the failures. *)
Fixpoint offer_addrs (join : string -> result string ()) (addrs : list string) : string + list string :=
  match addrs with
  | [] => inr []
  | addr :: addrs =>
      match join addr with
      | Ok _ => inl addr
      | Err e => match offer_addrs join addrs with
                 | inl addr => inl addr
                 | inr failures => inr ((addr +:+ ": " +:+ e) :: failures)
                 end
      end
  end.

Fixpoint offer (p : Pass) (targets : list string) : string + list string :=
  match targets with
  | [] => inr []
  | seed :: targets =>
      match match ps_lookup p seed with
            | Err e => inr [seed +:+ ": " +:+ e]
            | Ok resolved => offer_addrs (ps_join p) resolved
            end with
      | inl addr => inl addr
      | inr failures => match offer p targets with inl addr => inl addr | inr more => inr (failures ++ more) end
      end
  end.

(** The last-resort pass of the reconciler: who admitted the node, or the last failure. *)
Definition attempt_rejoin (p : Pass) (targets : list string) : string + option string :=
  match offer p targets with inl addr => inl addr | inr failures => inr (last failures) end.

(** Passes until one admits the node or the deadline is seen to have passed. [ended i] is the time at
    which pass [i] ends, from the start of the first. *)
Fixpoint join_passes (passes : nat -> Pass) (ended : nat -> N) (targets : list string) (fuel i : nat)
    : option (string + list string) :=
  match fuel with
  | 0 => None
  | S fuel =>
      match offer (passes i) targets with
      | inl addr => Some (inl addr)
      | inr failures =>
          if (SEED_JOIN_DEADLINE <=? ended i)%N then Some (inr failures)
          else join_passes passes ended targets fuel (S i)
      end
  end.

(** The pause after pass [i]. *)
Fixpoint join_backoff (i : nat) : N :=
  match i with 0 => 100%N | S i => N.min (join_backoff i * 2) 2000 end.

Definition join_fuel : nat := 301.

Inductive StartError :=
  | MarkerUnreadable (e : string)
  | InitializationUnreadable (e : string)
  | NowhereToRejoin
  | SoloNotAllowed
  | BootstrapFailed (e : string)
  | JoinFailed (failures : list string)
  | JoinDiverged.

(** What a start does, in order. *)
Inductive StartAct :=
  | AskedPeers (targets : list string)
  | HoldElections
  | JoinThrough (targets : list string)
  | ClearMarker
  | ReleaseElections
  | ClusterInit.

#[export] Instance StartAct_eq_dec : EqDecision StartAct.
Proof. solve_decision. Defined.

Inductive Started := Resumed | Founded | Joined (addr : string).

Record StartEnv := {
  se_marker_stat : option string;
  se_initialized : result string bool;
  se_loaded : bool;
  se_in_membership : bool;
  se_evidence : list string -> option RemovalEvidence;
  se_seeds : list string;
  se_known_peers : list string;
  se_allow_solo : bool;
  se_cluster_init : result string ();
  se_passes : nat -> Pass;
  se_pass_ended : nat -> N;
  se_marker_removed : bool;
}.

Record Start := { sr_outcome : result StartError Started; sr_marker : bool; sr_acts : list StartAct }.

Definition join_through (env : StartEnv) (targets : list string) (marker : bool) : Start :=
  match join_passes (se_passes env) (se_pass_ended env) targets join_fuel 0 with
  | Some (inl addr) =>
      {| sr_outcome := Ok (Joined addr); sr_marker := clear_departed_marker (se_marker_removed env) marker;
         sr_acts := [JoinThrough targets; ClearMarker] |}
  | Some (inr failures) => {| sr_outcome := Err (JoinFailed failures); sr_marker := marker; sr_acts := [JoinThrough targets] |}
  | None => {| sr_outcome := Err JoinDiverged; sr_marker := marker; sr_acts := [JoinThrough targets] |}
  end.

Definition with_acts (before : list StartAct) (s : Start) (after : list StartAct) : Start :=
  {| sr_outcome := sr_outcome s; sr_marker := sr_marker s; sr_acts := before ++ sr_acts s ++ after |}.

Definition refuse_start (e : StartError) (marker : bool) (acts : list StartAct) : Start :=
  {| sr_outcome := Err e; sr_marker := marker; sr_acts := acts |}.

(** [marker] is whether the state directory holds the departure marker. *)
Definition join_or_bootstrap (env : StartEnv) (marker : bool) : Start :=
  match se_marker_stat env with
  | Some e => refuse_start (MarkerUnreadable e) marker []
  | None =>
      match se_initialized env with
      | Err e => refuse_start (InitializationUnreadable e) marker []
      | Ok true =>
          let targets := rejoin_targets (se_seeds env) (se_known_peers env) in
          let out_of_membership := se_loaded env && negb (se_in_membership env) in
          let asks := se_loaded env && negb marker && negb out_of_membership in
          let retired := if asks then se_evidence env targets else None in
          let asked := if asks then [AskedPeers targets] else [] in
          if negb marker && negb out_of_membership && bool_decide (retired = None) then
            {| sr_outcome := Ok Resumed; sr_marker := marker; sr_acts := asked |}
          else if bool_decide (targets = []) then refuse_start NowhereToRejoin marker asked
          else if bool_decide (retired = None) then with_acts asked (join_through env targets marker) []
          else with_acts (asked ++ [HoldElections]) (join_through env targets marker) [ReleaseElections]
      | Ok false =>
          if bool_decide (se_seeds env = []) then
            if negb (se_allow_solo env) then refuse_start SoloNotAllowed marker []
            else match se_cluster_init env with
                 | Err e => refuse_start (BootstrapFailed e) marker [ClusterInit]
                 | Ok _ => {| sr_outcome := Ok Founded; sr_marker := clear_departed_marker (se_marker_removed env) marker;
                              sr_acts := [ClusterInit; ClearMarker] |}
                 end
          else join_through env (se_seeds env) marker
      end
  end.

(** ** The reconciler *)

Definition rejoin_fallback_due (leaderless_for since_last_attempt : option N) (has_targets : bool) : bool :=
  if negb has_targets then false
  else match leaderless_for with
       | None => false
       | Some leaderless_for =>
           if (leaderless_for <? RECONCILE_REJOIN_FALLBACK)%N then false
           else match since_last_attempt with None => true | Some since => (REJOIN_ATTEMPT_INTERVAL <=? since)%N end
       end.

Record Reconciler := { rc_leaderless_since : option N; rc_last_rejoin : option N }.

Definition reconciler_start : Reconciler := {| rc_leaderless_since := None; rc_last_rejoin := None |}.

(** What a sweep meets. [sw_applied] is this node's applied index, read after the leader has answered. *)
Record Sweep := {
  sw_now : N;
  sw_leader_known : bool;
  sw_known_peers : list string;
  sw_leader_applied : option N;
  sw_applied : option N;
  sw_reconcile : result string ();
}.

(** The state after the leader was looked for, and the targets of a rejoin when one is due. *)
Definition sweep_rejoin (seeds : list string) (i : Sweep) (s : Reconciler) : Reconciler * option (list string) :=
  let since :=
    if sw_leader_known i then None
    else match rc_leaderless_since s with Some since => Some since | None => Some (sw_now i) end in
  match since with
  | None => ({| rc_leaderless_since := None; rc_last_rejoin := rc_last_rejoin s |}, None)
  | Some at_ =>
      let targets := rejoin_targets seeds (sw_known_peers i) in
      if rejoin_fallback_due (Some (sw_now i - at_)%N) ((fun at_ => sw_now i - at_)%N <$> rc_last_rejoin s) (negb (bool_decide (targets = [])))
      then ({| rc_leaderless_since := since; rc_last_rejoin := Some (sw_now i) |}, Some targets)
      else ({| rc_leaderless_since := since; rc_last_rejoin := rc_last_rejoin s |}, None)
  end.

Definition sweep_reconciles (i : Sweep) : bool :=
  match sw_leader_applied i with
  | Some target => (target <=? default 0%N (sw_applied i))%N && match sw_reconcile i with Ok _ => true | Err _ => false end
  | None => false
  end.

(** Sweeps until one reconciles: the latch, and the rejoins with their times. The task also ends, with the
    latch as it is, when the node is gone. *)
Fixpoint reconcile_sweeps (seeds : list string) (sweeps : list Sweep) (s : Reconciler) (r : Readiness)
    : Readiness * list (N * list string) :=
  match sweeps with
  | [] => (r, [])
  | i :: sweeps =>
      let '(s, attempt) := sweep_rejoin seeds i s in
      let attempts := match attempt with Some targets => [(sw_now i, targets)] | None => [] end in
      if sweep_reconciles i then (satisfy GATE_RECONCILED r, attempts)
      else let '(r, more) := reconcile_sweeps seeds sweeps s r in (r, attempts ++ more)
  end.

(** ** The graceful leave *)

(** The parts of a running server that are stopped, in the order of the shutdown. *)
Inductive Part := PReconciler | PReplayer | PProbes | PFront | PFrontDoor | PServer | PManager | PNode | PListenerPorts.

Inductive LeaveAct :=
  | StartDraining
  | LeaveMembership
  | WriteMarker
  | DrainUntil (deadline : N)
  | Stop (part : Part).

(** The parts the server was composed with. *)
Record Composed := {
  cp_reconciler : bool; cp_replayer : bool; cp_probes : bool; cp_front : bool; cp_front_door : bool;
  cp_manager : bool; cp_node : bool; cp_state_dir : bool; cp_leave_timeout : N;
}.

Definition shutdown (c : Composed) : list LeaveAct :=
  let stop (present : bool) part := if present then [Stop part] else [] in
  stop (cp_reconciler c) PReconciler ++ stop (cp_replayer c) PReplayer ++ stop (cp_probes c) PProbes
  ++ stop (cp_front c) PFront ++ stop (cp_front_door c) PFrontDoor ++ [Stop PServer]
  ++ stop (cp_manager c) PManager ++ stop (cp_node c) PNode ++ [Stop PListenerPorts].

(** [left] is how leaving the membership ends. *)
Definition graceful_leave (c : Composed) (now : N) (left : result string LeaveOutcome) (write : MarkerWrite)
    (r : Readiness) (marker : bool) : Readiness * bool * list LeaveAct :=
  let departed := cp_node c && cp_state_dir c && match left with Ok Departed => true | _ => false end in
  (start_draining r, if departed then write_departed_marker write marker else marker,
   [StartDraining] ++ (if cp_node c then [LeaveMembership] else []) ++ (if departed then [WriteMarker] else [])
   ++ [DrainUntil (now + cp_leave_timeout c)] ++ shutdown c).

(** Which arm of the race ends the serving; a death that is already there wins over the signal. *)
Definition serve_until (admin front : option (result string ())) (signal : bool) : option (result string ()) :=
  match admin, front with
  | Some outcome, _ => Some outcome
  | None, Some outcome => Some outcome
  | None, None => if signal then Some (Ok tt) else None
  end.

(** ** The one-shot import of [--imposters] *)

Definition RETIRED_SOURCE_SCHEMES : list string := ["git+https"; "git+file"; "git+ssh"; "s3"; "registry"].

Definition is_retired_source_scheme (scheme : string) : bool :=
  existsb (fun retired => String.eqb (to_lowercase retired) (to_lowercase scheme)) RETIRED_SOURCE_SCHEMES.

Record SourceRef := { src_uri : string; src_scheme : string }.

(** A document as a provider reads it; the two blocks are present or not. *)
Record Fetched := { ft_configs : list ImposterConfig; ft_intercept : bool; ft_routes : bool }.

Inductive LeaderWait := Elected | LeaderTimeout | ShuttingDown.

Inductive BootError :=
  | RetiredScheme (uri scheme : string)
  | UnservedScheme (uri scheme : string)
  | Unread (uri e : string)
  | DeclaresIntercept (uri : string)
  | DeclaresRoutes (uri : string)
  | Unhashable (uri e : string)
  | RefusedByEngine (uri : string) (port : option N) (reason : string)
  | Portless (uri : string)
  | NotReplicable (uri : string) (port : N) (reason : string)
  | TooLarge (uri : string) (port : N) (e : EntryTooLarge)
  | NoLeader
  | NodeStopping
  | SubmitRefused (uri : string) (port : N) (e : NodeError)
  | ClusterRefused (uri : string) (port : N) (reason : string).

(** The libraries of the import: the registry's providers, serde's values and bytes, SHA-256, the engine's own check, the size
    of a request, and the node ([W] is the world it acts on). *)
Class Importer (W : Type) := {
  provider : string -> option (SourceRef -> result string Fetched);
  configs_to_value : list ImposterConfig -> result string Json;
  value_to_vec : Json -> result string bytes;
  sha256_hex : bytes -> string;
  engine_check : ImposterConfig -> result string ();
  entry_bytes : ControlRequest -> option N;
  await_leader : W -> W * LeaderWait;
  node_submit : ControlRequest -> W -> W * result NodeError ControlResponse;
  clock_secs : W -> N;
}.

Section import.
Context {W : Type} {IM : Importer W} {ER : EngineRules} {UR : UuidRules}.

Definition canonical_document_bytes (configs : list ImposterConfig) : result string bytes :=
  match configs_to_value configs with Ok v => value_to_vec v | Err e => Err e end.

Definition document_digest (configs : list ImposterConfig) : result string string :=
  match canonical_document_bytes configs with Ok b => Ok (sha256_hex b) | Err e => Err e end.

Definition NAMESPACE_URL : string := "6ba7b811-9dad-11d1-80b4-00c04fd430c8".
Definition newline : string := String (Ascii.ascii_of_N 10) EmptyString.

Definition bootstrap_op_id (uri : string) (port : N) (digest : string) : string :=
  uuid_v5 NAMESPACE_URL (as_bytes ("rift-cluster/bootstrap-imposter" +:+ newline +:+ uri +:+ newline +:+ pretty port +:+ newline +:+ digest)).

Definition bootstrap_request (uri digest : string) (issued_at : N) (port : N) (config : ImposterConfig) : ControlRequest :=
  {| op_id := bootstrap_op_id uri port digest; principal := None; issued_at_secs := issued_at; expected_revision := None;
     expect_absent := false; op := PutImposter config None |}.

(** The world, and whether the leader has been waited for. *)
Definition await_bootstrap_leader (w : W) (awaited : bool) : W * bool * result BootError () :=
  if awaited then (w, true, Ok tt)
  else match await_leader w with
       | (w, Elected) => (w, true, Ok tt)
       | (w, LeaderTimeout) => (w, false, Err NoLeader)
       | (w, ShuttingDown) => (w, false, Err NodeStopping)
       end.

(** One imposter of a document: the checks that are its own, the wait, the submit. *)
Definition import_config (uri digest : string) (config : ImposterConfig) (w : W) (awaited : bool) : W * bool * result BootError () :=
  match cfg_port config with
  | None => (w, awaited, Err (Portless uri))
  | Some port =>
      let request := bootstrap_request uri digest (clock_secs w) port config in
      match validate (op request), admit_entry_size entry_bytes request with
      | Err reason, _ => (w, awaited, Err (NotReplicable uri port reason))
      | Ok _, Err e => (w, awaited, Err (TooLarge uri port e))
      | Ok _, Ok _ =>
          match await_bootstrap_leader w awaited with
          | (w, awaited, Err e) => (w, awaited, Err e)
          | (w, awaited, Ok _) =>
              match node_submit request w with
              | (w, Err e) => (w, awaited, Err (SubmitRefused uri port e))
              | (w, Ok response) =>
                  (w, awaited, match cr_outcome response with Applied => Ok tt | Failed reason => Err (ClusterRefused uri port reason) end)
              end
          end
      end
  end.

Fixpoint import_configs (uri digest : string) (configs : list ImposterConfig) (w : W) (awaited : bool) : W * bool * result BootError () :=
  match configs with
  | [] => (w, awaited, Ok tt)
  | config :: configs =>
      match import_config uri digest config w awaited with
      | (w, awaited, Ok _) => import_configs uri digest configs w awaited
      | (w, awaited, Err e) => (w, awaited, Err e)
      end
  end.

Fixpoint import_engine_refusal (uri : string) (configs : list ImposterConfig) : result BootError () :=
  match configs with
  | [] => Ok tt
  | config :: configs =>
      match engine_check config with
      | Err reason => Err (RefusedByEngine uri (cfg_port config) reason)
      | Ok _ => import_engine_refusal uri configs
      end
  end.

(** A document up to its first submit: its configs with their digest, or the refusal. *)
Definition read_document (source : SourceRef) : result BootError (list ImposterConfig * string) :=
  let uri := src_uri source in
  if is_retired_source_scheme (src_scheme source) then Err (RetiredScheme uri (src_scheme source))
  else match provider (src_scheme source) with
       | None => Err (UnservedScheme uri (src_scheme source))
       | Some fetch =>
           match fetch source with
           | Err e => Err (Unread uri e)
           | Ok fetched =>
               if ft_intercept fetched then Err (DeclaresIntercept uri)
               else if ft_routes fetched then Err (DeclaresRoutes uri)
               else match document_digest (ft_configs fetched) with
                    | Err e => Err (Unhashable uri e)
                    | Ok digest => match import_engine_refusal uri (ft_configs fetched) with
                                   | Err e => Err e
                                   | Ok _ => Ok (ft_configs fetched, digest)
                                   end
                    end
           end
       end.

Fixpoint bootstrap_from (refs : list SourceRef) (w : W) (awaited : bool) : W * bool * result BootError () :=
  match refs with
  | [] => (w, awaited, Ok tt)
  | source :: refs =>
      match read_document source with
      | Err e => (w, awaited, Err e)
      | Ok (configs, digest) =>
          match import_configs (src_uri source) digest configs w awaited with
          | (w, awaited, Ok _) => bootstrap_from refs w awaited
          | (w, awaited, Err e) => (w, awaited, Err e)
          end
      end
  end.

Definition bootstrap_imposters (refs : list SourceRef) (w : W) : W * result BootError () :=
  let '(w, _, outcome) := bootstrap_from refs w false in (w, outcome).
End import.
