(* ===== verification/StartupFacts.v ===== *)
(** * Facts about starting, rejoining and leaving

    The start resumes exactly when nothing says the node is out, and a confirmed departure is such
    evidence; the passes over the seeds end; the reconciler opens its gate only on a reconciled
    engine and paces its rejoins; and the import submits, in order and under ids that do not
    depend on the boot, a prefix of what its documents declare. *)

From S2P Require Import Prelude Upstream Json Spec Ring Node Auth Rpc FlowConfig Shard Flow Drive Control Recorded StateMachine Projection Intents Session Barrier Routing Front Operator Startup.

(** ** Passes *)

Lemma offer_addrs_admits join addrs addr : offer_addrs join addrs = inl addr -> addr ∈ addrs /\ join addr = Ok ().
Proof.
  induction addrs as [|a addrs IH]; [done|]. cbn. destruct (join a) as [[]|e] eqn:Hj.
  - intros [= <-]. split; [apply list_elem_of_here|done].
  - destruct (offer_addrs join addrs) as [b|]; [|done]. intros [= ->]. destruct IH as [Hin Ha]; [done|]. split; [by right|done].
Qed.

(** The address a pass ends at is one a target resolved to and that admitted the node. *)
Definition admitted_by (p : Pass) (targets : list string) (addr : string) : Prop :=
  exists seed addrs, seed ∈ targets /\ ps_lookup p seed = Ok addrs /\ addr ∈ addrs /\ ps_join p addr = Ok ().

Lemma offer_admits p targets addr : offer p targets = inl addr -> admitted_by p targets addr.
Proof.
  induction targets as [|seed targets IH]; [done|]. cbn.
  assert (Hmore : offer p targets = inl addr -> admitted_by p (seed :: targets) addr).
  { intros (s & addrs & Hs & H)%IH. exists s, addrs. split; [by right|done]. }
  destruct (ps_lookup p seed) as [addrs|e] eqn:Hl.
  - destruct (offer_addrs (ps_join p) addrs) as [a|] eqn:Ho.
    + intros [= ->]. apply offer_addrs_admits in Ho as [Hin Hj]. exists seed, addrs. split; [apply list_elem_of_here|done].
    + destruct (offer p targets); [|done]. intros [= ->]. by apply Hmore.
  - destruct (offer p targets); [|done]. intros [= ->]. by apply Hmore.
Qed.

Lemma join_backoff_low i : (100 <= join_backoff i <= 2000)%N.
Proof. induction i as [|i IH]; cbn [join_backoff]; lia. Qed.

(** What a clock gives: a pass ends no earlier than the pause after the one before it. *)
Definition paced (ended : nat -> N) : Prop := forall i, (ended i + join_backoff i <= ended (S i))%N.

Lemma paced_low ended i : paced ended -> (100 * N.of_nat i <= ended i)%N.
Proof. intros Hp. induction i as [|i IH]; [lia|]. pose proof (Hp i). pose proof (join_backoff_low i). lia. Qed.

Lemma join_passes_end passes ended targets fuel i : paced ended -> 300 < fuel + i -> 0 < fuel ->
  exists r, join_passes passes ended targets fuel i = Some r
    /\ match r with inl addr => exists k, admitted_by (passes k) targets addr | inr _ => True end.
Proof.
  intros Hp. revert i. induction fuel as [|fuel IH]; intros i Hf H0; [lia|]. cbn.
  destruct (offer (passes i) targets) as [addr|failures] eqn:Ho.
  { exists (inl addr). split; [done|]. exists i. by apply offer_admits. }
  destruct (N.leb_spec SEED_JOIN_DEADLINE (ended i)) as [|Hlt]; [by exists (inr failures)|].
  apply IH; [lia|]. pose proof (paced_low ended i Hp). unfold SEED_JOIN_DEADLINE in Hlt. lia.
Qed.

(** ** The start *)

Definition rejoins (env : StartEnv) : list string := rejoin_targets (se_seeds env) (se_known_peers env).

(** Nothing says the node is out. *)
Definition still_member (env : StartEnv) (marker : bool) : Prop :=
  marker = false /\ (se_loaded env = true -> se_in_membership env = true /\ se_evidence env (rejoins env) = None).

Lemma join_through_spec env targets marker : paced (se_pass_ended env) ->
  let s := join_through env targets marker in
  (exists addr k, sr_outcome s = Ok (Joined addr) /\ admitted_by (se_passes env k) targets addr)
  \/ (exists failures, sr_outcome s = Err (JoinFailed failures)) /\ sr_marker s = marker.
Proof.
  intros Hp. unfold join_through. destruct (join_passes_end (se_passes env) (se_pass_ended env) targets join_fuel 0 Hp) as (r & -> & Hr);
    [unfold join_fuel; lia..|]. destruct r as [addr|failures].
  - left. destruct Hr as [k Hk]. by exists addr, k.
  - right. cbn. split; [by exists failures|done].
Qed.

Lemma join_through_no_hold env targets marker : HoldElections ∉ sr_acts (join_through env targets marker).
Proof.
  unfold join_through. destruct (join_passes _ _ _ _ _) as [[]|]; cbn; rewrite ?list_elem_of_singleton; [|done..].
  rewrite elem_of_cons, list_elem_of_singleton. naive_solver.
Qed.

Lemma resume_test env marker :
  let out := se_loaded env && negb (se_in_membership env) in
  let retired := if se_loaded env && negb marker && negb out then se_evidence env (rejoins env) else None in
  negb marker && negb out && bool_decide (retired = None) = true <-> still_member env marker.
Proof.
  cbv zeta. unfold still_member.
  destruct marker, (se_loaded env), (se_in_membership env); cbn; try rewrite bool_decide_eq_true; naive_solver.
Qed.

(** C26: a start picks resume, rejoin or bootstrap as its evidence says. With passes that take their time it ends;
    it resumes exactly when there is state and nothing says the node is out; it founds a cluster
    only without state and seeds and when told to; it has joined only through an address that
    admitted it; the departure marker is dropped only by a join or a founding; and elections held
    for the rejoin are released at the end whatever the rejoin's outcome. *)
Theorem start_decides env marker : paced (se_pass_ended env) ->
  let s := join_or_bootstrap env marker in
  (sr_outcome s = Ok Resumed <-> se_marker_stat env = None /\ se_initialized env = Ok true /\ still_member env marker)
  /\ (sr_outcome s = Ok Founded ->
        se_initialized env = Ok false /\ se_seeds env = [] /\ se_allow_solo env = true /\ se_cluster_init env = Ok ())
  /\ (forall addr, sr_outcome s = Ok (Joined addr) -> exists k, admitted_by (se_passes env k) (rejoins env) addr \/ admitted_by (se_passes env k) (se_seeds env) addr)
  /\ (sr_marker s <> marker -> sr_outcome s = Ok Founded \/ exists addr, sr_outcome s = Ok (Joined addr))
  /\ (HoldElections ∈ sr_acts s -> last (sr_acts s) = Some ReleaseElections)
  /\ sr_outcome s <> Err JoinDiverged.
Proof.
  intros Hp. unfold join_or_bootstrap.
  destruct (se_marker_stat env) as [e|]; [cbn; split_and!; try done; [naive_solver|by intros H%not_elem_of_nil]|].
  destruct (se_initialized env) as [[]|e].
  - fold (rejoins env). pose proof (resume_test env marker) as Ht. cbv zeta in Ht.
    set (asks := se_loaded env && negb marker && negb (se_loaded env && negb (se_in_membership env))) in *.
    set (retired := if asks then se_evidence env (rejoins env) else None) in *.
    assert (Hasked : HoldElections ∉ (if asks then [AskedPeers (rejoins env)] else [])).
    { destruct asks; [rewrite list_elem_of_singleton; done|apply not_elem_of_nil]. }
    destruct (negb marker && negb (se_loaded env && negb (se_in_membership env)) && bool_decide (retired = None)).
    { cbn. split_and!; try done; tauto. }
    assert (Hno : ~ still_member env marker) by (intros H; by apply Ht in H).
    case_bool_decide; [cbn; split_and!; try done; naive_solver|].
    destruct (join_through_spec env (rejoins env) marker Hp) as [(addr & k & Ho & Ha)|[[failures Ho] Hm]]; cbv zeta in Ho.
    + case_bool_decide; cbn -[join_through]; rewrite Ho; (split_and!; [naive_solver|done|intros a [= <-]; exists k; by left|intros _; right; by exists addr|..|done]).
      * rewrite app_nil_r. by intros [?|?%join_through_no_hold]%elem_of_app.
      * intros _. by rewrite app_assoc, last_snoc.
    + case_bool_decide; cbn -[join_through]; rewrite Ho; (split_and!; [naive_solver|done|done|done|..|done]).
      * rewrite app_nil_r. by intros [?|?%join_through_no_hold]%elem_of_app.
      * intros _. by rewrite app_assoc, last_snoc.
  - case_bool_decide as Hseeds.
    + destruct (se_allow_solo env); [|cbn; split_and!; try done; [naive_solver|by intros H%not_elem_of_nil]].
      destruct (se_cluster_init env) as [[]|e]; cbn; split_and!; try done; try naive_solver;
        rewrite !elem_of_cons; intros [?|Hin]; try done; [destruct Hin as [?|Hin]; [done|]|]; by apply not_elem_of_nil in Hin.
    + destruct (join_through_spec env (se_seeds env) marker Hp) as [(addr & k & Ho & Ha)|[[failures Ho] Hm]]; cbv zeta in Ho; rewrite Ho;
        (split_and!; [naive_solver|done|try naive_solver|try naive_solver|..|done]).
      all: by intros ?%join_through_no_hold.
  - cbn; split_and!; try done; [naive_solver|by intros H%not_elem_of_nil].
Qed.

(** ** Leaving, and the start after it *)

Lemma resumes_iff env marker : sr_outcome (join_or_bootstrap env marker) = Ok Resumed ->
  still_member env marker.
Proof.
  unfold join_or_bootstrap. destruct (se_marker_stat env); [done|]. destruct (se_initialized env) as [[]|]; [..|done].
  - fold (rejoins env). pose proof (resume_test env marker) as Ht. cbv zeta in Ht.
    destruct (negb marker && _ && _); [intros _; by apply Ht|]. repeat case_bool_decide; cbn [refuse_start with_acts sr_outcome]; try done.
    all: unfold join_through; by destruct (join_passes _ _ _ _ _) as [[]|].
  - repeat case_bool_decide; [|unfold join_through; by destruct (join_passes _ _ _ _ _) as [[]|]].
    destruct (se_allow_solo env); [|done]. by destruct (se_cluster_init env).
Qed.

Definition stops (acts : list LeaveAct) : list LeaveAct := List.filter (fun a => match a with Stop _ => true | _ => false end) acts.

(** A leave and the next start agree. The node reports draining before it stops any part, and stops the parts in
    one order after the drain; after a departure the cluster confirmed and the disk took, no
    later start resumes, whatever it reads, until a join or a founding has cleared the marker;
    and a leave the cluster refused or that failed changes no marker, so that the node resumes
    where its log still lists it. *)
Theorem leave_then_start c now left write r marker env :
  let '(r', marker', acts) := graceful_leave c now left write r marker in
  ready_state r' = Draining
  /\ (exists before, acts = StartDraining :: before ++ DrainUntil (now + cp_leave_timeout c) :: shutdown c /\ stops before = [])
  /\ stops (shutdown c) = shutdown c
  /\ (cp_node c = true -> cp_state_dir c = true -> left = Ok Departed -> write <> MarkerNotCreated ->
        sr_outcome (join_or_bootstrap env marker') <> Ok Resumed)
  /\ (left <> Ok Departed -> marker' = marker).
Proof.
  unfold graceful_leave. cbv zeta. cbn [ready_state start_draining rd_draining]. split_and!.
  - done.
  - eexists ((if cp_node c then [LeaveMembership] else [])
      ++ (if cp_node c && cp_state_dir c && match left with Ok Departed => true | _ => false end then [WriteMarker] else [])).
    split; [by rewrite <- app_assoc|]. destruct (cp_node c); [|done]. by destruct (cp_state_dir c), left as [[]|].
  - unfold shutdown. by destruct (cp_reconciler c), (cp_replayer c), (cp_probes c), (cp_front c), (cp_front_door c), (cp_manager c), (cp_node c).
  - intros -> -> -> Hw [Hm _]%resumes_iff. by destruct write.
  - destruct (cp_node c), (cp_state_dir c), left as [[]|]; naive_solver.
Qed.

(** ** The reconciler *)

(** The sweeps so far end in a run without a leader that began at the recorded time. *)
Definition leaderless_run (past : list Sweep) (at_ : N) : Prop :=
  exists l i run, past = l ++ i :: run /\ sw_now i = at_ /\ Forall (fun j => sw_leader_known j = false) (i :: run).

Definition reconciler_inv (past : list Sweep) (s : Reconciler) : Prop :=
  match rc_leaderless_since s with Some at_ => leaderless_run past at_ | None => True end.

(** A rejoin is due: no leader through the fallback window, and the interval since the last. *)
Definition due (past : list Sweep) (last_rejoin : option N) (now : N) : Prop :=
  (exists at_, leaderless_run past at_ /\ (at_ + RECONCILE_REJOIN_FALLBACK <= now)%N)
  /\ match last_rejoin with Some at_ => (at_ + REJOIN_ATTEMPT_INTERVAL <= now)%N | None => True end.

Lemma sweep_rejoin_spec seeds i s past : reconciler_inv past s ->
  let '(s', attempt) := sweep_rejoin seeds i s in
  reconciler_inv (past ++ [i]) s'
  /\ match attempt with
     | Some targets => due (past ++ [i]) (rc_last_rejoin s) (sw_now i) /\ rc_last_rejoin s' = Some (sw_now i)
                       /\ targets = rejoin_targets seeds (sw_known_peers i) /\ targets <> []
     | None => rc_last_rejoin s' = rc_last_rejoin s
     end.
Proof.
  unfold reconciler_inv, sweep_rejoin. intros Hinv. destruct (sw_leader_known i) eqn:Hl; [done|].
  set (since := match rc_leaderless_since s with Some since => since | None => sw_now i end).
  assert (Hrun : leaderless_run (past ++ [i]) since).
  { subst since. destruct (rc_leaderless_since s) as [at_|].
    - destruct Hinv as (l & j & run & -> & Hj & Hf). exists l, j, (run ++ [i]). split; [by rewrite <- app_assoc|]. split; [done|].
      change (j :: run ++ [i]) with ((j :: run) ++ [i]). by rewrite Forall_app, Forall_singleton.
    - exists past, i, []. split_and!; [done..|by constructor]. }
  assert ((match rc_leaderless_since s with Some since => Some since | None => Some (sw_now i) end) = Some since) as -> by (subst since; by destruct (rc_leaderless_since s)).
  destruct (rejoin_fallback_due _ _ _) eqn:Hdue; cbn; [|done]. split; [done|]. unfold rejoin_fallback_due, RECONCILE_REJOIN_FALLBACK, REJOIN_ATTEMPT_INTERVAL in Hdue.
  case_bool_decide as Ht; [done|]. cbn in Hdue. destruct (N.ltb_spec (sw_now i - since) 60000); [done|]. split_and!; try done.
  split; [exists since; split; [done|]; unfold RECONCILE_REJOIN_FALLBACK; lia|].
  unfold REJOIN_ATTEMPT_INTERVAL. destruct (rc_last_rejoin s); [|done]. cbn in Hdue. apply N.leb_le in Hdue. lia.
Qed.

(** The attempts of a run: each due when it was made. *)
Fixpoint attempts_due (sweeps : list Sweep) (last_rejoin : option N) (attempts : list (N * list string)) : Prop :=
  match attempts with
  | [] => True
  | (now, targets) :: attempts =>
      (exists l i rest, sweeps = l ++ i :: rest /\ sw_now i = now /\ due (l ++ [i]) last_rejoin now
         /\ sw_leader_known i = false /\ targets <> [])
      /\ attempts_due sweeps (Some now) attempts
  end.

Lemma due_leaderless past i last now : due (past ++ [i]) last now -> sw_leader_known i = false.
Proof.
  intros [(at_ & (l & j & run & Hd & _ & Hf) & _) _]. destruct (exists_last (l := j :: run)) as (run' & k & Hk); [done|].
  rewrite Hk in Hd, Hf. rewrite app_assoc in Hd. apply app_inj_tail in Hd as [_ ->]. apply Forall_app in Hf as [_ Hf]. by inversion Hf.
Qed.

Lemma reconcile_sweeps_spec seeds sweeps : forall past s r, reconciler_inv past s ->
  let '(r', attempts) := reconcile_sweeps seeds sweeps s r in
  r' = (if existsb sweep_reconciles sweeps then satisfy GATE_RECONCILED r else r)
  /\ attempts_due (past ++ sweeps) (rc_last_rejoin s) attempts.
Proof.
  induction sweeps as [|i sweeps IH]; intros past s r Hinv; [done|]. cbn [reconcile_sweeps existsb].
  pose proof (sweep_rejoin_spec seeds i s past Hinv) as Hs. destruct (sweep_rejoin seeds i s) as [s' attempt]. destruct Hs as [Hinv' Hatt].
  assert (Hrest : forall r, let '(r', attempts) := reconcile_sweeps seeds sweeps s' r in
    r' = (if existsb sweep_reconciles sweeps then satisfy GATE_RECONCILED r else r)
    /\ attempts_due (past ++ i :: sweeps) (rc_last_rejoin s') attempts).
  { intros r0. specialize (IH (past ++ [i]) s' r0 Hinv'). by rewrite <- app_assoc in IH. }
  assert (Hone : forall more, attempts_due (past ++ i :: sweeps) (rc_last_rejoin s') more ->
    attempts_due (past ++ i :: sweeps) (rc_last_rejoin s) (match attempt with Some targets => [(sw_now i, targets)] | None => [] end ++ more)).
  { intros more. destruct attempt as [targets|]; [|by rewrite Hatt]. destruct Hatt as (Hd & -> & _ & Hne). cbn. intros Hm. split; [|done].
    exists past, i, sweeps. split_and!; try done. by eapply due_leaderless. }
  destruct (sweep_reconciles i); cbn [orb].
  - split; [done|]. specialize (Hone [] I). by rewrite app_nil_r in Hone.
  - specialize (Hrest r). destruct (reconcile_sweeps seeds sweeps s' r) as [r' more]. destruct Hrest as [-> Hm]. split; [done|]. by apply Hone.
Qed.

(** The reconciler opens its gate exactly when one of its sweeps finds the node caught up with the leader and its
    engine reconciled, and otherwise leaves the latch as it was; and its rejoins are paced: each
    comes at the end of a run of sweeps without a leader at least the fallback window long, has
    somewhere to ask, and comes at least the interval after the one before. *)
Theorem reconciler_paced seeds sweeps r :
  let '(r', attempts) := reconcile_sweeps seeds sweeps reconciler_start r in
  r' = (if existsb sweep_reconciles sweeps then satisfy GATE_RECONCILED r else r)
  /\ attempts_due sweeps None attempts.
Proof. exact (reconcile_sweeps_spec seeds sweeps [] reconciler_start r I). Qed.

(** ** The import *)

Section imports.
Context {W : Type} {IM : Importer W} {ER : EngineRules} {UR : UuidRules}.

(** [log] is what the node has been handed to submit; waiting for a leader submits nothing. *)
Context (log : W -> list ControlRequest).
Hypothesis submit_logs : forall request w, log (node_submit request w).1 = log w ++ [request].
Hypothesis wait_submits_nothing : forall w, log (await_leader w).1 = log w.

(** What the documents declare, in order, up to the first that is refused. *)
Fixpoint declared (refs : list SourceRef) : list (string * string * ImposterConfig) :=
  match refs with
  | [] => []
  | source :: refs =>
      match read_document source with
      | Ok (configs, digest) => ((fun c => (src_uri source, digest, c)) <$> configs) ++ declared refs
      | Err _ => []
      end
  end.

(** The request of a declared imposter, which nothing but the document decides, apart from its time. *)
Definition imports (d : string * string * ImposterConfig) (q : ControlRequest) : Prop :=
  exists port, cfg_port d.2 = Some port /\ q = bootstrap_request d.1.1 d.1.2 (issued_at_secs q) port d.2.

Definition admissible (q : ControlRequest) : Prop :=
  validate (op q) = Ok () /\ exists n, admit_entry_size entry_bytes q = Ok n.

(** A run that hands on [reqs], a prefix of [todo], and all of it when it succeeds. *)
Definition hands_on (todo : list (string * string * ImposterConfig)) (w w' : W) (outcome : result BootError ()) : Prop :=
  exists reqs, log w' = log w ++ reqs /\ Forall admissible reqs /\ length reqs <= length todo
    /\ Forall2 imports (take (length reqs) todo) reqs /\ (outcome = Ok () -> length reqs = length todo).

Lemma await_log w awaited : log (await_bootstrap_leader w awaited).1.1 = log w.
Proof.
  unfold await_bootstrap_leader. destruct awaited; [done|]. pose proof (wait_submits_nothing w) as Hw. by destruct (await_leader w) as [w' []].
Qed.

Lemma nothing_handed todo w w' e : log w' = log w -> hands_on todo w w' (Err e).
Proof. intros Hl. exists []. cbn. rewrite app_nil_r. split_and!; [done|constructor|lia|constructor|done]. Qed.

Lemma import_config_spec uri digest config w awaited :
  let '(w', _, outcome) := import_config uri digest config w awaited in hands_on [(uri, digest, config)] w w' outcome.
Proof.
  unfold import_config. destruct (cfg_port config) as [port|] eqn:Hp; [|by apply nothing_handed].
  set (request := bootstrap_request _ _ _ _ _).
  destruct (validate (op request)) as [[]|] eqn:Hv; [|by apply nothing_handed].
  destruct (admit_entry_size entry_bytes request) as [n|] eqn:Ha; [|by apply nothing_handed].
  pose proof (await_log w awaited) as Hl. destruct (await_bootstrap_leader w awaited) as [[w1 awaited1] [[]|e]]; cbn in Hl; [|by apply nothing_handed].
  pose proof (submit_logs request w1) as Hs. destruct (node_submit request w1) as [w2 response]. cbn in Hs. rewrite Hl in Hs.
  assert (forall outcome, hands_on [(uri, digest, config)] w w2 outcome) as Hh.
  { intros outcome. exists [request]. split_and!; [done|by constructor; [split; [|exists n]|]|done|constructor; [by exists port|constructor]|done]. }
  by destruct response as [response|]; [destruct (cr_outcome response)|].
Qed.

Lemma hands_on_app a b w w1 w2 o : hands_on a w w1 (Ok ()) -> hands_on b w1 w2 o -> hands_on (a ++ b) w w2 o.
Proof.
  intros (ra & Hla & Haa & _ & Hfa & Hta) (rb & Hlb & Hab & Hleb & Hfb & Htb). specialize (Hta eq_refl).
  exists (ra ++ rb). rewrite Hlb, Hla, app_assoc, !length_app, Hta. split_and!; [done|by apply Forall_app|lia| |intros H; by rewrite Htb].
  rewrite take_app_add. apply Forall2_app; [|done]. rewrite Hta, take_ge in Hfa by lia. done.
Qed.

Lemma hands_on_more a b w w' e : hands_on a w w' (Err e) -> hands_on (a ++ b) w w' (Err e).
Proof.
  intros (ra & Hl & Haa & Hle & Hf & _). exists ra. rewrite length_app. split_and!; [done..|lia| |done]. by rewrite take_app_le.
Qed.

Lemma import_configs_spec uri digest configs : forall w awaited,
  let '(w', _, outcome) := import_configs uri digest configs w awaited in hands_on ((fun c => (uri, digest, c)) <$> configs) w w' outcome.
Proof.
  induction configs as [|config configs IH]; intros w awaited; cbn [import_configs].
  { exists []. cbn. rewrite app_nil_r. split_and!; try done; constructor. }
  rewrite fmap_cons. change (?x :: ?l) with ([x] ++ l).
  pose proof (import_config_spec uri digest config w awaited) as H1. destruct (import_config uri digest config w awaited) as [[w1 a1] [[]|e]].
  - specialize (IH w1 a1). destruct (import_configs uri digest configs w1 a1) as [[w2 a2] o]. by eapply hands_on_app.
  - by apply hands_on_more.
Qed.

Lemma bootstrap_from_spec refs : forall w awaited,
  let '(w', _, outcome) := bootstrap_from refs w awaited in
  hands_on (declared refs) w w' outcome /\ (outcome = Ok () -> Forall (fun source => exists d, read_document source = Ok d) refs).
Proof.
  induction refs as [|source refs IH]; intros w awaited; cbn [bootstrap_from declared].
  { split; [|by constructor]. exists []. cbn. rewrite app_nil_r. split_and!; try done; constructor. }
  destruct (read_document source) as [[configs digest]|e] eqn:Hr; [|split; [by apply nothing_handed|done]].
  pose proof (import_configs_spec (src_uri source) digest configs w awaited) as H1.
  destruct (import_configs (src_uri source) digest configs w awaited) as [[w1 a1] [[]|e]].
  - specialize (IH w1 a1). destruct (bootstrap_from refs w1 a1) as [[w2 a2] o]. destruct IH as [Hh Hall].
    split; [by eapply hands_on_app|]. intros Ho. constructor; [by eexists|by apply Hall].
  - split; [by apply hands_on_more|done].
Qed.

(** The import submits what its documents declare and nothing else: in order, as unconditional puts that passed
    the replication and size checks, under ids that the document alone decides, so that another
    boot or another node handing on the same documents repeats the same ids; and an import that
    succeeds has read every document and submitted all of it. *)
Theorem import_exact refs w :
  let '(w', outcome) := bootstrap_imposters refs w in
  (exists reqs, log w' = log w ++ reqs /\ Forall admissible reqs
     /\ Forall2 imports (take (length reqs) (declared refs)) reqs
     /\ (outcome = Ok () -> length reqs = length (declared refs)))
  /\ (outcome = Ok () -> Forall (fun source => exists d, read_document source = Ok d) refs).
Proof.
  unfold bootstrap_imposters. pose proof (bootstrap_from_spec refs w false) as H. destruct (bootstrap_from refs w false) as [[w' a] o].
  destruct H as [(reqs & Hl & Ha & _ & Hf & Ho) Hall]. split; [|done]. by exists reqs.
Qed.
End imports.

(** ** Witnesses *)

(** A retired node with one seed, which admits it on the second pass. *)
Definition retired_env : StartEnv := {|
  se_marker_stat := None; se_initialized := Ok true; se_loaded := true; se_in_membership := true;
  se_evidence := fun _ => Some {| re_peer := "b:1"; re_peer_node_id := 2; re_peer_m_idx := 9; re_own_m_idx := 4 |};
  se_seeds := ["b:1"%string]; se_known_peers := ["c:1"%string]; se_allow_solo := false; se_cluster_init := Err "unused";
  se_passes := fun i => {| ps_lookup := fun s => Ok [s];
                           ps_join := fun a => if (i =? 1)%nat && String.eqb a "c:1" then Ok () else Err "refused" |};
  se_pass_ended := fun i => (2000 * N.of_nat i)%N; se_marker_removed := true |}.

Lemma retired_paced : paced (se_pass_ended retired_env).
Proof. intros i. cbn [se_pass_ended retired_env]. pose proof (join_backoff_low i). lia. Qed.

Lemma start_decides_witness :
  sr_outcome (join_or_bootstrap retired_env false) = Ok (Joined "c:1")
  /\ last (sr_acts (join_or_bootstrap retired_env false)) = Some ReleaseElections.
Proof.
  destruct (start_decides retired_env false retired_paced) as (_ & _ & _ & _ & Hhold & _).
  split; [vm_compute; reflexivity|]. apply Hhold. apply (bool_decide_unpack _). vm_compute. exact I.
Defined.

(** The registry of one scheme and the node that applies what it is handed. *)
#[local] Instance demo_rules : EngineRules := { is_recorded _ := false; route_table_validate _ := Ok () }.
#[local] Instance demo_uuids : UuidRules := { uuid_parse _ := None; uuid_v5 _ name := string_of_list_ascii name }.

Definition plain_config (port : option N) : ImposterConfig :=
  {| cfg_port := port; cfg_protocol := "http"; cfg_stubs := []; cfg_enabled := true; cfg_rift := None; cfg_rest := EmptyString |}.

#[local] Instance demo_importer : Importer (list ControlRequest) := {
  provider scheme :=
    if String.eqb scheme "file"
    then Some (fun source => Ok {| ft_configs := if String.eqb (src_uri source) "file:a" then [plain_config (Some 4545%N)]
                                                 else [plain_config (Some 4546%N); plain_config None];
                                   ft_intercept := false; ft_routes := false |})
    else None;
  configs_to_value configs := Ok (Json.JInt (Z.of_nat (length configs)));
  value_to_vec _ := Ok [];
  sha256_hex _ := "digest";
  engine_check _ := Ok ();
  entry_bytes _ := Some 10%N;
  await_leader w := (w, Elected);
  node_submit request w := (w ++ [request], Ok {| cr_revision := 1; cr_outcome := Applied |});
  clock_secs _ := 7%N;
}.

Definition one_document : list SourceRef := [{| src_uri := "file:a"; src_scheme := "file" |}].

Lemma import_exact_witness : exists reqs : list ControlRequest, (bootstrap_imposters one_document []).1 = reqs /\ length reqs = 1.
Proof.
  pose proof (import_exact (fun w : list ControlRequest => w) (fun _ _ => eq_refl) (fun _ => eq_refl) one_document []) as H.
  destruct (bootstrap_imposters one_document []) as [w outcome] eqn:Hb. destruct H as [(reqs & Hw & _ & _ & Hlen) _].
  exists reqs. split; [exact Hw|]. rewrite Hlen; [reflexivity|]. vm_compute in Hb. congruence.
Defined.

(** A document refused for an imposter without a port, after the one before it was committed. *)
Lemma half_imported :
  let '(w, outcome) := bootstrap_imposters [{| src_uri := "file:b"; src_scheme := "file" |}] [] in
  outcome = Err (Portless "file:b") /\ length w = 1.
Proof. vm_compute. split; reflexivity. Qed.

Definition all_parts : Composed := {|
  cp_reconciler := true; cp_replayer := true; cp_probes := true; cp_front := true; cp_front_door := true; cp_manager := true;
  cp_node := true; cp_state_dir := true; cp_leave_timeout := 10000 |}.

Lemma leave_then_start_witness :
  sr_outcome (join_or_bootstrap retired_env (graceful_leave all_parts 5 (Ok Departed) MarkerWritten (awaiting []) false).1.2) <> Ok Resumed.
Proof.
  destruct (leave_then_start all_parts 5 (Ok Departed) MarkerWritten (awaiting []) false retired_env) as (_ & _ & _ & H & _).
  apply H; (reflexivity || discriminate).
Defined.

Definition lost (now : N) : Sweep := {|
  sw_now := now; sw_leader_known := false; sw_known_peers := ["b:1"%string]; sw_leader_applied := None; sw_applied := Some 3%N;
  sw_reconcile := Err "unused" |}.

Definition lost_minute : list Sweep := [lost 0; lost 60000; lost 60100; lost 65000].

(** A minute without a leader, an attempt, a sweep too soon after it, and another attempt. *)
Lemma reconciler_paced_witness :
  attempts_due lost_minute None [(60000%N, ["b:1"%string]); (65000%N, ["b:1"%string])].
Proof.
  pose proof (reconciler_paced [] lost_minute (awaiting [GATE_RECONCILED])) as H.
  destruct (reconcile_sweeps [] lost_minute reconciler_start (awaiting [GATE_RECONCILED])) as [r attempts] eqn:Hr.
  destruct H as [_ H]. vm_compute in Hr. injection Hr as _ <-. exact H.
Defined.
