(* ===== verification/Runtime.v ===== *)
(** * The node's runtime edges

    What stands between the engine's threads and the cluster: the startup guards ([config.rs]), the
    persisted identity ([identity.rs]), the bridge's permits ([bridge.rs]), the wait of a request
    that missed ([pull_on_miss.rs]) and the notes that become headers ([decorate.rs]). The file
    system, the clock and the cluster's answers are inputs. *)

From S2P Require Import Prelude Upstream Json Ring Node Auth Rpc FlowConfig Control Session.

(** ** [config.rs]: the startup guards *)

(** Addresses by their octets. *)
Inductive BindIp := IPv4 (a b c d : N) | IPv6 (octets : list N).

(** The [std::net] classes the guard reads: unspecified, loopback, private and link-local. *)
Definition v4_is_unspecified (a b c d : N) : bool := (a =? 0)%N && (b =? 0)%N && (c =? 0)%N && (d =? 0)%N.
Definition v4_is_private (a b : N) : bool :=
  (a =? 10)%N || (a =? 172)%N && (16 <=? b)%N && (b <=? 31)%N || (a =? 192)%N && (b =? 168)%N.
Definition v6_is_unspecified (octets : list N) : bool := forallb (fun o => o =? 0)%N octets.
Definition v6_is_loopback (octets : list N) : bool := bool_decide (octets = replicate 15 0%N ++ [1%N]).

Definition is_private_address (ip : BindIp) : bool :=
  match ip with
  | IPv4 a b c d =>
      if v4_is_unspecified a b c d then false
      else (a =? 127)%N || v4_is_private a b || (a =? 169)%N && (b =? 254)%N
  | IPv6 octets =>
      if v6_is_unspecified octets then false
      else
        let a := default 0%N (octets !! 0) in
        let b := default 0%N (octets !! 1) in
        v6_is_loopback octets || (N.land a 254 =? 252)%N || (a =? 254)%N && (N.land b 192 =? 128)%N
  end.

Inductive RuntimeTopology := WorkStealing | PerCore.

#[export] Instance RuntimeTopology_eq_dec : EqDecision RuntimeTopology.
Proof. solve_decision. Defined.

Inductive ConfigError :=
  | BindRequired
  | PublicBindNotAcknowledged (ip : BindIp) (port : N)
  | SecretRequired
  | PerCoreUnsupported
  | InterceptUnsupported
  | ConfigfileUnsupported
  | SecretFileUnreadable (path detail : string).

Record ClusterConfig := {
  cc_enabled : bool;
  cc_bind : option (BindIp * N);
  cc_bind_public_ok : bool;
  cc_secret : option string;
  cc_insecure : bool;
  cc_runtime : RuntimeTopology;
  cc_intercept : bool;
}.

Definition lacks_secret (c : ClusterConfig) : bool :=
  match cc_secret c with None => true | Some s => String.eqb s EmptyString end.

Definition config_validate (c : ClusterConfig) : result ConfigError () :=
  if negb (cc_enabled c) then Ok tt
  else if bool_decide (cc_runtime c = PerCore) then Err PerCoreUnsupported
  else if cc_intercept c then Err InterceptUnsupported
  else match cc_bind c with
       | None => Err BindRequired
       | Some (ip, port) =>
           if negb (is_private_address ip) && negb (cc_bind_public_ok c) then Err (PublicBindNotAcknowledged ip port)
           else if lacks_secret c && negb (cc_insecure c) then Err SecretRequired
           else Ok tt
       end.

Definition config_is_insecure (c : ClusterConfig) : bool := cc_enabled c && lacks_secret c.

(** What [Debug] prints of each field: the secret's text is not among it. *)
Definition config_debug (c : ClusterConfig) : bool * option (BindIp * N) * bool * option string * bool * RuntimeTopology * bool :=
  (cc_enabled c, cc_bind c, cc_bind_public_ok c, (fun _ => "<redacted>"%string) <$> cc_secret c, cc_insecure c, cc_runtime c, cc_intercept c).

(** ** [identity.rs]: the persisted id *)

(** A file's text, and whether it has been synced; until then a crash may leave any text. *)
Record IdFile := { fl_text : string; fl_synced : bool }.

(** The state directory: [id_file] is the entry in effect, [id_disk] the one that is durable, which a crash
    may bring back until the directory is synced. *)
Record IdDir := { id_file : option IdFile; id_disk : option IdFile; id_tmp : option IdFile }.

Inductive IdError := IdIo (e : string) | IdCorrupt (contents : string).

Definition identity_load (d : IdDir) : result IdError (option N) :=
  match id_file d with
  | None => Ok None
  | Some f => match parse_u64 (trim (fl_text f)) with Some id => Ok (Some id) | None => Err (IdCorrupt (fl_text f)) end
  end.

Inductive MintStep := CreateDir | CreateTmp | WriteTmp (part : string) | SyncTmp | RenameTmp | SyncDir.

Definition mint_step (d : IdDir) (step : MintStep) : IdDir :=
  let with_tmp tmp := {| id_file := id_file d; id_disk := id_disk d; id_tmp := tmp |} in
  match step with
  | CreateDir => d
  | CreateTmp => with_tmp (Some {| fl_text := EmptyString; fl_synced := false |})
  | WriteTmp part => with_tmp (Some {| fl_text := part; fl_synced := false |})
  | SyncTmp => with_tmp ((fun f => {| fl_text := fl_text f; fl_synced := true |}) <$> id_tmp d)
  | RenameTmp => {| id_file := id_tmp d; id_disk := id_disk d; id_tmp := None |}
  | SyncDir => {| id_file := id_file d; id_disk := id_file d; id_tmp := id_tmp d |}
  end.

Definition mint_steps (proposed : N) : list MintStep :=
  [CreateDir; CreateTmp; WriteTmp (pretty proposed); SyncTmp; RenameTmp; SyncDir].

(** What a mint has done when it stops after [n] steps; a write that stops may have left a part. *)
Definition minted_upto (d : IdDir) (proposed : N) (n : nat) (part : string) : IdDir :=
  let d := foldl mint_step d (take n (mint_steps proposed)) in
  if (n =? 2)%nat then mint_step d (WriteTmp part) else d.

(** [fails] is the step the file system refuses, with the part a write left and the error. *)
Definition load_or_mint (d : IdDir) (proposed : N) (fails : option (nat * string * string)) : IdDir * result IdError N :=
  match identity_load d with
  | Err e => (d, Err e)
  | Ok (Some id) => (d, Ok id)
  | Ok None =>
      match fails with
      | Some (n, part, e) => (minted_upto d proposed n part, Err (IdIo e))
      | None => (foldl mint_step d (mint_steps proposed), Ok proposed)
      end
  end.

(** A crash: the entry is the one in effect or the durable one, with any text if it was not synced. *)
Definition id_crash (renamed : bool) (torn : string) (d : IdDir) : IdDir :=
  let settle f := {| fl_text := if fl_synced f then fl_text f else torn; fl_synced := true |} in
  let f := settle <$> (if renamed then id_file d else id_disk d) in
  {| id_file := f; id_disk := f; id_tmp := settle <$> id_tmp d |}.

(** ** [decorate.rs]: notes as headers *)

Definition CLUSTER_NOTE_PREFIX : string := "cluster.".
Definition CLUSTER_HEADER_PREFIX : string := "rift-cluster-".

Definition header_char (c : ascii) : option ascii :=
  if (97 <=? N_of_ascii c)%N && (N_of_ascii c <=? 122)%N || is_ascii_digit c then Some c
  else if is_ascii_uppercase c then Some (byte_of (N_of_ascii c + 32))
  else if Ascii.eqb c "." || Ascii.eqb c "_" || Ascii.eqb c "-" then Some "-"%char
  else None.

Fixpoint header_suffix (s : string) : option string :=
  match s with
  | EmptyString => Some EmptyString
  | String c s =>
      match header_char c, header_suffix s with Some c, Some s => Some (String c s) | _, _ => None end
  end.

Definition header_name_for (note_key : string) : option string :=
  match strip_prefix CLUSTER_NOTE_PREFIX note_key with
  | None | Some EmptyString => None
  | Some suffix => (fun s => CLUSTER_HEADER_PREFIX +:+ s) <$> header_suffix suffix
  end.

(** [HeaderName::try_from] takes every name made here, as its letters, digits and dashes are token characters. *)
Definition decorate_note {HT : HeaderText} (hs : Headers) (note : string * string) : Headers :=
  if negb (starts_with CLUSTER_NOTE_PREFIX note.1) then hs
  else match header_name_for note.1 with
       | None => hs
       | Some name => match header_from_str note.2 with Some value => headers_append name value hs | None => hs end
       end.

Definition decorate {HT : HeaderText} (annotations : list (string * string)) (hs : Headers) : Headers :=
  foldl decorate_note hs annotations.

(** ** [bridge.rs]: permits *)

Inductive CallerClass := DataPlane | ScriptPool.

#[export] Instance CallerClass_eq_dec : EqDecision CallerClass.
Proof. solve_decision. Defined.

Record BridgeConfig := { bc_data_plane_permits : N; bc_script_pool_permits : N; bc_io_threads : N }.

Definition for_workers (worker_threads : N) : BridgeConfig :=
  {| bc_data_plane_permits := N.max (worker_threads / 2) 2; bc_script_pool_permits := N.max (worker_threads * 4) 16; bc_io_threads := 2 |}.

Section bridge.
Context {T : Type}.

(** A call's task on the cluster's runtime: it holds its permit, has let go of it, has sent the outcome, or was
    dropped without sending one. *)
Inductive Task :=
  | Running (class : CallerClass)
  | Freed (outcome : result RpcError T)
  | Sent (outcome : result RpcError T)
  | Lost.

(** The permits left of each class, the tasks by call, and what the callers were answered. *)
Record Bridge := {
  br_data_plane : N;
  br_script_pool : N;
  br_tasks : gmap N Task;
  br_answers : gmap N (result RpcError T);
}.

Definition bridge_start (c : BridgeConfig) : Bridge :=
  {| br_data_plane := bc_data_plane_permits c; br_script_pool := bc_script_pool_permits c; br_tasks := ∅; br_answers := ∅ |}.

Definition permits (b : Bridge) (class : CallerClass) : N :=
  match class with DataPlane => br_data_plane b | ScriptPool => br_script_pool b end.

Definition with_permits (f : N -> N) (class : CallerClass) (b : Bridge) : Bridge :=
  {| br_data_plane := if bool_decide (class = DataPlane) then f (br_data_plane b) else br_data_plane b;
     br_script_pool := if bool_decide (class = ScriptPool) then f (br_script_pool b) else br_script_pool b;
     br_tasks := br_tasks b; br_answers := br_answers b |}.

Definition with_task (call : N) (t : Task) (b : Bridge) : Bridge :=
  {| br_data_plane := br_data_plane b; br_script_pool := br_script_pool b; br_tasks := <[call := t]> (br_tasks b); br_answers := br_answers b |}.

Definition with_answer (call : N) (a : result RpcError T) (b : Bridge) : Bridge :=
  {| br_data_plane := br_data_plane b; br_script_pool := br_script_pool b; br_tasks := br_tasks b; br_answers := <[call := a]> (br_answers b) |}.

(** The points at which a call can be interleaved with others. [Finish] is the end of the op, or of its
    deadline when it gives no outcome. *)
Inductive BridgeStep :=
  | Enter (call : N) (class : CallerClass)
  | Finish (call : N) (outcome : option (result RpcError T))
  | SendOutcome (call : N)
  | DropTask (call : N)
  | Receive (call : N)
  | GiveUp (call : N).

(** The caller's first move: shed, or take a permit and spawn. *)
Definition bridge_enter (call : N) (class : CallerClass) (b : Bridge) : Bridge :=
  if (permits b class =? 0)%N then with_answer call (Err Shed) b
  else with_task call (Running class) (with_permits N.pred class b).

(** One step, when it is enabled. *)
Definition bridge_step (b : Bridge) (step : BridgeStep) : option Bridge :=
  match step with
  | Enter call class =>
      match br_tasks b !! call, br_answers b !! call with None, None => Some (bridge_enter call class b) | _, _ => None end
  | Finish call outcome =>
      match br_tasks b !! call with
      | Some (Running class) => Some (with_task call (Freed (default (Err RpcTimeout) outcome)) (with_permits N.succ class b))
      | _ => None
      end
  | SendOutcome call =>
      match br_tasks b !! call with Some (Freed outcome) => Some (with_task call (Sent outcome) b) | _ => None end
  | DropTask call =>
      match br_tasks b !! call with
      | Some (Running class) => Some (with_task call Lost (with_permits N.succ class b))
      | Some (Freed _) => Some (with_task call Lost b)
      | _ => None
      end
  | Receive call =>
      match br_tasks b !! call, br_answers b !! call with
      | Some (Sent outcome), None => Some (with_answer call outcome b)
      | Some Lost, None => Some (with_answer call (Err (Transport "cluster-io task ended without a result")) b)
      | _, _ => None
      end
  | GiveUp call =>
      match br_tasks b !! call, br_answers b !! call with
      | Some (Running _), None | Some (Freed _), None => Some (with_answer call (Err RpcTimeout) b)
      | _, _ => None
      end
  end.

Fixpoint bridge_run (b : Bridge) (steps : list BridgeStep) : option Bridge :=
  match steps with
  | [] => Some b
  | step :: steps => match bridge_step b step with Some b => bridge_run b steps | None => None end
  end.
End bridge.
Arguments Task : clear implicits.
Arguments Bridge : clear implicits.
Arguments BridgeStep : clear implicits.

(** ** [pull_on_miss.rs]: the wait of a miss. Times are milliseconds. *)

Definition PULL_ON_MISS_BUDGET : N := 500.
Definition TARGET_TTL : N := 250.
Definition APPLY_POLL : N := 10.
Definition LEADER_LOOKUP_TIMEOUT : N := 250.

(** The node as the hook reads it at each instant, [None] once it is gone; what asking the leader answers, and
    how long that takes. *)
Record View := {
  vw_node : N -> option (bool * option N);
  vw_leader_applied : option N;
  vw_lookup_takes : N;
}.

Definition view_is_leader (v : View) (now : N) : bool := match vw_node v now with Some (leads, _) => leads | None => false end.
Definition view_local_applied (v : View) (now : N) : option N := match vw_node v now with Some (_, applied) => applied | None => None end.

Definition view_leader_applied (v : View) (now : N) : option N * N :=
  match vw_node v now with
  | None => (None, now)
  | Some _ =>
      if (vw_lookup_takes v <=? LEADER_LOOKUP_TIMEOUT)%N then (vw_leader_applied v, now + vw_lookup_takes v)%N
      else (None, now + LEADER_LOOKUP_TIMEOUT)%N
  end.

(** Polls until the index is applied, the node is gone or the deadline has passed: whether it was applied, and when. *)
Fixpoint view_wait_applied (fuel : nat) (v : View) (index now deadline : N) : option (bool * N) :=
  match fuel with
  | 0 => None
  | S fuel =>
      match vw_node v now with
      | None => Some (false, now)
      | Some (_, applied) =>
          if (index <=? default 0 applied)%N then Some (true, now)
          else if (deadline <=? now)%N then Some (false, now)
          else view_wait_applied fuel v index (now + N.min APPLY_POLL (deadline - now)) deadline
      end
  end.

(** One poll per interval of the budget, one for what is left of it, and one at its end. *)
Definition wait_fuel : nat := 52.

(** The cache of the leader's index with the time it was stored. *)
Definition pull_target (v : View) (cache : option (N * N)) (now : N) : option N * option (N * N) * N :=
  match cache with
  | Some (fetched_at, target) =>
      if (now - fetched_at <? TARGET_TTL)%N then (Some target, cache, now)
      else match view_leader_applied v now with
           | (Some target, now) => (Some target, Some (now, target), now)
           | (None, now) => (None, cache, now)
           end
  | None =>
      match view_leader_applied v now with
      | (Some target, now) => (Some target, Some (now, target), now)
      | (None, now) => (None, cache, now)
      end
  end.

Inductive NoMatchDirective := Proceed | RetryMatch.

(** A decision: the directive and the annotation with the time it is reached. *)
Record Pulled := { pl_directive : NoMatchDirective; pl_note : option string; pl_at : N }.

Definition pull_proceed (now : N) : Pulled := {| pl_directive := Proceed; pl_note := None; pl_at := now |}.

(** [locked] is the time at which the cache's lock is had. The time the target was known is returned with the cache. *)
Definition pull_decide (v : option View) (cache : option (N * N)) (start locked deadline : N) : Pulled * option (N * N) * N :=
  match v with
  | None => (pull_proceed start, cache, start)
  | Some v =>
      if view_is_leader v start then (pull_proceed start, cache, start)
      else
        match pull_target v cache locked with
        | (None, cache, now) => (pull_proceed now, cache, now)
        | (Some target, cache, now) =>
            if (target <=? default 0 (view_local_applied v now))%N then (pull_proceed now, cache, now)
            else match view_wait_applied wait_fuel v target now (N.max now deadline) with
                 | Some (caught_up, at_) =>
                     ({| pl_directive := RetryMatch;
                         pl_note := Some (if caught_up then "rescued-wait" else "retry-after-timeout"); pl_at := at_ |}, cache, now)
                 | None => (pull_proceed now, cache, now)
                 end
        end
  end.

(** The hook under its budget: a decision that is not reached in it is dropped with its annotation, and so is a
    target that was not stored in it. *)
Definition on_no_match (v : option View) (cache : option (N * N)) (start locked : N) : Pulled * option (N * N) :=
  let deadline := (start + PULL_ON_MISS_BUDGET)%N in
  let '(pulled, cache', known) := pull_decide v cache start locked deadline in
  (if (pl_at pulled <=? deadline)%N then pulled else pull_proceed deadline, if (known <=? deadline)%N then cache' else cache).
