(* ===== verification/RuntimeFacts.v ===== *)
(** * Facts about the runtime edges

    The guards admit exactly the safe configurations; a crash never leaves a torn identity; notes
    become headers of the cluster's name and nothing else changes; the bridge's permits are
    conserved under every interleaving; and the wait of a miss retries only on a lag it
    confirmed, inside its budget. *)

From S2P Require Import Prelude Upstream Json Ring Node Auth Rpc FlowConfig Control Session Runtime.

(** ** The bridge *)

Section bridge.
Context {T : Type}.
Implicit Types b : Bridge T.

Definition holds (class : CallerClass) (t : Task T) : bool := match t with Running c => bool_decide (c = class) | _ => false end.

(** The calls of a class that hold a permit. *)
Definition held (b : Bridge T) (class : CallerClass) : nat := size (filter (fun kv => holds class kv.2 = true) (br_tasks b)).

Definition capacity (c : BridgeConfig) (class : CallerClass) : N :=
  match class with DataPlane => bc_data_plane_permits c | ScriptPool => bc_script_pool_permits c end.

(** Permits left and held are the capacity; an answer fits what became of its call's task. *)
Record bridge_inv (c : BridgeConfig) (b : Bridge T) : Prop := {
  inv_permits : forall class, (permits b class + N.of_nat (held b class) = capacity c class)%N;
  inv_answers : forall call a, br_answers b !! call = Some a ->
    match br_tasks b !! call with
    | None => a = Err Shed
    | Some (Running _) => a = Err RpcTimeout
    | Some (Freed _) => a = Err RpcTimeout
    | Some (Sent outcome) => a = outcome \/ a = Err RpcTimeout
    | Some Lost => a = Err RpcTimeout \/ a = Err (Transport "cluster-io task ended without a result")
    end;
}.

Lemma tasks_held_insert b call t class :
  held (with_task call t b) class
  = (if holds class t then 1 else 0) + size (filter (fun kv => holds class kv.2 = true) (delete call (br_tasks b))).
Proof.
  unfold held, with_task. cbn [br_tasks]. destruct (holds class t) eqn:Ht.
  - rewrite map_filter_insert_True by done. rewrite map_filter_delete, <- insert_delete_eq, map_size_insert_None by apply lookup_delete_eq. done.
  - rewrite map_filter_insert_False by (cbn; by rewrite Ht). done.
Qed.

Lemma held_delete b call class :
  held b class = match br_tasks b !! call with Some t => if holds class t then 1 else 0 | None => 0 end
    + size (filter (fun kv => holds class kv.2 = true) (delete call (br_tasks b))).
Proof.
  destruct (br_tasks b !! call) as [t|] eqn:Hc.
  - transitivity (held (with_task call t b) class); [|apply tasks_held_insert]. unfold held, with_task. cbn. by rewrite insert_id.
  - by rewrite delete_id.
Qed.

Lemma permits_with f class class' b :
  permits (with_permits f class b) class' = if bool_decide (class = class') then f (permits b class') else permits b class'.
Proof. by destruct class, class'. Qed.

(** A task that changes hands: the permits move as what it holds does. *)
Lemma permits_kept c b b' call t' :
  bridge_inv c b -> br_tasks b' = <[call := t']> (br_tasks b) ->
  (forall class, permits b' class + (if holds class t' then 1 else 0)
     = permits b class + match br_tasks b !! call with Some t => if holds class t then 1 else 0 | None => 0 end)%N ->
  forall class, (permits b' class + N.of_nat (held b' class) = capacity c class)%N.
Proof.
  intros Hinv Ht Hp class. rewrite <- (inv_permits _ _ Hinv class). pose proof (held_delete b call class) as Hd. pose proof (tasks_held_insert b call t' class) as Hi.
  assert (held b' class = held (with_task call t' b) class) as -> by (unfold held; by rewrite Ht). rewrite Hi, Hd. specialize (Hp class).
  destruct (br_tasks b !! call) as [t|]; [destruct (holds class t)|]; destruct (holds class t'); lia.
Qed.

(** The answers still fit when a task moves to one that its call's answer allows. *)
Lemma answers_kept c b b' call t' :
  bridge_inv c b -> br_tasks b' = <[call := t']> (br_tasks b) -> br_answers b' = br_answers b ->
  (forall a, br_answers b !! call = Some a -> br_tasks b !! call <> None -> a = Err RpcTimeout) -> br_tasks b !! call <> None ->
  forall k a, br_answers b' !! k = Some a ->
    match br_tasks b' !! k with
    | None => a = Err Shed
    | Some (Running _) => a = Err RpcTimeout
    | Some (Freed _) => a = Err RpcTimeout
    | Some (Sent outcome) => a = outcome \/ a = Err RpcTimeout
    | Some Lost => a = Err RpcTimeout \/ a = Err (Transport "cluster-io task ended without a result")
    end.
Proof.
  intros Hinv -> -> Hcall Hin k a Ha. destruct (decide (call = k)) as [<-|Hne].
  - rewrite lookup_insert_eq. rewrite (Hcall a Ha Hin). destruct t'; auto.
  - rewrite lookup_insert_ne by done. by apply (inv_answers _ _ Hinv).
Qed.

Lemma answer_kept c b call a :
  bridge_inv c b ->
  match br_tasks b !! call with
  | None => a = Err Shed
  | Some (Running _) => a = Err RpcTimeout
  | Some (Freed _) => a = Err RpcTimeout
  | Some (Sent outcome) => a = outcome \/ a = Err RpcTimeout
  | Some Lost => a = Err RpcTimeout \/ a = Err (Transport "cluster-io task ended without a result")
  end -> bridge_inv c (with_answer call a b).
Proof.
  intros Hinv Ha. split; [exact (inv_permits _ _ Hinv)|]. intros k a'. cbn. destruct (decide (call = k)) as [<-|Hne].
  - rewrite lookup_insert_eq. by intros [= <-].
  - rewrite lookup_insert_ne by done. apply (inv_answers _ _ Hinv).
Qed.

Lemma enter_inv c b call class : bridge_inv c b -> br_tasks b !! call = None -> br_answers b !! call = None ->
  bridge_inv c (bridge_enter call class b).
Proof.
  intros Hinv Ht Ha. unfold bridge_enter. destruct (N.eqb_spec (permits b class) 0) as [|Hp].
  { apply answer_kept; [done|]. by rewrite Ht. }
  split.
  - apply (permits_kept c b _ call (Running class)); [done..|]. intros class'. rewrite Ht. cbn [with_task].
    change (permits (with_task call (Running class) (with_permits N.pred class b)) class') with (permits (with_permits N.pred class b) class').
    rewrite permits_with. cbn. case_bool_decide; [subst|]; lia.
  - intros k a. cbn. intros Hk. destruct (decide (call = k)) as [<-|Hne]; [congruence|]. rewrite lookup_insert_ne by done. by apply (inv_answers _ _ Hinv).
Qed.

Lemma freed_inv c b call class t' : bridge_inv c b -> br_tasks b !! call = Some (Running class) -> (forall class, holds class t' = false) ->
  bridge_inv c (with_task call t' (with_permits N.succ class b)).
Proof.
  intros Hinv Ht Hno. split.
  - apply (permits_kept c b _ call t'); [done..|]. intros class'. rewrite Ht, Hno. cbn [holds].
    change (permits (with_task call t' (with_permits N.succ class b)) class') with (permits (with_permits N.succ class b) class').
    rewrite permits_with. case_bool_decide; lia.
  - apply (answers_kept c b _ call t'); [done..| |by rewrite Ht]. intros a Ha _. pose proof (inv_answers _ _ Hinv _ _ Ha) as H. by rewrite Ht in H.
Qed.

Lemma moved_inv c b call outcome t' : bridge_inv c b -> br_tasks b !! call = Some (Freed outcome) -> (forall class, holds class t' = false) ->
  bridge_inv c (with_task call t' b).
Proof.
  intros Hinv Ht Hno. split.
  - apply (permits_kept c b _ call t'); [done..|]. intros class'. by rewrite Ht, Hno.
  - apply (answers_kept c b _ call t'); [done..| |by rewrite Ht]. intros a Ha _. pose proof (inv_answers _ _ Hinv _ _ Ha) as H. by rewrite Ht in H.
Qed.

Lemma bridge_step_inv c b step b' : bridge_inv c b -> bridge_step b step = Some b' -> bridge_inv c b'.
Proof.
  intros Hinv. destruct step as [call class|call outcome|call|call|call|call]; cbn; destruct (br_tasks b !! call) as [[class'|o|o|]|] eqn:Ht; try done;
    destruct (br_answers b !! call) eqn:Ha; try done; intros [= <-]; try by (apply enter_inv || (eapply freed_inv) || (eapply moved_inv)).
  all: apply answer_kept; [done|]; rewrite Ht; auto.
Qed.

Lemma bridge_run_inv c steps : forall b b', bridge_inv c b -> bridge_run b steps = Some b' -> bridge_inv c b'.
Proof.
  induction steps as [|step steps IH]; intros b b' Hinv; cbn; [by intros [= <-]|].
  destruct (bridge_step b step) as [b1|] eqn:Hs; [|done]. apply IH. by eapply bridge_step_inv.
Qed.

Lemma bridge_start_inv c : bridge_inv c (bridge_start (T := T) c).
Proof. split; [|done]. intros class. unfold held. cbn. rewrite map_filter_empty, map_size_empty. destruct class; cbn; lia. Qed.

(** C34: under every interleaving the bridge holds no more of a class's callers than its permits: the permits left and
    the running calls are its capacity, so a call is shed exactly when its own class is full,
    whatever the other class does; a caller is answered with its call's own outcome, and then its
    permit is already back, or is told of the shed, the deadline or the lost task. *)
Theorem bridge_bounded c steps b :
  bridge_run (bridge_start c) steps = Some b ->
  (forall class, permits b class + N.of_nat (held b class) = capacity c class)%N
  /\ (forall call class, br_tasks b !! call = None -> br_answers b !! call = None ->
        br_answers (bridge_enter call class b) !! call = Some (Err Shed) <-> N.of_nat (held b class) = capacity c class)
  /\ (forall call a, br_answers b !! call = Some a ->
        match br_tasks b !! call with
        | None => a = Err Shed
        | Some (Running _) | Some (Freed _) => a = Err RpcTimeout
        | Some (Sent outcome) => a = outcome \/ a = Err RpcTimeout
        | Some Lost => a = Err RpcTimeout \/ a = Err (Transport "cluster-io task ended without a result")
        end).
Proof.
  intros Hr. pose proof (bridge_run_inv c steps _ _ (bridge_start_inv c) Hr) as Hinv. split_and!; [exact (inv_permits _ _ Hinv)| |].
  - intros call class Ht Ha. pose proof (inv_permits _ _ Hinv class). unfold bridge_enter.
    destruct (N.eqb_spec (permits b class) 0); cbn; [rewrite lookup_insert_eq|rewrite Ha]; (split; [|done || lia]); intros; [lia|done].
  - intros call a Ha. pose proof (inv_answers _ _ Hinv _ _ Ha). by destruct (br_tasks b !! call) as [[]|].
Qed.
End bridge.

(** Half the workers stay free of parked callers, from four workers on; the floor of two leaves none of one or two. *)
Lemma workers_left w : (4 <= w -> bc_data_plane_permits (for_workers w) * 2 <= w)%N /\ (w <= 2 -> w <= bc_data_plane_permits (for_workers w))%N.
Proof. cbn [for_workers bc_data_plane_permits]. pose proof (N.Div0.mul_div_le w 2). split; lia. Qed.

(** ** The wait of a miss *)

(** A wait ends by its deadline, with the index applied or not at the time it ends. *)
Lemma wait_ends fuel v index : forall now deadline, (now <= deadline)%N -> (deadline - now <= APPLY_POLL * N.of_nat (pred fuel))%N -> 0 < fuel ->
  exists caught_up at_, view_wait_applied fuel v index now deadline = Some (caught_up, at_) /\ (now <= at_ <= deadline)%N
    /\ (caught_up = true -> exists leads applied, vw_node v at_ = Some (leads, applied) /\ (index <= default 0 applied)%N)
    /\ (caught_up = false -> at_ = deadline \/ vw_node v at_ = None).
Proof.
  induction fuel as [|fuel IH]; intros now deadline Hle Hf H0; [lia|]. cbn [view_wait_applied]. unfold APPLY_POLL in *.
  destruct (vw_node v now) as [[leads applied]|] eqn:Hn; [|exists false, now; split_and!; auto; lia].
  destruct (N.leb_spec index (default 0%N applied)) as [Hi|Hi].
  { exists true, now. split_and!; [done|lia|lia|by exists leads, applied|done]. }
  destruct (N.leb_spec deadline now) as [Hd|Hd]; [exists false, now; split_and!; try done; try lia; intros _; left; lia|].
  destruct fuel as [|fuel]; [cbn in Hf; lia|].
  destruct (IH (now + N.min 10 (deadline - now))%N deadline) as (caught_up & at_ & Hw & Hb & Ht & Hc); [lia|cbn in Hf |- *; lia|lia|].
  exists caught_up, at_. split_and!; try done; lia.
Qed.

(** The lag the hook confirms: by [at_] it knows the leader's index and is short of it. *)
Definition lag_confirmed (v : option View) (cache : option (N * N)) (start locked : N) (target at_ : N) : Prop :=
  exists v', v = Some v' /\ view_is_leader v' start = false
    /\ (pull_target v' cache locked).1.1 = Some target /\ (pull_target v' cache locked).2 = at_
    /\ (default 0 (view_local_applied v' at_) < target)%N.

Lemma pull_target_after v cache locked : (locked <= (pull_target v cache locked).2)%N.
Proof.
  assert (locked <= (view_leader_applied v locked).2)%N as Hl.
  { unfold view_leader_applied. destruct (vw_node v locked); [|done]. case_match; cbn; lia. }
  unfold pull_target. destruct cache as [[]|]; [case_match; [done|]|]; by destruct (view_leader_applied v locked) as [[] ?].
Qed.

Lemma proceed_in_budget now deadline :
  (if (pl_at (pull_proceed now) <=? deadline)%N then pull_proceed now else pull_proceed deadline) = pull_proceed (N.min now deadline).
Proof. cbn [pull_proceed pl_at]. destruct (N.leb_spec now deadline); f_equal; lia. Qed.

(** A miss is retried exactly when the node is bound, does not lead, and learns within the budget that it is behind
    the leader's index; every other miss proceeds as it would without the hook. The hook never
    takes longer than its budget, whatever the leader and the apply do, and when it reports a
    rescue the node had applied the index by then. *)
Theorem miss_retries_on_lag v cache start locked : (start <= locked)%N ->
  let '(pulled, _) := on_no_match v cache start locked in
  (pl_directive pulled = RetryMatch <->
     exists target at_, lag_confirmed v cache start locked target at_ /\ (at_ <= start + PULL_ON_MISS_BUDGET)%N)
  /\ (start <= pl_at pulled <= start + PULL_ON_MISS_BUDGET)%N
  /\ (pl_note pulled = Some "rescued-wait"%string -> exists v' target at_ leads applied, v = Some v'
        /\ lag_confirmed v cache start locked target at_
        /\ vw_node v' (pl_at pulled) = Some (leads, applied) /\ (target <= default 0 applied)%N).
Proof.
  intros Hs. unfold on_no_match, pull_decide, lag_confirmed. set (deadline := (start + PULL_ON_MISS_BUDGET)%N).
  assert (Hdl : deadline = (start + 500)%N) by done.
  destruct v as [v|]; [|rewrite proceed_in_budget; cbn [pull_proceed pl_directive pl_at pl_note]; split_and!; try done; try lia; split; [done|]; by intros (? & ? & (? & ? & _) & _)].
  destruct (view_is_leader v start) eqn:Hl; [rewrite proceed_in_budget; cbn [pull_proceed pl_directive pl_at pl_note]; split_and!; try done; try lia; split; [done|]; intros (? & ? & (? & [= <-] & ? & _) & _); congruence|].
  pose proof (pull_target_after v cache locked) as Hafter. destruct (pull_target v cache locked) as [[[target|] cache'] now] eqn:Ht; cbn in Hafter.
  2: { rewrite proceed_in_budget. cbn [pull_proceed pl_directive pl_at pl_note]. split_and!; try done; try lia. split; [done|].
       intros (t & a & (v' & [= <-] & _ & Htt & _) & _). by rewrite Ht in Htt. }
  destruct (N.leb_spec target (default 0%N (view_local_applied v now))) as [Hup|Hlag].
  { rewrite proceed_in_budget. cbn [pull_proceed pl_directive pl_at pl_note]. split_and!; try done; try lia. split; [done|].
    intros (t & a & (v' & [= <-] & _ & Htt & <- & H) & _). rewrite Ht in Htt, H. cbn [fst snd] in Htt, H. simplify_eq. lia. }
  destruct (N.le_gt_cases now deadline) as [Hin|Hout].
  - destruct (wait_ends wait_fuel v target now (N.max now deadline)) as (caught_up & at_ & -> & Hb & Hyes & _);
      [lia|unfold APPLY_POLL, wait_fuel; cbn; lia|unfold wait_fuel; lia|].
    cbn [pl_at]. destruct (N.leb_spec at_ deadline); [|lia]. cbn. split_and!; [|lia..|].
    + split; [intros _|done]. exists target, now. split; [|done]. exists v. rewrite Ht. done.
    + intros Hn. destruct caught_up; [|done]. destruct (Hyes eq_refl) as (leads & applied & Hv & Hi).
      exists v, target, now, leads, applied. split_and!; [done| |done..]. exists v. rewrite Ht. done.
  - destruct (wait_ends wait_fuel v target now (N.max now deadline)) as (caught_up & at_ & -> & Hb & _);
      [lia|unfold APPLY_POLL, wait_fuel; cbn; lia|unfold wait_fuel; lia|].
    cbn [pl_at]. destruct (N.leb_spec at_ deadline); [lia|]. cbn. split_and!; [|lia..|done]. split; [done|].
    intros (t & a & (v' & [= <-] & _ & _ & <- & _) & Ha). rewrite Ht in Ha. cbn in Ha. lia.
Qed.

(** Lookups that store a target are at least its freshness apart; one that fails stores nothing, and the next asks again. *)
Lemma stored_apart v cache fetched_at target now : cache = Some (fetched_at, target) ->
  let '(_, cache', at_) := pull_target v cache now in
  cache' = cache \/ exists target', cache' = Some (at_, target') /\ (fetched_at + TARGET_TTL <= now <= at_)%N.
Proof.
  intros ->. pose proof (pull_target_after v (Some (fetched_at, target)) now) as Ha. revert Ha. unfold pull_target, TARGET_TTL.
  destruct (N.ltb_spec (now - fetched_at) 250) as [|Hl]; [by left|]. destruct (view_leader_applied v now) as [[t|] at_]; cbn; intros Ha; [|by left].
  right. exists t. split; [done|]. lia.
Qed.

Lemma failed_lookup_repeats v now : vw_leader_applied v = None -> (pull_target v None now).1.2 = None.
Proof. intros Hn. unfold pull_target, view_leader_applied. destruct (vw_node v now); [|done]. rewrite Hn. by destruct (vw_lookup_takes v <=? LEADER_LOOKUP_TIMEOUT)%N. Qed.

(** ** The guards *)

(** A clustered node starts exactly on a safe configuration: work stealing, no interception, a bind that is private
    or acknowledged, and a secret unless the operator gave it up; without the master switch
    nothing is refused; and two configurations that differ in their secret print the same. *)
Theorem guards_exact c :
  (config_validate c = Ok () <-> (cc_enabled c = true ->
     cc_runtime c = WorkStealing /\ cc_intercept c = false /\ (config_is_insecure c = true -> cc_insecure c = true)
     /\ exists ip port, cc_bind c = Some (ip, port) /\ (is_private_address ip = false -> cc_bind_public_ok c = true)))
  /\ (forall secret secret', is_Some secret <-> is_Some secret' ->
        config_debug {| cc_enabled := cc_enabled c; cc_bind := cc_bind c; cc_bind_public_ok := cc_bind_public_ok c; cc_secret := secret;
                        cc_insecure := cc_insecure c; cc_runtime := cc_runtime c; cc_intercept := cc_intercept c |}
        = config_debug {| cc_enabled := cc_enabled c; cc_bind := cc_bind c; cc_bind_public_ok := cc_bind_public_ok c; cc_secret := secret';
                          cc_insecure := cc_insecure c; cc_runtime := cc_runtime c; cc_intercept := cc_intercept c |}).
Proof.
  split.
  - unfold config_validate, config_is_insecure. destruct (cc_enabled c); [|naive_solver]. cbn [negb andb].
    destruct (cc_runtime c); cbn; [|naive_solver]. destruct (cc_intercept c); [naive_solver|].
    destruct (cc_bind c) as [[ip port]|]; [|naive_solver].
    destruct (is_private_address ip) eqn:Hp, (cc_bind_public_ok c), (lacks_secret c), (cc_insecure c); cbn; naive_solver.
  - intros secret secret' Hs. unfold config_debug. cbn. destruct secret, secret'; [done| | |done]; exfalso;
      [destruct Hs as [Hs _]|destruct Hs as [_ Hs]]; by destruct Hs as [? ?].
Qed.

(** An address the guard takes as private is of a range no router carries, and the wildcards are not among them. *)
Lemma private_ranges a b c d : is_private_address (IPv4 a b c d) = true ->
  a = 127%N \/ a = 10%N \/ (a = 172%N /\ (16 <= b <= 31)%N) \/ (a = 192%N /\ b = 168%N) \/ (a = 169%N /\ b = 254%N).
Proof.
  cbn. case_match; [done|]. unfold v4_is_private. rewrite !orb_true_iff, !andb_true_iff, !N.eqb_eq, !N.leb_le. intuition lia.
Qed.

(** ** The identity *)

Lemma trim_pretty (n : N) : trim (pretty n) = pretty n.
Proof.
  apply trim_id. eapply string_forallb_impl; [|apply digits_pretty].
  intros c. unfold is_ascii_digit, is_space. intros [H1 H2]%andb_true_iff. by destruct c as [[] [] [] [] [] [] [] []].
Qed.

Lemma id_readable (n : N) : (n <= u64_max)%N -> parse_u64 (trim (pretty n)) = Some n.
Proof. intros Hn. rewrite trim_pretty. unfold parse_u64. by rewrite from_str_radix_pretty. Qed.

(** A node is never given a torn or a second identity. Wherever a first mint stops, by an error or a crash, whether
    or not the rename survives it and whatever an unsynced file then holds, the next start reads
    no identity or the one proposed; and once the mint has returned, every later start, whatever
    it proposes, reads that identity and writes nothing. *)
Theorem identity_never_torn d proposed n part renamed torn :
  id_file d = None -> id_disk d = None -> (proposed <= u64_max)%N ->
  let d' := id_crash renamed torn (minted_upto d proposed n part) in
  (identity_load d' = Ok None \/ identity_load d' = Ok (Some proposed))
  /\ (length (mint_steps proposed) <= n -> forall other fails, load_or_mint d' other fails = (d', Ok proposed)).
Proof.
  intros Hf Hd Hp. pose proof (id_readable proposed Hp) as Hr. unfold minted_upto.
  destruct (decide (6 <= n)) as [Hn|Hn].
  - rewrite take_ge by done. destruct (Nat.eqb_spec n 2); [lia|]. cbn [foldl mint_steps mint_step id_tmp id_file id_disk fmap option_fmap option_map].
    set (d' := id_crash _ _ _). assert (Hl : identity_load d' = Ok (Some proposed)).
    { subst d'. unfold identity_load, id_crash. destruct renamed; cbn [id_file id_disk fmap option_fmap option_map fl_synced fl_text]; by rewrite Hr. }
    split; [by right|]. intros _ other fails. unfold load_or_mint. by rewrite Hl.
  - split; [|cbn; lia]. unfold identity_load, id_crash.
    do 6 (destruct n as [|n]; [destruct renamed; cbn [Nat.eqb take foldl mint_steps mint_step id_tmp id_file id_disk fmap option_fmap option_map fl_synced fl_text];
      rewrite ?Hf, ?Hd; cbn [fmap option_fmap option_map fl_synced fl_text]; rewrite ?Hr; by auto|]). lia.
Qed.

(** ** The decorator *)

Lemma header_name_prefixed key name : header_name_for key = Some name -> exists s, name = CLUSTER_HEADER_PREFIX +:+ s.
Proof.
  unfold header_name_for. destruct (strip_prefix CLUSTER_NOTE_PREFIX key) as [[|c s]|]; [done| |done].
  destruct (header_suffix (String c s)) as [r|]; [|done]. intros [= <-]. by exists r.
Qed.

(** The header of a note, when it has one. *)
Definition note_header {HT : HeaderText} (note : string * string) : option (string * string) :=
  match header_name_for note.1, header_from_str note.2 with Some name, Some value => Some (name, value) | _, _ => None end.

(** The decorator only adds: every header of the response stays where it was, and what follows is, in the order of
    the annotations and repeats included, the header of each cluster note that has one, under the
    cluster's prefix; a note of another subsystem adds nothing. *)
Theorem decorate_appends {HT : HeaderText} annotations hs :
  decorate annotations hs = hs ++ omap note_header annotations
  /\ Forall (fun h => exists s, h.1 = CLUSTER_HEADER_PREFIX +:+ s) (omap note_header annotations)
  /\ Forall (fun note => starts_with CLUSTER_NOTE_PREFIX note.1 = false -> note_header note = None) annotations.
Proof.
  assert (Hn : forall note, starts_with CLUSTER_NOTE_PREFIX note.1 = false -> note_header note = None).
  { intros note Hs. unfold note_header, header_name_for. unfold starts_with in Hs. by destruct (strip_prefix CLUSTER_NOTE_PREFIX note.1). }
  split_and!; [| |apply Forall_forall; intros note _; apply Hn].
  - revert hs. unfold decorate. induction annotations as [|note notes IH]; intros hs; cbn [foldl omap list_omap]; [by rewrite app_nil_r|].
    rewrite IH. unfold decorate_note. destruct (starts_with CLUSTER_NOTE_PREFIX note.1) eqn:Hs; cbn [negb]; [|by rewrite Hn].
    unfold note_header at 2. destruct (header_name_for note.1) as [name|]; [|done]. destruct (header_from_str note.2) as [value|]; [|done].
    unfold headers_append. by rewrite <- app_assoc.
  - apply Forall_forall. intros h (note & _ & Hh)%list_elem_of_omap. unfold note_header in Hh.
    destruct (header_name_for note.1) as [name|] eqn:Hk; [|done]. destruct (header_from_str note.2); [|done]. injection Hh as <-.
    by eapply header_name_prefixed.
Qed.

(** Two keys that a client cannot tell apart. *)
Lemma notes_may_merge : header_name_for "cluster.bind_failures" = header_name_for "cluster.Bind.Failures".
Proof. reflexivity. Qed.

(** ** Witnesses *)

Definition two_permits : BridgeConfig := {| bc_data_plane_permits := 1; bc_script_pool_permits := 1; bc_io_threads := 2 |}.

Definition shed_run : list (BridgeStep N) :=
  [Enter 1 DataPlane; Enter 2 DataPlane; Enter 3 ScriptPool; GiveUp 1; Finish 1 None; Enter 4 DataPlane; Finish 3 (Some (Ok 7%N)); SendOutcome 3; Receive 3].

Lemma bridge_bounded_witness : exists b, bridge_run (bridge_start two_permits) shed_run = Some b
  /\ (permits b DataPlane + N.of_nat (held b DataPlane) = 1)%N.
Proof.
  destruct (bridge_run (bridge_start two_permits) shed_run) as [b|] eqn:Hb; [|vm_compute in Hb; discriminate].
  destruct (bridge_bounded two_permits shed_run b Hb) as (H & _). exists b. split; [reflexivity|]. exact (H DataPlane).
Defined.

(** A follower two entries behind, which catches up at 40 ms. *)
Definition lagging : View := {|
  vw_node := fun now => Some (false, Some (if (now <? 40)%N then 8%N else 10%N)); vw_leader_applied := Some 10%N; vw_lookup_takes := 5 |}.

Lemma miss_retries_on_lag_witness : (0 <= 0)%N /\ (pl_at (on_no_match (Some lagging) None 0 0).1 <= 500)%N.
Proof.
  split; [apply N.le_refl|]. pose proof (miss_retries_on_lag (Some lagging) None 0 0 (N.le_refl 0)) as H.
  destruct (on_no_match (Some lagging) None 0 0) as [pulled cache]. destruct H as (_ & [_ H] & _). exact H.
Defined.

Definition new_dir : IdDir := {| id_file := None; id_disk := None; id_tmp := Some {| fl_text := "12"; fl_synced := false |} |}.

Lemma identity_never_torn_witness :
  load_or_mint (id_crash false "torn" (minted_upto new_dir 42 6 "4")) 43 None = (id_crash false "torn" (minted_upto new_dir 42 6 "4"), Ok 42%N).
Proof.
  destruct (identity_never_torn new_dir 42 6 "4" false "torn") as [_ H]; [reflexivity..|vm_compute; discriminate|].
  apply H. vm_compute. repeat constructor.
Defined.

#[local] Instance plain_headers : HeaderText.
Proof.
  refine {| to_str v := if string_forallb is_visible v then Some v else None;
            header_from_str v := if string_forallb is_visible v then Some v else None |}; [done|]. by intros v ->.
Defined.

Lemma decorate_appends_witness :
  decorate [("cluster.owner", "n1"); ("other.note", "x"); ("cluster.owner", "n2")]%string [("a", "b")]%string
  = [("a", "b"); ("rift-cluster-owner", "n1"); ("rift-cluster-owner", "n2")]%string.
Proof.
  destruct (decorate_appends [("cluster.owner", "n1"); ("other.note", "x"); ("cluster.owner", "n2")]%string [("a", "b")]%string) as [H _].
  rewrite H. vm_compute. reflexivity.
Defined.
