(* ===== verification/RaftNet.v ===== *)
(** * The raft network: [raft/network.rs]

    The sending side openraft drives, one client per peer: a message tried at each address of its
    member, the AppendEntries transfer that re-sends attach to, the ticker that speaks for a
    silent leader, the snapshot's offer and its fallback in chunks; and the receiving routes. The
    transport's answers, encodings, name resolution, openraft's own answers and clocks are inputs.
    Times are milliseconds. *)

From S2P Require Import Prelude Upstream Ring Auth Rpc FlowConfig Control Recorded StateMachine LogStore Snapshot Wire.

(** ** Errors, as openraft is told them *)

Inductive RaftRpcError :=
  | Unreachable (detail : string)
  | Network (detail : string)
  | PayloadTooLarge (entries_hint : N).

Definition map_rpc_err (e : RpcError) (context : string) : RaftRpcError :=
  let detail := context +:+ ": " +:+ rpc_display e in
  match e with Handler _ => Network detail | _ => Unreachable detail end.

Definition map_append_err (e : RpcError) (context : string) (entries : N) : RaftRpcError :=
  match e with
  | BodyTooLarge _ => PayloadTooLarge (N.max (entries / 2) 1)
  | _ => map_rpc_err e context
  end.

Definition keep_wrong_node (last : option RpcError) (next : RpcError) : RpcError :=
  match last with
  | Some (WrongNode expected actual) => if is_liveness_failure next then WrongNode expected actual else next
  | _ => next
  end.

Inductive SendFailure :=
  | Unresolved (detail : string)
  | SendFailed (last : option RpcError) (context : string).

Definition into_rpc_error (f : SendFailure) : RaftRpcError :=
  match f with
  | Unresolved detail => Unreachable detail
  | SendFailed (Some e) context => map_rpc_err e context
  | SendFailed None context => Unreachable (context +:+ ": no addresses to try")
  end.

(** ** Addresses *)

Definition resolve_authority (is_socket_addr : string -> bool) (resolver : string -> result string (list string)) (authority : string)
    : result string (list string) :=
  if is_socket_addr authority then Ok [authority]
  else match resolver authority with
       | Err e => Err e
       | Ok [] => Err ("resolver returned no addresses for " +:+ authority)
       | Ok addrs => Ok addrs
       end.

Definition MIN_REPLICATION_BYTES_PER_SEC : N := 1024 * 1024.

(** [Duration]'s own addition is far from its bound here; the product saturates at 64 bits. *)
Definition replication_deadline (request_timeout body_len : N) : N :=
  request_timeout + N.min (body_len * 1000) u64_max / MIN_REPLICATION_BYTES_PER_SEC.

(** One address of a send: the time since the send began, and what the call ends in. *)
Record Attempt := { at_elapsed : N; at_outcome : result RpcError bytes }.

(** The addresses in turn, until one answers or the budget of the whole send is spent. *)
Fixpoint post_addrs (budget : option N) (attempt : nat -> Attempt) (addrs : list string) (i : nat) (last : option RpcError)
    : result (option RpcError) bytes :=
  match addrs with
  | [] => Err last
  | _ :: addrs =>
      if match budget with Some budget => (budget <? at_elapsed (attempt i))%N | None => false end then Err last
      else match at_outcome (attempt i) with
           | Ok response => Ok response
           | Err e => post_addrs budget attempt addrs (S i) (Some (keep_wrong_node last e))
           end
  end.

Definition tried (addr : string) (n : nat) : string := addr +:+ " (" +:+ pretty n +:+ " address(es) tried)".

Definition post (resolved : result string (list string)) (addr : string) (budget : option N) (attempt : nat -> Attempt) : result SendFailure bytes :=
  match resolved with
  | Err e => Err (Unresolved e)
  | Ok addrs =>
      match post_addrs budget attempt addrs 0 None with
      | Ok response => Ok response
      | Err last => Err (SendFailed last (tried addr (length addrs)))
      end
  end.

Inductive Delivery := Retried | BulkSingleAttempt.

(** What a send meets: the peer's address and what it resolves to, the client's own timeout, and the attempts,
    which the budget bounds. *)
Record Link := {
  lk_addr : string;
  lk_resolved : result string (list string);
  lk_request_timeout : N;
  lk_attempt : option N -> nat -> Attempt;
}.

Definition send {Resp} (l : Link) (encoded : result string bytes) (decode : bytes -> result string Resp) (delivery : Delivery)
    : result RaftRpcError Resp :=
  match encoded with
  | Err e => Err (Network e)
  | Ok body =>
      let budget := match delivery with
                    | Retried => None
                    | BulkSingleAttempt => Some (replication_deadline (lk_request_timeout l) (N.of_nat (length body)))
                    end in
      match post (lk_resolved l) (lk_addr l) budget (lk_attempt l budget) with
      | Err failure => Err (into_rpc_error failure)
      | Ok response => match decode response with Ok r => Ok r | Err e => Err (Network e) end
      end
  end.

(** ** AppendEntries: one transfer that re-sends attach to *)

Record AppendRequest := { ar_vote : Vote; ar_prev_log_id : option LogId; ar_entries : list Entry; ar_leader_commit : option LogId }.

Inductive AppendResponse :=
  | Success
  | PartialSuccess (matching : option LogId)
  | Conflict
  | HigherVote (vote : Vote).

Definition log_id_ltb (a b : LogId) : bool :=
  (lid_term a <? lid_term b)%N
  || (lid_term a =? lid_term b)%N && ((lid_node a <? lid_node b)%N || (lid_node a =? lid_node b)%N && (lid_index a <? lid_index b)%N).

(** The order of [Option<LogId>]: nothing is before anything. *)
Definition log_ltb (a b : option LogId) : bool :=
  match a, b with
  | None, Some _ => true
  | Some a, Some b => log_id_ltb a b
  | _, None => false
  end.

Definition last_log_id (entries : list Entry) : option LogId := e_log_id <$> last entries.

#[export] Instance Vote_eq_dec : EqDecision Vote.
Proof. solve_decision. Defined.

(** The slot of the outstanding transfer; [if_task] names its task. *)
Record InflightAppend := { if_vote : Vote; if_prev_log_id : option LogId; if_last_log_id : option LogId; if_task : nat }.

Record PeerLiveness := { pl_vote : option Vote; pl_last_sent : option N }.

Record PeerClient := { pc_inflight : option InflightAppend; pc_liveness : PeerLiveness }.

Definition peer_new : PeerClient := {| pc_inflight := None; pc_liveness := {| pl_vote := None; pl_last_sent := None |} |}.

Definition note_sent (now : N) (vote : Vote) (p : PeerClient) : PeerClient :=
  {| pc_inflight := pc_inflight p; pc_liveness := {| pl_vote := Some vote; pl_last_sent := Some now |} |}.

Definition with_inflight (slot : option InflightAppend) (p : PeerClient) : PeerClient :=
  {| pc_inflight := slot; pc_liveness := pc_liveness p |}.

Definition attaches (rpc : AppendRequest) (slot : InflightAppend) : bool :=
  bool_decide (if_vote slot = ar_vote rpc) && bool_decide (if_prev_log_id slot = ar_prev_log_id rpc)
  && negb (log_ltb (last_log_id (ar_entries rpc)) (if_last_log_id slot)).

(** The transfer of one body, on its own task. *)
Definition send_append (l : Link) (body : bytes) (decode : bytes -> result string AppendResponse) (entries : N) : result RaftRpcError AppendResponse :=
  match lk_resolved l with
  | Err e => Err (Unreachable e)
  | Ok addrs =>
      let deadline := replication_deadline (lk_request_timeout l) (N.of_nat (length body)) in
      match post_addrs None (lk_attempt l (Some deadline)) addrs 0 None with
      | Ok response => match decode response with Ok r => Ok r | Err e => Err (Network e) end
      | Err (Some e) => Err (map_append_err e (tried (lk_addr l) (length addrs)) entries)
      | Err None => Err (Unreachable (tried (lk_addr l) (length addrs) +:+ ": no addresses to try"))
      end
  end.

(** A call up to its wait: the slot it waits on, and the body it spawned a transfer of, if it did not attach.
    [task] names the task it would spawn. *)
Definition append_begin (now : N) (encode : AppendRequest -> result string bytes) (task : nat) (rpc : AppendRequest) (p : PeerClient)
    : PeerClient * result RaftRpcError (option AppendRequest) :=
  let p := note_sent now (ar_vote rpc) p in
  if match pc_inflight p with Some slot => attaches rpc slot | None => false end then (p, Ok None)
  else match encode rpc with
       | Err e => (with_inflight None p, Err (Network e))
       | Ok _ =>
           (with_inflight (Some {| if_vote := ar_vote rpc; if_prev_log_id := ar_prev_log_id rpc;
                                   if_last_log_id := last_log_id (ar_entries rpc); if_task := task |}) p, Ok (Some rpc))
       end.

(** The transfer the call waits on has ended. *)
Definition append_finish (rpc : AppendRequest) (slot : InflightAppend) (joined : result string (result RaftRpcError AppendResponse))
    : result RaftRpcError AppendResponse :=
  match joined with
  | Ok (Ok Success) =>
      if log_ltb (if_last_log_id slot) (last_log_id (ar_entries rpc)) then Ok (PartialSuccess (if_last_log_id slot)) else Ok Success
  | Ok outcome => outcome
  | Err e => Err (Unreachable ("append transfer task failed: " +:+ e))
  end.

(** A call's wait ends with the transfer, or openraft drops it first. *)
Inductive Wait := Dropped | Ended (joined : result string (result RaftRpcError AppendResponse)).

(** A call with its wait; an entry-less one is sent inline. [inline] is what that send ends in. *)
Definition append_entries (now : N) (encode : AppendRequest -> result string bytes) (inline : result RaftRpcError AppendResponse)
    (task : nat) (wait : nat -> Wait) (rpc : AppendRequest) (p : PeerClient)
    : PeerClient * option AppendRequest * option (result RaftRpcError AppendResponse) :=
  match ar_entries rpc with
  | [] => (note_sent now (ar_vote rpc) p, None, Some inline)
  | _ =>
      match append_begin now encode task rpc p with
      | (p, Err e) => (p, None, Some (Err e))
      | (p, Ok spawned) =>
          match pc_inflight p with
          | None => (p, spawned, Some (Err (Unreachable "no in-flight append transfer to await")))
          | Some slot =>
              match wait (if_task slot) with
              | Dropped => (p, spawned, None)
              | Ended joined => (with_inflight None p, spawned, Some (append_finish rpc slot joined))
              end
          end
      end
  end.

(** ** The liveness ticker *)

Definition LIVENESS_TICK : N := 50.
Definition LIVENESS_PROBE_DEADLINE : N := 150.

(** The vote a tick speaks for: none unless the node leads and openraft has been silent for a tick. *)
Definition probe_due (leading : bool) (now : N) (l : PeerLiveness) : option Vote :=
  if negb leading then None
  else if match pl_last_sent l with None => true | Some t => (LIVENESS_TICK <=? now - t)%N end then pl_vote l else None.

Definition liveness_probe (vote : Vote) : AppendRequest :=
  {| ar_vote := vote; ar_prev_log_id := None; ar_entries := []; ar_leader_commit := None |}.

Inductive ProbeHeard := Nobody | Member | Another (actual : N).

(** One address of a round: how long its answer takes, and what it is. *)
Record Probed := { pb_takes : N; pb_outcome : result RpcError bytes }.

(** The addresses in turn until the member answers: who was heard, and when the round ends. *)
Fixpoint probe_addresses (now : N) (heard : ProbeHeard) (addrs : list Probed) : ProbeHeard * N :=
  match addrs with
  | [] => (heard, now)
  | a :: addrs =>
      if (LIVENESS_PROBE_DEADLINE <? pb_takes a)%N then probe_addresses (now + LIVENESS_PROBE_DEADLINE) heard addrs
      else match pb_outcome a with
           | Ok _ => (Member, now + pb_takes a)%N
           | Err (WrongNode _ actual) => probe_addresses (now + pb_takes a) (Another actual) addrs
           | Err _ => probe_addresses (now + pb_takes a) heard addrs
           end
  end.

(** What a tick meets; the addresses are those the peer resolves to at that moment. *)
Record Tick := { tk_leading : bool; tk_liveness : PeerLiveness; tk_addrs : result string (list Probed) }.

(** Ticks from the end of the last round on: the time of each, with the probe it sent. *)
Fixpoint ticker (now : N) (ticks : list Tick) : list (N * option AppendRequest) :=
  match ticks with
  | [] => []
  | t :: ticks =>
      let now := (now + LIVENESS_TICK)%N in
      match probe_due (tk_leading t) now (tk_liveness t), tk_addrs t with
      | Some vote, Ok addrs => (now, Some (liveness_probe vote)) :: ticker (probe_addresses now Nobody addrs).2 ticks
      | _, _ => (now, None) :: ticker now ticks
      end
  end.

(** Who answers at the member's address, as of the last round that reached anyone. *)
Definition answered_by (last : option N) (heard : ProbeHeard) : option N :=
  match heard with Nobody => last | Member => None | Another actual => Some actual end.

(** ** Snapshots: the offer and its fallback *)

Inductive StreamingError := Closed | StreamTimeout | StreamUnreachable (detail : string) | StreamNetwork (detail : string).

Definition CHUNK_ATTEMPTS : nat := 5.
Definition FALLBACK_CHUNK_BYTES : nat := N.to_nat (1024 * 1024).
Definition OFFER_INSTALL_ALLOWANCE : N := 30000.

Record InstallSnapshotRequest := { is_vote : Vote; is_meta : SnapshotMeta; is_offset : N; is_data : bytes; is_done : bool }.

(** How one send of a chunk ends: the receiver's vote, the deadline, an error, or the replication being closed. *)
Inductive ChunkSent := ChunkAnswered (vote : Vote) | ChunkElapsed | ChunkFailed (e : RaftRpcError) | ChunkClosed.

Definition RaftRpcError_display (e : RaftRpcError) : string :=
  match e with Unreachable d | Network d => d | PayloadTooLarge n => "payload too large: " +:+ pretty n end.

(** [more] are the attempts that may still follow. *)
Fixpoint send_chunk_with_retry (sent : nat -> ChunkSent) (attempt more : nat) : result StreamingError Vote :=
  match sent attempt with
  | ChunkAnswered vote => Ok vote
  | ChunkClosed => Err Closed
  | ChunkElapsed => match more with 0 => Err StreamTimeout | S more => send_chunk_with_retry sent (S attempt) more end
  | ChunkFailed e =>
      match more with
      | 0 => Err (match e with Unreachable d => StreamUnreachable d | e => StreamNetwork (RaftRpcError_display e) end)
      | S more => send_chunk_with_retry sent (S attempt) more
      end
  end.

Definition vote_ltb (a b : Vote) : bool :=
  (vote_term a <? vote_term b)%N
  || (vote_term a =? vote_term b)%N
     && ((vote_node a <? vote_node b)%N || (vote_node a =? vote_node b)%N && negb (vote_committed a) && vote_committed b).

(** The chunks of a payload from an offset on: the requests that were sent, and the outcome. [sent] is how the
    sends of the chunk at an offset end. The last chunk is shorter than the others, empty if need be. *)
Fixpoint send_chunks (sent : N -> nat -> ChunkSent) (vote : Vote) (meta : SnapshotMeta) (size : nat) (fuel : nat) (offset : N) (rest : bytes)
    : list InstallSnapshotRequest * option (result StreamingError Vote) :=
  match fuel with
  | 0 => ([], None)
  | S fuel =>
      let data := take size rest in
      let done_ := (length data <? size)%nat in
      let request := {| is_vote := vote; is_meta := meta; is_offset := offset; is_data := data; is_done := done_ |} in
      match send_chunk_with_retry (sent offset) 1 (pred CHUNK_ATTEMPTS) with
      | Err e => ([request], Some (Err e))
      | Ok answer =>
          if vote_ltb vote answer || done_ then ([request], Some (Ok answer))
          else let '(requests, outcome) := send_chunks sent vote meta size fuel (offset + N.of_nat (length data)) (drop size rest) in
               (request :: requests, outcome)
      end
  end.

(** [plain] is the payload as plain JSON, or why it could not be read. *)
Definition send_snapshot_in_chunks (sent : N -> nat -> ChunkSent) (vote : Vote) (meta : SnapshotMeta) (chunk_size : option nat) (plain : result string bytes)
    : list InstallSnapshotRequest * option (result StreamingError Vote) :=
  let size := match chunk_size with Some (S n) => S n | _ => FALLBACK_CHUNK_BYTES end in
  match plain with
  | Err e => ([], Some (Err (StreamNetwork ("reading snapshot " +:+ snapshot_id meta +:+ " to send it: " +:+ e))))
  | Ok payload => send_chunks sent vote meta size (S (length payload)) 0 payload
  end.

(** [plain_reader]: [unzstd] is the decoder, for a payload that begins with its magic. *)
Definition plain_reader (unzstd : bytes -> result string bytes) (payload : bytes) : result string bytes :=
  if bool_decide (take 4 payload = ZSTD_MAGIC) then unzstd payload else Ok payload.

Record SnapshotOffer := { of_vote : Vote; of_meta : SnapshotMeta; of_digest : string; of_size : N; of_from : string; of_leader : N }.

Definition make_offer (sha256 : bytes -> string) (vote : Vote) (meta : SnapshotMeta) (payload : bytes) (me : N) (advertise : string) : SnapshotOffer :=
  {| of_vote := vote; of_meta := meta; of_digest := sha256 payload; of_size := N.of_nat (length payload); of_from := advertise; of_leader := me |}.

(** How a snapshot reached its peer. *)
Inductive Transferred := Offered | Chunked (requests : list InstallSnapshotRequest).

(** [offered] is how the offer's post ends, [None] when the replication is closed first. *)
Definition full_snapshot (unzstd : bytes -> result string bytes) (decode : bytes -> result string Vote) (payload : result string bytes)
    (encoded : result string bytes) (offered : option (result SendFailure bytes)) (sent : N -> nat -> ChunkSent)
    (vote : Vote) (meta : SnapshotMeta) (chunk_size : option nat) : option Transferred * option (result StreamingError Vote) :=
  match payload with
  | Err e => (None, Some (Err (StreamNetwork ("reading snapshot " +:+ snapshot_id meta +:+ " to send it: " +:+ e))))
  | Ok payload =>
      match encoded with
      | Err e => (None, Some (Err (StreamNetwork e)))
      | Ok _ =>
          match offered with
          | None => (None, Some (Err Closed))
          | Some (Ok response) => (Some Offered, Some (match decode response with Ok v => Ok v | Err e => Err (StreamNetwork e) end))
          | Some (Err (SendFailed (Some (UnknownRoute _ _)) _)) =>
              let '(requests, outcome) := send_snapshot_in_chunks sent vote meta chunk_size (plain_reader unzstd payload) in
              (Some (Chunked requests), outcome)
          | Some (Err failure) =>
              (None, Some (Err (match into_rpc_error failure with
                                | Unreachable d => StreamUnreachable d
                                | Network d => StreamNetwork d
                                | e => StreamNetwork (RaftRpcError_display e)
                                end)))
          end
      end
  end.

(** The follower's side of an offer. [received] is what fetching and checking ended in, [opened] whether the file
    opens, [installed] openraft's answer. *)
Definition accept_offer (offer : SnapshotOffer) (received : result RpcError ()) (opened : result string ()) (installed : result string Vote)
    (encode : Vote -> result string bytes) : result RpcError bytes :=
  match received with
  | Err (BadRequest d) => Err (BadRequest d)
  | Err e =>
      Err (Handler ("fetching snapshot " +:+ snapshot_id (of_meta offer) +:+ " from node " +:+ pretty (of_leader offer) +:+ " at "
                    +:+ of_from offer +:+ ": " +:+ rpc_display e))
  | Ok _ =>
      match opened with
      | Err e => Err (Handler ("opening the received snapshot: " +:+ e))
      | Ok _ => match installed with
                | Err e => Err (Handler e)
                | Ok vote => match encode vote with Ok b => Ok b | Err e => Err (Handler ("encode: " +:+ e)) end
                end
      end
  end.

(** ** The receiving routes *)

Definition RAFT_APPEND_PATH : string := "/internal/v1/raft/append".
Definition RAFT_VOTE_PATH : string := "/internal/v1/raft/vote".
Definition RAFT_SNAPSHOT_PATH : string := "/internal/v1/raft/snapshot".
Definition RAFT_SNAPSHOT_OFFER_PATH : string := "/internal/v1/raft/snapshot/offer".
Definition RAFT_SNAPSHOT_FETCH_PREFIX : string := "/internal/v1/raft/snapshot/fetch/".
Definition CLUSTER_JOIN_PATH : string := "/internal/v1/cluster/join".
Definition CLUSTER_LEAVE_PATH : string := "/internal/v1/cluster/leave".
Definition CLUSTER_WRITE_PATH : string := "/internal/v1/cluster/write".
Definition CLUSTER_APPLIED_PATH : string := "/internal/v1/applied".
Definition CLUSTER_MEMBERSHIP_PATH : string := "/internal/v1/cluster/membership".
Definition CLUSTER_RETIRE_PATH : string := "/internal/v1/cluster/retire".

Inductive ControlHandler := HOffer | HWrite | HApplied | HAppend | HVote | HSnapshot | HJoin | HMembership | HRetire | HLeave.

(** The routes the control plane registers; the one stream serves snapshot payloads. *)
Definition control_routes {P} (r : Router ControlHandler P ()) : Router ControlHandler P () :=
  add_route "POST" CLUSTER_LEAVE_PATH HLeave
  (add_route "POST" CLUSTER_RETIRE_PATH HRetire
  (add_route "POST" CLUSTER_MEMBERSHIP_PATH HMembership
  (add_route "POST" CLUSTER_JOIN_PATH HJoin
  (add_route "POST" RAFT_SNAPSHOT_PATH HSnapshot
  (add_route "POST" RAFT_VOTE_PATH HVote
  (add_route "POST" RAFT_APPEND_PATH HAppend
  (add_route "POST" CLUSTER_APPLIED_PATH HApplied
  (add_route "POST" CLUSTER_WRITE_PATH HWrite
  (route_stream_prefix "GET" RAFT_SNAPSHOT_FETCH_PREFIX ()
  (add_route "POST" RAFT_SNAPSHOT_OFFER_PATH HOffer r)))))))))).

(** What a started node does for each route, on a body it could decode: openraft's answers, the membership's
    operations, and the offer's, each already encoded or refused. A body that does not decode is an error. *)
Record RaftOps := {
  ro_decode : ControlHandler -> bytes -> result string ();
  ro_append : bytes -> result string bytes;
  ro_vote : bytes -> result string bytes;
  ro_install : bytes -> result string bytes;
  ro_offer : bytes -> result RpcError bytes;
  ro_write : bytes -> result RpcError bytes;
  ro_join : bytes -> result RpcError bytes;
  ro_membership : result RpcError bytes;
  ro_retire : bytes -> result RpcError bytes;
  ro_leave : bytes -> result RpcError bytes;
  ro_applied : option N;
}.

Definition of_raft (r : result string bytes) : result RpcError bytes := match r with Ok b => Ok b | Err e => Err (Handler e) end.

Definition with_body (raft : RaftOps) (h : ControlHandler) (body : bytes) (run : result RpcError bytes) : result RpcError bytes :=
  match ro_decode raft h body with Err e => Err (Handler ("decode: " +:+ e)) | Ok _ => run end.

(** A request at a route. [slot] is the node, absent until its raft has started. *)
Definition control_handle (encode_applied : option N -> bool -> bytes) (slot : option RaftOps) (ready : bool) (h : ControlHandler) (body : bytes)
    : result RpcError bytes :=
  match slot with
  | None => match h with HApplied => Ok (encode_applied None false) | _ => Err (Handler "raft node not yet initialized") end
  | Some raft =>
      match h with
      | HApplied => Ok (encode_applied (ro_applied raft) ready)
      | HMembership => ro_membership raft
      | HAppend => with_body raft h body (of_raft (ro_append raft body))
      | HVote => with_body raft h body (of_raft (ro_vote raft body))
      | HSnapshot => with_body raft h body (of_raft (ro_install raft body))
      | HOffer => with_body raft h body (ro_offer raft body)
      | HWrite => with_body raft h body (ro_write raft body)
      | HJoin => with_body raft h body (ro_join raft body)
      | HRetire => with_body raft h body (ro_retire raft body)
      | HLeave => with_body raft h body (ro_leave raft body)
      end
  end.
