(* ===== verification/RaftNetFacts.v ===== *)
(** * Facts about the raft network

    An AppendEntries answer is never more than what a transfer carried and the follower took, and a
    re-send does not restart one; a leader is never silent for long and a node that does not lead
    is; a snapshot sent in chunks is the payload, once, in order. *)

From S2P Require Import Prelude Upstream Ring Auth Rpc FlowConfig Control Recorded StateMachine LogStore Snapshot Wire RaftNet.

(** ** AppendEntries *)

Section append.
(** The encoder, and each task's one outcome. *)
Context (encode : AppendRequest -> result string bytes) (outcome : nat -> result string (result RaftRpcError AppendResponse)).

(** A call: its request, the time, what an inline send would end in, and whether the wait is dropped. *)
Record Call := { cl_rpc : AppendRequest; cl_now : N; cl_inline : result RaftRpcError AppendResponse; cl_dropped : bool }.

(** The calls of a client in turn. Its state is the slot and the bodies of the transfers it has spawned. *)
Definition issue (c : Call) (s : PeerClient * list AppendRequest) : PeerClient * list AppendRequest * option (result RaftRpcError AppendResponse) :=
  let '(p, spawned, answer) :=
    append_entries (cl_now c) encode (cl_inline c) (length s.2) (fun task => if cl_dropped c then Dropped else Ended (outcome task)) (cl_rpc c) s.1 in
  (p, s.2 ++ option_list spawned, answer).

Fixpoint issue_all (calls : list Call) (s : PeerClient * list AppendRequest) : PeerClient * list AppendRequest :=
  match calls with [] => s | c :: calls => issue_all calls (issue c s).1 end.

(** The slot is that of the last transfer spawned. *)
Definition slot_ok (s : PeerClient * list AppendRequest) : Prop :=
  forall slot, pc_inflight s.1 = Some slot ->
    exists body, s.2 !! if_task slot = Some body /\ S (if_task slot) = length s.2
      /\ if_vote slot = ar_vote body /\ if_prev_log_id slot = ar_prev_log_id body /\ if_last_log_id slot = last_log_id (ar_entries body).

(** A transfer a call's answer may come from: on the same vote and predecessor, and carrying no more than was asked. *)
Definition carries (rpc body : AppendRequest) : Prop :=
  ar_vote body = ar_vote rpc /\ ar_prev_log_id body = ar_prev_log_id rpc
  /\ log_ltb (last_log_id (ar_entries rpc)) (last_log_id (ar_entries body)) = false.

Lemma log_ltb_irrefl a : log_ltb a a = false.
Proof. destruct a as [a|]; [|done]. cbn. unfold log_id_ltb. rewrite !N.ltb_irrefl, !andb_false_r. done. Qed.

Lemma log_ltb_total a b : log_ltb a b = false -> log_ltb b a = false -> a = b.
Proof.
  destruct a as [[t n i]|], b as [[t' n' i']|]; try done. cbn. unfold log_id_ltb. cbn.
  rewrite !orb_false_iff, !andb_false_iff, !orb_false_iff, !andb_false_iff, !N.ltb_ge, !N.eqb_neq. intros. f_equal. f_equal; lia.
Qed.

Lemma carries_self rpc : carries rpc rpc.
Proof. split_and!; [done..|apply log_ltb_irrefl]. Qed.

(** After the slot is settled: it is that of the last transfer, which fits the request. *)
Definition waits_on (rpc : AppendRequest) (s : PeerClient * list AppendRequest) : Prop :=
  slot_ok s /\ exists slot body, pc_inflight s.1 = Some slot /\ s.2 !! if_task slot = Some body /\ carries rpc body
    /\ if_last_log_id slot = last_log_id (ar_entries body).

Lemma spawn_waits now rpc p transfers :
  waits_on rpc (with_inflight (Some {| if_vote := ar_vote rpc; if_prev_log_id := ar_prev_log_id rpc;
    if_last_log_id := last_log_id (ar_entries rpc); if_task := length transfers |}) (note_sent now (ar_vote rpc) p), transfers ++ [rpc]).
Proof.
  assert (Hl : (transfers ++ [rpc]) !! length transfers = Some rpc) by (rewrite lookup_app_r, Nat.sub_diag by lia; done).
  split.
  - intros s [= <-]. exists rpc. cbn [snd if_task]. rewrite Hl, length_app. cbn. split_and!; try done. lia.
  - eexists _, rpc. split_and!; [done|exact Hl|apply carries_self..|done].
Qed.

Lemma begin_waits now rpc p spawned p' transfers :
  slot_ok (p, transfers) -> append_begin now encode (length transfers) rpc p = (p', Ok spawned) ->
  waits_on rpc (p', transfers ++ option_list spawned).
Proof.
  intros Hok. unfold append_begin. cbn [note_sent pc_inflight].
  assert (Hspawn : match encode rpc with
                   | Ok _ => waits_on rpc (with_inflight (Some {| if_vote := ar_vote rpc; if_prev_log_id := ar_prev_log_id rpc;
                               if_last_log_id := last_log_id (ar_entries rpc); if_task := length transfers |}) (note_sent now (ar_vote rpc) p), transfers ++ [rpc])
                   | Err _ => True end) by (destruct (encode rpc); [apply spawn_waits|done]).
  destruct (pc_inflight p) as [slot|] eqn:Hp; [destruct (attaches rpc slot) eqn:Hat|].
  - intros [= <- <-]. cbn [option_list]. rewrite app_nil_r. split; [intros s Hs; apply Hok; cbn in *; congruence|].
    destruct (Hok slot Hp) as (body & Hb & _ & Hv & Hprev & Hl). cbn [fst snd] in *.
    unfold attaches in Hat. rewrite !andb_true_iff, !bool_decide_eq_true, negb_true_iff, Hl in Hat. destruct Hat as [[? ?] ?].
    exists slot, body. unfold carries. split_and!; congruence || done.
  - destruct (encode rpc); [|done]. by intros [= <- <-].
  - destruct (encode rpc); [|done]. by intros [= <- <-].
Qed.

Lemma issue_slot_ok c s : slot_ok s -> slot_ok (issue c s).1.
Proof.
  destruct s as [p transfers]. intros Hok. unfold issue, append_entries. cbn [fst snd].
  destruct (ar_entries (cl_rpc c)); [cbn; rewrite app_nil_r; intros slot Hs; apply Hok, Hs|].
  destruct (append_begin _ _ _ _ _) as [p' [spawned|err]] eqn:Hb.
  - destruct (begin_waits _ _ _ _ _ _ Hok Hb) as [Hok' (slot & body & Hs & _)]. cbn in Hs. rewrite Hs.
    destruct (cl_dropped c); [exact Hok'|]. by intros ?.
  - cbn. rewrite app_nil_r. unfold append_begin in Hb. cbn in Hb. repeat case_match; simplify_eq; by intros ?.
Qed.

Lemma issue_all_slot_ok calls : forall s, slot_ok s -> slot_ok (issue_all calls s).
Proof. induction calls as [|c calls IH]; intros s Hok; [done|]. cbn. by apply IH, issue_slot_ok. Qed.

(** C20: an answer to AppendEntries never claims more than a transfer carried and the follower took. Through any calls
    of a client, dropped waits included, an answer to a request with entries comes from one
    transfer on the request's own vote and predecessor that carries no entry past the request's
    last; success is reported only when that transfer carried the last one, and a shorter one is
    reported as a partial success up to what it carried; and asking again after a dropped wait
    spawns no second transfer of the same entries. *)
Theorem append_honest calls c :
  ar_entries (cl_rpc c) <> [] ->
  let s := issue_all calls (peer_new, []) in
  let '(s', answer) := issue c s in
  match answer with
  | Some (Ok response) =>
      exists task body, s'.2 !! task = Some body /\ carries (cl_rpc c) body
        /\ (outcome task = Ok (Ok response) /\ (response = Success -> last_log_id (ar_entries body) = last_log_id (ar_entries (cl_rpc c)))
            \/ outcome task = Ok (Ok Success) /\ response = PartialSuccess (last_log_id (ar_entries body))
                /\ log_ltb (last_log_id (ar_entries body)) (last_log_id (ar_entries (cl_rpc c))) = true)
  | Some (Err _) => True
  | None => forall c', cl_rpc c' = cl_rpc c -> (issue c' s').1.2 = s'.2
  end.
Proof.
  intros Hne. cbv zeta. assert (Hok : slot_ok (issue_all calls (peer_new, []))) by (apply issue_all_slot_ok; by intros ?).
  destruct (issue_all calls (peer_new, [])) as [p transfers]. unfold issue at 1, append_entries. cbn [fst snd].
  destruct (ar_entries (cl_rpc c)) as [|en ens] eqn:Hen; [done|]. rewrite <- Hen in *. clear Hne.
  destruct (append_begin _ _ _ _ _) as [p' [spawned|e]] eqn:Hb; [|done].
  destruct (begin_waits _ _ _ _ _ _ Hok Hb) as [Hok' (slot & body & Hs & Hbody & Hc & Hl)]. cbn [fst snd] in *. rewrite Hs.
  destruct (cl_dropped c); cbn [fst snd].
  - intros c' Hc'. unfold issue, append_entries. cbn [fst snd]. rewrite Hc', Hen. unfold append_begin. cbn [note_sent pc_inflight]. rewrite Hs.
    assert (attaches (cl_rpc c) slot = true) as ->.
    { destruct (Hok' slot Hs) as (body' & Hb' & _ & Hv & Hp & _). cbn in Hb'. rewrite Hbody in Hb'. injection Hb' as <-. destruct Hc as (? & ? & Hlt).
      unfold attaches. rewrite Hl, Hlt, !bool_decide_eq_true_2 by congruence. done. }
    cbn [pc_inflight note_sent]. rewrite Hs. by destruct (cl_dropped c'); cbn; rewrite app_nil_r.
  - unfold append_finish. destruct (outcome (if_task slot)) as [[response|e]|e] eqn:Ho; [|done..].
    destruct response; [|exists (if_task slot), body; split_and!; try done; by left..].
    rewrite Hl. destruct (log_ltb (last_log_id (ar_entries body)) (last_log_id (ar_entries (cl_rpc c)))) eqn:Hlt.
    + exists (if_task slot), body. split_and!; try done; try apply Hc. by right.
    + exists (if_task slot), body. split_and!; try done; try apply Hc. left. split; [done|]. intros _. apply log_ltb_total; [done|apply Hc].
Qed.
End append.

(** ** The ticker *)

Lemma probe_addresses_end addrs : forall now heard,
  (now <= (probe_addresses now heard addrs).2 <= now + LIVENESS_PROBE_DEADLINE * N.of_nat (length addrs))%N.
Proof.
  unfold LIVENESS_PROBE_DEADLINE. induction addrs as [|a addrs IH]; intros now heard; cbn [probe_addresses length]; [cbn; lia|].
  unfold LIVENESS_PROBE_DEADLINE. destruct (N.ltb_spec 150 (pb_takes a)) as [|Ht].
  - specialize (IH (now + 150)%N heard). lia.
  - destruct (pb_outcome a) as [b|e]; [cbn; lia|].
    assert (forall heard, now <= (probe_addresses (now + pb_takes a) heard addrs).2 <= now + 150 * N.of_nat (S (length addrs)))%N as H.
    { intros heard'. specialize (IH (now + pb_takes a)%N heard'). lia. }
    by destruct e.
Qed.

(** Ticks at most [gap] after the one before, and at least one tick's time. *)
Fixpoint spaced (gap prev : N) (times : list N) : Prop :=
  match times with [] => True | now :: times => (prev + LIVENESS_TICK <= now <= prev + gap)%N /\ spaced gap now times end.

(** What one tick does for its peer. *)
Definition speaks (t : Tick) (out : N * option AppendRequest) : Prop :=
  (tk_leading t = false -> out.2 = None)
  /\ (forall body, out.2 = Some body -> ar_entries body = [] /\ ar_prev_log_id body = None /\ pl_vote (tk_liveness t) = Some (ar_vote body))
  /\ (tk_leading t = true -> is_Some (pl_vote (tk_liveness t)) -> (exists addrs, tk_addrs t = Ok addrs) ->
        is_Some out.2 \/ exists at_, pl_last_sent (tk_liveness t) = Some at_ /\ (out.1 < at_ + LIVENESS_TICK)%N).

Lemma tick_speaks t now :
  speaks t (now, match probe_due (tk_leading t) now (tk_liveness t), tk_addrs t with
                 | Some vote, Ok _ => Some (liveness_probe vote) | _, _ => None end).
Proof.
  unfold speaks, probe_due. destruct (tk_leading t); cbn [negb fst snd]; [|split_and!; done].
  destruct (pl_last_sent (tk_liveness t)) as [at_|]; [destruct (N.leb_spec LIVENESS_TICK (now - at_)) as [|Hq]|];
    destruct (pl_vote (tk_liveness t)) as [v|] eqn:Hv, (tk_addrs t) as [addrs|e]; split_and!; try done;
    try (by intros body [= <-]); try (by intros _ [? ?]); try (by intros _ _ [? ?]); try (intros _ _ _; by left).
  all: intros _ _ _; right; exists at_; split; [done|]; unfold LIVENESS_TICK in *; lia.
Qed.


(** ** Chunks *)

(** Requests that carry consecutive parts from an offset on. *)
Fixpoint consecutive (offset : N) (requests : list InstallSnapshotRequest) : Prop :=
  match requests with
  | [] => True
  | r :: requests => is_offset r = offset /\ consecutive (offset + N.of_nat (length (is_data r))) requests
  end.

Lemma send_chunks_spec sent vote meta size fuel : forall offset rest, 0 < size -> length rest < fuel ->
  let '(requests, outcome) := send_chunks sent vote meta size fuel offset rest in
  exists r, outcome = Some r /\ consecutive offset requests /\ Forall (fun q => length (is_data q) <= size) requests
    /\ (exists unsent, concat (is_data <$> requests) ++ unsent = rest
          /\ (forall answer, r = Ok answer -> vote_ltb vote answer = false -> unsent = [] /\ (is_done <$> last requests) = Some true)).
Proof.
  induction fuel as [|fuel IH]; intros offset rest Hs Hf; [lia|]. cbn [send_chunks].
  assert (Hlen : length (take size rest) <= size) by (rewrite length_take; lia).
  assert (Hone : concat [take size rest] ++ drop size rest = rest) by (cbn; rewrite app_nil_r; apply take_drop).
  destruct (send_chunk_with_retry _ _ _) as [answer|e].
  2: { exists (Err e). split_and!; try done; [by constructor|]. exists (drop size rest). split; [exact Hone|done]. }
  destruct (vote_ltb vote answer) eqn:Hv; cbn [orb].
  { exists (Ok answer). split_and!; try done; [by constructor|]. exists (drop size rest). split; [exact Hone|]. intros a [= <-]. congruence. }
  destruct (Nat.ltb_spec (length (take size rest)) size) as [Hd|Hd].
  { exists (Ok answer). split_and!; try done; [by constructor|]. exists []. rewrite length_take in Hd.
    rewrite take_ge by lia. cbn. rewrite !app_nil_r. split; [done|]. intros; split; [done|]. cbn. by destruct (Nat.ltb_spec (length rest) size); [|lia]. }
  rewrite length_take in Hd. specialize (IH (offset + N.of_nat (length (take size rest)))%N (drop size rest) Hs). rewrite length_drop in IH.
  destruct (send_chunks _ _ _ _ _ _ _) as [requests outcome]. destruct IH as (r & -> & Hc & Hl & unsent & Hu & Hr); [lia|].
  exists r. split_and!; try done; [by constructor|]. exists unsent. split; [cbn; by rewrite <- app_assoc, Hu, take_drop|].
  intros a Ha Hva. destruct (Hr a Ha Hva) as [-> Hlast]. split; [done|]. by destruct requests.
Qed.

(** A snapshot sent in chunks is the payload, once and in order: whatever the attempts meet, the transfer ends; the
    requests carry consecutive parts from the start, none longer than the chunk size, whose text
    is a prefix of the payload; and when it succeeds on the sender's own vote the parts are the
    whole payload and the last is marked as the end. *)
Theorem chunks_exact sent vote meta chunk_size payload :
  let '(requests, outcome) := send_snapshot_in_chunks sent vote meta chunk_size (Ok payload) in
  exists r, outcome = Some r /\ consecutive 0 requests
    /\ Forall (fun q => length (is_data q) <= match chunk_size with Some (S n) => S n | _ => FALLBACK_CHUNK_BYTES end) requests
    /\ (exists unsent, concat (is_data <$> requests) ++ unsent = payload
          /\ (forall answer, r = Ok answer -> vote_ltb vote answer = false -> unsent = [] /\ (is_done <$> last requests) = Some true)).
Proof.
  unfold send_snapshot_in_chunks. apply send_chunks_spec; [|lia]. assert (0 < FALLBACK_CHUNK_BYTES) by (unfold FALLBACK_CHUNK_BYTES; lia). by destruct chunk_size as [[|n]|]; try lia.
Qed.

(** ** Routes *)

(** Every route is found under its own path and method. *)
Lemma control_routes_found {P} : Forall (fun '(path, h) => router_lookup (control_routes (P := P) Router_new) "POST" path = Some h)
  [(RAFT_SNAPSHOT_OFFER_PATH, HOffer); (CLUSTER_WRITE_PATH, HWrite); (CLUSTER_APPLIED_PATH, HApplied); (RAFT_APPEND_PATH, HAppend);
   (RAFT_VOTE_PATH, HVote); (RAFT_SNAPSHOT_PATH, HSnapshot); (CLUSTER_JOIN_PATH, HJoin); (CLUSTER_MEMBERSHIP_PATH, HMembership);
   (CLUSTER_RETIRE_PATH, HRetire); (CLUSTER_LEAVE_PATH, HLeave)].
Proof. repeat constructor. Qed.

(** A fetch that met an old build at the leader's address is not read as this follower lacking the offer route. *)
Lemma offer_failure_is_a_handler_error offer e opened installed encode r :
  accept_offer offer (Err e) opened installed encode = Err r -> (forall m p, r <> UnknownRoute m p).
Proof. by destruct e; intros [= <-]. Qed.

(** ** Witnesses *)

Definition leader_vote : Vote := {| vote_term := 2; vote_node := 1; vote_committed := true |}.
Definition blank_at (i : N) : Entry := {| e_log_id := {| lid_term := 2; lid_node := 1; lid_index := i |}; e_payload := Blank |}.
Definition append_of (entries : list Entry) : AppendRequest :=
  {| ar_vote := leader_vote; ar_prev_log_id := None; ar_entries := entries; ar_leader_commit := None |}.
Definition call_of (entries : list Entry) (dropped : bool) : Call :=
  {| cl_rpc := append_of entries; cl_now := 0; cl_inline := Ok Success; cl_dropped := dropped |}.

(** A dropped wait, and a re-send of more that attaches to the transfer under way. *)
Lemma append_honest_witness : exists task body,
  (issue (fun _ => Ok []) (fun _ => Ok (Ok Success)) (call_of [blank_at 1; blank_at 2] false)
     (issue_all (fun _ => Ok []) (fun _ => Ok (Ok Success)) [call_of [blank_at 1] true] (peer_new, []))).1.2 !! task = Some body
  /\ carries (append_of [blank_at 1; blank_at 2]) body.
Proof.
  pose proof (append_honest (fun _ => Ok []) (fun _ => Ok (Ok Success)) [call_of [blank_at 1] true] (call_of [blank_at 1; blank_at 2] false)
    ltac:(discriminate)) as H.
  cbv zeta in H. destruct (issue _ _ _ _) as [s' answer] eqn:Hi. pose proof Hi as Ha. vm_compute in Ha. injection Ha as _ Ha. subst answer.
  destruct H as (task & body & Hb & Hc & _). exists task, body. split; [exact Hb|exact Hc].
Defined.

Definition held_reply : Tick := {|
  tk_leading := true; tk_liveness := {| pl_vote := Some leader_vote; pl_last_sent := Some 0%N |};
  tk_addrs := Ok [{| pb_takes := 900; pb_outcome := Err RpcTimeout |}] |}.

