(* ===== verification/RaftNode.v ===== *)
(** * The raft node: [raft/node.rs]

    What a node reads off openraft's metrics, the calls it makes to members and to seeds, its
    writes, the hold on elections after a restart, and its start and its shutdown. openraft, the
    transport, name resolution and clocks are inputs. Times are milliseconds. *)

From S2P Require Import Prelude Upstream Json Spec Ring Node Auth Rpc FlowConfig Control Recorded StateMachine LogStore Wire Members Intents Barrier Operator Startup RaftNet.

(** ** The metrics *)

Record Metrics := {
  me_leads : bool;
  me_current_leader : option NodeId;
  me_vote : Vote;
  me_last_log_index : option N;
  me_last_applied : option LogId;
  me_membership_log_id : option LogId;
  me_voters : list NodeId;
  me_nodes : list (NodeId * string);
  me_millis_since_quorum_ack : option N;
}.

Definition status (id : NodeId) (m : Metrics) : StatusReport :=
  {| st_node_id := id;
     st_is_leader := me_leads m;
     st_current_leader := me_current_leader m;
     st_last_applied := lid_index <$> me_last_applied m;
     st_voters := me_voters m;
     st_learners := filter (fun n => n ∉ me_voters m) (me_nodes m).*1;
     st_isolated := isolated_from id (me_current_leader m) (me_millis_since_quorum_ack m) |}.

Definition node_ring (m : Metrics) : Ring :=
  Ring_new (me_voters m) (match me_membership_log_id m with Some log_id => lid_index log_id | None => 0%N end).

Definition is_isolated (id : NodeId) (m : Metrics) : bool :=
  isolated_from id (me_current_leader m) (me_millis_since_quorum_ack m).

Definition member_authority (m : Metrics) (id : NodeId) : option string :=
  snd <$> List.find (fun node => (node.1 =? id)%N) (me_nodes m).

Definition leader_authority (m : Metrics) : option string :=
  leader_id ← me_current_leader m; member_authority m leader_id.

Definition known_peers (id : NodeId) (m : Metrics) : list string :=
  (filter (fun node => node.1 <> id) (me_nodes m)).*2.

(** ** Calls *)

Section Calls.
  Context (resolve : string -> result string (list string)) (call : string -> string -> string -> bytes -> result RpcError bytes).

Definition call_any_typed (authority method path : string) (body : bytes) : result RpcError bytes :=
  match resolve authority with
  | Err e => Err (Transport ("resolve " +:+ authority +:+ ": " +:+ e))
  | Ok addrs =>
      match sweep_addresses (fun peer => call peer method path body) addrs NoAddresses with
      | Ok reply => Ok reply
      | Err failure => Err (into_typed failure authority)
      end
  end.

Definition call_any (authority method path : string) (body : bytes) : result string bytes :=
  match resolve authority with
  | Err e => Err ("resolve " +:+ authority +:+ ": " +:+ e)
  | Ok addrs =>
      match sweep_addresses (fun peer => call peer method path body) addrs NoAddresses with
      | Ok reply => Ok reply
      | Err failure => Err (describe failure authority)
      end
  end.

Definition call_member (m : Metrics) (id : NodeId) (method path : string) (body : bytes) : result string bytes :=
  match member_authority m id with
  | None => Err ("node " +:+ pretty id +:+ " is not in the applied membership")
  | Some authority => call_any authority method (addressed path id) body
  end.

Definition call_member_typed (m : Metrics) (id : NodeId) (method path : string) (body : bytes) : result RpcError bytes :=
  match member_authority m id with
  | None => Err (Unavailable ("node " +:+ pretty id +:+ " is not in the applied membership") None)
  | Some authority => call_any_typed authority method (addressed path id) body
  end.

(** [later] is what the second read of the metrics shows, [decode] the reply as serde reads it. *)
Definition leader_applied (decode : bytes -> result string AppliedReply) (id : NodeId) (m later : Metrics) : option N :=
  leader_id ← me_current_leader m;
  addr ← member_authority m leader_id;
  if (leader_id =? id)%N then lid_index <$> me_last_applied later
  else match call_any addr "POST" (addressed CLUSTER_APPLIED_PATH leader_id) [] with
       | Err _ => None
       | Ok reply => match decode reply with Ok reply => ap_applied reply | Err _ => None end
       end.

End Calls.

(** ** Joining *)

Record JoinAccepted := { ja_admitted : bool; ja_role : option AdmittedRole; ja_catching_up : bool }.

Inductive JoinedAs := JoinedLearner | JoinedVoter | JoinedUnknown.

Record JoinOutcome := { jo_role : JoinedAs; jo_catching_up : bool }.

(** [send i target] is the [i]-th send. *)
Definition chase_join {T} (seed : string) (max_attempts : nat) (send : nat -> string -> result RpcError T) : result NodeError T :=
  match chase_leader send 0 max_attempts seed with
  | Ok value => Ok value
  | Err (Stopped target error) => Err (NodeMembership (target +:+ ": " +:+ rpc_display error))
  | Err (GaveUp last) =>
      Err (NodeMembership ("gave up after " +:+ pretty max_attempts +:+ " attempts while joining via " +:+ seed
                           +:+ " (last redirected to " +:+ last +:+ ")"))
  end.

(** [body] is the request encoded; [call i] the transport at the [i]-th send. *)
Definition join_via (resolve : nat -> string -> result string (list string))
    (call : nat -> string -> string -> string -> bytes -> result RpcError bytes)
    (decode : bytes -> result string JoinAccepted) (body : result string bytes) (seed : string) : result NodeError JoinOutcome :=
  match body with
  | Err e => Err (NodeMembership e)
  | Ok body =>
      match chase_join seed FORWARD_ATTEMPTS (fun i target =>
              match call_any_typed (resolve i) (call i) target "POST" CLUSTER_JOIN_PATH body with
              | Err e => Err e
              | Ok reply => match decode reply with Ok accepted => Ok accepted | Err e => Err (Handler ("decode join reply: " +:+ e)) end
              end) with
      | Err e => Err e
      | Ok accepted =>
          if negb (ja_admitted accepted) then Err (NodeMembership ("seed " +:+ seed +:+ " answered the join without admitting this node"))
          else Ok {| jo_role := match ja_role accepted with
                                | Some Voter => JoinedVoter
                                | Some Learner => JoinedLearner
                                | None => JoinedUnknown
                                end;
                     jo_catching_up := ja_catching_up accepted |}
      end
  end.

(** ** Writes *)

(** What openraft's [client_write] ends in. *)
Inductive ClientWrite :=
  | Committed (response : ControlResponse)
  | ForwardToLeader (leader_id : option NodeId) (leader_node : option string)
  | ClientWriteFailed (e : string).

Definition map_write_err (w : ClientWrite) : result NodeError ControlResponse :=
  match w with
  | Committed response => Ok response
  | ForwardToLeader leader_id _ => Err (NodeNotLeader leader_id)
  | ClientWriteFailed e => Err (NodeWrite e)
  end.

Definition node_write (written : ControlRequest -> option N) (client_write : ControlRequest -> ClientWrite) (request : ControlRequest)
    : result NodeError ControlResponse :=
  match admit_entry_size written request with
  | Err e => Err (NodeEntryTooLarge e)
  | Ok _ => map_write_err (client_write request)
  end.

Definition local_write (written : ControlRequest -> option N) (client_write : ControlRequest -> ClientWrite) (request : ControlRequest)
    : result RpcError WriteReply :=
  match admit_entry_size written request with
  | Err e => Err (BodyTooLarge (et_limit e))
  | Ok _ =>
      match client_write request with
      | Committed response => Ok (Done response)
      | ForwardToLeader _ leader_node => Ok (ForwardTo leader_node)
      | ClientWriteFailed e => Err (Handler e)
      end
  end.

(** [epoch_secs] is the clock, when it is past the epoch. *)
Definition node_put_imposter (written : ControlRequest -> option N) (client_write : ControlRequest -> ClientWrite) (uuid : string)
    (epoch_secs : option N) (config : ImposterConfig) : result NodeError ControlResponse :=
  node_write written client_write
    {| op_id := uuid; principal := None; issued_at_secs := default 0%N epoch_secs; expected_revision := None; expect_absent := false;
       op := PutImposter config None |}.

(** ** Waits *)

(** What openraft's own wait ends in. *)
Inductive Waited := WaitMet | WaitTimeout | WaitShuttingDown.

Definition await_local_applied (w : Waited) : bool := match w with WaitMet => true | _ => false end.

Definition await_leader (w : Waited) : LeaderWait :=
  match w with WaitMet => Elected | WaitTimeout => LeaderTimeout | WaitShuttingDown => ShuttingDown end.

(** One turn of the watch: the time it ends, and the metrics then, if the sender is still there. *)
Record Turn := { tu_at : N; tu_metrics : option Metrics }.

(** The turns end when the time is up: [leads_then] is what the metrics show then. *)
Fixpoint await_leadership_change (was_leader : bool) (deadline now : N) (leads : bool) (turns : list Turn) (leads_then : bool) : bool :=
  if negb (Bool.eqb leads was_leader) then leads
  else if (deadline <=? now)%N then leads
  else match turns with
       | [] => leads_then
       | turn :: rest =>
           match tu_metrics turn with
           | None => leads_then
           | Some m => await_leadership_change was_leader deadline (tu_at turn) (me_leads m) rest leads_then
           end
       end.

(** ** The hold on elections after a restart *)

Definition RESTART_ELECTION_GRACE : N := 3000.

Definition index_ltb (a b : option N) : bool :=
  match a, b with None, Some _ => true | Some a, Some b => (a <? b)%N | _, None => false end.

Definition heard (init m : Metrics) : bool :=
  bool_decide (length (me_voters m) = 1) || negb (bool_decide (me_vote m = me_vote init))
  || index_ltb (me_last_log_index init) (me_last_log_index m) || log_ltb (me_last_applied init) (me_last_applied m).

(** When the grace is released, from the turns the watch takes after the hold began at time zero. *)
Fixpoint grace_over_at (init : Metrics) (turns : list Turn) : N :=
  match turns with
  | [] => RESTART_ELECTION_GRACE
  | turn :: rest =>
      if (RESTART_ELECTION_GRACE <? tu_at turn)%N then RESTART_ELECTION_GRACE
      else match tu_metrics turn with
           | None => tu_at turn
           | Some m => if heard init m then tu_at turn else grace_over_at init rest
           end
  end.

(** What the node does at once, and when the grace is released: never begun without a state to resume. *)
Definition hold_elections_until_leader_heard (is_initialized : result string bool) (init : Metrics) (turns : list Turn)
    : result NodeError (list HoldOp * option N) :=
  match is_initialized with
  | Err e => Err (NodeRuntime e)
  | Ok false => Ok ([], None)
  | Ok true => Ok (begin_grace, Some (if bool_decide (length (me_voters init) = 1) then 0%N else grace_over_at init turns))
  end.

(** ** Starting *)

Definition ELECTION_TIMEOUT_MIN_MS : N := 150.
Definition ELECTION_TIMEOUT_MAX_MS : N := 300.
Definition HEARTBEAT_INTERVAL_MS : N := 50.

(** What the node sets of openraft's configuration; [None] is openraft's own default. *)
Record RaftConfig := {
  rc_cluster_name : string;
  rc_election_timeout_min : N;
  rc_election_timeout_max : N;
  rc_heartbeat_interval : N;
  rc_install_snapshot_timeout : N;
  rc_snapshot_max_chunk_size : N;
  rc_logs_since_last : option N;
  rc_max_in_snapshot_log_to_keep : option N;
}.

Definition raft_config (validate : RaftConfig -> result string RaftConfig) (snapshot_log_entries : option N) : result NodeError RaftConfig :=
  let config :=
    {| rc_cluster_name := "rift-control-plane";
       rc_election_timeout_min := ELECTION_TIMEOUT_MIN_MS;
       rc_election_timeout_max := ELECTION_TIMEOUT_MAX_MS;
       rc_heartbeat_interval := HEARTBEAT_INTERVAL_MS;
       rc_install_snapshot_timeout := 10000;
       rc_snapshot_max_chunk_size := 1024 * 1024;
       rc_logs_since_last := snapshot_log_entries;
       rc_max_in_snapshot_log_to_keep := match snapshot_log_entries with Some _ => Some 0%N | None => None end |} in
  match validate config with Ok config => Ok config | Err e => Err (NodeInit e) end.

(** The parts of the configuration a start branches on. *)
Record NodeConfig := {
  nc_node_id : NodeId;
  nc_advertise : option string;
  nc_secret : option string;
  nc_engine : bool;
  nc_snapshot_log_entries : option N;
}.

(** What a start meets. *)
Record NodeStartEnv := {
  ns_store : result string ();
  ns_validate : RaftConfig -> result string RaftConfig;
  ns_bind : result string ();
  ns_local_addr : result string string;
  ns_raft_new : result string ();
  ns_slot_set : bool;
  ns_initialized : result string bool;
  ns_init : Metrics;
  ns_turns : list Turn;
}.

Inductive NodeStep :=
  | OpenStore | AttachEngine | AttachRoutes | AttachSequencing | AttachFlowNet
  | WarnUnauthenticated | BindPort (authenticated : bool) | RaftNew (advertise : string) | FillSlot
  | HoldGrace (ops : list HoldOp) | SpawnPromotion | ServePort.

Record NodeUp := { nu_id : NodeId; nu_advertise : string; nu_grace_over_at : option N }.

Definition opt_step (b : bool) (s : NodeStep) : list NodeStep := if b then [s] else [].

(** [routes], [sequencing] and [flow_net] are whether the handle is given. *)
Definition start_inner (env : NodeStartEnv) (c : NodeConfig) (routes sequencing flow_net : bool) : list NodeStep * result NodeError NodeUp :=
  match ns_store env with
  | Err e => ([], Err (NodeStorage e))
  | Ok _ =>
      let signed := match nc_secret c with Some _ => true | None => false end in
      let acts := [OpenStore] ++ opt_step (nc_engine c) AttachEngine ++ opt_step routes AttachRoutes
                  ++ opt_step sequencing AttachSequencing ++ opt_step flow_net AttachFlowNet ++ opt_step (negb signed) WarnUnauthenticated in
      match raft_config (ns_validate env) (nc_snapshot_log_entries c) with
      | Err e => (acts, Err e)
      | Ok _ =>
          match ns_bind env with
          | Err e => (acts, Err (NodeBind e))
          | Ok _ =>
              let acts := acts ++ [BindPort signed] in
              match ns_local_addr env with
              | Err e => (acts, Err (NodeBind e))
              | Ok local =>
                  let advertise := default local (nc_advertise c) in
                  match ns_raft_new env with
                  | Err e => (acts, Err (NodeRuntime e))
                  | Ok _ =>
                      let acts := acts ++ [RaftNew advertise] in
                      if negb (ns_slot_set env) then (acts, Err (NodeRuntime "raft slot already set"))
                      else
                        let acts := acts ++ [FillSlot] in
                        match hold_elections_until_leader_heard (ns_initialized env) (ns_init env) (ns_turns env) with
                        | Err e => (acts, Err e)
                        | Ok (ops, over_at) =>
                            (acts ++ [HoldGrace ops; SpawnPromotion; ServePort],
                             Ok {| nu_id := nc_node_id c; nu_advertise := advertise; nu_grace_over_at := over_at |})
                        end
                  end
              end
          end
      end
  end.

(** The leading probe the tickers consult: the slot, once it is filled and while the node is there. *)
Definition leading_probe (slot : option (option Metrics)) : bool :=
  match slot with Some (Some m) => me_leads m | _ => false end.

(** Whether a tick of the promotion loop sweeps; [None] ends the loop. *)
Definition promotion_tick (slot : option (option Metrics)) : option bool :=
  match slot with None => None | Some None => Some false | Some (Some m) => Some (me_leads m) end.

(** What openraft's [initialize] ends in. *)
Inductive Initialized := InitDone | InitNotAllowed | InitFailed (e : string).

Definition map_init_err (i : Initialized) : result NodeError () :=
  match i with InitDone => Ok () | InitNotAllowed => Err NodeAlreadyInitialized | InitFailed e => Err (NodeInit e) end.

Definition cluster_init (initialize : list (NodeId * string) -> Initialized) (await_leads : result string ()) (id : NodeId) (advertise : string)
    : result NodeError () :=
  match map_init_err (initialize [(id, advertise)]) with
  | Err e => Err e
  | Ok _ => match await_leads with Ok _ => Ok () | Err e => Err (NodeTimeout "leadership after cluster-init" e) end
  end.

Definition MEMBERSHIP_POLL_INTERVAL : N := 10.

Definition membership_is_loaded (m : Metrics) : bool := match me_nodes m with [] => false | _ => true end.

(** [poll i] is the [i]-th reading, of the clock and of the metrics; [None] when the fuel is out. *)
Fixpoint await_membership_loaded (fuel : nat) (poll : nat -> N * Metrics) (i : nat) (deadline : N) : option bool :=
  match fuel with
  | O => None
  | S fuel =>
      if membership_is_loaded (poll i).2 then Some true
      else if (deadline <=? (poll i).1)%N then Some false
      else await_membership_loaded fuel poll (S i) deadline
  end.

(** ** Shutting down *)

Definition STORAGE_RELEASE_TIMEOUT : N := 2000.
Definition NODE_HELD_DB_REFS : N := 1.

(** [poll i] is the clock and the handles alive at the [i]-th reading, [then_] the handles when the error is written. *)
Fixpoint await_storage_release (fuel : nat) (poll : nat -> N * N) (then_ : N) (i : nat) (deadline : N) : option (result NodeError ()) :=
  match fuel with
  | O => None
  | S fuel =>
      if (NODE_HELD_DB_REFS <? (poll i).2)%N then
        if (deadline <=? (poll i).1)%N then
          Some (Err (NodeRuntime ("raft core did not release storage within 2s (" +:+ pretty then_ +:+ " database handles still live)")))
        else await_storage_release fuel poll then_ (S i) deadline
      else Some (Ok ())
  end.

Inductive DownStep := MarkInvoked | StopCore | AbortServer.

(** [core] is how the core stopped; the accept loop is aborted and waited for whatever that was. *)
Definition node_shutdown (fuel : nat) (core : result string ()) (poll : nat -> N * N) (then_ started : N)
    : list DownStep * option (result NodeError ()) :=
  ([MarkInvoked; StopCore; AbortServer],
   match await_storage_release fuel poll then_ 0 (started + STORAGE_RELEASE_TIMEOUT)%N with
   | None => None
   | Some released => Some (match core with Ok _ => released | Err e => Err (NodeRuntime e) end)
   end).

(** [Drop]: whether it warns. *)
Definition node_drop (shutdown_invoked : bool) : list DownStep * bool := ([AbortServer], negb shutdown_invoked).
