(* ===== verification/RaftNodeFacts.v ===== *)
(** * The raft node: what its reads, waits and ends promise

    A restarted member campaigns early only on word from the wire, a join succeeds only when a
    leader admitted the node, the two write paths read openraft's answers alike, what a node
    reports of itself agrees with what it enforces, and a shutdown ends. *)

From S2P Require Import Prelude Upstream Json Spec Ring Node Auth Rpc FlowConfig Control Recorded StateMachine LogStore Wire Members MembersFacts Intents Barrier Operator Startup RaftNet RaftNode.

(** ** The restart grace *)

(** A turn that says nothing but what the node may have remembered. *)
Definition only_memory (init : Metrics) (turn : Turn) : Prop :=
  exists m, tu_metrics turn = Some m /\ length (me_voters m) <> 1 /\ me_vote m = me_vote init /\
    index_ltb (me_last_log_index init) (me_last_log_index m) = false /\ log_ltb (me_last_applied init) (me_last_applied m) = false.

Lemma heard_spec init m : heard init m = false <->
  length (me_voters m) <> 1 /\ me_vote m = me_vote init /\
  index_ltb (me_last_log_index init) (me_last_log_index m) = false /\ log_ltb (me_last_applied init) (me_last_applied m) = false.
Proof.
  unfold heard. rewrite !orb_false_iff, bool_decide_eq_false, negb_false_iff, bool_decide_eq_true. naive_solver.
Qed.

Lemma grace_over_at_spec init turns :
  (grace_over_at init turns <= RESTART_ELECTION_GRACE)%N /\
  ((grace_over_at init turns < RESTART_ELECTION_GRACE)%N ->
   exists before turn after, turns = before ++ turn :: after /\ Forall (only_memory init) before /\
     ~ only_memory init turn /\ tu_at turn = grace_over_at init turns).
Proof.
  induction turns as [|turn rest [IHle IH]]; cbn [grace_over_at]; [split; lia|].
  destruct (N.ltb_spec RESTART_ELECTION_GRACE (tu_at turn)); [split; lia|].
  destruct (tu_metrics turn) as [m|] eqn:Hm.
  2: { split; [lia|]. intros _. exists [], turn, rest. unfold only_memory. rewrite Hm. naive_solver. }
  destruct (heard init m) eqn:Hh.
  - split; [lia|]. intros _. exists [], turn, rest. repeat split; [constructor|].
    intros (m' & Hm' & H'). rewrite Hm in Hm'. simplify_eq. apply heard_spec in H'. congruence.
  - split; [done|]. intros (before & t & after & -> & Hb & Ht & <-)%IH.
    exists (turn :: before), t, after. repeat split; try done. constructor; [|done].
    exists m. split; [done|]. by apply heard_spec.
Qed.

(** A restarted member of a fleet of several voters does not campaign before the grace is over
    unless word came from the wire after the hold began (or the core is gone): turns that show only
    what the node may have remembered, whoever they name as the leader, release nothing. The grace
    itself is never exceeded, and a node with no state to resume is not held. *)
Theorem restart_grace initialized init turns ops over :
  hold_elections_until_leader_heard initialized init turns = Ok (ops, over) ->
  match over with
  | None => initialized = Ok false /\ ops = []
  | Some t =>
      initialized = Ok true /\ ops = begin_grace /\ (t <= RESTART_ELECTION_GRACE)%N /\
      ((t < RESTART_ELECTION_GRACE)%N -> length (me_voters init) = 1 \/
       exists before turn after, turns = before ++ turn :: after /\ Forall (only_memory init) before /\
         ~ only_memory init turn /\ tu_at turn = t)
  end.
Proof.
  unfold hold_elections_until_leader_heard. intros H. destruct initialized as [[]|]; simplify_eq; [|done].
  pose proof (grace_over_at_spec init turns) as [Hle Hlt].
  case_bool_decide; repeat split; auto. lia.
Qed.

(** ** Reports *)

(** What the report says of isolation is what the write path enforces; every node of the membership
    is a voter or a learner of the report, and none is both. *)
Theorem status_consistent id m :
  st_isolated (status id m) = is_isolated id m /\
  (forall n, n ∈ (me_nodes m).*1 <-> (n ∈ (me_nodes m).*1 /\ n ∈ st_voters (status id m)) \/ n ∈ st_learners (status id m)) /\
  (forall n, n ∈ st_voters (status id m) -> n ∉ st_learners (status id m)) /\
  (forall n, n ∈ members (node_ring m) <-> n ∈ st_voters (status id m)).
Proof.
  cbn [status st_isolated st_voters st_learners]. split; [done|]. setoid_rewrite list_elem_of_filter. repeat split.
  - destruct (decide (n ∈ me_voters m)); naive_solver.
  - naive_solver.
  - naive_solver.
  - by apply members_spec.
  - by apply members_spec.
Qed.

(** ** Joining *)

(** A join succeeds only if one of at most three sends, the seed's or one a redirect named, was
    answered by an admission, whose role and state are what is reported. *)
Theorem join_admitted resolve call decode body seed o :
  join_via resolve call decode body seed = Ok o ->
  exists b n target reply accepted, body = Ok b /\ n < FORWARD_ATTEMPTS /\
    call_any_typed (resolve n) (call n) target "POST" CLUSTER_JOIN_PATH b = Ok reply /\
    decode reply = Ok accepted /\ ja_admitted accepted = true /\ jo_catching_up o = ja_catching_up accepted /\
    (jo_role o = JoinedVoter <-> ja_role accepted = Some Voter) /\ (jo_role o = JoinedLearner <-> ja_role accepted = Some Learner).
Proof.
  unfold join_via, chase_join. destruct body as [b|]; [|done].
  match goal with |- context [chase_leader ?send 0 FORWARD_ATTEMPTS seed] => pose proof (chase_leader_spec send FORWARD_ATTEMPTS seed) as Hc end.
  destruct (chase_leader _ 0 FORWARD_ATTEMPTS seed) as [a|[]]; [|done..].
  destruct Hc as (n & t & Hn & _ & Hs).
  destruct (call_any_typed _ _ t _ _ b) as [reply|] eqn:Hr; [|done].
  destruct (decode reply) as [a'|] eqn:Hd; simplify_eq.
  destruct (ja_admitted a) eqn:Ha; cbn [negb]; [|done]. intros [= <-].
  exists b, n, t, reply, a. repeat split; try done; cbn; by destruct (ja_role a) as [[]|].
Qed.

(** ** Writes *)

(** The write of the node and the one its route runs read openraft alike: both commit, both are
    told to go elsewhere, or both fail; and an entry over the bound is proposed by neither. *)
Theorem writes_agree written client_write request :
  (forall response, node_write written client_write request = Ok response <-> local_write written client_write request = Ok (Done response)) /\
  ((exists leader, node_write written client_write request = Err (NodeNotLeader leader)) <->
   (exists addr, local_write written client_write request = Ok (ForwardTo addr))) /\
  (forall e, admit_entry_size written request = Err e -> forall client_write',
     node_write written client_write' request = Err (NodeEntryTooLarge e) /\
     local_write written client_write' request = Err (BodyTooLarge MAX_ENTRY_BYTES)).
Proof.
  unfold node_write, local_write, map_write_err. split; [|split].
  - intros r. destruct (admit_entry_size _ _); [|done]. destruct (client_write request); naive_solver.
  - destruct (admit_entry_size _ _); [|naive_solver]. destruct (client_write request); naive_solver.
  - intros e He cw. rewrite He. split; [done|]. unfold admit_entry_size in He.
    repeat case_match; simplify_eq; done.
Qed.

(** ** The ends *)

(** [poll]'s clock moves by a millisecond at least between readings. *)
Definition ticking {A} (started : N) (poll : nat -> N * A) : Prop := forall i, (started + N.of_nat i <= (poll i).1)%N.

Lemma storage_release_ends fuel poll then_ i deadline :
  (exists j, i <= j < i + fuel /\ (deadline <= (poll j).1)%N) ->
  exists r, await_storage_release fuel poll then_ i deadline = Some r /\
    (r = Ok () <-> exists j, i <= j /\ (forall k, i <= k < j -> ((poll k).1 < deadline)%N) /\ ((poll j).2 <= NODE_HELD_DB_REFS)%N).
Proof.
  revert i. induction fuel as [|fuel IH]; intros i (j & Hj & Hd); [lia|]. cbn [await_storage_release].
  destruct (N.ltb_spec NODE_HELD_DB_REFS (poll i).2) as [Hrefs|Hrefs].
  2: { exists (Ok ()). repeat split. intros _. exists i. repeat split; [lia| |done]. intros; lia. }
  destruct (N.leb_spec deadline (poll i).1) as [Hi|Hi].
  - eexists. split; [done|]. split; [done|]. intros (k & Hk & Hbefore & Hr).
    destruct (decide (k = i)) as [->|]; [lia|]. specialize (Hbefore i). lia.
  - destruct (IH (S i)) as (r & Hr & Hiff). { exists j. destruct (decide (j = i)); [subst; lia|]. lia. }
    exists r. split; [done|]. rewrite Hiff. split; intros (k & Hk & Hbefore & Hle).
    + exists k. repeat split; [lia| |done]. intros l Hl. destruct (decide (l = i)); [by subst|]. apply Hbefore. lia.
    + exists k. destruct (decide (k = i)); [subst; lia|]. repeat split; [lia| |done]. intros l Hl. apply Hbefore. lia.
Qed.

(** A shutdown ends within its two seconds of readings, the port released however the core stopped.
    It succeeds exactly when the core stopped and, at a reading with the time not yet up before it,
    the node held the last handle of the database; a core that failed is the error reported. *)
Theorem shutdown_ends core poll then_ started :
  ticking started poll ->
  exists r, node_shutdown 2001 core poll then_ started = ([MarkInvoked; StopCore; AbortServer], Some r) /\
    (r = Ok () <-> core = Ok () /\
       exists j, (forall k, k < j -> ((poll k).1 < started + STORAGE_RELEASE_TIMEOUT)%N) /\ ((poll j).2 <= NODE_HELD_DB_REFS)%N) /\
    (forall e, core = Err e -> r = Err (NodeRuntime e)).
Proof.
  intros Ht.
  destruct (storage_release_ends 2001 poll then_ 0 (started + STORAGE_RELEASE_TIMEOUT)) as (r & Hr & Hiff).
  { exists 2000. split; [lia|]. specialize (Ht 2000). unfold STORAGE_RELEASE_TIMEOUT. lia. }
  unfold node_shutdown. rewrite Hr. eexists. split; [done|]. split; [|by intros e ->].
  destruct core as [[]|e].
  - rewrite Hiff. split; [intros (j & _ & H & Hj)|intros [_ (j & H & Hj)]]; [split; [done|]|]; exists j; repeat split; try done; try lia.
    + intros k Hk. apply H. lia.
    + intros k Hk. apply H. lia.
  - split; [done|]. by intros [? _].
Qed.

Lemma shutdown_ends_witness :
  exists r, node_shutdown 2001 (Ok ()) (fun i => (N.of_nat i, if (i <? 3)%nat then 2%N else 1%N)) 2 0
            = ([MarkInvoked; StopCore; AbortServer], Some r) /\ r = Ok ().
Proof.
  destruct (shutdown_ends (Ok ()) (fun i => (N.of_nat i, if (i <? 3)%nat then 2%N else 1%N)) 2 0) as (r & Hr & Hok & _); [intros i; cbn; lia|].
  exists r. split; [done|]. apply Hok. split; [done|]. exists 3. split; [|by cbn].
  intros k Hk. cbn. unfold STORAGE_RELEASE_TIMEOUT. lia.
Defined.

(** ** The start *)

Definition precedes {A} (x y : A) (l : list A) : Prop := exists before between after, l = before ++ x :: between ++ y :: after.

Lemma precedes_app {A} (x y : A) l1 l2 : x ∈ l1 -> y ∈ l2 -> precedes x y (l1 ++ l2).
Proof.
  intros (a & b & ->)%list_elem_of_split (c & d & ->)%list_elem_of_split. exists a, (b ++ c), d. by rewrite <- !(assoc_L (++)).
Qed.

(** The steps before the core is built. *)
Definition attached (c : NodeConfig) (routes sequencing flow_net : bool) : list NodeStep :=
  [OpenStore] ++ opt_step (nc_engine c) AttachEngine ++ opt_step routes AttachRoutes ++ opt_step sequencing AttachSequencing
  ++ opt_step flow_net AttachFlowNet ++ opt_step (negb match nc_secret c with Some _ => true | None => false end) WarnUnauthenticated.

Lemma elem_of_opt_step b s x : x ∈ opt_step b s <-> b = true /\ x = s.
Proof. destruct b; cbn; set_solver. Qed.

Lemma attached_quiet c routes sequencing flow_net s :
  s ∈ attached c routes sequencing flow_net -> s <> ServePort /\ forall b, s <> BindPort b.
Proof. unfold attached. rewrite !elem_of_app, !elem_of_opt_step. set_solver. Qed.

Lemma start_inner_up env c routes sequencing flow_net acts up :
  start_inner env c routes sequencing flow_net = (acts, Ok up) ->
  exists ops, acts = attached c routes sequencing flow_net
      ++ [BindPort (match nc_secret c with Some _ => true | None => false end); RaftNew (nu_advertise up); FillSlot]
      ++ [HoldGrace ops; SpawnPromotion; ServePort] /\
    hold_elections_until_leader_heard (ns_initialized env) (ns_init env) (ns_turns env) = Ok (ops, nu_grace_over_at up).
Proof.
  unfold start_inner. cbv zeta. fold (attached c routes sequencing flow_net).
  generalize (attached c routes sequencing flow_net) as pre. intros pre. destruct (ns_store env); [|done]. destruct (raft_config _ _); [|done]. destruct (ns_bind env); [|done].
  destruct (ns_local_addr env); [|done]. destruct (ns_raft_new env); [|done]. destruct (ns_slot_set env); [|done].
  destruct (hold_elections_until_leader_heard _ _ _) as [[ops over]|]; [|done].
  intros [= <- <-]. exists ops. cbn [nu_advertise nu_grace_over_at negb]. split; [|done].
  rewrite <- !app_assoc. done.
Qed.

Lemma start_inner_down env c routes sequencing flow_net acts e :
  start_inner env c routes sequencing flow_net = (acts, Err e) -> ServePort ∉ acts.
Proof.
  unfold start_inner. cbv zeta. fold (attached c routes sequencing flow_net).
  pose proof (attached_quiet c routes sequencing flow_net ServePort) as Hq. revert Hq.
  generalize (attached c routes sequencing flow_net) as pre. intros pre Hq. destruct (ns_store env); [|intros [= <- <-]; set_solver]. destruct (raft_config _ _); [|intros [= <- <-]; set_solver].
  destruct (ns_bind env); [|intros [= <- <-]; set_solver]. destruct (ns_local_addr env); [|intros [= <- <-]; set_solver].
  destruct (ns_raft_new env); [|intros [= <- <-]; set_solver]. destruct (ns_slot_set env); [|intros [= <- <-]; set_solver].
  destruct (hold_elections_until_leader_heard _ _ _) as [[? ?]|]; [done|]. intros [= <- <-]; set_solver.
Qed.

(** What the state machine drives is attached before the core that replays into it exists, and the
    port answers only once the hold on elections is in place; an unauthenticated port is warned of
    before it is bound; a start that failed serves nothing. *)
Theorem start_ordered env c routes sequencing flow_net acts r :
  start_inner env c routes sequencing flow_net = (acts, r) ->
  match r with
  | Err _ => ServePort ∉ acts
  | Ok up =>
      (nc_engine c = true -> precedes AttachEngine (RaftNew (nu_advertise up)) acts) /\
      (flow_net = true -> precedes AttachFlowNet (RaftNew (nu_advertise up)) acts) /\
      (exists ops, precedes (HoldGrace ops) ServePort acts /\ (ns_initialized env = Ok true -> ops = begin_grace)) /\
      (BindPort false ∈ acts -> precedes WarnUnauthenticated (BindPort false) acts)
  end.
Proof.
  destruct r as [up|e]; [|apply start_inner_down].
  intros (ops & -> & Hh)%start_inner_up. unfold hold_elections_until_leader_heard in Hh. repeat split.
  - intros He. apply precedes_app; [|set_solver]. unfold attached. rewrite !elem_of_app, !elem_of_opt_step. auto.
  - intros He. apply precedes_app; [|set_solver]. unfold attached. rewrite !elem_of_app, !elem_of_opt_step. auto 10.
  - exists ops. split; [rewrite (assoc_L (++)); by eexists _, [SpawnPromotion], []|].
    intros Hi. rewrite Hi in Hh. by simplify_eq.
  - intros Hb. apply precedes_app.
    + assert (nc_secret c = None) as Hs.
      { apply elem_of_app in Hb as [[_ Hn]%attached_quiet|Hb]; [by destruct (Hn false)|]. destruct (nc_secret c); [set_solver|done]. }
      unfold attached. rewrite Hs, !elem_of_app, !elem_of_opt_step. auto 10.
    + apply elem_of_app in Hb as [[_ Hn]%attached_quiet|Hb]; [by destruct (Hn false)|done].
Qed.
