(* ===== verification/Server.v ===== *)
(** * The server's command line and console

    The flags' resolution ([cli.rs]), the subcommands that act on a PID file ([bootstrap.rs]), the
    operator's [cluster] command ([cluster_cmd.rs]), the serving of the embedded console
    ([console.rs]), and the race of a start against a signal ([main.rs]). Files, signals, the
    engine's own checks and the bundle are inputs. *)

From S2P Require Import Prelude Upstream Json Spec Ring Node Auth Rpc Health Members FlowConfig Control Recorded StateMachine Intents Session Barrier Routing Front FrontHandle Runtime.

(** ** [cli.rs] *)

Definition read_secret_file (path : string) (contents : result string string) : result ConfigError string :=
  match contents with
  | Err e => Err (SecretFileUnreadable path e)
  | Ok raw => if String.eqb (trim raw) EmptyString then Err (SecretFileUnreadable path "file is empty") else Ok (trim raw)
  end.

(** The flags that decide the cluster's configuration. *)
Record ClusterFlags := {
  fl_cluster : bool;
  fl_bind : option (BindIp * N);
  fl_bind_public_ok : bool;
  fl_secret : option string;
  fl_secret_file : option string;
  fl_insecure : bool;
  fl_runtime : option string;
  fl_intercept_port : option N;
}.

Definition runtime_topology (f : ClusterFlags) : RuntimeTopology :=
  match fl_runtime f with
  | Some mode => if starts_with "per-core" (trim mode) then PerCore else WorkStealing
  | None => WorkStealing
  end.

Definition wants_intercept (f : ClusterFlags) : bool := match fl_intercept_port f with Some _ => true | None => false end.

Definition default_config : ClusterConfig :=
  {| cc_enabled := false; cc_bind := None; cc_bind_public_ok := false; cc_secret := None; cc_insecure := false;
     cc_runtime := WorkStealing; cc_intercept := false |}.

(** [read] is what reading a file gives. *)
Definition resolve_cluster (read : string -> result string string) (f : ClusterFlags) : result ConfigError ClusterConfig :=
  if negb (fl_cluster f) then Ok default_config
  else
    match match fl_secret f, fl_secret_file f with
          | Some secret, _ => Ok (Some secret)
          | None, Some path => match read_secret_file path (read path) with Ok s => Ok (Some s) | Err e => Err e end
          | None, None => Ok None
          end with
    | Err e => Err e
    | Ok secret =>
        let config := {| cc_enabled := fl_cluster f; cc_bind := fl_bind f; cc_bind_public_ok := fl_bind_public_ok f; cc_secret := secret;
                         cc_insecure := fl_insecure f; cc_runtime := runtime_topology f; cc_intercept := wants_intercept f |} in
        match config_validate config with Err e => Err e | Ok _ => Ok config end
    end.

(** The id a node proposes: from its name, or from the clock's nanoseconds since the epoch when they are known. *)
Definition proposed_node_id (xxh64 : bytes -> N -> N) (name : option string) (nanos : option N) : N :=
  match name with
  | Some name => N.max (xxh64 (as_bytes name) 0%N) 1%N
  | None => N.max (match nanos with Some n => if (n <=? u64_max)%N then n else 1%N | None => 1%N end) 1%N
  end.

Definition cluster_state_dir (state_dir datadir : option string) : string :=
  match state_dir with
  | Some d => d
  | None => match datadir with Some d => d +:+ "/_cluster" | None => ".rift/_cluster" end
  end.

(** ** [bootstrap.rs]: the PID file *)

Inductive PidError := NotAPid (raw : string) | ProcessGroup (pid : Z) | PidFileMissing | PidFileUnreadable (e : string) | StopFailed (e : string).

(** [str::parse::<i32>]: one sign, then digits. *)
Definition parse_i32 (s : string) : option Z :=
  match s with
  | String c rest =>
      if Ascii.eqb c "-" then
        match rest with
        | String d _ => if is_ascii_digit d then match from_str_radix 10 (2 ^ 31) rest with Some n => Some (- Z.of_N n)%Z | None => None end else None
        | EmptyString => None
        end
      else Z.of_N <$> from_str_radix 10 (2 ^ 31 - 1) s
  | EmptyString => None
  end.

Definition validate_pid (raw : string) : result PidError Z :=
  match parse_i32 (trim raw) with
  | None => Err (NotAPid raw)
  | Some pid => if (0 <? pid)%Z then Ok pid else Err (ProcessGroup pid)
  end.

(** The file, absent, unreadable or read; [stop] is upstream's stop of the process it names, within
    the seconds it is given. *)
Inductive PidFile := NoPidFile | BadPidFile (e : string) | HasPid (raw : string).

Definition stop_present_pidfile (stop : N -> result string ()) (ceiling : N) (f : PidFile) : result PidError () :=
  match f with
  | NoPidFile => Err (PidFileUnreadable "not found")
  | BadPidFile e => Err (PidFileUnreadable e)
  | HasPid raw =>
      match validate_pid raw with
      | Err e => Err e
      | Ok _ => match stop ceiling with Ok _ => Ok () | Err e => Err (StopFailed e) end
      end
  end.

Definition stop_via_pidfile (stop : N -> result string ()) (ceiling : N) (f : PidFile) : result PidError () :=
  match f with NoPidFile => Err PidFileMissing | f => stop_present_pidfile stop ceiling f end.

Definition stop_for_restart_via_pidfile (stop : N -> result string ()) (ceiling : N) (f : PidFile) : result PidError () :=
  match f with NoPidFile => Ok () | f => stop_present_pidfile stop ceiling f end.

(** What the file is after this process leaves; [removed] is whether removing it works. *)
Definition remove_own_pidfile (pid : N) (removed : bool) (f : PidFile) : PidFile :=
  match f with
  | HasPid raw => if String.eqb (trim raw) (pretty pid) && removed then NoPidFile else f
  | f => f
  end.

Definition SHUTDOWN_MARGIN : N := 5.

(** [Duration::add] panics when the seconds do not fit: [None]. *)
Definition stop_ceiling (leave_timeout : N) : option N :=
  if (leave_timeout + SHUTDOWN_MARGIN <=? u64_max)%N then Some (leave_timeout + SHUTDOWN_MARGIN)%N else None.

Inductive Commands := CStop | CRestart | CSave | CReplay | CEarly | CStart.

Inductive AfterBootstrap := AfterServe | AfterDone.

Inductive DispatchError := DPanic | DPid (e : PidError) | DSave (e : string) | DInRuntime | DReplay (e : string) | DReplayClustered | DInternal.

(** [CEarly] is [script], [healthcheck] or [intercept-ca]; [saved] is what upstream's save ends in,
    [replayed] its check that a replay names a file. *)
Definition bootstrap_dispatch (stop : N -> result string ()) (pidfile : PidFile) (leave_timeout : N) (in_runtime cluster : bool)
    (saved replayed : result string ()) (c : option Commands) : result DispatchError AfterBootstrap :=
  match c with
  | Some CStop =>
      match stop_ceiling leave_timeout with
      | None => Err DPanic
      | Some ceiling => match stop_via_pidfile stop ceiling pidfile with Ok _ => Ok AfterDone | Err e => Err (DPid e) end
      end
  | Some CRestart =>
      match stop_ceiling leave_timeout with
      | None => Err DPanic
      | Some ceiling => match stop_for_restart_via_pidfile stop ceiling pidfile with Ok _ => Ok AfterServe | Err e => Err (DPid e) end
      end
  | Some CSave =>
      if in_runtime then Err DInRuntime
      else match saved with Ok _ => Ok AfterDone | Err e => Err (DSave e) end
  | Some CReplay =>
      match replayed with
      | Err e => Err (DReplay e)
      | Ok _ => if cluster then Err DReplayClustered else Ok AfterServe
      end
  | Some CEarly => Err DInternal
  | Some CStart | None => Ok AfterServe
  end.

(** ** [main.rs]: serving *)

(** What a start meets: the handler's installation, whether the signal lands before the start is
    over, the start, and what serving ends in. *)
Record ServeEnv := {
  se_installed : result string ();
  se_signalled : bool;
  se_started : result string ();
  se_served : result string ();
  se_meanwhile : PidFile -> PidFile;
}.

Inductive ServeAct := WrotePidfile | ShutServer | ServedUntil.

(** The PID file's write: its text, or what a failed write leaves. *)
Definition write_pidfile (pid : N) (failure : option (string * PidFile)) : PidFile * result string () :=
  match failure with
  | Some (e, left_) => (left_, Err e)
  | None => (HasPid (pretty pid), Ok ())
  end.

(** [serve]: the acts, the PID file when it returns, and the outcome; [named] is whether [--pidfile] was
    given. The context an error carries is left out. *)
Definition serve_process (env : ServeEnv) (pid : N) (named : bool) (failure : option (string * PidFile)) (file : PidFile)
    : list ServeAct * PidFile * result string () :=
  match se_installed env with
  | Err e => ([], file, Err e)
  | Ok _ =>
      if se_signalled env then ([], file, Ok ())
      else match se_started env with
           | Err e => ([], file, Err e)
           | Ok _ =>
               if named then
                 match write_pidfile pid failure with
                 | (file, Err e) => ([ShutServer], file, Err e)
                 | (file, Ok _) => ([WrotePidfile; ServedUntil], se_meanwhile env file, se_served env)
                 end
               else ([ServedUntil], se_meanwhile env file, se_served env)
           end
  end.

(** The tail of [main]: whatever [run] ended in, the file is removed when it still names this process. *)
Definition run_and_clean (env : ServeEnv) (pid : N) (named removed : bool) (failure : option (string * PidFile)) (file : PidFile)
    : list ServeAct * PidFile * result string () :=
  let '(acts, file, outcome) := serve_process env pid named failure file in
  (acts, if named then remove_own_pidfile pid removed file else file, outcome).

(** ** [cluster_cmd.rs] *)

Definition is_cluster_command (args : list string) : bool := match args !! 1 with Some arg => String.eqb arg "cluster" | None => false end.

Definition describe_seen (seen : ProbeSeen) : string :=
  match seen with
  | NoAnswer => "no answer"
  | NoAddress detail => "no address (" +:+ detail +:+ ")"
  | AnotherNode id => "answered as node " +:+ pretty id +:+ " (the address was reused)"
  end.

Definition newline_char : string := String (Ascii.ascii_of_N 10) EmptyString.

(** [voters] is the list as [Debug] prints it. *)
Definition describe_reply (debug_voters : gset NodeId -> string) (node_id : NodeId) (reply : RetireReply) : result string string :=
  let node := "node " +:+ pretty node_id in
  match reply with
  | Retired m_idx voters evidence =>
      Ok (foldl (fun text probe => text +:+ newline_char +:+ "  " +:+ probe.1 +:+ ": " +:+ describe_seen probe.2)
            ("retired " +:+ node +:+ ": the membership is now at log index " +:+ pretty m_idx +:+ ", voters " +:+ debug_voters voters) evidence)
  | NotAMember =>
      Ok (node +:+ " is not a member of the cluster; nothing to retire (if you expected it to be, check the id against /_fleet/members)")
  | RetireRefused IsLeader => Err ("refused: " +:+ node +:+ " is the leader, so it is alive; stop it and it will leave on its own")
  | RetireRefused (Reachable addr) =>
      Err ("refused: " +:+ node +:+ " answers at " +:+ addr
           +:+ ", so it is alive; stop it and it will leave on its own (if it cannot be stopped, fence its host first)")
  | RetireRefused (UnidentifiedAt addr detail) =>
      Err ("refused: something answers at " +:+ addr +:+ " but could not say which node it is (" +:+ detail +:+ "); make sure " +:+ node
           +:+ " is stopped, and upgrade any node older than this command")
  | RetireRefused RetireHeldByFloor => Err ("refused: retiring " +:+ node +:+ " would leave fewer than two voters")
  end.

Definition describe_error (error : NodeError) : string :=
  match error with
  | NodeUnavailable detail => "no leader could act on the request: " +:+ detail
  | other => NodeError_display other
  end.

Inductive CommandError := SecretFile (e : ConfigError) | NoSecret | RetireFailed (text : string) | CommandRefused (text : string).

(** The command: [retire_via] asks the fleet with the secret it is given. *)
Definition run_remove_node (read : string -> result string string) (retire_via : option string -> result NodeError RetireReply)
    (debug_voters : gset NodeId -> string) (secret secret_file : option string) (insecure : bool) (node_id : NodeId) : result CommandError string :=
  match match secret, secret_file with
        | Some s, _ => Ok (Some s)
        | None, Some path => match read_secret_file path (read path) with Ok s => Ok (Some s) | Err e => Err e end
        | None, None => Ok None
        end with
  | Err e => Err (SecretFile e)
  | Ok secret =>
      if negb (match secret with Some s => negb (String.eqb s EmptyString) | None => false end || insecure) then Err NoSecret
      else match retire_via secret with
           | Err e => Err (RetireFailed (describe_error e))
           | Ok reply => match describe_reply debug_voters node_id reply with Ok text => Ok text | Err text => Err (CommandRefused text) end
           end
  end.

(** ** [console.rs] *)

Definition CSP : string :=
  "default-src 'self'; script-src 'self' 'wasm-unsafe-eval'; style-src 'self' 'unsafe-inline'; connect-src 'self'; frame-ancestors 'none'".
Definition SHELL : string := "index.html".
Definition HASHED_DIR : string := "assets/".

Record ConsoleResponse := { cr_status : N; cr_headers : list (string * string); cr_body : bytes }.

Definition asset_key (path : string) : string :=
  match strip_prefix "/console/" path with
  | None => SHELL
  | Some rest => if String.eqb rest EmptyString then SHELL else rest
  end.

Definition contains_char (c : ascii) (s : string) : bool := negb (string_forallb (fun d => negb (Ascii.eqb d c)) s).

Definition is_safe_key (relative : string) : bool :=
  negb (starts_with "/" relative) && negb (contains_char "\" relative)
  && negb (existsb (fun segment => String.eqb segment "..") (split_char "/" relative)).

Definition has_extension (relative : string) : bool :=
  match last (split_char "/" relative) with Some segment => contains_char "." segment | None => false end.

Definition content_type (relative : string) : string :=
  let extension := default EmptyString (last (split_char "." relative)) in
  let ext := fun s => String.eqb extension s in
  if ext "html" then "text/html; charset=utf-8"
  else if ext "js" || ext "mjs" then "text/javascript; charset=utf-8"
  else if ext "css" then "text/css; charset=utf-8"
  else if ext "json" then "application/json"
  else if ext "svg" then "image/svg+xml"
  else if ext "png" then "image/png"
  else if ext "jpg" || ext "jpeg" then "image/jpeg"
  else if ext "webp" then "image/webp"
  else if ext "gif" then "image/gif"
  else if ext "ico" then "image/x-icon"
  else if ext "woff2" then "font/woff2"
  else if ext "woff" then "font/woff"
  else if ext "ttf" then "font/ttf"
  else if ext "txt" then "text/plain; charset=utf-8"
  else if ext "map" then "application/json"
  else if ext "wasm" then "application/wasm"
  else "application/octet-stream".

Definition console_respond (status : N) (body : bytes) (ctype cache : string) : ConsoleResponse :=
  {| cr_status := status;
     cr_headers := [("content-type", ctype); ("cache-control", cache); ("content-security-policy", CSP); ("x-content-type-options", "nosniff")];
     cr_body := body |}.

Definition console_refusal (status : N) (message : string) : ConsoleResponse :=
  console_respond status (as_bytes message) "text/plain; charset=utf-8" "no-store".

Definition asset_response (relative : string) (data : bytes) : ConsoleResponse :=
  console_respond 200 data (content_type relative)
    (if starts_with HASHED_DIR relative then "max-age=31536000, immutable" else "no-cache").

(** [assets] is the embedded bundle. *)
Definition console_serve (assets : string -> option bytes) (method path : string) : ConsoleResponse :=
  if negb (String.eqb method "GET") && negb (String.eqb method "HEAD") then
    let response := console_refusal 405 "the console serves static assets; only GET and HEAD are supported" in
    {| cr_status := cr_status response; cr_headers := cr_headers response ++ [("allow", "GET, HEAD")]; cr_body := cr_body response |}
  else
    let relative := asset_key path in
    if negb (is_safe_key relative) then console_refusal 404 "no such console asset"
    else match assets relative with
         | Some data => asset_response relative data
         | None =>
             if has_extension relative then console_refusal 404 "no such console asset"
             else match assets SHELL with
                  | Some data => asset_response SHELL data
                  | None => console_refusal 500 "the console bundle embedded in this binary contains no index.html"
                  end
         end.
