(* ===== verification/ServerFacts.v ===== *)
(** * The command line and the console: what they promise

    What a request of the console can be answered, that a clustered process never starts without a
    readable secret, and whose PID file a process removes. *)

From S2P Require Import Prelude Upstream Json Spec Ring Node Auth Rpc Health Members FlowConfig Control Recorded StateMachine Intents Session Barrier Routing Front FrontHandle Runtime RuntimeFacts Server.

(** ** The console *)

(** Every answer carries the policy, and forbids sniffing. *)
Lemma console_policy assets method path :
  ("content-security-policy", CSP) ∈ cr_headers (console_serve assets method path) /\
  ("x-content-type-options", "nosniff") ∈ cr_headers (console_serve assets method path).
Proof.
  unfold console_serve, console_refusal, asset_response, console_respond. cbv zeta.
  repeat case_match; cbn [cr_headers]; rewrite ?elem_of_app; split; try left; set_solver.
Qed.

(** A bundle is asked for safe keys only. *)
Definition same_on_safe (a b : string -> option bytes) : Prop := forall k, is_safe_key k = true -> a k = b k.

(** What lies outside the bundle's directory cannot change an answer; an answer of 200 is the file
    the path names or the shell, never the shell for a name with an extension. *)
Theorem console_confined assets assets' method path :
  same_on_safe assets assets' ->
  console_serve assets method path = console_serve assets' method path /\
  (cr_status (console_serve assets method path) = 200%N ->
   exists key data, is_safe_key key = true /\ assets key = Some data /\
     console_serve assets method path = asset_response key data /\
     (key = asset_key path \/
      key = SHELL /\ assets (asset_key path) = None /\ has_extension (asset_key path) = false)).
Proof.
  intros Hs. unfold console_serve. cbv zeta.
  destruct (negb _ && negb _); [by split|].
  destruct (is_safe_key (asset_key path)) eqn:Hk; cbn [negb]; [|by split].
  rewrite <- (Hs _ Hk), <- (Hs SHELL eq_refl).
  destruct (assets (asset_key path)) as [d|] eqn:Ha; [split; [done|]; intros _; exists (asset_key path), d; naive_solver|].
  destruct (has_extension _) eqn:He; [by split|].
  destruct (assets SHELL) as [d|] eqn:Hd; split; try done.
  intros _. exists SHELL, d. naive_solver.
Qed.

Lemma console_confined_witness :
  exists assets assets' : string -> option bytes, assets "../secret" <> assets' "../secret" /\
    console_serve assets "GET" "/console/../secret" = console_serve assets' "GET" "/console/../secret".
Proof.
  exists (fun k => if String.eqb k "index.html" then Some [] else None),
    (fun k => if String.eqb k "index.html" then Some [] else if String.eqb k "../secret" then Some [] else None).
  split; [by vm_compute|].
  apply (console_confined (fun k => if String.eqb k "index.html" then Some [] else None)
           (fun k => if String.eqb k "index.html" then Some [] else if String.eqb k "../secret" then Some [] else None)).
  intros k Hk. destruct (String.eqb k "index.html"); [done|]. destruct (String.eqb_spec k "../secret"); [|done].
  subst. by vm_compute in Hk.
Defined.

(** The client-side route the comment names has a dot in its last segment, and does not reach the shell. *)
Lemma dotted_route_refused data :
  cr_status (console_serve (fun k => if String.eqb k SHELL then Some data else None) "GET" "/console/imposters/v1.2") = 404%N.
Proof. reflexivity. Qed.

(** ** The secret *)

(** A configuration that is resolved with the cluster on is valid, and has a secret that is not
    empty unless the operator said it may be without one; without the master switch no file is read. *)
Theorem resolve_fails_closed read f :
  match resolve_cluster read f with
  | Ok config =>
      config_validate config = Ok () /\
      (fl_cluster f = true -> fl_insecure f = true \/ exists s, cc_secret config = Some s /\ s <> EmptyString)
  | Err _ => fl_cluster f = true
  end /\
  (fl_cluster f = false -> resolve_cluster read f = Ok default_config).
Proof.
  unfold resolve_cluster. destruct (fl_cluster f) eqn:Hc; cbn [negb]; [|by repeat split].
  split; [|done].
  set (secret := match fl_secret f with Some _ => _ | None => _ end).
  destruct secret as [s|e]; [|done]. cbv zeta.
  destruct (config_validate _) as [[]|e] eqn:Hv; [|done]. split; [done|]. intros _.
  unfold config_validate in Hv. cbn [cc_enabled] in Hv. repeat case_match; try done.
  all: match goal with H : lacks_secret _ && _ = false |- _ => apply andb_false_iff in H as [H|H] end.
  all: unfold lacks_secret in *; cbn in *.
  - right. destruct s as [s|]; [|done]. exists s. split; [done|]. by apply String.eqb_neq.
  - left. by destruct (fl_insecure f).
Qed.

(** An empty or unreadable secret file refuses the operator's command too, before the fleet is asked. *)
Lemma remove_node_needs_secret read retire_via debug_voters path insecure node_id :
  (forall raw, read path = Ok raw -> trim raw = EmptyString) ->
  exists e, run_remove_node read retire_via debug_voters None (Some path) insecure node_id = Err (SecretFile e).
Proof.
  intros H. unfold run_remove_node, read_secret_file. destruct (read path) as [raw|e] eqn:Hr; [|eauto].
  rewrite (H raw eq_refl). cbn. eauto.
Qed.

(** ** The PID file *)

(** What the removal at the exit leaves: another process's file as it is, and no file of this one's. *)
Lemma removal_other (pid : N) removed raw : trim raw <> pretty pid -> remove_own_pidfile pid removed (HasPid raw) = HasPid raw.
Proof. cbn. by intros ->%String.eqb_neq. Qed.

Lemma removal_own (pid : N) : remove_own_pidfile pid true (HasPid (pretty pid)) = NoPidFile.
Proof. cbn. by rewrite trim_pretty, String.eqb_refl. Qed.

(** A process leaves the PID file of another as it is: the one it found when it did not come to
    write its own, and the one written over its own while it served. One that served, and whose
    file nothing else wrote, leaves none when the removal works. A start the signal abandoned does
    nothing, and what [main] answers is what serving answered. *)
Theorem pidfile_own_only env pid named removed failure file :
  let r := run_and_clean env pid named removed failure file in
  (r.1.1 = [] -> forall raw, file = HasPid raw -> trim raw <> pretty pid -> r.1.2 = file) /\
  (WrotePidfile ∈ r.1.1 -> forall raw, se_meanwhile env (HasPid (pretty pid)) = HasPid raw ->
     trim raw <> pretty pid -> r.1.2 = HasPid raw) /\
  (WrotePidfile ∈ r.1.1 -> removed = true -> se_meanwhile env (HasPid (pretty pid)) = HasPid (pretty pid) ->
     r.1.2 = NoPidFile) /\
  (se_signalled env = true -> r.1.1 = []) /\
  (ServedUntil ∈ r.1.1 -> r.2 = se_served env).
Proof.
  cbv zeta. unfold run_and_clean, serve_process, write_pidfile.
  destruct (se_installed env), (se_signalled env), (se_started env), named, failure as [[? ?]|]; cbn -[remove_own_pidfile];
    repeat split; intros; subst; try done;
    try match goal with H : se_meanwhile _ _ = _ |- _ => rewrite H end;
    first [ by apply removal_other | apply removal_own | set_solver ].
Qed.

(** ** The subcommands *)

(** Only [stop] and [restart] signal a process, within the time they were told, and only one a file
    names by a positive number: what any other signal would do cannot change an outcome. *)
Theorem dispatch_signals_one stop stop' pidfile leave_timeout in_runtime cluster saved replayed c :
  (forall raw pid, pidfile = HasPid raw -> parse_i32 (trim raw) = Some pid -> (0 < pid)%Z ->
     stop (leave_timeout + SHUTDOWN_MARGIN)%N = stop' (leave_timeout + SHUTDOWN_MARGIN)%N) ->
  bootstrap_dispatch stop pidfile leave_timeout in_runtime cluster saved replayed c
  = bootstrap_dispatch stop' pidfile leave_timeout in_runtime cluster saved replayed c.
Proof.
  intros H.
  assert (forall ceiling, stop_ceiling leave_timeout = Some ceiling ->
    stop_present_pidfile stop ceiling pidfile = stop_present_pidfile stop' ceiling pidfile) as Hs.
  { unfold stop_ceiling. intros ceiling ?. case_match; simplify_eq.
    unfold stop_present_pidfile, validate_pid. destruct pidfile as [| |raw]; try done.
    destruct (parse_i32 (trim raw)) as [pid|] eqn:Hp; [|done].
    destruct (Z.ltb_spec 0 pid); [|done]. by rewrite (H raw pid). }
  destruct c as [[]|]; cbn; try done; destruct (stop_ceiling leave_timeout) as [ceiling|] eqn:E; try done;
    specialize (Hs ceiling eq_refl); destruct pidfile; cbn -[stop_present_pidfile]; by rewrite ?Hs.
Qed.

(** The ceiling of [stop] panics on a leave time-out the flag accepts. *)
Lemma stop_ceiling_overflows : stop_ceiling u64_max = None /\ stop_ceiling (u64_max - 5) = Some u64_max.
Proof. done. Qed.
